(* ===== verification/_CoqProject ===== *)
-Q . S2P
Prelude.v
Types.v
Util.v
Codec.v
Configuration.v
Config.v
Commitment.v
Stores.v
State.v
Elections.v
AppendEntries.v
SnapshotStores.v
Disk.v
FileSnapshots.v
Snapshot.v
Fsm.v
Replication.v
Leader.v
Api.v
Server.v
Advance.v
Protocol.v
Logs.v
Cluster.v
Network.v
Agreement.v
Safety.v
CatchUp.v
Routines.v
Startup.v
Futures.v
Fmt.v
Pipeline.v
NetTransport.v
InmemTransport.v
Observers.v
Queries.v
Tcp.v
InmemPipeline.v
Testing.v
TestCluster.v
Fuzzy.v
FuzzyCluster.v
Compat.v
