(* ===== verification/Prelude.v ===== *)
(** * Verification of a Raft consensus library

    The program under [src/] is a library for replicated state machines (a fork of
    hashicorp/raft).  A server is a [Raft] object.  Its main thread ([raft.go]) is a
    follower, a candidate or a leader and handles the requests of the other servers;
    further goroutines replicate the leader's log to each follower ([replication.go]),
    feed the user's state machine ([fsm.go]) and take snapshots ([snapshot.go]).  A
    server keeps its log and its votes in stores ([log.go], [stable.go],
    [inmem_store.go], [log_cache.go]), its snapshots in a snapshot store
    ([file_snapshot.go], [inmem_snapshot.go], [discard_snapshot.go]), and talks to the
    others through a transport ([net_transport.go], [inmem_transport.go]).  Users talk
    to it through the calls of [api.go], which return the futures of [future.go].

    ** How the code is modelled

    A Go function without effects is a Rocq function.  A method that mutates its
    receiver is a computation of the state monad [M] below; [Panicked] keeps the state
    that the receiver and the disk had at the panic.  An error is a value of [error],
    a fallible result a [result].  [uint64] is [N] with the wrapping operations below,
    [int], [int64] and [time.Duration] are [Z], strings and byte slices are [string].
    A map is a [gmap]; where the code ranges over a map, no result depends on the
    order.  Objects that are shared by reference (sinks of snapshots, verification
    futures, connections, pipelines) live in a store and are referred to by a handle.
    The clock, the network, the answers of other threads and the failures of disks and
    connections are arguments, so that the theorems hold for all of them.  Concurrency
    is a step relation or a [select] whose ready cases are an argument.

    Interfaces are classes: [LogStore], [StableStore], [SnapshotStore], [FSM],
    [MsgPack] (the third-party codec), [PeerCodec], [MetaJSON], [RPCCodec].  Where a
    theorem relies on their documented behaviour it takes the laws of the class
    ([LogStoreLaws] and so on), and a concrete instance with a proof of the laws shows
    that they can hold.

    ** The files

    - [Prelude]: integers, lists, strings, the monad, frames and their automation.
    - [Types] ([log.go], [configuration.go], [commands.go], [state.go],
      [snapshot.go]), [Util] ([util.go]), [Codec] (the codecs as classes), [Config]
      ([config.go]: defaults, validation, reload).
    - [Configuration] ([configuration.go], [peersjson.go]): the validity of a
      membership, single-server changes against an abstract map, the encodings.
    - [Commitment] ([commitment.go]): the commit index of a leader.
    - [Stores] ([log.go], [stable.go], [inmem_store.go], [log_cache.go]): the
      interfaces, [InmemStore], and [LogCache] as a refinement of what it caches.
    - [State] ([state.go], [api.go], [raft.go]): the fields of a server that the main
      thread uses, and their setters.
    - [Elections] ([raft.go]): [requestVote], [requestPreVote], [timeoutNow],
      [electSelf], [preElectSelf] and the tally of [runCandidate].
    - [AppendEntries] ([raft.go]): [appendEntries], [processLogs] and the
      configuration entries of a follower.
    - [SnapshotStores], [Disk], [FileSnapshots], [Snapshot]: the interface and the
      stores in memory; a directory whose system calls can fail or end the process;
      [file_snapshot.go] over it; [takeSnapshot], [installSnapshot] and compaction.
    - [Fsm] ([fsm.go]): the thread of the state machine, with and without batches.
    - [Replication] ([replication.go]) and [Leader] ([raft.go]): what a leader sends to
      a follower and does with the answers; every case of [leaderLoop].
    - [Api], [Startup], [Futures], [Queries] ([api.go], [raft.go], [future.go]):
      bootstrapping, recovering and starting a server; futures and the calls that offer
      them; what a server reports about itself.
    - [Server] ([raft.go]): [processRPC], [processHeartbeat] and the loops of the main
      thread as one step per event.
    - [Advance], [Cluster]: what every step of a server keeps, and a cluster of servers
      that campaign against each other.
    - [Protocol]: Raft as a protocol over lists of entries, with its invariant.  [Logs]:
      what the operations of a server do to a log store that holds a list, and that
      [InmemStore] is one.  [Network]: a cluster with the requests, answers and
      heartbeats that its servers really send.  [Agreement]: every step of such a
      network is a sequence of steps of the protocol.  [Safety]: what follows.
    - [CatchUp]: [replicateTo] against a follower that answers.  [Routines]
      ([replication.go], [raft.go], [snapshot.go]): the loops of the goroutines beside
      the main thread, [replicate] with its pipeline, [heartbeat], the two goroutines of
      each leadership transfer, and [runSnapshots].
    - [Fmt], [Pipeline], [NetTransport] ([net_transport.go]): the framing of requests
      and responses, the pool of connections, both ends of a connection with Raft
      servers behind it, and the pipeline of append requests as a step relation over
      its channels.
    - [Tcp] ([tcp_transport.go], [net_transport.go]): creating a transport; the listener
      and the contexts of its connection handlers.
    - [InmemTransport], [InmemPipeline] ([inmem_transport.go]).
    - [Observers] ([observer.go], [saturation.go], [progress.go]): observers and their
      channels, how busy a loop is, counting readers.
    - [Testing], [TestCluster] ([testing.go], [testing_batch.go]): the mock state machine
      and its snapshots, also over the slices that they share; making, connecting and
      partitioning a cluster, and the checks on it.
    - [Fuzzy], [FuzzyCluster] ([fuzzy/]): the state machine, the verifier of append
      requests, the transport with its hooks and its pipeline, and the checks of the fuzz
      tests.  [Compat] ([raft-compat/]): clusters of two versions and the conversion of
      their stores.

    ** What is shown

    Elections: in every execution of a cluster of fixed membership no term has two
    leaders, whatever messages are lost, disks fail and servers restart, as long as
    heartbeats of candidates are handled by the main thread
    ([Cluster.election_safety]); the transport's fast path for heartbeats breaks this
    ([Cluster.heartbeat_fast_path_two_leaders]).  A server keeps every vote that it
    granted ([Elections.requestVote_safe]).

    Agreement: in every execution of a network, what two servers have committed, at any
    two times, agrees ([Safety.state_machine_safety]); a leader has what was committed
    up to its term ([Safety.leader_completeness]); logs with an entry of the same index
    and term agree up to it ([Safety.log_matching]).  The executions have a fixed
    membership and no snapshots, log stores that are lists and stable stores whose
    writes succeed ([ListStore], [SteadyStore]; [Elections.requestVote_torn_vote] shows
    why a failing write matters), and start with the same log on every server.  A
    handler is one step, a request is built in one step, and the routines of a leader
    stop when its loop is left.  Two things are excluded, and a run of three servers
    shows for each that two servers then commit different entries at one index:
    heartbeats on the fast path while the main thread waits in the loop of a leader
    ([Safety.heartbeat_fast_path_diverges]), and a routine that uses a last index it read
    before its leader had stored the entry that opens its term
    ([Safety.stale_last_index_diverges]).

    Replication: a successful [appendEntries] makes the log agree with the request and
    removes nothing that agrees with it; the commit index moves forward only, to what
    the log holds; the commit index of a leader is the largest index of its term that
    a majority of the voters store, over every sequence of reports and membership
    changes; a round trip through a follower's handler reports only what the follower
    stores.  Committed entries reach the state machine once, in order, and batches
    change nothing.  Every quorum of a configuration meets every quorum of the next.
    Against a follower whose log may have diverged in any way and that answers,
    [replicateTo] ends after a bounded number of rounds with the follower holding the
    leader's log ([CatchUp.replicateTo_catches_up]); a pipeline sends each entry once, in
    order ([Routines.pipeline_contiguous]).

    Goroutines: the future of a leadership transfer is answered once, with success only
    when the leader has left its loop ([Routines.transfer_outcome]); two runs show how
    the flag of a transfer is lost and how a transfer outlives its timeout
    ([Routines.transfer_flag_lost], [Routines.transfer_stuck]).  Observers get what they
    want in order or count it as dropped ([Observers.observe_counts],
    [Observers.observe_order]); a saturation lies between 0 and 1
    ([Observers.saturation_bounded]).

    Snapshots: taken, installed and compacted snapshots lose no entry that is not
    covered; a snapshot on disk is complete or absent, whatever system call fails or
    is the last, and what was written is read back.

    Transport: a call is answered by the server that was asked, which handled the
    command once; a failed call was handled at most once; a pooled connection is idle
    and none is lost; pipelined requests are answered in order, at most
    [MaxRPCsInFlight] are in flight, and a pipeline does not get stuck; the pipelines in
    memory keep the same promises ([InmemPipeline.inmem_pipeline_order],
    [InmemPipeline.inmem_pipeline_progress]).  A failed attempt to create a transport
    leaves no listener open ([Tcp.newTCPTransport_spec]), and closing the streams ends
    the handlers of the connections ([Tcp.CloseStreams_ends_handlers]).

    Starting: a server that was bootstrapped or recovered starts with the given
    configuration and state machine.

    Tests: the tools that test the library are checked too.  The snapshots of the mock
    state machine do not change under it ([Testing.mock_snapshots_stable]); a made cluster
    is bootstrapped and fully connected ([TestCluster.makeCluster_bootstrapped]) and a
    partition separates exactly its two sides ([TestCluster.Partition_spec]); the verifier
    reports something exactly when two leaders sent requests of a term, each under its
    own name ([Fuzzy.verifier_exact]), and a cluster that [VerifyLog] accepts has equal logs with
    what was applied ([Fuzzy.VerifyLog_sound]).  Converting a store to another version
    keeps the entries and loses the term and the vote
    ([Compat.convertInMemStoreToUIT_logs], [Compat.convertInMemStoreToUIT_forgets],
    [Compat.upgrade_second_vote]).

    Several theorems show where the code does not do what it means to: see also
    [Leader.configurationChange_unlogged], [Leader.verifyLeader_counts_nonvoter],
    [Elections.requestVote_torn_vote], [Startup.RecoverCluster_empty_log],
    [Snapshot.shouldSnapshot_exact], [NetTransport.snapshot_data_as_command],
    [InmemTransport.inmem_pipeline_refusal],
    [Futures.GetConfiguration_index_unchecked].

    ** Fuel

    Loops that are not structural run on fuel, and a lemma shows that what the callers
    give is enough: [bufio_Write] ([Disk]), [handleConn] (one unit per byte, each
    command takes at least one: [handleConn_enough]), [printf_loop]
    ([printf_loop_enough]), [disconnect_loop] (the cells left).  Loops over indexes
    take the number of indexes.  [replicateTo] takes a script of network outcomes, one
    per round; the histories of [Pipeline], [Cluster]
    and [Network] are unbounded.

    ** Not modelled

    Logging and metrics: no decision of the library depends on them.  Locks and the
    memory model: a method that holds a lock is one step.  The calls of
    [tcp_transport.go] that only pass on to a socket.  Of the test tools, the loggers, the
    files that failing fuzz tests leave, [GetInState] of [testing.go], which waits for a
    cluster to stay in a state for some time, membership changes in [fuzzy/cluster.go],
    the set-up of servers of the previous version in [raft-compat/], and [bench/], which
    only times calls of a store. *)
From stdpp Require Export base gmap strings list list_numbers sorting pretty.

(** ** Machine integers

    [uint64] values are [N]; every arithmetic operation of the source that can
    wrap around is written with the operations below. *)

Declare Scope u64_scope.
Delimit Scope u64_scope with u64.

Definition u64_size : N := 18446744073709551616.

Definition u64_add (a b : N) : N := ((a + b) `mod` u64_size)%N.

Definition u64_sub (a b : N) : N :=
  ((a + (u64_size - b `mod` u64_size)) `mod` u64_size)%N.

Definition in_u64 (a : N) : Prop := (a < u64_size)%N.

Infix "+" := u64_add : u64_scope.
Infix "-" := u64_sub : u64_scope.

#[export] Instance in_u64_dec a : Decision (in_u64 a).
Proof. unfold in_u64. apply _. Defined.

Ltac u64 := unfold u64_add, u64_sub, in_u64, u64_size in *; lia.

Lemma u64_add_small a b : (a + b < u64_size)%N -> u64_add a b = (a + b)%N.
Proof. intros. unfold u64_add. by apply N.mod_small. Qed.

Lemma u64_sub_small a b :
  in_u64 a -> (b <= a)%N -> u64_sub a b = (a - b)%N.
Proof.
  unfold u64_sub, in_u64. intros Ha Hb.
  rewrite (N.mod_small b) by lia.
  replace (a + (u64_size - b))%N with ((a - b) + 1 * u64_size)%N by lia.
  rewrite N.Div0.mod_add. apply N.mod_small. lia.
Qed.

Lemma u64_sub_wrap a b :
  in_u64 a -> in_u64 b -> (a < b)%N -> u64_sub a b = (u64_size - (b - a))%N.
Proof.
  unfold u64_sub, in_u64. intros Ha Hb Hlt.
  rewrite (N.mod_small b) by done. rewrite N.mod_small; lia.
Qed.

Lemma u64_add_range a b : in_u64 (u64_add a b).
Proof. unfold in_u64, u64_add. apply N.mod_lt. done. Qed.

Lemma u64_sub_range a b : in_u64 (u64_sub a b).
Proof. unfold in_u64, u64_sub. apply N.mod_lt. done. Qed.

(** Signed 64-bit values ([int64], [time.Duration]) are [Z]; [i64_wrap] is the
    value a 64-bit two's complement register keeps. *)
Definition i64_wrap (z : Z) : Z :=
  ((z + 9223372036854775808) `mod` 18446744073709551616 - 9223372036854775808)%Z.

Definition in_i64 (z : Z) : Prop :=
  (-9223372036854775808 <= z < 9223372036854775808)%Z.

Lemma i64_wrap_small z : in_i64 z -> i64_wrap z = z.
Proof. unfold in_i64, i64_wrap. intros. rewrite Z.mod_small; lia. Qed.

(** ** Lists *)

Section Filter.
Context {A : Type} (P : A -> Prop) `{forall x, Decision (P x)}.

Lemma filter_none (l : list A) : (forall x, x ∈ l -> ~ P x) -> filter P l = [].
Proof.
  induction l as [|x l IH]; intros Hl; [done|].
  rewrite filter_cons_False by (apply Hl; left). apply IH. intros y Hy.
  apply Hl. by right.
Qed.

Lemma filter_every (l : list A) : (forall x, x ∈ l -> P x) -> filter P l = l.
Proof.
  induction l as [|x l IH]; intros Hl; [done|].
  rewrite filter_cons_True by (apply Hl; left). f_equal. apply IH. intros y Hy.
  apply Hl. by right.
Qed.

Lemma length_filter_fmap {B} (f : B -> A) (l : list B) :
  length (filter P (f <$> l)) = length (filter (fun x => P (f x)) l).
Proof.
  induction l as [|x l IH]; [done|].
  rewrite fmap_cons, !filter_cons. case_decide; simpl; by rewrite IH.
Qed.
End Filter.

Lemma half_spec (n : nat) : (2 * (n / 2) <= n < 2 * (n / 2) + 2)%nat.
Proof.
  pose proof (Nat.div_mod_eq n 2). pose proof (Nat.mod_upper_bound n 2). lia.
Qed.

(** [n] consecutive indexes from [i]. *)
Fixpoint range (i : N) (n : nat) : list N :=
  match n with
  | O => []
  | S n => i :: range (i + 1) n
  end.

Lemma elem_of_range i n x : x ∈ range i n <-> (i <= x < i + N.of_nat n)%N.
Proof.
  revert i. induction n as [|n IH]; intros i; simpl.
  - rewrite elem_of_nil. lia.
  - rewrite elem_of_cons, IH. lia.
Qed.

Lemma length_range i n : length (range i n) = n.
Proof. revert i. induction n; intros; simpl; auto. Qed.

Lemma range_snoc i n : range i (S n) = range i n ++ [(i + N.of_nat n)%N].
Proof.
  revert i. induction n as [|n IH]; intros i; [simpl; f_equal; lia|].
  change (range i (S (S n))) with (i :: range (i + 1) (S n)). rewrite IH. simpl.
  do 3 f_equal. lia.
Qed.

(** ** Strings *)

Fixpoint string_drop (n : nat) (s : string) : string :=
  match n, s with
  | S n, String _ s => string_drop n s
  | _, _ => s
  end.

Fixpoint string_take (n : nat) (s : string) : string :=
  match n, s with
  | S n, String c s => String c (string_take n s)
  | _, _ => ""
  end.

Lemma string_take_drop n s : string_take n s +:+ string_drop n s = s.
Proof.
  revert s. induction n as [|n IH]; intros [|c s]; [done..|].
  change (String c (string_take n s +:+ string_drop n s) = String c s). by rewrite IH.
Qed.

Lemma string_take_app s t : string_take (String.length s) (s +:+ t) = s.
Proof. induction s as [|c s IH]; [by destruct t|]. exact (f_equal (String c) IH). Qed.

Lemma string_drop_app s t : string_drop (String.length s) (s +:+ t) = t.
Proof. induction s as [|c s IH]; [by destruct t|]. exact IH. Qed.

Lemma string_drop_length n s : (String.length (string_drop n s) <= String.length s)%nat.
Proof. revert s. induction n as [|n IH]; intros [|c s]; simpl; auto with lia. Qed.

(** ** Stateful code that can panic

    A Go method that mutates its receiver is a state transformer; [Panicked]
    keeps the state the receiver (and the disk) had when the panic was raised. *)

Inductive outcome (St A : Type) :=
  | Done (a : A) (s : St)
  | Panicked (s : St).
Arguments Done {St A} a s.
Arguments Panicked {St A} s.

Definition M (St A : Type) : Type := St -> outcome St A.

Definition returns {St A} (a : A) : M St A := fun s => Done a s.

Definition bind {St A B} (m : M St A) (f : A -> M St B) : M St B :=
  fun s => match m s with
           | Done a s' => f a s'
           | Panicked s' => Panicked s'
           end.

Definition get_state {St} : M St St := fun s => Done s s.

Definition modify {St} (f : St -> St) : M St unit := fun s => Done tt (f s).

Definition panic {St A} : M St A := fun s => Panicked s.

Declare Scope go_scope.
Delimit Scope go_scope with go.
Notation "x <- m ;; k" := (bind m (fun x => k))
  (at level 100, m at next level, right associativity) : go_scope.
Notation "m ;; k" := (bind m (fun _ => k))
  (at level 100, right associativity) : go_scope.

Lemma bind_Done {St A B} (m : M St A) (f : A -> M St B) s b s' :
  bind m f s = Done b s' -> exists a s1, m s = Done a s1 /\ f a s1 = Done b s'.
Proof. unfold bind. destruct (m s) as [a s1|]; [eauto|done]. Qed.

(** [bind_inv] replaces a completed sequence by its completed parts. *)
Ltac bind_inv H :=
  let a := fresh "a" in let s := fresh "s" in let E := fresh "E" in
  apply bind_Done in H as (a & s & E & H).

(** ** Frames

    [m] relates the states before and after it by [R], however it ends. *)
Definition frames {St A} (R : St -> St -> Prop) (m : M St A) : Prop :=
  forall s, match m s with Done _ s' => R s s' | Panicked s' => R s s' end.

(** The computation does not change what [f] reads. *)
Definition keeps {St A X} (f : St -> X) (m : M St A) : Prop :=
  frames (fun s s' => f s' = f s) m.

Section Frames.
Context {St A B : Type} (R : St -> St -> Prop) `{!PreOrder R}.

Lemma frames_bind (m : M St A) (f : A -> M St B) :
  frames R m -> (forall a, frames R (f a)) -> frames R (bind m f).
Proof.
  intros Hm Hf s. unfold bind. specialize (Hm s). destruct (m s) as [a s1|s1]; [|done].
  specialize (Hf a s1). destruct (f a s1); by etrans.
Qed.

Lemma frames_returns (a : A) : frames R (returns a).
Proof. intros s. simpl. reflexivity. Qed.

Lemma frames_panic : frames R (@panic St A).
Proof. intros s. simpl. reflexivity. Qed.

Lemma frames_get : frames R (@get_state St).
Proof. intros s. simpl. reflexivity. Qed.

Lemma frames_Done (m : M St A) a s s' : frames R m -> m s = Done a s' -> R s s'.
Proof. intros Hm Hs. specialize (Hm s). by rewrite Hs in Hm. Qed.

Lemma frames_Panicked (m : M St A) s s' : frames R m -> m s = Panicked s' -> R s s'.
Proof. intros Hm Hs. specialize (Hm s). by rewrite Hs in Hm. Qed.
End Frames.

#[export] Instance keeps_preorder {St X} (f : St -> X) :
  PreOrder (fun s s' => f s' = f s).
Proof. split; [intros s; done|intros s1 s2 s3; congruence]. Qed.

Lemma keeps_sub {St A X Y} (g : X -> Y) (f : St -> X) (m : M St A) :
  keeps f m -> keeps (fun s => g (f s)) m.
Proof. intros Hm s. specialize (Hm s). destruct (m s); by rewrite Hm. Qed.

(** [frame] splits a computation along its binds and branches. *)
Ltac frame :=
  repeat first
    [ progress intros
    | apply frames_bind; [apply _| |]
    | apply frames_returns; apply _
    | apply frames_panic; apply _
    | apply frames_get; apply _
    | case_match ].

Create HintDb raft.
#[export] Hint Resolve u64_add_range u64_sub_range : raft.
