(* ===== verification/Types.v ===== *)
(** * Data types shared by every component

    The structures of [log.go], [configuration.go], [commands.go], [state.go]
    and [snapshot.go], and the errors of [api.go], [replication.go] and
    [net_transport.go].

    Conventions: a Go [uint64] is an [N], an [int], [int64] or
    [time.Duration] (nanoseconds) is a [Z], a [string] or [[]byte] is a
    [string], a [time.Time] is a [Z] counting nanoseconds from Go's zero time,
    so that [IsZero] is equality with [0].  Enumerations carry one extra
    constructor for the values the Go integer type admits beyond the named
    constants, because they reach the code from decoded messages. *)
From S2P Require Import Prelude.

(** ** Errors *)

(** The sentinel errors are constructors, compared by identity as in Go; every
    [fmt.Errorf] is an [Errorf] that carries the formatted text. *)
Inductive error :=
  | ErrLeader
  | ErrNotLeader
  | ErrNotVoter
  | ErrLeadershipLost
  | ErrAbortedByRestore
  | ErrRaftShutdown
  | ErrEnqueueTimeout
  | ErrNothingNewToSnapshot
  | ErrUnsupportedProtocol
  | ErrCantBootstrap
  | ErrLeadershipTransferInProgress
  | ErrLogNotFound
  | ErrPipelineReplicationNotSupported
  | ErrTransportShutdown
  | ErrPipelineShutdown
  | Errorf (text : string).

#[export] Instance error_eq_dec : EqDecision error.
Proof. solve_decision. Defined.

(** The text of an error, [err.Error()]. *)
Definition Error (e : error) : string :=
  match e with
  | ErrLeader => "node is the leader"
  | ErrNotLeader => "node is not the leader"
  | ErrNotVoter => "node is not a voter"
  | ErrLeadershipLost => "leadership lost while committing log"
  | ErrAbortedByRestore => "snapshot restored while committing log"
  | ErrRaftShutdown => "raft is already shutdown"
  | ErrEnqueueTimeout => "timed out enqueuing operation"
  | ErrNothingNewToSnapshot => "nothing new to snapshot"
  | ErrUnsupportedProtocol => "operation not supported with current protocol version"
  | ErrCantBootstrap => "bootstrap only works on new clusters"
  | ErrLeadershipTransferInProgress => "leadership transfer in progress"
  | ErrLogNotFound => "log not found"
  | ErrPipelineReplicationNotSupported => "pipeline replication not supported"
  | ErrTransportShutdown => "transport shutdown"
  | ErrPipelineShutdown => "append pipeline closed"
  | Errorf text => text
  end.

(** A Go function that returns [(T, error)] and uses [T] only when the error
    is nil returns a [result T]. *)
Inductive result (A : Type) :=
  | Ok (a : A)
  | Err (e : error).
Arguments Ok {A} a.
Arguments Err {A} e.

#[export] Instance result_eq_dec {A} `{EqDecision A} : EqDecision (result A).
Proof. solve_decision. Defined.

(** ** Log entries, [log.go] *)

Inductive LogType :=
  | LogCommand
  | LogNoop
  | LogAddPeerDeprecated
  | LogRemovePeerDeprecated
  | LogBarrier
  | LogConfiguration
  | LogTypeOther (n : N).

#[export] Instance LogType_eq_dec : EqDecision LogType.
Proof. solve_decision. Defined.

Record Log := mkLog {
  log_Index : N;
  log_Term : N;
  log_Type : LogType;
  log_Data : string;
  log_Extensions : string;
  log_AppendedAt : Z
}.

#[export] Instance Log_eq_dec : EqDecision Log.
Proof. solve_decision. Defined.

(** ** Membership, [configuration.go] *)

Inductive ServerSuffrage :=
  | Voter
  | Nonvoter
  | Staging
  | SuffrageOther (n : Z).

#[export] Instance ServerSuffrage_eq_dec : EqDecision ServerSuffrage.
Proof. solve_decision. Defined.

Definition ServerSuffrage_String (s : ServerSuffrage) : string :=
  match s with
  | Voter => "Voter"
  | Nonvoter => "Nonvoter"
  | Staging => "Staging"
  | SuffrageOther _ => "ServerSuffrage"
  end.

Abbreviation ServerID := string (only parsing).
Abbreviation ServerAddress := string (only parsing).

Record Server := mkServer {
  Suffrage : ServerSuffrage;
  ID : ServerID;
  Address : ServerAddress
}.

#[export] Instance Server_eq_dec : EqDecision Server.
Proof. solve_decision. Defined.

(** [Configuration] is a struct with the single field [Servers]. *)
Record Configuration := mkConfiguration { Servers : list Server }.

#[export] Instance Configuration_eq_dec : EqDecision Configuration.
Proof. solve_decision. Defined.

Inductive ConfigurationChangeCommand :=
  | AddVoter
  | AddNonvoter
  | DemoteVoter
  | RemoveServer
  | Promote
  | CommandOther (n : N).

#[export] Instance ConfigurationChangeCommand_eq_dec :
  EqDecision ConfigurationChangeCommand.
Proof. solve_decision. Defined.

Record configurationChangeRequest := mkChange {
  command : ConfigurationChangeCommand;
  serverID : ServerID;
  serverAddress : ServerAddress;
  prevIndex : N
}.

Record configurations := mkConfigurations {
  committed : Configuration;
  committedIndex : N;
  latest : Configuration;
  latestIndex : N
}.

#[export] Instance configurations_eq_dec : EqDecision configurations.
Proof. solve_decision. Defined.

(** ** Roles, [state.go] *)

Inductive RaftState := Follower | Candidate | Leader | Shutdown.

#[export] Instance RaftState_eq_dec : EqDecision RaftState.
Proof. solve_decision. Defined.

(** ** RPC messages, [commands.go] *)

Record RPCHeader := mkHeader {
  hdr_ProtocolVersion : Z;
  hdr_ID : string;
  hdr_Addr : string
}.

Record AppendEntriesRequest := mkAppendEntriesRequest {
  ae_Header : RPCHeader;
  ae_Term : N;
  ae_Leader : string;
  ae_PrevLogEntry : N;
  ae_PrevLogTerm : N;
  ae_Entries : list Log;
  ae_LeaderCommitIndex : N
}.

Record AppendEntriesResponse := mkAppendEntriesResponse {
  aer_Header : RPCHeader;
  aer_Term : N;
  aer_LastLog : N;
  aer_Success : bool;
  aer_NoRetryBackoff : bool
}.

Record RequestVoteRequest := mkRequestVoteRequest {
  rv_Header : RPCHeader;
  rv_Term : N;
  rv_Candidate : string;
  rv_LastLogIndex : N;
  rv_LastLogTerm : N;
  rv_LeadershipTransfer : bool
}.

Record RequestVoteResponse := mkRequestVoteResponse {
  rvr_Header : RPCHeader;
  rvr_Term : N;
  rvr_Peers : string;
  rvr_Granted : bool
}.

Record RequestPreVoteRequest := mkRequestPreVoteRequest {
  pv_Header : RPCHeader;
  pv_Term : N;
  pv_LastLogIndex : N;
  pv_LastLogTerm : N
}.

Record RequestPreVoteResponse := mkRequestPreVoteResponse {
  pvr_Header : RPCHeader;
  pvr_Term : N;
  pvr_Granted : bool
}.

Record InstallSnapshotRequest := mkInstallSnapshotRequest {
  is_Header : RPCHeader;
  is_SnapshotVersion : Z;
  is_Term : N;
  is_Leader : string;
  is_LastLogIndex : N;
  is_LastLogTerm : N;
  is_Peers : string;
  is_Configuration : string;
  is_ConfigurationIndex : N;
  is_Size : Z
}.

Record InstallSnapshotResponse := mkInstallSnapshotResponse {
  isr_Header : RPCHeader;
  isr_Term : N;
  isr_Success : bool
}.

Record TimeoutNowRequest := mkTimeoutNowRequest { tn_Header : RPCHeader }.

Record TimeoutNowResponse := mkTimeoutNowResponse { tnr_Header : RPCHeader }.

(** ** Snapshot metadata, [snapshot.go] *)

Record SnapshotMeta := mkSnapshotMeta {
  sm_Version : Z;
  sm_ID : string;
  sm_Index : N;
  sm_Term : N;
  sm_Peers : string;
  sm_Configuration : Configuration;
  sm_ConfigurationIndex : N;
  sm_Size : Z
}.

#[export] Instance SnapshotMeta_eq_dec : EqDecision SnapshotMeta.
Proof. solve_decision. Defined.
