(* ===== verification/Util.v ===== *)
(** * Utilities, [util.go]

    Minimum and maximum on [uint64], the exponential back-offs, the random
    timeout, the channel helpers and the sorting of match indexes. *)
From S2P Require Import Prelude Types.

(** ** Definitions *)

Definition min (a b : N) : N := if decide (a <= b)%N then a else b.

Definition max (a b : N) : N := if decide (b <= a)%N then a else b.

(** The loop [for power > 2 { base *= 2; power-- }]; [fuel] bounds the number
    of iterations and callers pass the initial [power]. *)
Fixpoint backoff_loop (fuel : nat) (base : Z) (power : N) : Z :=
  match fuel with
  | O => base
  | S fuel' =>
      if decide (2 < power)%N
      then backoff_loop fuel' (i64_wrap (base * 2)) (u64_sub power 1)
      else base
  end.

Definition backoff (base : Z) (round limit : N) : Z :=
  let power := min round limit in
  backoff_loop (N.to_nat power) base power.

(** The loop of [cappedExponentialBackoff] with its early return, followed by
    the final comparison with the cap. *)
Fixpoint cappedBackoff_loop (fuel : nat) (base : Z) (power : N) (cap : Z) : Z :=
  match fuel with
  | O => if decide (cap < base)%Z then cap else base
  | S fuel' =>
      if decide (2 < power)%N then
        if decide (cap < base)%Z then cap
        else cappedBackoff_loop fuel' (i64_wrap (base * 2)) (u64_sub power 1) cap
      else if decide (cap < base)%Z then cap else base
  end.

Definition cappedExponentialBackoff (base : Z) (round limit : N) (cap : Z) : Z :=
  let power := min round limit in
  cappedBackoff_loop (N.to_nat power) base power cap.

(** [randomTimeout]: [None] is the nil channel, which never fires, and
    [Some d] a timer of duration [d].  [rnd] is the value [rand.Int63] gave. *)
Definition randomTimeout (minVal rnd : Z) : option Z :=
  if decide (minVal = 0)%Z then None
  else Some (i64_wrap (minVal + Z.rem rnd minVal)).

(** A [chan struct{}] of capacity one holds at most one token. *)
Definition asyncNotifyCh (ch : bool) : bool := true.

Definition drainNotifyCh (ch : bool) : bool * bool :=
  if ch then (false, true) else (false, false).

(** A [chan bool] of capacity one. *)
Definition asyncNotifyBool (ch : option bool) (v : bool) : option bool :=
  match ch with
  | None => Some v
  | Some old => Some old
  end.

Definition overrideNotifyBool (ch : option bool) (v : bool) : option bool :=
  match ch with
  | None => Some v
  | Some _ =>
      (* the old value was received: the channel is empty for the send *)
      Some v
  end.

(** [sort.Sort(uint64Slice(l))]: the order of [uint64Slice.Less] is [<]. *)
Definition sort_uint64Slice (l : list N) : list N := merge_sort N.le l.

(** ** Lemmas *)

Lemma min_spec a b : min a b = N.min a b.
Proof. unfold min. case_decide; lia. Qed.

Lemma max_spec a b : max a b = N.max a b.
Proof. unfold max. case_decide; lia. Qed.

#[export] Hint Rewrite min_spec max_spec : raft.

Lemma sort_uint64Slice_perm l : sort_uint64Slice l ≡ₚ l.
Proof. apply merge_sort_Permutation. Qed.

Lemma sort_uint64Slice_sorted l : StronglySorted N.le (sort_uint64Slice l).
Proof.
  apply Sorted_StronglySorted; [intros ???; lia|].
  apply Sorted_merge_sort. intros a b. unfold sc. lia.
Qed.

(** Two sorted permutations of one list are equal, so the order in which Go's
    map iteration yields the match indexes is irrelevant. *)
Lemma sort_uint64Slice_perm_eq l k : l ≡ₚ k -> sort_uint64Slice l = sort_uint64Slice k.
Proof.
  intros Hlk.
  apply (Sorted_unique N.le);
    [apply StronglySorted_Sorted, sort_uint64Slice_sorted..|].
  by rewrite !sort_uint64Slice_perm.
Qed.

Lemma backoff_loop_spec fuel base power :
  (N.to_nat power <= fuel)%nat -> in_u64 power -> (0 <= base)%Z ->
  in_i64 (base * 2 ^ Z.of_N (power - 2)) ->
  backoff_loop fuel base power = (base * 2 ^ Z.of_N (power - 2))%Z.
Proof.
  revert base power. induction fuel as [|fuel IH]; intros base power Hf Hu Hb Hi.
  { replace (power - 2)%N with 0%N by lia. simpl. lia. }
  simpl. case_decide as Hp.
  - assert (Hpow : (2 ^ Z.of_N (power - 2) = 2 * 2 ^ Z.of_N (power - 1 - 2))%Z).
    { rewrite <- Z.pow_succ_r by lia. f_equal. lia. }
    assert (0 < 2 ^ Z.of_N (power - 1 - 2))%Z by (apply Z.pow_pos_nonneg; lia).
    rewrite Hpow in *.
    rewrite i64_wrap_small by (unfold in_i64 in *; nia).
    rewrite u64_sub_small by (done || lia).
    rewrite IH; [lia|lia|unfold in_u64 in *; lia|lia|].
    unfold in_i64 in *. nia.
  - replace (power - 2)%N with 0%N by lia. simpl. lia.
Qed.

Lemma cappedBackoff_loop_spec fuel base power cap :
  (N.to_nat power <= fuel)%nat -> in_u64 power -> (0 <= base)%Z ->
  (cap < 4611686018427387904)%Z ->
  cappedBackoff_loop fuel base power cap
    = Z.min cap (base * 2 ^ Z.of_N (power - 2)).
Proof.
  revert base power. induction fuel as [|fuel IH]; intros base power Hf Hu Hb Hc.
  { replace (power - 2)%N with 0%N by lia. simpl. case_decide; lia. }
  simpl. case_decide as Hp.
  - assert (Hpow : (2 ^ Z.of_N (power - 2) = 2 * 2 ^ Z.of_N (power - 1 - 2))%Z).
    { rewrite <- Z.pow_succ_r by lia. f_equal. lia. }
    assert (0 < 2 ^ Z.of_N (power - 1 - 2))%Z by (apply Z.pow_pos_nonneg; lia).
    rewrite Hpow. case_decide as Hcb; [nia|].
    rewrite i64_wrap_small by (unfold in_i64; lia).
    rewrite u64_sub_small by (done || lia).
    rewrite IH; [f_equal; lia|lia|unfold in_u64 in *; lia|lia|lia].
  - replace (power - 2)%N with 0%N by lia. simpl. case_decide; lia.
Qed.
