(* ===== verification/Codec.v ===== *)
(** * Serialisation interfaces

    The operations of the third-party MsgPack codec that [configuration.go]
    calls through [encodeMsgPack] and [decodeMsgPack], and the address codec of
    a [Transport], as classes with their laws; a concrete codec shows that the
    laws can hold and lets the models run. *)
From Stdlib Require Import Ascii.
From S2P Require Import Prelude Types.

Class MsgPack := {
  encodeMsgPack_peers : list string -> result string;
  decodeMsgPack_peers : string -> result (list string);
  encodeMsgPack_configuration : Configuration -> result string;
  decodeMsgPack_configuration : string -> result Configuration
}.

Class MsgPackLaws `{MsgPack} := {
  encode_peers_total ps : exists b, encodeMsgPack_peers ps = Ok b;
  encode_configuration_total c : exists b, encodeMsgPack_configuration c = Ok b;
  decode_encode_peers ps b :
    encodeMsgPack_peers ps = Ok b -> decodeMsgPack_peers b = Ok ps;
  decode_encode_configuration c b :
    encodeMsgPack_configuration c = Ok b -> decodeMsgPack_configuration b = Ok c
}.

(** The part of [Transport] that encodes server addresses. *)
Class PeerCodec := {
  EncodePeer : ServerID -> ServerAddress -> string;
  DecodePeer : string -> ServerAddress
}.


Class PeerCodecLaws `{PeerCodec} := {
  DecodePeer_EncodePeer id a : DecodePeer (EncodePeer id a) = a
}.

(** ** A concrete codec: the bits of the [Countable] encoding *)

Fixpoint bits_of_pos (p : positive) : string :=
  match p with
  | xH => ""
  | xO p => String "0" (bits_of_pos p)
  | xI p => String "1" (bits_of_pos p)
  end.

Fixpoint pos_of_bits (s : string) : option positive :=
  match s with
  | EmptyString => Some xH
  | String a s => if decide (a = "0"%char) then xO <$> pos_of_bits s
                  else if decide (a = "1"%char) then xI <$> pos_of_bits s
                  else None
  end.

Lemma pos_of_bits_of_pos p : pos_of_bits (bits_of_pos p) = Some p.
Proof. induction p as [p IH|p IH|]; cbn; [..|done]; by rewrite IH. Qed.

Definition encode_bits {A} `{Countable A} (x : A) : string := bits_of_pos (encode x).

Definition decode_bits {A} `{Countable A} (s : string) : result A :=
  match pos_of_bits s ≫= decode with
  | Some x => Ok x
  | None => Err (Errorf "EOF")
  end.

Lemma decode_encode_bits {A} `{Countable A} (x : A) : decode_bits (encode_bits x) = Ok x.
Proof.
  unfold decode_bits, encode_bits. rewrite pos_of_bits_of_pos. simpl.
  by rewrite decode_encode.
Qed.

Definition suffrage_code (s : ServerSuffrage) : Z + Z :=
  match s with
  | Voter => inl 0%Z
  | Nonvoter => inl 1%Z
  | Staging => inl 2%Z
  | SuffrageOther n => inr n
  end.

Definition suffrage_decode (c : Z + Z) : ServerSuffrage :=
  match c with
  | inl 0%Z => Voter
  | inl 1%Z => Nonvoter
  | inl _ => Staging
  | inr n => SuffrageOther n
  end.

#[export] Instance ServerSuffrage_countable : Countable ServerSuffrage.
Proof. apply (inj_countable' suffrage_code suffrage_decode). by intros []. Defined.

#[export] Instance Server_countable : Countable Server.
Proof.
  apply (inj_countable' (fun s => (Suffrage s, ID s, Address s))
    (fun t => mkServer t.1.1 t.1.2 t.2)). by intros [].
Defined.

#[export] Instance Configuration_countable : Countable Configuration.
Proof. apply (inj_countable' Servers mkConfiguration). by intros []. Defined.

Definition bitsMsgPack : MsgPack := {|
  encodeMsgPack_peers ps := Ok (encode_bits ps);
  decodeMsgPack_peers b := decode_bits b;
  encodeMsgPack_configuration c := Ok (encode_bits c);
  decodeMsgPack_configuration b := decode_bits b
|}.

Lemma bitsMsgPackLaws : @MsgPackLaws bitsMsgPack.
Proof.
  split; simpl; [by eauto..| |]; intros x b [= <-]; apply decode_encode_bits.
Qed.

(** The address codec of [InmemTransport]: both directions are casts. *)
Definition inmemPeerCodec : PeerCodec := {|
  EncodePeer id p := p;
  DecodePeer buf := buf
|}.

Lemma inmemPeerCodecLaws : @PeerCodecLaws inmemPeerCodec.
Proof. by split. Qed.
