(* ===== verification/Configuration.v ===== *)
(** * Cluster membership, [configuration.go] and [peersjson.go]

    The queries [hasVote] and [inConfiguration], the validity check, the
    transition function [nextConfiguration] of membership changes and the two
    serialisations.  The abstract specification is a finite map from server
    identities to suffrage and address, on which a change touches at most one
    key. *)
From S2P Require Import Prelude Types Codec.

(** ** Queries *)

Definition Configuration_Clone (c : Configuration) : Configuration :=
  mkConfiguration ([] ++ Servers c).

Definition configurations_Clone (c : configurations) : configurations :=
  mkConfigurations (Configuration_Clone (committed c)) (committedIndex c)
    (Configuration_Clone (latest c)) (latestIndex c).

Fixpoint hasVote_loop (servers : list Server) (id : ServerID) : bool :=
  match servers with
  | [] => false
  | server :: rest =>
      if decide (ID server = id) then bool_decide (Suffrage server = Voter)
      else hasVote_loop rest id
  end.

Definition hasVote (configuration : Configuration) (id : ServerID) : bool :=
  hasVote_loop (Servers configuration) id.

Fixpoint inConfiguration_loop (servers : list Server) (id : ServerID) : bool :=
  match servers with
  | [] => false
  | server :: rest =>
      if decide (ID server = id) then true else inConfiguration_loop rest id
  end.

Definition inConfiguration (configuration : Configuration) (id : ServerID) : bool :=
  inConfiguration_loop (Servers configuration) id.

(** ** The validity check *)

(** Go's [%v] of a [Server] and of a [Configuration]. *)
Definition Server_fmt (s : Server) : string :=
  "{" +:+ ServerSuffrage_String (Suffrage s) +:+ " " +:+ ID s +:+ " " +:+
  Address s +:+ "}".

Definition Configuration_fmt (c : Configuration) : string :=
  "{[" +:+ String.concat " " (Server_fmt <$> Servers c) +:+ "]}".

(** The loop over the servers: the sets of identities and addresses seen so
    far and the number of voters; [inl] is an early return. *)
Fixpoint checkConfiguration_loop (configuration : Configuration)
    (servers : list Server) (idSet addressSet : gset string) (voters : Z)
    : error + Z :=
  match servers with
  | [] => inr voters
  | server :: rest =>
      if decide (ID server = "") then
        inl (Errorf ("empty ID in configuration: " +:+ Configuration_fmt configuration))
      else if decide (Address server = "") then
        inl (Errorf ("empty address in configuration: " +:+ Server_fmt server))
      else if decide (ID server ∈ idSet) then
        inl (Errorf ("found duplicate ID in configuration: " +:+ ID server))
      else if decide (Address server ∈ addressSet) then
        inl (Errorf ("found duplicate address in configuration: " +:+ Address server))
      else
        checkConfiguration_loop configuration rest
          ({[ ID server ]} ∪ idSet) ({[ Address server ]} ∪ addressSet)
          (if decide (Suffrage server = Voter) then voters + 1 else voters)%Z
  end.

Definition checkConfiguration (configuration : Configuration) : option error :=
  match checkConfiguration_loop configuration (Servers configuration) ∅ ∅ 0%Z with
  | inl err => Some err
  | inr voters =>
      if decide (voters = 0)%Z then
        Some (Errorf ("need at least one voter in configuration: " +:+
                      Configuration_fmt configuration))
      else None
  end.

(** ** Membership changes *)

(** A [for] loop over the servers that rewrites the first one satisfying [p]
    and breaks; the boolean is [found]. *)
Fixpoint modify_first (p : Server -> bool) (f : Server -> Server)
    (servers : list Server) : list Server * bool :=
  match servers with
  | [] => ([], false)
  | server :: rest =>
      if p server then (f server :: rest, true)
      else let '(rest', found) := modify_first p f rest in (server :: rest', found)
  end.

(** The loop that removes the first server satisfying [p]:
    [append(Servers[:i], Servers[i+1:]...)]. *)
Fixpoint remove_first (p : Server -> bool) (servers : list Server) : list Server :=
  match servers with
  | [] => []
  | server :: rest => if p server then rest else server :: remove_first p rest
  end.

Definition has_id (id : ServerID) (server : Server) : bool :=
  bool_decide (ID server = id).

Definition set_Address (a : ServerAddress) (s : Server) : Server :=
  mkServer (Suffrage s) (ID s) a.

Definition set_Suffrage (v : ServerSuffrage) (s : Server) : Server :=
  mkServer v (ID s) (Address s).

(** The switch of [nextConfiguration] on the servers. *)
Definition applyChange (change : configurationChangeRequest)
    (servers : list Server) : list Server :=
  match command change with
  | AddVoter =>
      let newServer := mkServer Voter (serverID change) (serverAddress change) in
      let '(servers', found) :=
        modify_first (has_id (serverID change))
          (fun server =>
             if decide (Suffrage server = Voter)
             then set_Address (serverAddress change) server else newServer)
          servers in
      if found then servers' else servers' ++ [newServer]
  | AddNonvoter =>
      let newServer := mkServer Nonvoter (serverID change) (serverAddress change) in
      let '(servers', found) :=
        modify_first (has_id (serverID change))
          (fun server =>
             if decide (Suffrage server ≠ Nonvoter)
             then set_Address (serverAddress change) server else newServer)
          servers in
      if found then servers' else servers' ++ [newServer]
  | DemoteVoter =>
      (modify_first (has_id (serverID change)) (set_Suffrage Nonvoter) servers).1
  | RemoveServer => remove_first (has_id (serverID change)) servers
  | Promote =>
      (modify_first
         (fun server => has_id (serverID change) server
                        && bool_decide (Suffrage server = Staging))
         (set_Suffrage Voter) servers).1
  | CommandOther _ => servers
  end.

Definition nextConfiguration (current : Configuration) (currentIndex : N)
    (change : configurationChangeRequest) : result Configuration :=
  if decide ((0 < prevIndex change)%N /\ prevIndex change ≠ currentIndex) then
    Err (Errorf ("configuration changed since " +:+ pretty (prevIndex change) +:+
                 " (latest is " +:+ pretty currentIndex +:+ ")"))
  else
    let configuration := Configuration_Clone current in
    let configuration :=
      mkConfiguration (applyChange change (Servers configuration)) in
    match checkConfiguration configuration with
    | Some err => Err err
    | None => Ok configuration
    end.

(** ** Serialisation *)

Section Serialisation.
Context `{MsgPack} `{PeerCodec}.

(** [encodePeers] panics when the codec reports an error. *)
Definition encodePeers (configuration : Configuration) : result string :=
  let encPeers :=
    (fun server => EncodePeer (ID server) (Address server)) <$>
      filter (fun server => Suffrage server = Voter) (Servers configuration) in
  match encodeMsgPack_peers encPeers with
  | Ok buf => Ok buf
  | Err err => Err (Errorf ("failed to encode peers: " +:+ Error err))
  end.

Definition decodePeers (buf : string) : result Configuration :=
  match decodeMsgPack_peers buf with
  | Err err => Err (Errorf ("failed to decode peers: " +:+ Error err))
  | Ok encPeers =>
      Ok (mkConfiguration
            ((fun enc => let p := DecodePeer enc in mkServer Voter p p) <$> encPeers))
  end.

(** [EncodeConfiguration] and [DecodeConfiguration] panic on [Err]. *)
Definition EncodeConfiguration (configuration : Configuration) : result string :=
  match encodeMsgPack_configuration configuration with
  | Ok buf => Ok buf
  | Err err => Err (Errorf ("failed to encode configuration: " +:+ Error err))
  end.

Definition DecodeConfiguration (buf : string) : result Configuration :=
  match decodeMsgPack_configuration buf with
  | Ok configuration => Ok configuration
  | Err err => Err (Errorf ("failed to decode configuration: " +:+ Error err))
  end.

End Serialisation.

(** ** peers.json, [peersjson.go]

    The result of [os.ReadFile] followed by the JSON decoder is the
    parameter of the two readers. *)

Record configEntry := mkConfigEntry {
  ce_ID : ServerID;
  ce_Address : ServerAddress;
  ce_NonVoter : bool
}.

Definition ReadPeersJSON (decoded : result (list string)) : result Configuration :=
  match decoded with
  | Err err => Err err
  | Ok peers =>
      let configuration :=
        mkConfiguration ((fun peer => mkServer Voter peer peer) <$> peers) in
      match checkConfiguration configuration with
      | Some err => Err err
      | None => Ok configuration
      end
  end.

Definition ReadConfigJSON (decoded : result (list configEntry)) : result Configuration :=
  match decoded with
  | Err err => Err err
  | Ok peers =>
      let configuration :=
        mkConfiguration
          ((fun peer =>
              mkServer (if ce_NonVoter peer then Nonvoter else Voter)
                (ce_ID peer) (ce_Address peer)) <$> peers) in
      match checkConfiguration configuration with
      | Some err => Err err
      | None => Ok configuration
      end
  end.

(** ** Specification *)

(** What [checkConfiguration] accepts. *)
Record valid_configuration (c : Configuration) : Prop := {
  valid_ids : Forall (fun s => ID s ≠ "") (Servers c);
  valid_addresses : Forall (fun s => Address s ≠ "") (Servers c);
  valid_unique_ids : NoDup (ID <$> Servers c);
  valid_unique_addresses : NoDup (Address <$> Servers c);
  valid_voter : Exists (fun s => Suffrage s = Voter) (Servers c)
}.

(** The configuration as a finite map. *)
Definition entry (s : Server) : ServerID * (ServerSuffrage * ServerAddress) :=
  (ID s, (Suffrage s, Address s)).

Definition conf_map (c : Configuration)
    : gmap ServerID (ServerSuffrage * ServerAddress) :=
  list_to_map (entry <$> Servers c).

(** The effect of a change on the map. *)
Definition change_map (change : configurationChangeRequest)
    (m : gmap ServerID (ServerSuffrage * ServerAddress))
    : gmap ServerID (ServerSuffrage * ServerAddress) :=
  let id := serverID change in
  let addr := serverAddress change in
  match command change, m !! id with
  | AddVoter, _ => <[id := (Voter, addr)]> m
  | AddNonvoter, Some (suffrage, _) => <[id := (suffrage, addr)]> m
  | AddNonvoter, None => <[id := (Nonvoter, addr)]> m
  | DemoteVoter, Some (_, a) => <[id := (Nonvoter, a)]> m
  | RemoveServer, Some _ => delete id m
  | Promote, Some (Staging, a) => <[id := (Voter, a)]> m
  | _, _ => m
  end.

(** The voters of a configuration and what a quorum of them is. *)
Definition voters_of (m : gmap ServerID (ServerSuffrage * ServerAddress))
    : gset ServerID :=
  dom (filter (fun kv => kv.2.1 = Voter) m).

Definition voter_set (c : Configuration) : gset ServerID := voters_of (conf_map c).

Definition is_quorum (Q V : gset ServerID) : Prop :=
  Q ⊆ V /\ (size V / 2 + 1 <= size Q)%nat.

(** ** The validity check is exact *)

Lemma checkConfiguration_loop_ok c l ids addrs v :
  Forall (fun s => ID s ≠ "" /\ Address s ≠ "" /\ ID s ∉ ids /\ Address s ∉ addrs) l ->
  NoDup (ID <$> l) -> NoDup (Address <$> l) ->
  checkConfiguration_loop c l ids addrs v
    = inr (v + Z.of_nat (length (filter (fun s => Suffrage s = Voter) l)))%Z.
Proof.
  revert ids addrs v. induction l as [|s l IH]; intros ids addrs v Hall Hi Ha.
  { simpl. f_equal. lia. }
  apply Forall_cons in Hall as [(?&?&?&?) Hall]. csimpl in *.
  apply NoDup_cons in Hi as [Hi1 Hi2], Ha as [Ha1 Ha2].
  rewrite !decide_False by done. rewrite IH; [|clear IH|done|done].
  - rewrite filter_cons. repeat case_decide; simpl; f_equal; lia.
  - rewrite Forall_forall in Hall |- *. intros x Hx.
    destruct (Hall x Hx) as (?&?&?&?). split_and!; [done..| |].
    + intros [?%elem_of_singleton|]%elem_of_union; [|done].
      apply Hi1, list_elem_of_fmap. eauto.
    + intros [?%elem_of_singleton|]%elem_of_union; [|done].
      apply Ha1, list_elem_of_fmap. eauto.
Qed.

Lemma checkConfiguration_loop_inr c l ids addrs v v' :
  checkConfiguration_loop c l ids addrs v = inr v' ->
  Forall (fun s => ID s ≠ "" /\ Address s ≠ "" /\ ID s ∉ ids /\ Address s ∉ addrs) l
  /\ NoDup (ID <$> l) /\ NoDup (Address <$> l).
Proof.
  revert ids addrs v. induction l as [|s l IH]; intros ids addrs v Hc; csimpl in *.
  { split_and!; constructor. }
  repeat case_decide; try discriminate; apply IH in Hc as (Hall&Hi&Ha);
  (split_and!; [constructor; [done|]|constructor; [|done]..]);
  rewrite Forall_forall in Hall.
  all: try (apply Forall_forall; intros x Hx; destruct (Hall x Hx); set_solver).
  all: intros (x&?&Hx)%list_elem_of_fmap; destruct (Hall x Hx); set_solver.
Qed.

Lemma voters_length_exists (l : list Server) :
  length (filter (fun s => Suffrage s = Voter) l) ≠ 0%nat
  <-> Exists (fun s => Suffrage s = Voter) l.
Proof.
  induction l as [|s l IH]; [split; [done|by intros ?%Exists_nil]|].
  rewrite filter_cons, Exists_cons. case_decide; simpl; [|tauto].
  split; [by left|lia].
Qed.

Lemma checkConfiguration_valid c :
  checkConfiguration c = None <-> valid_configuration c.
Proof.
  unfold checkConfiguration. split.
  - destruct (checkConfiguration_loop _ _ _ _ _) as [|v] eqn:Hl; [done|].
    apply checkConfiguration_loop_inr in Hl as Hv. destruct Hv as (Hall&Hi&Ha).
    rewrite checkConfiguration_loop_ok in Hl by done. case_decide; [done|intros _].
    rewrite Forall_forall in Hall. split; try done.
    1,2: apply Forall_forall; intros x Hx; destruct (Hall x Hx); naive_solver.
    apply voters_length_exists. injection Hl as <-. lia.
  - intros [Hi Ha Hui Hua Hv]. rewrite checkConfiguration_loop_ok; [|clear Hv|done..].
    + apply voters_length_exists in Hv. by rewrite decide_False by lia.
    + rewrite Forall_forall in Hi, Ha |- *. set_solver.
Qed.

(** ** Membership changes refine the map specification *)

Lemma modify_first_split p f l :
  (exists l1 s l2, l = l1 ++ s :: l2 /\ Forall (fun x => p x = false) l1 /\
     p s = true /\ modify_first p f l = (l1 ++ f s :: l2, true)) \/
  (Forall (fun x => p x = false) l /\ modify_first p f l = (l, false)).
Proof.
  induction l as [|x l IH]; simpl; [by right|].
  destruct (p x) eqn:Hp; [left; by exists [], x, l|].
  destruct IH as [(l1&s&l2&->&?&?&->)|[? ->]].
  - left. exists (x :: l1), s, l2. split_and!; by try constructor.
  - right. split; by try constructor.
Qed.

Lemma remove_first_split p l :
  (exists l1 s l2, l = l1 ++ s :: l2 /\ Forall (fun x => p x = false) l1 /\
     p s = true /\ remove_first p l = l1 ++ l2) \/
  (Forall (fun x => p x = false) l /\ remove_first p l = l).
Proof.
  induction l as [|x l IH]; simpl; [by right|].
  destruct (p x) eqn:Hp; [left; by exists [], x, l|].
  destruct IH as [(l1&s&l2&->&?&?&->)|[? ->]].
  - left. exists (x :: l1), s, l2. split_and!; by try constructor.
  - right. split; by try constructor.
Qed.

Lemma fst_entry l : (entry <$> l).*1 = ID <$> l.
Proof. rewrite <- list_fmap_compose. done. Qed.

Lemma conf_map_middle l1 s l2 :
  NoDup (ID <$> (l1 ++ s :: l2)) ->
  conf_map (mkConfiguration (l1 ++ s :: l2))
    = <[ID s := (Suffrage s, Address s)]> (conf_map (mkConfiguration (l1 ++ l2)))
  /\ conf_map (mkConfiguration (l1 ++ l2)) !! ID s = None.
Proof.
  intros Hnd. unfold conf_map; simpl. split.
  - rewrite (list_to_map_proper _ (entry <$> (s :: l1 ++ l2))); [done|..].
    + by rewrite fst_entry.
    + by rewrite Permutation_middle.
  - apply not_elem_of_list_to_map_1. rewrite fst_entry.
    rewrite !fmap_app, fmap_cons in *.
    apply NoDup_app in Hnd as (_&Hd&[? _]%NoDup_cons). set_solver.
Qed.

Lemma conf_map_snoc l s :
  conf_map (mkConfiguration l) !! ID s = None ->
  conf_map (mkConfiguration (l ++ [s]))
    = <[ID s := (Suffrage s, Address s)]> (conf_map (mkConfiguration l)).
Proof.
  intros Hn. unfold conf_map in *; simpl in *.
  rewrite fmap_app, list_to_map_app; simpl.
  rewrite insert_empty, insert_union_singleton_l.
  apply map_union_comm. by apply map_disjoint_singleton_r.
Qed.

Lemma conf_map_absent id l :
  Forall (fun x => has_id id x = false) l ->
  conf_map (mkConfiguration l) !! id = None.
Proof.
  intros Hall. apply not_elem_of_list_to_map_1. rewrite fst_entry.
  intros (s&->&Hs)%list_elem_of_fmap. rewrite Forall_forall in Hall.
  specialize (Hall s Hs). unfold has_id in Hall.
  by apply bool_decide_eq_false in Hall.
Qed.

Lemma has_id_true id s : has_id id s = true -> ID s = id.
Proof. unfold has_id. by intros ?%bool_decide_eq_true. Qed.

(** A loop that rewrites the server with a given identity rewrites its binding. *)
Lemma modify_first_map id f g l :
  NoDup (ID <$> l) -> (forall s, ID s = id -> ID (f s) = ID s) ->
  (forall s, ID s = id ->
     (Suffrage (f s), Address (f s)) = g (Suffrage s, Address s)) ->
  let '(l', found) := modify_first (has_id id) f l in
  NoDup (ID <$> l') /\
  if found
  then exists v, conf_map (mkConfiguration l) !! id = Some v /\
       conf_map (mkConfiguration l') = <[id := g v]> (conf_map (mkConfiguration l))
  else conf_map (mkConfiguration l) !! id = None /\ l' = l.
Proof.
  intros Hnd Hid Hg.
  destruct (modify_first_split (has_id id) f l) as [(l1&s&l2&->&_&Hs&->)|[Hall ->]].
  - apply has_id_true in Hs.
    assert (Hids : (ID <$> (l1 ++ f s :: l2)) = (ID <$> (l1 ++ s :: l2))).
    { by rewrite !fmap_app, !fmap_cons, Hid by done. }
    split; [by rewrite Hids|].
    destruct (conf_map_middle l1 s l2) as [-> Hn]; [done|].
    destruct (conf_map_middle l1 (f s) l2) as [-> _]; [by rewrite Hids|].
    rewrite Hid, Hg, Hs, lookup_insert_eq by done. eexists. split; [done|].
    by rewrite insert_insert_eq.
  - split; [done|]. split; [by apply conf_map_absent|done].
Qed.

Lemma modify_first_none p f l :
  Forall (fun x => p x = false) l -> modify_first p f l = (l, false).
Proof. induction 1 as [|x l Hp _ IH]; simpl; [done|]. by rewrite Hp, IH. Qed.

Lemma modify_first_guard id q f l :
  NoDup (ID <$> l) ->
  (modify_first (fun s => has_id id s && q s) f l).1
    = (modify_first (has_id id) (fun s => if q s then f s else s) l).1.
Proof.
  induction l as [|x l IH]; [done|]. csimpl. intros [Hn Hnd]%NoDup_cons.
  destruct (has_id id x) eqn:Hx; simpl.
  - destruct (q x); [done|]. rewrite modify_first_none; [done|].
    apply Forall_forall. intros y Hy.
    destruct (has_id id y) eqn:Hy'; [|done].
    apply has_id_true in Hx, Hy'. subst id.
    destruct Hn. apply list_elem_of_fmap. eauto.
  - specialize (IH Hnd). do 2 destruct (modify_first _ _ l). simpl in *. by subst.
Qed.

(** Both additions rewrite the server when it is present and append it otherwise. *)
Lemma add_refines id f new g l :
  NoDup (ID <$> l) -> ID new = id ->
  (forall s, ID s = id -> ID (f s) = ID s) ->
  (forall s, ID s = id -> (Suffrage (f s), Address (f s)) = g (Suffrage s, Address s)) ->
  let '(l', found) := modify_first (has_id id) f l in
  let l'' := if found : bool then l' else l' ++ [new] in
  NoDup (ID <$> l'') /\
  conf_map (mkConfiguration l'')
    = <[id := match conf_map (mkConfiguration l) !! id with
              | Some v => g v
              | None => (Suffrage new, Address new)
              end]> (conf_map (mkConfiguration l)).
Proof.
  intros Hnd Hnew Hid Hg.
  pose proof (modify_first_map id f g l Hnd Hid Hg) as Hm.
  destruct (modify_first (has_id id) f l) as [l' found].
  destruct Hm as [Hnd' Hm]. destruct found.
  - destruct Hm as (v & -> & Hl). done.
  - destruct Hm as [Hn ->]. rewrite Hn. split.
    + rewrite fmap_app. apply NoDup_app. split_and!; [done| |apply NoDup_singleton].
      intros x Hx ->%list_elem_of_singleton. rewrite Hnew in Hx.
      revert Hn. unfold conf_map; simpl. rewrite <- not_elem_of_list_to_map.
      by rewrite fst_entry.
    + subst id. by rewrite conf_map_snoc.
Qed.

Lemma applyChange_refines ch l :
  NoDup (ID <$> l) ->
  NoDup (ID <$> applyChange ch l) /\
  conf_map (mkConfiguration (applyChange ch l))
    = change_map ch (conf_map (mkConfiguration l)).
Proof.
  intros Hnd. unfold applyChange, change_map.
  destruct ch as [cmd id addr prev]; destruct cmd; simpl; [..|done].
  - match goal with |- context [modify_first _ ?f _] =>
      epose proof (add_refines id f (mkServer Voter id addr) (fun _ => (Voter, addr))
        l Hnd eq_refl _ _) as Ha end.
    destruct (modify_first _ _ l) as [l' found]. destruct Ha as [? ->].
    split; [done|]. by destruct (_ !! id).
  - match goal with |- context [modify_first _ ?f _] =>
      epose proof (add_refines id f (mkServer Nonvoter id addr) (fun v => (v.1, addr))
        l Hnd eq_refl _ _) as Ha end.
    destruct (modify_first _ _ l) as [l' found]. destruct Ha as [? ->].
    split; [done|]. by destruct (_ !! id) as [[]|].
  - epose proof (modify_first_map id (set_Suffrage Nonvoter)
      (fun v => (Nonvoter, v.2)) l Hnd _ _) as Hm.
    destruct (modify_first _ _ l) as [l' []]; destruct Hm as [? Hm]; simpl; (split; [done|]).
    + destruct Hm as ([]&->&->). done.
    + by destruct Hm as [-> ->].
  - destruct (remove_first_split (has_id id) l) as [(l1&s&l2&->&_&Hs&->)|[Hall ->]].
    + apply has_id_true in Hs as <-. destruct (conf_map_middle _ _ _ Hnd) as [-> Hn].
      rewrite lookup_insert_eq, delete_insert_id by done. split; [|done].
      revert Hnd. rewrite !fmap_app, fmap_cons. intros (?&?&[??]%NoDup_cons)%NoDup_app.
      apply NoDup_app. set_solver.
    + by rewrite conf_map_absent.
  - rewrite modify_first_guard by done.
    match goal with |- context [modify_first _ ?f _] =>
      epose proof (modify_first_map id f
        (fun v => (if decide (v.1 = Staging) then Voter else v.1, v.2)) l Hnd _ _) as Hm end.
    destruct (modify_first _ _ l) as [l' []]; destruct Hm as [? Hm]; simpl; (split; [done|]).
    + destruct Hm as ([[] ?]&Hl&->); rewrite Hl; simpl; try done; by apply insert_id.
    + by destruct Hm as [-> ->].
  Unshelve.
  all: intros s; simpl; try intros <-; repeat case_decide; repeat case_bool_decide;
    simpl; try done; try congruence.
Qed.

Lemma Configuration_Clone_id c : Configuration_Clone c = c.
Proof. by destruct c. Qed.

Lemma change_map_other ch m k :
  k ≠ serverID ch -> change_map ch m !! k = m !! k.
Proof.
  intros Hk. unfold change_map.
  repeat case_match; by simplify_map_eq.
Qed.

(** ** Voters and quorums *)

Lemma elem_of_voters_of m id :
  id ∈ voters_of m <-> exists a, m !! id = Some (Voter, a).
Proof.
  unfold voters_of. rewrite elem_of_dom. split.
  - intros [[v a] [Hm Hv]%map_lookup_filter_Some]. simpl in *. subst. eauto.
  - intros [a Ha]. exists (Voter, a). by apply map_lookup_filter_Some.
Qed.

Lemma conf_map_lookup c id v a :
  NoDup (ID <$> Servers c) ->
  conf_map c !! id = Some (v, a) <-> mkServer v id a ∈ Servers c.
Proof.
  intros Hnd. unfold conf_map.
  rewrite <- elem_of_list_to_map by (by rewrite fst_entry).
  rewrite list_elem_of_fmap. unfold entry. split.
  - intros ([]&[=]&?). by simplify_eq/=.
  - intros ?. by exists (mkServer v id a).
Qed.

Lemma hasVote_spec c id :
  NoDup (ID <$> Servers c) -> hasVote c id = true <-> id ∈ voter_set c.
Proof.
  intros Hnd. unfold voter_set. rewrite elem_of_voters_of.
  setoid_rewrite conf_map_lookup; [|done].
  unfold hasVote. induction (Servers c) as [|s l IH]; simpl.
  - split; [done|]. intros [a Ha]. by apply elem_of_nil in Ha.
  - apply NoDup_cons in Hnd as [Hn Hnd]. specialize (IH Hnd). case_decide as Hid.
    + rewrite bool_decide_eq_true. split.
      * intros Hs. exists (Address s). destruct s; simpl in *; subst. set_solver.
      * intros [a [<-|Ha]%elem_of_cons]; [done|]. destruct Hn. subst id.
        apply list_elem_of_fmap. by exists (mkServer Voter (ID s) a).
    + rewrite IH. split; intros [a Ha]; exists a; [set_solver|].
      apply elem_of_cons in Ha as [<-|]; [done|done].
Qed.

Lemma inConfiguration_spec c id :
  inConfiguration c id = true <-> id ∈ dom (conf_map c).
Proof.
  unfold conf_map. rewrite dom_list_to_map_L, elem_of_list_to_set, fst_entry.
  unfold inConfiguration. induction (Servers c) as [|s l IH]; csimpl.
  - set_solver.
  - case_decide; set_solver.
Qed.

Lemma voter_set_size c :
  NoDup (ID <$> Servers c) ->
  size (voter_set c) = length (filter (fun s => Suffrage s = Voter) (Servers c)).
Proof.
  intros Hnd.
  assert (Hsub : NoDup (ID <$> filter (fun s => Suffrage s = Voter) (Servers c))).
  { eapply sublist_NoDup; [done|]. apply fmap_sublist, sublist_filter. }
  rewrite <- (length_fmap ID), <- (size_list_to_set (C:=gset ServerID)) by done.
  f_equal. apply set_eq. intros id. unfold voter_set. rewrite elem_of_voters_of.
  setoid_rewrite conf_map_lookup; [|done].
  rewrite elem_of_list_to_set, list_elem_of_fmap. split.
  - intros [a Ha]. exists (mkServer Voter id a). by rewrite list_elem_of_filter.
  - intros ([v i a]&->&[Hv ?]%list_elem_of_filter). simpl in *. subst. eauto.
Qed.

(** Majorities of two voter sets that differ in at most one server meet. *)
Lemma quorum_overlap (V1 V2 Q1 Q2 : gset ServerID) x :
  V1 ∖ {[ x ]} = V2 ∖ {[ x ]} ->
  is_quorum Q1 V1 -> is_quorum Q2 V2 -> Q1 ∩ Q2 ≠ ∅.
Proof.
  intros Heq [HQ1 Hs1] [HQ2 Hs2] Hempty.
  assert (Hu : (size (Q1 ∪ Q2) <= size (V1 ∪ V2))%nat) by (apply subseteq_size; set_solver).
  rewrite size_union in Hu by set_solver.
  assert (Hd : forall V : gset ServerID,
    size (V ∪ {[ x ]}) = S (size (V ∖ {[ x ]}))%nat).
  { intros V. replace (V ∪ {[x]}) with ({[x]} ∪ V ∖ {[x]})
      by (apply set_eq; intros y; destruct (decide (y = x)); set_solver).
    rewrite size_union by set_solver. by rewrite size_singleton. }
  assert (Hin : forall V : gset ServerID,
    size V = ((if decide (x ∈ V) then 1 else 0) + size (V ∖ {[ x ]}))%nat).
  { intros V. case_decide.
    - simpl. rewrite <- Hd. f_equal. set_solver.
    - simpl. f_equal. set_solver. }
  pose proof (Hin V1) as H1. pose proof (Hin V2) as H2. pose proof (Hin (V1 ∪ V2)) as H3.
  replace ((V1 ∪ V2) ∖ {[x]}) with (V1 ∖ {[x]}) in H3 by set_solver.
  rewrite <- Heq in H2. clear Hd Hin Hempty HQ1 HQ2 Heq.
  assert (Hx : x ∈ V1 ∪ V2 <-> x ∈ V1 \/ x ∈ V2) by apply elem_of_union.
  pose proof (half_spec (size V1)). pose proof (half_spec (size V2)).
  repeat case_decide; first [lia | tauto].
Qed.

Lemma change_voters ch m :
  voters_of (change_map ch m) ∖ {[ serverID ch ]} = voters_of m ∖ {[ serverID ch ]}.
Proof.
  apply set_eq. intros k. rewrite !elem_of_difference, !elem_of_voters_of, elem_of_singleton.
  split; intros [[a Ha] Hk]; (split; [exists a|done]).
  - by rewrite change_map_other in Ha.
  - by rewrite change_map_other.
Qed.

Lemma nextConfiguration_Ok current currentIndex change c :
  NoDup (ID <$> Servers current) ->
  nextConfiguration current currentIndex change = Ok c ->
  valid_configuration c /\ conf_map c = change_map change (conf_map current).
Proof.
  intros Hnd. unfold nextConfiguration. rewrite Configuration_Clone_id.
  case_decide; [done|].
  destruct (checkConfiguration _) eqn:Hv; intros [= <-].
  split; [by apply checkConfiguration_valid|].
  destruct current. by apply applyChange_refines.
Qed.

(** ** Properties *)

(** [checkConfiguration] returns nil exactly on the configurations in which
    every server has a non-empty identity and address, no identity and no
    address occurs twice, and at least one server is a voter. *)
Theorem checkConfiguration_exact c :
  checkConfiguration c = None <-> valid_configuration c.
Proof. apply checkConfiguration_valid. Qed.

(** C17: on a configuration without duplicate identities, [nextConfiguration]
    either returns a valid configuration which, as a map from identities to
    suffrage and address, is the old map with the one binding the command names
    changed as specified, or it fails because [prevIndex] names another
    configuration or because the changed configuration is not valid. *)
Theorem nextConfiguration_refines current currentIndex change :
  NoDup (ID <$> Servers current) ->
  match nextConfiguration current currentIndex change with
  | Ok c => (prevIndex change = 0%N \/ prevIndex change = currentIndex) /\
            valid_configuration c /\
            conf_map c = change_map change (conf_map current)
  | Err _ => (prevIndex change ≠ 0%N /\ prevIndex change ≠ currentIndex) \/
             ~ valid_configuration (mkConfiguration (applyChange change (Servers current)))
  end.
Proof.
  intros Hnd.
  destruct (nextConfiguration current currentIndex change) eqn:Hc.
  - split; [|by eapply nextConfiguration_Ok].
    unfold nextConfiguration in Hc. case_decide; [done|].
    destruct (decide (prevIndex change = 0%N)); lia.
  - unfold nextConfiguration in Hc. rewrite Configuration_Clone_id in Hc.
    case_decide; [left; lia|right]. intros Hv%checkConfiguration_valid.
    by rewrite Hv in Hc.
Qed.

Lemma nextConfiguration_refines_witness :
  exists c, nextConfiguration (mkConfiguration [mkServer Voter "a" "a:1"; mkServer Nonvoter "b" "b:1"])
      7 (mkChange AddVoter "b" "b:2" 7) = Ok c /\
    conf_map c = <["b" := (Voter, "b:2")]> {[ "a" := (Voter, "a:1"); "b" := (Nonvoter, "b:1") ]}.
Proof.
  pose proof (nextConfiguration_refines
    (mkConfiguration [mkServer Voter "a" "a:1"; mkServer Nonvoter "b" "b:1"]) 7
    (mkChange AddVoter "b" "b:2" 7)) as H.
  eexists. split; [vm_compute; reflexivity|].
  destruct H as (_ & _ & H); [|exact H].
  apply (bool_decide_unpack _). vm_compute. exact I.
Defined.

(** C16: single-server membership changes keep quorums overlapping: a majority
    of the voters before a change and a majority of the voters after it have a
    server in common, so that the old and the new configuration cannot commit
    or elect independently. *)
Theorem nextConfiguration_quorums_overlap current currentIndex change c Q1 Q2 :
  NoDup (ID <$> Servers current) ->
  nextConfiguration current currentIndex change = Ok c ->
  is_quorum Q1 (voter_set current) -> is_quorum Q2 (voter_set c) ->
  Q1 ∩ Q2 ≠ ∅.
Proof.
  intros Hnd [_ Hm]%nextConfiguration_Ok; [|done]. unfold voter_set. rewrite Hm. apply (quorum_overlap _ _ _ _ (serverID change)).
  symmetry. apply change_voters.
Qed.

Lemma nextConfiguration_quorums_overlap_witness :
  ({[ "a"; "b" ]} : gset ServerID) ∩ {[ "b"; "c"; "d" ]} ≠ ∅.
Proof.
  apply (nextConfiguration_quorums_overlap
    (mkConfiguration [mkServer Voter "a" "a:1"; mkServer Voter "b" "b:1"; mkServer Voter "c" "c:1"])
    3 (mkChange AddVoter "d" "d:1" 0)
    (mkConfiguration [mkServer Voter "a" "a:1"; mkServer Voter "b" "b:1";
                      mkServer Voter "c" "c:1"; mkServer Voter "d" "d:1"])).
  - apply (bool_decide_unpack _). vm_compute. exact I.
  - vm_compute. reflexivity.
  - split; apply (bool_decide_unpack _); vm_compute; exact I.
  - split; apply (bool_decide_unpack _); vm_compute; exact I.
Defined.

(** The legacy peers format keeps exactly the voters: decoding an encoded
    configuration gives back the addresses of its voters, in order, as voters
    whose identity is their address; non-voters are dropped. *)
Theorem decodePeers_encodePeers `{MsgPackLaws} `{PeerCodecLaws} c b :
  encodePeers c = Ok b ->
  decodePeers b = Ok (mkConfiguration
    ((fun s => mkServer Voter (Address s) (Address s)) <$>
       filter (fun s => Suffrage s = Voter) (Servers c))).
Proof.
  unfold encodePeers, decodePeers.
  destruct (encodeMsgPack_peers _) as [buf|] eqn:He; [|done]. intros [= <-].
  rewrite (decode_encode_peers _ _ He). do 2 f_equal.
  rewrite <- list_fmap_compose. apply list_fmap_ext. intros _ s _. simpl.
  by rewrite DecodePeer_EncodePeer.
Qed.

Lemma decodePeers_encodePeers_witness :
  exists b, @encodePeers bitsMsgPack inmemPeerCodec
      (mkConfiguration [mkServer Voter "a" "x"; mkServer Nonvoter "b" "y"]) = Ok b /\
    @decodePeers bitsMsgPack inmemPeerCodec b
      = Ok (mkConfiguration [mkServer Voter "x" "x"]).
Proof.
  exists (encode_bits ["x"]). split; [reflexivity|].
  apply (@decodePeers_encodePeers bitsMsgPack bitsMsgPackLaws inmemPeerCodec
    inmemPeerCodecLaws (mkConfiguration [mkServer Voter "a" "x"; mkServer Nonvoter "b" "y"])).
  reflexivity.
Defined.
