(* ===== verification/Config.v ===== *)
(** * Static and reloadable configuration, [config.go] and [ReloadConfig]

    The parameters of a server, their validation and the run-time reload.  The
    handles [NotifyCh], [LogOutput] and [Logger] carry no data and are left
    out. *)
From S2P Require Import Prelude Types Util.

(** ** Definitions *)

Definition Millisecond : Z := 1000000.
Definition Second : Z := 1000 * Millisecond.

Definition ProtocolVersionMin : Z := 0.
Definition ProtocolVersionMax : Z := 3.
Definition SnapshotVersionMin : Z := 0.
Definition SnapshotVersionMax : Z := 1.

Record Config := mkConfig {
  ProtocolVersion : Z;
  HeartbeatTimeout : Z;
  ElectionTimeout : Z;
  CommitTimeout : Z;
  MaxAppendEntries : Z;
  BatchApplyCh : bool;
  ShutdownOnRemove : bool;
  TrailingLogs : N;
  SnapshotInterval : Z;
  SnapshotThreshold : N;
  LeaderLeaseTimeout : Z;
  LocalID : ServerID;
  LogLevel : string;
  NoSnapshotRestoreOnStart : bool;
  PreVoteDisabled : bool;
  NoLegacyTelemetry : bool;
  skipStartup : bool
}.

Record ReloadableConfig := mkReloadableConfig {
  rc_TrailingLogs : N;
  rc_SnapshotInterval : Z;
  rc_SnapshotThreshold : N;
  rc_HeartbeatTimeout : Z;
  rc_ElectionTimeout : Z
}.

Definition ReloadableConfig_apply (rc : ReloadableConfig) (to : Config) : Config := {|
  ProtocolVersion := ProtocolVersion to;
  HeartbeatTimeout := rc_HeartbeatTimeout rc;
  ElectionTimeout := rc_ElectionTimeout rc;
  CommitTimeout := CommitTimeout to;
  MaxAppendEntries := MaxAppendEntries to;
  BatchApplyCh := BatchApplyCh to;
  ShutdownOnRemove := ShutdownOnRemove to;
  TrailingLogs := rc_TrailingLogs rc;
  SnapshotInterval := rc_SnapshotInterval rc;
  SnapshotThreshold := rc_SnapshotThreshold rc;
  LeaderLeaseTimeout := LeaderLeaseTimeout to;
  LocalID := LocalID to;
  LogLevel := LogLevel to;
  NoSnapshotRestoreOnStart := NoSnapshotRestoreOnStart to;
  PreVoteDisabled := PreVoteDisabled to;
  NoLegacyTelemetry := NoLegacyTelemetry to;
  skipStartup := skipStartup to
|}.

Definition ReloadableConfig_fromConfig (from : Config) : ReloadableConfig :=
  mkReloadableConfig (TrailingLogs from) (SnapshotInterval from)
    (SnapshotThreshold from) (HeartbeatTimeout from) (ElectionTimeout from).

Definition DefaultConfig : Config := {|
  ProtocolVersion := ProtocolVersionMax;
  HeartbeatTimeout := 1000 * Millisecond;
  ElectionTimeout := 1000 * Millisecond;
  CommitTimeout := 50 * Millisecond;
  MaxAppendEntries := 64;
  BatchApplyCh := false;
  ShutdownOnRemove := true;
  TrailingLogs := 10240;
  SnapshotInterval := 120 * Second;
  SnapshotThreshold := 8192;
  LeaderLeaseTimeout := 500 * Millisecond;
  LocalID := "";
  LogLevel := "DEBUG";
  NoSnapshotRestoreOnStart := false;
  PreVoteDisabled := false;
  NoLegacyTelemetry := false;
  skipStartup := false
|}.

(** In the last two messages the durations stay as format verbs. *)
Definition ValidateConfig (config : Config) : option error :=
  let protocolMin :=
    if decide (ProtocolVersionMin = 0)%Z then 1%Z else ProtocolVersionMin in
  if decide ((ProtocolVersion config < protocolMin)%Z \/
             (ProtocolVersionMax < ProtocolVersion config)%Z) then
    Some (Errorf ("ProtocolVersion " +:+ pretty (ProtocolVersion config) +:+
                  " must be >= " +:+ pretty protocolMin +:+ " and <= " +:+
                  pretty ProtocolVersionMax))
  else if decide (LocalID config = "") then
    Some (Errorf "LocalID cannot be empty")
  else if decide (HeartbeatTimeout config < 5 * Millisecond)%Z then
    Some (Errorf "HeartbeatTimeout is too low")
  else if decide (ElectionTimeout config < 5 * Millisecond)%Z then
    Some (Errorf "ElectionTimeout is too low")
  else if decide (CommitTimeout config < Millisecond)%Z then
    Some (Errorf "CommitTimeout is too low")
  else if decide (MaxAppendEntries config <= 0)%Z then
    Some (Errorf "MaxAppendEntries must be positive")
  else if decide (1024 < MaxAppendEntries config)%Z then
    Some (Errorf "MaxAppendEntries is too large")
  else if decide (SnapshotInterval config < 5 * Millisecond)%Z then
    Some (Errorf "SnapshotInterval is too low")
  else if decide (LeaderLeaseTimeout config < 5 * Millisecond)%Z then
    Some (Errorf "LeaderLeaseTimeout is too low")
  else if decide (HeartbeatTimeout config < LeaderLeaseTimeout config)%Z then
    Some (Errorf "LeaderLeaseTimeout (%s) cannot be larger than heartbeat timeout (%s)")
  else if decide (ElectionTimeout config < HeartbeatTimeout config)%Z then
    Some (Errorf "ElectionTimeout (%s) must be equal or greater than Heartbeat Timeout (%s)")
  else None.

(** The state [ReloadConfig] touches: the stored configuration and the two
    single-token notification channels. *)
Record reload_state := mkReloadState {
  rl_conf : Config;
  rl_leaderNotifyCh : bool;
  rl_followerNotifyCh : bool
}.

Definition ReloadConfig (rc : ReloadableConfig) (r : reload_state)
    : reload_state * option error :=
  let oldCfg := rl_conf r in
  let newCfg := ReloadableConfig_apply rc oldCfg in
  match ValidateConfig newCfg with
  | Some err => (r, Some err)
  | None =>
      if decide (rc_HeartbeatTimeout rc < HeartbeatTimeout oldCfg)%Z then
        (mkReloadState newCfg (asyncNotifyCh (rl_leaderNotifyCh r))
           (asyncNotifyCh (rl_followerNotifyCh r)), None)
      else
        (mkReloadState newCfg (rl_leaderNotifyCh r) (rl_followerNotifyCh r), None)
  end.

(** ** Specification *)

Record valid_config (c : Config) : Prop := {
  vc_protocol : (1 <= ProtocolVersion c <= 3)%Z;
  vc_id : LocalID c ≠ "";
  vc_heartbeat : (5 * Millisecond <= HeartbeatTimeout c <= ElectionTimeout c)%Z;
  vc_commit : (Millisecond <= CommitTimeout c)%Z;
  vc_entries : (1 <= MaxAppendEntries c <= 1024)%Z;
  vc_snapshot : (5 * Millisecond <= SnapshotInterval c)%Z;
  vc_lease : (5 * Millisecond <= LeaderLeaseTimeout c <= HeartbeatTimeout c)%Z
}.

(** ** Lemmas *)

Lemma ValidateConfig_valid c : ValidateConfig c = None <-> valid_config c.
Proof.
  unfold ValidateConfig, ProtocolVersionMin, ProtocolVersionMax, Millisecond.
  destruct (decide (0 = 0)%Z); [|done]. split.
  - repeat case_decide; try done. intros _.
    split; unfold Millisecond; try done; lia.
  - intros [????? ? ?]. unfold Millisecond in *.
    repeat case_decide; first [done | exfalso; lia].
Qed.

(** ** Properties *)

(** A reload stores the new configuration only when it is valid; it then
    changes the five reloadable fields and no other one, keeps the configuration
    valid, and wakes the leader and follower loops exactly when the heartbeat
    timeout got shorter.  A rejected reload changes nothing. *)
Theorem ReloadConfig_spec rc r :
  let '(r', err) := ReloadConfig rc r in
  match err with
  | Some _ => r' = r /\ ~ valid_config (ReloadableConfig_apply rc (rl_conf r))
  | None =>
      valid_config (rl_conf r') /\
      ReloadableConfig_fromConfig (rl_conf r') = rc /\
      ReloadableConfig_apply (ReloadableConfig_fromConfig (rl_conf r)) (rl_conf r') = rl_conf r /\
      (rl_leaderNotifyCh r' = (rl_leaderNotifyCh r ||
         bool_decide (rc_HeartbeatTimeout rc < HeartbeatTimeout (rl_conf r))%Z)) /\
      (rl_followerNotifyCh r' = (rl_followerNotifyCh r ||
         bool_decide (rc_HeartbeatTimeout rc < HeartbeatTimeout (rl_conf r))%Z))
  end.
Proof.
  unfold ReloadConfig. destruct (ValidateConfig _) eqn:Hv.
  - split; [done|]. intros Hc%ValidateConfig_valid. congruence.
  - apply ValidateConfig_valid in Hv.
    destruct r as [[] ??], rc. case_decide as Hb; simpl in *; split_and!; try done.
    1,2: by rewrite bool_decide_true, orb_true_r.
    1,2: by rewrite bool_decide_false, orb_false_r.
Qed.
