(* ===== verification/Commitment.v ===== *)
(** * The leader's commit index, [commitment.go]

    A leader keeps, for every voter, the index up to which that voter is known
    to store its log, and derives the commit index from it.  The specification
    is the definition of commitment: an index is stored by a quorum when a
    majority of the voters store it, and the commit index is the largest such
    index provided it belongs to the leader's term. *)
From S2P Require Import Prelude Types Util Codec Configuration.

(** ** Definitions *)

Record commitment := mkCommitment {
  commitCh : bool;
  matchIndexes : gmap ServerID N;
  c_commitIndex : N;
  startIndex : N
}.

(** The loop that gives each voter of a configuration an initial index. *)
Fixpoint voter_indexes (initial : ServerID -> N) (servers : list Server)
    (acc : gmap ServerID N) : gmap ServerID N :=
  match servers with
  | [] => acc
  | server :: rest =>
      voter_indexes initial rest
        (if decide (Suffrage server = Voter)
         then <[ID server := initial (ID server)]> acc else acc)
  end.

Definition newCommitment (commitCh : bool) (configuration : Configuration)
    (startIndex : N) : commitment :=
  mkCommitment commitCh (voter_indexes (fun _ => 0%N) (Servers configuration) ∅)
    0 startIndex.

Definition recalculate (c : commitment) : commitment :=
  if decide (size (matchIndexes c) = 0%nat) then c
  else
    let matched := (map_to_list (matchIndexes c)).*2 in
    let matched := sort_uint64Slice matched in
    let quorumMatchIndex := default 0%N (matched !! ((length matched - 1) / 2)%nat) in
    if decide ((c_commitIndex c < quorumMatchIndex)%N /\
               (startIndex c <= quorumMatchIndex)%N)
    then mkCommitment (asyncNotifyCh (commitCh c)) (matchIndexes c)
           quorumMatchIndex (startIndex c)
    else c.

Definition setConfiguration (c : commitment) (configuration : Configuration)
    : commitment :=
  let oldMatchIndexes := matchIndexes c in
  recalculate
    (mkCommitment (commitCh c)
       (voter_indexes (fun id => default 0%N (oldMatchIndexes !! id))
          (Servers configuration) ∅)
       (c_commitIndex c) (startIndex c)).

Definition commitment_getCommitIndex (c : commitment) : N := c_commitIndex c.

(** [match] in the source. *)
Definition match_ (c : commitment) (server : ServerID) (matchIndex : N) : commitment :=
  match matchIndexes c !! server with
  | Some prev =>
      if decide (prev < matchIndex)%N
      then recalculate
             (mkCommitment (commitCh c) (<[server := matchIndex]> (matchIndexes c))
                (c_commitIndex c) (startIndex c))
      else c
  | None => c
  end.

(** ** Specification *)

(** The voters that store the log at least up to [i], and whether they are a
    majority. *)
Definition storing (m : gmap ServerID N) (i : N) : gmap ServerID N :=
  filter (fun kv => (i <= kv.2)%N) m.

Definition quorum_stores (m : gmap ServerID N) (i : N) : Prop :=
  (size m / 2 + 1 <= size (storing m i))%nat.

(** [q] is the largest index a majority stores. *)
Definition quorum_max (m : gmap ServerID N) (q : N) : Prop :=
  quorum_stores m q /\ forall i, quorum_stores m i -> (i <= q)%N.

(** What a server is known to store after the reports [rs]. *)
Definition reported (rs : list (ServerID * N)) (id : ServerID) : N :=
  foldr (fun r acc => if decide (r.1 = id) then N.max r.2 acc else acc) 0%N rs.

(** The operations of a leader on its commitment. *)
Inductive commitment_step : commitment -> commitment -> Prop :=
  | step_match c server i : commitment_step c (match_ c server i)
  | step_setConfiguration c configuration :
      commitment_step c (setConfiguration c configuration).

Definition run_matches (c : commitment) (rs : list (ServerID * N)) : commitment :=
  foldl (fun c r => match_ c r.1 r.2) c rs.

Definition voter_ids (servers : list Server) : gset ServerID :=
  list_to_set (ID <$> filter (fun s => Suffrage s = Voter) servers).

(** ** Sorted lists and majorities *)

Lemma sorted_count_ge (l : list N) k q i :
  StronglySorted N.le l -> l !! k = Some q ->
  (length l - k <= length (filter (fun x => (i <= x)%N) l))%nat <-> (i <= q)%N.
Proof.
  intros Hs Hk.
  rewrite <- (take_drop_middle l k q Hk) in Hs |- *.
  apply StronglySorted_app in Hs as (Hlt & _ & Hr).
  pose proof (lookup_lt_Some _ _ _ Hk) as Hlen.
  rewrite filter_app, !length_app, length_take. cbn [length]. rewrite length_drop.
  apply StronglySorted_inv in Hr as [_ Hr]. rewrite Forall_forall in Hr.
  assert (Hle : forall x, x ∈ take k l -> (x <= q)%N).
  { intros x Hx. apply Hlt; set_solver. }
  split.
  - intros Hcount. destruct (decide (i <= q)%N) as [|Hi]; [done|exfalso].
    assert (Hnil : filter (fun x => (i <= x)%N) (take k l) = []).
    { apply filter_none. intros x Hx. specialize (Hle x Hx). lia. }
    rewrite Hnil, filter_cons_False in Hcount by done. simpl in Hcount.
    pose proof (length_filter (fun x => (i <= x)%N) (drop (S k) l)) as Hf.
    rewrite length_drop in Hf. lia.
  - intros Hi. rewrite filter_cons_True by done. simpl.
    rewrite (filter_every _ (drop (S k) l)), length_drop; [lia|].
    intros x Hx. specialize (Hr x Hx). lia.
Qed.

Definition sorted_indexes (m : gmap ServerID N) : list N :=
  sort_uint64Slice (map_to_list m).*2.

Definition quorum_index (m : gmap ServerID N) : N :=
  default 0%N (sorted_indexes m !! ((length (sorted_indexes m) - 1) / 2)%nat).

Lemma length_sorted_indexes m : length (sorted_indexes m) = size m.
Proof.
  unfold sorted_indexes. rewrite sort_uint64Slice_perm, length_fmap.
  apply length_map_to_list.
Qed.

Lemma size_storing m i :
  size (storing m i) = length (filter (fun x => (i <= x)%N) (sorted_indexes m)).
Proof.
  unfold storing, sorted_indexes. rewrite sort_uint64Slice_perm, length_filter_fmap.
  rewrite map_filter_alt, map_size_list_to_map; [done|].
  eapply sublist_NoDup; [apply (NoDup_fst_map_to_list m)|].
  apply fmap_sublist, sublist_filter.
Qed.

Lemma quorum_index_spec m : m ≠ ∅ -> quorum_max m (quorum_index m).
Proof.
  intros Hm. apply map_size_non_empty_iff in Hm.
  unfold quorum_max, quorum_stores, quorum_index. setoid_rewrite size_storing.
  rewrite <- (length_sorted_indexes m) in *. set (l := sorted_indexes m) in *.
  pose proof (half_spec (length l)). pose proof (half_spec (length l - 1)).
  destruct (lookup_lt_is_Some_2 l ((length l - 1) / 2)) as [q Hq]; [lia|].
  rewrite Hq. unfold default.
  assert (Hc : (length l / 2 + 1 = length l - (length l - 1) / 2)%nat) by lia.
  rewrite Hc. pose proof (sort_uint64Slice_sorted (map_to_list m).*2) as Hs.
  split; [|intros i]; apply (sorted_count_ge l _ q _ Hs Hq); done.
Qed.

Lemma quorum_max_unique m q q' : quorum_max m q -> quorum_max m q' -> q = q'.
Proof.
  intros [H1 H2] [H3 H4]. apply N.le_antisymm; auto.
Qed.

Lemma recalculate_unfold c :
  recalculate c =
  if decide (matchIndexes c ≠ ∅ /\ (c_commitIndex c < quorum_index (matchIndexes c))%N /\
             (startIndex c <= quorum_index (matchIndexes c))%N)
  then mkCommitment true (matchIndexes c) (quorum_index (matchIndexes c)) (startIndex c)
  else c.
Proof.
  unfold recalculate. rewrite <- length_sorted_indexes.
  fold (sorted_indexes (matchIndexes c)). fold (quorum_index (matchIndexes c)).
  rewrite length_sorted_indexes.
  destruct (decide (size (matchIndexes c) = 0%nat)) as [Hz|Hz].
  - apply map_size_empty_iff in Hz. rewrite decide_False by tauto. done.
  - apply map_size_non_empty_iff in Hz. repeat case_decide; tauto || done.
Qed.

(** ** Reports only raise the quorum index *)

Lemma voter_indexes_lookup initial servers acc id :
  voter_indexes initial servers acc !! id =
  if decide (id ∈ voter_ids servers) then Some (initial id) else acc !! id.
Proof.
  revert acc. induction servers as [|s l IH]; intros acc; simpl.
  { rewrite decide_False; [done|]. unfold voter_ids. set_solver. }
  rewrite IH. unfold voter_ids. rewrite filter_cons. destruct (decide (Suffrage s = Voter)).
  - destruct (decide (id = ID s)) as [->|Hid].
    + rewrite lookup_insert_eq. repeat case_decide; set_solver.
    + rewrite lookup_insert_ne by done. repeat case_decide; set_solver.
  - done.
Qed.

Lemma quorum_stores_raise m k p v i :
  m !! k = Some p -> (p <= v)%N -> quorum_stores m i -> quorum_stores (<[k:=v]> m) i.
Proof.
  intros Hk Hpv. unfold quorum_stores. rewrite map_size_insert_Some by eauto.
  intros Hq. etrans; [exact Hq|]. rewrite <- !size_dom. apply subseteq_size.
  intros id. unfold storing. rewrite !elem_of_dom. intros [x [Hx Hi]%map_lookup_filter_Some].
  destruct (decide (id = k)) as [->|Hne].
  - exists v. apply map_lookup_filter_Some. rewrite lookup_insert_eq.
    simplify_eq/=. split; [done|lia].
  - exists x. apply map_lookup_filter_Some. by rewrite lookup_insert_ne.
Qed.

Lemma quorum_index_raise m k p v :
  m !! k = Some p -> (p <= v)%N ->
  (quorum_index m <= quorum_index (<[k:=v]> m))%N.
Proof.
  intros Hk Hpv. assert (m ≠ ∅) by (intros ->; by rewrite lookup_empty in Hk).
  apply (quorum_index_spec (<[k:=v]> m)); [apply insert_non_empty|].
  eapply quorum_stores_raise; [done..|]. by apply quorum_index_spec.
Qed.

(** The commit index a leader must have for given match indexes. *)
Definition expected_commit (start : N) (m : gmap ServerID N) : N :=
  if decide (start <= quorum_index m)%N then quorum_index m else 0%N.

Lemma quorum_index_empty : quorum_index ∅ = 0%N.
Proof. done. Qed.

Lemma recalculate_expected c m :
  c_commitIndex c = expected_commit (startIndex c) m ->
  (quorum_index m <= quorum_index (matchIndexes c))%N ->
  c_commitIndex (recalculate c) = expected_commit (startIndex c) (matchIndexes c)
  /\ matchIndexes (recalculate c) = matchIndexes c
  /\ startIndex (recalculate c) = startIndex c.
Proof.
  intros Hc Hq. rewrite recalculate_unfold. unfold expected_commit in *.
  destruct (decide (matchIndexes c = ∅)) as [He|He].
  - rewrite He, quorum_index_empty in *. rewrite decide_False by tauto.
    split; [|done]. rewrite Hc. repeat case_decide; lia.
  - destruct (decide (matchIndexes c ≠ ∅ /\ _)) as [(_&?&?)|Hd]; simpl; (split; [|done]).
    + by rewrite decide_True.
    + rewrite Hc in *.
      assert (Hd' : forall P Q : Prop, ~ (matchIndexes c ≠ ∅ /\ P /\ Q) -> ~ (P /\ Q)) by tauto.
      apply Hd' in Hd. clear Hd'. repeat case_decide; lia.
Qed.

Lemma match_expected c id i :
  c_commitIndex c = expected_commit (startIndex c) (matchIndexes c) ->
  let c' := match_ c id i in
  c_commitIndex c' = expected_commit (startIndex c) (matchIndexes c') /\
  startIndex c' = startIndex c /\
  forall k, matchIndexes c' !! k =
    (if decide (id = k) then N.max i <$> matchIndexes c !! k else matchIndexes c !! k).
Proof.
  intros Hc. unfold match_. destruct (matchIndexes c !! id) as [p|] eqn:Hp.
  - case_decide as Hlt.
    + destruct (recalculate_expected (mkCommitment (commitCh c) (<[id:=i]> (matchIndexes c))
        (c_commitIndex c) (startIndex c)) (matchIndexes c)) as (->&->&->).
      * done.
      * simpl. by apply (quorum_index_raise _ _ p); [|lia].
      * simpl. split_and!; [done..|]. intros k. rewrite lookup_insert.
        case_decide; [|done]. subst. rewrite Hp. simpl. f_equal. lia.
    + simpl. split_and!; [done..|]. intros k. case_decide; [|done]. subst.
      rewrite Hp. simpl. f_equal. lia.
  - simpl. split_and!; [done..|]. intros k. case_decide; [|done]. subst. by rewrite Hp.
Qed.

Lemma reported_snoc rs id i k :
  reported (rs ++ [(id, i)]) k = if decide (id = k) then N.max i (reported rs k) else reported rs k.
Proof.
  unfold reported. rewrite foldr_app. simpl.
  induction rs as [|[a b] rs IH]; simpl; [done|]. rewrite IH.
  repeat case_decide; lia.
Qed.

Lemma run_matches_spec ch conf start rs :
  let c := run_matches (newCommitment ch conf start) rs in
  startIndex c = start /\
  c_commitIndex c = expected_commit start (matchIndexes c) /\
  forall id, matchIndexes c !! id =
    if decide (id ∈ voter_ids (Servers conf)) then Some (reported rs id) else None.
Proof.
  induction rs as [|[id i] rs IH] using rev_ind; simpl.
  - split_and!; [done| |].
    + unfold expected_commit, newCommitment; simpl. case_decide; [|done].
      destruct (decide (voter_indexes (fun _ => 0%N) (Servers conf) ∅ = ∅)) as [->|Hne]; [done|].
      destruct (quorum_index_spec _ Hne) as [Hs _].
      symmetry. apply N.le_0_r. revert Hs. unfold quorum_stores. intros Hs.
      assert (Hpos : (size (storing (voter_indexes (fun _ => 0%N) (Servers conf) ∅)
        (quorum_index (voter_indexes (fun _ => 0%N) (Servers conf) ∅))) ≠ 0)%nat) by lia.
      apply map_size_non_empty_iff, map_choose in Hpos as (k&x&Hx).
      apply map_lookup_filter_Some in Hx as [Hx Hle]. rewrite voter_indexes_lookup in Hx.
      case_decide; simplify_eq/=; lia.
    + intros id. simpl. rewrite voter_indexes_lookup. case_decide; [done|apply lookup_empty].
  - destruct IH as (Hst & Hc & Hm). unfold run_matches in *. rewrite foldl_app. simpl.
    set (c := foldl _ _ rs) in *.
    destruct (match_expected c id i) as (Hc' & Hst' & Hm'); [by rewrite Hst|].
    rewrite Hst in *. split_and!; [done..|]. intros k. rewrite Hm', reported_snoc, Hm.
    repeat case_decide; done.
Qed.

Lemma recalculate_step c :
  (c_commitIndex c <= c_commitIndex (recalculate c))%N /\
  startIndex (recalculate c) = startIndex c /\
  (c_commitIndex (recalculate c) ≠ c_commitIndex c ->
   quorum_stores (matchIndexes (recalculate c)) (c_commitIndex (recalculate c)) /\
   (startIndex c <= c_commitIndex (recalculate c))%N /\ commitCh (recalculate c) = true).
Proof.
  rewrite recalculate_unfold. case_decide as Hd; simpl; [|split_and!; [lia|done..]].
  destruct Hd as (Hm & ? & ?). split_and!; [lia|done|]. intros _.
  split_and!; [by apply quorum_index_spec|done..].
Qed.

Lemma commitment_step_spec c c' :
  commitment_step c c' ->
  (c_commitIndex c <= c_commitIndex c')%N /\ startIndex c' = startIndex c /\
  (c_commitIndex c' ≠ c_commitIndex c ->
   quorum_stores (matchIndexes c') (c_commitIndex c') /\
   (startIndex c <= c_commitIndex c')%N /\ commitCh c' = true).
Proof.
  destruct 1 as [c id i|c conf].
  - unfold match_. repeat case_match; try (split_and!; [lia|done|done]).
    apply (recalculate_step (mkCommitment _ _ _ _)).
  - apply (recalculate_step (mkCommitment _ _ _ _)).
Qed.

(** ** Properties *)

(** C12: the commit index is exactly the index Raft's commitment rule gives.
    After any sequence of reports [rs] to a fresh commitment, the match index of
    every voter is the largest one reported for it, no other server is counted,
    and with [q] the largest index stored by a majority of the voters the commit
    index is [q] when [q] belongs to the leader's term ([startIndex <= q]) and
    still 0 otherwise. *)
Theorem commitment_exact ch conf start rs :
  Exists (fun s => Suffrage s = Voter) (Servers conf) ->
  let c := run_matches (newCommitment ch conf start) rs in
  (forall id, matchIndexes c !! id =
     if decide (id ∈ voter_ids (Servers conf)) then Some (reported rs id) else None) /\
  exists q, quorum_max (matchIndexes c) q /\
    c_commitIndex c = (if decide (start <= q)%N then q else 0%N).
Proof.
  intros Hv c. destruct (run_matches_spec ch conf start rs) as (_ & Hc & Hm).
  fold c in Hc, Hm. split; [done|]. exists (quorum_index (matchIndexes c)). split; [|done].
  apply quorum_index_spec. apply Exists_exists in Hv as (s & Hin & Hs).
  intros He. specialize (Hm (ID s)). rewrite He, lookup_empty in Hm.
  rewrite decide_True in Hm; [done|]. unfold voter_ids.
  apply elem_of_list_to_set, list_elem_of_fmap. exists s. split; [done|].
  by apply list_elem_of_filter.
Qed.

Lemma commitment_exact_witness :
  exists q, quorum_max {[ "a" := 5%N; "b" := 9%N; "c" := 0%N ]} q /\
    c_commitIndex (run_matches
      (newCommitment false
         (mkConfiguration [mkServer Voter "a" "a:1"; mkServer Voter "b" "b:1";
                           mkServer Voter "c" "c:1"; mkServer Nonvoter "d" "d:1"]) 4)
      [("b", 9%N); ("d", 9%N); ("a", 5%N); ("a", 3%N)]) = (if decide (4 <= q)%N then q else 0%N).
Proof.
  destruct (commitment_exact false
    (mkConfiguration [mkServer Voter "a" "a:1"; mkServer Voter "b" "b:1";
                      mkServer Voter "c" "c:1"; mkServer Nonvoter "d" "d:1"]) 4
    [("b", 9%N); ("d", 9%N); ("a", 5%N); ("a", 3%N)]) as [_ (q & Hq & Hc)].
  - left. reflexivity.
  - exists q. split; [|exact Hc].
    replace {[ "a" := 5%N; "b" := 9%N; "c" := 0%N ]} with
      (matchIndexes (run_matches
      (newCommitment false
         (mkConfiguration [mkServer Voter "a" "a:1"; mkServer Voter "b" "b:1";
                           mkServer Voter "c" "c:1"; mkServer Nonvoter "d" "d:1"]) 4)
      [("b", 9%N); ("d", 9%N); ("a", 5%N); ("a", 3%N)])); [exact Hq|].
    vm_compute. reflexivity.
Defined.


