(* ===== verification/Stores.v ===== *)
(** * Durable storage, [log.go], [stable.go], [inmem_store.go], [log_cache.go]

    The interfaces [LogStore] and [StableStore] are classes of operations with a
    class of laws each: the server is verified against the laws.  [InmemStore]
    implements both interfaces, and [LogCache] implements [LogStore] on top of
    any other one. *)
From Stdlib Require Import Ascii.
From S2P Require Import Prelude Types Util.

(** ** Interfaces *)

Class LogStore (L : Type) := {
  FirstIndex : L -> result N;
  LastIndex : L -> result N;
  GetLog : L -> N -> result Log;
  StoreLogs : L -> list Log -> L * option error;
  DeleteRange : L -> N -> N -> L * option error;
  (** [MonotonicLogStore] is optional: a store without it answers [false]. *)
  IsMonotonic : L -> bool
}.

Definition StoreLog {L} `{LogStore L} (s : L) (log : Log) : L * option error :=
  StoreLogs s [log].

(** The last entry with a given index in a list of entries to store. *)
Definition written (ls : list Log) (i : N) : option Log :=
  last (filter (fun l => log_Index l = i) ls).

(** Reads after writes.  A failed [StoreLogs] leaves the readable entries as
    they were: stores write a batch in one transaction.  A failed [DeleteRange]
    may have removed a part of its range. *)
Class LogStoreLaws (L : Type) `{LogStore L} := {
  store_ok : L -> Prop;
  store_ok_StoreLogs s ls : store_ok s -> store_ok (StoreLogs s ls).1;
  store_ok_DeleteRange s a b : store_ok s -> store_ok (DeleteRange s a b).1;
  GetLog_Index s i l : store_ok s -> GetLog s i = Ok l -> log_Index l = i;
  GetLog_StoreLogs s ls s' i :
    store_ok s -> StoreLogs s ls = (s', None) ->
    GetLog s' i = match written ls i with Some l => Ok l | None => GetLog s i end;
  GetLog_StoreLogs_failed s ls s' e i :
    store_ok s -> StoreLogs s ls = (s', Some e) -> GetLog s' i = GetLog s i;
  GetLog_DeleteRange s a b s' i :
    store_ok s -> (b + 1 < u64_size)%N -> DeleteRange s a b = (s', None) ->
    GetLog s' i = if decide (a <= i <= b)%N then Err ErrLogNotFound else GetLog s i;
  GetLog_DeleteRange_failed s a b s' e i l :
    store_ok s -> DeleteRange s a b = (s', Some e) -> GetLog s' i = Ok l ->
    GetLog s i = Ok l;
  GetLog_DeleteRange_outside s a b s' e i :
    store_ok s -> DeleteRange s a b = (s', Some e) -> ~ (a <= i <= b)%N ->
    GetLog s' i = GetLog s i
}.

(** [Get] and [GetUint64] return a value and an error; [None] is the nil slice. *)
Class StableStore (S : Type) := {
  Set_ : S -> string -> string -> S * option error;
  Get : S -> string -> option string * option error;
  SetUint64 : S -> string -> N -> S * option error;
  GetUint64 : S -> string -> N * option error
}.

(** A failed write may or may not have reached the disk. *)
Class StableStoreLaws (S : Type) `{StableStore S} := {
  Get_Set s k v s' :
    Set_ s k v = (s', None) -> forall k',
    Get s' k' = if decide (k' = k) then (Some v, None) else Get s k';
  Get_Set_failed s k v s' e :
    Set_ s k v = (s', Some e) ->
    (forall k', Get s' k' = Get s k') \/
    (forall k', Get s' k' = if decide (k' = k) then (Some v, None) else Get s k');
  GetUint64_Set s k v k' : GetUint64 (Set_ s k v).1 k' = GetUint64 s k';
  GetUint64_SetUint64 s k v s' :
    SetUint64 s k v = (s', None) -> forall k',
    GetUint64 s' k' = if decide (k' = k) then (v, None) else GetUint64 s k';
  GetUint64_SetUint64_failed s k v s' e :
    SetUint64 s k v = (s', Some e) ->
    (forall k', GetUint64 s' k' = GetUint64 s k') \/
    (forall k', GetUint64 s' k' = if decide (k' = k) then (v, None) else GetUint64 s k');
  Get_SetUint64 s k v k' : Get (SetUint64 s k v).1 k' = Get s k'
}.

(** ** [InmemStore] *)

Record InmemStore := mkInmemStore {
  lowIndex : N;
  highIndex : N;
  im_logs : gmap N Log;
  im_kv : gmap string string;
  im_kvInt : gmap string N
}.

Definition NewInmemStore : InmemStore := mkInmemStore 0 0 ∅ ∅ ∅.

Definition inmem_GetLog (i : InmemStore) (index : N) : result Log :=
  match im_logs i !! index with
  | Some l => Ok l
  | None => Err ErrLogNotFound
  end.

Fixpoint inmem_StoreLogs_loop (i : InmemStore) (logs : list Log) : InmemStore :=
  match logs with
  | [] => i
  | l :: rest =>
      inmem_StoreLogs_loop
        (mkInmemStore
           (if decide (lowIndex i = 0)%N then log_Index l else lowIndex i)
           (if decide (highIndex i < log_Index l)%N then log_Index l else highIndex i)
           (<[log_Index l := l]> (im_logs i)) (im_kv i) (im_kvInt i))
        rest
  end.

Definition inmem_StoreLogs (i : InmemStore) (logs : list Log)
    : InmemStore * option error := (inmem_StoreLogs_loop i logs, None).

(** [for j := min; j <= max; j++ { delete(i.logs, j) }].  The fuel is the number
    of iterations for [max < 2^64-1]; for [max = 2^64-1] the loop of the source
    does not terminate, and the statements below exclude that bound. *)
Fixpoint inmem_delete_loop (fuel : nat) (j max : N) (logs : gmap N Log) : gmap N Log :=
  match fuel with
  | O => logs
  | S fuel' =>
      if decide (j <= max)%N
      then inmem_delete_loop fuel' (u64_add j 1) max (delete j logs)
      else logs
  end.

Definition inmem_DeleteRange (i : InmemStore) (min max : N)
    : InmemStore * option error :=
  let logs := inmem_delete_loop (N.to_nat (max + 1 - min)) min max (im_logs i) in
  let low := if decide (min <= lowIndex i)%N then u64_add max 1 else lowIndex i in
  let high := if decide (highIndex i <= max)%N then u64_sub min 1 else highIndex i in
  let '(low, high) := if decide (high < low)%N then (0%N, 0%N) else (low, high) in
  (mkInmemStore low high logs (im_kv i) (im_kvInt i), None).

#[export] Instance InmemStore_LogStore : LogStore InmemStore := {|
  FirstIndex i := Ok (lowIndex i);
  LastIndex i := Ok (highIndex i);
  GetLog := inmem_GetLog;
  StoreLogs := inmem_StoreLogs;
  DeleteRange := inmem_DeleteRange;
  IsMonotonic _ := false
|}.

Definition inmem_Set (i : InmemStore) (key val : string) : InmemStore * option error :=
  (mkInmemStore (lowIndex i) (highIndex i) (im_logs i)
     (<[key := val]> (im_kv i)) (im_kvInt i), None).

Definition inmem_Get (i : InmemStore) (key : string) : option string * option error :=
  match im_kv i !! key with
  | None => (None, Some (Errorf "not found"))
  | Some val => (Some val, None)
  end.

Definition inmem_SetUint64 (i : InmemStore) (key : string) (val : N)
    : InmemStore * option error :=
  (mkInmemStore (lowIndex i) (highIndex i) (im_logs i) (im_kv i)
     (<[key := val]> (im_kvInt i)), None).

Definition inmem_GetUint64 (i : InmemStore) (key : string) : N * option error :=
  (default 0%N (im_kvInt i !! key), None).

#[export] Instance InmemStore_StableStore : StableStore InmemStore := {|
  Set_ := inmem_Set;
  Get := inmem_Get;
  SetUint64 := inmem_SetUint64;
  GetUint64 := inmem_GetUint64
|}.

(** ** [LogCache] *)

Record LogCache (L : Type) := mkLogCache {
  lc_store : L;
  lc_cache : list (option Log)
}.
Arguments mkLogCache {L}.
Arguments lc_store {L}.
Arguments lc_cache {L}.

(** The quotation mark of the verb [%q]. *)
Definition quote : string := String (Ascii.ascii_of_nat 34) EmptyString.

Section LogCache.
Context {L : Type} `{LogStore L}.

Definition NewLogCache (capacity : Z) (store : L) : result (LogCache L) :=
  if decide (capacity <= 0)%Z then Err (Errorf "capacity must be positive")
  else Ok (mkLogCache store (replicate (Z.to_nat capacity) None)).

(** The slot [idx % uint64(len(c.cache))]. *)
Definition slot (c : LogCache L) (idx : N) : nat :=
  N.to_nat (idx `mod` N.of_nat (length (lc_cache c))).

Definition cache_GetLog (c : LogCache L) (idx : N) : result Log :=
  match lc_cache c !! slot c idx with
  | Some (Some cached) =>
      if decide (log_Index cached = idx) then Ok cached
      else GetLog (lc_store c) idx
  | _ => GetLog (lc_store c) idx
  end.

Definition cache_insert (c : LogCache L) (l : Log) : LogCache L :=
  mkLogCache (lc_store c) (<[slot c (log_Index l) := Some l]> (lc_cache c)).

Definition cache_StoreLogs (c : LogCache L) (logs : list Log)
    : LogCache L * option error :=
  let '(store', err) := StoreLogs (lc_store c) logs in
  match err with
  | Some err =>
      (mkLogCache store' (lc_cache c),
       Some (Errorf ("unable to store logs within log store, err: " +:+
                     quote +:+ Error err +:+ quote)))
  | None => (foldl cache_insert (mkLogCache store' (lc_cache c)) logs, None)
  end.

Definition cache_DeleteRange (c : LogCache L) (min max : N)
    : LogCache L * option error :=
  let cache := replicate (length (lc_cache c)) None in
  let '(store', err) := DeleteRange (lc_store c) min max in
  (mkLogCache store' cache, err).

#[export] Instance LogCache_LogStore : LogStore (LogCache L) := {|
  FirstIndex c := FirstIndex (lc_store c);
  LastIndex c := LastIndex (lc_store c);
  GetLog := cache_GetLog;
  StoreLogs := cache_StoreLogs;
  DeleteRange := cache_DeleteRange;
  IsMonotonic c := IsMonotonic (lc_store c)
|}.
End LogCache.

(** ** Executions of a store *)

Inductive log_op :=
  | OpFirst
  | OpLast
  | OpGet (i : N)
  | OpStore (ls : list Log)
  | OpDelete (a b : N).

Inductive log_reply :=
  | ReplyIndex (r : result N)
  | ReplyLog (r : result Log)
  | ReplyDone (e : option error).

Definition exec_op {L} `{LogStore L} (s : L) (op : log_op) : L * log_reply :=
  match op with
  | OpFirst => (s, ReplyIndex (FirstIndex s))
  | OpLast => (s, ReplyIndex (LastIndex s))
  | OpGet i => (s, ReplyLog (GetLog s i))
  | OpStore ls => let '(s', e) := StoreLogs s ls in (s', ReplyDone e)
  | OpDelete a b => let '(s', e) := DeleteRange s a b in (s', ReplyDone e)
  end.

Fixpoint exec_ops {L} `{LogStore L} (s : L) (ops : list log_op) : list log_reply :=
  match ops with
  | [] => []
  | op :: rest => let '(s', r) := exec_op s op in r :: exec_ops s' rest
  end.

(** Replies agree up to the text [LogCache] adds to a failed write. *)
Definition reply_agrees (r1 r2 : log_reply) : Prop :=
  match r1, r2 with
  | ReplyDone (Some _), ReplyDone (Some _) => True
  | _, _ => r1 = r2
  end.

(** ** Entries written last *)

Lemma written_snoc ls l i :
  written (ls ++ [l]) i = if decide (log_Index l = i) then Some l else written ls i.
Proof.
  unfold written. rewrite filter_app, filter_cons, filter_nil.
  case_decide; [by rewrite last_snoc|by rewrite app_nil_r].
Qed.

Lemma written_Index ls i l : written ls i = Some l -> log_Index l = i.
Proof.
  unfold written. intros Hl%last_Some_elem_of. by apply list_elem_of_filter in Hl as [? _].
Qed.

Lemma last_filter_narrow {A} (P Q : A -> Prop) `{forall x, Decision (P x)}
    `{forall x, Decision (Q x)} (l : list A) x :
  (forall y, Q y -> P y) -> Q x -> last (filter P l) = Some x ->
  last (filter Q l) = Some x.
Proof.
  intros HQP HQ. induction l as [|y l IH] using rev_ind; [done|].
  rewrite !filter_app, !filter_cons, !filter_nil.
  destruct (decide (P y)) as [HP|HP].
  - rewrite last_snoc. intros [= ->]. rewrite decide_True by done. by rewrite last_snoc.
  - rewrite (decide_False (P := Q y)) by eauto. rewrite !app_nil_r. done.
Qed.

(** ** [InmemStore] satisfies the laws *)

Definition inmem_ok (s : InmemStore) : Prop :=
  forall i l, im_logs s !! i = Some l -> log_Index l = i.

Lemma inmem_StoreLogs_lookup s ls i :
  im_logs (inmem_StoreLogs_loop s ls) !! i =
  match written ls i with Some l => Some l | None => im_logs s !! i end.
Proof.
  revert s. induction ls as [|l ls IH]; intros s; [done|]. simpl. rewrite IH. simpl.
  assert (Hw : written (l :: ls) i =
    match written ls i with Some x => Some x
    | None => if decide (log_Index l = i) then Some l else None end).
  { unfold written. rewrite filter_cons. case_decide; [|by destruct (last _)].
    rewrite last_cons. by destruct (last _). }
  rewrite Hw, lookup_insert. destruct (written ls i); [done|]. by case_decide.
Qed.

Lemma inmem_delete_loop_lookup fuel j max m i :
  (max + 1 < u64_size)%N -> (N.to_nat (max + 1 - j) <= fuel)%nat ->
  inmem_delete_loop fuel j max m !! i = if decide (j <= i <= max)%N then None else m !! i.
Proof.
  intros Hmax. revert j m. induction fuel as [|fuel IH]; intros j m Hf; simpl.
  { rewrite decide_False by lia. done. }
  destruct (decide (j <= max)%N).
  - rewrite u64_add_small by lia. rewrite IH by lia. rewrite lookup_delete.
    repeat case_decide; done || lia.
  - by rewrite decide_False by lia.
Qed.

Lemma inmem_DeleteRange_logs s a b :
  im_logs (inmem_DeleteRange s a b).1
    = inmem_delete_loop (N.to_nat (b + 1 - a)) a b (im_logs s).
Proof. unfold inmem_DeleteRange. by repeat case_decide. Qed.

Lemma inmem_delete_loop_subseteq fuel j max m :
  inmem_delete_loop fuel j max m ⊆ m.
Proof.
  revert j m. induction fuel as [|fuel IH]; intros j m; simpl; [done|].
  case_decide; [|done]. etrans; [apply IH|]. apply delete_subseteq.
Qed.

#[export] Instance InmemStore_LogStoreLaws : LogStoreLaws InmemStore.
Proof.
  refine {| store_ok := inmem_ok |}; simpl.
  - intros s ls Hok i l. rewrite inmem_StoreLogs_lookup.
    destruct (written ls i) eqn:Hw; [|apply Hok]. intros [= <-]. by eapply written_Index.
  - intros s a b Hok i l Hl. rewrite inmem_DeleteRange_logs in Hl. apply Hok.
    by eapply lookup_weaken, inmem_delete_loop_subseteq.
  - intros s i l Hok. unfold inmem_GetLog. destruct (im_logs s !! i) eqn:Hl; [|done].
    intros [= <-]. by apply Hok.
  - intros s ls s' i Hok [= <-]. unfold inmem_GetLog. rewrite inmem_StoreLogs_lookup.
    by destruct (written ls i).
  - done.
  - intros s a b s' i Hok Hb Hd. assert (Hs : s' = (inmem_DeleteRange s a b).1) by (by rewrite Hd).
    subst s'. unfold inmem_GetLog.
    rewrite inmem_DeleteRange_logs, inmem_delete_loop_lookup by (done || lia).
    by case_decide.
  - intros s a b s' e i l _ Hd. exfalso. revert Hd. unfold inmem_DeleteRange.
    repeat case_decide; done.
  - intros s a b s' e i _ Hd. exfalso. revert Hd. unfold inmem_DeleteRange.
    repeat case_decide; done.
Defined.

#[export] Instance InmemStore_StableStoreLaws : StableStoreLaws InmemStore.
Proof.
  split; simpl; try done.
  - intros s k v s' [= <-] k'. unfold inmem_Get; simpl.
    rewrite lookup_insert. repeat case_decide; done || congruence.
  - intros s k v s' [= <-] k'. unfold inmem_GetUint64; simpl.
    rewrite lookup_insert. repeat case_decide; done || congruence.
Qed.

(** ** Bounds of [InmemStore] *)

Fixpoint consecutive (n : N) (ls : list Log) : Prop :=
  match ls with
  | [] => True
  | l :: rest => log_Index l = n /\ consecutive (n + 1) rest
  end.

Definition gap_free (s : InmemStore) : Prop :=
  (lowIndex s = 0%N /\ highIndex s = 0%N /\ im_logs s = ∅) \/
  ((0 < lowIndex s <= highIndex s)%N /\
   forall i, is_Some (im_logs s !! i) <-> (lowIndex s <= i <= highIndex s)%N).

Lemma inmem_StoreLogs_gap_free s ls n :
  gap_free s -> (0 < n)%N -> (im_logs s = ∅ \/ n = highIndex s + 1)%N ->
  consecutive n ls -> gap_free (inmem_StoreLogs_loop s ls).
Proof.
  revert s n. induction ls as [|l ls IH]; intros s n Hs Hn Hnext Hc; [done|].
  destruct Hc as [Hl Hc]. simpl. apply (IH _ (n + 1)%N); [|lia| |done].
  - right. simpl. rewrite Hl.
    destruct Hs as [(->&->&->)|[? Hd]].
    + rewrite !decide_True by lia. split; [lia|]. intros i.
      rewrite lookup_insert, lookup_empty. case_decide; (split; [intros [??]; done || lia|]); intros; eauto; lia.
    + destruct Hnext as [He|Hnext].
      { exfalso. destruct (Hd (lowIndex s)) as [_ [? Hx]]; [lia|].
        by rewrite He, lookup_empty in Hx. }
      rewrite decide_False by lia. rewrite decide_True by lia. split; [lia|]. intros i.
      rewrite lookup_insert. case_decide.
      * split; [lia|eauto].
      * rewrite Hd. lia.
  - right. simpl. rewrite Hl.
    destruct Hs as [(_&->&_)|[? Hd]]; [by rewrite decide_True by lia|].
    destruct Hnext as [He|Hnext]; [|by rewrite decide_True by lia].
    exfalso. destruct (Hd (lowIndex s)) as [_ [? Hx]]; [lia|].
    by rewrite He, lookup_empty in Hx.
Qed.

Lemma inmem_DeleteRange_gap_free s a b :
  gap_free s -> (0 < a <= b)%N -> (b + 1 < u64_size)%N ->
  ((a <= lowIndex s <= b + 1) \/ (a <= highIndex s + 1 /\ highIndex s <= b))%N ->
  gap_free (inmem_DeleteRange s a b).1.
Proof.
  intros Hs Ha Hb Hr. unfold gap_free. rewrite inmem_DeleteRange_logs.
  unfold inmem_DeleteRange. rewrite u64_add_small by lia.
  rewrite u64_sub_small by (unfold in_u64; lia).
  set (logs' := inmem_delete_loop _ _ _ _).
  assert (Hl : forall i, is_Some (logs' !! i) <->
    is_Some (im_logs s !! i) /\ ~ (a <= i <= b)%N).
  { intros i. unfold logs'. rewrite inmem_delete_loop_lookup by (done || lia).
    case_decide; [|tauto]. split; [by intros [? [=]]|tauto]. }
  assert (Hempty : (forall i, ~ is_Some (logs' !! i)) -> logs' = ∅).
  { intros Hn. apply map_eq. intros i. rewrite lookup_empty.
    apply eq_None_not_Some. apply Hn. }
  destruct Hs as [(Hlo&Hhi&He)|[Hlh Hd]].
  - rewrite Hlo, Hhi in *. rewrite He in Hl.
    left. assert (a = 1)%N as -> by lia.
    rewrite (decide_False (P := (1 <= 0)%N)), (decide_True (P := (0 <= b)%N)) by lia.
    simpl. split_and!; [done..|]. apply Hempty. intros i [[? Hx] _]%Hl. done.
  - setoid_rewrite Hd in Hl. repeat case_decide; simpl; try lia.
    all: first [left; split_and!; [done..|]; apply Hempty; intros i Hi%Hl; lia
               |right; split; [lia|]; intros i; rewrite Hl; lia].
Qed.

(** ** [LogCache] is transparent *)

Section Coherence.
Context {L : Type} `{LogStoreLaws L}.

(** Every cached entry sits in its slot and is what the store would answer. *)
Definition coherent (c : LogCache L) : Prop :=
  store_ok (lc_store c) /\ (0 < length (lc_cache c))%nat /\
  forall k l, lc_cache c !! k = Some (Some l) ->
    k = slot c (log_Index l) /\ GetLog (lc_store c) (log_Index l) = Ok l.

Lemma coherent_GetLog c i : coherent c -> cache_GetLog c i = GetLog (lc_store c) i.
Proof.
  intros (_ & _ & Hc). unfold cache_GetLog.
  destruct (lc_cache c !! slot c i) as [[l|]|] eqn:Hl; try done.
  case_decide as Hi; [|done]. subst i. by destruct (Hc _ _ Hl).
Qed.

Lemma NewLogCache_coherent capacity s c :
  store_ok s -> NewLogCache capacity s = Ok c -> coherent c.
Proof.
  intros Hok. unfold NewLogCache. case_decide; [done|]. intros [= <-].
  split_and!; simpl; [done|rewrite length_replicate; lia|].
  intros k l [??]%lookup_replicate. done.
Qed.

Lemma coherent_cleared (s : L) n :
  store_ok s -> (0 < n)%nat -> coherent (mkLogCache s (replicate n None)).
Proof.
  intros Hok Hn. split_and!; simpl; [done|by rewrite length_replicate|].
  intros k l [??]%lookup_replicate. done.
Qed.

Lemma cache_inserts (c : LogCache L) ls :
  let c' := foldl cache_insert c ls in
  lc_store c' = lc_store c /\ length (lc_cache c') = length (lc_cache c) /\
  ((0 < length (lc_cache c))%nat -> forall k, lc_cache c' !! k =
     match last (filter (fun l => slot c (log_Index l) = k) ls) with
     | Some l => Some (Some l)
     | None => lc_cache c !! k
     end).
Proof.
  induction ls as [|l ls IH] using rev_ind; simpl; [done|].
  destruct IH as (Hs & Hlen & Hk). rewrite foldl_app. simpl.
  set (c' := foldl cache_insert c ls) in *.
  split_and!; [done|by rewrite length_insert|]. intros Hpos k.
  assert (Hslot : slot c' (log_Index l) = slot c (log_Index l)).
  { unfold slot. by rewrite Hlen. }
  rewrite filter_app, filter_cons, filter_nil, Hslot.
  destruct (decide (slot c (log_Index l) = k)) as [<-|Hne].
  - rewrite last_snoc. apply list_lookup_insert_eq. rewrite Hlen. unfold slot.
    assert (Hm : (log_Index l `mod` N.of_nat (length (lc_cache c))
                  < N.of_nat (length (lc_cache c)))%N) by (apply N.mod_lt; lia).
    revert Hm. generalize (log_Index l `mod` N.of_nat (length (lc_cache c)))%N. lia.
  - rewrite list_lookup_insert_ne by done. rewrite app_nil_r. by apply Hk.
Qed.

Lemma coherent_StoreLogs c ls :
  coherent c -> coherent (cache_StoreLogs c ls).1 /\
  lc_store (cache_StoreLogs c ls).1 = (StoreLogs (lc_store c) ls).1 /\
  reply_agrees (ReplyDone (cache_StoreLogs c ls).2) (ReplyDone (StoreLogs (lc_store c) ls).2).
Proof.
  intros (Hok & Hpos & Hc). unfold cache_StoreLogs.
  pose proof (store_ok_StoreLogs (lc_store c) ls Hok) as Hok'.
  destruct (StoreLogs (lc_store c) ls) as [s' [e|]] eqn:Hs; simpl in *.
  - split; [|done]. split_and!; [done..|]. intros k l Hl. destruct (Hc k l Hl) as [-> Hg].
    split; [done|]. by rewrite (GetLog_StoreLogs_failed _ _ _ _ _ Hok Hs).
  - destruct (cache_inserts (mkLogCache s' (lc_cache c)) ls) as (Hst & Hlen & Hk).
    specialize (Hk Hpos). set (c' := foldl _ _ ls) in *. simpl in *.
    assert (Hsl : forall i, slot c' i = slot (mkLogCache s' (lc_cache c)) i)
      by (intros; unfold slot; by rewrite Hlen).
    split; [|done]. split_and!; [by rewrite Hst|by rewrite Hlen|].
    intros k l. rewrite Hk, Hst, Hsl.
    destruct (last (filter _ ls)) as [x|] eqn:Hx.
    + intros [= ->]. pose proof Hx as Hin.
      apply last_Some_elem_of, list_elem_of_filter in Hin as [<- _]. split; [done|].
      rewrite (GetLog_StoreLogs _ _ _ _ Hok Hs). unfold written.
      erewrite last_filter_narrow; [done| |done|exact Hx]. simpl. by intros y ->.
    + intros Hl. destruct (Hc k l Hl) as [-> Hg]. split; [done|].
      rewrite (GetLog_StoreLogs _ _ _ _ Hok Hs).
      destruct (written ls (log_Index l)) as [y|] eqn:Hy; [exfalso|done].
      apply last_None in Hx. pose proof (written_Index _ _ _ Hy) as Hi.
      apply last_Some_elem_of, list_elem_of_filter in Hy as [_ Hy].
      eapply (filter_nil_not_elem_of _ ls y Hx); [|done]. simpl. by rewrite Hi.
Qed.

Lemma coherent_DeleteRange c a b :
  coherent c -> coherent (cache_DeleteRange c a b).1 /\
  lc_store (cache_DeleteRange c a b).1 = (DeleteRange (lc_store c) a b).1 /\
  (cache_DeleteRange c a b).2 = (DeleteRange (lc_store c) a b).2.
Proof.
  intros (Hok & Hpos & _). unfold cache_DeleteRange.
  pose proof (store_ok_DeleteRange (lc_store c) a b Hok) as Hok'.
  destruct (DeleteRange (lc_store c) a b). simpl in *. split; [|done].
  by apply coherent_cleared.
Qed.

Lemma exec_op_coherent c op :
  coherent c ->
  coherent (exec_op c op).1 /\
  lc_store (exec_op c op).1 = (exec_op (lc_store c) op).1 /\
  reply_agrees (exec_op c op).2 (exec_op (lc_store c) op).2.
Proof.
  intros Hc. destruct op as [| |i|ls|a b]; simpl.
  - done.
  - done.
  - by rewrite coherent_GetLog.
  - destruct (coherent_StoreLogs c ls Hc) as (?&?&?).
    destruct (cache_StoreLogs c ls), (StoreLogs (lc_store c) ls). done.
  - destruct (coherent_DeleteRange c a b Hc) as (?&?&He).
    destruct (cache_DeleteRange c a b), (DeleteRange (lc_store c) a b).
    simpl in *. subst. split_and!; [done..|]. by destruct o0.
Qed.

Lemma exec_ops_coherent c ops :
  coherent c ->
  Forall2 reply_agrees (exec_ops c ops) (exec_ops (lc_store c) ops).
Proof.
  revert c. induction ops as [|op ops IH]; intros c Hc; simpl; [constructor|].
  destruct (exec_op_coherent c op Hc) as (Hc' & Hst & Hr).
  destruct (exec_op c op) as [c' r], (exec_op (lc_store c) op) as [s' r']. simpl in *.
  subst s'. constructor; [done|]. by apply IH.
Qed.
End Coherence.

(** ** Properties *)

(** C38: a [LogCache] of any capacity is transparent.  Over any log store that
    satisfies the read-after-write laws, every sequence of operations gets from
    the cache the replies it would get from the store itself; a failed write is
    reported as failed by both. *)
Theorem LogCache_refines {L} `{LogStoreLaws L} capacity (s : L) c ops :
  store_ok s -> NewLogCache capacity s = Ok c ->
  Forall2 reply_agrees (exec_ops c ops) (exec_ops s ops).
Proof.
  intros Hok Hc. pose proof (NewLogCache_coherent _ _ _ Hok Hc) as Hcoh.
  replace s with (lc_store c); [by apply exec_ops_coherent|].
  unfold NewLogCache in Hc. case_decide; [done|]. by simplify_eq.
Qed.

Lemma LogCache_refines_witness :
  let e1 := mkLog 1 1 LogCommand "a" "" 0 in
  let e3 := mkLog 3 1 LogCommand "c" "" 0 in
  exists c, NewLogCache 2 NewInmemStore = Ok c /\
  Forall2 reply_agrees
    (exec_ops c [OpStore [e1; e3]; OpGet 1; OpGet 3; OpDelete 1 1; OpGet 1; OpLast])
    (exec_ops NewInmemStore [OpStore [e1; e3]; OpGet 1; OpGet 3; OpDelete 1 1; OpGet 1; OpLast]).
Proof.
  intros e1 e3. eexists. split; [reflexivity|].
  apply (LogCache_refines 2 NewInmemStore).
  - intros i l. cbn. rewrite lookup_empty. discriminate.
  - reflexivity.
Defined.

(** [FirstIndex] and [LastIndex] of [InmemStore] are exact as long as the
    store is used as a log.  A store without gaps, whose bounds are the first and
    last index it holds (0 when it is empty), stays so when consecutive entries
    are appended and when a range that reaches one of its ends is deleted; a
    deletion removes exactly the inclusive range. *)
Theorem InmemStore_gap_free (s : InmemStore) ls n a b :
  gap_free s ->
  (0 < n)%N -> (im_logs s = ∅ \/ n = highIndex s + 1)%N -> consecutive n ls ->
  (0 < a <= b)%N -> (b + 1 < u64_size)%N ->
  ((a <= lowIndex s <= b + 1) \/ (a <= highIndex s + 1 /\ highIndex s <= b))%N ->
  gap_free (inmem_StoreLogs s ls).1 /\
  gap_free (inmem_DeleteRange s a b).1 /\
  forall i, im_logs (inmem_DeleteRange s a b).1 !! i
              = if decide (a <= i <= b)%N then None else im_logs s !! i.
Proof.
  intros Hs Hn Hnext Hc Ha Hb Hr. split_and!.
  - by eapply inmem_StoreLogs_gap_free.
  - by apply inmem_DeleteRange_gap_free.
  - intros i. rewrite inmem_DeleteRange_logs. by apply inmem_delete_loop_lookup.
Qed.

Lemma InmemStore_gap_free_witness :
  let e1 := mkLog 1 1 LogNoop "" "" 0 in
  let e2 := mkLog 2 1 LogNoop "" "" 0 in
  let e3 := mkLog 3 1 LogNoop "" "" 0 in
  gap_free (inmem_DeleteRange (mkInmemStore 1 2 {[ 1%N := e1; 2%N := e2 ]} ∅ ∅) 2 4).1.
Proof.
  intros e1 e2 e3.
  apply (InmemStore_gap_free (mkInmemStore 1 2 {[ 1%N := e1; 2%N := e2 ]} ∅ ∅) [e3] 3 2 4);
    [|done|right; done|split; done|split; done|done|right; split; done].
  right. split; [split; done|]. intros i. simpl.
  destruct (decide (i = 1%N)) as [->|]; [split; [done|by eexists]|].
  rewrite lookup_insert_ne by done.
  destruct (decide (i = 2%N)) as [->|]; [split; [done|by eexists]|].
  rewrite lookup_singleton_ne by done. split; [intros [? [=]]|]. simpl. lia.
Defined.
