(* ===== verification/State.v ===== *)
(** * The state of a server, [state.go], the [Raft] struct and its setters

    [raftState] is the struct of [state.go]; [Raft] is the part of the struct of
    [api.go] that the main thread reads and writes.  Methods that mutate the
    server are computations of the state monad of [Prelude]. *)
From S2P Require Import Prelude Types Util Codec Configuration Config Stores.

(** ** [raftState] *)

Record raftState := mkRaftState {
  currentTerm : N;
  commitIndex : N;
  lastApplied : N;
  lastSnapshotIndex : N;
  lastSnapshotTerm : N;
  lastLogIndex : N;
  lastLogTerm : N;
  state : RaftState
}.

Definition getLastLog (r : raftState) : N * N := (lastLogIndex r, lastLogTerm r).

Definition getLastSnapshot (r : raftState) : N * N :=
  (lastSnapshotIndex r, lastSnapshotTerm r).

Definition getLastIndex (r : raftState) : N := max (lastLogIndex r) (lastSnapshotIndex r).

Definition getLastEntry (r : raftState) : N * N :=
  if decide (lastSnapshotIndex r <= lastLogIndex r)%N
  then (lastLogIndex r, lastLogTerm r)
  else (lastSnapshotIndex r, lastSnapshotTerm r).

Definition raftState_setState (s : RaftState) (r : raftState) : raftState :=
  mkRaftState (currentTerm r) (commitIndex r) (lastApplied r) (lastSnapshotIndex r)
    (lastSnapshotTerm r) (lastLogIndex r) (lastLogTerm r) s.

Definition raftState_setCurrentTerm (t : N) (r : raftState) : raftState :=
  mkRaftState t (commitIndex r) (lastApplied r) (lastSnapshotIndex r)
    (lastSnapshotTerm r) (lastLogIndex r) (lastLogTerm r) (state r).

Definition raftState_setLastLog (index term : N) (r : raftState) : raftState :=
  mkRaftState (currentTerm r) (commitIndex r) (lastApplied r) (lastSnapshotIndex r)
    (lastSnapshotTerm r) index term (state r).

Definition raftState_setLastSnapshot (index term : N) (r : raftState) : raftState :=
  mkRaftState (currentTerm r) (commitIndex r) (lastApplied r) index term
    (lastLogIndex r) (lastLogTerm r) (state r).

Definition raftState_setCommitIndex (index : N) (r : raftState) : raftState :=
  mkRaftState (currentTerm r) index (lastApplied r) (lastSnapshotIndex r)
    (lastSnapshotTerm r) (lastLogIndex r) (lastLogTerm r) (state r).

Definition raftState_setLastApplied (index : N) (r : raftState) : raftState :=
  mkRaftState (currentTerm r) (commitIndex r) index (lastSnapshotIndex r)
    (lastSnapshotTerm r) (lastLogIndex r) (lastLogTerm r) (state r).

Definition RaftState_String (s : RaftState) : string :=
  match s with
  | Follower => "Follower"
  | Candidate => "Candidate"
  | Leader => "Leader"
  | Shutdown => "Shutdown"
  end.

(** ** What the main thread hands to other threads *)

(** A [logFuture] is its entry and an identity under which it is answered;
    [None] is a future whose [init] was not called (the leader's no-op). *)
Record logFuture := mkLogFuture {
  lf_id : option nat;
  lf_log : Log
}.

Record commitTuple := mkCommitTuple {
  ct_log : Log;
  ct_future : option logFuture
}.

(** The messages sent on [fsmMutateCh]. *)
Inductive fsmMutation :=
  | fsmBatch (batch : list commitTuple)
  | fsmRestore (id : string).

(** The values passed to [r.observe]. *)
Inductive Observation :=
  | RaftStateObservation (s : RaftState)
  | LeaderObservation (addr : ServerAddress) (id : ServerID)
  | RequestVoteObservation (req : RequestVoteRequest)
  | RequestPreVoteObservation (req : RequestPreVoteRequest)
  | PeerObservation (peer : Server) (removed : bool)
  | FailedHeartbeatObservation (id : ServerID) (lastContact : Z)
  | ResumedHeartbeatObservation (id : ServerID).

(** ** The server

    [L], [K] and [SN] are the types of the log store, the stable store and the
    snapshot store.  [fsmMutateCh] holds the messages sent so far, oldest first;
    [futures] the answers given to the futures; [observations] the values passed
    to [observe], oldest first. *)
Record Raft (L K SN : Type) := mkRaft {
  raft_state : raftState;
  protocolVersion : Z;
  conf : Config;
  localID : ServerID;
  localAddr : ServerAddress;
  lastContact : Z;
  leaderAddr : ServerAddress;
  leaderID : ServerID;
  candidateFromLeadershipTransfer : bool;
  preVoteDisabled : bool;
  logs : L;
  stable : K;
  snapshots : SN;
  raft_configurations : configurations;
  latestConfiguration : option Configuration;
  fsmMutateCh : list fsmMutation;
  futures : gmap nat (option error);
  observations : list Observation;
  shutdown : bool
}.
Arguments mkRaft {L K SN} _ _ _ _ _ _ _ _ _ _ _ _ _ _ _ _ _ _ _.
Arguments raft_state {L K SN} _.
Arguments protocolVersion {L K SN} _.
Arguments conf {L K SN} _.
Arguments localID {L K SN} _.
Arguments localAddr {L K SN} _.
Arguments lastContact {L K SN} _.
Arguments leaderAddr {L K SN} _.
Arguments leaderID {L K SN} _.
Arguments candidateFromLeadershipTransfer {L K SN} _.
Arguments preVoteDisabled {L K SN} _.
Arguments logs {L K SN} _.
Arguments stable {L K SN} _.
Arguments snapshots {L K SN} _.
Arguments raft_configurations {L K SN} _.
Arguments latestConfiguration {L K SN} _.
Arguments fsmMutateCh {L K SN} _.
Arguments futures {L K SN} _.
Arguments observations {L K SN} _.
Arguments shutdown {L K SN} _.

(** The keys of the stable store. *)
Definition keyCurrentTerm : string := "CurrentTerm".
Definition keyLastVoteTerm : string := "LastVoteTerm".
Definition keyLastVoteCand : string := "LastVoteCand".

Section Setters.
Context {L K SN : Type}.
Abbreviation raft := (Raft L K SN).

(** Struct updates of one field. *)
Definition with_raft_state (f : raftState -> raftState) (r : raft) : raft :=
  mkRaft (f (raft_state r)) (protocolVersion r) (conf r) (localID r) (localAddr
    r) (lastContact r) (leaderAddr r) (leaderID r)
    (candidateFromLeadershipTransfer r) (preVoteDisabled r) (logs r) (stable r)
    (snapshots r) (raft_configurations r) (latestConfiguration r) (fsmMutateCh
    r) (futures r) (observations r) (shutdown r).

Definition with_conf (c : Config) (r : raft) : raft :=
  mkRaft (raft_state r) (protocolVersion r) c (localID r) (localAddr r)
    (lastContact r) (leaderAddr r) (leaderID r) (candidateFromLeadershipTransfer
    r) (preVoteDisabled r) (logs r) (stable r) (snapshots r)
    (raft_configurations r) (latestConfiguration r) (fsmMutateCh r) (futures r)
    (observations r) (shutdown r).

Definition with_lastContact (t : Z) (r : raft) : raft :=
  mkRaft (raft_state r) (protocolVersion r) (conf r) (localID r) (localAddr r) t
    (leaderAddr r) (leaderID r) (candidateFromLeadershipTransfer r)
    (preVoteDisabled r) (logs r) (stable r) (snapshots r) (raft_configurations
    r) (latestConfiguration r) (fsmMutateCh r) (futures r) (observations r)
    (shutdown r).

Definition with_leader (a : ServerAddress) (i : ServerID) (r : raft) : raft :=
  mkRaft (raft_state r) (protocolVersion r) (conf r) (localID r) (localAddr r)
    (lastContact r) a i (candidateFromLeadershipTransfer r) (preVoteDisabled r)
    (logs r) (stable r) (snapshots r) (raft_configurations r)
    (latestConfiguration r) (fsmMutateCh r) (futures r) (observations r)
    (shutdown r).

Definition with_candidateFromLeadershipTransfer (b : bool) (r : raft) : raft :=
  mkRaft (raft_state r) (protocolVersion r) (conf r) (localID r) (localAddr r)
    (lastContact r) (leaderAddr r) (leaderID r) b (preVoteDisabled r) (logs r)
    (stable r) (snapshots r) (raft_configurations r) (latestConfiguration r)
    (fsmMutateCh r) (futures r) (observations r) (shutdown r).

Definition with_logs (l : L) (r : raft) : raft :=
  mkRaft (raft_state r) (protocolVersion r) (conf r) (localID r) (localAddr r)
    (lastContact r) (leaderAddr r) (leaderID r) (candidateFromLeadershipTransfer
    r) (preVoteDisabled r) l (stable r) (snapshots r) (raft_configurations r)
    (latestConfiguration r) (fsmMutateCh r) (futures r) (observations r)
    (shutdown r).

Definition with_stable (k : K) (r : raft) : raft :=
  mkRaft (raft_state r) (protocolVersion r) (conf r) (localID r) (localAddr r)
    (lastContact r) (leaderAddr r) (leaderID r) (candidateFromLeadershipTransfer
    r) (preVoteDisabled r) (logs r) k (snapshots r) (raft_configurations r)
    (latestConfiguration r) (fsmMutateCh r) (futures r) (observations r)
    (shutdown r).

Definition with_snapshots (s : SN) (r : raft) : raft :=
  mkRaft (raft_state r) (protocolVersion r) (conf r) (localID r) (localAddr r)
    (lastContact r) (leaderAddr r) (leaderID r) (candidateFromLeadershipTransfer
    r) (preVoteDisabled r) (logs r) (stable r) s (raft_configurations r)
    (latestConfiguration r) (fsmMutateCh r) (futures r) (observations r)
    (shutdown r).

Definition with_configurations (c : configurations) (r : raft) : raft :=
  mkRaft (raft_state r) (protocolVersion r) (conf r) (localID r) (localAddr r)
    (lastContact r) (leaderAddr r) (leaderID r) (candidateFromLeadershipTransfer
    r) (preVoteDisabled r) (logs r) (stable r) (snapshots r) c
    (latestConfiguration r) (fsmMutateCh r) (futures r) (observations r)
    (shutdown r).

Definition with_latestConfiguration (c : option Configuration) (r : raft) : raft :=
  mkRaft (raft_state r) (protocolVersion r) (conf r) (localID r) (localAddr r)
    (lastContact r) (leaderAddr r) (leaderID r) (candidateFromLeadershipTransfer
    r) (preVoteDisabled r) (logs r) (stable r) (snapshots r)
    (raft_configurations r) c (fsmMutateCh r) (futures r) (observations r)
    (shutdown r).

Definition with_fsmMutateCh (q : list fsmMutation) (r : raft) : raft :=
  mkRaft (raft_state r) (protocolVersion r) (conf r) (localID r) (localAddr r)
    (lastContact r) (leaderAddr r) (leaderID r) (candidateFromLeadershipTransfer
    r) (preVoteDisabled r) (logs r) (stable r) (snapshots r)
    (raft_configurations r) (latestConfiguration r) q (futures r) (observations
    r) (shutdown r).

Definition with_futures (m : gmap nat (option error)) (r : raft) : raft :=
  mkRaft (raft_state r) (protocolVersion r) (conf r) (localID r) (localAddr r)
    (lastContact r) (leaderAddr r) (leaderID r) (candidateFromLeadershipTransfer
    r) (preVoteDisabled r) (logs r) (stable r) (snapshots r)
    (raft_configurations r) (latestConfiguration r) (fsmMutateCh r) m
    (observations r) (shutdown r).

Definition with_observations (o : list Observation) (r : raft) : raft :=
  mkRaft (raft_state r) (protocolVersion r) (conf r) (localID r) (localAddr r)
    (lastContact r) (leaderAddr r) (leaderID r) (candidateFromLeadershipTransfer
    r) (preVoteDisabled r) (logs r) (stable r) (snapshots r)
    (raft_configurations r) (latestConfiguration r) (fsmMutateCh r) (futures r)
    o (shutdown r).

Definition with_shutdown (b : bool) (r : raft) : raft :=
  mkRaft (raft_state r) (protocolVersion r) (conf r) (localID r) (localAddr r)
    (lastContact r) (leaderAddr r) (leaderID r) (candidateFromLeadershipTransfer
    r) (preVoteDisabled r) (logs r) (stable r) (snapshots r)
    (raft_configurations r) (latestConfiguration r) (fsmMutateCh r) (futures r)
    (observations r) b.

(** [raft_state] is embedded in [Raft], so its setters are methods of [Raft]. *)
Definition setLastLog (index term : N) : M raft unit :=
  modify (with_raft_state (raftState_setLastLog index term)).

Definition setLastSnapshot (index term : N) : M raft unit :=
  modify (with_raft_state (raftState_setLastSnapshot index term)).

Definition setCommitIndex (index : N) : M raft unit :=
  modify (with_raft_state (raftState_setCommitIndex index)).

Definition setLastApplied (index : N) : M raft unit :=
  modify (with_raft_state (raftState_setLastApplied index)).

Definition observe (o : Observation) : M raft unit :=
  modify (fun r => with_observations (observations r ++ [o]) r).

(** [deferError.respond]: only the first answer counts, and a future that was
    never initialised ignores it. *)
Definition respond (f : option nat) (err : option error) : M raft unit :=
  modify (fun r =>
    match f with
    | None => r
    | Some i => match futures r !! i with
                | Some _ => r
                | None => with_futures (<[i := err]> (futures r)) r
                end
    end).

(** The clock reading of [time.Now] is an argument. *)
Definition setLastContact (now : Z) : M raft unit := modify (with_lastContact now).

Definition setLeader (addr : ServerAddress) (id : ServerID) : M raft unit := (
  r <- get_state;;
  modify (with_leader addr id);;
  if decide (leaderAddr r <> addr \/ leaderID r <> id)
  then observe (LeaderObservation addr id)
  else returns tt)%go.

Definition setState (s : RaftState) : M raft unit := (
  setLeader "" "";;
  r <- get_state;;
  modify (with_raft_state (raftState_setState s));;
  if decide (state (raft_state r) <> s)
  then observe (RaftStateObservation s)
  else returns tt)%go.

Definition setLatestConfiguration (c : Configuration) (i : N) : M raft unit := (
  modify (fun r => with_configurations
    (mkConfigurations (committed (raft_configurations r))
       (committedIndex (raft_configurations r)) c i) r);;
  modify (with_latestConfiguration (Some (Configuration_Clone c))))%go.

Definition setCommittedConfiguration (c : Configuration) (i : N) : M raft unit :=
  modify (fun r => with_configurations
    (mkConfigurations c i (latest (raft_configurations r))
       (latestIndex (raft_configurations r))) r).

Definition getLatestConfiguration (r : raft) : Configuration :=
  match latestConfiguration r with
  | Some c => c
  | None => mkConfiguration []
  end.

Fixpoint count_voters (servers : list Server) : Z :=
  match servers with
  | [] => 0
  | server :: rest =>
      if decide (Suffrage server = Voter) then 1 + count_voters rest
      else count_voters rest
  end.

Definition quorumSize (r : raft) : Z :=
  count_voters (Servers (latest (raft_configurations r))) `div` 2 + 1.

Context `{StableStore K}.

Definition setCurrentTerm (t : N) : M raft unit := fun r =>
  match SetUint64 (stable r) keyCurrentTerm t with
  | (k, Some _) => Panicked (with_stable k r)
  | (k, None) =>
      Done tt (with_raft_state (raftState_setCurrentTerm t) (with_stable k r))
  end.

Definition persistVote (term : N) (candidate : string) : M raft (option error) := fun r =>
  match SetUint64 (stable r) keyLastVoteTerm term with
  | (k, Some err) => Done (Some err) (with_stable k r)
  | (k, None) =>
      match Set_ k keyLastVoteCand candidate with
      | (k', Some err) => Done (Some err) (with_stable k' r)
      | (k', None) => Done None (with_stable k' r)
      end
  end.

Context `{PeerCodec}.

Definition getRPCHeader (r : raft) : RPCHeader :=
  mkHeader (ProtocolVersion (conf r)) (LocalID (conf r))
    (EncodePeer (LocalID (conf r)) (localAddr r)).

(** [wh.GetRPCHeader]: [None] is a command that does not carry a header. *)
Definition checkRPCHeader (r : raft) (header : option RPCHeader) : option error :=
  match header with
  | None => Some (Errorf "RPC does not have a header")
  | Some header =>
      if decide ((hdr_ProtocolVersion header < ProtocolVersionMin)%Z \/
                 (ProtocolVersionMax < hdr_ProtocolVersion header)%Z)
      then Some ErrUnsupportedProtocol
      else if decide (hdr_ProtocolVersion header < ProtocolVersion (conf r) - 1)%Z
      then Some ErrUnsupportedProtocol
      else None
  end.
End Setters.

Definition getSnapshotVersion (protocolVersion : Z) : Z := 1.

(** ** Equations of the setters *)

Section SetterFacts.
Context {L K SN : Type}.
Abbreviation raft := (Raft L K SN).
Implicit Types r : raft.

Definition leader_note (addr : ServerAddress) (id : ServerID) r : list Observation :=
  if decide (leaderAddr r <> addr \/ leaderID r <> id)
  then [LeaderObservation addr id] else [].

Lemma setLeader_eq addr id r :
  setLeader addr id r =
  Done tt (with_observations (observations r ++ leader_note addr id r)
             (with_leader addr id r)).
Proof.
  unfold setLeader, bind, leader_note; simpl. case_decide; [done|].
  unfold returns. rewrite app_nil_r. by destruct r.
Qed.

Definition state_note (s : RaftState) r : list Observation :=
  leader_note "" "" r ++
  if decide (state (raft_state r) <> s) then [RaftStateObservation s] else [].

Lemma setState_eq s r :
  setState s r =
  Done tt (with_observations (observations r ++ state_note s r)
             (with_raft_state (raftState_setState s) (with_leader "" "" r))).
Proof.
  unfold setState, bind, state_note. rewrite setLeader_eq; simpl.
  case_decide; simpl; unfold returns; rewrite ?app_nil_r, ?app_assoc; by destruct r.
Qed.
End SetterFacts.
