(* ===== verification/Elections.v ===== *)
(** * Elections: votes, pre-votes and the candidate loop, [raft.go]

    The handlers [requestVote], [requestPreVote] and [timeoutNow], the campaign
    ([electSelf], [preElectSelf]) and the cases of [runCandidate] that tally it,
    the follower's heartbeat timeout, with the node-level safety of voting. *)
From S2P Require Import Prelude Types Util Codec Configuration Config Stores State.

(** ** Definitions *)

(** [err != nil && err.Error() != "not found"]. *)
Definition read_failed (err : option error) : bool :=
  match err with
  | None => false
  | Some e => bool_decide (Error e <> "not found")
  end.

Record voteResult := mkVoteResult {
  vr_response : RequestVoteResponse;
  vr_voterID : ServerID
}.

Record preVoteResult := mkPreVoteResult {
  pr_response : RequestPreVoteResponse;
  pr_voterID : ServerID
}.

(** A campaign that was started: the request sent to the [asked] servers, and
    what is already on the response channel ([None] is the nil channel). *)
Record campaign := mkCampaign {
  cp_request : RequestVoteRequest;
  cp_asked : list Server;
  cp_respCh : option (list voteResult)
}.

Record preCampaign := mkPreCampaign {
  pc_request : RequestPreVoteRequest;
  pc_asked : list Server;
  pc_respCh : list preVoteResult
}.

(** What the goroutine of [askPeer] puts on the channel: [resp] is the response
    as the transport left it and [err] the error of the call. *)
Definition askPeer (req : RequestVoteRequest) (peer : Server)
    (resp : RequestVoteResponse) (err : option error) : voteResult :=
  match err with
  | None => mkVoteResult resp (ID peer)
  | Some _ =>
      mkVoteResult (mkRequestVoteResponse (rvr_Header resp) (rv_Term req)
                      (rvr_Peers resp) false) (ID peer)
  end.

(** [strings.Contains] *)
Fixpoint strings_Contains (s substr : string) : bool :=
  String.prefix substr s ||
  match s with
  | EmptyString => false
  | String _ s' => strings_Contains s' substr
  end.

Definition rpcUnexpectedCommandError : string := "unexpected command".

Definition preAskPeer (req : RequestPreVoteRequest) (peer : Server)
    (resp : RequestPreVoteResponse) (err : option error) : preVoteResult :=
  match err with
  | None => mkPreVoteResult resp (ID peer)
  | Some e =>
      if strings_Contains (Error e) rpcUnexpectedCommandError
      then mkPreVoteResult
             (mkRequestPreVoteResponse (pvr_Header resp) (pv_Term req) true) (ID peer)
      else mkPreVoteResult
             (mkRequestPreVoteResponse (pvr_Header resp) (pv_Term req) false) (ID peer)
  end.

(** The local variables of [runCandidate]; the channels are kept as whether they
    are non-nil. *)
Record candidateLoop := mkCandidateLoop {
  cl_term : N;
  cl_prevoteCh : bool;
  cl_voteCh : bool;
  preVoteGrantedVotes : Z;
  preVoteRefusedVotes : Z;
  grantedVotes : Z;
  votesNeeded : Z
}.

(** How a case of the candidate loop ends: [cl_continue] goes on with the loop,
    [cl_elect] goes on after starting a real election, [cl_return] leaves
    [runCandidate]. *)
Inductive candidateCase :=
  | cl_continue (c : candidateLoop)
  | cl_elect (c : candidateLoop) (e : campaign)
  | cl_return.

Section Elections.
Context {L K SN : Type} `{StableStore K} `{MsgPack} `{PeerCodec}.
Abbreviation raft := (Raft L K SN).

(** The address bytes under which a vote request asks to be recorded. *)
Definition candidateBytes (req : RequestVoteRequest) : string :=
  if decide (hdr_Addr (rv_Header req) <> "") then hdr_Addr (rv_Header req)
  else rv_Candidate req.

Definition encode_latest_peers : M raft string := fun r =>
  if decide (protocolVersion r < 2)%Z then
    match encodePeers (latest (raft_configurations r)) with
    | Ok buf => Done buf r
    | Err _ => Panicked r
    end
  else Done "" r.

(** The candidate is not a member (a voter) of a non-empty configuration; a
    request without an ID skips the check. *)
Definition vote_rejected_by (member : Configuration -> ServerID -> bool)
    (r : raft) (id : ServerID) : bool :=
  bool_decide (id <> "" /\ Servers (latest (raft_configurations r)) <> [] /\
               member (latest (raft_configurations r)) id = false).

Definition requestVote (now : Z) (req : RequestVoteRequest)
    : M raft (RequestVoteResponse * option error) := (
  observe (RequestVoteObservation req);;
  r <- get_state;;
  peers <- encode_latest_peers;;
  let reply term granted :=
    returns (mkRequestVoteResponse (getRPCHeader r) term peers granted, None) in
  let cur := currentTerm (raft_state r) in
  let candidate := DecodePeer (candidateBytes req) in
  let candidateID := hdr_ID (rv_Header req) in
  if vote_rejected_by inConfiguration r candidateID then reply cur false
  else if decide (leaderAddr r <> "" /\ leaderAddr r <> candidate /\
                  rv_LeadershipTransfer req = false) then reply cur false
  else if decide (rv_Term req < cur)%N then reply cur false
  else
    term <- (if decide (cur < rv_Term req)%N then
               setState Follower;; setCurrentTerm (rv_Term req);;
               returns (rv_Term req)
             else returns cur);;
    if vote_rejected_by hasVote r candidateID then reply term false
    else
      r1 <- get_state;;
      let '(lastVoteTerm, err1) := GetUint64 (stable r1) keyLastVoteTerm in
      if read_failed err1 then reply term false else
      let '(lastVoteCandBytes, err2) := Get (stable r1) keyLastVoteCand in
      if read_failed err2 then reply term false else
      if decide (lastVoteTerm = rv_Term req /\ lastVoteCandBytes <> None) then
        reply term (bool_decide (lastVoteCandBytes = Some (candidateBytes req)))
      else
        let '(lastIdx, lastTerm) := getLastEntry (raft_state r1) in
        if decide (rv_LastLogTerm req < lastTerm)%N then reply term false
        else if decide (lastTerm = rv_LastLogTerm req /\
                        (rv_LastLogIndex req < lastIdx)%N) then reply term false
        else
          err <- persistVote (rv_Term req) (candidateBytes req);;
          match err with
          | Some _ => reply term false
          | None => setLastContact now;; reply term true
          end)%go.

Definition requestPreVote (req : RequestPreVoteRequest)
    : M raft (RequestPreVoteResponse * option error) := (
  observe (RequestPreVoteObservation req);;
  r <- get_state;;
  let reply term granted :=
    returns (mkRequestPreVoteResponse (getRPCHeader r) term granted, None) in
  let cur := currentTerm (raft_state r) in
  let candidate := DecodePeer (hdr_Addr (pv_Header req)) in
  let candidateID := hdr_ID (pv_Header req) in
  let servers := Servers (latest (raft_configurations r)) in
  if decide (servers <> [] /\
             inConfiguration (latest (raft_configurations r)) candidateID = false)
  then reply cur false
  else if decide (leaderAddr r <> "" /\ leaderAddr r <> candidate) then reply cur false
  else if decide (pv_Term req < cur)%N then reply cur false
  else
    let term := if decide (cur < pv_Term req)%N then pv_Term req else cur in
    if decide (servers <> [] /\
               hasVote (latest (raft_configurations r)) candidateID = false)
    then reply term false
    else
      let '(lastIdx, lastTerm) := getLastEntry (raft_state r) in
      if decide (pv_LastLogTerm req < lastTerm)%N then reply term false
      else if decide (lastTerm = pv_LastLogTerm req /\
                      (pv_LastLogIndex req < lastIdx)%N) then reply term false
      else reply term true)%go.

Definition timeoutNow (req : TimeoutNowRequest) : M raft (TimeoutNowResponse * option error) := (
  setLeader "" "";;
  setState Candidate;;
  modify (with_candidateFromLeadershipTransfer true);;
  returns (mkTimeoutNowResponse (mkHeader 0 "" ""), None))%go.

(** The loop of [electSelf]: [asked] and [respCh] are what the earlier
    iterations did. *)
Fixpoint electSelf_loop (req : RequestVoteRequest) (servers asked : list Server)
    (respCh : list voteResult) : M raft campaign :=
  match servers with
  | [] => returns (mkCampaign req asked (Some respCh))
  | server :: rest => fun r =>
      if decide (Suffrage server = Voter) then
        if decide (ID server = localID r) then
          (err <- persistVote (rv_Term req) (hdr_Addr (rv_Header req));;
           match err with
           | Some _ => returns (mkCampaign req asked None)
           | None =>
               electSelf_loop req rest asked
                 (respCh ++ [mkVoteResult
                    (mkRequestVoteResponse (getRPCHeader r) (rv_Term req) "" true)
                    (localID r)])
           end)%go r
        else electSelf_loop req rest (asked ++ [server]) respCh r
      else electSelf_loop req rest asked respCh r
  end.

Definition electSelf : M raft campaign := (
  r <- get_state;;
  let newTerm := u64_add (currentTerm (raft_state r)) 1 in
  setCurrentTerm newTerm;;
  r <- get_state;;
  let '(lastIdx, lastTerm) := getLastEntry (raft_state r) in
  let req := mkRequestVoteRequest (getRPCHeader r) newTerm
               (EncodePeer (localID r) (localAddr r)) lastIdx lastTerm
               (candidateFromLeadershipTransfer r) in
  electSelf_loop req (Servers (latest (raft_configurations r))) [] [])%go.

Fixpoint preElectSelf_loop (r : raft) (req : RequestPreVoteRequest)
    (servers asked : list Server) (respCh : list preVoteResult) : preCampaign :=
  match servers with
  | [] => mkPreCampaign req asked respCh
  | server :: rest =>
      if decide (Suffrage server = Voter) then
        if decide (ID server = localID r) then
          preElectSelf_loop r req rest asked
            (respCh ++ [mkPreVoteResult
               (mkRequestPreVoteResponse (getRPCHeader r) (pv_Term req) true)
               (localID r)])
        else preElectSelf_loop r req rest (asked ++ [server]) respCh
      else preElectSelf_loop r req rest asked respCh
  end.

(** [preElectSelf] on a transport that supports pre-votes; it only reads. *)
Definition preElectSelf (r : raft) : preCampaign :=
  let newTerm := u64_add (currentTerm (raft_state r)) 1 in
  let '(lastIdx, lastTerm) := getLastEntry (raft_state r) in
  let req := mkRequestPreVoteRequest (getRPCHeader r) newTerm lastIdx lastTerm in
  preElectSelf_loop r req (Servers (latest (raft_configurations r))) [] [].

(** [runCandidate] up to its loop. *)
Definition runCandidate_start : M raft (candidateLoop * (preCampaign + campaign)) := (
  r <- get_state;;
  let term := u64_add (currentTerm (raft_state r)) 1 in
  if negb (preVoteDisabled r) && negb (candidateFromLeadershipTransfer r) then
    returns (mkCandidateLoop term true false 0 0 0 (quorumSize r),
             inl (preElectSelf r))
  else
    e <- electSelf;;
    r1 <- get_state;;
    returns (mkCandidateLoop term false (bool_decide (cp_respCh e <> None)) 0 0 0
               (quorumSize r1), inr e))%go.

(** The case [preVote := <-prevoteCh] of the loop. *)
Definition candidate_preVote (c : candidateLoop) (preVote : preVoteResult)
    : M raft candidateCase := (
  let resp := pr_response preVote in
  if decide (cl_term c < pvr_Term resp)%N then
    setState Follower;; setCurrentTerm (pvr_Term resp);; returns cl_return
  else
    let granted := if pvr_Granted resp then preVoteGrantedVotes c + 1
                   else preVoteGrantedVotes c in
    let refused := if pvr_Granted resp then preVoteRefusedVotes c
                   else preVoteRefusedVotes c + 1 in
    if decide (votesNeeded c <= granted) then
      e <- electSelf;;
      returns (cl_elect
        (mkCandidateLoop (cl_term c) false (bool_decide (cp_respCh e <> None)) 0 0
           (grantedVotes c) (votesNeeded c)) e)
    else
      returns (cl_continue
        (mkCandidateLoop (cl_term c) (cl_prevoteCh c) (cl_voteCh c) granted refused
           (grantedVotes c) (votesNeeded c))))%go%Z.

(** The case [vote := <-voteCh] of the loop. *)
Definition candidate_vote (c : candidateLoop) (vote : voteResult)
    : M raft candidateCase := (
  r <- get_state;;
  let resp := vr_response vote in
  if decide (currentTerm (raft_state r) < rvr_Term resp)%N then
    setState Follower;; setCurrentTerm (rvr_Term resp);; returns cl_return
  else
    let granted := (if rvr_Granted resp then grantedVotes c + 1 else grantedVotes c)%Z in
    if decide (votesNeeded c <= granted)%Z then
      setState Leader;; setLeader (localAddr r) (localID r);; returns cl_return
    else
      returns (cl_continue
        (mkCandidateLoop (cl_term c) (cl_prevoteCh c) (cl_voteCh c)
           (preVoteGrantedVotes c) (preVoteRefusedVotes c) granted (votesNeeded c))))%go.

(** The deferred function of [runCandidate], run on every return. *)
Definition runCandidate_return : M raft unit :=
  modify (with_candidateFromLeadershipTransfer false).

(** The case [<-heartbeatTimer] of [runFollower]; the answer is whether the
    loop returns. *)
Definition follower_heartbeatTimeout (now : Z) : M raft bool := (
  r <- get_state;;
  if decide (now - lastContact r < HeartbeatTimeout (conf r))%Z then returns false
  else
    setLeader "" "";;
    let cs := raft_configurations r in
    if decide (latestIndex cs = 0)%N then returns false
    else if decide (latestIndex cs = committedIndex cs /\
                    hasVote (latest cs) (localID r) = false) then returns false
    else if hasVote (latest cs) (localID r) then
      setState Candidate;; returns true
    else returns false)%go.
End Elections.

(** ** What voting leaves on disk *)

Section Votes.
Context {L K SN : Type} `{StableStore K} `{!StableStoreLaws K} `{MsgPack} `{PeerCodec}.
Abbreviation raft := (Raft L K SN).
Implicit Types r : raft.
Implicit Types g : gset (N * string).

Definition disk_term (k : K) : N := (GetUint64 k keyCurrentTerm).1.
Definition disk_vote_term (k : K) : N := (GetUint64 k keyLastVoteTerm).1.
Definition disk_vote_cand (k : K) : option string := (Get k keyLastVoteCand).1.

(** [g] is the set of votes granted so far, as pairs of a term and the address
    bytes of a candidate. *)
Record votes_recorded (k : K) (g : gset (N * string)) : Prop := {
  vote_term_le : (disk_vote_term k <= disk_term k)%N;
  granted_le t c : (t, c) ∈ g -> (t <= disk_vote_term k)%N;
  granted_last t c : (t, c) ∈ g -> t = disk_vote_term k -> disk_vote_cand k = Some c;
  granted_once t c c' : (t, c) ∈ g -> (t, c') ∈ g -> c = c'
}.

(** The volatile term is the one on disk. *)
Definition term_cached r : Prop := currentTerm (raft_state r) = disk_term (stable r).

Lemma SetUint64_cases k key v k' e :
  SetUint64 k key v = (k', e) ->
  ((forall x, GetUint64 k' x = if decide (x = key) then (v, None) else GetUint64 k x) \/
   e <> None /\ forall x, GetUint64 k' x = GetUint64 k x) /\
  forall x, Get k' x = Get k x.
Proof.
  intros HS. split; [destruct e as [e|]|].
  - destruct (GetUint64_SetUint64_failed _ _ _ _ _ HS); eauto.
  - left. by apply GetUint64_SetUint64.
  - intros x. pose proof (Get_SetUint64 k key v x) as Hx. by rewrite HS in Hx.
Qed.

Lemma Set_cases k key v k' e :
  Set_ k key v = (k', e) ->
  ((forall x, Get k' x = if decide (x = key) then (Some v, None) else Get k x) \/
   e <> None /\ forall x, Get k' x = Get k x) /\
  forall x, GetUint64 k' x = GetUint64 k x.
Proof.
  intros HS. split; [destruct e as [e|]|].
  - destruct (Get_Set_failed _ _ _ _ _ HS); eauto.
  - left. by apply Get_Set.
  - intros x. pose proof (GetUint64_Set k key v x) as Hx. by rewrite HS in Hx.
Qed.

(** Raising the term on disk keeps the record of the votes, even when the write
    fails. *)
Lemma votes_recorded_term k t k' e g :
  SetUint64 k keyCurrentTerm t = (k', e) -> (disk_term k <= t)%N ->
  votes_recorded k g -> votes_recorded k' g /\ (disk_term k <= disk_term k')%N.
Proof.
  intros HS Hle [I1 I2 I3 I4]. destruct (SetUint64_cases _ _ _ _ _ HS) as [HU HG].
  assert (disk_vote_term k' = disk_vote_term k) as Ev.
  { unfold disk_vote_term. by destruct HU as [HU|[_ HU]]; rewrite HU. }
  assert (disk_vote_cand k' = disk_vote_cand k) as Ec.
  { unfold disk_vote_cand. by rewrite HG. }
  assert (disk_term k <= disk_term k')%N.
  { unfold disk_term in *. destruct HU as [HU|[_ HU]]; rewrite HU; simpl; lia. }
  split; [|done]. split; rewrite ?Ev, ?Ec; eauto. lia.
Qed.

Lemma setCurrentTerm_Done t r u r' :
  setCurrentTerm t r = Done u r' ->
  exists k, SetUint64 (stable r) keyCurrentTerm t = (k, None) /\
            r' = with_raft_state (raftState_setCurrentTerm t) (with_stable k r).
Proof.
  unfold setCurrentTerm. destruct (SetUint64 _ _ _) as [k [e|]]; [done|].
  intros [= <-]. eauto.
Qed.

Lemma setCurrentTerm_disk t r u r' :
  setCurrentTerm t r = Done u r' -> disk_term (stable r') = t.
Proof.
  intros (k & HS & ->)%setCurrentTerm_Done. unfold disk_term; simpl.
  by rewrite (GetUint64_SetUint64 _ _ _ _ HS).
Qed.

(** A vote for [c] in the current term can be recorded when every vote granted
    in this term was for [c]; it counts only if both writes succeed. *)
Lemma persistVote_recorded term c r err r' g :
  persistVote term c r = Done err r' ->
  term = disk_term (stable r) -> (forall c', (term, c') ∈ g -> c' = c) ->
  votes_recorded (stable r) g ->
  (exists k, r' = with_stable k r /\ disk_term k = disk_term (stable r)) /\
  votes_recorded (stable r') g /\
  (err = None -> votes_recorded (stable r') ({[(term, c)]} ∪ g)).
Proof.
  unfold persistVote. intros HP HT Hc [I1 I2 I3 I4].
  destruct (SetUint64 _ _ _) as [k1 e1] eqn:E1.
  destruct (SetUint64_cases _ _ _ _ _ E1) as [HU1 HG1].
  assert (disk_term k1 = disk_term (stable r)) as Et1.
  { unfold disk_term. by destruct HU1 as [HU|[_ HU]]; rewrite HU. }
  assert (disk_vote_cand k1 = disk_vote_cand (stable r)) as Ec1.
  { unfold disk_vote_cand. by rewrite HG1. }
  assert (disk_vote_term k1 = term \/
          e1 <> None /\ disk_vote_term k1 = disk_vote_term (stable r)) as Ev1.
  { unfold disk_vote_term. destruct HU1 as [HU|[? HU]]; rewrite HU; auto. }
  assert (votes_recorded k1 g) as R1.
  { split; [..|done].
    - destruct Ev1 as [->|[_ ->]]; lia.
    - intros t c' Hin. specialize (I2 _ _ Hin). destruct Ev1 as [->|[_ ->]]; lia.
    - rewrite Ec1. intros t c' Hin Et. apply (I3 t); [done|].
      specialize (I2 _ _ Hin). destruct Ev1 as [Ev|[_ Ev]]; lia. }
  destruct e1 as [e1|]; [injection HP as <- <-; simpl; by split_and!; [eexists|..]|].
  destruct Ev1 as [Ev1|[? _]]; [|congruence].
  destruct (Set_ _ _ _) as [k2 e2] eqn:E2.
  destruct (Set_cases _ _ _ _ _ E2) as [HG2 HU2].
  assert (disk_term k2 = disk_term (stable r)) as Et2.
  { unfold disk_term. rewrite HU2. exact Et1. }
  assert (disk_vote_term k2 = term) as Ev2.
  { unfold disk_vote_term. rewrite HU2. exact Ev1. }
  assert (disk_vote_cand k2 = Some c \/
          e2 <> None /\ disk_vote_cand k2 = disk_vote_cand (stable r)) as Ec2.
  { unfold disk_vote_cand. destruct HG2 as [HG|[? HG]]; rewrite HG; [auto|].
    right. by rewrite HG1. }
  assert (votes_recorded k2 g) as R2.
  { destruct R1 as [_ G2 G3 _]. rewrite Ev1 in G2, G3. rewrite Ec1 in G3.
    split; rewrite ?Ev2; eauto; [lia|].
    intros t c' Hin ->. destruct Ec2 as [->|[_ ->]]; [|eauto].
    by rewrite (Hc _ Hin). }
  destruct e2 as [e2|]; injection HP as <- <-; simpl; [by split_and!; [eexists|..]|].
  split_and!; [eauto|done|intros _]. destruct Ec2 as [Ec2|[? _]]; [|congruence].
  destruct R2 as [R21 R22 R23 _]. split; rewrite ?Ev2, ?Ec2; [lia|..].
  - intros t c' [[= -> ->]%elem_of_singleton|Hin]%elem_of_union; [done|].
    rewrite <- Ev2. eauto.
  - intros t c' [[= -> ->]%elem_of_singleton|Hin]%elem_of_union Et; [done|].
    subst t. by rewrite (Hc _ Hin).
  - intros t c1 c2 [E1'%elem_of_singleton|Hin1]%elem_of_union
      [E2'%elem_of_singleton|Hin2]%elem_of_union; simplify_eq; eauto.
    by rewrite (Hc _ Hin2).
Qed.

Definition latest_of r : Configuration := latest (raft_configurations r).

(** The server after it caught up with the term [t] of a request. *)
Record caught_up (t : N) r r1 : Prop := {
  cu_le : (currentTerm (raft_state r) <= t)%N;
  cu_term : currentTerm (raft_state r1) = t;
  cu_last : getLastEntry (raft_state r1) = getLastEntry (raft_state r);
  cu_conf : raft_configurations r1 = raft_configurations r;
  cu_self : localID r1 = localID r /\ localAddr r1 = localAddr r /\ conf r1 = conf r;
  cu_logs : logs r1 = logs r;
  cu_lastlog : getLastLog (raft_state r1) = getLastLog (raft_state r);
  cu_disk : (currentTerm (raft_state r) < t)%N /\
            SetUint64 (stable r) keyCurrentTerm t = (stable r1, None) /\
            state (raft_state r1) = Follower \/
            currentTerm (raft_state r) = t /\ stable r1 = stable r /\
            state (raft_state r1) = state (raft_state r)
}.

Lemma encode_latest_peers_Done r p r' : encode_latest_peers r = Done p r' -> r' = r.
Proof. unfold encode_latest_peers. repeat case_match; naive_solver. Qed.

(** The log of the candidate is at least as up to date as ours. *)
Definition up_to_date (lastIdx lastTerm : N) r : Prop :=
  let '(idx, term) := getLastEntry (raft_state r) in
  (term < lastTerm)%N \/ term = lastTerm /\ (idx <= lastIdx)%N.

Definition member_ok (member : Configuration -> ServerID -> bool) r (id : ServerID) : Prop :=
  id = "" \/ Servers (latest_of r) = [] \/ member (latest_of r) id = true.

Lemma vote_rejected_by_false member r id :
  vote_rejected_by member r id = false -> member_ok member r id.
Proof.
  unfold vote_rejected_by, member_ok, latest_of. rewrite bool_decide_eq_false.
  destruct (decide (id = "")); [auto|]. destruct (Servers _); [auto|].
  destruct (member _ _); [auto|]. intros Hn. by destruct Hn.
Qed.

Inductive vote_outcome (now : Z) (req : RequestVoteRequest) r : bool -> raft -> Prop :=
  | vote_ignored o : vote_outcome now req r false (with_observations o r)
  | vote_refused r1 : caught_up (rv_Term req) r r1 -> vote_outcome now req r false r1
  | vote_repeated r1 :
      caught_up (rv_Term req) r r1 -> member_ok hasVote r (hdr_ID (rv_Header req)) ->
      disk_vote_term (stable r1) = rv_Term req ->
      disk_vote_cand (stable r1) = Some (candidateBytes req) ->
      vote_outcome now req r true r1
  | vote_fresh r1 err r2 :
      caught_up (rv_Term req) r r1 -> member_ok hasVote r (hdr_ID (rv_Header req)) ->
      ~ (disk_vote_term (stable r1) = rv_Term req /\ disk_vote_cand (stable r1) <> None) ->
      up_to_date (rv_LastLogIndex req) (rv_LastLogTerm req) r ->
      persistVote (rv_Term req) (candidateBytes req) r1 = Done err r2 ->
      vote_outcome now req r (bool_decide (err = None))
        (if decide (err = None) then with_lastContact now r2 else r2).

Lemma catch_up_Done t r o (term : N) r1 :
  (currentTerm (raft_state r) <= t)%N ->
  (if decide (currentTerm (raft_state r) < t)%N
   then (setState Follower;; setCurrentTerm t;; returns t)%go
   else returns (currentTerm (raft_state r))) (with_observations o r) = Done term r1 ->
  term = t /\ caught_up t r r1.
Proof.
  intros Hle HE. case_decide.
  - bind_inv HE. rewrite setState_eq in E. injection E as _ <-.
    bind_inv HE. apply setCurrentTerm_Done in E as (k & Hk & ->).
    injection HE as <- <-. split; [done|]. split; try done. left. by split_and!.
  - injection HE as <- <-. split; [lia|]. split; simpl; try done; [lia|].
    right. split_and!; [lia|done..].
Qed.

Lemma requestVote_outcome now req r resp err r' :
  requestVote now req r = Done (resp, err) r' ->
  err = None /\ vote_outcome now req r (rvr_Granted resp) r'.
Proof.
  intros HE. unfold requestVote in HE. bind_inv HE. injection E as _ <-.
  bind_inv HE. injection E as <- <-.
  bind_inv HE. apply encode_latest_peers_Done in E as ->. cbv zeta in HE. simpl in HE.
  case_match; [injection HE as <- <- <-; split; [done|constructor]|].
  case_decide; [injection HE as <- <- <-; split; [done|constructor]|].
  case_decide; [injection HE as <- <- <-; split; [done|constructor]|].
  bind_inv HE. apply catch_up_Done in E as [-> Hcu]; [|lia].
  destruct (vote_rejected_by hasVote _ _) eqn:Hv;
    [injection HE as <- <- <-; split; [done|by constructor]|].
  assert (member_ok hasVote r (hdr_ID (rv_Header req))) as Hm
    by exact (vote_rejected_by_false _ _ _ Hv).
  bind_inv HE. injection E as <- <-.
  destruct (GetUint64 _ _) as [lvt e1] eqn:E1.
  case_match; [injection HE as <- <- <-; split; [done|by constructor]|].
  destruct (Get _ _) as [lvc e2] eqn:E2.
  case_match; [injection HE as <- <- <-; split; [done|by constructor]|].
  assert (disk_vote_term (stable s) = lvt) as Et by (unfold disk_vote_term; by rewrite E1).
  assert (disk_vote_cand (stable s) = lvc) as Ec by (unfold disk_vote_cand; by rewrite E2).
  case_decide as Hdup.
  { injection HE as <- <- <-; split; [done|]. simpl. case_bool_decide as Hc.
    - apply vote_repeated; naive_solver.
    - by apply vote_refused. }
  destruct (getLastEntry _) as [li lt] eqn:EL.
  case_decide; [injection HE as <- <- <-; split; [done|by constructor]|].
  case_decide; [injection HE as <- <- <-; split; [done|by constructor]|].
  apply bind_Done in HE as (perr & r2 & E & HE).
  assert (up_to_date (rv_LastLogIndex req) (rv_LastLogTerm req) r) as Hup.
  { unfold up_to_date. rewrite <- (cu_last _ _ _ Hcu), EL. lia. }
  pose proof (vote_fresh now req r s perr r2 Hcu Hm) as HF.
  rewrite Et, Ec in HF. specialize (HF Hdup Hup E).
  destruct perr as [e|].
  - injection HE as <- <- <-. by split.
  - bind_inv HE. injection E0 as _ <-. injection HE as <- <- <-. by split.
Qed.

Lemma hasVote_inConfiguration c id :
  hasVote c id = true -> inConfiguration c id = true.
Proof.
  unfold hasVote, inConfiguration. induction (Servers c) as [|s l IH]; simpl; [done|].
  by repeat case_decide.
Qed.

Lemma caught_up_recorded t r r1 g :
  term_cached r -> votes_recorded (stable r) g -> caught_up t r r1 ->
  term_cached r1 /\ votes_recorded (stable r1) g.
Proof.
  unfold term_cached. intros Hc Hr [Hle Ht _ _ _ _ _ Hd]. rewrite Ht.
  destruct Hd as [(Hlt & HS & _)|(He & -> & _)]; [|split; [congruence|done]]. split.
  - unfold disk_term. by rewrite (GetUint64_SetUint64 _ _ _ _ HS).
  - eapply votes_recorded_term; [exact HS| |done]. lia.
Qed.

Lemma vote_outcome_recorded now req r b r' g :
  term_cached r -> votes_recorded (stable r) g -> vote_outcome now req r b r' ->
  term_cached r' /\ (currentTerm (raft_state r) <= currentTerm (raft_state r'))%N /\
  votes_recorded (stable r')
    (if b then {[(rv_Term req, candidateBytes req)]} ∪ g else g) /\
  (b = true -> currentTerm (raft_state r') = rv_Term req).
Proof.
  intros Hc Hr HO.
  destruct HO as [o|r1 Hcu|r1 Hcu _ Hvt Hvc|r1 err r2 Hcu _ Hfr _ HP].
  - by split_and!.
  - destruct (caught_up_recorded _ _ _ _ Hc Hr Hcu) as [Hc1 Hr1].
    destruct Hcu as [Hle Ht _ _ _ _ _]. split_and!; [done|lia|done|done].
  - destruct (caught_up_recorded _ _ _ _ Hc Hr Hcu) as [Hc1 [I1 I2 I3 I4]].
    destruct Hcu as [Hle Ht _ _ _ _ _]. split_and!; [done|lia| |done].
    split; [done|..].
    + intros t c [Hin%elem_of_singleton|Hin]%elem_of_union; [simplify_eq; lia|eauto].
    + intros t c [Hin%elem_of_singleton|Hin]%elem_of_union; [by simplify_eq|eauto].
    + intros t c c' [Hin%elem_of_singleton|Hin]%elem_of_union
        [Hin'%elem_of_singleton|Hin']%elem_of_union; simplify_eq; eauto.
      * specialize (I3 _ _ Hin'). rewrite Hvt, Hvc in I3. naive_solver.
      * specialize (I3 _ _ Hin). rewrite Hvt, Hvc in I3. naive_solver.
  - destruct (caught_up_recorded _ _ _ _ Hc Hr Hcu) as [Hc1 Hr1].
    destruct Hcu as [Hle Ht _ _ _ _ _].
    destruct (persistVote_recorded _ _ _ _ _ g HP) as ((k & -> & Hk) & Hg & Hg'); [..|done|].
    { unfold term_cached in Hc1. congruence. }
    { intros c' Hin. exfalso. apply Hfr. destruct Hr1 as [I1 I2 I3 _].
      unfold term_cached in Hc1. specialize (I2 _ _ Hin).
      assert (rv_Term req = disk_vote_term (stable r1)) as Ev by lia.
      by rewrite (I3 _ _ Hin Ev). }
    unfold term_cached in *.
    destruct (decide (err = None)) as [->|Hn]; simpl.
    + split_and!; [congruence|lia|by apply Hg'|done].
    + rewrite bool_decide_false by done. split_and!; [congruence|lia|done|done].
Qed.

Lemma requestVote_Panicked now req r r' g :
  term_cached r -> votes_recorded (stable r) g -> requestVote now req r = Panicked r' ->
  votes_recorded (stable r') g.
Proof.
  intros Hc Hr. unfold requestVote, bind at 1. simpl. unfold bind at 1 2. simpl.
  destruct (encode_latest_peers _) as [p r1|r1] eqn:EP.
  2:{ intros [= <-]. revert EP. unfold encode_latest_peers.
      repeat case_match; naive_solver. }
  apply encode_latest_peers_Done in EP as ->. simpl.
  case_match; [done|]. case_decide; [done|]. case_decide; [done|].
  unfold bind at 1. case_decide.
  - unfold bind at 1. rewrite setState_eq. unfold bind at 1. simpl.
    unfold setCurrentTerm at 1. simpl.
    destruct (SetUint64 _ _ _) as [k [e|]] eqn:ES.
    { intros [= <-]. simpl. eapply votes_recorded_term; [exact ES| |done].
      unfold term_cached in Hc. lia. }
    simpl. repeat (case_match || case_decide); try done.
    unfold bind, persistVote. repeat case_match; try done; naive_solver.
  - simpl. repeat (case_match || case_decide); try done.
    unfold bind, persistVote. repeat case_match; try done; naive_solver.
Qed.


(** A pre-vote changes nothing but the observers' record, and is granted
    exactly when the request has a term at least ours, comes from a voter of our
    latest configuration (or that configuration is empty), no other leader is
    known, and the log of the candidate is at least as up to date as ours; the
    response carries the larger term when the request got past the leader check. *)
Theorem requestPreVote_exact req r :
  exists resp,
    requestPreVote req r =
      Done (resp, None)
        (with_observations (observations r ++ [RequestPreVoteObservation req]) r) /\
    (pvr_Granted resp = true <->
     (currentTerm (raft_state r) <= pv_Term req)%N /\
     (Servers (latest_of r) = [] \/ hasVote (latest_of r) (hdr_ID (pv_Header req)) = true) /\
     (leaderAddr r = "" \/ leaderAddr r = DecodePeer (hdr_Addr (pv_Header req))) /\
     up_to_date (pv_LastLogIndex req) (pv_LastLogTerm req) r) /\
    (pvr_Granted resp = true -> pvr_Term resp = pv_Term req) /\
    (currentTerm (raft_state r) <= pvr_Term resp)%N.
Proof.
  unfold requestPreVote, bind, observe, get_state, modify, returns, up_to_date, latest_of.
  simpl. destruct (getLastEntry _) as [idx term].
  pose proof (hasVote_inConfiguration (latest (raft_configurations r))
                (hdr_ID (pv_Header req))) as Hvi.
  repeat case_decide; (eexists; split; [reflexivity|]); simpl;
    (split; [split; [try done|]|split; [try done; lia|lia]]).
  all: try done; try (intros (? & Hs & Hl & Hu); exfalso; lia || tauto || idtac).
  1: destruct Hs as [Hs|Hs%Hvi]; intuition congruence.
  1, 2: intuition congruence.
  all: intros _; split_and!; [lia| |apply dec_stable; tauto|lia];
    destruct (Servers _); [by left|destruct (hasVote _ _); [by right|]];
    intuition congruence.
Qed.

(** ** Campaigns *)

Definition self_voters r : list Server :=
  filter (fun s => Suffrage s = Voter /\ ID s = localID r) (Servers (latest_of r)).

Definition other_voters r : list Server :=
  filter (fun s => Suffrage s = Voter /\ ID s <> localID r) (Servers (latest_of r)).

Definition self_vote r (term : N) : voteResult :=
  mkVoteResult (mkRequestVoteResponse (getRPCHeader r) term "" true) (localID r).

(** The address bytes a server asks its votes for. *)
Definition own_bytes r : string := EncodePeer (LocalID (conf r)) (localAddr r).

Lemma votes_recorded_mono k g g' :
  g ⊆ g' -> votes_recorded k g' -> votes_recorded k g.
Proof. intros Hs [I1 I2 I3 I4]. split; eauto. Qed.

Lemma electSelf_loop_Done req servers asked ch r e r' g :
  electSelf_loop req servers asked ch r = Done e r' ->
  rv_Term req = disk_term (stable r) ->
  (forall c', (rv_Term req, c') ∈ g -> c' = hdr_Addr (rv_Header req)) ->
  votes_recorded (stable r) g ->
  let self := filter (fun s => Suffrage s = Voter /\ ID s = localID r) servers in
  cp_request e = req /\
  (exists k, r' = with_stable k r /\ disk_term k = disk_term (stable r)) /\
  votes_recorded (stable r') g /\
  forall votes, cp_respCh e = Some votes ->
    cp_asked e = asked ++
      filter (fun s => Suffrage s = Voter /\ ID s <> localID r) servers /\
    votes = ch ++ ((fun _ => self_vote r (rv_Term req)) <$> self) /\
    (self <> [] ->
     votes_recorded (stable r') ({[(rv_Term req, hdr_Addr (rv_Header req))]} ∪ g)).
Proof.
  revert asked ch r g. induction servers as [|s servers IH]; intros asked ch r g HE HT Hg Hr self.
  { injection HE as <- <-. split_and!; [done|by exists (stable r); destruct r|done|].
    simpl. intros votes [= <-]. by rewrite !app_nil_r. }
  simpl in HE. unfold self. rewrite !filter_cons. case_decide as Hv.
  2:{ rewrite !(decide_False (P := _ /\ _)) by tauto. by apply IH. }
  case_decide as Hid.
  2:{ rewrite (decide_False (P := _ /\ _ = _)) by tauto.
      rewrite (decide_True (P := _ /\ _ <> _)) by tauto.
      specialize (IH _ _ _ _ HE HT Hg Hr) as (? & ? & ? & Hs). split_and!; [done..|].
      intros votes Hvs. destruct (Hs _ Hvs) as (-> & Hs'). split; [|done].
      by rewrite <- app_assoc. }
  apply bind_Done in HE as (err & r1 & HP & HE).
  apply persistVote_recorded with (g := g) in HP as ((k & -> & Hk) & Hr1 & Hr1'); [|done..].
  rewrite (decide_True (P := _ /\ _ = _)) by tauto. rewrite (decide_False (P := _ /\ _ <> _)) by tauto.
  destruct err as [err|].
  { injection HE as <- <-. split_and!; [done|eauto|done|done]. }
  set (g' := {[(rv_Term req, hdr_Addr (rv_Header req))]} ∪ g) in *.
  destruct (IH _ _ _ g' HE) as (Hreq & (k2 & -> & Hk2) & Hg2 & Hs).
  { by rewrite HT, <- Hk. }
  { intros c' [Hin%elem_of_singleton|Hin]%elem_of_union; [by simplify_eq|eauto]. }
  { by apply Hr1'. }
  split_and!; [done|exists k2; split; [done|]; rewrite Hk2; exact Hk| |].
  { apply (votes_recorded_mono _ g g'); [apply union_subseteq_r|done]. }
  intros votes Hvs. destruct (Hs _ Hvs) as (Ha & Hvotes & Hrec). split_and!; [done| |by intros _].
  rewrite Hvotes, <- app_assoc. done.
Qed.

Lemma self_voters_hasVote r :
  NoDup (ID <$> Servers (latest_of r)) ->
  if hasVote (latest_of r) (localID r) then exists s, self_voters r = [s]
  else self_voters r = [].
Proof.
  unfold self_voters, hasVote. generalize (localID r). intros id.
  induction (Servers (latest_of r)) as [|s l IH]; intros Hnd; [done|].
  rewrite fmap_cons in Hnd. apply NoDup_cons in Hnd as [Hni Hnd].
  specialize (IH Hnd). cbn [hasVote_loop]. rewrite filter_cons.
  case_decide as Hid; [|rewrite decide_False by tauto; exact IH].
  assert (filter (fun s => Suffrage s = Voter /\ ID s = id) l = []) as Hnil.
  { apply filter_none. intros x Hx [_ He]. apply Hni. rewrite Hid, <- He.
    by apply list_elem_of_fmap_2. }
  rewrite Hnil. case_decide as Hv; case_bool_decide; try tauto. eauto.
Qed.

(** The state after a campaign was started, and what is on its channel. *)
Lemma electSelf_Done r e r' g :
  (currentTerm (raft_state r) + 1 < u64_size)%N -> LocalID (conf r) = localID r ->
  term_cached r -> votes_recorded (stable r) g ->
  electSelf r = Done e r' ->
  let term := (currentTerm (raft_state r) + 1)%N in
  exists k, r' = with_raft_state (raftState_setCurrentTerm term) (with_stable k r) /\
    disk_term k = term /\ votes_recorded k g /\
    rv_Term (cp_request e) = term /\
    candidateBytes (cp_request e) = own_bytes r /\
    (rv_LastLogIndex (cp_request e), rv_LastLogTerm (cp_request e)) =
      getLastEntry (raft_state r) /\
    forall votes, cp_respCh e = Some votes ->
      cp_asked e = other_voters r /\
      votes = (fun _ => self_vote r' term) <$> self_voters r /\
      (self_voters r <> [] -> votes_recorded k ({[(term, own_bytes r)]} ∪ g)).
Proof.
  intros Hlt Hid Hc Hr HE term. unfold electSelf in HE.
  bind_inv HE. injection E as <- <-. cbv zeta in HE. bind_inv HE.
  rewrite u64_add_small in * by done. fold term in HE, E.
  destruct (setCurrentTerm_Done _ _ _ _ E) as (k & Hk & ->).
  pose proof (setCurrentTerm_disk _ _ _ _ E) as Hdisk. simpl in Hdisk.
  bind_inv HE. injection E0 as <- <-. simpl in HE.
  destruct (getLastEntry _) as [li lt] eqn:EL in HE.
  assert (getLastEntry (raft_state r) = (li, lt)) as EL' by exact EL.
  unfold term_cached in Hc.
  apply electSelf_loop_Done with (g := g) in HE
    as (Hreq & (k2 & -> & Hk2) & Hrec & Hs); simpl.
  2:{ by rewrite Hdisk. }
  2:{ intros c' Hin. destruct Hr as [I1 I2 _ _]. specialize (I2 _ _ Hin). simpl in I2. lia. }
  2:{ eapply votes_recorded_term; [exact Hk|lia|done]. }
  simpl in Hk2. exists k2. split_and!; [done|congruence|done|by rewrite Hreq| | |done].
  - rewrite Hreq. unfold candidateBytes, own_bytes. simpl. case_decide; [done|].
    by rewrite Hid.
  - by rewrite Hreq, EL'.
Qed.

(** A campaign moves the server to the next term, with the cached and the
    persisted term in step, and asks for the votes with the position of the last
    entry of its log.  When its response channel is live, exactly the other voters
    of the latest configuration are asked, in order, and the channel starts with
    one vote for itself exactly if it is a voter, in which case that vote is
    recorded on disk as one of the granted votes.  When recording it fails, the
    channel is nil and no vote is counted. *)
Theorem electSelf_spec r e r' g :
  (currentTerm (raft_state r) + 1 < u64_size)%N ->
  valid_configuration (latest_of r) -> LocalID (conf r) = localID r ->
  term_cached r -> votes_recorded (stable r) g ->
  electSelf r = Done e r' ->
  let term := (currentTerm (raft_state r) + 1)%N in
  currentTerm (raft_state r') = term /\ term_cached r' /\
  rv_Term (cp_request e) = term /\
  candidateBytes (cp_request e) = own_bytes r' /\
  (rv_LastLogIndex (cp_request e), rv_LastLogTerm (cp_request e)) =
    getLastEntry (raft_state r) /\
  votes_recorded (stable r') g /\
  match cp_respCh e with
  | None => True
  | Some votes =>
      cp_asked e = other_voters r /\
      votes = (if hasVote (latest_of r) (localID r) then [self_vote r' term] else []) /\
      (hasVote (latest_of r) (localID r) = true ->
       votes_recorded (stable r') ({[(term, own_bytes r')]} ∪ g))
  end.
Proof.
  intros Hlt Hvalid Hid Hc Hr HE term.
  destruct (electSelf_Done _ _ _ _ Hlt Hid Hc Hr HE)
    as (k & -> & Hk & Hrec & Ht & Hb & Hl & Hs). fold term in Hk, Ht, Hs.
  split_and!; [done|done|done|done|done|done|].
  destruct (cp_respCh e) as [votes|]; [|done].
  destruct (Hs votes eq_refl) as (Ha & -> & Hg). split; [done|].
  pose proof (self_voters_hasVote r (valid_unique_ids _ Hvalid)) as Hsv.
  destruct (hasVote (latest_of r) (localID r)).
  - destruct Hsv as [s Hs']. rewrite Hs' in *. split; [done|]. intros _. by apply Hg.
  - by rewrite Hsv.
Qed.

(** The heartbeat timeout starts an election exactly when the leader has
    been silent for the whole timeout, a configuration is known and the server is
    a voter of the latest one; otherwise the role stays as it was.  The known
    leader is forgotten exactly when the timeout really elapsed. *)
Theorem follower_heartbeatTimeout_exact now r :
  exists b r', follower_heartbeatTimeout now r = Done b r' /\
  let expired := (HeartbeatTimeout (conf r) <= now - lastContact r)%Z in
  (b = true <-> expired /\ latestIndex (raft_configurations r) <> 0%N /\
                hasVote (latest_of r) (localID r) = true) /\
  state (raft_state r') = (if b then Candidate else state (raft_state r)) /\
  (expired -> leaderAddr r' = "" /\ leaderID r' = "") /\
  (~ expired -> r' = r) /\
  currentTerm (raft_state r') = currentTerm (raft_state r) /\ stable r' = stable r.
Proof.
  unfold follower_heartbeatTimeout, bind, get_state, latest_of.
  case_decide as Ht; [do 2 eexists; split; [reflexivity|]; simpl; intuition lia|].
  rewrite setLeader_eq. unfold returns.
  case_decide as Hi; [do 2 eexists; split; [reflexivity|]; simpl; intuition lia|].
  case_decide as Hc.
  { do 2 eexists; split; [reflexivity|]; simpl. intuition (congruence || lia). }
  destruct (hasVote _ _).
  - rewrite setState_eq. do 2 eexists; split; [reflexivity|]; simpl. intuition lia.
  - do 2 eexists; split; [reflexivity|]; simpl. intuition (congruence || lia).
Qed.
End Votes.

(** ** A concrete server *)

#[local] Existing Instance bitsMsgPack.
#[local] Existing Instance inmemPeerCodec.

(** A stable store on which the write of byte values fails while [broken]. *)
Record FaultyStore := mkFaultyStore { broken : bool; disk : InmemStore }.

#[export] Instance FaultyStore_StableStore : StableStore FaultyStore := {|
  Set_ f k v :=
    if broken f then (f, Some (Errorf "input/output error"))
    else (mkFaultyStore (broken f) (Set_ (disk f) k v).1, (Set_ (disk f) k v).2);
  Get f k := Get (disk f) k;
  SetUint64 f k v :=
    (mkFaultyStore (broken f) (SetUint64 (disk f) k v).1, (SetUint64 (disk f) k v).2);
  GetUint64 f k := GetUint64 (disk f) k
|}.

#[export] Instance FaultyStore_StableStoreLaws : StableStoreLaws FaultyStore.
Proof.
  split.
  - intros [[] d] k v s' HS k'; [done|]. injection HS as <-.
    exact (Get_Set d k v _ eq_refl k').
  - intros [[] d] k v s' e HS; [|done]. injection HS as <- <-. by left.
  - intros [[] d] k v k'; [done|]. exact (GetUint64_Set d k v k').
  - intros [b d] k v s' HS k'. injection HS as <-.
    exact (GetUint64_SetUint64 d k v _ eq_refl k').
  - done.
  - intros [b d] k v k'. exact (Get_SetUint64 d k v k').
Qed.

(** Three voters [a], [b] and [c]; the server is [a] in term 3, whose vote in that
    term went to [c] and whose log ends at index 7 of term 3. *)
Definition trio : Configuration := mkConfiguration
  [mkServer Voter "a" "addr-a"; mkServer Voter "b" "addr-b"; mkServer Voter "c" "addr-c"].

Definition config_a : Config :=
  mkConfig 3 (1000 * Millisecond) (1000 * Millisecond) (50 * Millisecond) 64 false true
    10240 (120 * Second) 8192 (500 * Millisecond) "a" "DEBUG" false false false false.

Definition disk_a : InmemStore :=
  mkInmemStore 0 0 ∅ {[keyLastVoteCand := "addr-c"]}
    {[keyCurrentTerm := 3%N; keyLastVoteTerm := 3%N]}.

Definition server_a {K} (k : K) : Raft InmemStore K unit :=
  mkRaft (mkRaftState 3 5 5 0 0 7 3 Follower) 3 config_a "a" "addr-a" 0 "" "" false false
    NewInmemStore k tt (mkConfigurations trio 1 trio 1) (Some trio) [] ∅ [] false.

Definition vote_request (id addr : string) (term lastIndex lastTerm : N) : RequestVoteRequest :=
  mkRequestVoteRequest (mkHeader 3 id addr) term addr lastIndex lastTerm false.

Definition granted {St E} (o : outcome St (RequestVoteResponse * E)) : option bool :=
  match o with Done (resp, _) _ => Some (rvr_Granted resp) | Panicked _ => None end.

Definition after {St A} (s : St) (o : outcome St A) : St :=
  match o with Done _ s => s | Panicked s => s end.

Lemma disk_a_recorded : votes_recorded disk_a {[(3%N, "addr-c")]}.
Proof.
  split; [vm_compute; congruence|..].
  - intros t c Hin%elem_of_singleton. simplify_eq. vm_compute. congruence.
  - intros t c Hin%elem_of_singleton. by simplify_eq.
  - intros t c c' Hin%elem_of_singleton Hin'%elem_of_singleton. congruence.
Qed.


Lemma electSelf_spec_witness :
  exists e r', electSelf (server_a disk_a) = Done e r' /\
    cp_asked e = other_voters (server_a disk_a) /\
    votes_recorded (stable r') ({[(4%N, "addr-a")]} ∪ {[(3%N, "addr-c")]}).
Proof.
  assert (valid_configuration trio) as Hv by (apply checkConfiguration_valid; reflexivity).
  pose proof (electSelf_spec (server_a disk_a)) as HS.
  destruct (electSelf (server_a disk_a)) as [e r'|] eqn:HE; [|vm_compute in HE; congruence].
  destruct (HS e r' {[(3%N, "addr-c")]}) as (_ & _ & _ & _ & _ & _ & HR);
    [reflexivity|exact Hv|reflexivity|reflexivity|apply disk_a_recorded|reflexivity|].
  exists e, r'. vm_compute in HE. injection HE as <- <-.
  destruct HR as (Ha & _ & HR). split_and!; [reflexivity|exact Ha|by apply HR].
Defined.

