(* ===== verification/AppendEntries.v ===== *)
(** * Log replication on a follower and the application of committed entries

    [appendEntries], [processConfigurationLogEntry], [processLogs] and
    [prepareLog] of [raft.go].  The main results: a successful call leaves the log
    agreeing with the request, never removes an entry that agrees with it, and
    hands the state machine each committed entry exactly once and in order. *)
From S2P Require Import Prelude Types Util Codec Configuration Config Stores State Elections.

(** ** Definitions *)

(** What the loop over the received entries found: the call returns on a failed
    read; otherwise the entries from the first new or conflicting one on are to be
    stored, after deleting from the conflicting index if there is one. *)
Inductive entriesScan :=
  | scan_failed
  | scan_append (newEntries : list Log)
  | scan_conflict (from : N) (newEntries : list Log).

Section AppendEntries.
Context {L K SN : Type} `{LogStore L} `{StableStore K} `{MsgPack} `{PeerCodec}.
Abbreviation raft := (Raft L K SN).

(** [None] as the outer option is the panic on an unknown type. *)
Definition prepareLog (r : raft) (l : Log) (future : option logFuture)
    : option (option commitTuple) :=
  match log_Type l with
  | LogBarrier | LogCommand => Some (Some (mkCommitTuple l future))
  | LogConfiguration =>
      if decide (2 < protocolVersion r)%Z then Some (Some (mkCommitTuple l future))
      else Some None
  | LogAddPeerDeprecated | LogRemovePeerDeprecated | LogNoop => Some None
  | LogTypeOther _ => None
  end.

Fixpoint respond_all (fs : list (option nat)) (err : option error) : M raft unit :=
  match fs with
  | [] => returns tt
  | f :: fs => (respond f err;; respond_all fs err)%go
  end.

Definition tuple_future (ct : commitTuple) : option nat := ct_future ct ≫= lf_id.

(** The closure [applyBatch] of [processLogs].  Once [shutdownCh] is closed the
    batch is answered with [ErrRaftShutdown]. *)
Definition applyBatch (batch : list commitTuple) : M raft unit := fun r =>
  if shutdown r then respond_all (tuple_future <$> batch) (Some ErrRaftShutdown) r
  else Done tt (with_fsmMutateCh (fsmMutateCh r ++ [fsmBatch batch]) r).

(** The loop [for idx := lastApplied + 1; idx <= index; idx++]; [fuel] is the
    number of iterations left and [batch] the batch being filled.  The answer is
    the batch after the loop. *)
Fixpoint processLogs_loop (fuel : nat) (maxAppendEntries : Z) (idx : N)
    (futures : gmap N logFuture) (batch : list commitTuple) : M raft (list commitTuple) :=
  match fuel with
  | O => returns batch
  | S fuel' => fun r =>
      let next := processLogs_loop fuel' maxAppendEntries (u64_add idx 1) futures in
      let prepared :=
        match futures !! idx with
        | Some future => prepareLog r (lf_log future) (Some future)
        | None => match GetLog (logs r) idx with
                  | Ok l => prepareLog r l None
                  | Err _ => None
                  end
        end in
      match prepared with
      | None => Panicked r
      | Some (Some preparedLog) =>
          let batch' := batch ++ [preparedLog] in
          if decide (maxAppendEntries <= Z.of_nat (length batch'))%Z
          then (applyBatch batch';; next [])%go r
          else next batch' r
      | Some None =>
          match futures !! idx with
          | Some future => (respond (lf_id future) None;; next batch)%go r
          | None => next batch r
          end
      end
  end.

Definition processLogs (index : N) (futures : gmap N logFuture) : M raft unit := (
  r <- get_state;;
  let lastApplied := lastApplied (raft_state r) in
  if decide (index <= lastApplied)%N then returns tt
  else
    batch <- processLogs_loop (N.to_nat (index - lastApplied))
               (MaxAppendEntries (conf r)) (u64_add lastApplied 1) futures [];;
    (if decide (batch <> []) then applyBatch batch else returns tt);;
    setLastApplied index)%go.

(** [DecodeConfiguration] panics on undecodable data. *)
Definition processConfigurationLogEntry (entry : Log) : M raft (option error) := (
  r <- get_state;;
  let cs := raft_configurations r in
  match log_Type entry with
  | LogConfiguration =>
      setCommittedConfiguration (latest cs) (latestIndex cs);;
      match DecodeConfiguration (log_Data entry) with
      | Ok c => setLatestConfiguration c (log_Index entry);; returns None
      | Err _ => panic
      end
  | LogAddPeerDeprecated | LogRemovePeerDeprecated =>
      setCommittedConfiguration (latest cs) (latestIndex cs);;
      match decodePeers (log_Data entry) with
      | Ok c => setLatestConfiguration c (log_Index entry);; returns None
      | Err err => returns (Some err)
      end
  | _ => returns None
  end)%go.

Fixpoint processConfigurationLogEntries (entries : list Log) : M raft (option error) :=
  match entries with
  | [] => returns None
  | entry :: rest => (
      err <- processConfigurationLogEntry entry;;
      match err with
      | Some err => returns (Some err)
      | None => processConfigurationLogEntries rest
      end)%go
  end.

(** "Verify the last log entry". *)
Definition previous_entry_ok (r : raft) (a : AppendEntriesRequest) : bool :=
  if decide (0 < ae_PrevLogEntry a)%N then
    let '(lastIdx, lastTerm) := getLastEntry (raft_state r) in
    if decide (ae_PrevLogEntry a = lastIdx) then bool_decide (ae_PrevLogTerm a = lastTerm)
    else match GetLog (logs r) (ae_PrevLogEntry a) with
         | Err _ => false
         | Ok prevLog => bool_decide (ae_PrevLogTerm a = log_Term prevLog)
         end
  else true.

(** "Delete any conflicting entries, skip any duplicates": the reads of the loop. *)
Fixpoint scan_entries (store : L) (lastLogIdx : N) (entries : list Log) : entriesScan :=
  match entries with
  | [] => scan_append []
  | entry :: rest =>
      if decide (lastLogIdx < log_Index entry)%N then scan_append entries
      else match GetLog store (log_Index entry) with
           | Err _ => scan_failed
           | Ok storeEntry =>
               if decide (log_Term entry <> log_Term storeEntry)
               then scan_conflict (log_Index entry) entries
               else scan_entries store lastLogIdx rest
           end
  end.

(** How the handling of the entries ended: the rest of [appendEntries] runs, or
    the call returns with an error. *)
Inductive entriesResult :=
  | entries_ok
  | entries_return (rpcErr : option error).

Definition truncate_suffix (from lastLogIdx : N) : M raft bool := fun r =>
  match DeleteRange (logs r) from lastLogIdx with
  | (l, Some _) => Done false (with_logs l r)
  | (l, None) =>
      let cs := raft_configurations r in
      if decide (from <= latestIndex cs)%N
      then (setLatestConfiguration (committed cs) (committedIndex cs);; returns true)%go
             (with_logs l r)
      else Done true (with_logs l r)
  end.

Definition append_newEntries (newEntries : list Log) : M raft entriesResult := fun r =>
  match last newEntries with
  | None => Done entries_ok r
  | Some last =>
      match StoreLogs (logs r) newEntries with
      | (l, Some _) => Done (entries_return None) (with_logs l r)
      | (l, None) =>
          (err <- processConfigurationLogEntries newEntries;;
           match err with
           | Some err => returns (entries_return (Some err))
           | None => setLastLog (log_Index last) (log_Term last);; returns entries_ok
           end)%go (with_logs l r)
      end
  end.

(** "Process any new entries". *)
Definition process_entries (entries : list Log) : M raft entriesResult := (
  r <- get_state;;
  let '(lastLogIdx, _) := getLastLog (raft_state r) in
  match scan_entries (logs r) lastLogIdx entries with
  | scan_failed => returns (entries_return None)
  | scan_append newEntries => append_newEntries newEntries
  | scan_conflict from newEntries =>
      deleted <- truncate_suffix from lastLogIdx;;
      if deleted then append_newEntries newEntries
      else returns (entries_return None)
  end)%go.

(** "Update the commit index". *)
Definition advance_commit (leaderCommit : N) : M raft unit := (
  r <- get_state;;
  if decide (0 < leaderCommit /\ commitIndex (raft_state r) < leaderCommit)%N then
    let idx := min leaderCommit (getLastIndex (raft_state r)) in
    setCommitIndex idx;;
    let cs := raft_configurations r in
    (if decide (latestIndex cs <= idx)%N
     then setCommittedConfiguration (latest cs) (latestIndex cs)
     else returns tt);;
    processLogs idx ∅
  else returns tt)%go.

Definition appendEntries (now : Z) (a : AppendEntriesRequest)
    : M raft (AppendEntriesResponse * option error) := (
  r <- get_state;;
  let cur := currentTerm (raft_state r) in
  let lastLog := getLastIndex (raft_state r) in
  let reply term success noRetryBackoff rpcErr :=
    returns (mkAppendEntriesResponse (getRPCHeader r) term lastLog success noRetryBackoff,
             rpcErr) in
  if decide (ae_Term a < cur)%N then reply cur false false None
  else
    term <- (if decide ((cur < ae_Term a)%N \/
                        (state (raft_state r) <> Follower /\
                         candidateFromLeadershipTransfer r = false)) then
               setState Follower;; setCurrentTerm (ae_Term a);; returns (ae_Term a)
             else returns cur);;
    (if decide (hdr_Addr (ae_Header a) <> "")
     then setLeader (DecodePeer (hdr_Addr (ae_Header a))) (hdr_ID (ae_Header a))
     else setLeader (DecodePeer (ae_Leader a)) (hdr_ID (ae_Header a)));;
    r <- get_state;;
    if negb (previous_entry_ok r a) then reply term false true None
    else
      res <- (if decide (ae_Entries a <> []) then process_entries (ae_Entries a)
              else returns entries_ok);;
      match res with
      | entries_return rpcErr => reply term false false rpcErr
      | entries_ok =>
          advance_commit (ae_LeaderCommitIndex a);;
          setLastContact now;;
          reply term true false None
      end)%go.
End AppendEntries.

(** ** Application of committed entries *)

Section Apply.
Context {L K SN : Type} `{LogStore L} `{StableStore K} `{MsgPack} `{PeerCodec}.
Abbreviation raft := (Raft L K SN).
Implicit Types r : raft.
Implicit Types fs : gmap N logFuture.

(** What [processLogs] does with the entry at one index: [None] is the panic. *)
Definition prepared_at r fs (idx : N) : option (option commitTuple) :=
  match fs !! idx with
  | Some future => prepareLog r (lf_log future) (Some future)
  | None => match GetLog (logs r) idx with
            | Ok l => prepareLog r l None
            | Err _ => None
            end
  end.

Definition tuples_at r fs (idx : N) : list commitTuple :=
  match prepared_at r fs idx with Some (Some ct) => [ct] | _ => [] end.

(** The answers to the futures of entries that the state machine does not see. *)
Definition answer (m : gmap nat (option error)) (f : option nat) (err : option error)
    : gmap nat (option error) :=
  match f with
  | None => m
  | Some i => match m !! i with Some _ => m | None => <[i := err]> m end
  end.

Definition answer_at r fs (m : gmap nat (option error)) (idx : N)
    : gmap nat (option error) :=
  match prepared_at r fs idx, fs !! idx with
  | Some None, Some future => answer m (lf_id future) None
  | _, _ => m
  end.

Lemma respond_eq f err r : respond f err r = Done tt (with_futures (answer (futures r) f err) r).
Proof.
  unfold respond, modify, answer. f_equal. destruct f as [i|]; [|by destruct r].
  destruct (futures r !! i); by destruct r.
Qed.

Definition batches_ok (max : Z) (batches : list (list commitTuple)) : Prop :=
  Forall (fun b => (0 < Z.of_nat (length b) <= max)%Z) batches.

(** The server after some batches were sent and some futures answered. *)
Definition handed_over r (batches : list (list commitTuple)) (m : gmap nat (option error)) :=
  with_futures m (with_fsmMutateCh (fsmMutateCh r ++ (fsmBatch <$> batches)) r).

Lemma handed_over_app r b1 m1 b2 m2 :
  handed_over (handed_over r b1 m1) b2 m2 = handed_over r (b1 ++ b2) m2.
Proof. unfold handed_over; simpl. rewrite fmap_app, <- app_assoc. reflexivity. Qed.

Lemma prepared_at_handed_over r batches m fs :
  prepared_at (handed_over r batches m) fs = prepared_at r fs.
Proof. reflexivity. Qed.

Lemma processLogs_loop_Done fuel max idx fs batch r :
  shutdown r = false -> (Z.of_nat (length batch) < max)%Z ->
  (idx + N.of_nat fuel < u64_size)%N ->
  (forall i, i ∈ range idx fuel -> prepared_at r fs i <> None) ->
  exists batches rest,
    processLogs_loop fuel max idx fs batch r =
      Done rest (handed_over r batches
                   (foldl (answer_at r fs) (futures r) (range idx fuel))) /\
    concat batches ++ rest = batch ++ concat (tuples_at r fs <$> range idx fuel) /\
    batches_ok max batches /\ (Z.of_nat (length rest) < max)%Z.
Proof.
  revert idx batch r. induction fuel as [|fuel IH]; intros idx batch r Hsh Hb Hlt Hp.
  { exists [], batch. split_and!; [|by rewrite app_nil_r|constructor|done].
    unfold handed_over; simpl. rewrite app_nil_r. by destruct r. }
  assert (prepared_at r fs idx <> None) as Hi by (apply Hp; simpl; left).
  cbn [processLogs_loop range]. fold (prepared_at r fs idx).
  rewrite u64_add_small by lia. cbn [foldl]. rewrite fmap_cons. cbn [concat].
  assert (forall i, i ∈ range (idx + 1) fuel -> prepared_at r fs i <> None) as Hp'
    by (intros; apply Hp; by right).
  unfold answer_at at 2. unfold tuples_at at 1.
  destruct (prepared_at r fs idx) as [[ct|]|] eqn:Ep; [| |done].
  - case_decide as Hfull.
    + unfold bind, applyBatch. rewrite Hsh.
      edestruct (IH (idx + 1)%N [] (with_fsmMutateCh (fsmMutateCh r ++ [fsmBatch (batch ++ [ct])]) r))
        as (bs & rest & -> & Hc & Hok & Hr); [done|simpl; lia|lia|exact Hp'|].
      exists ((batch ++ [ct]) :: bs), rest. split_and!; [..|done].
      * unfold handed_over; simpl. rewrite <- app_assoc. by destruct (fs !! idx).
      * cbn [concat]. rewrite <- app_assoc, Hc. simpl. by rewrite <- app_assoc.
      * constructor; [|done]. rewrite length_app in *; simpl in *. lia.
    + edestruct (IH (idx + 1)%N (batch ++ [ct]) r) as (bs & rest & -> & Hc & Hok & Hr);
        [done|lia|lia|exact Hp'|].
      exists bs, rest. split_and!; [by destruct (fs !! idx)| |done..].
      by rewrite Hc, <- app_assoc.
  - destruct (fs !! idx) as [f|] eqn:Ef.
    + unfold bind. rewrite respond_eq.
      edestruct (IH (idx + 1)%N batch (with_futures (answer (futures r) (lf_id f) None) r))
        as (bs & rest & -> & Hc & Hok & Hr); [done..|lia|exact Hp'|].
      exists bs, rest. by split_and!.
    + edestruct (IH (idx + 1)%N batch r) as (bs & rest & -> & Hc & Hok & Hr);
        [done..|lia|exact Hp'|]. exists bs, rest. by split_and!.
Qed.

Definition to_apply r (index : N) : list N :=
  range (lastApplied (raft_state r) + 1) (N.to_nat (index - lastApplied (raft_state r))).

Definition applied r (index : N) batches m : raft :=
  with_raft_state
    (raftState_setLastApplied (N.max index (lastApplied (raft_state r))))
    (handed_over r batches m).

Lemma processLogs_applied index fs r :
  shutdown r = false -> (0 < MaxAppendEntries (conf r))%Z -> (index + 1 < u64_size)%N ->
  (forall i, i ∈ to_apply r index -> prepared_at r fs i <> None) ->
  exists batches,
    processLogs index fs r =
      Done tt (applied r index batches
                 (foldl (answer_at r fs) (futures r) (to_apply r index))) /\
    concat batches = concat (tuples_at r fs <$> to_apply r index) /\
    batches_ok (MaxAppendEntries (conf r)) batches.
Proof.
  intros Hsh Hmax Hlt Hp. unfold to_apply in *. unfold processLogs, bind at 1, get_state.
  case_decide as Hold.
  { replace (N.to_nat (index - _)) with O by lia. exists []. split_and!; [|done|constructor].
    unfold applied, handed_over, raftState_setLastApplied; simpl.
    rewrite N.max_r by done. rewrite app_nil_r. destruct r as [[]]; done. }
  rewrite u64_add_small by lia.
  destruct (processLogs_loop_Done (N.to_nat (index - lastApplied (raft_state r)))
    (MaxAppendEntries (conf r)) (lastApplied (raft_state r) + 1) fs [] r)
    as (bs & rest & HE & Hc & Hok & Hlen); [done|done|lia|done|].
  unfold bind at 1. rewrite HE. unfold bind, applied, handed_over, setLastApplied, modify.
  rewrite N.max_l by lia. simpl in Hc. case_decide as Hrest.
  - exists (bs ++ [rest]). split_and!.
    + unfold applyBatch; simpl. rewrite Hsh, fmap_app, app_assoc. reflexivity.
    + by rewrite concat_app; simpl; rewrite app_nil_r.
    + apply Forall_app. split; [done|]. constructor; [|constructor].
      destruct rest; [done|]. simpl in *; lia.
  - destruct rest as [|ct rest]; [|discriminate Hrest].
    exists bs. rewrite app_nil_r in Hc. by split_and!.
Qed.

(** Applying up to a committed index hands the state machine exactly the
    entries after the last applied one up to that index that it must see, each
    once, in index order, in non-empty batches of at most [MaxAppendEntries];
    answers the futures of the other entries, and records the index as applied.
    Asking for an index already applied changes nothing. *)
Theorem processLogs_exact index fs r :
  shutdown r = false -> (0 < MaxAppendEntries (conf r))%Z -> (index + 1 < u64_size)%N ->
  (forall i, i ∈ to_apply r index -> prepared_at r fs i <> None) ->
  exists batches,
    processLogs index fs r =
      Done tt (applied r index batches
                 (foldl (answer_at r fs) (futures r) (to_apply r index))) /\
    concat batches = concat (tuples_at r fs <$> to_apply r index) /\
    Forall (fun b => (0 < Z.of_nat (length b) <= MaxAppendEntries (conf r))%Z) batches /\
    ((index <= lastApplied (raft_state r))%N -> processLogs index fs r = Done tt r).
Proof.
  intros Hsh Hmax Hlt Hp.
  destruct (processLogs_applied index fs r) as (bs & HE & Hc & Hok); [done..|].
  exists bs. split_and!; [done..|]. intros Hle.
  unfold processLogs, bind, get_state. by rewrite decide_True.
Qed.
End Apply.

(** ** Frames of the parts of [appendEntries] *)

Section AppendFrames.
Context {L K SN : Type} `{LogStore L} `{StableStore K} `{MsgPack} `{PeerCodec}.
Abbreviation raft := (Raft L K SN).
Implicit Types r : raft.

(** Everything but what applying entries changes. *)
Definition unapplied r : raft :=
  with_raft_state (raftState_setLastApplied 0) (with_fsmMutateCh [] (with_futures ∅ r)).

(** Everything but the configurations. *)
Definition unconfigured r : raft :=
  with_latestConfiguration None
    (with_configurations
       (mkConfigurations (mkConfiguration []) 0 (mkConfiguration []) 0) r).

Lemma respond_keeps f err : keeps unapplied (@respond L K SN f err).
Proof. intros r. rewrite respond_eq. reflexivity. Qed.

Lemma respond_all_keeps fs err : keeps unapplied (@respond_all L K SN fs err).
Proof.
  unfold keeps. induction fs as [|f fs IH]; simpl; frame; [apply respond_keeps|exact IH].
Qed.

Lemma applyBatch_keeps b : keeps unapplied (@applyBatch L K SN b).
Proof.
  intros r. unfold applyBatch. destruct (shutdown r); [|reflexivity]. apply (respond_all_keeps _ _ r).
Qed.

Lemma processLogs_loop_keeps fuel max idx fs batch :
  keeps unapplied (@processLogs_loop L K SN _ fuel max idx fs batch).
Proof.
  revert idx batch. induction fuel as [|fuel IH]; intros idx batch r; [done|].
  cbn [processLogs_loop]. fold (prepared_at r fs idx).
  destruct (prepared_at r fs idx) as [[ct|]|]; [case_decide|destruct (fs !! idx)|done].
  - revert r. apply frames_bind; [apply _|apply applyBatch_keeps|intros; apply IH].
  - apply IH.
  - revert r. apply frames_bind; [apply _|apply respond_keeps|intros; apply IH].
  - apply IH.
Qed.

Lemma processLogs_keeps index fs : keeps unapplied (@processLogs L K SN _ index fs).
Proof.
  unfold keeps, processLogs.
  apply frames_bind; [apply _|apply frames_get; apply _|intros r]. cbv zeta.
  case_decide; [apply frames_returns; apply _|].
  apply frames_bind; [apply _|apply processLogs_loop_keeps|intros b].
  apply frames_bind; [apply _| |intros _ r'; reflexivity].
  case_decide; [apply applyBatch_keeps|apply frames_returns; apply _].
Qed.

Lemma processConfigurationLogEntries_keeps entries :
  keeps unconfigured (@processConfigurationLogEntries L K SN _ _ entries).
Proof.
  unfold keeps. induction entries as [|e entries IH]; simpl; [frame|].
  apply frames_bind; [apply _| |intros [err|]; [frame|exact IH]].
  unfold processConfigurationLogEntry. intros r. unfold bind, get_state.
  destruct (log_Type e); try reflexivity; simpl.
  - by destruct (decodePeers (log_Data e)).
  - by destruct (decodePeers (log_Data e)).
  - by destruct (DecodeConfiguration (log_Data e)).
Qed.

(** What [advance_commit] leaves alone. *)
Definition uncommitted r : raft :=
  unconfigured (unapplied (with_raft_state (raftState_setCommitIndex 0) r)).

Lemma advance_commit_keeps c : keeps uncommitted (@advance_commit L K SN _ c).
Proof.
  unfold keeps, advance_commit.
  apply frames_bind; [apply _|apply frames_get; apply _|intros r]. cbv zeta.
  case_decide; [|apply frames_returns; apply _].
  apply frames_bind; [apply _|intros r'; reflexivity|intros _].
  apply frames_bind; [apply _| |intros _].
  - case_decide; [intros r'; reflexivity|apply frames_returns; apply _].
  - intros r'. pose proof (processLogs_keeps (min c (getLastIndex (raft_state r))) ∅ r') as HK.
    destruct (processLogs _ _ r');
      exact (f_equal (fun x => unconfigured (with_raft_state (raftState_setCommitIndex 0) x)) HK).
Qed.
End AppendFrames.

(** ** The log after [appendEntries] *)

Lemma written_None ls i : written ls i = None <-> i ∉ (log_Index <$> ls).
Proof.
  unfold written. rewrite last_None. split.
  - intros Hf (l & -> & Hl)%list_elem_of_fmap.
    assert (l ∈ filter (fun l' => log_Index l' = log_Index l) ls) as Hin
      by (by apply list_elem_of_filter).
    rewrite Hf in Hin. by apply elem_of_nil in Hin.
  - intros Hni. apply filter_none. intros l Hl <-. apply Hni. by apply list_elem_of_fmap_2.
Qed.

Lemma written_unique ls l :
  NoDup (log_Index <$> ls) -> l ∈ ls -> written ls (log_Index l) = Some l.
Proof.
  unfold written. induction ls as [|x ls IH]; intros Hnd Hl; [by apply elem_of_nil in Hl|].
  rewrite fmap_cons in Hnd. apply NoDup_cons in Hnd as [Hni Hnd].
  rewrite filter_cons. apply elem_of_cons in Hl as [->|Hl].
  - rewrite decide_True by done.
    rewrite filter_none; [done|]. intros y Hy He. apply Hni. rewrite <- He.
    by apply list_elem_of_fmap_2.
  - rewrite decide_False; [by apply IH|]. intros He. apply Hni. rewrite He.
    by apply list_elem_of_fmap_2.
Qed.

Section LogAgreement.
Context {L K SN : Type} `{LogStore L} `{!LogStoreLaws L} `{StableStore K} `{MsgPack}
  `{PeerCodec}.
Abbreviation raft := (Raft L K SN).
Implicit Types r : raft.

(** The cached position of the last entry bounds the store and has its term. *)
Record log_cached r : Prop := {
  cached_store : store_ok (logs r);
  cached_bound i l : GetLog (logs r) i = Ok l -> (i <= lastLogIndex (raft_state r))%N;
  cached_term l : GetLog (logs r) (lastLogIndex (raft_state r)) = Ok l ->
                  log_Term l = lastLogTerm (raft_state r)
}.

(** The indexes of a request's entries follow one another. *)
Definition consecutive_from (i : N) (entries : list Log) : Prop :=
  log_Index <$> entries = range i (length entries).

Lemma consecutive_app i l1 l2 :
  consecutive_from i (l1 ++ l2) -> consecutive_from (i + N.of_nat (length l1)) l2.
Proof.
  unfold consecutive_from. revert i. induction l1 as [|x l1 IH]; intros i; simpl.
  - by rewrite N.add_0_r.
  - intros [= _ Hl]. rewrite (IH _ Hl). f_equal. lia.
Qed.

Lemma consecutive_app_l i l1 l2 :
  consecutive_from i (l1 ++ l2) -> consecutive_from i l1.
Proof.
  unfold consecutive_from. revert i. induction l1 as [|x l1 IH]; intros i; [done|].
  simpl. intros [= -> Hl]. f_equal. by apply IH.
Qed.

Lemma consecutive_NoDup i ls : consecutive_from i ls -> NoDup (log_Index <$> ls).
Proof.
  unfold consecutive_from. intros ->. generalize (length ls). intros n. revert i.
  induction n as [|n IH]; intros i; simpl; constructor; [|done].
  rewrite elem_of_range. lia.
Qed.

Lemma consecutive_index i ls l :
  consecutive_from i ls -> l ∈ ls ->
  (i <= log_Index l < i + N.of_nat (length ls))%N.
Proof.
  intros Hc Hl. rewrite <- elem_of_range. unfold consecutive_from in Hc. rewrite <- Hc.
  by apply list_elem_of_fmap_2.
Qed.

Lemma consecutive_last i ls l :
  consecutive_from i ls -> last ls = Some l -> log_Index l = (i + N.of_nat (length ls) - 1)%N.
Proof.
  intros Hc [ls' ->]%last_Some. apply consecutive_app in Hc.
  injection Hc as ->. rewrite length_app. simpl. lia.
Qed.

(** An entry of a request that the store already has. *)
Definition agrees (store : L) (e : Log) : Prop :=
  exists l, GetLog store (log_Index e) = Ok l /\ log_Term l = log_Term e.

Definition conflicts (store : L) (e : Log) : Prop :=
  exists l, GetLog store (log_Index e) = Ok l /\ log_Term l <> log_Term e.

Lemma scan_entries_spec store last entries :
  match scan_entries store last entries with
  | scan_failed => True
  | scan_append new =>
      exists old, entries = old ++ new /\ Forall (agrees store) old /\
        (new = [] \/ exists e new', new = e :: new' /\ (last < log_Index e)%N)
  | scan_conflict from new =>
      exists old e new', entries = old ++ new /\ Forall (agrees store) old /\
        new = e :: new' /\ from = log_Index e /\ (from <= last)%N /\ conflicts store e
  end.
Proof.
  induction entries as [|e entries IH]; simpl; [exists []; auto|].
  case_decide as Hlast; [exists []; split_and!; eauto|].
  destruct (GetLog store (log_Index e)) as [st|] eqn:Hg; [|done].
  case_decide as Ht.
  - exists [], e, entries. split_and!; [done|done|done|done|lia|]. exists st. split; congruence.
  - destruct (scan_entries store last entries) as [|new|from new]; [done|..].
    + destruct IH as (old & -> & Hold & Hn). exists (e :: old). split_and!; [done| |done].
      constructor; [|done]. exists st. split; [done|]. apply dec_stable. naive_solver.
    + destruct IH as (old & e' & new' & -> & Hold & Hn). exists (e :: old), e', new'.
      split_and!; [done| |naive_solver..].
      constructor; [|done]. exists st. split; [done|]. apply dec_stable. naive_solver.
Qed.

(** Reads of the store after [new] was written over it. *)
Definition overwritten (s s' : L) (new : list Log) : Prop :=
  forall i, GetLog s' i = match written new i with Some l => Ok l | None => GetLog s i end.

Lemma overwritten_inv s s' new i l :
  overwritten s s' new -> GetLog s' i = Ok l ->
  l ∈ new /\ log_Index l = i \/ GetLog s i = Ok l.
Proof.
  intros Ho Hg. rewrite Ho in Hg. destruct (written new i) as [x|] eqn:Hw; [|by right].
  injection Hg as ->. left. split; [|by eapply written_Index].
  unfold written in Hw. apply last_Some_elem_of in Hw.
  by apply list_elem_of_filter in Hw as [_ ?].
Qed.

Inductive appended (new : list Log) r : entriesResult -> raft -> Prop :=
  | appended_nothing : new = [] -> appended new r entries_ok r
  | appended_stored x r' :
      last new = Some x -> overwritten (logs r) (logs r') new -> store_ok (logs r') ->
      getLastLog (raft_state r') = (log_Index x, log_Term x) ->
      unconfigured r' = unconfigured
        (with_raft_state (raftState_setLastLog (log_Index x) (log_Term x))
           (with_logs (logs r') r)) ->
      appended new r entries_ok r'
  | appended_failed l :
      store_ok l -> (forall i, GetLog l i = GetLog (logs r) i) ->
      appended new r (entries_return None) (with_logs l r)
  | appended_misconfigured e r' :
      overwritten (logs r) (logs r') new -> store_ok (logs r') ->
      unconfigured r' = unconfigured (with_logs (logs r') r) ->
      appended new r (entries_return (Some e)) r'.

Lemma append_newEntries_Done new r res r' :
  store_ok (logs r) -> append_newEntries new r = Done res r' -> appended new r res r'.
Proof.
  intros Hok. unfold append_newEntries.
  destruct (last new) as [x|] eqn:Hl.
  2:{ intros [= <- <-]. constructor. by apply last_None. }
  pose proof (store_ok_StoreLogs _ new Hok) as Hok'.
  destruct (StoreLogs (logs r) new) as [l [e|]] eqn:HS; simpl in Hok'.
  { intros [= <- <-]. constructor; [done|]. intros i.
    by eapply GetLog_StoreLogs_failed. }
  assert (overwritten (logs r) l new) as Ho
    by (intros i; by eapply GetLog_StoreLogs).
  intros HE. bind_inv HE.
  pose proof (frames_Done _ _ _ _ _ (processConfigurationLogEntries_keeps new) E) as Hk.
  simpl in Hk. assert (logs s = l) as <- by exact (f_equal logs Hk).
  destruct a as [e|].
  - injection HE as <- <-. by constructor.
  - bind_inv HE. injection E0 as _ <-. injection HE as <- <-.
    apply appended_stored with x; [done..|].
    exact (f_equal (with_raft_state (raftState_setLastLog (log_Index x) (log_Term x))) Hk).
Qed.

(** [new] starts at [n], above everything in the store. *)
Lemma appended_log_cached n new r res r' :
  appended new r res r' -> consecutive_from n new -> log_cached r ->
  (new <> [] -> forall i l, GetLog (logs r) i = Ok l -> (i < n)%N) ->
  match res with entries_return (Some _) => True | _ => log_cached r' end.
Proof.
  intros [->|x r2 Hx Ho Hok HL _|l Hok Hg|e r2 Ho Hok _] Hc [Hok0 Hb Ht] Hn; [done| | |done].
  - injection HL as HL1 HL2. pose proof (consecutive_last _ _ _ Hc Hx) as Hxi.
    pose proof (last_Some_elem_of _ _ Hx) as Hin.
    assert (new <> []) as Hne by (intros ->; done). specialize (Hn Hne).
    split; [done|..]; rewrite ?HL1, ?HL2.
    + intros i l Hl. apply (overwritten_inv _ _ _ _ _ Ho) in Hl as [[Hl <-]|Hl].
      * pose proof (consecutive_index _ _ _ Hc Hl). lia.
      * specialize (Hn _ _ Hl). pose proof (consecutive_index _ _ _ Hc Hin). lia.
    + intros l Hl. rewrite Ho, (written_unique new x) in Hl;
        [by simplify_eq|by eapply consecutive_NoDup|done].
  - split; simpl; [done|..].
    + intros i l'. rewrite Hg. apply Hb.
    + intros l'. rewrite Hg. apply Ht.
Qed.

Lemma truncate_suffix_Done from last r b r' :
  store_ok (logs r) -> (last + 1 < u64_size)%N -> truncate_suffix from last r = Done b r' ->
  store_ok (logs r') /\ unconfigured r' = unconfigured (with_logs (logs r') r) /\
  (b = true -> forall i, GetLog (logs r') i =
     if decide (from <= i <= last)%N then Err ErrLogNotFound else GetLog (logs r) i) /\
  (b = false ->
     (forall i l, GetLog (logs r') i = Ok l -> GetLog (logs r) i = Ok l) /\
     (forall i, ~ (from <= i <= last)%N -> GetLog (logs r') i = GetLog (logs r) i)).
Proof.
  intros Hok Hlt HE. unfold truncate_suffix in HE.
  pose proof (store_ok_DeleteRange _ from last Hok) as Hok'.
  destruct (DeleteRange (logs r) from last) as [l [e|]] eqn:HD; simpl in Hok'.
  - injection HE as <- <-. simpl. split_and!; [done|reflexivity|done|intros _].
    split; intros.
    + by eapply GetLog_DeleteRange_failed.
    + by eapply GetLog_DeleteRange_outside.
  - assert (b = true /\ logs r' = l /\
            unconfigured r' = unconfigured (with_logs (logs r') r)) as (-> & Hl & Hu).
    { revert HE. case_decide; intros HE.
      - bind_inv HE. injection E as _ <-. by injection HE as <- <-.
      - by injection HE as <- <-. }
    rewrite Hl in *. split_and!; [done|done|intros _ i|done]. by apply GetLog_DeleteRange.
Qed.

(** The server without its log and the cached position of the last entry. *)
Definition unlogged r : raft :=
  unconfigured (with_raft_state (raftState_setLastLog 0 0) r).

Record entries_processed (entries : list Log) r res r' : Prop := {
  ep_cached : match res with entries_return (Some _) => True | _ => log_cached r' end;
  ep_agree : res = entries_ok -> Forall (agrees (logs r')) entries;
  ep_kept i l : GetLog (logs r) i = Ok l ->
    GetLog (logs r') i = Ok l \/
    exists e, e ∈ entries /\ (log_Index e <= i)%N /\ conflicts (logs r) e;
  ep_new i l : GetLog (logs r') i = Ok l ->
    GetLog (logs r) i = Ok l \/ l ∈ entries /\ log_Index l = i;
  ep_last : res = entries_ok ->
    (lastLogIndex (raft_state r) <= lastLogIndex (raft_state r'))%N \/
    exists e, e ∈ entries /\ conflicts (logs r) e /\
              (log_Index e <= lastLogIndex (raft_state r'))%N;
  ep_stale e : res = entries_return e ->
    getLastLog (raft_state r') = getLastLog (raft_state r);
  ep_frame : unlogged r' = unlogged (with_logs (logs r') r)
}.

Lemma appended_frame new r res r' :
  appended new r res r' -> unlogged r' = unlogged (with_logs (logs r') r).
Proof.
  intros [->|x r2 Hx Ho Hok HL Hu|l Hok Hg|e r2 Ho Hok Hu].
  - by destruct r.
  - exact (f_equal (with_raft_state (raftState_setLastLog 0 0)) Hu).
  - reflexivity.
  - exact (f_equal (with_raft_state (raftState_setLastLog 0 0)) Hu).
Qed.

Lemma appended_stale new r e r' :
  appended new r (entries_return e) r' ->
  getLastLog (raft_state r') = getLastLog (raft_state r).
Proof.
  intros HA. inversion HA as [| |l|err r2 _ _ Hu]; subst; [done|].
  exact (f_equal (fun x => getLastLog (raft_state x)) Hu).
Qed.

Lemma appended_reads new r res r' :
  appended new r res r' ->
  overwritten (logs r) (logs r') new \/ forall i, GetLog (logs r') i = GetLog (logs r) i.
Proof. intros [->| | |]; auto. Qed.

Lemma agrees_overwritten s s' new e :
  overwritten s s' new -> log_Index e ∉ (log_Index <$> new) -> agrees s e -> agrees s' e.
Proof.
  intros Ho Hni (l & Hg & Ht). exists l. split; [|done].
  apply written_None in Hni. by rewrite Ho, Hni.
Qed.

Lemma overwritten_agrees s s' new :
  NoDup (log_Index <$> new) -> overwritten s s' new -> Forall (agrees s') new.
Proof.
  intros Hnd Ho. apply Forall_forall. intros e He. exists e. split; [|done].
  by rewrite Ho, (written_unique new e).
Qed.

(** Storing the rest [new] of a request above everything in the store, after its
    first entries [old] were found there. *)
Lemma append_rest_processed n old new r res r' :
  log_cached r -> consecutive_from n (old ++ new) -> Forall (agrees (logs r)) old ->
  (new <> [] -> forall i l, GetLog (logs r) i = Ok l -> (i < n + N.of_nat (length old))%N) ->
  appended new r res r' ->
  match res with entries_return (Some _) => True | _ => log_cached r' end /\
  (res = entries_ok -> Forall (agrees (logs r')) (old ++ new)) /\
  (forall i l, GetLog (logs r) i = Ok l -> GetLog (logs r') i = Ok l) /\
  (forall i l, GetLog (logs r') i = Ok l ->
     GetLog (logs r) i = Ok l \/ l ∈ new /\ log_Index l = i).
Proof.
  intros Hc Hcons Hold Hlow HA. pose proof (consecutive_app _ _ _ Hcons) as Hnew.
  pose proof (consecutive_NoDup _ _ Hcons) as Hnd. rewrite fmap_app in Hnd.
  apply NoDup_app in Hnd as (_ & Hdisj & Hnd).
  assert (forall s, overwritten (logs r) s new ->
          forall i l, GetLog (logs r) i = Ok l -> GetLog s i = Ok l) as Hkeep.
  { intros s Ho i l Hl. rewrite Ho. destruct (written new i) as [x|] eqn:Hw; [|done].
    pose proof (written_Index _ _ _ Hw) as <-. exfalso.
    assert (x ∈ new) as Hx.
    { unfold written in Hw. apply last_Some_elem_of in Hw.
      by apply list_elem_of_filter in Hw as [_ ?]. }
    pose proof (consecutive_index _ _ _ Hnew Hx).
    specialize (Hlow ltac:(intros ->; by apply elem_of_nil in Hx) _ _ Hl). lia. }
  split_and!.
  - by eapply appended_log_cached.
  - intros ->. apply Forall_app. inversion HA as [Hnil|x r2 Hx Ho| |]; subst.
    + split; [done|by rewrite Forall_nil].
    + split; [|by eapply overwritten_agrees].
      eapply Forall_impl; [exact Hold|]. intros e (l & Hl & Ht).
      exists l. split; [by apply (Hkeep _ Ho)|done].
  - destruct (appended_reads _ _ _ _ HA) as [Ho|Hs]; intros i l Hl; [by apply (Hkeep _ Ho)|].
    by rewrite Hs.
  - destruct (appended_reads _ _ _ _ HA) as [Ho|Hs]; intros i l Hl.
    + apply (overwritten_inv _ _ _ _ _ Ho) in Hl as [?|?]; auto.
    + left. by rewrite <- Hs.
Qed.

Lemma appended_last n new r r' :
  appended new r entries_ok r' -> consecutive_from n new ->
  new = [] /\ lastLogIndex (raft_state r') = lastLogIndex (raft_state r) \/
  new <> [] /\ lastLogIndex (raft_state r') = (n + N.of_nat (length new) - 1)%N.
Proof.
  intros HA Hc. inversion HA as [->|x r2 Hx _ _ HL| |]; subst; [by left|right].
  split; [by intros ->|]. injection HL as ->. by apply consecutive_last.
Qed.

Lemma append_processed n old new r res r' :
  log_cached r -> consecutive_from n (old ++ new) -> Forall (agrees (logs r)) old ->
  new = [] \/
    (exists e new', new = e :: new' /\ (lastLogIndex (raft_state r) < log_Index e)%N) ->
  append_newEntries new r = Done res r' -> entries_processed (old ++ new) r res r'.
Proof.
  intros Hc Hcons Hold Hnew HE.
  apply append_newEntries_Done in HE; [|apply Hc].
  pose proof (consecutive_app _ _ _ Hcons) as Hcn.
  destruct (append_rest_processed n old new r res r') as (H1' & H2' & H3' & H4'); [done..| |done|].
  { intros Hne i l Hl. destruct Hnew as [->|(e & new' & -> & He)]; [done|].
    pose proof (cached_bound _ Hc _ _ Hl). injection Hcn as Hi. rewrite <- Hi. lia. }
  split; [done|done|by auto| |..].
  - intros i l [?|[]]%H4'; [by left|right]. split; [|done]. apply elem_of_app. by right.
  - intros ->. left. destruct (appended_last _ _ _ _ HE Hcn) as [[_ ->]|[Hne ->]]; [done|].
    destruct Hnew as [->|(e & new' & -> & He)]; [done|].
    injection Hcn as Hi. rewrite <- Hi. simpl. lia.
  - intros e ->. by eapply appended_stale.
  - by eapply appended_frame.
Qed.

(** The store after its suffix from a conflicting entry on was deleted. *)
Lemma truncated_cached n old e new r s :
  log_cached r -> consecutive_from n (old ++ e :: new) -> Forall (agrees (logs r)) old ->
  store_ok (logs s) -> getLastLog (raft_state s) = getLastLog (raft_state r) ->
  (forall i, GetLog (logs s) i =
     if decide (log_Index e <= i <= lastLogIndex (raft_state r))%N then Err ErrLogNotFound
     else GetLog (logs r) i) ->
  (forall i l, GetLog (logs s) i = Ok l -> GetLog (logs r) i = Ok l /\ (i < log_Index e)%N) /\
  log_cached s /\ Forall (agrees (logs s)) old.
Proof.
  intros Hc Hcons Hold Hok [= HL1 HL2] Hg.
  assert (forall i l, GetLog (logs s) i = Ok l -> GetLog (logs r) i = Ok l /\ (i < log_Index e)%N)
    as Hsub.
  { intros i l Hl. rewrite Hg in Hl. case_decide; [done|]. split; [done|].
    pose proof (cached_bound _ Hc _ _ Hl). lia. }
  split_and!; [done|..].
  - split; [done|..]; rewrite ?HL1, ?HL2; intros; eapply Hc; by apply Hsub.
  - rewrite Forall_forall in *. intros x Hx. destruct (Hold _ Hx) as (l & Hl & Ht).
    exists l. split; [|done]. rewrite Hg, decide_False; [done|].
    pose proof (consecutive_index _ _ _ (consecutive_app_l _ _ _ Hcons) Hx).
    pose proof (consecutive_app _ _ _ Hcons) as Hcn. injection Hcn as Hei _. lia.
Qed.

Lemma conflict_processed n old e new r res r' :
  log_cached r -> (lastLogIndex (raft_state r) + 1 < u64_size)%N ->
  consecutive_from n (old ++ e :: new) -> Forall (agrees (logs r)) old ->
  conflicts (logs r) e ->
  (deleted <- truncate_suffix (log_Index e) (lastLogIndex (raft_state r));;
   if deleted then append_newEntries (e :: new) else returns (entries_return None))%go r
    = Done res r' ->
  entries_processed (old ++ e :: new) r res r'.
Proof.
  intros Hc Hlt Hcons Hold Hconf HE. bind_inv HE.
  destruct (truncate_suffix_Done _ _ _ _ _ (cached_store _ Hc) Hlt E)
    as (Hok1 & Hu1 & Htrue & Hfalse).
  assert (getLastLog (raft_state s) = getLastLog (raft_state r)) as HL
    by exact (f_equal (fun x => getLastLog (raft_state x)) Hu1).
  assert (e ∈ old ++ e :: new) as He by (apply elem_of_app; right; left).
  destruct a.
  2:{ destruct (Hfalse eq_refl) as [Hsub Hout]. injection HE as <- <-. split; try done.
      - injection HL as HL1 HL2.
        split; [done|..]; rewrite ?HL1, ?HL2; intros; eapply Hc; by apply Hsub.
      - intros i l Hl. destruct (decide (log_Index e <= i)%N); [right; eauto|left].
        rewrite Hout; [done|lia].
      - intros i l Hl. left. by apply Hsub.
      - exact (f_equal (with_raft_state (raftState_setLastLog 0 0)) Hu1). }
  specialize (Htrue eq_refl).
  destruct (truncated_cached n old e new r s) as (Hsub & Hc1 & Hold1); [done..|].
  apply append_newEntries_Done in HE; [|done].
  pose proof (consecutive_app _ _ _ Hcons) as Hcn. injection Hcn as Hei _.
  destruct (append_rest_processed n old (e :: new) s res r') as (H1' & H2' & H3' & H4');
    [done..| |done|].
  { intros _ i l Hl. apply Hsub in Hl as [_ ?]. lia. }
  split; [done|done|..].
  - intros i l Hl. destruct (decide (log_Index e <= i)%N); [right; eauto|left].
    apply H3'. pose proof (cached_bound _ Hc _ _ Hl). rewrite Htrue, decide_False; [done|lia].
  - intros i l [[? _]%Hsub|[]]%H4'; [by left|right]. split; [|done].
    apply elem_of_app. by right.
  - intros ->. right. exists e. split_and!; [done..|].
    destruct (appended_last _ _ _ _ HE (consecutive_app _ _ _ Hcons)) as [[? _]|[_ ->]]; [done|].
    simpl. lia.
  - intros err ->. rewrite <- HL. by eapply appended_stale.
  - rewrite (appended_frame _ _ _ _ HE).
    exact (f_equal (fun x => with_raft_state (raftState_setLastLog 0 0)
                               (with_logs (logs r') x)) Hu1).
Qed.

Lemma process_entries_processed n entries r res r' :
  log_cached r -> (lastLogIndex (raft_state r) + 1 < u64_size)%N ->
  consecutive_from n entries -> process_entries entries r = Done res r' ->
  entries_processed entries r res r'.
Proof.
  intros Hc Hlt Hcons HE. unfold process_entries in HE.
  bind_inv HE. injection E as <- <-. simpl in HE.
  pose proof (scan_entries_spec (logs r) (lastLogIndex (raft_state r)) entries) as HS.
  destruct (scan_entries _ _ entries) as [|new|from new].
  - injection HE as <- <-. by split; [done|done|auto|auto|done|done|destruct r].
  - destruct HS as (old & -> & Hold & Hnew). by eapply append_processed.
  - destruct HS as (old & e & new' & -> & Hold & -> & -> & Hle & Hconf).
    by eapply conflict_processed.
Qed.

(** ** The whole handler *)

(** Everything but the term, the role, the known leader and the observers'
    record. *)
Definition unled r : raft :=
  with_observations [] (with_leader "" ""
    (with_raft_state (raftState_setState Follower)
       (with_raft_state (raftState_setCurrentTerm 0) r))).

Record follows (t : N) r r1 : Prop := {
  fo_term : currentTerm (raft_state r1) = t;
  fo_disk : SetUint64 (stable r) keyCurrentTerm t = (stable r1, None) \/
            currentTerm (raft_state r) = t /\ stable r1 = stable r;
  fo_role : state (raft_state r1) = Follower \/
            state (raft_state r1) = state (raft_state r) /\ currentTerm (raft_state r) = t /\
            candidateFromLeadershipTransfer r = true;
  fo_frame : unled r1 = unled (with_stable (stable r1) r)
}.

Lemma accept_leader_Done a r term r1 u r2 addr id :
  (currentTerm (raft_state r) <= ae_Term a)%N ->
  (if decide ((currentTerm (raft_state r) < ae_Term a)%N \/
              (state (raft_state r) <> Follower /\ candidateFromLeadershipTransfer r = false))
   then (setState Follower;; setCurrentTerm (ae_Term a);; returns (ae_Term a))%go
   else returns (currentTerm (raft_state r))) r = Done term r1 ->
  setLeader addr id r1 = Done u r2 ->
  term = ae_Term a /\ follows (ae_Term a) r r2.
Proof.
  intros Hle HE. rewrite setLeader_eq. intros [= _ <-]. case_decide as Hd.
  - bind_inv HE. rewrite setState_eq in E. injection E as _ <-.
    bind_inv HE. unfold setCurrentTerm in E. simpl in E.
    destruct (SetUint64 _ _ _) as [k [e|]] eqn:HS; [done|]. injection E as _ <-.
    injection HE as <- <-. split; [done|]. split; simpl; auto.
  - injection HE as <- <-. assert (currentTerm (raft_state r) = ae_Term a) as He by lia.
    split; [done|]. split; simpl; [done|auto| |].
    + destruct (decide (state (raft_state r) = Follower)); [auto|].
      destruct (candidateFromLeadershipTransfer r) eqn:Ht; [auto|]. tauto.
    + by destruct r as [[]].
Qed.

(** How a call of [appendEntries] can end. *)
Inductive append_outcome (now : Z) (a : AppendEntriesRequest) r
    : bool -> option error -> raft -> Prop :=
  | append_stale :
      (ae_Term a < currentTerm (raft_state r))%N -> append_outcome now a r false None r
  | append_gap r1 :
      (currentTerm (raft_state r) <= ae_Term a)%N -> follows (ae_Term a) r r1 ->
      append_outcome now a r false None r1
  | append_failed r1 err r2 :
      (currentTerm (raft_state r) <= ae_Term a)%N -> follows (ae_Term a) r r1 ->
      process_entries (ae_Entries a) r1 = Done (entries_return err) r2 ->
      append_outcome now a r false err r2
  | append_succeeded r1 r2 r3 :
      (currentTerm (raft_state r) <= ae_Term a)%N -> follows (ae_Term a) r r1 ->
      previous_entry_ok r1 a = true ->
      (process_entries (ae_Entries a) r1 = Done entries_ok r2 \/
       ae_Entries a = [] /\ r2 = r1) ->
      advance_commit (ae_LeaderCommitIndex a) r2 = Done tt r3 ->
      append_outcome now a r true None (with_lastContact now r3).

Lemma appendEntries_outcome now a r resp err r' :
  appendEntries now a r = Done (resp, err) r' ->
  append_outcome now a r (aer_Success resp) err r'.
Proof.
  intros HE. unfold appendEntries in HE. bind_inv HE. injection E as <- <-. cbv zeta in HE.
  case_decide as Hold; [injection HE as <- <- <-; by constructor|].
  apply bind_Done in HE as (term & r0 & E0 & HE). apply bind_Done in HE as (u & r1 & E1 & HE).
  assert (term = ae_Term a /\ follows (ae_Term a) r r1) as [-> Hf].
  { destruct (decide (hdr_Addr (ae_Header a) <> "")).
    all: eapply accept_leader_Done; [lia|exact E0|exact E1]. }
  bind_inv HE. injection E as <- <-.
  destruct (previous_entry_ok r1 a) eqn:Hprev; simpl in HE.
  2:{ injection HE as <- <- <-. apply append_gap; [lia|done]. }
  apply bind_Done in HE as (res & r2 & E2 & HE).
  assert (process_entries (ae_Entries a) r1 = Done res r2 \/
          ae_Entries a = [] /\ res = entries_ok /\ r2 = r1) as H2'.
  { destruct (decide (ae_Entries a <> [])) as [Hne|Hne]; [by left|right].
    injection E2 as <- <-. split_and!; [|done..]. by apply dec_stable. }
  destruct res as [|rpcErr].
  - apply bind_Done in HE as ([] & r3 & E3 & HE). bind_inv HE. injection E as _ <-.
    injection HE as <- <- <-. simpl.
    eapply append_succeeded; [lia|done|done| |done]. naive_solver.
  - injection HE as <- <- <-. simpl. eapply append_failed; [lia|done|]. naive_solver.
Qed.

Lemma appendEntries_success_term now a r resp err r' :
  appendEntries now a r = Done (resp, err) r' -> aer_Success resp = true ->
  aer_Term resp = ae_Term a.
Proof.
  intros HE Hs. unfold appendEntries in HE. bind_inv HE. injection E as <- <-. cbv zeta in HE.
  case_decide as Hold; [by injection HE as <- <- <-|].
  apply bind_Done in HE as (term & r0 & E0 & HE). apply bind_Done in HE as (u & r1 & E1 & HE).
  assert (term = ae_Term a) as ->.
  { destruct (setLeader "" "" r0) as [u' r2|] eqn:EL; [|by rewrite setLeader_eq in EL].
    destruct (accept_leader_Done a r term r0 u' r2 "" "") as [-> _]; [lia|done..]. }
  bind_inv HE. injection E as <- <-.
  destruct (previous_entry_ok r1 a); simpl in HE; [|by injection HE as <- <- <-].
  apply bind_Done in HE as (res & r2 & E2 & HE).
  destruct res as [|rpcErr]; [|by injection HE as <- <- <-].
  bind_inv HE. bind_inv HE. by injection HE as <- <- <-.
Qed.

Lemma appendEntries_LastLog now a r resp err r' :
  appendEntries now a r = Done (resp, err) r' ->
  aer_LastLog resp = getLastIndex (raft_state r).
Proof.
  intros HE. unfold appendEntries in HE. bind_inv HE. injection E as <- <-. cbv zeta in HE.
  case_decide; [by injection HE as <- <- <-|].
  bind_inv HE. bind_inv HE. bind_inv HE.
  destruct (previous_entry_ok _ a); simpl in HE; [|by injection HE as <- <- <-].
  apply bind_Done in HE as (res & r2 & E2 & HE).
  destruct res as [|rpcErr]; [|by injection HE as <- <- <-].
  bind_inv HE. bind_inv HE. by injection HE as <- <- <-.
Qed.

(** What the log invariants depend on. *)
Definition log_view r : L * (N * N) * (N * N) :=
  (logs r, getLastLog (raft_state r), getLastSnapshot (raft_state r)).

Lemma follows_view t r r1 : follows t r r1 -> log_view r1 = log_view r.
Proof. intros [_ _ _ Hf]. exact (f_equal log_view Hf). Qed.

Lemma advance_commit_view c r u r' :
  advance_commit c r = Done u r' -> log_view r' = log_view r.
Proof.
  intros HE. exact (f_equal log_view (frames_Done _ _ _ _ _ (advance_commit_keeps c) HE)).
Qed.

Lemma log_cached_view r r' : log_view r' = log_view r -> log_cached r -> log_cached r'.
Proof.
  intros [= E1 E2 E3 _ _] [Hok Hb Ht]. split; rewrite E1, ?E2, ?E3; done.
Qed.

(** The entry before the first one of the request is the same on both servers. *)
Definition previous_agrees r (a : AppendEntriesRequest) : Prop :=
  ae_PrevLogEntry a = 0%N \/
  getLastEntry (raft_state r) = (ae_PrevLogEntry a, ae_PrevLogTerm a) \/
  exists l, GetLog (logs r) (ae_PrevLogEntry a) = Ok l /\ log_Term l = ae_PrevLogTerm a.

Lemma previous_entry_ok_agrees r a : previous_entry_ok r a = true -> previous_agrees r a.
Proof.
  unfold previous_entry_ok, previous_agrees. case_decide; [|left; lia].
  destruct (getLastEntry _) as [li lt].
  destruct (decide (ae_PrevLogEntry a = li)) as [->|].
  - intros ->%bool_decide_eq_true. auto.
  - destruct (GetLog _ _) as [l|]; [|done]. intros ->%bool_decide_eq_true. eauto.
Qed.

Lemma getLastEntry_view r r' :
  log_view r' = log_view r -> getLastEntry (raft_state r') = getLastEntry (raft_state r).
Proof. intros [= E1 E2 E3 E4 E5]. unfold getLastEntry. by rewrite E2, E3, E4, E5. Qed.

Lemma nothing_processed r : log_cached r -> entries_processed [] r entries_ok r.
Proof.
  intros Hc. split; [done|by constructor|by left|by left|by left|done|by destruct r].
Qed.

(** The effect of a call on the log, whatever its answer. *)
Lemma append_outcome_log now a r b err r' :
  log_cached r -> (lastLogIndex (raft_state r) + 1 < u64_size)%N ->
  consecutive_from (ae_PrevLogEntry a + 1) (ae_Entries a) ->
  append_outcome now a r b err r' ->
  (err = None -> log_cached r') /\
  (b = true -> err = None /\ Forall (agrees (logs r')) (ae_Entries a) /\ previous_agrees r a) /\
  (forall i l, GetLog (logs r) i = Ok l ->
     GetLog (logs r') i = Ok l \/
     exists e, e ∈ ae_Entries a /\ (log_Index e <= i)%N /\ conflicts (logs r) e) /\
  (forall i l, GetLog (logs r') i = Ok l ->
     GetLog (logs r) i = Ok l \/ l ∈ ae_Entries a /\ log_Index l = i).
Proof.
  intros Hc Hlt Hcons HO.
  assert (forall r1, follows (ae_Term a) r r1 -> logs r1 = logs r /\ log_cached r1 /\
            (lastLogIndex (raft_state r1) + 1 < u64_size)%N) as Hf1.
  { intros r1 Hf%follows_view. split_and!; [by injection Hf|by eapply log_cached_view|].
    injection Hf as _ -> _ _ _. done. }
  destruct HO as [Hst|r1 Hle Hf|r1 err r2 Hle Hf HP|r1 r2 r3 Hle Hf Hprev HP HA].
  - split_and!; [done|done|by left|by left].
  - destruct (Hf1 _ Hf) as (-> & Hc1 & _). split_and!; [done|done|by left|by left].
  - destruct (Hf1 _ Hf) as (Hl & Hc1 & Hlt1).
    destruct (process_entries_processed _ _ _ _ _ Hc1 Hlt1 Hcons HP) as [I1 I2 I3 I4 _ _ _].
    rewrite Hl in *. split_and!; [by intros ->|done|done|done].
  - destruct (Hf1 _ Hf) as (Hl & Hc1 & Hlt1).
    assert (entries_processed (ae_Entries a) r1 entries_ok r2) as [I1 I2 I3 I4 _ _ _].
    { destruct HP as [HP|[-> ->]]; [by eapply process_entries_processed|].
      by apply nothing_processed. }
    pose proof (advance_commit_view _ _ _ _ HA) as Hv.
    assert (logs r3 = logs r2) as Hl3 by (by injection Hv). simpl. rewrite Hl3, Hl in *.
    split_and!; [|intros _; split_and!|done|done].
    + intros _. apply (log_cached_view r3); [done|]. by eapply log_cached_view.
    + done.
    + by apply I2.
    + apply previous_entry_ok_agrees in Hprev. unfold previous_agrees in *.
      rewrite (getLastEntry_view r r1) in Hprev by (by apply (follows_view (ae_Term a))).
      by rewrite Hl in Hprev.
Qed.


Lemma processLogs_lastApplied index fs r u r' :
  processLogs index fs r = Done u r' ->
  lastApplied (raft_state r') = N.max index (lastApplied (raft_state r)).
Proof.
  intros HE. unfold processLogs in HE. bind_inv HE. injection E as <- <-. cbv zeta in HE.
  case_decide as Hd; [injection HE as _ <-; lia|].
  bind_inv HE. bind_inv HE. injection HE as _ <-. simpl. lia.
Qed.

(** The commit and the applied index after "update the commit index". *)
Lemma advance_commit_indexes c r u r' :
  (commitIndex (raft_state r) <= getLastIndex (raft_state r))%N ->
  advance_commit c r = Done u r' ->
  (commitIndex (raft_state r) <= commitIndex (raft_state r'))%N /\
  (commitIndex (raft_state r') = commitIndex (raft_state r) \/
   commitIndex (raft_state r') = min c (getLastIndex (raft_state r'))) /\
  getLastIndex (raft_state r') = getLastIndex (raft_state r) /\
  (lastApplied (raft_state r) <= lastApplied (raft_state r')
   <= N.max (lastApplied (raft_state r)) (commitIndex (raft_state r')))%N.
Proof.
  intros Hle HE. pose proof (advance_commit_view _ _ _ _ HE) as Hv.
  assert (getLastIndex (raft_state r') = getLastIndex (raft_state r)) as HL.
  { unfold getLastIndex. injection Hv as _ -> _ -> _. done. }
  unfold advance_commit in HE. bind_inv HE. injection E as <- <-. cbv zeta in HE.
  case_decide as Hc.
  2:{ injection HE as _ <-. split_and!; [lia|by left|done|lia|lia]. }
  bind_inv HE. injection E as _ <-.
  apply bind_Done in HE as (u2 & r2 & E2 & HE).
  assert (raft_state r2 = raftState_setCommitIndex (min c (getLastIndex (raft_state r))) (raft_state r))
    as Hr2.
  { revert E2. case_decide; by intros [= _ <-]. }
  pose proof (processLogs_lastApplied _ _ _ _ _ HE) as HA.
  pose proof (frames_Done _ _ _ _ _ (processLogs_keeps _ _) HE) as Hk.
  assert (commitIndex (raft_state r') = commitIndex (raft_state r2)) as HC
    by exact (f_equal (fun x => commitIndex (raft_state x)) Hk).
  rewrite Hr2 in *. simpl in HA, HC. rewrite HA, HC, HL. rewrite min_spec.
  split_and!; [lia|right; lia|done|lia|lia].
Qed.

Lemma getLastIndex_max (r : raftState) :
  getLastIndex r = N.max (lastLogIndex r) (lastSnapshotIndex r).
Proof. apply max_spec. Qed.

Lemma unlogged_indexes r r' l :
  unlogged r' = unlogged (with_logs l r) ->
  commitIndex (raft_state r') = commitIndex (raft_state r) /\
  lastApplied (raft_state r') = lastApplied (raft_state r) /\
  lastSnapshotIndex (raft_state r') = lastSnapshotIndex (raft_state r).
Proof.
  intros Hu. split_and!.
  - exact (f_equal (fun x => commitIndex (raft_state x)) Hu).
  - exact (f_equal (fun x => lastApplied (raft_state x)) Hu).
  - exact (f_equal (fun x => lastSnapshotIndex (raft_state x)) Hu).
Qed.

(** C10: [appendEntries] only moves the commit index forward, to the smaller of
    the leader's commit index and our last index, as long as no entry of the
    request contradicts a committed one; the commit index stays within the log on
    every outcome, and what is applied never passes what is committed. *)
Theorem appendEntries_commit now a r resp err r' :
  log_cached r -> (lastLogIndex (raft_state r) + 1 < u64_size)%N ->
  consecutive_from (ae_PrevLogEntry a + 1) (ae_Entries a) ->
  (commitIndex (raft_state r) <= getLastIndex (raft_state r))%N ->
  (forall e, e ∈ ae_Entries a -> conflicts (logs r) e ->
     (commitIndex (raft_state r) < log_Index e)%N) ->
  appendEntries now a r = Done (resp, err) r' ->
  (commitIndex (raft_state r) <= commitIndex (raft_state r')
   <= getLastIndex (raft_state r'))%N /\
  (commitIndex (raft_state r') = commitIndex (raft_state r) \/
   commitIndex (raft_state r') =
     min (ae_LeaderCommitIndex a) (getLastIndex (raft_state r'))) /\
  (lastApplied (raft_state r) <= lastApplied (raft_state r')
   <= N.max (lastApplied (raft_state r)) (commitIndex (raft_state r')))%N.
Proof.
  intros Hc Hlt Hcons Hle Hconf HO%appendEntries_outcome.
  assert (forall r1, follows (ae_Term a) r r1 ->
    log_cached r1 /\ logs r1 = logs r /\ (lastLogIndex (raft_state r1) + 1 < u64_size)%N /\
    getLastIndex (raft_state r1) = getLastIndex (raft_state r) /\
    commitIndex (raft_state r1) = commitIndex (raft_state r) /\
    lastApplied (raft_state r1) = lastApplied (raft_state r)) as Hf1.
  { intros r1 Hf. pose proof (follows_view _ _ _ Hf) as Hv. destruct Hf as [_ _ _ Hf].
    split_and!; [by eapply log_cached_view|by injection Hv| | | |].
    - by injection Hv as _ -> _ _ _.
    - unfold getLastIndex. by injection Hv as _ -> _ -> _.
    - exact (f_equal (fun x => commitIndex (raft_state x)) Hf).
    - exact (f_equal (fun x => lastApplied (raft_state x)) Hf). }
  destruct HO as [Hst|r1 _ Hf|r1 err r2 _ Hf HP|r1 r2 r3 _ Hf _ HP HA].
  - split_and!; auto; lia.
  - destruct (Hf1 _ Hf) as (_ & _ & _ & -> & -> & ->). split_and!; auto; lia.
  - destruct (Hf1 _ Hf) as (Hc1 & Hl & Hlt1 & HL1 & HC1 & HA1).
    destruct (process_entries_processed _ _ _ _ _ Hc1 Hlt1 Hcons HP) as [_ _ _ _ _ HS Hfr].
    destruct (unlogged_indexes _ _ _ Hfr) as (-> & -> & Hsn).
    specialize (HS _ eq_refl). injection HS as HS _. rewrite !getLastIndex_max in *.
    rewrite HS, Hsn, HC1, HA1, HL1. split_and!; [lia|lia|by left|lia|lia].
  - destruct (Hf1 _ Hf) as (Hc1 & Hl & Hlt1 & HL1 & HC1 & HA1).
    assert (entries_processed (ae_Entries a) r1 entries_ok r2) as [_ _ _ _ HS _ Hfr].
    { destruct HP as [HP|[-> ->]]; [by eapply process_entries_processed|].
      by apply nothing_processed. }
    destruct (unlogged_indexes _ _ _ Hfr) as (HC2 & HA2 & Hsn).
    assert (commitIndex (raft_state r2) <= getLastIndex (raft_state r2))%N as Hle2.
    { rewrite HC2, HC1. rewrite !getLastIndex_max in *. rewrite Hsn.
      destruct (HS eq_refl) as [?|(e & He & Hcf & ?)]; [lia|].
      rewrite Hl in Hcf. specialize (Hconf _ He Hcf). lia. }
    apply advance_commit_indexes in HA as (I1 & I2 & I3 & I4); [|done].
    simpl. rewrite HC2, HC1 in *. rewrite HA2, HA1 in *. rewrite I3 in *.
    split_and!; [lia| |done|lia|lia].
    rewrite min_spec in I2. destruct I2; lia.
Qed.
End LogAgreement.

(** ** A concrete follower *)

#[local] Existing Instance bitsMsgPack.
#[local] Existing Instance inmemPeerCodec.

Definition cmd (index term : N) (data : string) : Log :=
  mkLog index term LogCommand data "" 0.

Definition log_b : list Log := [cmd 1 1 "x"; cmd 2 1 "y"; cmd 3 2 "z"].

(** Server [a] with three entries, the first of which is committed and applied. *)
Definition follower_a : Raft InmemStore InmemStore unit :=
  mkRaft (mkRaftState 3 1 1 0 0 3 2 Follower) 3 config_a "a" "addr-a" 0 "" "" false false
    (inmem_StoreLogs_loop NewInmemStore log_b) disk_a tt (mkConfigurations trio 1 trio 1)
    (Some trio) [] ∅ [] false.

(** The leader [b] of term 4 replaces the entry 3. *)
Definition append_b : AppendEntriesRequest :=
  mkAppendEntriesRequest (mkHeader 3 "b" "addr-b") 4 "addr-b" 1 1
    [cmd 2 1 "y"; cmd 3 3 "w"; cmd 4 4 "v"] 3.

Lemma inmem_stored ls : store_ok (inmem_StoreLogs_loop NewInmemStore ls).
Proof.
  change (store_ok (StoreLogs NewInmemStore ls).1). apply store_ok_StoreLogs. by intros ?? ?.
Qed.

Lemma inmem_reads ls i l :
  GetLog (inmem_StoreLogs_loop NewInmemStore ls) i = Ok l -> l ∈ ls /\ log_Index l = i.
Proof.
  intros Hl. split; [|exact (GetLog_Index _ _ _ (inmem_stored ls) Hl)].
  change (GetLog (StoreLogs NewInmemStore ls).1 i = Ok l) in Hl.
  rewrite (GetLog_StoreLogs NewInmemStore ls) in Hl; [|by intros ?? ?|reflexivity].
  destruct (written ls i) as [x|] eqn:Hw; [|done]. injection Hl as ->.
  apply last_Some_elem_of in Hw. by apply list_elem_of_filter in Hw as [_ ?].
Qed.

Lemma follower_a_cached : log_cached follower_a.
Proof.
  split; [apply inmem_stored|..].
  - intros i l [Hl <-]%inmem_reads.
    repeat (apply elem_of_cons in Hl as [->|Hl]; [done|]). by apply elem_of_nil in Hl.
  - vm_compute. by intros l [= <-].
Qed.


Lemma appendEntries_commit_witness :
  exists resp r', appendEntries 0 append_b follower_a = Done (resp, None) r' /\
    (1 <= commitIndex (raft_state r') <= getLastIndex (raft_state r'))%N.
Proof.
  destruct (appendEntries 0 append_b follower_a) as [[resp err] r'|] eqn:HE;
    [|vm_compute in HE; congruence].
  destruct (appendEntries_commit 0 append_b follower_a resp err r') as (Hc & _);
    [apply follower_a_cached|reflexivity|reflexivity|vm_compute; congruence| |exact HE|].
  { intros e He _. simpl in He.
    repeat (apply elem_of_cons in He as [->|He]; [reflexivity|]). by apply elem_of_nil in He. }
  assert (err = None) as ->. { vm_compute in HE. injection HE as _ <- _. reflexivity. }
  exists resp, r'. split; [reflexivity|exact Hc].
Defined.

Lemma processLogs_exact_witness :
  exists batches r', processLogs 3 ∅ follower_a = Done tt r' /\
    concat batches = [mkCommitTuple (cmd 2 1 "y") None; mkCommitTuple (cmd 3 2 "z") None] /\
    lastApplied (raft_state r') = 3%N.
Proof.
  destruct (processLogs_exact 3 ∅ follower_a) as (bs & HE & Hc & _);
    [reflexivity|reflexivity|reflexivity| |].
  { intros i Hi. vm_compute in Hi.
    repeat (apply elem_of_cons in Hi as [->|Hi]; [vm_compute; congruence|]).
    by apply elem_of_nil in Hi. }
  exists bs. eexists. split; [exact HE|]. split; [rewrite Hc; reflexivity|reflexivity].
Defined.
