(* ===== verification/SnapshotStores.v ===== *)
(** * Snapshot storage, [snapshot.go], [inmem_snapshot.go], [discard_snapshot.go]

    The interfaces [SnapshotStore] and [SnapshotSink] as one class of operations,
    and two implementations.  A sink is a handle: its state lives in the store, so
    that the aliasing of the in-memory store, whose current snapshot is the sink
    being written, is kept. *)
From S2P Require Import Prelude Types Util Codec Configuration Config State.

(** ** The interface *)

(** [Create] takes the wall clock in milliseconds, which is part of the name;
    [Open] gives the metadata and the contents a reader would deliver. *)
Class SnapshotStore (SN : Type) := {
  SnapshotSink : Type;
  Create : Z -> Z -> N -> N -> Configuration -> N -> M SN (result SnapshotSink);
  sink_Write : SnapshotSink -> string -> M SN (result Z);
  sink_Close : SnapshotSink -> M SN (option error);
  sink_Cancel : SnapshotSink -> M SN (option error);
  sink_ID : SnapshotSink -> SN -> string;
  List_ : SN -> result (list SnapshotMeta);
  Open : SN -> string -> result (SnapshotMeta * string)
}.

Definition snapshotName (msec : Z) (term index : N) : string :=
  pretty term +:+ "-" +:+ pretty index +:+ "-" +:+ pretty msec.

(** [io.Copy(sink, reader)] for a reader that delivers [data] and then [rerr]: the
    number of bytes copied and the first error. *)
Definition io_Copy {SN} `{SnapshotStore SN} (sink : SnapshotSink) (data : string)
    (rerr : option error) : M SN (result Z) := (
  n <- sink_Write sink data;;
  match n, rerr with
  | Err e, _ => returns (Err e)
  | Ok _, Some e => returns (Err e)
  | Ok n, None => returns (Ok n)
  end)%go.

(** ** [InmemSnapshotStore] *)

Record InmemSnapshotSink := mkInmemSnapshotSink {
  iss_meta : SnapshotMeta;
  iss_contents : string
}.

(** The sinks allocated so far; [iss_latest] points to one of them. *)
Record InmemSnapshotStore := mkInmemSnapshotStore {
  iss_sinks : list InmemSnapshotSink;
  iss_latest : nat;
  iss_hasSnapshot : bool
}.

Definition zero_meta : SnapshotMeta :=
  mkSnapshotMeta 0 "" 0 0 "" (mkConfiguration []) 0 0.

Definition NewInmemSnapshotStore : InmemSnapshotStore :=
  mkInmemSnapshotStore [mkInmemSnapshotSink zero_meta ""] 0 false.

Definition inmem_latest (m : InmemSnapshotStore) : InmemSnapshotSink :=
  default (mkInmemSnapshotSink zero_meta "") (iss_sinks m !! iss_latest m).

Section InmemSnapshots.
Context `{MsgPack} `{PeerCodec}.

Definition inmem_Create (msec version : Z) (index term : N) (configuration : Configuration)
    (configurationIndex : N) : M InmemSnapshotStore (result nat) := fun m =>
  if decide (version <> 1)%Z then
    Done (Err (Errorf ("unsupported snapshot version " +:+ pretty version))) m
  else
    match encodePeers configuration with
    | Err _ => Panicked m
    | Ok peers =>
        let sink := mkInmemSnapshotSink
          (mkSnapshotMeta version (snapshotName msec term index) index term peers
             configuration configurationIndex 0) "" in
        let id := length (iss_sinks m) in
        Done (Ok id) (mkInmemSnapshotStore (iss_sinks m ++ [sink]) id true)
    end.

Definition inmem_List (m : InmemSnapshotStore) : result (list SnapshotMeta) :=
  if negb (iss_hasSnapshot m) then Ok [] else Ok [iss_meta (inmem_latest m)].

Definition inmem_Open (m : InmemSnapshotStore) (id : string)
    : result (SnapshotMeta * string) :=
  if decide (sm_ID (iss_meta (inmem_latest m)) <> id) then
    Err (Errorf ("[ERR] snapshot: failed to open snapshot id: " +:+ id))
  else Ok (iss_meta (inmem_latest m), iss_contents (inmem_latest m)).

Definition add_Size (n : Z) (meta : SnapshotMeta) : SnapshotMeta :=
  mkSnapshotMeta (sm_Version meta) (sm_ID meta) (sm_Index meta) (sm_Term meta)
    (sm_Peers meta) (sm_Configuration meta) (sm_ConfigurationIndex meta)
    (sm_Size meta + n).

Definition inmem_Write (sink : nat) (p : string) : M InmemSnapshotStore (result Z) := fun m =>
  let n := Z.of_nat (String.length p) in
  Done (Ok n)
    (mkInmemSnapshotStore
       (alter (fun s => mkInmemSnapshotSink (add_Size n (iss_meta s))
                          (iss_contents s +:+ p)) sink (iss_sinks m))
       (iss_latest m) (iss_hasSnapshot m)).

#[export] Instance InmemSnapshotStore_SnapshotStore : SnapshotStore InmemSnapshotStore := {|
  SnapshotSink := nat;
  Create := inmem_Create;
  sink_Write := inmem_Write;
  sink_Close _ := returns None;
  sink_Cancel _ := returns None;
  sink_ID sink m := from_option (fun s => sm_ID (iss_meta s)) "" (iss_sinks m !! sink);
  List_ := inmem_List;
  Open := inmem_Open
|}.
End InmemSnapshots.

(** ** [DiscardSnapshotStore] *)

Inductive DiscardSnapshotStore := NewDiscardSnapshotStore.

#[export] Instance DiscardSnapshotStore_SnapshotStore : SnapshotStore DiscardSnapshotStore := {|
  SnapshotSink := unit;
  Create _ _ _ _ _ _ := returns (Ok tt);
  sink_Write _ p := returns (Ok (Z.of_nat (String.length p)));
  sink_Close _ := returns None;
  sink_Cancel _ := returns None;
  sink_ID _ _ := "discard";
  List_ _ := Ok [];
  Open _ _ := Err (Errorf "open is not supported")
|}.

(** ** What the in-memory store keeps *)

Section InmemRoundTrip.
Context `{MsgPack} `{PeerCodec}.

(** A sequence of writes to a sink, and then its end by [Close] or [Cancel]. *)
Fixpoint write_all {SN} `{SnapshotStore SN} (sink : SnapshotSink) (ps : list string)
    : M SN unit :=
  match ps with
  | [] => returns tt
  | p :: ps => (sink_Write sink p;; write_all sink ps)%go
  end.

Definition total_length (ps : list string) : Z :=
  foldr (fun p n => Z.of_nat (String.length p) + n)%Z 0%Z ps.

Definition concat_strings (ps : list string) : string := foldr String.append "" ps.

Lemma string_app_nil_r (s : string) : s +:+ "" = s.
Proof. induction s as [|a s IH]; [done|]. exact (f_equal (String a) IH). Qed.

Lemma string_app_assoc (s1 s2 s3 : string) : (s1 +:+ s2) +:+ s3 = s1 +:+ (s2 +:+ s3).
Proof. induction s1 as [|a s1 IH]; [done|]. exact (f_equal (String a) IH). Qed.

Lemma add_Size_add n k meta : add_Size n (add_Size k meta) = add_Size (k + n) meta.
Proof. unfold add_Size; simpl. f_equal. lia. Qed.

Lemma insert_alter {A} (f : A -> A) (x : A) (i : nat) (l : list A) :
  <[i := x]> (alter f i l) = <[i := x]> l.
Proof. revert i. induction l; intros [|i]; simpl; f_equal; auto. Qed.

Lemma write_all_inmem (sink : nat) ps sinks latest has s :
  sinks !! sink = Some s ->
  write_all (SN := InmemSnapshotStore) sink ps (mkInmemSnapshotStore sinks latest has) =
    Done tt (mkInmemSnapshotStore
      (<[sink := mkInmemSnapshotSink (add_Size (total_length ps) (iss_meta s))
                   (iss_contents s +:+ concat_strings ps)]> sinks) latest has).
Proof.
  revert sinks s. induction ps as [|p ps IH]; intros sinks s Hs; simpl.
  - rewrite string_app_nil_r. unfold returns. f_equal. f_equal.
    destruct s as [meta c]. unfold add_Size; simpl. rewrite Z.add_0_r.
    rewrite list_insert_id; [done|]. rewrite Hs. by destruct meta.
  - unfold bind, inmem_Write; simpl.
    rewrite (IH _ (mkInmemSnapshotSink (add_Size (Z.of_nat (String.length p)) (iss_meta s))
                     (iss_contents s +:+ p))).
    + simpl. rewrite add_Size_add, string_app_assoc.
      by rewrite insert_alter.
    + by rewrite list_lookup_alter_eq, Hs.
Qed.

(** Whatever is written to a sink of [InmemSnapshotStore] is what [Open]
    delivers under the sink's ID, with the size of what was written in the metadata
    that [List] shows.  This is so from [Create] on, whether the sink was closed or
    cancelled: a cancelled snapshot has replaced the previous one. *)
Theorem InmemSnapshotStore_contents (m : InmemSnapshotStore) msec index term c ci peers ps
    (cancelled : bool) :
  encodePeers c = Ok peers ->
  let meta := mkSnapshotMeta 1 (snapshotName msec term index) index term peers c ci
                (total_length ps) in
  exists sink m',
    (sink <- Create msec 1 index term c ci;;
     match sink with
     | Err _ => returns (sink, None)
     | Ok s => write_all s ps;;
               err <- (if cancelled then sink_Cancel s else sink_Close s);;
               returns (sink, err)
     end)%go m = Done (Ok sink, None) m' /\
    sink_ID sink m' = sm_ID meta /\
    List_ m' = Ok [meta] /\ Open m' (sm_ID meta) = Ok (meta, concat_strings ps).
Proof.
  intros Hp meta. simpl. unfold bind at 1, inmem_Create. rewrite Hp. simpl.
  set (s0 := mkInmemSnapshotSink _ _).
  assert ((iss_sinks m ++ [s0]) !! length (iss_sinks m) = Some s0) as Hs.
  { rewrite lookup_app_r by done. by rewrite Nat.sub_diag. }
  exists (length (iss_sinks m)). eexists. unfold bind at 1.
  rewrite (write_all_inmem _ _ _ _ _ s0) by done.
  split; [destruct cancelled; reflexivity|].
  assert (length (iss_sinks m) < length (iss_sinks m ++ [s0]))%nat as Hlen
    by (rewrite length_app; simpl; lia).
  unfold inmem_List, inmem_Open, inmem_latest; simpl.
  rewrite list_lookup_insert_eq by done. simpl. rewrite decide_False by tauto.
  split_and!; reflexivity.
Qed.
End InmemRoundTrip.

Lemma InmemSnapshotStore_contents_witness :
  exists m', Open (SnapshotStore := @InmemSnapshotStore_SnapshotStore bitsMsgPack inmemPeerCodec) m'
    "3-5-8" = Ok (mkSnapshotMeta 1 "3-5-8" 5 3 (encode_bits (@nil string))
                    (mkConfiguration []) 2 3, "abc").
Proof.
  destruct (@InmemSnapshotStore_contents bitsMsgPack inmemPeerCodec NewInmemSnapshotStore
              8 5 3 (mkConfiguration []) 2 (encode_bits (@nil string)) ["a"; "bc"] false)
    as (sink & m' & _ & _ & _ & HO); [reflexivity|].
  exists m'. exact HO.
Defined.
