(* ===== verification/Disk.v ===== *)
(** * Files, checksums and buffers

    What [file_snapshot.go] uses of the operating system and of Go's library: one
    directory of files and of directories of files, [crc64] with the ECMA
    polynomial, [bufio.Writer] and the suffixes of [strings].  Every call of the
    operating system may fail, or be the last thing the process does. *)
From Stdlib Require Import Ascii.
From S2P Require Import Prelude Types.

(** ** [strings] *)

Fixpoint strings_HasSuffix (s suffix : string) : bool :=
  bool_decide (s = suffix) ||
  match s with
  | EmptyString => false
  | String _ s' => strings_HasSuffix s' suffix
  end.

(** The string without the suffix. *)
Fixpoint cut_suffix (s suffix : string) : string :=
  if decide (s = suffix) then ""
  else
    match s with
    | EmptyString => ""
    | String c s' => String c (cut_suffix s' suffix)
    end.

Definition strings_TrimSuffix (s suffix : string) : string :=
  if strings_HasSuffix s suffix then cut_suffix s suffix else s.

(** ** [hash/crc64] *)

Definition crc64_ECMA : N := 0xC96C5795D7870F42.

Definition crc64_shift (crc : N) : N :=
  if N.testbit crc 0 then N.lxor (N.shiftr crc 1) crc64_ECMA else N.shiftr crc 1.

(** One byte: an entry of the table is the eight shifts of its index. *)
Definition crc64_byte (crc : N) (b : ascii) : N :=
  let t := Nat.iter 8 crc64_shift (N.lxor (N.land crc 255) (N_of_ascii b)) in
  N.lxor t (N.shiftr crc 8).

Fixpoint crc64_bytes (crc : N) (p : string) : N :=
  match p with
  | EmptyString => crc
  | String b p => crc64_bytes (crc64_byte crc b) p
  end.

Definition u64_not (x : N) : N := N.lxor x (N.ones 64).

(** [crc64.Update] *)
Definition crc64_Update (crc : N) (p : string) : N := u64_not (crc64_bytes (u64_not crc) p).

(** [Sum(nil)]: the checksum as eight bytes, the highest first. *)
Definition crc64_Sum (crc : N) : string :=
  foldr String ""
    ((fun i => ascii_of_N (N.land (N.shiftr crc i) 255)) <$>
       [56%N; 48%N; 40%N; 32%N; 24%N; 16%N; 8%N; 0%N]).

(** ** The directory *)

Inductive entry :=
  | entry_file (contents : string)
  | entry_dir (files : gmap string string).

(** A call that does not succeed: how much of it happens, and the error it returns
    or, for [None], the end of the process. *)
Record fault := mkFault {
  ft_done : nat;
  ft_err : option error
}.

(** The entries, and what happens to the following calls. *)
Record disk := mkDisk {
  dk_entries : gmap string entry;
  dk_faults : list (option fault)
}.

Definition with_entries (es : gmap string entry) (d : disk) : disk :=
  mkDisk es (dk_faults d).

(** A call of the operating system: [None] when it succeeds, after which the caller
    lets its effect happen; [part] is the effect of a call that does not. *)
Definition syscall (part : nat -> gmap string entry -> gmap string entry)
    : M disk (option error) := fun d =>
  match dk_faults d with
  | [] => Done None d
  | None :: fs => Done None (mkDisk (dk_entries d) fs)
  | Some (mkFault n err) :: fs =>
      let d := mkDisk (part n (dk_entries d)) fs in
      match err with
      | Some e => Done (Some e) d
      | None => Panicked d
      end
  end.

Definition untouched (n : nat) (es : gmap string entry) : gmap string entry := es.

(** [os.MkdirAll] *)
Definition os_MkdirAll (name : string) : M disk (option error) := (
  err <- syscall untouched;;
  match err with
  | Some e => returns (Some e)
  | None => fun d =>
      match dk_entries d !! name with
      | None => Done None (with_entries (<[name := entry_dir ∅]> (dk_entries d)) d)
      | Some (entry_dir _) => Done None d
      | Some (entry_file _) => Done (Some (Errorf "not a directory")) d
      end
  end)%go.

(** [os.Create] of a file in a directory. *)
Definition os_Create (dir name : string) : M disk (option error) := (
  err <- syscall untouched;;
  match err with
  | Some e => returns (Some e)
  | None => fun d =>
      match dk_entries d !! dir with
      | Some (entry_dir fs) =>
          Done None (with_entries (<[dir := entry_dir (<[name := ""]> fs)]> (dk_entries d)) d)
      | _ => Done (Some (Errorf "no such file or directory")) d
      end
  end)%go.

(** [os.Create] and [os.Remove] of a file beside the directories. *)
Definition os_CreateHere (name : string) : M disk (option error) := (
  err <- syscall untouched;;
  match err with
  | Some e => returns (Some e)
  | None => fun d =>
      match dk_entries d !! name with
      | Some (entry_dir _) => Done (Some (Errorf "is a directory")) d
      | _ => Done None (with_entries (<[name := entry_file ""]> (dk_entries d)) d)
      end
  end)%go.

Definition os_Remove (name : string) : M disk (option error) := (
  err <- syscall untouched;;
  match err with
  | Some e => returns (Some e)
  | None => fun d =>
      match dk_entries d !! name with
      | None => Done (Some (Errorf "no such file or directory")) d
      | Some (entry_dir fs) =>
          if decide (fs = ∅)
          then Done None (with_entries (delete name (dk_entries d)) d)
          else Done (Some (Errorf "directory not empty")) d
      | Some (entry_file _) => Done None (with_entries (delete name (dk_entries d)) d)
      end
  end)%go.

(** Bytes added to the end of a file. *)
Definition append_file (dir name p : string) (es : gmap string entry) : gmap string entry :=
  match es !! dir with
  | Some (entry_dir fs) =>
      match fs !! name with
      | Some contents => <[dir := entry_dir (<[name := contents +:+ p]> fs)]> es
      | None => es
      end
  | _ => es
  end.

(** [File.Write]: the number of bytes written, and the error. *)
Definition file_Write (dir name p : string) : M disk (nat * option error) := fun d =>
  match syscall (fun n => append_file dir name (String.substring 0 n p)) d with
  | Done (Some e) d' =>
      Done (match dk_faults d with
            | Some f :: _ => Nat.min (ft_done f) (String.length p)
            | _ => 0
            end, Some e) d'
  | Done None d' =>
      Done (String.length p, None)
        (with_entries (append_file dir name p (dk_entries d')) d')
  | Panicked d' => Panicked d'
  end.

(** [File.Sync], [File.Close], [File.Seek]: nothing but their error. *)
Definition file_call : M disk (option error) := syscall untouched.

(** The contents of an open file; an unlinked file cannot be seen any more. *)
Definition file_contents (dir name : string) (es : gmap string entry) : option string :=
  match es !! dir with
  | Some (entry_dir fs) => fs !! name
  | _ => None
  end.

(** [File.Stat]: the size. *)
Definition file_Stat (dir name : string) : M disk (result Z) := (
  err <- syscall untouched;;
  match err with
  | Some e => returns (Err e)
  | None => fun d =>
      Done (Ok (Z.of_nat (String.length (default "" (file_contents dir name (dk_entries d)))))) d
  end)%go.

(** [os.Open]: the file must exist. *)
Definition os_Open (dir name : string) : M disk (option error) := (
  err <- syscall untouched;;
  match err with
  | Some e => returns (Some e)
  | None => fun d =>
      match file_contents dir name (dk_entries d) with
      | Some _ => Done None d
      | None => Done (Some (Errorf "no such file or directory")) d
      end
  end)%go.

(** Reading an open file to its end. *)
Definition file_Read (dir name : string) : M disk (result string) := (
  err <- syscall untouched;;
  match err with
  | Some e => returns (Err e)
  | None => fun d => Done (Ok (default "" (file_contents dir name (dk_entries d)))) d
  end)%go.

(** [os.Rename] of a directory: it replaces an empty directory only. *)
Definition os_Rename (old new : string) : M disk (option error) := (
  err <- syscall untouched;;
  match err with
  | Some e => returns (Some e)
  | None => fun d =>
      match dk_entries d !! old with
      | None => Done (Some (Errorf "no such file or directory")) d
      | Some e =>
          match dk_entries d !! new with
          | Some (entry_file _) => Done (Some (Errorf "file exists")) d
          | Some (entry_dir fs) =>
              if decide (fs = ∅ \/ new = old)
              then Done None (with_entries (<[new := e]> (delete old (dk_entries d))) d)
              else Done (Some (Errorf "directory not empty")) d
          | None => Done None (with_entries (<[new := e]> (delete old (dk_entries d))) d)
          end
      end
  end)%go.

(** The names of a map in their order. *)
Definition string_le (a b : string) : Prop := String.leb a b = true.

#[export] Instance string_le_dec a b : Decision (string_le a b).
Proof. unfold string_le. apply _. Defined.

Definition sorted_names {A} (m : gmap string A) : list string :=
  merge_sort string_le (map_to_list m).*1.

(** [os.RemoveAll] of a directory or a file: its files go one by one. *)
Definition remove_some (name : string) (n : nat) (es : gmap string entry)
    : gmap string entry :=
  match es !! name with
  | Some (entry_dir fs) =>
      <[name := entry_dir (foldr delete fs (take n (sorted_names fs)))]> es
  | _ => es
  end.

Definition os_RemoveAll (name : string) : M disk (option error) := (
  err <- syscall (remove_some name);;
  match err with
  | Some e => returns (Some e)
  | None => modify (fun d => with_entries (delete name (dk_entries d)) d);; returns None
  end)%go.

(** [os.ReadDir]: the names in their order, and whether each is a directory. *)
Definition os_ReadDir : M disk (result (list (string * bool))) := (
  err <- syscall untouched;;
  match err with
  | Some e => returns (Err e)
  | None => fun d =>
      Done (Ok ((fun name => (name, match dk_entries d !! name with
                                    | Some (entry_dir _) => true
                                    | _ => false
                                    end)) <$> sorted_names (dk_entries d))) d
  end)%go.

(** ** [bufio.Writer] *)

(** What is in the buffer, and the error that stays. *)
Record bufioWriter := mkBufioWriter {
  bw_buf : string;
  bw_err : option error
}.

Definition bufioSize : nat := 4096.

Section Bufio.
Context {St : Type} (wr : string -> M St (nat * option error)).

Definition bufio_Flush (b : bufioWriter) : M St (bufioWriter * option error) :=
  match bw_err b with
  | Some e => returns (b, Some e)
  | None =>
      if decide (bw_buf b = "") then returns (b, None)
      else (
        res <- wr (bw_buf b);;
        match res with
        | (n, Some e) =>
            returns (mkBufioWriter
              (String.substring n (String.length (bw_buf b) - n) (bw_buf b)) (Some e), Some e)
        | (n, None) => returns (mkBufioWriter "" None, None)
        end)%go
  end.

(** The loop of [Write]; it ends after at most two rounds, because a round either
    fails, or empties the buffer, or writes all of [p]. *)
Fixpoint bufio_loop (fuel : nat) (b : bufioWriter) (p : string) (nn : nat)
    : M St (bufioWriter * string * nat) :=
  match fuel with
  | O => returns (b, p, nn)
  | S fuel =>
      if decide ((bufioSize - String.length (bw_buf b) < String.length p)%nat /\
                 bw_err b = None) then (
        if decide (bw_buf b = "") then
          res <- wr p;;
          let '(n, err) := res in
          bufio_loop fuel (mkBufioWriter "" err)
            (String.substring n (String.length p - n) p) (nn + n)
        else
          let n := (bufioSize - String.length (bw_buf b))%nat in
          res <- bufio_Flush (mkBufioWriter (bw_buf b +:+ String.substring 0 n p) None);;
          bufio_loop fuel res.1 (String.substring n (String.length p - n) p) (nn + n))%go
      else returns (b, p, nn)
  end.

Definition bufio_Write (b : bufioWriter) (p : string)
    : M St (bufioWriter * (nat * option error)) := (
  res <- bufio_loop 3 b p 0;;
  let '(b, p, nn) := res in
  match bw_err b with
  | Some e => returns (b, (nn, Some e))
  | None =>
      returns (mkBufioWriter (bw_buf b +:+ p) None, ((nn + String.length p)%nat, None))
  end)%go.
End Bufio.

(** The check value of the polynomial. *)
Example crc64_check : crc64_Update 0 "123456789" = 0x995DC9BBDF1939FA%N.
Proof. vm_compute. reflexivity. Qed.

(** ** Facts *)

Lemma append_length (a b : string) : String.length (a +:+ b) = (String.length a + String.length b)%nat.
Proof. induction a as [|c a IH]; simpl; [done|by rewrite IH]. Qed.

Lemma strings_HasSuffix_app (a b : string) : strings_HasSuffix (a +:+ b) b = true.
Proof.
  induction a as [|c a IH].
  - change ("" +:+ b) with b. destruct b; cbn [strings_HasSuffix]; by rewrite bool_decide_eq_true_2.
  - change (String c a +:+ b) with (String c (a +:+ b)). cbn [strings_HasSuffix].
    apply orb_true_intro. by right.
Qed.

Lemma strings_TrimSuffix_app (a b : string) : strings_TrimSuffix (a +:+ b) b = a.
Proof.
  unfold strings_TrimSuffix. rewrite strings_HasSuffix_app.
  induction a as [|c a IH].
  - change ("" +:+ b) with b. destruct b; cbn [cut_suffix]; by rewrite decide_True.
  - change (String c a +:+ b) with (String c (a +:+ b)). cbn [cut_suffix]. rewrite decide_False.
    + f_equal. exact IH.
    + intros He. apply (f_equal String.length) in He. cbn [String.length] in He.
      rewrite append_length in He. lia.
Qed.

(** Names that differ in their last character from the suffix do not have it. *)
Fixpoint last_char (s : string) : option ascii :=
  match s with
  | EmptyString => None
  | String c EmptyString => Some c
  | String _ s' => last_char s'
  end.

Lemma strings_HasSuffix_last (s b : string) :
  b <> "" -> strings_HasSuffix s b = true -> last_char s = last_char b.
Proof.
  intros Hb. induction s as [|c s IH]; cbn [strings_HasSuffix].
  - rewrite orb_false_r. by intros <-%bool_decide_eq_true.
  - intros [<-%bool_decide_eq_true|Hs]%orb_true_iff; [done|].
    rewrite <- (IH Hs). destruct s; [|done]. simpl in Hs. rewrite orb_false_r in Hs.
    by apply bool_decide_eq_true in Hs as <-.
Qed.

Lemma last_char_app (a b : string) : b <> "" -> last_char (a +:+ b) = last_char b.
Proof.
  intros Hb. induction a as [|c a IH]; [done|].
  change (String c a +:+ b) with (String c (a +:+ b)). cbn [last_char]. rewrite IH. destruct (a +:+ b) eqn:He; [|done]. destruct a; [|done]. by simpl in He.
Qed.

Lemma substring_all (p : string) : String.substring 0 (String.length p) p = p.
Proof. induction p as [|c p IH]; simpl; [done|by rewrite IH]. Qed.

Lemma substring_split n (p : string) :
  (n <= String.length p)%nat ->
  String.substring 0 n p +:+ String.substring n (String.length p - n) p = p.
Proof.
  revert n. induction p as [|c p IH]; intros [|n] Hn; cbn [String.length] in Hn; try done; try lia.
  - exact (substring_all (String c p)).
  - specialize (IH n ltac:(lia)). cbn [String.length Nat.sub String.substring].
    change (String c ?x +:+ ?y) with (String c (x +:+ y)). by rewrite IH.
Qed.

Lemma substring_length_le n m (p : string) : (n + m <= String.length p)%nat ->
  String.length (String.substring n m p) = m.
Proof.
  revert n m. induction p as [|c p IH]; intros [|n] [|m] Hn; simpl in *; try done; try lia.
  - f_equal. apply IH. simpl. lia.
  - apply IH. lia.
  - apply IH. lia.
Qed.

(** *** Checksums *)

Lemma crc64_bytes_app crc (a b : string) :
  crc64_bytes crc (a +:+ b) = crc64_bytes (crc64_bytes crc a) b.
Proof. revert crc. induction a as [|c a IH]; intros crc; [done|]. apply IH. Qed.

Lemma u64_not_not x : u64_not (u64_not x) = x.
Proof. unfold u64_not. by rewrite N.lxor_assoc, N.lxor_nilpotent, N.lxor_0_r. Qed.

Lemma crc64_Update_app crc (a b : string) :
  crc64_Update crc (a +:+ b) = crc64_Update (crc64_Update crc a) b.
Proof. unfold crc64_Update. by rewrite u64_not_not, crc64_bytes_app. Qed.

Lemma append_assoc (a b c : string) : (a +:+ b) +:+ c = a +:+ (b +:+ c).
Proof. induction a as [|x a IH]; [done|]. change (String x ((a +:+ b) +:+ c) = String x (a +:+ (b +:+ c))). by rewrite IH. Qed.

Lemma append_empty (a : string) : a +:+ "" = a.
Proof. induction a as [|x a IH]; [done|]. change (String x (a +:+ "") = String x a). by rewrite IH. Qed.

(** *** Buffers

    [P s c] says that the underlying writer has received [c] so far. *)
Section BufioFacts.
Context {St : Type} (wr : string -> M St (nat * option error)).
Context (P : St -> string -> Prop).
Context (wr_ok : forall p s c n s',
  P s c -> wr p s = Done (n, None) s' -> n = String.length p /\ P s' (c +:+ p)).

Lemma bufio_Flush_ok b s c b' s' :
  P s c -> bufio_Flush wr b s = Done (b', None) s' ->
  bw_err b = None /\ b' = mkBufioWriter "" None /\ P s' (c +:+ bw_buf b).
Proof.
  intros HP. unfold bufio_Flush. destruct (bw_err b) eqn:He; [done|]. case_decide as Hb.
  - intros [= <- <-]. rewrite Hb, append_empty. destruct b. simpl in *. by subst.
  - intros ([n [e|]] & s1 & Hw & HE)%bind_Done; [done|]. injection HE as <- <-.
    by destruct (wr_ok _ _ _ _ _ HP Hw).
Qed.

Lemma bufio_Flush_failed b s b' e s' :
  bufio_Flush wr b s = Done (b', Some e) s' -> bw_err b' = Some e.
Proof.
  unfold bufio_Flush. destruct (bw_err b) eqn:He; [by intros [= <- <- <-]|].
  case_decide; [done|]. intros ([n [e'|]] & s1 & Hw & HE)%bind_Done; [|done]. by injection HE as <- <- <-.
Qed.

Lemma bufio_loop_ok fuel b p nn s c b' p' nn' s' :
  P s c -> (String.length (bw_buf b) <= bufioSize)%nat ->
  bufio_loop wr fuel b p nn s = Done (b', p', nn') s' -> bw_err b' = None ->
  bw_err b = None /\ (nn' + String.length p' = nn + String.length p)%nat /\
  exists c', P s' c' /\ c' +:+ bw_buf b' +:+ p' = c +:+ bw_buf b +:+ p.
Proof.
  revert b p nn s c. induction fuel as [|fuel IH]; intros b p nn s c HP Hle; cbn [bufio_loop].
  { intros [= <- <- <- <-] He. eauto. }
  case_decide as Hc; [|intros [= <- <- <- <-] He; eauto].
  destruct Hc as [Hlt Hn]. case_decide as Hb.
  - intros ([n [e|]] & s1 & Hw & HE)%bind_Done He.
    + exfalso. revert HE He. generalize (String.substring n (String.length p - n) p), (nn + n)%nat.
      intros q m. destruct fuel; cbn [bufio_loop].
      * by intros [= <- _ _ _].
      * rewrite decide_False by (intros [_ [=]]). by intros [= <- _ _ _].
    + destruct (wr_ok _ _ _ _ _ HP Hw) as [-> HP1].
      destruct (IH (mkBufioWriter "" None) _ _ _ _ HP1 (Nat.le_0_l _) HE He) as (_ & Hlen & c' & HP' & Hc').
      split; [done|]. rewrite Nat.sub_diag in *. split.
      { rewrite substring_length_le in Hlen by lia. lia. }
      exists c'. split; [done|]. rewrite Hc', Hb. cbn [bw_buf].
      assert (String.substring (String.length p) 0 p = "") as ->.
      { generalize (substring_length_le (String.length p) 0 p ltac:(lia)).
        by destruct (String.substring (String.length p) 0 p). }
      by rewrite !append_empty.
  - intros ([b1 [e|]] & s1 & Hw & HE)%bind_Done He.
    + exfalso. apply bufio_Flush_failed in Hw. revert HE He. cbn [fst].
      match goal with |- context [bufio_loop wr fuel b1 ?x ?y] => generalize x, y end.
      intros q m. destruct fuel; cbn [bufio_loop].
      * intros [= <- _ _ _]. congruence.
      * rewrite decide_False by (rewrite Hw; intros [_ [=]]). intros [= <- _ _ _]. congruence.
    + apply (bufio_Flush_ok _ _ _ _ _ HP) in Hw as (_ & -> & HP1). cbn [fst bw_buf] in *.
      destruct (IH (mkBufioWriter "" None) _ _ _ _ HP1 (Nat.le_0_l _) HE He) as (_ & Hlen & c' & HP' & Hc').
      set (n := (bufioSize - String.length (bw_buf b))%nat) in *.
      rewrite substring_length_le in Hlen by lia.
      split; [done|]. split; [lia|]. exists c'. split; [done|]. rewrite Hc'. cbn [bw_buf].
      change ("" +:+ ?x) with x. rewrite !append_assoc. by rewrite substring_split by lia.
Qed.

(** The loop of [Write] ends for want of data or because of an error, never because
    its fuel runs out. *)
Definition fits (b : bufioWriter) (p : string) : Prop :=
  bw_err b <> None \/ (String.length (bw_buf b) + String.length p <= bufioSize)%nat.

Lemma bufio_loop_error fuel b p nn s : bw_err b <> None ->
  bufio_loop wr fuel b p nn s = Done (b, p, nn) s.
Proof.
  intros He. destruct fuel; cbn [bufio_loop]; [done|]. by rewrite decide_False by (by intros [_ ?]).
Qed.

Lemma bufio_loop_fits fuel b p nn s :
  (String.length (bw_buf b) + String.length p <= bufioSize)%nat ->
  bufio_loop wr fuel b p nn s = Done (b, p, nn) s.
Proof.
  intros Hle. destruct fuel; cbn [bufio_loop]; [done|]. by rewrite decide_False by (intros [? _]; lia).
Qed.

Lemma bufio_loop_empty fuel b p nn s c b' p' nn' s' :
  P s c -> bw_buf b = "" ->
  bufio_loop wr (S fuel) b p nn s = Done (b', p', nn') s' -> fits b' p'.
Proof.
  intros HP Hb. cbn [bufio_loop]. case_decide as Hc.
  2:{ intros [= <- <- _ _]. unfold fits. rewrite Hb in *. cbn [String.length] in *.
      destruct (decide (bw_err b = None)); [right|by left].
      destruct (decide (String.length p <= bufioSize)%nat); [done|]. destruct Hc. split; [lia|done]. }
  rewrite decide_True by done. intros ([n [e|]] & s1 & Hw & HE)%bind_Done.
  - rewrite bufio_loop_error in HE by done. injection HE as <- _ _ _. by left.
  - destruct (wr_ok _ _ _ _ _ HP Hw) as [-> _].
    assert (String.length (String.substring (String.length p) (String.length p - String.length p) p)
      = 0)%nat as Hz.
    { rewrite Nat.sub_diag. apply substring_length_le. lia. }
    rewrite bufio_loop_fits in HE by (rewrite Hz; cbn [String.length bw_buf]; lia). injection HE as <- <- _ _.
    right. rewrite Hz. cbn [String.length bw_buf]. lia.
Qed.

Lemma bufio_loop_enough b p nn s c b' p' nn' s' :
  P s c -> (String.length (bw_buf b) <= bufioSize)%nat ->
  bufio_loop wr 3 b p nn s = Done (b', p', nn') s' -> fits b' p'.
Proof.
  intros HP Hle. destruct (decide (bw_buf b = "")) as [Hb|Hb]; [by eapply bufio_loop_empty|].
  cbn [bufio_loop].
  case_decide as Hc.
  2:{ intros [= <- <- _ _]. destruct (decide (bw_err b = None)); [right|by left].
      destruct (decide (String.length p <= bufioSize - String.length (bw_buf b))%nat); [lia|].
      destruct Hc. split; [lia|done]. }
  rewrite decide_False by done. intros ([b1 [e|]] & s1 & Hw & HE)%bind_Done.
  - apply bufio_Flush_failed in Hw. cbn [fst] in HE.
    rewrite decide_False in HE by (rewrite Hw; intros [_ [=]]). injection HE as <- _ _ _.
    left. congruence.
  - apply (bufio_Flush_ok _ _ _ _ _ HP) in Hw as (_ & -> & HP1).
    by eapply (bufio_loop_empty 1); [exact HP1| |exact HE].
Qed.

Lemma bufio_Write_ok b p s c b' n s' :
  P s c -> (String.length (bw_buf b) <= bufioSize)%nat ->
  bufio_Write wr b p s = Done (b', (n, None)) s' ->
  bw_err b = None /\ bw_err b' = None /\ n = String.length p /\
  (String.length (bw_buf b') <= bufioSize)%nat /\
  exists c', P s' c' /\ c' +:+ bw_buf b' = c +:+ bw_buf b +:+ p.
Proof.
  intros HP Hle. unfold bufio_Write. intros ([[b1 p1] nn1] & s1 & HL & HE)%bind_Done.
  destruct (bw_err b1) as [e|] eqn:He; [done|]. injection HE as <- <- <-.
  pose proof (bufio_loop_enough _ _ _ _ _ _ _ _ _ HP Hle HL) as Hf.
  destruct (bufio_loop_ok _ _ _ _ _ _ _ _ _ _ HP Hle HL He) as (Hb & Hlen & c' & HP' & Hc').
  split_and!; [done|done|lia| |by exists c'].
  simpl. rewrite append_length. destruct Hf; [congruence|lia].
Qed.

Lemma bufio_Write_failed b p s b' n e s' :
  bufio_Write wr b p s = Done (b', (n, Some e)) s' -> bw_err b' = Some e.
Proof.
  unfold bufio_Write. intros ([[b1 p1] nn1] & s1 & HL & HE)%bind_Done.
  destruct (bw_err b1) eqn:He; [|done]. by injection HE as <- _ <- _.
Qed.
End BufioFacts.
