(* ===== verification/FileSnapshots.v ===== *)
(** * Snapshots in files, [file_snapshot.go]

    [FileSnapshotStore] over the directory of [Disk]: a snapshot is a directory that
    is written under a temporary name and renamed when it is complete. *)
From Stdlib Require Import Ascii.
From S2P Require Import Prelude Types Util Codec Configuration Config State SnapshotStores Disk.

(** ** Definitions *)

Definition testPath : string := "permTest".
Definition metaFilePath : string := "meta.json".
Definition stateFilePath : string := "state.bin".
Definition tmpSuffix : string := ".tmp".

Record fileSnapshotMeta := mkFileMeta {
  fm_SnapshotMeta : SnapshotMeta;
  fm_CRC : string
}.

(** [encoding/json] on the metadata. *)
Class MetaJSON := {
  json_Encode : fileSnapshotMeta -> string;
  json_Decode : string -> result fileSnapshotMeta
}.

Class MetaJSONLaws `{MetaJSON} := {
  json_Decode_Encode m : json_Decode (json_Encode m) = Ok m
}.

Record FileSnapshotSink := mkFileSink {
  fk_dir : string;
  fk_meta : fileSnapshotMeta;
  fk_stateHash : N;
  fk_buffered : bufioWriter;
  fk_closed : bool
}.

(** The directory and the sinks created so far. *)
Record FileSnapshotStore := mkFileStore {
  fss_disk : disk;
  fss_retain : Z;
  fss_noSync : bool;
  fss_sinks : list FileSnapshotSink
}.

Definition on_disk {A} (m : M disk A) : M FileSnapshotStore A := fun f =>
  match m (fss_disk f) with
  | Done a d => Done a (mkFileStore d (fss_retain f) (fss_noSync f) (fss_sinks f))
  | Panicked d => Panicked (mkFileStore d (fss_retain f) (fss_noSync f) (fss_sinks f))
  end.

Definition with_sinks (ks : list FileSnapshotSink) (f : FileSnapshotStore)
    : FileSnapshotStore := mkFileStore (fss_disk f) (fss_retain f) (fss_noSync f) ks.

Definition set_hash (h : N) (k : FileSnapshotSink) : FileSnapshotSink :=
  mkFileSink (fk_dir k) (fk_meta k) h (fk_buffered k) (fk_closed k).

Definition set_buffered (b : bufioWriter) (k : FileSnapshotSink) : FileSnapshotSink :=
  mkFileSink (fk_dir k) (fk_meta k) (fk_stateHash k) b (fk_closed k).

Definition set_closed (k : FileSnapshotSink) : FileSnapshotSink :=
  mkFileSink (fk_dir k) (fk_meta k) (fk_stateHash k) (fk_buffered k) true.

(** [s.meta.Size = stat.Size()] and [s.meta.CRC = s.stateHash.Sum(nil)] *)
Definition set_sums (size : Z) (crc : string) (k : FileSnapshotSink) : FileSnapshotSink :=
  let m := fm_SnapshotMeta (fk_meta k) in
  mkFileSink (fk_dir k)
    (mkFileMeta
       (mkSnapshotMeta (sm_Version m) (sm_ID m) (sm_Index m) (sm_Term m) (sm_Peers m)
          (sm_Configuration m) (sm_ConfigurationIndex m) size) crc)
    (fk_stateHash k) (fk_buffered k) (fk_closed k).

Definition no_sink : FileSnapshotSink :=
  mkFileSink "" (mkFileMeta zero_meta "") 0 (mkBufioWriter "" None) true.

Definition get_sink (i : nat) : M FileSnapshotStore FileSnapshotSink := fun f =>
  Done (default no_sink (fss_sinks f !! i)) f.

Definition update_sink (i : nat) (g : FileSnapshotSink -> FileSnapshotSink)
    : M FileSnapshotStore unit :=
  modify (fun f => with_sinks (alter g i (fss_sinks f)) f).

Section FileSnapshots.
Context `{MetaJSON} `{MsgPack} `{PeerCodec}.
Abbreviation store := FileSnapshotStore.

(** *** Opening the store *)

Definition testPermissions : M store (option error) := (
  err <- on_disk (os_CreateHere testPath);;
  match err with
  | Some e => returns (Some e)
  | None =>
      err <- on_disk file_call;;
      match err with
      | Some e => returns (Some e)
      | None => on_disk (os_Remove testPath)
      end
  end)%go.

(** The store over the directory [d], which the call creates when it is missing. *)
Definition NewFileSnapshotStoreWithLogger (d : disk) (retain : Z) (noSync : bool)
    : outcome store (option error) :=
  let f := mkFileStore d retain noSync [] in
  if decide (retain < 1)%Z then Done (Some (Errorf "must retain at least one snapshot")) f
  else (
    err <- on_disk (syscall untouched);;
    match err with
    | Some e =>
        if decide (e <> Errorf "file exists")
        then returns (Some (Errorf ("snapshot path not accessible: " +:+ Error e)))
        else
          err <- testPermissions;;
          returns (match err with
                   | Some e => Some (Errorf ("permissions test failed: " +:+ Error e))
                   | None => None
                   end)
    | None =>
        err <- testPermissions;;
        returns (match err with
                 | Some e => Some (Errorf ("permissions test failed: " +:+ Error e))
                 | None => None
                 end)
    end)%go f.

(** *** Writing a snapshot *)

(** The underlying writer of [s.buffered]: the file and then the hash. *)
Definition multi_Write (i : nat) (p : string) : M store (nat * option error) := (
  k <- get_sink i;;
  res <- on_disk (file_Write (fk_dir k) stateFilePath p);;
  match res with
  | (n, Some e) => returns (n, Some e)
  | (n, None) =>
      update_sink i (fun k => set_hash (crc64_Update (fk_stateHash k) p) k);;
      returns (n, None)
  end)%go.

Definition file_sink_Write (i : nat) (p : string) : M store (result Z) := (
  k <- get_sink i;;
  res <- bufio_Write (multi_Write i) (fk_buffered k) p;;
  update_sink i (set_buffered res.1);;
  returns (match res.2 with
           | (n, Some e) => Err e
           | (n, None) => Ok (Z.of_nat n)
           end))%go.

(** [fh.Sync()] unless [noSync] *)
Definition sync : M store (option error) := (
  f <- get_state;;
  if fss_noSync f then returns None else on_disk file_call)%go.

Definition writeMeta (i : nat) : M store (option error) := (
  k <- get_sink i;;
  err <- on_disk (os_Create (fk_dir k) metaFilePath);;
  match err with
  | Some e => returns (Some e)
  | None =>
      let wr p := on_disk (file_Write (fk_dir k) metaFilePath p) in
      err <- (
        res <- bufio_Write wr (mkBufioWriter "" None) (json_Encode (fk_meta k));;
        match res with
        | (_, (_, Some e)) => returns (Some e)
        | (b, (_, None)) =>
            res <- bufio_Flush wr b;;
            match res.2 with
            | Some e => returns (Some e)
            | None => sync
            end
        end);;
      on_disk file_call;;
      returns err
  end)%go.

Definition finalize (i : nat) : M store (option error) := (
  k <- get_sink i;;
  res <- bufio_Flush (multi_Write i) (fk_buffered k);;
  update_sink i (set_buffered res.1);;
  match res.2 with
  | Some e => returns (Some e)
  | None =>
      err <- sync;;
      match err with
      | Some e => returns (Some e)
      | None =>
          stat <- on_disk (file_Stat (fk_dir k) stateFilePath);;
          err <- on_disk file_call;;
          match err, stat with
          | Some e, _ => returns (Some e)
          | None, Err e => returns (Some e)
          | None, Ok size =>
              update_sink i (fun k => set_sums size (crc64_Sum (fk_stateHash k)) k);;
              returns None
          end
      end
  end)%go.

(** *** Reading *)

Definition readMeta (name : string) : M store (result fileSnapshotMeta) := (
  err <- on_disk (os_Open name metaFilePath);;
  match err with
  | Some e => returns (Err e)
  | None =>
      res <- on_disk (file_Read name metaFilePath);;
      on_disk file_call;;
      returns (match res with Err e => Err e | Ok text => json_Decode text end)
  end)%go.

(** [snapMetaSlice.Less] *)
Definition snapMeta_Less (a b : fileSnapshotMeta) : bool :=
  let a := fm_SnapshotMeta a in
  let b := fm_SnapshotMeta b in
  if decide (sm_Term a <> sm_Term b) then bool_decide (sm_Term a < sm_Term b)%N
  else if decide (sm_Index a <> sm_Index b) then bool_decide (sm_Index a < sm_Index b)%N
  else String.ltb (sm_ID a) (sm_ID b).

(** The order of [sort.Reverse]. *)
Definition newer_first (a b : fileSnapshotMeta) : Prop := snapMeta_Less a b = false.

#[export] Instance newer_first_dec a b : Decision (newer_first a b).
Proof. unfold newer_first. apply _. Defined.

(** The loop of [getSnapshots] over the entries of the directory. *)
Fixpoint collect_metas (entries : list (string * bool)) : M store (list fileSnapshotMeta) :=
  match entries with
  | [] => returns []
  | (dirName, isDir) :: rest =>
      if negb isDir || strings_HasSuffix dirName tmpSuffix then collect_metas rest
      else (
        res <- readMeta dirName;;
        match res with
        | Err _ => collect_metas rest
        | Ok meta =>
            let v := sm_Version (fm_SnapshotMeta meta) in
            if decide (v < SnapshotVersionMin \/ SnapshotVersionMax < v)%Z
            then collect_metas rest
            else metas <- collect_metas rest;; returns (meta :: metas)
        end)%go
  end.

Definition getSnapshots : M store (result (list fileSnapshotMeta)) := (
  res <- on_disk os_ReadDir;;
  match res with
  | Err e => returns (Err e)
  | Ok entries =>
      metas <- collect_metas entries;;
      returns (Ok (merge_sort newer_first metas))
  end)%go.

(** The loop of [List]. *)
Fixpoint list_loop (retain : Z) (metas : list fileSnapshotMeta) (snapMeta : list SnapshotMeta)
    : list SnapshotMeta :=
  match metas with
  | [] => snapMeta
  | meta :: rest =>
      let snapMeta := snapMeta ++ [fm_SnapshotMeta meta] in
      if decide (Z.of_nat (length snapMeta) = retain) then snapMeta
      else list_loop retain rest snapMeta
  end.

Definition file_List : M store (result (list SnapshotMeta)) := (
  f <- get_state;;
  res <- getSnapshots;;
  returns (match res with
           | Err e => Err e
           | Ok snapshots => Ok (list_loop (fss_retain f) snapshots [])
           end))%go.

Definition file_Open (id : string) : M store (result (SnapshotMeta * string)) := (
  res <- readMeta id;;
  match res with
  | Err e => returns (Err e)
  | Ok meta =>
      err <- on_disk (os_Open id stateFilePath);;
      match err with
      | Some e => returns (Err e)
      | None =>
          res <- on_disk (file_Read id stateFilePath);;
          match res with
          | Err e => on_disk file_call;; returns (Err e)
          | Ok contents =>
              if decide (fm_CRC meta <> crc64_Sum (crc64_Update 0 contents))
              then on_disk file_call;; returns (Err (Errorf "CRC mismatch"))
              else
                err <- on_disk file_call;;
                match err with
                | Some e => on_disk file_call;; returns (Err e)
                | None => returns (Ok (fm_SnapshotMeta meta, contents))
                end
          end
      end
  end)%go.

(** *** The end of a snapshot *)

Fixpoint reap_loop (snapshots : list fileSnapshotMeta) : M store (option error) :=
  match snapshots with
  | [] => returns None
  | snapshot :: rest => (
      err <- on_disk (os_RemoveAll (sm_ID (fm_SnapshotMeta snapshot)));;
      match err with
      | Some e => returns (Some e)
      | None => reap_loop rest
      end)%go
  end.

(** [NewFileSnapshotStore] made sure that [retain] is at least 1. *)
Definition ReapSnapshots : M store (option error) := (
  f <- get_state;;
  res <- getSnapshots;;
  match res with
  | Err e => returns (Some e)
  | Ok snapshots => reap_loop (drop (Z.to_nat (fss_retain f)) snapshots)
  end)%go.

(** [Close] from the rename on. *)
Definition publish (i : nat) : M store (option error) := (
  k <- get_sink i;;
  err <- on_disk (os_Rename (fk_dir k) (strings_TrimSuffix (fk_dir k) tmpSuffix));;
  match err with
  | Some e => returns (Some e)
  | None =>
      f <- get_state;;
      if fss_noSync f then ReapSnapshots
      else
        err <- on_disk (syscall untouched);;
        match err with
        | Some e => returns (Some e)
        | None =>
            err <- on_disk file_call;;
            match err with
            | Some e => on_disk file_call;; returns (Some e)
            | None =>
                err <- ReapSnapshots;;
                on_disk file_call;;
                returns err
            end
        end
  end)%go.

Definition file_sink_Close (i : nat) : M store (option error) := (
  k <- get_sink i;;
  if fk_closed k then returns None
  else
    update_sink i set_closed;;
    err <- finalize i;;
    match err with
    | Some e =>
        delErr <- on_disk (os_RemoveAll (fk_dir k));;
        match delErr with
        | Some e => returns (Some e)
        | None => returns (Some e)
        end
    | None =>
        err <- writeMeta i;;
        match err with
        | Some e => returns (Some e)
        | None => publish i
        end
    end)%go.

Definition file_sink_Cancel (i : nat) : M store (option error) := (
  k <- get_sink i;;
  if fk_closed k then returns None
  else
    update_sink i set_closed;;
    err <- finalize i;;
    match err with
    | Some e => returns (Some e)
    | None => on_disk (os_RemoveAll (fk_dir k))
    end)%go.

Definition file_Create (msec version : Z) (index term : N) (configuration : Configuration)
    (configurationIndex : N) : M store (result nat) :=
  if decide (version <> 1)%Z then
    returns (Err (Errorf ("unsupported snapshot version " +:+ pretty version)))
  else
    let name := snapshotName msec term index in
    let path := name +:+ tmpSuffix in (
    err <- on_disk (os_MkdirAll path);;
    match err with
    | Some e => returns (Err e)
    | None =>
        match encodePeers configuration with
        | Err _ => panic
        | Ok peers =>
            f <- get_state;;
            let i := length (fss_sinks f) in
            let meta := mkSnapshotMeta version name index term peers configuration
                          configurationIndex 0 in
            modify (with_sinks (fss_sinks f ++
              [mkFileSink path (mkFileMeta meta "") 0 (mkBufioWriter "" None) false]));;
            err <- writeMeta i;;
            match err with
            | Some e => returns (Err e)
            | None =>
                err <- on_disk (os_Create path stateFilePath);;
                match err with
                | Some e => returns (Err e)
                | None => returns (Ok i)
                end
            end
        end
    end)%go.

(** A call whose outcome is wanted, not what it does to the disk. *)
Definition outcome_of {A} (m : M store (result A)) (f : store) : result A :=
  match m f with
  | Done res _ => res
  | Panicked _ => Err (Errorf "killed")
  end.

#[export] Instance FileSnapshotStore_SnapshotStore : SnapshotStore FileSnapshotStore := {|
  SnapshotSink := nat;
  Create := file_Create;
  sink_Write := file_sink_Write;
  sink_Close := file_sink_Close;
  sink_Cancel := file_sink_Cancel;
  sink_ID i f := sm_ID (fm_SnapshotMeta (fk_meta (default no_sink (fss_sinks f !! i))));
  List_ := outcome_of file_List;
  Open f id := outcome_of (file_Open id) f
|}.
End FileSnapshots.

(** ** What a call leaves alone *)

Definition entries (f : FileSnapshotStore) : gmap string entry := dk_entries (fss_disk f).

Definition sink_of (i : nat) (f : FileSnapshotStore) : FileSnapshotSink :=
  default no_sink (fss_sinks f !! i).

(** A call of the operating system that touches the entry [t] only. *)
Definition only (t : string) (d d' : disk) : Prop :=
  forall n, n <> t -> dk_entries d' !! n = dk_entries d !! n.

#[export] Instance only_preorder t : PreOrder (only t).
Proof. split; [intros d n Hn; done|intros d1 d2 d3 O1 O2 n Hn; by rewrite O2, O1]. Qed.

(** Work on the sink [i], whose directory is [t], that touches this directory only. *)
Record touched (t : string) (i : nat) (f f' : FileSnapshotStore) : Prop := {
  tch_dir : fk_dir (sink_of i f') = t;
  tch_entries n : n <> t -> entries f' !! n = entries f !! n;
  tch_retain : fss_retain f' = fss_retain f;
  tch_noSync : fss_noSync f' = fss_noSync f;
  tch_closed : fk_closed (sink_of i f') = fk_closed (sink_of i f)
}.

Definition stays {A} (t : string) (i : nat) (m : M FileSnapshotStore A) : Prop :=
  forall f, fk_dir (sink_of i f) = t ->
  match m f with Done _ f' => touched t i f f' | Panicked f' => touched t i f f' end.

Create HintDb disk.

Lemma touched_trans t i f1 f2 f3 : touched t i f1 f2 -> touched t i f2 f3 -> touched t i f1 f3.
Proof.
  intros [A1 A2 A3 A4 A5] [B1 B2 B3 B4 B5]. split; [done|intros n Hn; by rewrite B2, A2|congruence..].
Qed.

Lemma stays_bind {A B} t i (m : M FileSnapshotStore A) (g : A -> M FileSnapshotStore B) :
  stays t i m -> (forall a, stays t i (g a)) -> stays t i (bind m g).
Proof.
  intros Hm Hg f Hf. unfold bind. specialize (Hm f Hf). destruct (m f) as [a f1|]; [|done].
  specialize (Hg a f1 (tch_dir _ _ _ _ Hm)). destruct (g a f1); by eapply touched_trans.
Qed.

Lemma stays_returns {A} t i (a : A) : stays t i (returns a).
Proof. intros f Hf. by split. Qed.

Lemma stays_state t i : stays t i (@get_state FileSnapshotStore).
Proof. intros f Hf. by split. Qed.

Lemma stays_sink {A} t i (g : FileSnapshotSink -> M FileSnapshotStore A) :
  (forall k, fk_dir k = t -> stays t i (g k)) -> stays t i (bind (get_sink i) g).
Proof. intros Hg f Hf. exact (Hg _ Hf f Hf). Qed.

Lemma stays_update t i g :
  (forall k, fk_dir (g k) = fk_dir k /\ fk_closed (g k) = fk_closed k) ->
  stays t i (update_sink i g).
Proof.
  intros Hg f Hf. simpl.
  split; [|done..|]; unfold sink_of in *; cbn [with_sinks fss_sinks];
    rewrite list_lookup_alter_eq; destruct (fss_sinks f !! i) as [k|]; simpl in *; try done;
    destruct (Hg k); congruence.
Qed.

Lemma stays_on_disk {A} t i (m : M disk A) : frames (only t) m -> stays t i (on_disk m).
Proof.
  intros Hm f Hf. unfold on_disk. specialize (Hm (fss_disk f)). destruct (m _); by split.
Qed.

(** *** The calls *)

Lemma only_syscall t part :
  (forall n es m, m <> t -> part n es !! m = es !! m) -> frames (only t) (syscall part).
Proof.
  intros Hp d. unfold syscall. destruct (dk_faults d) as [|[[n [e|]]|] fs]; try done;
    intros m Hm; simpl; by apply Hp.
Qed.

Lemma only_call t : frames (only t) file_call.
Proof. by apply only_syscall. Qed.

Lemma only_untouched t : frames (only t) (syscall untouched).
Proof. by apply only_syscall. Qed.

(** [io] splits a call into the system call and its effect. *)
Ltac io :=
  apply frames_bind; [apply _| |];
  [first [apply only_untouched | apply only_syscall; intros ? es ? ?]
  |intros [?|]; [apply frames_returns; apply _|]; intros d].

Lemma append_file_ne dir name p es n : n <> dir -> append_file dir name p es !! n = es !! n.
Proof.
  intros Hn. unfold append_file. destruct (es !! dir) as [[]|]; try done.
  destruct (_ !! name); [|done]. by rewrite lookup_insert_ne.
Qed.

Lemma only_Create t name : frames (only t) (os_Create t name).
Proof. io. destruct (_ !! t) as [[]|]; try done. intros n Hn. simpl. by rewrite lookup_insert_ne. Qed.

Lemma only_MkdirAll t : frames (only t) (os_MkdirAll t).
Proof. io. destruct (_ !! t) as [[]|]; try done. intros n Hn. simpl. by rewrite lookup_insert_ne. Qed.

Lemma only_Write t name p : frames (only t) (file_Write t name p).
Proof.
  intros d. unfold file_Write.
  pose proof (only_syscall t (fun n => append_file t name (String.substring 0 n p))
    ltac:(intros; by apply append_file_ne) d) as Hs.
  destruct (syscall _ d) as [[e|] d'|d']; try done. intros n Hn. simpl.
  rewrite append_file_ne by done. by apply Hs.
Qed.

Lemma only_Stat t dir name : frames (only t) (file_Stat dir name).
Proof. by io. Qed.

Lemma only_Open t dir name : frames (only t) (os_Open dir name).
Proof. io. by destruct (file_contents _ _ _). Qed.

Lemma only_Read t dir name : frames (only t) (file_Read dir name).
Proof. by io. Qed.

Lemma only_RemoveAll t : frames (only t) (os_RemoveAll t).
Proof.
  io.
  - unfold remove_some. destruct (es !! t) as [[]|]; try done. by rewrite lookup_insert_ne.
  - intros n Hn. simpl. by rewrite lookup_delete_ne.
Qed.

#[export] Hint Resolve stays_returns stays_state stays_on_disk only_call only_untouched only_Create
  only_Write only_Stat only_Open only_Read only_RemoveAll : disk.

(** [stay] follows a computation on a sink down to its calls. *)
Ltac stay :=
  repeat first
    [ progress intros
    | solve [eauto 3 with disk]
    | apply stays_sink; intros ? ->
    | apply stays_bind
    | apply stays_update; intros; split; reflexivity
    | case_match ].

Section Stays.
Context `{MetaJSON} `{MsgPack} `{PeerCodec}.

Lemma stays_bufio_Flush t i wr b :
  (forall p, stays t i (wr p)) -> stays t i (bufio_Flush wr b).
Proof. intros Hw. unfold bufio_Flush. stay. Qed.

Lemma stays_bufio_loop t i wr fuel b p nn :
  (forall p, stays t i (wr p)) -> stays t i (bufio_loop wr fuel b p nn).
Proof.
  intros Hw. revert b p nn. induction fuel as [|fuel IH]; intros b p nn; cbn [bufio_loop]; [stay|].
  case_decide; [|stay]. case_decide; apply stays_bind; auto using stays_bufio_Flush; stay.
Qed.

Lemma stays_bufio_Write t i wr b p :
  (forall p, stays t i (wr p)) -> stays t i (bufio_Write wr b p).
Proof.
  intros Hw. unfold bufio_Write. apply stays_bind; [by apply stays_bufio_loop|]. stay.
Qed.

Lemma stays_multi_Write t i p : stays t i (multi_Write i p).
Proof.
  unfold multi_Write. apply stays_sink. intros k Hk. rewrite Hk. stay.
Qed.

#[local] Hint Resolve stays_multi_Write stays_bufio_Write stays_bufio_Flush : disk.

Lemma stays_sync t i : stays t i sync.
Proof. unfold sync. stay. Qed.

#[local] Hint Resolve stays_sync : disk.

Lemma stays_Write t i p : stays t i (file_sink_Write i p).
Proof.
  unfold file_sink_Write. apply stays_sink. intros k Hk. apply stays_bind; [eauto with disk|]. stay.
Qed.

Lemma stays_writeMeta t i : stays t i (writeMeta i).
Proof.
  unfold writeMeta. apply stays_sink. intros k Hk. rewrite Hk.
  apply stays_bind; [eauto with disk|]. intros [e|]; [stay|].
  apply stays_bind; [|stay]. apply stays_bind; [eauto 6 with disk|].
  intros [b [n [e|]]]; [stay|]. apply stays_bind; [eauto 6 with disk|]. stay.
Qed.

Lemma stays_finalize t i : stays t i (finalize i).
Proof.
  unfold finalize. apply stays_sink. intros k Hk. rewrite Hk.
  apply stays_bind; [eauto with disk|]. stay.
Qed.

Lemma stays_Done {A} t i (m : M FileSnapshotStore A) f a f' :
  stays t i m -> fk_dir (sink_of i f) = t -> m f = Done a f' -> touched t i f f'.
Proof. intros Hm Hf HE. specialize (Hm f Hf). by rewrite HE in Hm. Qed.
End Stays.

(** ** What reaches the files *)

Section Contents.
Context `{MetaJSON} `{!MetaJSONLaws} `{MsgPack} `{PeerCodec}.

Lemma syscall_Done part d d' :
  syscall part d = Done None d' -> dk_entries d' = dk_entries d.
Proof.
  unfold syscall. destruct (dk_faults d) as [|[[n [e|]]|] fs]; try done; by intros [= <-].
Qed.

Lemma syscall_untouched d a d' :
  syscall untouched d = Done a d' -> dk_entries d' = dk_entries d.
Proof.
  unfold syscall. destruct (dk_faults d) as [|[[n [e|]]|] fs]; try done; by intros [= <- <-].
Qed.

Lemma file_Write_Done t name p d n d' fs c :
  dk_entries d !! t = Some (entry_dir fs) -> fs !! name = Some c ->
  file_Write t name p d = Done (n, None) d' ->
  n = String.length p /\
  dk_entries d' = <[t := entry_dir (<[name := c +:+ p]> fs)]> (dk_entries d).
Proof.
  intros Ht Hn. unfold file_Write. destruct (syscall _ d) as [[e|] d1|] eqn:HS; try done.
  apply syscall_Done in HS. intros [= <- <-]. split; [done|]. simpl. rewrite HS.
  unfold append_file. by rewrite Ht, Hn.
Qed.

Lemma on_disk_Done {A} (m : M disk A) f a f' :
  on_disk m f = Done a f' ->
  m (fss_disk f) = Done a (fss_disk f') /\ fss_sinks f' = fss_sinks f /\
  fss_retain f' = fss_retain f /\ fss_noSync f' = fss_noSync f.
Proof. unfold on_disk. destruct (m _); [|done]. by intros [= <- <-]. Qed.

(** The state file of the sink [i] holds [c], and its checksum is known. *)
Definition received (t : string) (m : fileSnapshotMeta) (b : bufioWriter) (closed : bool)
    (fs : gmap string string) (i : nat) (f : FileSnapshotStore) (c : string) : Prop :=
  fss_sinks f !! i = Some (mkFileSink t m (crc64_Update 0 c) b closed) /\
  entries f !! t = Some (entry_dir (<[stateFilePath := c]> fs)).

Lemma update_sink_Done i g f u f' k :
  fss_sinks f !! i = Some k -> update_sink i g f = Done u f' ->
  fss_sinks f' !! i = Some (g k) /\ entries f' = entries f.
Proof.
  intros Hk [= <- <-]. cbn [with_sinks fss_sinks]. by rewrite list_lookup_alter_eq, Hk.
Qed.

Lemma multi_Write_ok t m b cl fs i p f c n f' :
  received t m b cl fs i f c -> multi_Write i p f = Done (n, None) f' ->
  n = String.length p /\ received t m b cl fs i f' (c +:+ p).
Proof.
  intros [Hk He]. unfold multi_Write, get_sink, bind at 1. rewrite Hk. cbn [default fk_dir].
  intros ([n1 [e|]] & f1 & Hw & HE)%bind_Done; [done|].
  apply on_disk_Done in Hw as (Hw & Hs1 & _ & _).
  destruct (file_Write_Done _ _ _ _ _ _ _ c He ltac:(by rewrite lookup_insert_eq) Hw) as [Hn He1].
  apply bind_Done in HE as (u & f2 & HU & [= <- <-]).
  rewrite <- Hs1 in Hk. destruct (update_sink_Done _ _ _ _ _ _ Hk HU) as [Hk2 He2].
  split; [done|]. split.
  - rewrite Hk2. unfold set_hash. simpl. by rewrite crc64_Update_app.
  - rewrite He2. unfold entries. rewrite He1, lookup_insert_eq. by rewrite insert_insert_eq.
Qed.

(** A sink that was given [data], part of which may still be in the buffer. *)
Definition open_sink (t : string) (m : fileSnapshotMeta) (closed : bool)
    (fs : gmap string string) (i : nat) (f : FileSnapshotStore) (data : string) : Prop :=
  exists c b, received t m b closed fs i f c /\ bw_err b = None /\
    (String.length (bw_buf b) <= bufioSize)%nat /\ c +:+ bw_buf b = data.

(** A sink one of whose writes has failed. *)
Definition broken_sink (t : string) (closed : bool) (i : nat) (f : FileSnapshotStore) : Prop :=
  exists k, fss_sinks f !! i = Some k /\ fk_dir k = t /\ fk_closed k = closed /\
    bw_err (fk_buffered k) <> None.

Lemma sink_exists t i f : t <> "" -> fk_dir (sink_of i f) = t ->
  exists k, fss_sinks f !! i = Some k /\ fk_dir k = t.
Proof.
  unfold sink_of. destruct (fss_sinks f !! i) as [k|]; simpl; [eauto|]. by intros Ht <-.
Qed.

Lemma open_sink_dir t m cl fs i f data : open_sink t m cl fs i f data -> fk_dir (sink_of i f) = t.
Proof. intros (c & b & [Hk _] & _). unfold sink_of. by rewrite Hk. Qed.

Lemma broken_sink_dir t cl i f : broken_sink t cl i f -> fk_dir (sink_of i f) = t.
Proof. intros (k & Hk & Hd & _ & _). unfold sink_of. by rewrite Hk. Qed.

(** Writing to a sink: the data arrives, or the sink stays broken. *)
Lemma Write_open t m cl fs i f data p res f' :
  t <> "" -> open_sink t m cl fs i f data -> file_sink_Write i p f = Done res f' ->
  res = Ok (Z.of_nat (String.length p)) /\ open_sink t m cl fs i f' (data +:+ p) \/
  broken_sink t cl i f'.
Proof.
  intros Ht Hop. pose proof (open_sink_dir _ _ _ _ _ _ _ Hop) as Hd.
  destruct Hop as (c & b & Hr & Hb & Hle & <-). pose proof Hr as [Hk He].
  unfold file_sink_Write, get_sink, bind at 1. rewrite Hk. cbn [default fk_buffered].
  intros ([b' [n [e|]]] & f1 & Hw & HE)%bind_Done; apply bind_Done in HE as (u & f2 & HU & [= <- <-]).
  - right. pose proof (bufio_Write_failed _ _ _ _ _ _ _ _ Hw) as Hb'.
    pose proof (stays_Done _ _ _ _ _ _ (stays_bufio_Write t i _ b p (stays_multi_Write t i)) Hd Hw) as [Hd1 _ _ _ Hc1].
    destruct (sink_exists _ _ _ Ht Hd1) as (k1 & Hk1 & Hdk).
    unfold sink_of in Hc1. rewrite Hk1, Hk in Hc1.
    destruct (update_sink_Done _ _ _ _ _ _ Hk1 HU) as [Hk2 _].
    eexists. split; [exact Hk2|]. simpl in *. split_and!; [done|done|congruence].
  - left. destruct (bufio_Write_ok _ (received t m b cl fs i)
      ltac:(intros; by eapply multi_Write_ok) _ _ _ _ _ _ _ Hr Hle Hw)
      as (_ & Hb' & -> & Hle' & c' & [Hk1 He1] & Hc').
    destruct (update_sink_Done _ _ _ _ _ _ Hk1 HU) as [Hk2 He2]. split; [done|].
    exists c', b'. split; [split; [done|by rewrite He2]|]. split; [done|]. split; [done|].
    cbn [fst]. by rewrite Hc', append_assoc.
Qed.

Lemma Write_broken t cl i f p res f' :
  broken_sink t cl i f -> file_sink_Write i p f = Done res f' -> broken_sink t cl i f'.
Proof.
  intros (k & Hk & Hd & Hc & Hb).
  unfold file_sink_Write, get_sink, bind at 1. rewrite Hk. cbn [default].
  unfold bufio_Write. intros ([b' r] & f1 & Hw & HE)%bind_Done.
  apply bind_Done in Hw as ([[b1 p1] nn1] & f0 & HL & HW).
  rewrite bufio_loop_error in HL by done. injection HL as <- <- <- <-.
  destruct (bw_err (fk_buffered k)) as [e|] eqn:He; [|done]. injection HW as <- _ <-.
  apply bind_Done in HE as (u & f2 & HU & [= <- <-]).
  destruct (update_sink_Done _ _ _ _ _ _ Hk HU) as [Hk2 _].
  eexists. split; [exact Hk2|]. simpl. split_and!; [done|done|congruence].
Qed.

Lemma sync_Done f f' : sync f = Done None f' ->
  fss_sinks f' = fss_sinks f /\ entries f' = entries f.
Proof.
  unfold sync, bind, get_state. destruct (fss_noSync f); [by intros [= <-]|].
  intros (Hc & Hs & _)%on_disk_Done. apply syscall_Done in Hc. by unfold entries; rewrite Hc.
Qed.

Lemma file_call_Done f a f' : on_disk file_call f = Done a f' ->
  fss_sinks f' = fss_sinks f /\ entries f' = entries f.
Proof. intros (Hc & Hs & _)%on_disk_Done. split; [done|]. by eapply syscall_untouched. Qed.

Lemma finalize_ok t m cl fs i f data f' :
  open_sink t m cl fs i f data -> finalize i f = Done None f' ->
  fss_sinks f' !! i =
    Some (set_sums (Z.of_nat (String.length data)) (crc64_Sum (crc64_Update 0 data))
            (mkFileSink t m (crc64_Update 0 data) (mkBufioWriter "" None) cl)) /\
  entries f' !! t = Some (entry_dir (<[stateFilePath := data]> fs)).
Proof.
  intros (c & b & Hr & Hb & Hle & <-). pose proof Hr as [Hk He].
  unfold finalize, get_sink, bind at 1. rewrite Hk. cbn [default fk_buffered fk_dir].
  intros ([b' [e|]] & f1 & HF & HE)%bind_Done; apply bind_Done in HE as (u & f2 & HU & HE); [done|].
  destruct (bufio_Flush_ok _ (received t m b cl fs i) ltac:(intros; by eapply multi_Write_ok)
    _ _ _ _ _ Hr HF) as (_ & -> & Hk1 & He1).
  destruct (update_sink_Done _ _ _ _ _ _ Hk1 HU) as [Hk2 He2]. cbn [snd] in HE.
  apply bind_Done in HE as ([e|] & f3 & HS & HE); [done|].
  apply sync_Done in HS as [Hs3 He3].
  apply bind_Done in HE as (stat & f4 & HSt & HE).
  apply on_disk_Done in HSt as (HSt & Hs4 & _).
  apply bind_Done in HE as ([e|] & f5 & HC & HE); [done|].
  apply file_call_Done in HC as [Hs5 He5]. destruct stat as [size|e]; [|done].
  apply bind_Done in HE as (u' & f6 & HU2 & [= <-]).
  unfold file_Stat in HSt. apply bind_Done in HSt as ([e|] & d & HSt & HE); [done|].
  apply syscall_Done in HSt. injection HE as <- Hd.
  assert (entries f4 = entries f1) as He4.
  { unfold entries. rewrite <- Hd, HSt. fold (entries f3). by rewrite He3, He2. }
  assert (fss_sinks f5 !! i = Some (mkFileSink t m (crc64_Update 0 (c +:+ bw_buf b))
    (mkBufioWriter "" None) cl)) as Hk5 by (rewrite Hs5, Hs4, Hs3; exact Hk2).
  destruct (update_sink_Done _ _ _ _ _ _ Hk5 HU2) as [Hk6 He6]. split.
  - rewrite Hk6. f_equal. unfold set_sums. simpl. f_equal. f_equal. f_equal.
    unfold file_contents. rewrite HSt. fold (entries f3). rewrite He3, He2, He1.
    by rewrite lookup_insert_eq.
  - by rewrite He6, He5, He4.
Qed.

Lemma finalize_broken t cl i f f' : broken_sink t cl i f -> finalize i f <> Done None f'.
Proof.
  intros (k & Hk & Hd & _ & Hb). unfold finalize, get_sink, bind at 1. rewrite Hk.
  change (default no_sink (Some k)) with k.
  unfold bufio_Flush. destruct (bw_err (fk_buffered k)); [|done].
  unfold bind, returns, update_sink, modify. cbn. congruence.
Qed.

Lemma writeMeta_ok i f f' k fs :
  fss_sinks f !! i = Some k -> entries f !! fk_dir k = Some (entry_dir fs) ->
  writeMeta i f = Done None f' ->
  fss_sinks f' = fss_sinks f /\
  entries f' !! fk_dir k = Some (entry_dir (<[metaFilePath := json_Encode (fk_meta k)]> fs)).
Proof.
  intros Hk He. unfold writeMeta, get_sink, bind at 1. rewrite Hk.
  change (default no_sink (Some k)) with k.
  intros ([e|] & f1 & HC & HE)%bind_Done; [done|]. apply on_disk_Done in HC as (HC & Hs1 & _).
  unfold os_Create in HC. apply bind_Done in HC as ([e|] & d & HS & HC); [done|].
  apply syscall_Done in HS. rewrite HS in HC. fold (entries f) in HC. rewrite He in HC.
  injection HC as HC.
  apply bind_Done in HE as (err & f2 & HW & HE). apply bind_Done in HE as (a & f3 & HC2 & [= -> <-]).
  set (P := fun f' c => fss_sinks f' = fss_sinks f /\
    entries f' !! fk_dir k = Some (entry_dir (<[metaFilePath := c]> fs))).
  assert (forall p f c n f', P f c ->
    on_disk (file_Write (fk_dir k) metaFilePath p) f = Done (n, None) f' ->
    n = String.length p /\ P f' (c +:+ p)) as Hwr.
  { intros p g c n g' [Hs Hg] (HW' & Hs' & _)%on_disk_Done.
    destruct (file_Write_Done _ _ _ _ _ _ _ c Hg ltac:(by rewrite lookup_insert_eq) HW') as [-> Hg'].
    split; [done|]. split; [congruence|].
    unfold entries. by rewrite Hg', lookup_insert_eq, insert_insert_eq. }
  assert (P f1 "") as HP1.
  { split; [done|]. unfold entries. rewrite <- HC. cbn [with_entries dk_entries].
    by rewrite lookup_insert_eq. }
  apply bind_Done in HW as ([b [n [e|]]] & f4 & HB & HW); [done|].
  destruct (bufio_Write_ok _ P Hwr (mkBufioWriter "" None) _ _ _ _ _ _ HP1 (Nat.le_0_l _) HB)
    as (_ & _ & _ & _ & c' & HP4 & Hc').
  apply bind_Done in HW as ([b5 [e|]] & f5 & HF & HW); [done|].
  destruct (bufio_Flush_ok _ P Hwr _ _ _ _ _ HP4 HF) as (_ & _ & [Hs5 He5]).
  apply sync_Done in HW as [Hs2 He2]. apply file_call_Done in HC2 as [Hs3 He3].
  split; [by rewrite Hs3, Hs2|]. rewrite He3, He2, He5. by rewrite Hc'.
Qed.
End Contents.

(** ** What is on record *)

(** *** The order *)

Lemma string_compare_lt_trans (a b c : string) :
  String.compare a b = Lt -> String.compare b c = Lt -> String.compare a c = Lt.
Proof.
  revert b c. induction a as [|x a IH]; intros [|y b] [|z c]; simpl; try done.
  unfold Ascii.compare.
  destruct (N.compare_spec (N_of_ascii x) (N_of_ascii y)) as [E1|L1|G1]; try done;
    destruct (N.compare_spec (N_of_ascii y) (N_of_ascii z)) as [E2|L2|G2]; try done; intros C1 C2.
  - rewrite E1, E2, N.compare_refl. by eapply IH.
  - rewrite E1. by rewrite (proj2 (N.compare_lt_iff _ _) L2).
  - rewrite <- E2. by rewrite (proj2 (N.compare_lt_iff _ _) L1).
  - by rewrite (proj2 (N.compare_lt_iff _ _) (N.lt_trans _ _ _ L1 L2)).
Qed.

Lemma string_compare_sym (a b : string) : String.compare b a = CompOpp (String.compare a b).
Proof. apply String.compare_antisym. Qed.

(** Newest first, as a lexicographic order. *)
Lemma newer_first_spec a b :
  newer_first a b <->
  let a := fm_SnapshotMeta a in let b := fm_SnapshotMeta b in
  (sm_Term b < sm_Term a)%N \/ sm_Term a = sm_Term b /\
  ((sm_Index b < sm_Index a)%N \/ sm_Index a = sm_Index b /\
   String.compare (sm_ID a) (sm_ID b) <> Lt).
Proof.
  unfold newer_first, snapMeta_Less, String.ltb. cbv zeta.
  case_decide as Ht; [rewrite bool_decide_eq_false; lia|].
  case_decide as Hi; [rewrite bool_decide_eq_false; lia|].
  destruct (String.compare _ _) eqn:Hc; split; intros Hx; try done; try (right; split; [lia|]);
    try (right; split; [lia|done]); destruct Hx as [|[_ [|[_ Hx]]]]; try lia; done.
Qed.

#[export] Instance newer_first_total : Total newer_first.
Proof.
  intros a b. rewrite !newer_first_spec. cbv zeta.
  rewrite (string_compare_sym (sm_ID (fm_SnapshotMeta b)) (sm_ID (fm_SnapshotMeta a))).
  destruct (N.lt_trichotomy (sm_Term (fm_SnapshotMeta a)) (sm_Term (fm_SnapshotMeta b))) as [|[|]];
    [by right; left| |by left; left].
  destruct (N.lt_trichotomy (sm_Index (fm_SnapshotMeta a)) (sm_Index (fm_SnapshotMeta b)))
    as [|[|]]; [right; right; split; [done|by left]| |left; right; split; [done|by left]].
  destruct (String.compare _ _); [left|left|right]; right; (split; [done|]); right; by split.
Qed.

#[export] Instance newer_first_trans : Transitive newer_first.
Proof.
  intros a b c. rewrite !newer_first_spec. cbv zeta. intros H1 H2.
  destruct H1 as [?|[E1 H1]], H2 as [?|[E2 H2]]; try (left; lia).
  right. split; [congruence|]. destruct H1 as [?|[E3 H1]], H2 as [?|[E4 H2]]; try (left; lia).
  right. split; [congruence|]. intros Hlt. rewrite string_compare_sym in H1, H2.
  destruct (String.compare (sm_ID (fm_SnapshotMeta b)) (sm_ID (fm_SnapshotMeta a))) eqn:C1; try done.
  - apply String.compare_eq_iff in C1. rewrite C1 in H2. by rewrite string_compare_sym, Hlt in H2.
  - destruct (String.compare (sm_ID (fm_SnapshotMeta c)) (sm_ID (fm_SnapshotMeta b))) eqn:C2; try done.
    + apply String.compare_eq_iff in C2. rewrite <- C2 in C1.
      by rewrite string_compare_sym, Hlt in C1.
    + pose proof (string_compare_lt_trans _ _ _ C2 C1) as C3.
      by rewrite string_compare_sym, Hlt in C3.
Qed.

(** Two different names are never equally old. *)
Lemma newer_first_strict a b :
  newer_first a b -> sm_ID (fm_SnapshotMeta a) <> sm_ID (fm_SnapshotMeta b) ->
  snapMeta_Less b a = true.
Proof.
  intros Ha Hid. destruct (snapMeta_Less b a) eqn:Hb; [done|].
  apply newer_first_spec in Ha, Hb. cbv zeta in Ha, Hb. exfalso.
  destruct Ha as [?|[E1 [?|[E2 H1]]]], Hb as [?|[E3 [?|[E4 H2]]]]; try lia.
  rewrite string_compare_sym in H2.
  destruct (String.compare _ _) eqn:C; try done. by apply String.compare_eq_iff in C.
Qed.

Lemma filter_sublist_length {A} (P : A -> Prop) `{forall x, Decision (P x)} (s l : list A) :
  sublist s l -> (length (filter P s) <= length (filter P l))%nat.
Proof. induction 1; rewrite ?filter_cons; repeat case_decide; simpl; lia. Qed.

Definition meta_ID (m : fileSnapshotMeta) : string := sm_ID (fm_SnapshotMeta m).

(** Whatever is beyond the first [r] of a sorted part has [r] newer ones in the
    whole. *)
Lemma beyond_retained (l s : list fileSnapshotMeta) r x :
  NoDup (meta_ID <$> l) -> sublist s l ->
  x ∈ drop r (merge_sort newer_first s) ->
  (r <= length (filter (fun y => snapMeta_Less x y = true) l))%nat.
Proof.
  intros Hnd Hs Hx. set (ms := merge_sort newer_first s) in *.
  assert (ms ≡ₚ s) as Hp by apply merge_sort_Permutation.
  assert (length (take r ms) = r) as Hr.
  { rewrite length_take. destruct (decide (length ms <= r)%nat); [|lia].
    rewrite drop_ge in Hx by done. by apply elem_of_nil in Hx. }
  assert (NoDup (meta_ID <$> ms)) as Hnd'.
  { rewrite Hp. eapply sublist_NoDup; [exact Hnd|]. by apply fmap_sublist. }
  assert (StronglySorted newer_first ms) as Hss.
  { apply Sorted_StronglySorted; [apply _|]. apply Sorted_merge_sort; apply _. }
  rewrite <- (take_drop r ms) in Hss, Hnd'. rewrite fmap_app in Hnd'.
  apply NoDup_app in Hnd' as (_ & Hdis & _).
  assert (forall y, y ∈ take r ms -> snapMeta_Less x y = true) as Hall.
  { intros y Hy. apply newer_first_strict.
    - by eapply StronglySorted_app_1_elem_of.
    - intros He. apply (Hdis (meta_ID y)); [by apply list_elem_of_fmap_2|].
      unfold meta_ID at 1. rewrite He. change (meta_ID x ∈ meta_ID <$> drop r ms).
      by apply list_elem_of_fmap_2. }
  rewrite <- Hr at 1. rewrite <- (filter_every (fun y => snapMeta_Less x y = true) (take r ms) Hall).
  etrans; [apply filter_sublist_length, sublist_take|].
  rewrite Hp. by apply filter_sublist_length.
Qed.

Section Records.
Context `{MetaJSON} `{!MetaJSONLaws} `{MsgPack} `{PeerCodec}.

(** The metadata that [getSnapshots] finds under a name when its reads succeed. *)
Definition readable (es : gmap string entry) (name : string) : option fileSnapshotMeta :=
  if strings_HasSuffix name tmpSuffix then None
  else
    match file_contents name metaFilePath es with
    | None => None
    | Some text =>
        match json_Decode text with
        | Err _ => None
        | Ok meta =>
            let v := sm_Version (fm_SnapshotMeta meta) in
            if decide (v < SnapshotVersionMin \/ SnapshotVersionMax < v)%Z then None
            else Some meta
        end
    end.

Definition on_record (es : gmap string entry) : list fileSnapshotMeta :=
  omap (readable es) (sorted_names es).

(** Calls that only read. *)
Definition same (f f' : FileSnapshotStore) : Prop :=
  entries f' = entries f /\ fss_sinks f' = fss_sinks f /\ fss_retain f' = fss_retain f /\
  fss_noSync f' = fss_noSync f.

#[export] Instance same_preorder : PreOrder same.
Proof. split; unfold same; [done|]. intros f1 f2 f3 (? & ? & ? & ?) (? & ? & ? & ?). split_and!; congruence. Qed.

Lemma same_on_disk {A} (m : M disk A) :
  frames (fun d d' => dk_entries d' = dk_entries d) m -> frames same (on_disk m).
Proof. intros Hm f. unfold on_disk. specialize (Hm (fss_disk f)). by destruct (m _). Qed.

Lemma keeps_untouched : frames (fun d d' => dk_entries d' = dk_entries d) (syscall untouched).
Proof. intros d. unfold syscall. by destruct (dk_faults d) as [|[[n [e|]]|] fs]. Qed.

Lemma same_Open dir name : frames same (on_disk (os_Open dir name)).
Proof.
  apply same_on_disk. apply frames_bind; [apply _|apply keeps_untouched|].
  intros [e|]; [apply frames_returns; apply _|]. intros d. by destruct (file_contents _ _ _).
Qed.

Lemma same_Read dir name : frames same (on_disk (file_Read dir name)).
Proof.
  apply same_on_disk. apply frames_bind; [apply _|apply keeps_untouched|].
  intros [e|]; [apply frames_returns; apply _|]. by intros d.
Qed.

Lemma same_ReadDir : frames same (on_disk os_ReadDir).
Proof.
  apply same_on_disk. apply frames_bind; [apply _|apply keeps_untouched|].
  intros [e|]; [apply frames_returns; apply _|]. by intros d.
Qed.

Lemma same_call : frames same (on_disk file_call).
Proof. apply same_on_disk, keeps_untouched. Qed.

#[local] Hint Resolve same_Open same_Read same_ReadDir same_call : disk.

Lemma same_readMeta name : frames same (readMeta name).
Proof.
  unfold readMeta. apply frames_bind; [apply _|eauto with disk|].
  intros [e|]; [apply frames_returns; apply _|].
  apply frames_bind; [apply _|eauto with disk|]. intros res.
  apply frames_bind; [apply _|eauto with disk|]. intros. apply frames_returns; apply _.
Qed.

Lemma os_Open_Done dir name d d' :
  os_Open dir name d = Done None d' -> is_Some (file_contents dir name (dk_entries d)).
Proof.
  unfold os_Open. intros ([e|] & d1 & HS & HE)%bind_Done; [done|].
  apply syscall_untouched in HS. rewrite HS in HE. by destruct (file_contents _ _ _).
Qed.

Lemma readMeta_Done name f meta f' :
  readMeta name f = Done (Ok meta) f' ->
  exists text, file_contents name metaFilePath (entries f) = Some text /\ json_Decode text = Ok meta.
Proof.
  unfold readMeta. intros ([e|] & f1 & HO & HE)%bind_Done; [done|].
  pose proof (frames_Done _ _ _ _ _ (same_Open _ _) HO) as (He1 & _).
  apply on_disk_Done in HO as (HO & _). apply os_Open_Done in HO as [text Ht].
  apply bind_Done in HE as (res & f2 & HR & HE). apply bind_Done in HE as (a & f3 & _ & [= HE _]).
  destruct res as [text'|e]; [|done]. exists text. split; [done|].
  apply on_disk_Done in HR as (HR & _). unfold file_Read in HR.
  apply bind_Done in HR as ([e|] & d & HS & [= HR _]).
  apply syscall_untouched in HS. rewrite HS in HR. fold (entries f1) in HR. rewrite He1 in HR.
  unfold entries in HR. rewrite Ht in HR. simpl in HR. by rewrite HR.
Qed.

Lemma same_collect l : frames same (collect_metas l).
Proof.
  induction l as [|[name isDir] l IH]; cbn [collect_metas]; [apply frames_returns; apply _|].
  destruct (negb isDir || _); [done|]. apply frames_bind; [apply _|apply same_readMeta|].
  intros [meta|e]; [|done]. cbv zeta. case_decide; [done|].
  apply frames_bind; [apply _|done|]. intros. apply frames_returns; apply _.
Qed.

Lemma collect_metas_sublist l f metas f' :
  collect_metas l f = Done metas f' -> sublist metas (omap (readable (entries f)) l.*1).
Proof.
  revert f metas f'. induction l as [|[name isDir] l IH]; intros f metas f'; cbn [collect_metas].
  { by intros [= <- _]. }
  rewrite fmap_cons. cbn [omap list_omap fst].
  destruct (negb isDir || strings_HasSuffix name tmpSuffix) eqn:Hs.
  { intros Hl%IH. destruct (readable _ _); [by apply sublist_cons|done]. }
  intros (res & f1 & HR & HE)%bind_Done.
  pose proof (frames_Done _ _ _ _ _ (same_readMeta _) HR) as (He1 & _).
  assert (forall f2 ms f3, entries f2 = entries f -> collect_metas l f2 = Done ms f3 ->
    sublist ms (omap (readable (entries f)) l.*1)) as IH'.
  { intros f2 ms f3 <-. apply IH. }
  destruct res as [meta|e].
  2:{ apply IH' in HE; [|done]. destruct (readable _ _); [by apply sublist_cons|done]. }
  cbv zeta in HE. apply readMeta_Done in HR as (text & Ht & Hd).
  apply orb_false_elim in Hs as [_ Hs]. case_decide as Hv.
  - apply IH' in HE; [|done]. destruct (readable _ _); [by apply sublist_cons|done].
  - apply bind_Done in HE as (ms & f2 & HE & [= <- _]). apply IH' in HE; [|done].
    assert (readable (entries f) name = Some meta) as ->; [|by apply sublist_skip].
    unfold readable. rewrite Hs, Ht, Hd. by rewrite decide_False.
Qed.

Lemma same_getSnapshots : frames same getSnapshots.
Proof.
  unfold getSnapshots. apply frames_bind; [apply _|eauto with disk|].
  intros [l|e]; [|apply frames_returns; apply _]. apply frames_bind; [apply _|apply same_collect|].
  intros. apply frames_returns; apply _.
Qed.

Lemma getSnapshots_Done f metas f' :
  getSnapshots f = Done (Ok metas) f' ->
  exists s, sublist s (on_record (entries f)) /\ metas = merge_sort newer_first s.
Proof.
  unfold getSnapshots. intros (res & f1 & HR & HE)%bind_Done.
  pose proof (frames_Done _ _ _ _ _ same_ReadDir HR) as (He1 & _).
  destruct res as [l|e]; [|done]. apply bind_Done in HE as (ms & f2 & HC & [= <- _]).
  exists ms. split; [|done]. apply collect_metas_sublist in HC. rewrite He1 in HC.
  apply on_disk_Done in HR as (HR & _). unfold os_ReadDir in HR.
  apply bind_Done in HR as ([e|] & d & HS & [= HR _]).
  apply syscall_untouched in HS. rewrite HS in HR. rewrite <- HR in HC.
  rewrite <- list_fmap_compose in HC. cbn in HC.
  unfold on_record. erewrite <- (list_fmap_id (sorted_names (entries f))). exact HC.
Qed.

(** The directories of [es'] are directories of [es], with at most the same files. *)
Definition shrunk (es es' : gmap string entry) : Prop :=
  forall n fs', es' !! n = Some (entry_dir fs') ->
  exists fs, es !! n = Some (entry_dir fs) /\ fs' ⊆ fs.

#[export] Instance shrunk_preorder : PreOrder shrunk.
Proof.
  split; [by intros es n fs ?; eauto|]. intros es1 es2 es3 S1 S2 n fs3 Hn.
  destruct (S2 _ _ Hn) as (fs2 & Hn2 & ?). destruct (S1 _ _ Hn2) as (fs1 & Hn1 & ?).
  exists fs1. split; [done|]. by etrans.
Qed.

Lemma foldr_delete_subseteq (fs : gmap string string) l : foldr delete fs l ⊆ fs.
Proof. induction l as [|n l IH]; [done|]. simpl. etrans; [apply delete_subseteq|done]. Qed.

Lemma shrunk_RemoveAll name :
  frames (fun d d' => shrunk (dk_entries d) (dk_entries d')) (os_RemoveAll name).
Proof.
  intros d. unfold os_RemoveAll, bind, syscall.
  assert (forall n, shrunk (dk_entries d) (remove_some name n (dk_entries d))) as Hr.
  { intros n m fs'. unfold remove_some. destruct (dk_entries d !! name) as [[]|] eqn:Hn; [eauto| |eauto].
    destruct (decide (m = name)) as [->|Hm]; [|rewrite lookup_insert_ne by done; eauto].
    rewrite lookup_insert_eq. intros [= <-]. eexists. split; [done|]. apply foldr_delete_subseteq. }
  assert (shrunk (dk_entries d) (delete name (dk_entries d))) as Hd.
  { intros m fs' Hm. apply lookup_delete_Some in Hm as [_ Hm]. eauto. }
  destruct (dk_faults d) as [|[[n [e|]]|] fs]; simpl; auto.
Qed.

(** Reaping touches the entries it is asked to remove only. *)
Definition spares (ids : list string) (f f' : FileSnapshotStore) : Prop :=
  (forall n, n ∉ ids -> entries f' !! n = entries f !! n) /\
  fss_retain f' = fss_retain f /\ shrunk (entries f) (entries f').

Lemma spares_trans ids f1 f2 f3 : spares ids f1 f2 -> spares ids f2 f3 -> spares ids f1 f3.
Proof.
  intros (A1 & A2 & A3) (B1 & B2 & B3). split_and!; [|congruence|by etrans].
  intros n Hn. by rewrite B1, A1.
Qed.

Lemma spares_same ids f f' : same f f' -> spares ids f f'.
Proof. intros (He & _ & Hr & Hn). split_and!; [by intros; rewrite He|done|by rewrite He]. Qed.

Lemma reap_loop_spares metas f :
  match reap_loop metas f with
  | Done _ f' => spares (meta_ID <$> metas) f f'
  | Panicked f' => spares (meta_ID <$> metas) f f'
  end.
Proof.
  revert f. induction metas as [|m metas IH]; intros f; cbn [reap_loop].
  { by apply spares_same. }
  assert (forall f1 f2, only (meta_ID m) (fss_disk f1) (fss_disk f2) ->
    fss_retain f2 = fss_retain f1 -> shrunk (entries f1) (entries f2) ->
    spares (meta_ID <$> m :: metas) f1 f2) as Hhead.
  { intros f1 f2 Ho Hr Hn. split_and!; [|done|done]. intros n Hi. apply Ho. intros ->. apply Hi.
    rewrite fmap_cons. left. }
  assert (forall f1 f2, spares (meta_ID <$> metas) f1 f2 ->
    spares (meta_ID <$> m :: metas) f1 f2) as Htail.
  { intros f1 f2 (S1 & S2 & S3). split_and!; [|done|done]. intros n Hi. apply S1.
    intros Hi'. apply Hi. rewrite fmap_cons. by right. }
  unfold bind. destruct (on_disk _ f) as [[e|] f1|f1] eqn:HR;
    (pose proof (only_RemoveAll (meta_ID m) (fss_disk f)) as Ho;
     pose proof (shrunk_RemoveAll (meta_ID m) (fss_disk f)) as Hsh; unfold on_disk in HR;
     change (sm_ID (fm_SnapshotMeta m)) with (meta_ID m) in HR;
     destruct (os_RemoveAll _ _) as [e' d|d]; try done).
  - injection HR as <- <-. by apply Hhead.
  - injection HR as -> <-. specialize (IH (mkFileStore d (fss_retain f) (fss_noSync f) (fss_sinks f))).
    revert IH. destruct (reap_loop metas _); intros IH;
      (eapply spares_trans; [|apply Htail, IH]; by apply Hhead).
  - injection HR as <-. by apply Hhead.
Qed.

(** Reaping in the directory [es]: an entry is left alone, or it is on record with
    [retain] newer ones on record. *)
Definition reaped (es : gmap string entry) (retain : Z) (es' : gmap string entry) : Prop :=
  shrunk es es' /\ forall n, es' !! n = es !! n \/
    exists x, x ∈ on_record es /\ meta_ID x = n /\
      (Z.to_nat retain <= length (filter (fun y => snapMeta_Less x y = true) (on_record es)))%nat.

Lemma ReapSnapshots_reaped f :
  NoDup (meta_ID <$> on_record (entries f)) ->
  match ReapSnapshots f with
  | Done _ f' => reaped (entries f) (fss_retain f) (entries f')
  | Panicked f' => reaped (entries f) (fss_retain f) (entries f')
  end.
Proof.
  intros Hnd. unfold ReapSnapshots, bind at 1, get_state.
  assert (forall f', same f f' -> reaped (entries f) (fss_retain f) (entries f')) as Hsame.
  { intros f' (He & _). rewrite He. split; [done|]. intros n. by left. }
  pose proof (same_getSnapshots f) as Hs. unfold bind.
  destruct (getSnapshots f) as [[metas|e] f1|f1] eqn:HG; [|by apply Hsame..].
  destruct (getSnapshots_Done _ _ _ HG) as (s & Hsub & ->).
  pose proof (reap_loop_spares (drop (Z.to_nat (fss_retain f)) (merge_sort newer_first s)) f1) as Hr.
  assert (forall f', spares (meta_ID <$> drop (Z.to_nat (fss_retain f)) (merge_sort newer_first s)) f1 f' ->
    reaped (entries f) (fss_retain f) (entries f')) as Hreap.
  { intros f' (Hsp & _ & Hsh). destruct Hs as (He & _). rewrite He in Hsh.
    split; [done|]. intros n.
    destruct (decide (n ∈ meta_ID <$> drop (Z.to_nat (fss_retain f)) (merge_sort newer_first s)))
      as [Hi|Hi]; [right|left; by rewrite Hsp, He].
    apply list_elem_of_fmap in Hi as (x & -> & Hx). exists x. split_and!; [|done|by eapply beyond_retained].
    eapply sublist_subseteq; [exact Hsub|]. rewrite <- (merge_sort_Permutation newer_first s).
    eapply sublist_subseteq; [apply sublist_drop|exact Hx]. }
  revert Hr. destruct (reap_loop _ f1); by apply Hreap.
Qed.
End Records.

(** ** Publishing *)

Section Publishing.
Context `{MetaJSON} `{!MetaJSONLaws} `{MsgPack} `{PeerCodec}.

(** Every snapshot on record lies under its own ID. *)
Definition well_named (es : gmap string entry) : Prop :=
  forall n m, readable es n = Some m -> meta_ID m = n.

Lemma sorted_names_NoDup {A} (m : gmap string A) : NoDup (sorted_names m).
Proof.
  unfold sorted_names. rewrite merge_sort_Permutation. apply NoDup_fst_map_to_list.
Qed.

Lemma elem_of_sorted_names {A} (m : gmap string A) n : n ∈ sorted_names m <-> is_Some (m !! n).
Proof.
  unfold sorted_names. rewrite merge_sort_Permutation, list_elem_of_fmap. split.
  - intros ([n' x] & -> & Hx%elem_of_map_to_list). eauto.
  - intros [x Hx]. exists (n, x). split; [done|]. by apply elem_of_map_to_list.
Qed.

Lemma well_named_NoDup es : well_named es -> NoDup (meta_ID <$> on_record es).
Proof.
  intros Hw. eapply sublist_NoDup; [apply (sorted_names_NoDup es)|]. unfold on_record.
  induction (sorted_names es) as [|n l IH]; [done|]. cbn [omap list_omap].
  destruct (readable es n) as [m|] eqn:Hm; [|by apply sublist_cons].
  rewrite fmap_cons, (Hw _ _ Hm). by apply sublist_skip.
Qed.

(** The metadata that [finalize] leaves for a sink with metadata [m]. *)
Definition finalized (m : SnapshotMeta) (data : string) : fileSnapshotMeta :=
  mkFileMeta (mkSnapshotMeta (sm_Version m) (sm_ID m) (sm_Index m) (sm_Term m)
    (sm_Peers m) (sm_Configuration m) (sm_ConfigurationIndex m)
    (Z.of_nat (String.length data))) (crc64_Sum (crc64_Update 0 data)).

(** The files of a complete snapshot. *)
Definition complete (m : SnapshotMeta) (data : string) (fs : gmap string string) : Prop :=
  fs !! metaFilePath = Some (json_Encode (finalized m data)) /\
  fs !! stateFilePath = Some data.

Lemma readable_ne es n k e : n <> k -> readable (<[k := e]> es) n = readable es n.
Proof. intros Hn. unfold readable, file_contents. by rewrite lookup_insert_ne. Qed.

Lemma readable_delete es n k m : readable (delete k es) n = Some m -> readable es n = Some m.
Proof.
  unfold readable, file_contents. destruct (decide (n = k)) as [->|Hn].
  - rewrite lookup_delete_eq. by destruct (strings_HasSuffix k tmpSuffix).
  - by rewrite lookup_delete_ne.
Qed.

Lemma well_named_publish es t m data fs :
  well_named es -> complete m data fs ->
  well_named (<[sm_ID m := entry_dir fs]> (delete t es)).
Proof.
  intros Hw [Hm _] n x. destruct (decide (n = sm_ID m)) as [->|Hn].
  - unfold readable, file_contents. rewrite lookup_insert_eq, Hm.
    destruct (strings_HasSuffix _ _); [done|]. rewrite json_Decode_Encode. cbv zeta.
    case_decide; [done|]. by intros [= <-].
  - rewrite readable_ne by done. intros Hx%readable_delete. by apply Hw.
Qed.

(** The two ways a snapshot can end. *)
Definition unpublished (t : string) (f f' : FileSnapshotStore) : Prop :=
  forall n, n <> t -> entries f' !! n = entries f !! n.

Definition published (m : SnapshotMeta) (t data : string) (f f' : FileSnapshotStore) : Prop :=
  exists fs, complete m data fs /\
    reaped (<[sm_ID m := entry_dir fs]> (delete t (entries f))) (fss_retain f) (entries f').

Lemma reaped_refl es r : reaped es r es.
Proof. split; [done|]. intros n. by left. Qed.

Lemma os_Rename_Done old new d d' :
  os_Rename old new d = Done None d' -> exists e, dk_entries d !! old = Some e /\
  dk_entries d' = <[new := e]> (delete old (dk_entries d)).
Proof.
  unfold os_Rename. intros ([e|] & d1 & HS & HE)%bind_Done; [done|].
  apply syscall_untouched in HS. rewrite <- HS. clear HS.
  destruct (dk_entries d1 !! old) as [e|] eqn:Ho; [|done]. exists e. split; [done|].
  destruct (dk_entries d1 !! new) as [[]|]; [done| |by injection HE as <-].
  case_decide; [|done]. by injection HE as <-.
Qed.

Lemma os_Rename_other old new d :
  match os_Rename old new d with
  | Done (Some _) d' => dk_entries d' = dk_entries d
  | Done None _ => True
  | Panicked d' => dk_entries d' = dk_entries d
  end.
Proof.
  unfold os_Rename, bind. pose proof (keeps_untouched d) as Hk.
  destruct (syscall untouched d) as [[e|] d1|d1]; [done| |done].
  destruct (dk_entries d1 !! old); [|done]. destruct (dk_entries d1 !! new) as [[]|]; [done| |done].
  by case_decide.
Qed.

Lemma publish_outcome i f k fs :
  fss_sinks f !! i = Some k -> entries f !! fk_dir k = Some (entry_dir fs) ->
  let es1 := <[strings_TrimSuffix (fk_dir k) tmpSuffix := entry_dir fs]>
               (delete (fk_dir k) (entries f)) in
  NoDup (meta_ID <$> on_record es1) ->
  match publish i f with
  | Done res f' => (res <> None /\ entries f' = entries f) \/ reaped es1 (fss_retain f) (entries f')
  | Panicked f' => entries f' = entries f \/ reaped es1 (fss_retain f) (entries f')
  end.
Proof.
  intros Hk He es1 Hnd. unfold publish, get_sink, bind at 1. rewrite Hk.
  change (default no_sink (Some k)) with k. unfold bind at 1.
  pose proof (os_Rename_other (fk_dir k) (strings_TrimSuffix (fk_dir k) tmpSuffix) (fss_disk f)) as Hr.
  unfold on_disk at 1. destruct (os_Rename _ _ _) as [[e|] d|d] eqn:HR; [by left|..|by left].
  apply os_Rename_Done in HR as (e & He' & Hd). fold (entries f) in He', Hd.
  rewrite He in He'. injection He' as <-. fold es1 in Hd.
  set (f1 := mkFileStore d _ _ _).
  assert (entries f1 = es1) as He1 by exact Hd.
  assert (forall f2, same f1 f2 ->
    match ReapSnapshots f2 with
    | Done _ f' => reaped es1 (fss_retain f) (entries f')
    | Panicked f' => reaped es1 (fss_retain f) (entries f')
    end) as Hreap.
  { intros f2 (Hs1 & _ & Hs2 & _). rewrite He1 in Hs1. change (fss_retain f1) with (fss_retain f) in Hs2.
    rewrite <- Hs1, <- Hs2. apply ReapSnapshots_reaped. by rewrite Hs1. }
  assert (forall f2, same f1 f2 -> reaped es1 (fss_retain f) (entries f2)) as Hsame.
  { intros f2 (Hs1 & _). rewrite Hs1, He1. apply reaped_refl. }
  unfold bind at 1, get_state. destruct (fss_noSync f1).
  { specialize (Hreap f1 ltac:(done)). destruct (ReapSnapshots f1); by right. }
  unfold bind at 1. pose proof (same_on_disk _ keeps_untouched f1) as Hc1.
  destruct (on_disk _ f1) as [[e|] f2|f2]; [right; by apply Hsame| |right; by apply Hsame].
  unfold bind at 1. pose proof (same_call f2) as Hc2.
  destruct (on_disk file_call f2) as [[e|] f3|f3].
  - unfold bind at 1. pose proof (same_call f3) as Hc3.
    destruct (on_disk file_call f3); right; apply Hsame; by repeat (etrans; [eassumption|]).
  - unfold bind at 1. specialize (Hreap f3 ltac:(by etrans)).
    destruct (ReapSnapshots f3) as [err f4|f4]; [|by right].
    unfold bind at 1. pose proof (same_call f4) as Hc4.
    destruct (on_disk file_call f4) as [a f5|f5]; destruct Hc4 as (Hc4 & _); right; by rewrite Hc4.
  - right. apply Hsame. by etrans.
Qed.

Lemma touched_unpublished t i f f' : touched t i f f' -> unpublished t f f'.
Proof. intros [_ He _ _ _]. exact He. Qed.

(** The end of a [Close] that could not finalize. *)
Lemma Close_failed t i f f1 e :
  fk_dir (sink_of i f) = t -> touched t i f f1 ->
  match (delErr <- on_disk (os_RemoveAll t);;
         match delErr with Some e => returns (Some e) | None => returns (Some e) end)%go f1 with
  | Done res f' => res <> None /\ unpublished t f f'
  | Panicked f' => unpublished t f f'
  end.
Proof.
  intros Hd Ht. pose proof (stays_on_disk t i _ (only_RemoveAll t) f1 (tch_dir _ _ _ _ Ht)) as Hr.
  unfold bind. destruct (on_disk _ f1) as [[e'|] f2|f2];
    repeat split; try done; eapply touched_unpublished, touched_trans; done.
Qed.

Lemma Close_broken t i f :
  broken_sink t false i f ->
  match file_sink_Close i f with
  | Done res f' => res <> None /\ unpublished t f f'
  | Panicked f' => unpublished t f f'
  end.
Proof.
  intros Hb. pose proof (broken_sink_dir _ _ _ _ Hb) as Hd. destruct Hb as (k & Hk & Hdk & Hcl & Hb).
  unfold file_sink_Close, get_sink, bind at 1. rewrite Hk.
  change (default no_sink (Some k)) with k. rewrite Hcl.
  set (f0 := with_sinks (alter set_closed i (fss_sinks f)) f).
  change (bind (update_sink i set_closed) ?g f) with (g tt f0). cbv beta.
  assert (fss_sinks f0 !! i = Some (set_closed k)) as Hk0
    by (unfold f0; cbn [with_sinks fss_sinks]; by rewrite list_lookup_alter_eq, Hk).
  assert (fk_dir (sink_of i f0) = t) as Hd0 by (unfold sink_of; by rewrite Hk0).
  assert (broken_sink t true i f0) as Hb0 by (by exists (set_closed k)).
  pose proof (stays_finalize t i f0 Hd0) as Hf. unfold bind at 1.
  destruct (finalize i f0) as [[e|] f1|f1] eqn:HF.
  - pose proof (Close_failed t i f0 f1 e Hd0 Hf) as Hc. rewrite Hdk.
    by destruct (bind _ _ f1).
  - by destruct (finalize_broken _ _ _ _ f1 Hb0).
  - exact (touched_unpublished _ _ _ _ Hf).
Qed.

Lemma Close_open t m i f fs data :
  t <> "" -> sm_ID m = strings_TrimSuffix t tmpSuffix -> well_named (entries f) ->
  open_sink t (mkFileMeta m "") false fs i f data ->
  match file_sink_Close i f with
  | Done res f' => res <> None /\ unpublished t f f' \/ published m t data f f'
  | Panicked f' => unpublished t f f' \/ published m t data f f'
  end.
Proof.
  intros Hne Hid Hw (c & b & [Hk He] & Hb & Hle & Hdata).
  unfold file_sink_Close, get_sink, bind at 1. rewrite Hk.
  match goal with |- context [default no_sink (Some ?k)] =>
    change (default no_sink (Some k)) with k end. cbn [fk_closed].
  set (f0 := with_sinks (alter set_closed i (fss_sinks f)) f).
  change (bind (update_sink i set_closed) ?g f) with (g tt f0). cbv beta.
  assert (fss_sinks f0 !! i =
    Some (mkFileSink t (mkFileMeta m "") (crc64_Update 0 c) b true)) as Hk0
    by (unfold f0; cbn [with_sinks fss_sinks]; by rewrite list_lookup_alter_eq, Hk).
  assert (fk_dir (sink_of i f0) = t) as Hd0 by (unfold sink_of; by rewrite Hk0).
  assert (open_sink t (mkFileMeta m "") true fs i f0 data) as Ho0 by (by exists c, b).
  pose proof (stays_finalize t i f0 Hd0) as Hf. unfold bind at 1.
  destruct (finalize i f0) as [[e|] f1|f1] eqn:HF; [| |left; exact (touched_unpublished _ _ _ _ Hf)].
  { pose proof (Close_failed t i f0 f1 e Hd0 Hf) as Hc. cbn [fk_dir].
    destruct (bind _ _ f1) as [res f2|f2]; left; exact Hc. }
  destruct (finalize_ok _ _ _ _ _ _ _ _ Ho0 HF) as [Hk1 He1].
  pose proof (stays_writeMeta t i f1 (tch_dir _ _ _ _ Hf)) as Hm. unfold bind at 1.
  destruct (writeMeta i f1) as [[e|] f2|f2] eqn:HM;
    [left; split; [done|]|..|left]; try exact (touched_unpublished _ _ _ _ (touched_trans _ _ _ _ _ Hf Hm)).
  destruct (writeMeta_ok _ _ _ _ _ Hk1 He1 HM) as [Hs2 He2]. rewrite <- Hs2 in Hk1.
  pose proof (publish_outcome i f2 _ _ Hk1 He2) as Hp. cbn [fk_dir set_sums fk_meta] in Hp, He2.
  rewrite <- Hid in Hp. set (fs' := <[metaFilePath := _]> _) in Hp, He2.
  assert (complete m data fs') as Hcomp.
  { split; unfold fs'; [by rewrite lookup_insert_eq|].
    rewrite lookup_insert_ne by done. by rewrite lookup_insert_eq. }
  pose proof (touched_trans _ _ _ _ _ Hf Hm) as Ht.
  assert (delete t (entries f2) = delete t (entries f)) as Hdel.
  { apply map_eq. intros n. destruct (decide (n = t)) as [->|Hn]; [by rewrite !lookup_delete_eq|].
    rewrite !lookup_delete_ne by done. by apply Ht. }
  rewrite Hdel in Hp. cbv zeta in Hp.
  specialize (Hp (well_named_NoDup _ (well_named_publish _ t _ _ _ Hw Hcomp))).
  rewrite (tch_retain _ _ _ _ Ht) in Hp. change (fss_retain f0) with (fss_retain f) in Hp.
  assert (forall f', entries f' = entries f2 -> unpublished t f f') as Hun.
  { intros f' Hf' n Hn. rewrite Hf'. by apply Ht. }
  destruct (publish i f2) as [res f3|f3].
  - destruct Hp as [[Hr Hp]|Hp]; [left; auto|right; by exists fs'].
  - destruct Hp as [Hp|Hp]; [left; auto|right; by exists fs'].
Qed.
End Publishing.

(** ** A whole snapshot *)

Section Whole.
Context `{MetaJSON} `{!MetaJSONLaws} `{MsgPack} `{PeerCodec}.

(** [Create], a sequence of writes whose results nobody looks at, and [Close]. *)
Definition write_snapshot (msec : Z) (index term : N) (c : Configuration) (ci : N)
    (ps : list string) : M FileSnapshotStore (result (nat * option error)) := (
  res <- file_Create msec 1 index term c ci;;
  match res with
  | Err e => returns (Err e)
  | Ok i =>
      write_all (SN := FileSnapshotStore) i ps;;
      err <- file_sink_Close i;;
      returns (Ok (i, err))
  end)%go.

Lemma write_all_step (i : nat) p ps :
  write_all (SN := FileSnapshotStore) i (p :: ps) =
  (file_sink_Write i p;; write_all (SN := FileSnapshotStore) i ps)%go.
Proof. done. Qed.

Lemma stays_write_all t i ps : stays t i (write_all (SN := FileSnapshotStore) i ps).
Proof.
  induction ps as [|p ps IH]; [apply stays_returns|]. rewrite write_all_step.
  apply stays_bind; [apply stays_Write|done].
Qed.

Lemma write_all_open t m fs i ps f data f' :
  t <> "" -> open_sink t m false fs i f data \/ broken_sink t false i f ->
  write_all (SN := FileSnapshotStore) i ps f = Done tt f' ->
  open_sink t m false fs i f' (data +:+ concat_strings ps) \/ broken_sink t false i f'.
Proof.
  intros Ht. revert f data. induction ps as [|p ps IH]; intros f data Ho.
  { intros [= <-]. simpl. by rewrite append_empty. }
  rewrite write_all_step. intros (res & f1 & HW & HE)%bind_Done. cbn [concat_strings foldr].
  change (p +:+ foldr String.append "" ps) with (p +:+ concat_strings ps).
  rewrite <- append_assoc. apply (IH f1); [|done].
  destruct Ho as [Ho|Hb]; [|right; by eapply Write_broken].
  destruct (Write_open _ _ _ _ _ _ _ _ _ _ Ht Ho HW) as [[_ ?]|]; auto.
Qed.

(** [Create] leaves the other entries alone, and a sink that is open. *)
Lemma file_Create_outcome msec index term c ci f :
  let name := snapshotName msec term index in
  let t := name +:+ tmpSuffix in
  match file_Create msec 1 index term c ci f with
  | Done (Ok i) f' =>
      exists peers fs, encodePeers c = Ok peers /\
        open_sink t (mkFileMeta (mkSnapshotMeta 1 name index term peers c ci 0) "")
          false fs i f' "" /\
        unpublished t f f' /\ fss_retain f' = fss_retain f
  | Done (Err _) f' => unpublished t f f'
  | Panicked f' => unpublished t f f'
  end.
Proof.
  intros name t. unfold file_Create. rewrite decide_False by tauto. fold name. fold t. cbv zeta.
  unfold bind at 1. pose proof (only_MkdirAll t (fss_disk f)) as Ho. unfold on_disk at 1.
  destruct (os_MkdirAll t (fss_disk f)) as [[e|] d|d] eqn:HM; [exact Ho| |exact Ho].
  destruct (encodePeers c) as [peers|]; [|exact Ho].
  set (f1 := mkFileStore d _ _ _). unfold bind at 1, get_state. unfold bind at 1.
  set (k := mkFileSink _ _ _ _ _). set (i := length (fss_sinks f1)).
  change (modify (with_sinks (fss_sinks f1 ++ [k])) f1)
    with (Done tt (with_sinks (fss_sinks f1 ++ [k]) f1)). cbv iota.
  set (f2 := with_sinks (fss_sinks f1 ++ [k]) f1).
  assert (fss_sinks f2 !! i = Some k) as Hk2.
  { unfold f2, i. cbn [with_sinks fss_sinks]. rewrite lookup_app_r by done. by rewrite Nat.sub_diag. }
  assert (fk_dir (sink_of i f2) = t) as Hd2 by (unfold sink_of; by rewrite Hk2).
  assert (exists fs, entries f2 !! t = Some (entry_dir fs)) as [fs Hfs].
  { unfold os_MkdirAll in HM. apply bind_Done in HM as ([e|] & d1 & _ & HM); [done|].
    change (entries f2) with (dk_entries d).
    destruct (dk_entries d1 !! t) as [[cs|fs]|] eqn:He; [done|injection HM as <-; eauto|].
    injection HM as <-. cbn [with_entries dk_entries]. rewrite lookup_insert_eq. eauto. }
  assert (unpublished t f f2) as Hu2 by exact Ho.
  assert (forall f', touched t i f2 f' -> unpublished t f f') as Hun.
  { intros f' Ht n Hn. by rewrite (tch_entries _ _ _ _ Ht n Hn), Hu2. }
  pose proof (stays_writeMeta t i f2 Hd2) as Hm. unfold bind at 1.
  destruct (writeMeta i f2) as [[e|] f3|f3] eqn:HW; [by apply Hun| |by apply Hun].
  destruct (writeMeta_ok _ _ _ _ _ Hk2 Hfs HW) as [Hs3 He3]. cbn [fk_dir k] in He3. fold k in He3.
  pose proof (stays_on_disk t i _ (only_Create t stateFilePath) f3 (tch_dir _ _ _ _ Hm)) as Hc.
  unfold bind at 1.
  destruct (on_disk _ f3) as [[e|] f4|f4] eqn:HC; [by apply Hun; eapply touched_trans| |by apply Hun; eapply touched_trans].
  pose proof (touched_trans _ _ _ _ _ Hm Hc) as Ht4.
  apply on_disk_Done in HC as (HC & Hs4 & Hr4 & _). unfold os_Create in HC.
  apply bind_Done in HC as ([e|] & d4 & HS & HC); [done|]. apply syscall_untouched in HS.
  rewrite HS in HC. fold (entries f3) in HC. rewrite He3 in HC. injection HC as HC.
  exists peers. eexists. split; [done|]. split; [|split; [by apply Hun|exact (tch_retain _ _ _ _ Ht4)]].
  exists "", (mkBufioWriter "" None). split; [|by split_and!; [|apply Nat.le_0_l|]]. split.
  - rewrite Hs4, Hs3. exact Hk2.
  - unfold entries. rewrite <- HC. cbn [with_entries dk_entries]. by rewrite lookup_insert_eq.
Qed.

(** What the whole leaves behind. *)
Lemma write_snapshot_outcome msec index term c ci ps f :
  well_named (entries f) ->
  let name := snapshotName msec term index in
  let t := name +:+ tmpSuffix in
  let done f' := exists peers, encodePeers c = Ok peers /\
    published (mkSnapshotMeta 1 name index term peers c ci 0) t (concat_strings ps) f f' in
  match write_snapshot msec index term c ci ps f with
  | Done res f' => (forall i, res <> Ok (i, None)) /\ unpublished t f f' \/ done f'
  | Panicked f' => unpublished t f f' \/ done f'
  end.
Proof.
  intros Hw name t finished. pose proof (file_Create_outcome msec index term c ci f) as Hc.
  fold name in Hc. fold t in Hc. cbv zeta in Hc. unfold write_snapshot, bind at 1.
  destruct (file_Create _ _ _ _ _ _ f) as [[i|e] f1|f1]; [|by left|by left].
  destruct Hc as (peers & fs & Hp & Ho & Hu & Hr).
  assert (t <> "") as Hne by (unfold t; by destruct name).
  pose proof (stays_write_all t i ps f1 (open_sink_dir _ _ _ _ _ _ _ Ho)) as Hs. unfold bind at 1.
  destruct (write_all _ ps f1) as [[] f2|f2] eqn:HW.
  2:{ left. intros n Hn. by rewrite (tch_entries _ _ _ _ Hs n Hn), Hu. }
  assert (forall f', unpublished t f2 f' -> unpublished t f f') as Hun.
  { intros f' Hf' n Hn. by rewrite Hf', (tch_entries _ _ _ _ Hs n Hn), Hu. }
  assert (well_named (entries f2)) as Hw2.
  { intros n m. destruct (decide (n = t)) as [->|Hn].
    - unfold readable, t. by rewrite strings_HasSuffix_app.
    - unfold readable, file_contents. rewrite (tch_entries _ _ _ _ Hs n Hn), (Hu n Hn). apply Hw. }
  assert (forall f', published (mkSnapshotMeta 1 name index term peers c ci 0) t
    (concat_strings ps) f2 f' -> finished f') as Hfin.
  { intros f' (fs' & Hcomp & Hre). exists peers. split; [done|]. exists fs'. split; [done|].
    rewrite (tch_retain _ _ _ _ Hs), Hr in Hre.
    replace (delete t (entries f)) with (delete t (entries f2)); [done|].
    apply map_eq. intros n. destruct (decide (n = t)) as [->|Hn]; [by rewrite !lookup_delete_eq|].
    rewrite !lookup_delete_ne by done. by rewrite (tch_entries _ _ _ _ Hs n Hn), Hu. }
  destruct (write_all_open _ _ _ _ _ _ "" _ Hne (or_introl Ho) HW) as [Ho2|Hb2].
  - pose proof (Close_open t (mkSnapshotMeta 1 name index term peers c ci 0) i f2 _ _ Hne
      (eq_sym (strings_TrimSuffix_app name tmpSuffix)) Hw2 Ho2) as Hcl.
    unfold bind. destruct (file_sink_Close i f2) as [res f3|f3].
    + destruct Hcl as [[Hn Hcl]|Hcl]; [left|right; by apply Hfin]. split; [|by apply Hun].
      intros j [= _ ?]. congruence.
    + destruct Hcl as [Hcl|Hcl]; [left; by apply Hun|right; by apply Hfin].
  - pose proof (Close_broken _ _ _ Hb2) as Hcl. unfold bind.
    destruct (file_sink_Close i f2) as [res f3|f3]; left; [|by apply Hun].
    destruct Hcl as [Hn Hcl]. split; [|by apply Hun]. intros j [= _ ?]. congruence.
Qed.

End Whole.

(** ** Round trip *)

Definition not_p (c : option ascii) : Prop := c <> Some "p"%char.

Lemma last_char_digits x s :
  not_p (last_char s) -> s <> "" \/ (0 < x)%N -> not_p (last_char (pretty_N_go x s)).
Proof.
  revert s. induction (N.lt_wf_0 x) as [x _ IH]; intros s Hs Hx.
  destruct (decide (0 < x)%N) as [Hlt|Hz].
  - rewrite pretty_N_go_step by done. apply IH.
    + apply N.div_lt; lia.
    + destruct s as [|c s]; [|done]. unfold not_p, last_char, pretty_N_char. by repeat case_match.
    + by left.
  - assert (x = 0%N) as -> by lia. by rewrite pretty_N_go_0.
Qed.

Lemma last_char_pretty_N (x : N) : not_p (last_char (pretty x)).
Proof.
  unfold pretty, pretty_N. case_decide; [done|]. apply last_char_digits; [done|]. right. lia.
Qed.

Lemma pretty_N_ne (x : N) : pretty x <> "".
Proof.
  intros He. destruct (decide (x = 0%N)) as [->|Hx]; [done|].
  assert (forall s y, s <> "" -> pretty_N_go y s <> "") as Hgo.
  { intros s y. revert s. induction (N.lt_wf_0 y) as [y _ IH]; intros s Hs.
    destruct (decide (0 < y)%N) as [Hlt|Hz].
    - rewrite pretty_N_go_step by done. apply IH; [apply N.div_lt; lia|done].
    - assert (y = 0%N) as -> by lia. by rewrite pretty_N_go_0. }
  revert He. unfold pretty, pretty_N. rewrite decide_False by done.
  rewrite pretty_N_go_step by lia. by apply Hgo.
Qed.

Lemma snapshotName_not_tmp msec term index :
  strings_HasSuffix (snapshotName msec term index) tmpSuffix = false.
Proof.
  destruct (strings_HasSuffix _ _) eqn:Hs; [|done]. exfalso.
  apply strings_HasSuffix_last in Hs; [|done]. revert Hs. unfold snapshotName.
  assert (pretty msec <> "" /\ not_p (last_char (pretty msec))) as [Hne Hp].
  { destruct msec as [|p|p]; [done|..].
    - split; [apply pretty_N_ne|apply last_char_pretty_N].
    - change (pretty (Z.neg p)) with ("-" +:+ pretty (N.pos p)). split; [done|].
      rewrite last_char_app by apply pretty_N_ne. apply last_char_pretty_N. }
  assert (pretty index +:+ "-" +:+ pretty msec <> "") as Hne'.
  { intros He. apply (f_equal String.length) in He. rewrite !append_length in He. simpl in He. lia. }
  rewrite (last_char_app (pretty term)) by done.
  rewrite (last_char_app "-" (pretty index +:+ "-" +:+ pretty msec)) by done.
  rewrite (last_char_app (pretty index)) by done.
  rewrite (last_char_app "-" (pretty msec)) by done. exact Hp.
Qed.

Section RoundTrip.
Context `{MetaJSON} `{!MetaJSONLaws} `{MsgPack} `{PeerCodec}.

(** *** Reading a disk on which every call succeeds *)

Definition healthy (f : FileSnapshotStore) : Prop := dk_faults (fss_disk f) = [].

Lemma store_eta f :
  mkFileStore (fss_disk f) (fss_retain f) (fss_noSync f) (fss_sinks f) = f.
Proof. by destruct f. Qed.

Lemma healthy_Open f dir name :
  healthy f -> on_disk (os_Open dir name) f =
    Done (match file_contents dir name (entries f) with
          | Some _ => None
          | None => Some (Errorf "no such file or directory")
          end) f.
Proof.
  intros Hf. unfold on_disk, os_Open, bind, syscall. rewrite Hf. unfold entries.
  destruct (file_contents _ _ _); by rewrite store_eta.
Qed.

Lemma healthy_Read f dir name :
  healthy f -> on_disk (file_Read dir name) f =
    Done (Ok (default "" (file_contents dir name (entries f)))) f.
Proof.
  intros Hf. unfold on_disk, file_Read, bind, syscall. rewrite Hf. by rewrite store_eta.
Qed.

Lemma healthy_call f : healthy f -> on_disk file_call f = Done None f.
Proof.
  intros Hf. unfold on_disk, file_call, syscall. rewrite Hf. by rewrite store_eta.
Qed.

Lemma healthy_readMeta f name :
  healthy f -> readMeta name f =
    Done (match file_contents name metaFilePath (entries f) with
          | Some text => json_Decode text
          | None => Err (Errorf "no such file or directory")
          end) f.
Proof.
  intros Hf. unfold readMeta, bind. rewrite healthy_Open by done.
  destruct (file_contents _ _ _) eqn:Hc; [|done]. rewrite healthy_Read by done.
  rewrite healthy_call by done. by rewrite Hc.
Qed.

Lemma healthy_file_Open f name m data :
  healthy f -> file_contents name metaFilePath (entries f) = Some (json_Encode m) ->
  file_contents name stateFilePath (entries f) = Some data ->
  fm_CRC m = crc64_Sum (crc64_Update 0 data) ->
  file_Open name f = Done (Ok (fm_SnapshotMeta m, data)) f.
Proof.
  intros Hf Hm Hd Hc. unfold file_Open, bind. rewrite healthy_readMeta, Hm by done.
  rewrite json_Decode_Encode. rewrite healthy_Open, Hd by done.
  rewrite healthy_Read, Hd by done. simpl. rewrite decide_False by tauto.
  by rewrite healthy_call.
Qed.

Definition is_dir (es : gmap string entry) (name : string) : bool :=
  match es !! name with Some (entry_dir _) => true | _ => false end.

Lemma healthy_collect f names :
  healthy f ->
  collect_metas ((fun n => (n, is_dir (entries f) n)) <$> names) f =
    Done (omap (readable (entries f)) names) f.
Proof.
  intros Hf. induction names as [|n names IH]; [done|].
  rewrite fmap_cons. cbn [collect_metas omap list_omap].
  destruct (is_dir (entries f) n) eqn:Hd; simpl.
  - destruct (strings_HasSuffix n tmpSuffix) eqn:Hs.
    { assert (readable (entries f) n = None) as -> by (unfold readable; by rewrite Hs). exact IH. }
    unfold bind. rewrite healthy_readMeta by done.
    destruct (readable (entries f) n) as [m|] eqn:Hr; unfold readable in Hr; rewrite Hs in Hr;
      destruct (file_contents _ _ _); try done; destruct (json_Decode _); try done;
      case_decide; simplify_eq; by rewrite IH.
  - assert (readable (entries f) n = None) as ->; [|exact IH].
    unfold readable, file_contents. unfold is_dir in Hd.
    destruct (entries f !! n) as [[]|]; try done; by destruct (strings_HasSuffix n tmpSuffix).
Qed.

Lemma healthy_getSnapshots f :
  healthy f -> getSnapshots f = Done (Ok (merge_sort newer_first (on_record (entries f)))) f.
Proof.
  intros Hf. unfold getSnapshots, bind.
  assert (on_disk os_ReadDir f =
    Done (Ok ((fun n => (n, is_dir (entries f) n)) <$> sorted_names (entries f))) f) as ->.
  { unfold on_disk, os_ReadDir, bind, syscall. rewrite Hf. by rewrite store_eta. }
  by rewrite healthy_collect.
Qed.

Lemma list_loop_prefix retain metas acc :
  exists rest, list_loop retain metas acc = acc ++ rest.
Proof.
  revert acc. induction metas as [|m metas IH]; intros acc; cbn [list_loop].
  { exists []. by rewrite app_nil_r. }
  case_decide; [by eexists|]. destruct (IH (acc ++ [fm_SnapshotMeta m])) as [rest ->].
  eexists. by rewrite <- app_assoc.
Qed.

Lemma list_loop_head retain m metas :
  exists rest, list_loop retain (m :: metas) [] = fm_SnapshotMeta m :: rest.
Proof.
  cbn [list_loop]. case_decide; [by exists []|].
  destruct (list_loop_prefix retain metas ([] ++ [fm_SnapshotMeta m])) as [rest ->]. by exists rest.
Qed.

(** The newest of a list comes first. *)
Lemma merge_sort_head (l : list fileSnapshotMeta) x :
  NoDup (meta_ID <$> l) -> x ∈ l ->
  (forall y, y ∈ l -> meta_ID y <> meta_ID x -> snapMeta_Less y x = true) ->
  exists rest, merge_sort newer_first l = x :: rest.
Proof.
  intros Hnd Hx Hmax. pose proof (merge_sort_Permutation newer_first l) as Hp.
  destruct (merge_sort newer_first l) as [|y rest] eqn:Hm.
  { rewrite <- Hp in Hx. by apply elem_of_nil in Hx. }
  exists rest. f_equal.
  assert (y ∈ l) as Hy by (rewrite <- Hp; left).
  destruct (decide (meta_ID y = meta_ID x)) as [He|Hn].
  - apply list_elem_of_lookup in Hx as [i Hi]. apply list_elem_of_lookup in Hy as [j Hj].
    assert (i = j) as ->; [|congruence].
    eapply (NoDup_lookup _ _ _ (meta_ID x) Hnd); rewrite list_lookup_fmap; [by rewrite Hi|].
    by rewrite Hj, <- He.
  - specialize (Hmax y Hy Hn). assert (StronglySorted newer_first (y :: rest)) as Hs.
    { rewrite <- Hm. apply Sorted_StronglySorted; [apply _|]. apply Sorted_merge_sort; apply _. }
    apply StronglySorted_inv in Hs as [_ Hs]. rewrite <- Hp in Hx.
    apply elem_of_cons in Hx as [->|Hx]; [done|]. rewrite Forall_forall in Hs.
    specialize (Hs x Hx). unfold newer_first in Hs. congruence.
Qed.

Lemma elem_of_on_record es m : m ∈ on_record es <-> exists n, readable es n = Some m.
Proof.
  unfold on_record. rewrite list_elem_of_omap. split; [intros (n & _ & Hn); eauto|].
  intros [n Hn]. exists n. split; [|done]. apply elem_of_sorted_names. revert Hn.
  unfold readable, file_contents. destruct (strings_HasSuffix n tmpSuffix); [done|].
  destruct (es !! n) as [[]|]; [done|eauto|done].
Qed.

Lemma readable_shrunk es es' n m :
  shrunk es es' -> readable es' n = Some m -> readable es n = Some m.
Proof.
  intros Hsh. unfold readable, file_contents. destruct (strings_HasSuffix n tmpSuffix); [done|].
  destruct (es' !! n) as [[|fs']|] eqn:Hn; [done| |done].
  destruct (Hsh _ _ Hn) as (fs & -> & Hsub).
  destruct (fs' !! metaFilePath) as [text|] eqn:Ht; [|done].
  by rewrite (lookup_weaken _ _ _ _ Ht Hsub).
Qed.

Lemma snapMeta_Less_asym a b : snapMeta_Less a b = true -> snapMeta_Less b a = true -> False.
Proof.
  intros Ha Hb. destruct (newer_first_total a b) as [Hn|Hn]; unfold newer_first in Hn; congruence.
Qed.

(** [x] is on record under its ID and newer than the rest. *)
Definition newest (es : gmap string entry) (x : fileSnapshotMeta) : Prop :=
  readable es (meta_ID x) = Some x /\
  forall y, y ∈ on_record es -> meta_ID y <> meta_ID x -> snapMeta_Less y x = true.

Lemma publish_newest es t m data fs :
  well_named es -> sm_Version m = 1%Z -> strings_HasSuffix (sm_ID m) tmpSuffix = false ->
  complete m data fs ->
  (forall y, y ∈ on_record es -> meta_ID y <> sm_ID m ->
     snapMeta_Less y (finalized m data) = true) ->
  newest (<[sm_ID m := entry_dir fs]> (delete t es)) (finalized m data).
Proof.
  intros Hw Hv Hsuf [Hm Hd] Hold. split.
  - unfold readable, file_contents. change (meta_ID (finalized m data)) with (sm_ID m).
    rewrite Hsuf, lookup_insert_eq, Hm, json_Decode_Encode.
    rewrite decide_False; [done|]. simpl. rewrite Hv.
    unfold SnapshotVersionMin, SnapshotVersionMax. lia.
  - intros y [n Hy]%elem_of_on_record Hn.
    pose proof (well_named_publish _ t _ _ _ Hw (conj Hm Hd) _ _ Hy) as <-.
    rewrite readable_ne in Hy by done. apply readable_delete in Hy.
    apply Hold; [apply elem_of_on_record; eauto|done].
Qed.

(** Reaping with a [retain] of at least one spares the newest. *)
Lemma newest_reaped es r es' x :
  well_named es -> (1 <= r)%Z -> newest es x -> reaped es r es' ->
  es' !! meta_ID x = es !! meta_ID x /\ newest es' x.
Proof.
  intros Hw Hr [Hx Hmax] [Hsh Hre].
  assert (es' !! meta_ID x = es !! meta_ID x) as He.
  { destruct (Hre (meta_ID x)) as [|(z & Hz & Hid & Hle)]; [done|]. exfalso.
    apply elem_of_on_record in Hz as [n Hz]. pose proof (Hw _ _ Hz) as Hn.
    assert (z = x) as -> by (unfold meta_ID in *; congruence).
    rewrite filter_none in Hle; [simpl in Hle; lia|]. intros y Hy Hless.
    destruct (decide (meta_ID y = meta_ID x)) as [E|E];
      [|by eapply snapMeta_Less_asym; [exact Hless|apply Hmax]].
    apply elem_of_on_record in Hy as [k Hy]. pose proof (Hw _ _ Hy).
    assert (y = x) as -> by (unfold meta_ID in *; congruence). by eapply snapMeta_Less_asym. }
  split; [done|]. split.
  - rewrite <- Hx. unfold readable, file_contents. by rewrite He.
  - intros y [n Hy]%elem_of_on_record. apply Hmax. apply elem_of_on_record. exists n.
    by eapply readable_shrunk.
Qed.

(** What the calls of a reader give for the newest entry. *)
Lemma newest_read f x fs data :
  healthy f -> well_named (entries f) -> newest (entries f) x ->
  entries f !! meta_ID x = Some (entry_dir fs) ->
  fs !! metaFilePath = Some (json_Encode x) -> fs !! stateFilePath = Some data ->
  fm_CRC x = crc64_Sum (crc64_Update 0 data) ->
  file_Open (meta_ID x) f = Done (Ok (fm_SnapshotMeta x, data)) f /\
  exists rest, file_List f = Done (Ok (fm_SnapshotMeta x :: rest)) f.
Proof.
  intros Hf Hw [Hx Hmax] He Hm Hd Hc. split.
  - apply healthy_file_Open; [done|..|done]; unfold file_contents; by rewrite He.
  - destruct (merge_sort_head (on_record (entries f)) x) as [rest Hr];
      [by apply well_named_NoDup|apply elem_of_on_record; eauto|done|].
    unfold file_List, bind, get_state. rewrite healthy_getSnapshots, Hr by done.
    destruct (list_loop_head (fss_retain f) x rest) as [rest' Hl]. exists rest'.
    by rewrite Hl.
Qed.

End RoundTrip.

(** ** Witnesses *)

Lemma well_named_check `{MetaJSON} `{!MetaJSONLaws} es :
  forallb (fun n => match readable es n with
                    | Some m => bool_decide (meta_ID m = n)
                    | None => true
                    end) (sorted_names es) = true -> well_named es.
Proof.
  intros Hall n m Hr. rewrite forallb_forall in Hall. specialize (Hall n).
  rewrite Hr in Hall. apply bool_decide_eq_true in Hall; [done|].
  apply list_elem_of_In, elem_of_sorted_names. revert Hr. unfold readable, file_contents.
  destruct (strings_HasSuffix n tmpSuffix); [done|].
  destruct (es !! n) as [[]|]; [done|eauto|done].
Qed.

(** The metadata as the bits of its [Countable] encoding. *)
#[export] Instance fileSnapshotMeta_countable_key : EqDecision fileSnapshotMeta.
Proof. solve_decision. Defined.

#[export] Instance fileSnapshotMeta_countable : Countable fileSnapshotMeta.
Proof.
  refine (inj_countable' (fun m => let s := fm_SnapshotMeta m in
      (((sm_Version s, sm_Index s), (sm_Term s, sm_ConfigurationIndex s)), (sm_Size s,
       (sm_Configuration s, ((sm_ID s, fm_CRC m), sm_Peers s)))))
    (fun '(((v, i), (t, ci)), (z, (c, ((id, crc), ps)))) =>
       mkFileMeta (mkSnapshotMeta v id i t ps c ci z) crc) _).
  by intros [[] ?].
Defined.

#[local] Instance bits_MetaJSON : MetaJSON := {|
  json_Encode m := encode_bits m;
  json_Decode s := decode_bits s
|}.

#[local] Instance bits_MetaJSONLaws : MetaJSONLaws.
Proof. split. intros m. apply decode_encode_bits. Qed.

#[local] Existing Instance bitsMsgPack.
#[local] Existing Instance inmemPeerCodec.

Definition after {St A} (o : outcome St A) : St :=
  match o with Done _ f => f | Panicked f => f end.

(** A directory with a snapshot of term 1 and what a crash left of another. *)
Definition used_disk (faults : list (option fault)) : FileSnapshotStore :=
  let f := after (write_snapshot 5 3 1 (mkConfiguration []) 0 ["ab"; "c"]
                    (mkFileStore (mkDisk {["9-9-9.tmp" := entry_dir ∅]} []) 2 false [])) in
  mkFileStore (mkDisk (entries f) faults) 2 false [].

(** The process ends in the thirteenth call from here on. *)
Definition crash_disk : FileSnapshotStore :=
  used_disk (repeat None 12 ++ [Some (mkFault 0 None)]).


Definition second_disk : FileSnapshotStore :=
  after (write_snapshot 8 7 2 (mkConfiguration []) 0 ["xy"; "z"] (used_disk [])).

