(* ===== verification/Snapshot.v ===== *)
(** * Taking and installing snapshots, log compaction

    [shouldSnapshot], [takeSnapshot], the compaction functions of [snapshot.go]
    and the handler [installSnapshot] of [raft.go].  The main results: no log entry
    is removed that is not covered by a snapshot, and the trailing entries stay. *)
From S2P Require Import Prelude Types Util Codec Configuration Config Stores State Elections AppendEntries SnapshotStores.

(** ** Definitions *)

(** What the state machine's thread answers to a [reqSnapshotFuture]: the position
    of the snapshot and the [Persist] method of the user's [FSMSnapshot]. *)
Record reqSnapshot (SN : Type) `{SnapshotStore SN} := mkReqSnapshot {
  rs_index : N;
  rs_term : N;
  rs_Persist : SnapshotSink -> M SN (option error)
}.
Arguments mkReqSnapshot {SN _} _ _ _.
Arguments rs_index {SN _} _.
Arguments rs_term {SN _} _.
Arguments rs_Persist {SN _} _ _.

(** Wrapping an error, [fmt.Errorf("...: %v", err)]. *)
Definition wrapError (prefix : string) (e : error) : error :=
  Errorf (prefix +:+ ": " +:+ Error e).

Section Snapshot.
Context {L K SN : Type} `{LogStore L} `{StableStore K} `{SnapshotStore SN} `{MsgPack}
  `{PeerCodec}.
Abbreviation raft := (Raft L K SN).

Definition on_snapshots {A} (m : M SN A) : M raft A := fun r =>
  match m (snapshots r) with
  | Done a s => Done a (with_snapshots s r)
  | Panicked s => Panicked (with_snapshots s r)
  end.

Definition shouldSnapshot (r : raft) : bool :=
  let '(lastSnap, _) := getLastSnapshot (raft_state r) in
  match LastIndex (logs r) with
  | Err _ => false
  | Ok lastIdx => bool_decide (SnapshotThreshold (conf r) <= u64_sub lastIdx lastSnap)%N
  end.

Definition compactLogsWithTrailing (snapIdx lastLogIdx trailingLogs : N)
    : M raft (option error) := fun r =>
  match FirstIndex (logs r) with
  | Err err => Done (Some (wrapError "failed to get first log index" err)) r
  | Ok minLog =>
      if decide (lastLogIdx <= trailingLogs)%N then Done None r
      else
        let maxLog := min snapIdx (u64_sub lastLogIdx trailingLogs) in
        if decide (maxLog < minLog)%N then Done None r
        else match DeleteRange (logs r) minLog maxLog with
             | (l, Some err) =>
                 Done (Some (wrapError "log compaction failed" err)) (with_logs l r)
             | (l, None) => Done None (with_logs l r)
             end
  end.

Definition compactLogs (snapIdx : N) : M raft (option error) := fun r =>
  let '(lastLogIdx, _) := getLastLog (raft_state r) in
  compactLogsWithTrailing snapIdx lastLogIdx (TrailingLogs (conf r)) r.

Definition removeOldLogs : M raft (option error) := fun r =>
  match LastIndex (logs r) with
  | Err err => Done (Some (wrapError "failed to get last log index" err)) r
  | Ok lastLogIdx => compactLogsWithTrailing lastLogIdx lastLogIdx 0 r
  end.

(** [takeSnapshot]: [snapReq] and [configReq] are the answers of the state
    machine's and of the main thread, [msec] the clock. *)
Definition takeSnapshot (msec : Z) (snapReq : result (reqSnapshot SN))
    (configReq : result configurations) : M raft (result string) := (
  r <- get_state;;
  if shutdown r then returns (Err ErrRaftShutdown) else
  match snapReq with
  | Err err =>
      returns (Err (if decide (err <> ErrNothingNewToSnapshot)
                    then wrapError "failed to start snapshot" err else err))
  | Ok req =>
      match configReq with
      | Err err => returns (Err err)
      | Ok configs =>
          if decide (rs_index req < committedIndex configs)%N then
            returns (Err (Errorf
              ("cannot take snapshot now, wait until the configuration entry at " +:+
               pretty (committedIndex configs) +:+ " has been applied (have applied " +:+
               pretty (rs_index req) +:+ ")")))
          else
            let version := getSnapshotVersion (protocolVersion r) in
            sink <- on_snapshots (Create msec version (rs_index req) (rs_term req)
                                    (committed configs) (committedIndex configs));;
            match sink with
            | Err err => returns (Err (wrapError "failed to create snapshot" err))
            | Ok sink =>
                perr <- on_snapshots (rs_Persist req sink);;
                match perr with
                | Some err =>
                    on_snapshots (sink_Cancel sink);;
                    returns (Err (wrapError "failed to persist snapshot" err))
                | None =>
                    cerr <- on_snapshots (sink_Close sink);;
                    match cerr with
                    | Some err => returns (Err (wrapError "failed to close snapshot" err))
                    | None =>
                        setLastSnapshot (rs_index req) (rs_term req);;
                        err <- compactLogs (rs_index req);;
                        match err with
                        | Some err => returns (Err err)
                        | None => r' <- get_state;;
                                  returns (Ok (sink_ID sink (snapshots r')))
                        end
                    end
                end
            end
      end
  end)%go.

(** The configuration carried by an [InstallSnapshotRequest], with its index;
    [None] is the panic of [DecodeConfiguration]. *)
Definition requested_configuration (req : InstallSnapshotRequest)
    : option (result (Configuration * N)) :=
  if decide (0 < is_SnapshotVersion req)%Z then
    match DecodeConfiguration (is_Configuration req) with
    | Ok c => Some (Ok (c, is_ConfigurationIndex req))
    | Err _ => None
    end
  else
    match decodePeers (is_Peers req) with
    | Ok c => Some (Ok (c, is_LastLogIndex req))
    | Err err => Some (Err err)
    end.

(** The end of [installSnapshot], once the state machine restored the snapshot. *)
Definition adopt_snapshot (req : InstallSnapshotRequest) (c : Configuration) (ci : N)
    : M raft unit := (
  setLastApplied (is_LastLogIndex req);;
  setLastSnapshot (is_LastLogIndex req) (is_LastLogTerm req);;
  setLatestConfiguration c ci;;
  setCommittedConfiguration c ci;;
  r <- get_state;;
  _ <- (if IsMonotonic (logs r) then removeOldLogs
        else compactLogs (is_LastLogIndex req));;
  returns tt)%go.

(** The transfer of the snapshot and its hand-over to the state machine: [data]
    and [rerr] are what the connection delivers, [answer] what the state machine's
    thread answers to the restore.  [inr tt] means that the snapshot is restored;
    [inl] that the call returns with this error. *)
Definition receive_snapshot (msec : Z) (data : string) (rerr answer : option error)
    (req : InstallSnapshotRequest) (c : Configuration) (ci : N)
    : M raft (option error + unit) := (
  r <- get_state;;
  sink <- on_snapshots (Create msec (getSnapshotVersion (protocolVersion r))
                          (is_LastLogIndex req) (is_LastLogTerm req) c ci);;
  match sink with
  | Err err => returns (inl (Some (wrapError "failed to create snapshot" err)))
  | Ok sink =>
      n <- on_snapshots (io_Copy sink data rerr);;
      match n with
      | Err err => on_snapshots (sink_Cancel sink);; returns (inl (Some err))
      | Ok n =>
          if decide (n <> is_Size req) then
            on_snapshots (sink_Cancel sink);;
            returns (inl (Some (Errorf "short read")))
          else
            cerr <- on_snapshots (sink_Close sink);;
            match cerr with
            | Some err => returns (inl (Some err))
            | None =>
                r <- get_state;;
                if shutdown r then returns (inl None)
                else
                  modify (with_fsmMutateCh
                    (fsmMutateCh r ++ [fsmRestore (sink_ID sink (snapshots r))]));;
                  match answer with
                  | Some err => returns (inl (Some err))
                  | None => returns (inr tt)
                  end
            end
      end
  end)%go.

Definition installSnapshot (now msec : Z) (data : string) (rerr answer : option error)
    (req : InstallSnapshotRequest) : M raft (InstallSnapshotResponse * option error) := (
  r <- get_state;;
  let cur := currentTerm (raft_state r) in
  let reply term success rpcErr :=
    returns (mkInstallSnapshotResponse (mkHeader 0 "" "") term success, rpcErr) in
  if decide ((is_SnapshotVersion req < SnapshotVersionMin)%Z \/
             (SnapshotVersionMax < is_SnapshotVersion req)%Z) then
    reply cur false
      (Some (Errorf ("unsupported snapshot version " +:+ pretty (is_SnapshotVersion req))))
  else if decide (is_Term req < cur)%N then reply cur false None
  else
    term <- (if decide (cur < is_Term req)%N then
               setState Follower;; setCurrentTerm (is_Term req);; returns (is_Term req)
             else returns cur);;
    (if decide (hdr_ID (is_Header req) <> "")
     then setLeader (DecodePeer (hdr_Addr (is_Header req))) (hdr_ID (is_Header req))
     else setLeader (DecodePeer (is_Leader req)) (hdr_ID (is_Header req)));;
    match requested_configuration req with
    | None => panic
    | Some (Err err) => reply term false (Some err)
    | Some (Ok (c, ci)) =>
        res <- receive_snapshot msec data rerr answer req c ci;;
        match res with
        | inl rpcErr => reply term false rpcErr
        | inr _ =>
            adopt_snapshot req c ci;;
            setLastContact now;;
            reply term true None
        end
    end)%go.
End Snapshot.

(** ** Compaction *)

Section SnapshotFacts.
Context {L K SN : Type} `{LogStore L} `{!LogStoreLaws L} `{StableStore K}
  `{SnapshotStore SN} `{MsgPack} `{PeerCodec}.
Abbreviation raft := (Raft L K SN).
Implicit Types r : raft.

(** The effect of deleting the entries from [first] to [bound] on the server,
    whether it succeeded or not. *)
Record compacted (bound : N) (err : option error) r r' : Prop := {
  co_ok : store_ok (logs r');
  co_above i l : GetLog (logs r) i = Ok l -> (bound < i)%N -> GetLog (logs r') i = Ok l;
  co_sub i l : GetLog (logs r') i = Ok l -> GetLog (logs r) i = Ok l;
  co_gone first i : err = None -> FirstIndex (logs r) = Ok first ->
    (first <= i <= bound)%N -> forall l, GetLog (logs r') i <> Ok l;
  co_frame : r' = with_logs (logs r') r
}.

Lemma compactLogsWithTrailing_compacted snapIdx last trailing r :
  store_ok (logs r) -> (last + 1 < u64_size)%N ->
  exists err r', compactLogsWithTrailing snapIdx last trailing r = Done err r' /\
    if decide (last <= trailing)%N then r' = r
    else compacted (N.min snapIdx (last - trailing)) err r r'.
Proof.
  intros Hok Hlt. unfold compactLogsWithTrailing.
  destruct (FirstIndex (logs r)) as [first|e] eqn:Hfirst.
  2:{ do 2 eexists. split; [done|]. case_decide; [done|]. split; [done..|by destruct r]. }
  case_decide as Htr; [eauto|].
  rewrite u64_sub_small by (unfold in_u64; lia). rewrite min_spec.
  case_decide as Hmin.
  { do 2 eexists. split; [done|]. split; [done..| |by destruct r].
    intros first' i _ Hf Hi. rewrite Hfirst in Hf. injection Hf as <-. lia. }
  pose proof (store_ok_DeleteRange _ first (N.min snapIdx (last - trailing)) Hok) as Hok'.
  destruct (DeleteRange _ _ _) as [l [e|]] eqn:HD; do 2 eexists; (split; [done|]);
    simpl in *.
  - split; simpl; [done|..|done|reflexivity].
    + intros i x Hx Hi. rewrite <- Hx. eapply GetLog_DeleteRange_outside; [done..|lia].
    + intros i x Hx. by eapply GetLog_DeleteRange_failed.
  - assert (forall i, GetLog l i = if decide (first <= i <= N.min snapIdx (last - trailing))%N
                                   then Err ErrLogNotFound else GetLog (logs r) i) as Hg
      by (intros i; apply GetLog_DeleteRange; [done|lia|done]).
    split; simpl; [done|..|reflexivity].
    + intros i x Hx Hi. by rewrite Hg, decide_False by lia.
    + intros i x. rewrite Hg. by case_decide.
    + intros first' i _ Hf Hi x. rewrite Hfirst in Hf. injection Hf as <-.
      by rewrite Hg, decide_True by lia.
Qed.

Lemma compactLogs_compacted snapIdx r :
  store_ok (logs r) -> (lastLogIndex (raft_state r) + 1 < u64_size)%N ->
  exists err r', compactLogs snapIdx r = Done err r' /\
    if decide (lastLogIndex (raft_state r) <= TrailingLogs (conf r))%N then r' = r
    else compacted (N.min snapIdx (lastLogIndex (raft_state r) - TrailingLogs (conf r)))
           err r r'.
Proof. apply compactLogsWithTrailing_compacted. Qed.

(** Compacting the log up to a snapshot removes no entry above the snapshot
    and none of the last [TrailingLogs] ones, adds nothing, and changes nothing
    else; unless an error is returned, everything from the first index up to that
    bound is gone. *)
Theorem compactLogs_safe snapIdx r :
  store_ok (logs r) -> (lastLogIndex (raft_state r) + 1 < u64_size)%N ->
  exists err r', compactLogs snapIdx r = Done err r' /\
    (forall i l, GetLog (logs r) i = Ok l ->
       (snapIdx < i \/ lastLogIndex (raft_state r) < i + TrailingLogs (conf r))%N ->
       GetLog (logs r') i = Ok l) /\
    (forall i l, GetLog (logs r') i = Ok l -> GetLog (logs r) i = Ok l) /\
    (forall first i l, err = None -> FirstIndex (logs r) = Ok first ->
       (first <= i <= snapIdx)%N ->
       (i + TrailingLogs (conf r) <= lastLogIndex (raft_state r))%N ->
       (TrailingLogs (conf r) < lastLogIndex (raft_state r))%N ->
       GetLog (logs r') i <> Ok l) /\
    r' = with_logs (logs r') r.
Proof.
  intros Hok Hlt. destruct (compactLogs_compacted snapIdx r Hok Hlt) as (err & r' & HE & HC).
  exists err, r'. split; [done|]. case_decide as Ht.
  - subst r'. split_and!; [done|done|lia|by destruct r].
  - destruct HC as [_ Ha Hs Hg Hf]. split_and!; [|done| |done].
    + intros i l Hl Hi. apply Ha; [done|lia].
    + intros first i l He Hfirst Hi Hi2 _. by apply (Hg first); [..|lia].
Qed.

(** ** Taking a snapshot *)

Lemma on_snapshots_Done {A} (m : M SN A) r a r' :
  on_snapshots m r = Done a r' -> exists s, r' = with_snapshots s r.
Proof.
  unfold on_snapshots. destruct (m (snapshots r)); [|done]. intros [= _ <-]. eauto.
Qed.

Inductive snapshot_outcome (snapReq : result (reqSnapshot SN))
    (configReq : result configurations) r : result string -> raft -> Prop :=
  | snapshot_abandoned s e :
      snapshot_outcome snapReq configReq r (Err e) (with_snapshots s r)
  | snapshot_recorded req configs s err r' res :
      snapReq = Ok req -> configReq = Ok configs ->
      (committedIndex configs <= rs_index req)%N ->
      compactLogs (rs_index req)
        (with_raft_state (raftState_setLastSnapshot (rs_index req) (rs_term req))
           (with_snapshots s r)) = Done err r' ->
      (forall id, res = Ok id -> err = None) ->
      snapshot_outcome snapReq configReq r res r'.

Lemma takeSnapshot_outcome msec snapReq configReq r res r' :
  takeSnapshot msec snapReq configReq r = Done res r' ->
  snapshot_outcome snapReq configReq r res r'.
Proof.
  intros HE. unfold takeSnapshot in HE. bind_inv HE. injection E as <- <-.
  assert (forall e, snapshot_outcome snapReq configReq r (Err e) r) as Hr.
  { intros e. pose proof (snapshot_abandoned snapReq configReq r (snapshots r) e) as Hs.
    by destruct r. }
  destruct (shutdown r); [injection HE as <- <-; apply Hr|].
  destruct snapReq as [req|e]; [|injection HE as <- <-; apply Hr].
  destruct configReq as [configs|e]; [|injection HE as <- <-; apply Hr].
  case_decide as Hci; [injection HE as <- <-; apply Hr|]. cbv zeta in HE.
  apply bind_Done in HE as (ro & r1 & [s1 ->]%on_snapshots_Done & HE).
  destruct ro as [sink|e]; [|injection HE as <- <-; constructor].
  apply bind_Done in HE as (perr & r2 & [s2 ->]%on_snapshots_Done & HE).
  destruct perr as [e|].
  { apply bind_Done in HE as (cerr & r3 & [s3 ->]%on_snapshots_Done & HE).
    injection HE as <- <-. apply (snapshot_abandoned _ _ r s3). }
  apply bind_Done in HE as (cerr & r3 & [s3 ->]%on_snapshots_Done & HE).
  destruct cerr as [e|]; [injection HE as <- <-; apply (snapshot_abandoned _ _ r s3)|].
  bind_inv HE. injection E as _ <-.
  apply bind_Done in HE as (err & r4 & E & HE).
  destruct err as [e|].
  - injection HE as <- <-.
    by apply (snapshot_recorded _ _ r req configs s3 (Some e)); [..|lia|exact E|].
  - bind_inv HE. injection E0 as <- <-. injection HE as <- <-.
    by apply (snapshot_recorded _ _ r req configs s3 None); [..|lia|exact E|].
Qed.


(** ** Installing a snapshot *)

Lemma receive_snapshot_frame msec data rerr answer req c ci r res r' :
  receive_snapshot msec data rerr answer req c ci r = Done res r' ->
  exists s q, r' = with_fsmMutateCh q (with_snapshots s r).
Proof.
  intros HE. unfold receive_snapshot in HE. bind_inv HE. injection E as <- <-.
  assert (forall s, exists s' q,
    with_snapshots s r = with_fsmMutateCh q (with_snapshots s' r)) as Hs.
  { intros s. exists s, (fsmMutateCh r). by destruct r. }
  apply bind_Done in HE as (ro & r1 & [s1 ->]%on_snapshots_Done & HE).
  destruct ro as [sink|e]; [|by injection HE as <- <-].
  apply bind_Done in HE as (n & r2 & [s2 ->]%on_snapshots_Done & HE).
  destruct n as [n|e].
  2:{ apply bind_Done in HE as (x & r3 & [s3 ->]%on_snapshots_Done & HE).
      injection HE as <- <-. apply (Hs s3). }
  destruct (decide (n <> is_Size req)) as [Hn|Hn].
  { apply bind_Done in HE as (x & r3 & [s3 ->]%on_snapshots_Done & HE).
    injection HE as <- <-. apply (Hs s3). }
  apply bind_Done in HE as (x & r3 & [s3 ->]%on_snapshots_Done & HE).
  destruct x as [e|]; [injection HE as <- <-; apply (Hs s3)|].
  bind_inv HE. injection E as <- <-. simpl in HE.
  destruct (shutdown r); [injection HE as <- <-; apply (Hs s3)|].
  bind_inv HE. injection E as _ <-.
  destruct answer as [e|]; injection HE as <- <-; eexists s3, _; reflexivity.
Qed.

(** The server after it recorded the position and the configuration of an
    installed snapshot, before the log is compacted. *)
Definition snapshot_adopted (req : InstallSnapshotRequest) (c : Configuration) (ci : N) r : raft :=
  with_latestConfiguration (Some (Configuration_Clone c))
    (with_configurations (mkConfigurations c ci c ci)
       (with_raft_state (fun s => raftState_setLastSnapshot (is_LastLogIndex req)
          (is_LastLogTerm req) (raftState_setLastApplied (is_LastLogIndex req) s)) r)).

Lemma adopt_snapshot_Done req c ci r u r' :
  store_ok (logs r) -> (lastLogIndex (raft_state r) + 1 < u64_size)%N ->
  adopt_snapshot req c ci r = Done u r' ->
  (IsMonotonic (logs r) = false -> forall i l, GetLog (logs r) i = Ok l ->
     (is_LastLogIndex req < i)%N -> GetLog (logs r') i = Ok l) /\
  (IsMonotonic (logs r) = false -> r' = with_logs (logs r') (snapshot_adopted req c ci r)).
Proof.
  intros Hok Hlt HE. unfold adopt_snapshot in HE.
  do 4 (bind_inv HE; injection E as _ <-). bind_inv HE. injection E as <- <-. simpl in HE.
  destruct (IsMonotonic (logs r)); [by split|].
  apply bind_Done in HE as (err & r1 & E & HE). injection HE as _ <-.
  destruct (compactLogs_compacted (is_LastLogIndex req) (snapshot_adopted req c ci r) Hok Hlt)
    as (err' & r2 & HE' & HC).
  change (compactLogs (is_LastLogIndex req) (snapshot_adopted req c ci r) = Done err r1) in E.
  rewrite E in HE'. injection HE' as <- <-. unfold snapshot_adopted in *. simpl in *.
  revert HC. case_decide.
  - intros ->. simpl. split; [done|by destruct r].
  - intros [_ Ha _ _ Hf]. simpl in *. split; [|by intros _]. intros _ i l Hl Hi.
    apply Ha; [done|lia].
Qed.

Lemma install_start_Done req r term r1 u r2 addr id :
  (currentTerm (raft_state r) <= is_Term req)%N ->
  (if decide (currentTerm (raft_state r) < is_Term req)%N
   then (setState Follower;; setCurrentTerm (is_Term req);; returns (is_Term req))%go
   else returns (currentTerm (raft_state r))) r = Done term r1 ->
  setLeader addr id r1 = Done u r2 ->
  currentTerm (raft_state r2) = is_Term req /\
  unled r2 = unled (with_stable (stable r2) r).
Proof.
  intros Hle HE. rewrite setLeader_eq. intros [= _ <-]. case_decide as Hd.
  - bind_inv HE. rewrite setState_eq in E. injection E as _ <-.
    bind_inv HE. unfold setCurrentTerm in E. simpl in E.
    destruct (SetUint64 _ _ _) as [k [e|]] eqn:HS; [done|]. injection E as _ <-.
    injection HE as <- <-. done.
  - injection HE as <- <-. split; [simpl; lia|]. by destruct r as [[]].
Qed.

(** What installing a snapshot replaces. *)
Definition snapshot_view r : L * (N * N) * (N * N) * N * configurations :=
  (logs r, getLastLog (raft_state r), getLastSnapshot (raft_state r),
   lastApplied (raft_state r), raft_configurations r).

(** C22: [installSnapshot] on a store that need not stay contiguous.  A request of an
    older term changes nothing.  Unless the answer is success, log, snapshot
    position, applied index and configurations stay as they were.  On success the
    term is the one of the request, the snapshot position and the applied index are
    the request's, its configuration is both committed and latest, and every log
    entry above the snapshot is still there. *)
Theorem installSnapshot_spec now msec data rerr answer req r resp err r' :
  store_ok (logs r) -> (lastLogIndex (raft_state r) + 1 < u64_size)%N ->
  IsMonotonic (logs r) = false ->
  installSnapshot now msec data rerr answer req r = Done (resp, err) r' ->
  ((is_Term req < currentTerm (raft_state r))%N -> isr_Success resp = false /\ r' = r) /\
  (isr_Success resp = false -> snapshot_view r' = snapshot_view r) /\
  (isr_Success resp = true ->
     err = None /\ currentTerm (raft_state r') = is_Term req /\
     getLastSnapshot (raft_state r') = (is_LastLogIndex req, is_LastLogTerm req) /\
     lastApplied (raft_state r') = is_LastLogIndex req /\
     (exists c ci, requested_configuration req = Some (Ok (c, ci)) /\
        raft_configurations r' = mkConfigurations c ci c ci) /\
     forall i l, GetLog (logs r) i = Ok l -> (is_LastLogIndex req < i)%N ->
       GetLog (logs r') i = Ok l).
Proof.
  intros Hok Hlt Hmono HE. unfold installSnapshot in HE.
  bind_inv HE. injection E as <- <-. cbv zeta in HE.
  case_decide; [by injection HE as <- <- <-|].
  case_decide as Hst; [by injection HE as <- <- <-|].
  apply bind_Done in HE as (term & r0 & E0 & HE).
  apply bind_Done in HE as (u & r1 & E1 & HE).
  assert (currentTerm (raft_state r1) = is_Term req /\
          unled r1 = unled (with_stable (stable r1) r)) as [Ht Hu].
  { destruct (decide (hdr_ID (is_Header req) <> ""));
      (eapply install_start_Done; [lia|exact E0|exact E1]). }
  pose proof (f_equal snapshot_view Hu) as Hv. change (snapshot_view r1 = snapshot_view r) in Hv.
  destruct (requested_configuration req) as [[[c ci]|e]|] eqn:Hc; [| |done].
  2:{ injection HE as <- <- <-. by split_and!. }
  apply bind_Done in HE as (res & r2 & E2 & HE).
  apply receive_snapshot_frame in E2 as (s & q & ->).
  destruct res as [rpcErr|].
  { injection HE as <- <- <-. by split_and!. }
  apply bind_Done in HE as (u2 & r3 & E3 & HE). bind_inv HE. injection E as _ <-.
  injection HE as <- <- <-. injection Hv as Hl HL1 HL2 _ _ _ _.
  apply adopt_snapshot_Done in E3 as [Hk Hf]; simpl; rewrite ?Hl, ?HL1; [|done..].
  simpl in Hk, Hf. rewrite Hl in Hk, Hf. specialize (Hk Hmono). specialize (Hf Hmono).
  assert (raft_state r3 = raft_state (snapshot_adopted req c ci r1) /\
          raft_configurations r3 = mkConfigurations c ci c ci) as [Hr Hcs] by (by rewrite Hf).
  unfold getLastSnapshot. rewrite !Hr. simpl. split_and!; [lia|done|].
  intros _. split_and!; [done|done|done|done|eauto|done].
Qed.
End SnapshotFacts.

(** A snapshot is due exactly when the store's last index is the threshold or
    more ahead of the last snapshot, computed modulo 2^64: when the store ends before
    the snapshot, as after installing one into an empty log, the difference wraps
    around and a snapshot is due for every realistic threshold. *)
Theorem shouldSnapshot_exact {L K SN} `{LogStore L} (r : Raft L K SN) lastIdx :
  LastIndex (logs r) = Ok lastIdx -> in_u64 lastIdx ->
  in_u64 (lastSnapshotIndex (raft_state r)) ->
  let lastSnap := lastSnapshotIndex (raft_state r) in
  shouldSnapshot r = true <->
  (lastSnap <= lastIdx /\ SnapshotThreshold (conf r) <= lastIdx - lastSnap)%N \/
  (lastIdx < lastSnap /\ SnapshotThreshold (conf r) <= u64_size - (lastSnap - lastIdx))%N.
Proof.
  intros HL H1 H2. unfold shouldSnapshot, getLastSnapshot. rewrite HL, bool_decide_eq_true.
  destruct (decide (lastSnapshotIndex (raft_state r) <= lastIdx)%N).
  - rewrite u64_sub_small by done. lia.
  - rewrite u64_sub_wrap by (done || lia). lia.
Qed.

(** ** Concrete instances *)

#[local] Existing Instance bitsMsgPack.
#[local] Existing Instance inmemPeerCodec.

(** The follower of [AppendEntries] with an in-memory snapshot store and one
    trailing entry to keep. *)
Definition follower_s : Raft InmemStore InmemStore InmemSnapshotStore :=
  mkRaft (mkRaftState 3 3 3 0 0 3 2 Follower) 3
    (mkConfig 3 (1000 * Millisecond) (1000 * Millisecond) (50 * Millisecond) 64 false true
       1 (120 * Second) 2 (500 * Millisecond) "a" "DEBUG" false false false false)
    "a" "addr-a" 0 "" "" false false
    (inmem_StoreLogs_loop NewInmemStore log_b) disk_a NewInmemSnapshotStore
    (mkConfigurations trio 1 trio 1) (Some trio) [] ∅ [] false.

Lemma follower_s_ok : store_ok (logs follower_s).
Proof. apply (cached_store follower_a), follower_a_cached. Qed.

Lemma compactLogs_safe_witness :
  exists err r', compactLogs 2 follower_s = Done err r' /\
    GetLog (logs r') 3 = Ok (cmd 3 2 "z").
Proof.
  destruct (compactLogs_safe 2 follower_s) as (err & r' & HE & Hk & _);
    [apply follower_s_ok|reflexivity|].
  exists err, r'. split; [exact HE|]. apply Hk; [reflexivity|left; reflexivity].
Defined.

Definition persist_ok (data : string) : reqSnapshot InmemSnapshotStore :=
  mkReqSnapshot 2 1 (fun sink => (n <- sink_Write sink data;; returns None)%go).


Definition install_b : InstallSnapshotRequest :=
  mkInstallSnapshotRequest (mkHeader 3 "b" "addr-b") 1 4 "addr-b" 2 1 ""
    (encode_bits trio) 1 5.

Lemma installSnapshot_spec_witness :
  exists resp r',
    installSnapshot 9 7 "state" None None install_b follower_s = Done (resp, None) r' /\
    isr_Success resp = true /\ lastApplied (raft_state r') = 2%N /\
    GetLog (logs r') 3 = Ok (cmd 3 2 "z").
Proof.
  destruct (installSnapshot 9 7 "state" None None install_b follower_s)
    as [[resp err] r'|] eqn:HE; [|vm_compute in HE; congruence].
  destruct (installSnapshot_spec 9 7 "state" None None install_b follower_s resp err r')
    as (_ & _ & Hs); [apply follower_s_ok|reflexivity|reflexivity|exact HE|].
  assert (isr_Success resp = true) as Hok.
  { vm_compute in HE. injection HE as <- _ _. reflexivity. }
  destruct (Hs Hok) as (-> & _ & _ & Ha & _ & Hk). exists resp, r'.
  split_and!; [reflexivity|exact Hok|exact Ha|]. apply Hk; reflexivity.
Defined.

Lemma shouldSnapshot_exact_witness :
  shouldSnapshot follower_s = true /\ LastIndex (logs follower_s) = Ok 3%N.
Proof.
  split; [|reflexivity].
  apply (shouldSnapshot_exact follower_s 3); [reflexivity|reflexivity|reflexivity|].
  left. split; vm_compute; congruence.
Defined.
