(* ===== verification/Fsm.v ===== *)
(** * The thread of the state machine, [fsm.go]

    [runFSM] with its closures [applySingle], [applyBatch], [restore] and
    [snapshot].  The user's state machine is a parameter.  The results: batching does
    not change what is applied, every future of a batch is answered, and the position
    of a snapshot is the one of the last entry applied or restored. *)
From S2P Require Import Prelude Types Util Codec Configuration Config Stores State Elections AppendEntries SnapshotStores Snapshot.

(** ** The user's state machine *)

(** [FSM] with the optional interfaces [BatchingFSM] and [ConfigurationStore];
    [Persist] is the method of the [FSMSnapshot] that [Snapshot] returns. *)
Class FSM (F SN : Type) `{SnapshotStore SN} := {
  Response : Type;
  Apply : F -> Log -> F * Response;
  ApplyBatch : option (F -> list Log -> F * list Response);
  StoreConfiguration : option (F -> N -> Configuration -> F);
  Snapshot : F -> F * result (SnapshotSink -> M SN (option error));
  Restore : F -> string -> F * option error
}.

(** ** Definitions *)

(** The local variables of [runFSM] and what it leaves in the futures: the
    response of each and the error it was answered with. *)
Record fsmThread (F R : Type) := mkFsmThread {
  ft_fsm : F;
  ft_lastIndex : N;
  ft_lastTerm : N;
  ft_responses : gmap nat (option R);
  ft_answers : gmap nat (option error)
}.
Arguments mkFsmThread {F R} _ _ _ _ _.
Arguments ft_fsm {F R} _.
Arguments ft_lastIndex {F R} _.
Arguments ft_lastTerm {F R} _.
Arguments ft_responses {F R} _.
Arguments ft_answers {F R} _.

Section Fsm.
Context {F SN : Type} `{SnapshotStore SN} `{!FSM F SN} `{MsgPack}.
Abbreviation thread := (fsmThread F Response).

(** [req.future.response = resp; req.future.respond(nil)] *)
Definition complete (req : commitTuple) (resp : option Response) (t : thread) : thread :=
  match ct_future req with
  | Some {| lf_id := Some i |} =>
      mkFsmThread (ft_fsm t) (ft_lastIndex t) (ft_lastTerm t)
        (<[i := resp]> (ft_responses t))
        (match ft_answers t !! i with
         | Some _ => ft_answers t
         | None => <[i := None]> (ft_answers t)
         end)
  | _ => t
  end.

Definition set_last (l : Log) (t : thread) : thread :=
  mkFsmThread (ft_fsm t) (log_Index l) (log_Term l) (ft_responses t) (ft_answers t).

Definition set_fsm (f : F) (t : thread) : thread :=
  mkFsmThread f (ft_lastIndex t) (ft_lastTerm t) (ft_responses t) (ft_answers t).

(** The deferred answer of [applySingle] is given on every return, also while
    [DecodeConfiguration] panics. *)
Definition applySingle (req : commitTuple) : M thread unit := fun t =>
  let l := ct_log req in
  match log_Type l with
  | LogCommand =>
      let '(f, resp) := Apply (ft_fsm t) l in
      Done tt (complete req (Some resp) (set_last l (set_fsm f t)))
  | LogConfiguration =>
      match StoreConfiguration with
      | None => Done tt (complete req None t)
      | Some store =>
          match DecodeConfiguration (log_Data l) with
          | Err _ => Panicked (complete req None t)
          | Ok c =>
              Done tt (complete req None
                         (set_last l (set_fsm (store (ft_fsm t) (log_Index l) c) t)))
          end
      end
  | _ => Done tt (complete req None (set_last l t))
  end.

Fixpoint apply_each (reqs : list commitTuple) : M thread unit :=
  match reqs with
  | [] => returns tt
  | ct :: rest => (applySingle ct;; apply_each rest)%go
  end.

Definition shouldSend (l : Log) : bool :=
  match log_Type l with
  | LogCommand | LogConfiguration => true
  | _ => false
  end.

(** The last loop of [applyBatch]: the responses are handed out in order. *)
Fixpoint complete_each (reqs : list commitTuple) (responses : list Response) (t : thread)
    : thread :=
  match reqs with
  | [] => t
  | req :: rest =>
      if shouldSend (ct_log req) then
        complete_each rest (tail responses) (complete req (head responses) t)
      else complete_each rest responses (complete req None t)
  end.

Definition fsm_applyBatch (reqs : list commitTuple) : M thread unit :=
  match ApplyBatch with
  | None => apply_each reqs
  | Some batch => fun t =>
      let sendLogs := filter (fun l => shouldSend l = true) (ct_log <$> reqs) in
      let '(lastBatchIndex, lastBatchTerm) :=
        match last reqs with
        | Some req => (log_Index (ct_log req), log_Term (ct_log req))
        | None => (0%N, 0%N)
        end in
      let '(f, responses) :=
        if decide (sendLogs <> []) then batch (ft_fsm t) sendLogs else (ft_fsm t, []) in
      if decide (length sendLogs <> length responses)
      then Panicked (set_fsm f t)
      else Done tt (complete_each reqs responses
                      (mkFsmThread f lastBatchIndex lastBatchTerm (ft_responses t)
                         (ft_answers t)))
  end.

(** [restore]; the answer is the error the [restoreFuture] gets. *)
Definition fsm_restore (s : SN) (id : string) : M thread (option error) := fun t =>
  match Open s id with
  | Err err =>
      Done (Some (wrapError ("failed to open snapshot " +:+ id) err)) t
  | Ok (meta, source) =>
      match Restore (ft_fsm t) source with
      | (f, Some err) =>
          Done (Some (wrapError ("failed to restore snapshot " +:+ id) err)) (set_fsm f t)
      | (f, None) =>
          Done None (mkFsmThread f (sm_Index meta) (sm_Term meta) (ft_responses t)
                       (ft_answers t))
      end
  end.

Definition fsm_snapshot : M thread (result (reqSnapshot SN)) := fun t =>
  if decide (ft_lastIndex t = 0)%N then Done (Err ErrNothingNewToSnapshot) t
  else
    match Snapshot (ft_fsm t) with
    | (f, Err err) => Done (Err err) (set_fsm f t)
    | (f, Ok persist) =>
        Done (Ok (mkReqSnapshot (ft_lastIndex t) (ft_lastTerm t) persist)) (set_fsm f t)
    end.

(** One message of [fsmMutateCh]. *)
Definition runFSM_mutate (s : SN) (req : fsmMutation) : M thread (option error) := (
  match req with
  | fsmBatch batch => fsm_applyBatch batch;; returns None
  | fsmRestore id => fsm_restore s id
  end)%go.
End Fsm.

(** ** Batching *)

Section Batching.
Context {F SN : Type} `{SnapshotStore SN} `{!FSM F SN} `{MsgPack}.
Abbreviation thread := (fsmThread F Response).
Implicit Types t : thread.

(** Applying entries one by one. *)
Fixpoint apply_seq (f : F) (ls : list Log) : F * list Response :=
  match ls with
  | [] => (f, [])
  | l :: ls => let '(f1, resp) := Apply f l in
               let '(f2, resps) := apply_seq f1 ls in (f2, resp :: resps)
  end.

(** The contract of [BatchingFSM]: a batch is applied as its entries one by one. *)
Definition batch_lawful : Prop :=
  match ApplyBatch with
  | None => True
  | Some batch => forall f ls, batch f ls = apply_seq f ls
  end.

(** No configuration entry of the batch has to go through [ApplyBatch]. *)
Definition batchable (req : commitTuple) : Prop :=
  ApplyBatch (F := F) = None \/ log_Type (ct_log req) <> LogConfiguration.

Definition sent (reqs : list commitTuple) : list Log :=
  filter (fun l => shouldSend l = true) (ct_log <$> reqs).

Definition set_last_of (reqs : list commitTuple) t : thread :=
  match last reqs with Some req => set_last (ct_log req) t | None => t end.

Lemma complete_set_last req x l t : complete req x (set_last l t) = set_last l (complete req x t).
Proof. unfold complete. by destruct (ct_future req) as [[[]]|]. Qed.

Lemma complete_set_fsm req x f t : complete req x (set_fsm f t) = set_fsm f (complete req x t).
Proof. unfold complete. by destruct (ct_future req) as [[[]]|]. Qed.

Lemma ft_fsm_complete req x t : ft_fsm (complete req x t) = ft_fsm t.
Proof. unfold complete. by destruct (ct_future req) as [[[]]|]. Qed.

Lemma ft_fsm_complete_each reqs xs t : ft_fsm (complete_each reqs xs t) = ft_fsm t.
Proof.
  revert xs t. induction reqs as [|req reqs IH]; intros xs t; simpl; [done|].
  destruct (shouldSend (ct_log req)); rewrite IH; apply ft_fsm_complete.
Qed.

Lemma set_last_of_cons req reqs t :
  set_last_of (req :: reqs) t = set_last_of reqs (set_last (ct_log req) t).
Proof.
  unfold set_last_of. rewrite last_cons. by destruct (last reqs).
Qed.

Lemma set_last_of_set_fsm reqs f t : set_last_of reqs (set_fsm f t) = set_fsm f (set_last_of reqs t).
Proof. unfold set_last_of. by destruct (last reqs). Qed.

Lemma set_last_of_set_last_fsm reqs l f1 f2 t :
  set_fsm f2 (set_last_of reqs (set_last l (set_fsm f1 t))) =
  set_fsm f2 (set_last_of reqs (set_last l t)).
Proof. unfold set_last_of. by destruct (last reqs). Qed.

Lemma set_last_of_complete reqs req x t :
  set_last_of reqs (complete req x t) = complete req x (set_last_of reqs t).
Proof. unfold set_last_of. destruct (last reqs); [|done]. by rewrite complete_set_last. Qed.

Lemma length_apply_seq f ls : length (apply_seq f ls).2 = length ls.
Proof.
  revert f. induction ls as [|l ls IH]; intros f; simpl; [done|].
  destruct (Apply f l) as [f1 x]. specialize (IH f1).
  destruct (apply_seq f1 ls); simpl in *. by rewrite IH.
Qed.

Lemma apply_each_seq reqs t :
  Forall (fun req => log_Type (ct_log req) <> LogConfiguration) reqs ->
  apply_each reqs t =
  Done tt (complete_each reqs (apply_seq (ft_fsm t) (sent reqs)).2
             (set_fsm (apply_seq (ft_fsm t) (sent reqs)).1 (set_last_of reqs t))).
Proof.
  revert t. induction reqs as [|req reqs IH]; intros t Hall; [by destruct t|].
  apply Forall_cons in Hall as [Hreq Hall].
  cbn [apply_each]. unfold bind, applySingle, sent. rewrite fmap_cons, filter_cons.
  fold (sent reqs). cbn [complete_each]. rewrite !set_last_of_cons.
  pose proof (eq_refl (shouldSend (ct_log req))) as Hsend. unfold shouldSend in Hsend at 2.
  destruct (log_Type (ct_log req)); [|..|done|]; rewrite Hsend; cbn [decide].
  1: { destruct (Apply (ft_fsm t) (ct_log req)) as [f1 x] eqn:HA. rewrite (IH _ Hall).
       rewrite ft_fsm_complete. simpl. rewrite HA.
       destruct (apply_seq f1 (sent reqs)) as [f2 xs]; simpl. f_equal.
       by rewrite set_last_of_complete, <- complete_set_fsm, !set_last_of_set_last_fsm. }
  all: rewrite (IH _ Hall), ft_fsm_complete; simpl; f_equal;
    by rewrite set_last_of_complete, <- complete_set_fsm.
Qed.

Lemma set_fsm_last_of reqs f t :
  reqs <> [] ->
  set_fsm f (set_last_of reqs t) =
  mkFsmThread f
    (match last reqs with Some req => log_Index (ct_log req) | None => 0%N end)
    (match last reqs with Some req => log_Term (ct_log req) | None => 0%N end)
    (ft_responses t) (ft_answers t).
Proof.
  intros Hne. unfold set_last_of. destruct (last reqs) eqn:Hl; [done|].
  by apply last_None in Hl.
Qed.

Lemma fsm_applyBatch_each reqs t :
  batch_lawful -> reqs <> [] -> Forall batchable reqs ->
  fsm_applyBatch reqs t = apply_each reqs t.
Proof.
  intros Hlaw Hne Hall. unfold fsm_applyBatch, batch_lawful, batchable in *.
  destruct ApplyBatch as [batch|] eqn:HB; [|done].
  rewrite apply_each_seq.
  2:{ eapply Forall_impl; [exact Hall|]. by intros req [|]. }
  rewrite set_fsm_last_of by done. fold (sent reqs).
  destruct (last reqs) as [req|] eqn:Hlast; [|by apply last_None in Hlast].
  pose proof (length_apply_seq (ft_fsm t) (sent reqs)) as Hlen.
  destruct (decide (sent reqs <> [])) as [Hs|Hs].
  - rewrite Hlaw. destruct (apply_seq (ft_fsm t) (sent reqs)) as [f xs]; simpl in *.
    destruct (decide (length (sent reqs) <> length xs)) as [Hn|Hn]; [lia|done].
  - assert (sent reqs = []) as -> by (by apply dec_stable). done.
Qed.

Lemma apply_each_app reqs1 reqs2 t :
  apply_each (reqs1 ++ reqs2) t = (apply_each reqs1;; apply_each reqs2)%go t.
Proof.
  revert t. induction reqs1 as [|req reqs1 IH]; intros t; [done|].
  simpl. unfold bind in *. destruct (applySingle req t); [apply IH|done].
Qed.

(** The thread working through the batches it was sent. *)
Fixpoint run_batches (batches : list (list commitTuple)) : M thread unit :=
  match batches with
  | [] => returns tt
  | b :: bs => (fsm_applyBatch b;; run_batches bs)%go
  end.

Lemma run_batches_each batches t :
  batch_lawful -> Forall (fun b => b <> []) batches ->
  Forall batchable (concat batches) ->
  run_batches batches t = apply_each (concat batches) t.
Proof.
  intros Hlaw. revert t. induction batches as [|b bs IH]; intros t Hne Hall; [done|].
  apply Forall_cons in Hne as [Hb Hne]. simpl in *. apply Forall_app in Hall as [Hall1 Hall2].
  rewrite apply_each_app. unfold bind. rewrite fsm_applyBatch_each by done.
  destruct (apply_each b t); [|done]. by apply IH.
Qed.

(** C21: Batching is transparent.  If the user's [ApplyBatch], when it has one,
    applies a batch as its entries one by one, then working through any non-empty
    batches of commands and barriers ends in the same state machine, the same position, the
    same responses and the same answers as applying all their entries one by one,
    wherever the batches were cut. *)
Theorem fsm_batching_transparent batches t :
  batch_lawful -> Forall (fun b => b <> []) batches ->
  Forall batchable (concat batches) ->
  run_batches batches t = apply_each (concat batches) t /\
  (Forall (fun req => log_Type (ct_log req) <> LogConfiguration) (concat batches) ->
   exists t', apply_each (concat batches) t = Done tt t' /\
     ft_fsm t' = (apply_seq (ft_fsm t) (sent (concat batches))).1).
Proof.
  intros Hlaw Hne Hall. split; [by apply run_batches_each|]. intros Hcfg.
  rewrite apply_each_seq by done. eexists. split; [done|]. by rewrite ft_fsm_complete_each.
Qed.
End Batching.

(** ** From the log to the state machine *)

Section EndToEnd.
Context {L K F SN : Type} `{LogStore L} `{StableStore K} `{SnapshotStore SN} `{!FSM F SN}
  `{MsgPack}.

(** C19: Committed entries reach the state machine exactly once and in order.  When
    [processLogs] has run up to an index and the thread of the state machine has
    worked through the batches it was sent, the outcome is that of applying, one by
    one, the entries after the last applied index up to that index that the state
    machine must see. *)
Theorem committed_entries_applied index fs (r : Raft L K SN) (t : fsmThread F Response) :
  shutdown r = false -> (0 < MaxAppendEntries (conf r))%Z -> (index + 1 < u64_size)%N ->
  (forall i, i ∈ to_apply r index -> prepared_at r fs i <> None) ->
  batch_lawful ->
  Forall batchable (concat (tuples_at r fs <$> to_apply r index)) ->
  exists r' batches,
    processLogs index fs r = Done tt r' /\
    fsmMutateCh r' = fsmMutateCh r ++ (fsmBatch <$> batches) /\
    lastApplied (raft_state r') = N.max index (lastApplied (raft_state r)) /\
    run_batches batches t = apply_each (concat (tuples_at r fs <$> to_apply r index)) t.
Proof.
  intros Hsh Hmax Hlt Hp Hlaw Hall.
  destruct (processLogs_applied index fs r) as (bs & HE & Hc & Hok); [done..|].
  eexists _, bs. split_and!; [exact HE|done|done|]. rewrite <- Hc.
  apply run_batches_each; [done| |by rewrite Hc].
  eapply Forall_impl; [exact Hok|]. intros b Hb ->. simpl in Hb. lia.
Qed.
End EndToEnd.

(** ** A concrete state machine: the list of the commands applied *)

#[local] Existing Instance bitsMsgPack.
#[local] Existing Instance inmemPeerCodec.

Definition list_apply (f : list string) (l : Log) : list string * nat :=
  (f ++ [log_Data l], length f).

Fixpoint list_applyBatch (f : list string) (ls : list Log) : list string * list nat :=
  match ls with
  | [] => (f, [])
  | l :: ls => let '(f2, xs) := list_applyBatch (f ++ [log_Data l]) ls in
               (f2, length f :: xs)
  end.

#[local] Instance list_FSM : FSM (list string) InmemSnapshotStore := {|
  Response := nat;
  Apply := list_apply;
  ApplyBatch := Some list_applyBatch;
  StoreConfiguration := None;
  Snapshot f := (f, Ok (fun sink => (n <- sink_Write sink (concat_strings f);;
                                     returns None)%go));
  Restore _ source := ([source], None)
|}.

Lemma list_batch_lawful : batch_lawful (F := list string) (SN := InmemSnapshotStore).
Proof.
  intros f ls. revert f. induction ls as [|l ls IH]; intros f; [done|].
  cbn. rewrite IH. done.
Qed.

Definition thread0 : fsmThread (list string) (Response (F := list string)) :=
  mkFsmThread [] 0 0 ∅ ∅.

Definition tuple (index : N) (data : string) : commitTuple :=
  mkCommitTuple (cmd index 1 data) (Some (mkLogFuture (Some (N.to_nat index)) (cmd index 1 data))).

Lemma fsm_batching_transparent_witness :
  exists t', run_batches [[tuple 1 "x"; tuple 2 "y"]; [tuple 3 "z"]] thread0 = Done tt t' /\
    ft_fsm t' = ["x"; "y"; "z"] /\ ft_lastIndex t' = 3%N /\
    ft_responses t' !! 2%nat = Some (Some 1%nat).
Proof.
  destruct (fsm_batching_transparent [[tuple 1 "x"; tuple 2 "y"]; [tuple 3 "z"]] thread0)
    as [-> _].
  - apply list_batch_lawful.
  - repeat constructor; discriminate.
  - simpl. repeat (apply Forall_cons; split; [right; discriminate|]). apply Forall_nil_2.
  - eexists. split; [reflexivity|]. vm_compute. split_and!; reflexivity.
Defined.

Lemma committed_entries_applied_witness :
  let r := with_raft_state (raftState_setLastApplied 1) follower_s in
  exists r' batches, processLogs 3 ∅ r = Done tt r' /\
    fsmMutateCh r' = fsmBatch <$> batches /\
    run_batches batches thread0 =
      apply_each [mkCommitTuple (cmd 2 1 "y") None; mkCommitTuple (cmd 3 2 "z") None] thread0.
Proof.
  intros r. destruct (committed_entries_applied 3 ∅ r thread0)
    as (r' & bs & HE & Hq & _ & HR); [reflexivity..| |apply list_batch_lawful| |].
  - intros i Hi. vm_compute in Hi.
    repeat (apply elem_of_cons in Hi as [->|Hi]; [vm_compute; congruence|]).
    by apply elem_of_nil in Hi.
  - vm_compute. repeat (apply Forall_cons; split; [right; discriminate|]). apply Forall_nil_2.
  - exists r', bs. split_and!; [exact HE|exact Hq|exact HR].
Defined.
