(* ===== verification/Replication.v ===== *)
(** * Replication from a leader to its followers, [replication.go]

    The leader's view of one follower ([followerReplication]), the requests it
    builds for it and what it does with the answers.  The state of these functions
    is a server together with its [leaderState]; verification futures are shared
    between the leader and its replication routines, so they live in a store of
    their own and are referred to by their address. *)
From S2P Require Import Prelude Types Util Codec Configuration Config Commitment Stores State Elections AppendEntries SnapshotStores Snapshot.

(** ** The leader's state *)

(** [vf_notifyCh] is whether the channel is still set. *)
Record verifyFuture := mkVerifyFuture {
  vf_notifyCh : bool;
  vf_quorumSize : Z;
  vf_votes : Z
}.

(** The channels of capacity one are the token they may hold; the pointers to
    the commitment and to the step-down channel are the ones of the leader. *)
Record followerReplication := mkFollowerReplication {
  fr_currentTerm : N;
  fr_nextIndex : N;
  fr_peer : Server;
  fr_triggerCh : bool;
  fr_lastContact : Z;
  fr_failures : N;
  fr_notifyCh : bool;
  fr_notify : gset nat;
  fr_allowPipeline : bool
}.

(** [ls_verifies] is the store of verification futures, [ls_verifyCh] the ones sent
    to the main thread and not yet received, and [ls_stopped] the replication
    routines that were told to stop, with the index to replicate up to. *)
Record leaderState := mkLeaderState {
  leadershipTransferInProgress : bool;
  ls_commitment : commitment;
  inflight : list logFuture;
  replState : gmap ServerID followerReplication;
  ls_notify : gset nat;
  ls_stepDown : bool;
  ls_verifies : gmap nat verifyFuture;
  ls_verifyCh : list nat;
  ls_stopped : list (followerReplication * N)
}.

Record LeaderRaft (L K SN : Type) := mkLeaderRaft {
  lr_raft : Raft L K SN;
  lr_leader : leaderState
}.
Arguments mkLeaderRaft {L K SN} _ _.
Arguments lr_raft {L K SN} _.
Arguments lr_leader {L K SN} _.

(** Struct updates of one field. *)
Definition fr_set_nextIndex (n : N) (s : followerReplication) : followerReplication :=
  mkFollowerReplication (fr_currentTerm s) n (fr_peer s) (fr_triggerCh s)
    (fr_lastContact s) (fr_failures s) (fr_notifyCh s) (fr_notify s)
    (fr_allowPipeline s).

Definition fr_set_peer (p : Server) (s : followerReplication) : followerReplication :=
  mkFollowerReplication (fr_currentTerm s) (fr_nextIndex s) p (fr_triggerCh s)
    (fr_lastContact s) (fr_failures s) (fr_notifyCh s) (fr_notify s)
    (fr_allowPipeline s).

Definition fr_set_triggerCh (b : bool) (s : followerReplication) : followerReplication :=
  mkFollowerReplication (fr_currentTerm s) (fr_nextIndex s) (fr_peer s) b
    (fr_lastContact s) (fr_failures s) (fr_notifyCh s) (fr_notify s)
    (fr_allowPipeline s).

Definition fr_set_lastContact (t : Z) (s : followerReplication) : followerReplication :=
  mkFollowerReplication (fr_currentTerm s) (fr_nextIndex s) (fr_peer s)
    (fr_triggerCh s) t (fr_failures s) (fr_notifyCh s) (fr_notify s)
    (fr_allowPipeline s).

Definition fr_set_failures (n : N) (s : followerReplication) : followerReplication :=
  mkFollowerReplication (fr_currentTerm s) (fr_nextIndex s) (fr_peer s)
    (fr_triggerCh s) (fr_lastContact s) n (fr_notifyCh s) (fr_notify s)
    (fr_allowPipeline s).

Definition fr_set_notifyCh (b : bool) (s : followerReplication) : followerReplication :=
  mkFollowerReplication (fr_currentTerm s) (fr_nextIndex s) (fr_peer s)
    (fr_triggerCh s) (fr_lastContact s) (fr_failures s) b (fr_notify s)
    (fr_allowPipeline s).

Definition fr_set_notify (m : gset nat) (s : followerReplication) : followerReplication :=
  mkFollowerReplication (fr_currentTerm s) (fr_nextIndex s) (fr_peer s)
    (fr_triggerCh s) (fr_lastContact s) (fr_failures s) (fr_notifyCh s) m
    (fr_allowPipeline s).

Definition fr_set_allowPipeline (b : bool) (s : followerReplication) : followerReplication :=
  mkFollowerReplication (fr_currentTerm s) (fr_nextIndex s) (fr_peer s)
    (fr_triggerCh s) (fr_lastContact s) (fr_failures s) (fr_notifyCh s)
    (fr_notify s) b.

Definition ls_set_transfer (b : bool) (l : leaderState) : leaderState :=
  mkLeaderState b (ls_commitment l) (inflight l) (replState l) (ls_notify l)
    (ls_stepDown l) (ls_verifies l) (ls_verifyCh l) (ls_stopped l).

Definition ls_set_commitment (c : commitment) (l : leaderState) : leaderState :=
  mkLeaderState (leadershipTransferInProgress l) c (inflight l) (replState l)
    (ls_notify l) (ls_stepDown l) (ls_verifies l) (ls_verifyCh l) (ls_stopped
    l).

Definition ls_set_inflight (q : list logFuture) (l : leaderState) : leaderState :=
  mkLeaderState (leadershipTransferInProgress l) (ls_commitment l) q (replState
    l) (ls_notify l) (ls_stepDown l) (ls_verifies l) (ls_verifyCh l) (ls_stopped
    l).

Definition ls_set_replState (m : gmap ServerID followerReplication) (l : leaderState) : leaderState :=
  mkLeaderState (leadershipTransferInProgress l) (ls_commitment l) (inflight l)
    m (ls_notify l) (ls_stepDown l) (ls_verifies l) (ls_verifyCh l) (ls_stopped
    l).

Definition ls_set_notify (m : gset nat) (l : leaderState) : leaderState :=
  mkLeaderState (leadershipTransferInProgress l) (ls_commitment l) (inflight l)
    (replState l) m (ls_stepDown l) (ls_verifies l) (ls_verifyCh l) (ls_stopped
    l).

Definition ls_set_stepDown (b : bool) (l : leaderState) : leaderState :=
  mkLeaderState (leadershipTransferInProgress l) (ls_commitment l) (inflight l)
    (replState l) (ls_notify l) b (ls_verifies l) (ls_verifyCh l) (ls_stopped
    l).

Definition ls_set_verifies (m : gmap nat verifyFuture) (l : leaderState) : leaderState :=
  mkLeaderState (leadershipTransferInProgress l) (ls_commitment l) (inflight l)
    (replState l) (ls_notify l) (ls_stepDown l) m (ls_verifyCh l) (ls_stopped
    l).

Definition ls_set_verifyCh (q : list nat) (l : leaderState) : leaderState :=
  mkLeaderState (leadershipTransferInProgress l) (ls_commitment l) (inflight l)
    (replState l) (ls_notify l) (ls_stepDown l) (ls_verifies l) q (ls_stopped
    l).

Definition ls_set_stopped (q : list (followerReplication * N)) (l : leaderState) : leaderState :=
  mkLeaderState (leadershipTransferInProgress l) (ls_commitment l) (inflight l)
    (replState l) (ls_notify l) (ls_stepDown l) (ls_verifies l) (ls_verifyCh l)
    q.

(** ** Votes on a verification *)

(** [verifyFuture.vote], on the future at address [v]. *)
Definition vote (v : nat) (leader : bool) (l : leaderState) : leaderState :=
  match ls_verifies l !! v with
  | None => l
  | Some f =>
      if negb (vf_notifyCh f) then l
      else
        let votes := if leader then (vf_votes f + 1)%Z else vf_votes f in
        let notify := negb leader || bool_decide (vf_quorumSize f <= votes)%Z in
        let l := ls_set_verifies
          (<[v := mkVerifyFuture (negb notify) (vf_quorumSize f) votes]> (ls_verifies l)) l in
        if notify then ls_set_verifyCh (ls_verifyCh l ++ [v]) l else l
  end.

(** The order of Go's iteration over the map does not matter; the model goes
    through the elements in their canonical order. *)
Definition vote_all (vs : list nat) (leader : bool) (l : leaderState) : leaderState :=
  foldl (fun l v => vote v leader l) l vs.

Definition update_repl (id : ServerID) (f : followerReplication -> followerReplication)
    (l : leaderState) : leaderState :=
  ls_set_replState (alter f id (replState l)) l.

(** [s.notifyAll(leader)] for the routine of the server [id]. *)
Definition notifyAll (id : ServerID) (leader : bool) (l : leaderState) : leaderState :=
  match replState l !! id with
  | None => l
  | Some s => vote_all (elements (fr_notify s)) leader
                (update_repl id (fr_set_notify ∅) l)
  end.

Definition cleanNotify (v : nat) (s : followerReplication) : followerReplication :=
  fr_set_notify (fr_notify s ∖ {[v]}) s.

Definition handleStaleTerm (id : ServerID) (l : leaderState) : leaderState :=
  let l := notifyAll id false l in ls_set_stepDown (asyncNotifyCh (ls_stepDown l)) l.

(** [updateLastAppended] *)
Definition updateLastAppended (id : ServerID) (req : AppendEntriesRequest) (l : leaderState)
    : leaderState :=
  let l :=
    match last (ae_Entries req), replState l !! id with
    | Some last, Some s =>
        ls_set_commitment (match_ (ls_commitment l) (ID (fr_peer s)) (log_Index last))
          (update_repl id (fr_set_nextIndex (u64_add (log_Index last) 1)) l)
    | _, _ => l
    end in
  notifyAll id true l.

(** ** Requests *)

Definition failureWait : Z := 10 * Millisecond.
Definition maxFailureScale : N := 12.

Section Requests.
Context {L K SN : Type} `{LogStore L} `{StableStore K} `{SnapshotStore SN} `{MsgPack}
  `{PeerCodec}.
Abbreviation raft := (Raft L K SN).

(** The previous position a request starts from. *)
Definition setPreviousLog (r : raft) (nextIndex : N) : result (N * N) :=
  let '(lastSnapIdx, lastSnapTerm) := getLastSnapshot (raft_state r) in
  if decide (nextIndex = 1)%N then Ok (0%N, 0%N)
  else if decide (u64_sub nextIndex 1 = lastSnapIdx) then Ok (lastSnapIdx, lastSnapTerm)
  else match GetLog (logs r) (u64_sub nextIndex 1) with
       | Err err => Err err
       | Ok l => Ok (log_Index l, log_Term l)
       end.

(** The loop [for i := nextIndex; i <= maxIndex; i++]; the fuel is the number of
    iterations. *)
Fixpoint read_logs (store : L) (fuel : nat) (i : N) : result (list Log) :=
  match fuel with
  | O => Ok []
  | S fuel' =>
      match GetLog store i with
      | Err err => Err err
      | Ok l => match read_logs store fuel' (u64_add i 1) with
                | Err err => Err err
                | Ok ls => Ok (l :: ls)
                end
      end
  end.

Definition setNewLogs (r : raft) (nextIndex lastIndex : N) : result (list Log) :=
  let maxAppendEntries := MaxAppendEntries (conf r) in
  let maxIndex :=
    min (u64_sub (u64_add nextIndex (Z.to_N maxAppendEntries)) 1) lastIndex in
  read_logs (logs r) (N.to_nat (maxIndex + 1 - nextIndex)) nextIndex.

Definition setupAppendEntries (r : raft) (s : followerReplication) (nextIndex lastIndex : N)
    : result AppendEntriesRequest :=
  match setPreviousLog r nextIndex with
  | Err err => Err err
  | Ok (prevEntry, prevTerm) =>
      match setNewLogs r nextIndex lastIndex with
      | Err err => Err err
      | Ok entries =>
          Ok (mkAppendEntriesRequest (getRPCHeader r) (fr_currentTerm s)
                (EncodePeer (localID r) (localAddr r)) prevEntry prevTerm entries
                (commitIndex (raft_state r)))
      end
  end.

(** The request of [heartbeat]. *)
Definition heartbeat_request (r : raft) (s : followerReplication) : AppendEntriesRequest :=
  mkAppendEntriesRequest (getRPCHeader r) (fr_currentTerm s)
    (EncodePeer (localID r) (localAddr r)) 0 0 [] 0.

(** The request of [sendLatestSnapshot] and the contents to stream; [None] is the
    panic of [EncodeConfiguration]. *)
Definition snapshot_request (r : raft) (s : followerReplication)
    : option (result (InstallSnapshotRequest * string)) :=
  match List_ (snapshots r) with
  | Err err => Some (Err err)
  | Ok [] => Some (Err (Errorf "no snapshots found"))
  | Ok (m :: _) =>
      match Open (snapshots r) (sm_ID m) with
      | Err err => Some (Err err)
      | Ok (meta, contents) =>
          match EncodeConfiguration (sm_Configuration meta) with
          | Err _ => None
          | Ok buf =>
              Some (Ok (mkInstallSnapshotRequest (getRPCHeader r) (sm_Version meta)
                          (fr_currentTerm s) (EncodePeer (localID r) (localAddr r))
                          (sm_Index meta) (sm_Term meta) (sm_Peers meta) buf
                          (sm_ConfigurationIndex meta) (sm_Size meta), contents))
          end
      end
  end.
End Requests.

(** ** Responses *)

(** How one round of [replicateTo] goes on: [rt_return b] leaves it with
    [shouldStop = b], [rt_check_more] goes to the label CHECK_MORE. *)
Inductive replicateStep :=
  | rt_return (shouldStop : bool)
  | rt_check_more.

(** After the call of [trans.AppendEntries] for the server [id]. *)
Definition replicate_response (now : Z) (id : ServerID) (req : AppendEntriesRequest)
    (resp : result AppendEntriesResponse) (l : leaderState) : replicateStep * leaderState :=
  match resp with
  | Err _ =>
      (rt_return false,
       update_repl id (fun s => fr_set_failures (u64_add (fr_failures s) 1) s) l)
  | Ok resp =>
      if decide (ae_Term req < aer_Term resp)%N then (rt_return true, handleStaleTerm id l)
      else
        let l := update_repl id (fr_set_lastContact now) l in
        if aer_Success resp then
          (rt_check_more,
           update_repl id (fun s => fr_set_allowPipeline true (fr_set_failures 0 s))
             (updateLastAppended id req l))
        else
          (rt_check_more,
           update_repl id
             (fun s => fr_set_failures
                (if aer_NoRetryBackoff resp then 0%N else u64_add (fr_failures s) 1)
                (fr_set_nextIndex
                   (max (min (u64_sub (fr_nextIndex s) 1) (u64_add (aer_LastLog resp) 1)) 1) s))
             l)
  end.

(** After the call of [trans.InstallSnapshot]: [meta] position, and whether to stop
    or the error. *)
Definition snapshot_response (now : Z) (id : ServerID) (req : InstallSnapshotRequest)
    (resp : result InstallSnapshotResponse) (l : leaderState)
    : bool * option error * leaderState :=
  match resp with
  | Err err =>
      (false, Some err,
       update_repl id (fun s => fr_set_failures (u64_add (fr_failures s) 1) s) l)
  | Ok resp =>
      if decide (is_Term req < isr_Term resp)%N then (true, None, handleStaleTerm id l)
      else
        let l := update_repl id (fr_set_lastContact now) l in
        if isr_Success resp then
          let l := update_repl id (fr_set_nextIndex (u64_add (is_LastLogIndex req) 1)) l in
          let l := match replState l !! id with
                   | Some s => ls_set_commitment
                       (match_ (ls_commitment l) (ID (fr_peer s)) (is_LastLogIndex req)) l
                   | None => l
                   end in
          (false, None, notifyAll id true (update_repl id (fr_set_failures 0) l))
        else
          (false, None,
           update_repl id (fun s => fr_set_failures (u64_add (fr_failures s) 1) s) l)
  end.

(** One round of [heartbeat] after the call: [failures] is its local counter. *)
Definition heartbeat_response (now : Z) (id : ServerID) (failures : N)
    (resp : result AppendEntriesResponse) (l : leaderState) : N * leaderState :=
  match resp with
  | Err _ => (u64_add failures 1, l)
  | Ok resp =>
      (0%N, notifyAll id (aer_Success resp) (update_repl id (fr_set_lastContact now) l))
  end.

(** One response read by [pipelineDecode]: [true] goes on. *)
Definition pipelineDecode_response (now : Z) (id : ServerID) (req : AppendEntriesRequest)
    (resp : AppendEntriesResponse) (l : leaderState) : bool * leaderState :=
  if decide (ae_Term req < aer_Term resp)%N then (false, handleStaleTerm id l)
  else
    let l := update_repl id (fr_set_lastContact now) l in
    if aer_Success resp then (true, updateLastAppended id req l) else (false, l).

(** [pipelineSend]: the request sent and the next index, or the stop. *)
Definition pipelineSend {L K SN} `{LogStore L} `{PeerCodec} (r : Raft L K SN)
    (s : followerReplication) (nextIdx lastIndex : N) (sendErr : option error)
    : option (AppendEntriesRequest * N) :=
  match setupAppendEntries r s nextIdx lastIndex with
  | Err _ => None
  | Ok req =>
      match sendErr with
      | Some _ => None
      | None => Some (req, match last (ae_Entries req) with
                           | Some last => u64_add (log_Index last) 1
                           | None => nextIdx
                           end)
      end
  end.

(** What the network and the stop channel do in one round of [replicateTo]. *)
Record rpcOutcome := mkRpcOutcome {
  ro_append : result AppendEntriesResponse;
  ro_install : result InstallSnapshotResponse;
  ro_stop : bool
}.

(** [replicateTo] against a server that does not change meanwhile: each round uses
    one outcome of [script], and [None] is a call still waiting when the script is
    over.  The answer is [shouldStop]. *)
Fixpoint replicateTo {L K SN} `{LogStore L} `{SnapshotStore SN} `{MsgPack} `{PeerCodec}
    (now : Z) (r : Raft L K SN) (id : ServerID) (lastIndex : N) (script : list rpcOutcome)
    (l : leaderState) : option bool * leaderState :=
  match script, replState l !! id with
  | [], _ | _, None => (None, l)
  | ro :: script, Some s =>
      let check_more l :=
        if ro_stop ro then (Some true, l)
        else match replState l !! id with
             | Some s => if decide (fr_nextIndex s <= lastIndex)%N
                         then replicateTo now r id lastIndex script l
                         else (Some false, l)
             | None => (None, l)
             end in
      match setupAppendEntries r s (fr_nextIndex s) lastIndex with
      | Ok req =>
          match replicate_response now id req (ro_append ro) l with
          | (rt_return b, l) => (Some b, l)
          | (rt_check_more, l) => check_more l
          end
      | Err ErrLogNotFound =>
          match snapshot_request r s with
          | Some (Ok (req, _)) =>
              match snapshot_response now id req (ro_install ro) l with
              | (true, _, l) => (Some true, l)
              | (false, Some _, l) => (Some false, l)
              | (false, None, l) => check_more l
              end
          | Some (Err _) => (Some false, l)
          | None => (None, l)
          end
      | Err _ => (Some false, l)
      end
  end.

(** ** The requests of a leader *)

Section RequestFacts.
Context {L K SN : Type} `{LogStore L} `{!LogStoreLaws L} `{StableStore K} `{SnapshotStore SN}
  `{MsgPack} `{PeerCodec}.
Abbreviation raft := (Raft L K SN).
Implicit Types r : raft.

Lemma read_logs_spec store fuel i ls :
  store_ok store -> (i + N.of_nat fuel < u64_size)%N -> read_logs store fuel i = Ok ls ->
  length ls = fuel /\ consecutive_from i ls /\
  Forall (fun l => GetLog store (log_Index l) = Ok l) ls.
Proof.
  intros Hok. revert i ls. induction fuel as [|fuel IH]; intros i ls Hlt HE; simpl in HE.
  { injection HE as <-. done. }
  destruct (GetLog store i) as [l|] eqn:Hg; [|done].
  rewrite u64_add_small in HE by lia.
  destruct (read_logs store fuel (i + 1)) as [ls'|] eqn:Hr; [|done]. injection HE as <-.
  destruct (IH (i + 1)%N ls') as (Hlen & Hc & Hall); [lia|done|].
  pose proof (GetLog_Index _ _ _ Hok Hg) as Hi. split_and!.
  - simpl. by rewrite Hlen.
  - unfold consecutive_from in *. by rewrite fmap_cons, Hi, Hc.
  - constructor; [|done]. by rewrite Hi.
Qed.

(** The number of entries a request carries. *)
Definition batch_size (maxEntries nextIndex lastIndex : N) : N :=
  N.min maxEntries (lastIndex + 1 - nextIndex).

Lemma setNewLogs_spec r nextIndex lastIndex ls :
  store_ok (logs r) -> (0 < MaxAppendEntries (conf r))%Z ->
  (nextIndex + Z.to_N (MaxAppendEntries (conf r)) < u64_size)%N ->
  (1 <= nextIndex)%N -> (lastIndex + 1 < u64_size)%N ->
  setNewLogs r nextIndex lastIndex = Ok ls ->
  N.of_nat (length ls) = batch_size (Z.to_N (MaxAppendEntries (conf r))) nextIndex lastIndex /\
  consecutive_from nextIndex ls /\ Forall (fun l => GetLog (logs r) (log_Index l) = Ok l) ls.
Proof.
  intros Hok Hmax Hlt Hn Hl HE. unfold setNewLogs in HE.
  rewrite u64_add_small in HE by lia.
  rewrite u64_sub_small in HE by (unfold in_u64; lia).
  rewrite min_spec in HE. unfold batch_size.
  apply read_logs_spec in HE as (Hlen & Hc & Hall); [|done|lia].
  split_and!; [|done..]. rewrite Hlen. lia.
Qed.

Lemma setPreviousLog_spec r nextIndex e t :
  store_ok (logs r) -> (1 <= nextIndex)%N -> in_u64 nextIndex ->
  setPreviousLog r nextIndex = Ok (e, t) ->
  (e + 1 = nextIndex)%N /\
  (e = 0%N /\ t = 0%N \/ getLastSnapshot (raft_state r) = (e, t) \/
   exists l, GetLog (logs r) e = Ok l /\ log_Term l = t).
Proof.
  intros Hok Hn Hin HE. unfold setPreviousLog in HE.
  destruct (getLastSnapshot (raft_state r)) as [si st].
  case_decide as H1'; [injection HE as <- <-; split; [lia|by left]|].
  rewrite u64_sub_small in HE by (done || lia).
  destruct (decide (nextIndex - 1 = si)%N) as [<-|].
  { injection HE as <- <-. split; [lia|]. right; by left. }
  destruct (GetLog (logs r) (nextIndex - 1)) as [l|] eqn:Hg; [|done].
  injection HE as <- <-. pose proof (GetLog_Index _ _ _ Hok Hg) as Hi.
  split; [lia|]. right; right. exists l. by rewrite Hi.
Qed.

Lemma setup_request_wf r s nextIndex lastIndex req :
  store_ok (logs r) -> (0 < MaxAppendEntries (conf r))%Z ->
  (nextIndex + Z.to_N (MaxAppendEntries (conf r)) < u64_size)%N ->
  (1 <= nextIndex)%N -> (lastIndex + 1 < u64_size)%N ->
  setupAppendEntries r s nextIndex lastIndex = Ok req ->
  ae_Term req = fr_currentTerm s /\
  (ae_PrevLogEntry req + 1 = nextIndex)%N /\
  consecutive_from (ae_PrevLogEntry req + 1) (ae_Entries req) /\
  N.of_nat (length (ae_Entries req)) =
    batch_size (Z.to_N (MaxAppendEntries (conf r))) nextIndex lastIndex /\
  Forall (fun l => GetLog (logs r) (log_Index l) = Ok l) (ae_Entries req).
Proof.
  intros Hok Hmax Hlt Hn Hl HE. unfold setupAppendEntries in HE.
  destruct (setPreviousLog r nextIndex) as [[e t]|] eqn:HP; [|done].
  destruct (setNewLogs r nextIndex lastIndex) as [ls|] eqn:HN; [|done].
  injection HE as <-. simpl.
  apply setPreviousLog_spec in HP as [He Ht]; [|done|done|unfold in_u64; lia].
  apply setNewLogs_spec in HN as (Hlen & Hc & Hall); [|done..].
  rewrite He. by split_and!.
Qed.

(** A request built for a follower carries the leader's term and commit index,
    starts right after its previous position, whose term is the one of the snapshot
    or of the entry in the leader's log, and holds exactly the next
    [min(MaxAppendEntries, lastIndex + 1 - nextIndex)] entries of the leader's log, with
    consecutive indexes: the form that [appendEntries] relies on. *)
Theorem setupAppendEntries_spec r s nextIndex lastIndex req :
  store_ok (logs r) -> (0 < MaxAppendEntries (conf r))%Z ->
  (nextIndex + Z.to_N (MaxAppendEntries (conf r)) < u64_size)%N ->
  (1 <= nextIndex)%N -> (lastIndex + 1 < u64_size)%N ->
  setupAppendEntries r s nextIndex lastIndex = Ok req ->
  ae_Term req = fr_currentTerm s /\
  ae_LeaderCommitIndex req = commitIndex (raft_state r) /\
  (ae_PrevLogEntry req + 1 = nextIndex)%N /\
  consecutive_from (ae_PrevLogEntry req + 1) (ae_Entries req) /\
  N.of_nat (length (ae_Entries req)) =
    batch_size (Z.to_N (MaxAppendEntries (conf r))) nextIndex lastIndex /\
  Forall (fun l => GetLog (logs r) (log_Index l) = Ok l) (ae_Entries req) /\
  (ae_PrevLogEntry req = 0%N /\ ae_PrevLogTerm req = 0%N \/
   getLastSnapshot (raft_state r) = (ae_PrevLogEntry req, ae_PrevLogTerm req) \/
   exists l, GetLog (logs r) (ae_PrevLogEntry req) = Ok l /\ log_Term l = ae_PrevLogTerm req).
Proof.
  intros Hok Hmax Hlt Hn Hl HE.
  destruct (setup_request_wf _ _ _ _ _ Hok Hmax Hlt Hn Hl HE) as (? & Hp & ? & ? & ?).
  unfold setupAppendEntries in HE.
  destruct (setPreviousLog r nextIndex) as [[e t]|] eqn:HP; [|done].
  destruct (setNewLogs r nextIndex lastIndex) as [ls|] eqn:HN; [|done].
  injection HE as <-. apply setPreviousLog_spec in HP as [_ Ht]; [|done|done|unfold in_u64; lia].
  by split_and!.
Qed.
End RequestFacts.

(** ** What a leader does with an answer *)

Lemma vote_frame v b l :
  replState (vote v b l) = replState l /\ ls_commitment (vote v b l) = ls_commitment l.
Proof. unfold vote. repeat case_match; done. Qed.

Lemma vote_all_frame vs b l :
  replState (vote_all vs b l) = replState l /\ ls_commitment (vote_all vs b l) = ls_commitment l.
Proof.
  unfold vote_all. revert l. induction vs as [|v vs IH]; intros l; [done|].
  simpl. destruct (IH (vote v b l)) as [-> ->]. apply vote_frame.
Qed.

Lemma notifyAll_frame id b l :
  replState (notifyAll id b l) = alter (fr_set_notify ∅) id (replState l) /\
  ls_commitment (notifyAll id b l) = ls_commitment l.
Proof.
  unfold notifyAll. destruct (replState l !! id) as [s|] eqn:Hs.
  - by destruct (vote_all_frame (elements (fr_notify s)) b (update_repl id (fr_set_notify ∅) l))
      as [-> ->].
  - split; [|done]. apply map_eq. intros j. destruct (decide (j = id)) as [->|].
    + by rewrite lookup_alter_eq, Hs.
    + by rewrite lookup_alter_ne.
Qed.

Lemma update_repl_eq id f l s :
  replState l !! id = Some s -> replState (update_repl id f l) !! id = Some (f s).
Proof. intros Hs. simpl. by rewrite lookup_alter_eq, Hs. Qed.

Lemma handleStaleTerm_frame id l s :
  replState l !! id = Some s ->
  replState (handleStaleTerm id l) !! id = Some (fr_set_notify ∅ s) /\
  ls_commitment (handleStaleTerm id l) = ls_commitment l /\
  ls_stepDown (handleStaleTerm id l) = true.
Proof.
  intros Hs. unfold handleStaleTerm. simpl. destruct (notifyAll_frame id false l) as [-> ->].
  by rewrite lookup_alter_eq, Hs.
Qed.

Lemma updateLastAppended_frame id req l s :
  replState l !! id = Some s ->
  exists s', replState (updateLastAppended id req l) !! id = Some s' /\
    fr_peer s' = fr_peer s /\
    match last (ae_Entries req) with
    | None => fr_nextIndex s' = fr_nextIndex s /\
              ls_commitment (updateLastAppended id req l) = ls_commitment l
    | Some x => fr_nextIndex s' = u64_add (log_Index x) 1 /\
                ls_commitment (updateLastAppended id req l) =
                  match_ (ls_commitment l) (ID (fr_peer s)) (log_Index x)
    end.
Proof.
  intros Hs. unfold updateLastAppended. rewrite Hs. cbv zeta.
  destruct (last (ae_Entries req)) as [x|];
    match goal with |- context [notifyAll id true ?l'] =>
      destruct (notifyAll_frame id true l') as [-> ->] end; simpl.
  - rewrite lookup_alter_eq, lookup_alter_eq, Hs. simpl. by eexists.
  - rewrite lookup_alter_eq, Hs. simpl. by eexists.
Qed.

Lemma replicate_response_success now id req rp l s :
  replState l !! id = Some s -> (ae_Term req >= aer_Term rp)%N -> aer_Success rp = true ->
  exists l' s', replicate_response now id req (Ok rp) l = (rt_check_more, l') /\
    replState l' !! id = Some s' /\
    match last (ae_Entries req) with
    | None => fr_nextIndex s' = fr_nextIndex s /\ ls_commitment l' = ls_commitment l
    | Some x => fr_nextIndex s' = u64_add (log_Index x) 1 /\
                ls_commitment l' = match_ (ls_commitment l) (ID (fr_peer s)) (log_Index x)
    end.
Proof.
  intros Hs Ht Hok. unfold replicate_response. rewrite decide_False by lia. rewrite Hok.
  destruct (updateLastAppended_frame id req (update_repl id (fr_set_lastContact now) l)
              (fr_set_lastContact now s)) as (s2 & Hs2 & Hp & Hl); [by apply update_repl_eq|].
  do 2 eexists. split; [done|]. split; [by apply update_repl_eq|]. exact Hl.
Qed.

(** What an answer to a request changes in the leader's view of the follower:
    nothing advances unless the follower accepted the entries, in which case the last of them is
    reported to the commitment and the next index follows it; a refusal moves the
    next index back, to at least 1, strictly when it was above 1, and to at most one
    past the follower's log; an answer of a newer term stops the routine and signals
    the leader to step down. *)
Theorem replicate_response_spec now id req resp l s :
  replState l !! id = Some s -> in_u64 (fr_nextIndex s) -> (1 <= fr_nextIndex s)%N ->
  match resp with Ok rp => (aer_LastLog rp + 1 < u64_size)%N | Err _ => True end ->
  exists step l' s', replicate_response now id req resp l = (step, l') /\
    replState l' !! id = Some s' /\ fr_peer s' = fr_peer s /\
    match resp with
    | Err _ => step = rt_return false /\ fr_nextIndex s' = fr_nextIndex s /\
               ls_commitment l' = ls_commitment l
    | Ok rp =>
        if decide (ae_Term req < aer_Term rp)%N then
          step = rt_return true /\ ls_stepDown l' = true /\
          fr_nextIndex s' = fr_nextIndex s /\ ls_commitment l' = ls_commitment l
        else if aer_Success rp then
          step = rt_check_more /\ fr_failures s' = 0%N /\
          match last (ae_Entries req) with
          | None => fr_nextIndex s' = fr_nextIndex s /\ ls_commitment l' = ls_commitment l
          | Some x => fr_nextIndex s' = u64_add (log_Index x) 1 /\
                      ls_commitment l' =
                        match_ (ls_commitment l) (ID (fr_peer s)) (log_Index x)
          end
        else
          step = rt_check_more /\ ls_commitment l' = ls_commitment l /\
          (1 <= fr_nextIndex s')%N /\
          (1 < fr_nextIndex s -> fr_nextIndex s' < fr_nextIndex s)%N /\
          (fr_nextIndex s' <= aer_LastLog rp + 1)%N
    end.
Proof.
  intros Hs Hu H1 Hrp. unfold replicate_response. destruct resp as [rp|e].
  2:{ do 3 eexists. split; [done|]. split; [by apply update_repl_eq|]. by split_and!. }
  case_decide.
  { destruct (handleStaleTerm_frame id l s Hs) as (Hs' & Hc & Hsd).
    do 3 eexists. split; [done|]. split; [exact Hs'|]. by split_and!. }
  set (l1 := update_repl id (fr_set_lastContact now) l).
  assert (replState l1 !! id = Some (fr_set_lastContact now s)) as Hs1
    by (by apply update_repl_eq).
  destruct (aer_Success rp).
  - destruct (updateLastAppended_frame id req l1 _ Hs1) as (s2 & Hs2 & Hp & Hl).
    do 3 eexists. split; [done|]. split; [by apply update_repl_eq|]. by split_and!.
  - do 3 eexists. split; [done|]. split; [by apply update_repl_eq|].
    simpl. rewrite max_spec, min_spec, u64_sub_small, u64_add_small by (done || lia).
    split_and!; [done|done|done|lia|lia|lia].
Qed.

(** ** One exchange between a leader and a follower *)

Section Exchange.
Context {L K SN : Type} `{LogStore L} `{!LogStoreLaws L} `{StableStore K} `{SnapshotStore SN}
  `{MsgPack} `{PeerCodec}.
Abbreviation raft := (Raft L K SN).

Lemma consecutive_lookup i ls j :
  consecutive_from i ls -> (i <= j < i + N.of_nat (length ls))%N ->
  exists l, l ∈ ls /\ log_Index l = j.
Proof.
  intros Hc Hj. rewrite <- elem_of_range in Hj. unfold consecutive_from in Hc.
  rewrite <- Hc in Hj. apply list_elem_of_fmap in Hj as (l & -> & Hl). eauto.
Qed.

(** C13: What a leader counts for a follower is on that follower's log.  When a
    follower accepts the request that the leader [r] built for it, the leader moves
    the next index past the entries sent and reports the last one to the commitment,
    and at each of these indexes the follower's log then holds an entry of the same
    term as the leader's. *)
Theorem replication_sound now now' (r f f' : raft) id s l lastIndex req resp err :
  store_ok (logs r) -> (0 < MaxAppendEntries (conf r))%Z ->
  (fr_nextIndex s + Z.to_N (MaxAppendEntries (conf r)) < u64_size)%N ->
  (1 <= fr_nextIndex s)%N -> (lastIndex + 1 < u64_size)%N ->
  log_cached f -> (lastLogIndex (raft_state f) + 1 < u64_size)%N ->
  (getLastIndex (raft_state f) + 1 < u64_size)%N ->
  setupAppendEntries r s (fr_nextIndex s) lastIndex = Ok req ->
  appendEntries now req f = Done (resp, err) f' -> aer_Success resp = true ->
  replState l !! id = Some s ->
  exists l' s', replicate_response now' id req (Ok resp) l = (rt_check_more, l') /\
    replState l' !! id = Some s' /\
    fr_nextIndex s' = (fr_nextIndex s + N.of_nat (length (ae_Entries req)))%N /\
    ls_commitment l' =
      (if decide (ae_Entries req = []) then ls_commitment l
       else match_ (ls_commitment l) (ID (fr_peer s)) (fr_nextIndex s' - 1)) /\
    forall i e, (fr_nextIndex s <= i < fr_nextIndex s')%N -> GetLog (logs r) i = Ok e ->
      exists e', GetLog (logs f') i = Ok e' /\ log_Term e' = log_Term e.
Proof.
  intros Hok Hmax Hlt Hn Hl Hf Hfl Hfl2 HS HA Hsucc Hrs.
  pose proof (setup_request_wf r s (fr_nextIndex s) lastIndex req Hok Hmax Hlt Hn Hl HS)
    as (HT & Hprev & Hc & Hlen & Hall). unfold batch_size in Hlen.
  pose proof (appendEntries_success_term _ _ _ _ _ _ HA Hsucc) as Hterm.
  assert (aer_LastLog resp = getLastIndex (raft_state f)) as HLL
    by (by eapply appendEntries_LastLog).
  pose proof (append_outcome_log _ _ _ _ _ _ Hf Hfl Hc (appendEntries_outcome _ _ _ _ _ _ HA))
    as (_ & Hag & _). destruct (Hag Hsucc) as (_ & Hagree & _).
  destruct (replicate_response_success now' id req resp l s Hrs) as (l' & s' & HR & Hs' & Hlast);
    [lia|done|].
  exists l', s'. rewrite HT, Hprev in *.
  assert (fr_nextIndex s' = (fr_nextIndex s + N.of_nat (length (ae_Entries req)))%N /\
          ls_commitment l' =
            (if decide (ae_Entries req = []) then ls_commitment l
             else match_ (ls_commitment l) (ID (fr_peer s)) (fr_nextIndex s' - 1))) as [Hnx Hcm].
  { destruct (last (ae_Entries req)) as [x|] eqn:Hx.
    - pose proof (consecutive_last _ _ _ Hc Hx) as Hxi.
      assert (ae_Entries req <> []) as Hne by (by intros Hnil; rewrite Hnil in Hx).
      destruct (ae_Entries req) as [|y ys]; [done|]. simpl length in *.
      destruct Hlast as [-> ->]. rewrite u64_add_small by lia.
      split; [lia|]. f_equal. lia.
    - apply last_None in Hx. rewrite Hx in *. simpl in *. destruct Hlast as [-> ->].
      split; [lia|done]. }
  split_and!; [done|done|done|done|].
  intros i e Hi He. rewrite Hnx in Hi.
  destruct (consecutive_lookup _ _ i Hc) as (x & Hx & <-); [lia|].
  rewrite Forall_forall in Hall, Hagree. rewrite (Hall x Hx) in He. injection He as <-.
  by apply Hagree.
Qed.
End Exchange.

(** ** A concrete exchange *)

#[local] Existing Instance bitsMsgPack.
#[local] Existing Instance inmemPeerCodec.

Definition log_leader : list Log := [cmd 1 1 "x"; cmd 2 1 "y"; cmd 3 3 "w"; cmd 4 4 "v"].

Definition config_of (id : ServerID) : Config :=
  mkConfig 3 (1000 * Millisecond) (1000 * Millisecond) (50 * Millisecond) 64 false true
    10240 (120 * Second) 8192 (500 * Millisecond) id "DEBUG" false false false false.

(** The leader [b] of term 4. *)
Definition leader_b : Raft InmemStore InmemStore InmemSnapshotStore :=
  mkRaft (mkRaftState 4 3 3 0 0 4 4 Leader) 3 (config_of "b")
    "b" "addr-b" 0 "addr-b" "b" false false
    (inmem_StoreLogs_loop NewInmemStore log_leader) disk_a NewInmemSnapshotStore
    (mkConfigurations trio 1 trio 1) (Some trio) [] ∅ [] false.

Definition repl_to (peer : Server) (next : N) : followerReplication :=
  mkFollowerReplication 4 next peer false 0 0 false ∅ false.

Definition leader_state_b : leaderState :=
  mkLeaderState false (newCommitment false trio 5) []
    {["a" := repl_to (mkServer Voter "a" "addr-a") 2;
      "c" := repl_to (mkServer Voter "c" "addr-c") 5]} ∅ false ∅ [] [].

Lemma leader_b_ok : store_ok (logs leader_b).
Proof. apply inmem_stored. Qed.

Lemma follower_s_cached : log_cached follower_s.
Proof. destruct follower_a_cached as [H1 H2 H3]. by split. Qed.

Definition request_a : AppendEntriesRequest :=
  mkAppendEntriesRequest (mkHeader 3 "b" "addr-b") 4 "addr-b" 1 1
    [cmd 2 1 "y"; cmd 3 3 "w"; cmd 4 4 "v"] 3.

Lemma setupAppendEntries_spec_witness :
  setupAppendEntries leader_b (repl_to (mkServer Voter "a" "addr-a") 2) 2 4 = Ok request_a /\
  consecutive_from 2 (ae_Entries request_a).
Proof.
  split; [reflexivity|].
  destruct (setupAppendEntries_spec leader_b (repl_to (mkServer Voter "a" "addr-a") 2)
              2 4 request_a) as (_ & _ & _ & Hc & _);
    [apply leader_b_ok|reflexivity|reflexivity|vm_compute; congruence|reflexivity
    |reflexivity|exact Hc].
Defined.

Lemma replicate_response_spec_witness :
  exists step l' s',
    replicate_response 1 "a" request_a
      (Ok (mkAppendEntriesResponse (mkHeader 3 "a" "addr-a") 4 0 false true)) leader_state_b
      = (step, l') /\
    replState l' !! "a" = Some s' /\ fr_nextIndex s' = 1%N.
Proof.
  destruct (replicate_response_spec 1 "a" request_a
              (Ok (mkAppendEntriesResponse (mkHeader 3 "a" "addr-a") 4 0 false true))
              leader_state_b (repl_to (mkServer Voter "a" "addr-a") 2))
    as (step & l' & s' & HR & Hs & _ & Hc);
    [reflexivity|reflexivity|vm_compute; congruence|reflexivity|].
  exists step, l', s'. split_and!; [exact HR|exact Hs|].
  simpl in Hc. destruct Hc as (_ & _ & H1 & H2 & _). lia.
Defined.

Lemma replication_sound_witness :
  exists l' s' resp f',
    appendEntries 1 request_a follower_s = Done (resp, None) f' /\
    replicate_response 2 "a" request_a (Ok resp) leader_state_b = (rt_check_more, l') /\
    replState l' !! "a" = Some s' /\ fr_nextIndex s' = 5%N.
Proof.
  destruct (appendEntries 1 request_a follower_s) as [[resp err] f'|] eqn:HE;
    [|vm_compute in HE; congruence].
  assert (aer_Success resp = true /\ err = None) as [Hs ->].
  { vm_compute in HE. injection HE as <- <- _. split; reflexivity. }
  destruct (replication_sound 1 2 leader_b follower_s f' "a"
              (repl_to (mkServer Voter "a" "addr-a") 2) leader_state_b 4 request_a resp None)
    as (l' & s' & HR & Hs' & Hn & _);
    [apply leader_b_ok|reflexivity|reflexivity|vm_compute; congruence|reflexivity
    |apply follower_s_cached|reflexivity|reflexivity|reflexivity|exact HE|exact Hs|reflexivity|].
  exists l', s', resp, f'. split_and!; [reflexivity|exact HR|exact Hs'|exact Hn].
Defined.
