(* ===== verification/Leader.v ===== *)
(** * The leader, [raft.go]

    [setupLeaderState], [startStopReplication], [dispatchLogs], the membership
    changes, the lease check, the verification of leadership, the choice of a
    successor and the cases of [leaderLoop].  The state is a server with its
    [leaderState]. *)
From S2P Require Import Prelude Types Util Codec Configuration Config Commitment Stores State Elections AppendEntries SnapshotStores Snapshot Replication.

(** ** Definitions *)

Definition minCheckInterval : Z := 10 * Millisecond.

Section Leader.
Context {L K SN : Type} `{LogStore L} `{StableStore K} `{SnapshotStore SN} `{MsgPack}
  `{PeerCodec}.
Abbreviation raft := (Raft L K SN).
Abbreviation lraft := (LeaderRaft L K SN).

(** A method of [Raft] run by the leader. *)
Definition on_raft {A} (m : M raft A) : M lraft A := fun lr =>
  match m (lr_raft lr) with
  | Done a r => Done a (mkLeaderRaft r (lr_leader lr))
  | Panicked r => Panicked (mkLeaderRaft r (lr_leader lr))
  end.

Definition modify_leader (f : leaderState -> leaderState) : M lraft unit :=
  modify (fun lr => mkLeaderRaft (lr_raft lr) (f (lr_leader lr))).

Definition get_raft : M lraft raft := fun lr => Done (lr_raft lr) lr.

Definition get_leader : M lraft leaderState := fun lr => Done (lr_leader lr) lr.

Definition setupLeaderState (r : raft) : leaderState :=
  mkLeaderState false
    (newCommitment false (latest (raft_configurations r))
       (u64_add (getLastIndex (raft_state r)) 1))
    [] ∅ ∅ false ∅ [] [].

(** *** Replication routines *)

Definition new_replication (now : Z) (r : raft) (lastIdx : N) (server : Server)
    : followerReplication :=
  mkFollowerReplication (currentTerm (raft_state r)) (u64_add lastIdx 1) server
    (asyncNotifyCh false) now 0 false ∅ false.

(** The first loop of [startStopReplication]. *)
Fixpoint start_replication (now : Z) (lastIdx : N) (servers : list Server) : M lraft unit :=
  match servers with
  | [] => returns tt
  | server :: rest => (
      r <- get_raft;;
      l <- get_leader;;
      (if decide (ID server = localID r) then returns tt
       else
         match replState l !! ID server with
         | None =>
             modify_leader (fun l => ls_set_replState
               (<[ID server := new_replication now r lastIdx server]> (replState l)) l);;
             on_raft (observe (PeerObservation server false))
         | Some s =>
             if decide (Address (fr_peer s) <> Address server)
             then modify_leader (update_repl (ID server) (fr_set_peer server))
             else returns tt
         end);;
      start_replication now lastIdx rest)%go
  end.

(** The keys of [inConfig]. *)
Definition other_ids (r : raft) (servers : list Server) : gset ServerID :=
  list_to_set (ID <$> filter (fun s => ID s <> localID r) servers).

(** The second loop of [startStopReplication], over the routines to stop. *)
Fixpoint stop_replication (lastIdx : N) (gone : list (ServerID * followerReplication))
    : M lraft unit :=
  match gone with
  | [] => returns tt
  | (id, repl) :: rest => (
      modify_leader (fun l => ls_set_stopped (ls_stopped l ++ [(repl, lastIdx)])
        (ls_set_replState (delete id (replState l)) l));;
      on_raft (observe (PeerObservation (fr_peer repl) true));;
      stop_replication lastIdx rest)%go
  end.

Definition startStopReplication (now : Z) : M lraft unit := (
  r <- get_raft;;
  let servers := Servers (latest (raft_configurations r)) in
  let lastIdx := getLastIndex (raft_state r) in
  start_replication now lastIdx servers;;
  l <- get_leader;;
  stop_replication lastIdx
    (filter (fun kv => kv.1 ∉ other_ids r servers) (map_to_list (replState l))))%go.

(** *** Appending entries *)

(** The loop of [dispatchLogs] that stamps the entries. *)
Fixpoint stamp_logs (now : Z) (term lastIndex : N) (fs : list logFuture)
    : N * list logFuture :=
  match fs with
  | [] => (lastIndex, [])
  | f :: fs =>
      let lastIndex := u64_add lastIndex 1 in
      let l := lf_log f in
      let f := mkLogFuture (lf_id f)
        (mkLog lastIndex term (log_Type l) (log_Data l) (log_Extensions l) now) in
      let '(lastIndex, fs) := stamp_logs now term lastIndex fs in
      (lastIndex, f :: fs)
  end.

Definition trigger_all (l : leaderState) : leaderState :=
  ls_set_replState (fr_set_triggerCh true <$> replState l) l.

(** The answer is the stamped futures, through which the callers see the indexes. *)
Definition dispatchLogs (now : Z) (applyLogs : list logFuture) : M lraft (list logFuture) := (
  r <- get_raft;;
  let term := currentTerm (raft_state r) in
  let '(lastIndex, stamped) := stamp_logs now term (getLastIndex (raft_state r)) applyLogs in
  modify_leader (fun l => ls_set_inflight (inflight l ++ stamped) l);;
  match StoreLogs (logs r) (lf_log <$> stamped) with
  | (l, Some err) =>
      on_raft (modify (with_logs l));;
      on_raft (respond_all (lf_id <$> applyLogs) (Some err));;
      on_raft (setState Follower);;
      returns stamped
  | (l, None) =>
      on_raft (modify (with_logs l));;
      modify_leader (fun l => ls_set_commitment
        (match_ (ls_commitment l) (localID r) lastIndex) l);;
      on_raft (setLastLog lastIndex term);;
      modify_leader trigger_all;;
      returns stamped
  end)%go.

(** *** Membership changes *)

(** Whether [configurationChangeChIfStable] returns the channel. *)
Definition configurationChangeChIfStable (lr : lraft) : bool :=
  bool_decide
    (latestIndex (raft_configurations (lr_raft lr)) =
       committedIndex (raft_configurations (lr_raft lr)) /\
     (startIndex (ls_commitment (lr_leader lr)) <= commitIndex (raft_state (lr_raft lr)))%N).

(** The entry of a configuration change; [None] is the panic of the encoders. *)
Definition configuration_entry (r : raft) (c : Configuration) : option Log :=
  let '(type, data) :=
    if decide (protocolVersion r < 2)%Z then (LogRemovePeerDeprecated, encodePeers c)
    else (LogConfiguration, EncodeConfiguration c) in
  match data with
  | Ok data => Some (mkLog 0 0 type data "" 0)
  | Err _ => None
  end.

Definition appendConfigurationEntry (now : Z) (future : option nat)
    (change : configurationChangeRequest) : M lraft unit := (
  r <- get_raft;;
  let cs := raft_configurations r in
  match nextConfiguration (latest cs) (latestIndex cs) change with
  | Err err => on_raft (respond future (Some err))
  | Ok configuration =>
      match configuration_entry r configuration with
      | None => panic
      | Some entry =>
          stamped <- dispatchLogs now [mkLogFuture future entry];;
          let index := from_option (fun f => log_Index (lf_log f)) 0%N (head stamped) in
          on_raft (setLatestConfiguration configuration index);;
          modify_leader (fun l => ls_set_commitment
            (setConfiguration (ls_commitment l) configuration) l);;
          startStopReplication now
      end
  end)%go.

(** *** The cases of [leaderLoop] *)

(** [Shutdown] of [api.go], without the future. *)
Definition Shutdown_ : M raft unit := (
  r <- get_state;;
  if shutdown r then returns tt
  else modify (with_shutdown true);; setState Shutdown)%go.

(** The inflight entries up to the commit index, from the front of the list. *)
Fixpoint committed_prefix (commitIndex : N) (q : list logFuture)
    : list logFuture * list logFuture :=
  match q with
  | [] => ([], [])
  | f :: q' =>
      if decide (commitIndex < log_Index (lf_log f))%N then ([], q)
      else let '(ready, rest) := committed_prefix commitIndex q' in (f :: ready, rest)
  end.

Definition group_futures (ready : list logFuture) : gmap N logFuture :=
  foldl (fun m f => <[log_Index (lf_log f) := f]> m) ∅ ready.

(** The part of [leaderLoop]'s commit case that commits the latest configuration;
    [stepDown] is the local variable of the loop, and the answer its new value. *)
Definition commit_configuration (oldCommitIndex commitIndex : N) (stepDown : bool)
    : M lraft bool := (
  r <- get_raft;;
  let cs := raft_configurations r in
  if decide (oldCommitIndex < latestIndex cs /\ latestIndex cs <= commitIndex)%N then
    on_raft (setCommittedConfiguration (latest cs) (latestIndex cs));;
    returns (if hasVote (latest cs) (localID r) then stepDown else true)
  else returns stepDown)%go.

(** The part that pulls the committed entries off the in-flight list. *)
Definition apply_ready (commitIndex : N) : M lraft unit := (
  l <- get_leader;;
  let '(groupReady, rest) := committed_prefix commitIndex (inflight l) in
  match last groupReady with
  | None => returns tt
  | Some f =>
      on_raft (processLogs (log_Index (lf_log f)) (group_futures groupReady));;
      modify_leader (ls_set_inflight rest)
  end)%go.

(** The case [<-r.leaderState.commitCh]. *)
Definition leader_commit (stepDown : bool) : M lraft bool := (
  modify_leader (fun l => ls_set_commitment
    (mkCommitment false (matchIndexes (ls_commitment l)) (c_commitIndex (ls_commitment l))
       (startIndex (ls_commitment l))) l);;
  r <- get_raft;;
  l <- get_leader;;
  let oldCommitIndex := commitIndex (raft_state r) in
  let commitIndex := commitment_getCommitIndex (ls_commitment l) in
  on_raft (setCommitIndex commitIndex);;
  stepDown <- commit_configuration oldCommitIndex commitIndex stepDown;;
  apply_ready commitIndex;;
  (if stepDown then
     if ShutdownOnRemove (conf r) then on_raft Shutdown_ else on_raft (setState Follower)
   else returns tt);;
  returns stepDown)%go.

(** [verifyLeader] on the future at address [v], whose own answer has the
    identity [f]. *)
Definition verifyLeader (v : nat) (f : option nat) : M lraft unit := (
  r <- get_raft;;
  let q := quorumSize r in
  if decide (q = 1)%Z then
    modify_leader (fun l => ls_set_verifies
      (<[v := mkVerifyFuture false q 1]> (ls_verifies l)) l);;
    on_raft (respond f None)
  else
    modify_leader (fun l => ls_set_verifies
      (<[v := mkVerifyFuture true q 1]> (ls_verifies l)) l);;
    modify_leader (fun l => ls_set_notify ({[v]} ∪ ls_notify l) l);;
    modify_leader (fun l => ls_set_replState
      ((fun s => fr_set_notifyCh true (fr_set_notify ({[v]} ∪ fr_notify s) s))
         <$> replState l) l))%go.

Definition forget_verify (v : nat) (l : leaderState) : leaderState :=
  ls_set_replState (cleanNotify v <$> replState l)
    (ls_set_notify (ls_notify l ∖ {[v]}) l).

(** The case [v := <-r.verifyCh]. *)
Definition leader_verify (v : nat) (f : option nat) : M lraft unit := (
  l <- get_leader;;
  match ls_verifies l !! v with
  | None => verifyLeader v f
  | Some vf =>
      if decide (vf_quorumSize vf = 0)%Z then verifyLeader v f
      else if decide (vf_votes vf < vf_quorumSize vf)%Z then
        on_raft (setState Follower);;
        modify_leader (forget_verify v);;
        on_raft (respond f (Some ErrNotLeader))
      else
        modify_leader (forget_verify v);;
        on_raft (respond f None)
  end)%go.

(** The loop of [checkLeaderLease]: [None] is the nil dereference when a voter has
    no replication routine. *)
Fixpoint lease_loop (now leaseTimeout : Z) (self : ServerID)
    (repl : gmap ServerID followerReplication) (servers : list Server)
    (contacted maxDiff : Z) : option (Z * Z) :=
  match servers with
  | [] => Some (contacted, maxDiff)
  | server :: rest =>
      let next := lease_loop now leaseTimeout self repl rest in
      if decide (Suffrage server = Voter) then
        if decide (ID server = self) then next (contacted + 1)%Z maxDiff
        else
          match repl !! ID server with
          | None => None
          | Some f =>
              let diff := (now - fr_lastContact f)%Z in
              if decide (diff <= leaseTimeout)%Z
              then next (contacted + 1)%Z (if decide (maxDiff < diff)%Z then diff else maxDiff)
              else next contacted maxDiff
          end
      else next contacted maxDiff
  end.

Definition checkLeaderLease (now : Z) : M lraft Z := (
  r <- get_raft;;
  l <- get_leader;;
  match lease_loop now (LeaderLeaseTimeout (conf r)) (localID r) (replState l)
          (Servers (latest (raft_configurations r))) 0 0 with
  | None => panic
  | Some (contacted, maxDiff) =>
      (if decide (contacted < quorumSize r)%Z then on_raft (setState Follower)
       else returns tt);;
      returns maxDiff
  end)%go.

(** The case [<-lease]: the answer is the interval until the next check. *)
Definition leader_lease (now : Z) : M lraft Z := (
  maxDiff <- checkLeaderLease now;;
  r <- get_raft;;
  let checkInterval := (LeaderLeaseTimeout (conf r) - maxDiff)%Z in
  returns (if decide (checkInterval < minCheckInterval)%Z then minCheckInterval
           else checkInterval))%go.

(** The loop of [pickServer]. *)
Fixpoint pick_loop (self : ServerID) (repl : gmap ServerID followerReplication)
    (servers : list Server) (pick : option Server) (current : N) : option Server :=
  match servers with
  | [] => pick
  | server :: rest =>
      if decide (ID server = self \/ Suffrage server <> Voter)
      then pick_loop self repl rest pick current
      else
        match repl !! ID server with
        | None => pick_loop self repl rest pick current
        | Some s =>
            if decide (current < fr_nextIndex s)%N
            then pick_loop self repl rest (Some server) (fr_nextIndex s)
            else pick_loop self repl rest pick current
        end
  end.

Definition pickServer (lr : lraft) : option Server :=
  pick_loop (localID (lr_raft lr)) (replState (lr_leader lr))
    (Servers (latest (raft_configurations (lr_raft lr)))) None 0.

(** The case [future := <-r.leadershipTransferCh]: the server to transfer to when
    the transfer is started, or the error the future is answered with. *)
Definition leader_transfer (id : option ServerID) (address : option ServerAddress)
    : M lraft (result (ServerID * ServerAddress)) := (
  lr <- get_state;;
  if leadershipTransferInProgress (lr_leader lr)
  then returns (Err ErrLeadershipTransferInProgress)
  else
    match (match id with
           | Some i => Some (i, default "" address)
           | None => match pickServer lr with
                     | Some s => Some (ID s, Address s)
                     | None => None
                     end
           end) with
    | None => returns (Err (Errorf "cannot find peer"))
    | Some (i, a) =>
        match replState (lr_leader lr) !! i with
        | None => returns (Err (Errorf "cannot find replication state"))
        | Some _ =>
            modify_leader (ls_set_transfer true);;
            returns (Ok (i, a))
        end
    end)%go.

(** The case [newLog := <-r.applyCh] with the futures gathered behind it. *)
Definition leader_apply (now : Z) (stepDown : bool) (newLog : logFuture)
    (waiting : list logFuture) : M lraft unit := (
  r <- get_raft;;
  l <- get_leader;;
  if leadershipTransferInProgress l
  then on_raft (respond (lf_id newLog) (Some ErrLeadershipTransferInProgress))
  else
    let ready := newLog :: take (Z.to_nat (MaxAppendEntries (conf r))) waiting in
    if stepDown then on_raft (respond_all (lf_id <$> ready) (Some ErrNotLeader))
    else dispatchLogs now ready;; returns tt)%go.

(** The case [future := <-r.configurationChangeChIfStable()]. *)
Definition leader_configurationChange (now : Z) (future : option nat)
    (change : configurationChangeRequest) : M lraft unit := (
  l <- get_leader;;
  if leadershipTransferInProgress l
  then on_raft (respond future (Some ErrLeadershipTransferInProgress))
  else appendConfigurationEntry now future change)%go.

(** *** Restoring a user's snapshot *)

Definition restoreUserSnapshot (msec : Z) (meta : SnapshotMeta) (data : string)
    (rerr answer : option error) : M lraft (option error) := (
  r <- get_raft;;
  let version := sm_Version meta in
  if decide ((version < SnapshotVersionMin)%Z \/ (SnapshotVersionMax < version)%Z) then
    returns (Some (Errorf ("unsupported snapshot version " +:+ pretty version)))
  else
  let cs := raft_configurations r in
  if decide (committedIndex cs <> latestIndex cs) then
    returns (Some (Errorf
      ("cannot restore snapshot now, wait until the configuration entry at " +:+
       pretty (latestIndex cs) +:+ " has been applied (have applied " +:+
       pretty (committedIndex cs) +:+ ")")))
  else
  l <- get_leader;;
  on_raft (respond_all (lf_id <$> inflight l) (Some ErrAbortedByRestore));;
  modify_leader (ls_set_inflight []);;
  let term := currentTerm (raft_state r) in
  let lastIndex := getLastIndex (raft_state r) in
  let lastIndex := if decide (lastIndex < sm_Index meta)%N then sm_Index meta else lastIndex in
  let lastIndex := u64_add lastIndex 1 in
  sink <- on_raft (on_snapshots (Create msec version lastIndex term (latest cs) (latestIndex cs)));;
  match sink with
  | Err err => returns (Some (wrapError "failed to create snapshot" err))
  | Ok sink =>
      n <- on_raft (on_snapshots (io_Copy sink data rerr));;
      match n with
      | Err err =>
          on_raft (on_snapshots (sink_Cancel sink));;
          returns (Some (wrapError "failed to write snapshot" err))
      | Ok n =>
          if decide (n <> sm_Size meta) then
            on_raft (on_snapshots (sink_Cancel sink));;
            returns (Some (Errorf
              ("failed to write snapshot, size didn't match (" +:+ pretty n +:+ " != " +:+
               pretty (sm_Size meta) +:+ ")")))
          else
            cerr <- on_raft (on_snapshots (sink_Close sink));;
            match cerr with
            | Some err => returns (Some (wrapError "failed to close snapshot" err))
            | None =>
                r <- get_raft;;
                if shutdown r then returns (Some ErrRaftShutdown)
                else
                  on_raft (modify (with_fsmMutateCh
                    (fsmMutateCh r ++ [fsmRestore (sink_ID sink (snapshots r))])));;
                  match answer with
                  | Some _ => panic
                  | None =>
                      on_raft (setLastLog lastIndex term);;
                      on_raft (setLastApplied lastIndex);;
                      on_raft (setLastSnapshot lastIndex term);;
                      (if IsMonotonic (logs r) then _ <- on_raft removeOldLogs;; returns tt
                       else returns tt);;
                      returns None
                  end
            end
      end
  end)%go.

(** *** Entering and leaving leadership *)

(** [runLeader] up to [leaderLoop]. *)
Definition runLeader_start (now : Z) (r : raft) : outcome lraft unit := (
  startStopReplication now;;
  dispatchLogs now [mkLogFuture None (mkLog 0 0 LogNoop "" "" 0)];;
  returns tt)%go (mkLeaderRaft r (setupLeaderState r)).

(** The deferred function of [runLeader]; [verifies] gives the future of each
    verification. *)
Definition runLeader_return (now : Z) (verifies : gmap nat (option nat)) (lr : lraft)
    : outcome raft unit := (
  setLastContact now;;
  respond_all (lf_id <$> inflight (lr_leader lr)) (Some ErrLeadershipLost);;
  respond_all ((fun v => default None (verifies !! v)) <$> elements (ls_notify (lr_leader lr)))
    (Some ErrLeadershipLost);;
  r <- get_state;;
  if decide (leaderAddr r = localAddr r /\ leaderID r = localID r)
  then modify (with_leader "" "") else returns tt)%go (lr_raft lr).
End Leader.


(** ** Appending entries *)

Section LeaderFacts.
Context {L K SN : Type} `{LogStore L} `{!LogStoreLaws L} `{StableStore K} `{SnapshotStore SN}
  `{MsgPack} `{PeerCodec}.
Abbreviation raft := (Raft L K SN).
Abbreviation lraft := (LeaderRaft L K SN).
Implicit Types lr : lraft.

Lemma respond_all_eq fs err (r : raft) :
  respond_all fs err r =
  Done tt (with_futures (foldl (fun m f => answer m f err) (futures r) fs) r).
Proof.
  revert r. induction fs as [|f fs IH]; intros r; simpl; [by destruct r|].
  unfold bind. rewrite respond_eq. by rewrite IH.
Qed.

(** A future with its entry stamped. *)
Definition stamped_as (now : Z) (term : N) (f f' : logFuture) : Prop :=
  lf_id f' = lf_id f /\ log_Term (lf_log f') = term /\
  log_Type (lf_log f') = log_Type (lf_log f) /\ log_Data (lf_log f') = log_Data (lf_log f) /\
  log_Extensions (lf_log f') = log_Extensions (lf_log f) /\ log_AppendedAt (lf_log f') = now.

Lemma stamp_logs_spec now term lastIndex fs :
  (lastIndex + N.of_nat (length fs) < u64_size)%N ->
  exists stamped, stamp_logs now term lastIndex fs =
      ((lastIndex + N.of_nat (length fs))%N, stamped) /\
    consecutive_from (lastIndex + 1) (lf_log <$> stamped) /\
    Forall2 (stamped_as now term) fs stamped.
Proof.
  revert lastIndex. induction fs as [|f fs IH]; intros lastIndex Hlt.
  { exists []. split_and!; [|done|constructor]. simpl. f_equal. lia. }
  cbn [length] in Hlt. cbn [stamp_logs]. rewrite u64_add_small by lia.
  destruct (IH (lastIndex + 1)%N) as (st & -> & Hc & Hall); [lia|].
  eexists. split_and!.
  - f_equal. cbn [length]. lia.
  - unfold consecutive_from in *. rewrite fmap_cons. cbn [length range]. rewrite fmap_cons.
    f_equal. exact Hc.
  - by constructor.
Qed.

(** Storing consecutive entries after the last index keeps the invariant. *)
Lemma dispatched_cached (r : raft) l lastIndex term new :
  log_cached r -> StoreLogs (logs r) new = (l, None) ->
  consecutive_from (getLastIndex (raft_state r) + 1) new -> new <> [] ->
  lastIndex = (getLastIndex (raft_state r) + N.of_nat (length new))%N ->
  Forall (fun x => log_Term x = term) new ->
  log_cached (with_raft_state (raftState_setLastLog lastIndex term) (with_logs l r)) /\
  Forall (fun x => GetLog l (log_Index x) = Ok x) new.
Proof.
  intros Hc HS Hcons Hne Hlast Hterm.
  assert (overwritten (logs r) l new) as Ho
    by (intros i; apply GetLog_StoreLogs; [apply Hc|done]).
  pose proof (store_ok_StoreLogs _ new (cached_store _ Hc)) as Hok.
  rewrite HS in Hok. simpl in Hok.
  destruct (last new) as [x|] eqn:Hx; [|by apply last_None in Hx].
  pose proof (consecutive_last _ _ _ Hcons Hx) as Hxi.
  assert (log_Term x = term) as Hxt.
  { rewrite Forall_forall in Hterm. by apply Hterm, last_Some_elem_of. }
  assert (lastIndex = log_Index x) as -> by (destruct new; [done|]; simpl in *; lia).
  clear Hlast. subst term. split.
  - apply (appended_log_cached (getLastIndex (raft_state r) + 1) new r entries_ok); [|done|done|].
    + by apply appended_stored with x.
    + intros _ i y Hy. pose proof (cached_bound _ Hc _ _ Hy). rewrite getLastIndex_max. lia.
  - apply Forall_forall. intros y Hy. rewrite Ho, (written_unique _ y); [done| |done].
    by eapply consecutive_NoDup.
Qed.

(** C20: A leader gives new entries the indexes after its last one, in order, and
    its current term, keeps everything else of them, marks them in flight, stores
    them in one call and reports its own match only when they are stored; the log
    invariant is kept.  When storing fails, nothing is reported, the
    position of the last entry stays, every future gets the error and the leader
    steps down. *)
Theorem dispatchLogs_spec now fs lr :
  log_cached (lr_raft lr) -> fs <> [] ->
  (getLastIndex (raft_state (lr_raft lr)) + N.of_nat (length fs) < u64_size)%N ->
  let r := lr_raft lr in
  let lastIndex := getLastIndex (raft_state r) in
  let term := currentTerm (raft_state r) in
  exists stamped lr',
    dispatchLogs now fs lr = Done stamped lr' /\
    consecutive_from (lastIndex + 1) (lf_log <$> stamped) /\
    Forall2 (stamped_as now term) fs stamped /\
    inflight (lr_leader lr') = inflight (lr_leader lr) ++ stamped /\
    match StoreLogs (logs r) (lf_log <$> stamped) with
    | (l, None) =>
        logs (lr_raft lr') = l /\ log_cached (lr_raft lr') /\
        Forall (fun f => GetLog l (log_Index (lf_log f)) = Ok (lf_log f)) stamped /\
        getLastLog (raft_state (lr_raft lr')) =
          ((lastIndex + N.of_nat (length fs))%N, term) /\
        state (raft_state (lr_raft lr')) = state (raft_state r) /\
        ls_commitment (lr_leader lr') =
          match_ (ls_commitment (lr_leader lr)) (localID r)
            (lastIndex + N.of_nat (length fs))
    | (l, Some err) =>
        state (raft_state (lr_raft lr')) = Follower /\
        getLastLog (raft_state (lr_raft lr')) = getLastLog (raft_state r) /\
        ls_commitment (lr_leader lr') = ls_commitment (lr_leader lr) /\
        futures (lr_raft lr') =
          foldl (fun m f => answer m f (Some err)) (futures r) (lf_id <$> fs)
    end.
Proof.
  intros Hc Hne Hlt r lastIndex term.
  destruct (stamp_logs_spec now term lastIndex fs Hlt) as (st & Hst & Hcons & Hall).
  assert (length st = length fs) as Hlen by (symmetry; by eapply Forall2_length).
  unfold dispatchLogs, bind at 1, get_raft. fold r. fold lastIndex. fold term. rewrite Hst.
  unfold bind at 1. cbn [modify_leader modify].
  destruct (StoreLogs (logs r) (lf_log <$> st)) as [l [err|]] eqn:HS.
  - eexists st, _. unfold bind, on_raft, modify, returns. cbn [lr_raft lr_leader].
    rewrite respond_all_eq. cbn [lr_raft lr_leader]. rewrite setState_eq.
    split; [reflexivity|]. rewrite HS. by split_and!.
  - eexists st, _. split; [reflexivity|]. rewrite HS.
    destruct (dispatched_cached r l (lastIndex + N.of_nat (length fs)) term (lf_log <$> st))
      as [Hc' Hread]; [done|done|done| | | |].
    + destruct st; [by destruct fs|done].
    + rewrite length_fmap, Hlen. fold lastIndex. done.
    + apply Forall_fmap. eapply Forall2_Forall_r; [exact Hall|].
      apply Forall_forall. intros f _ f' Hf. apply Hf.
    + apply Forall_fmap in Hread. by split_and!.
Qed.

(** ** Replication routines *)

(** What [startStopReplication] does for one server of the configuration. *)
Definition repl_for (now : Z) (r : raft) (lastIdx : N) (old : option followerReplication)
    (server : Server) : followerReplication :=
  match old with
  | None => new_replication now r lastIdx server
  | Some s => if decide (Address (fr_peer s) <> Address server) then fr_set_peer server s else s
  end.

Definition start_one (now : Z) (r : raft) (lastIdx : N)
    (m : gmap ServerID followerReplication) (server : Server)
    : gmap ServerID followerReplication :=
  if decide (ID server = localID r) then m
  else <[ID server := repl_for now r lastIdx (m !! ID server) server]> m.

(** The leader's state apart from the routines, and the server apart from what
    was observed. *)
Definition same_but_repl lr lr' : Prop :=
  with_observations [] (lr_raft lr') = with_observations [] (lr_raft lr) /\
  ls_set_stopped [] (ls_set_replState ∅ (lr_leader lr')) =
    ls_set_stopped [] (ls_set_replState ∅ (lr_leader lr)).

Lemma start_replication_Done now lastIdx servers lr :
  exists lr', start_replication now lastIdx servers lr = Done tt lr' /\
    same_but_repl lr lr' /\
    replState (lr_leader lr') =
      foldl (start_one now (lr_raft lr) lastIdx) (replState (lr_leader lr)) servers.
Proof.
  revert lr. induction servers as [|server servers IH]; intros [r l].
  { eexists. split; [done|]. by split. }
  cbn [start_replication foldl]. unfold bind, get_raft, get_leader. simpl.
  unfold start_one at 2. case_decide as Hself; simpl; [apply IH|].
  destruct (replState l !! ID server) as [s|] eqn:Hs; simpl.
  - destruct (decide (Address (fr_peer s) <> Address server)) as [Ha|Ha]; simpl.
    + destruct (IH (mkLeaderRaft r (update_repl (ID server) (fr_set_peer server) l)))
        as (lr' & -> & [H1' H2'] & H3'). exists lr'. split; [done|]. simpl in *.
      split; [by split|]. rewrite H3'. f_equal. apply map_eq. intros j.
      destruct (decide (j = ID server)) as [->|].
      * by rewrite lookup_alter_eq, lookup_insert_eq, Hs.
      * by rewrite lookup_alter_ne, lookup_insert_ne.
    + destruct (IH (mkLeaderRaft r l)) as (lr' & -> & [H1' H2'] & H3'). exists lr'.
      split; [done|]. split; [by split|]. simpl in *. rewrite H3'. f_equal.
      by rewrite insert_id.
  - match goal with |- context [start_replication _ _ _ ?x] =>
      destruct (IH x) as (lr' & -> & [H1' H2'] & H3') end.
    exists lr'. split; [done|]. simpl in *. split; [split; [by rewrite H1'|by rewrite H2']|].
    by rewrite H3'.
Qed.

Lemma start_one_other now r lastIdx servers m id :
  id ∉ other_ids r servers -> foldl (start_one now r lastIdx) m servers !! id = m !! id.
Proof.
  unfold other_ids. revert m. induction servers as [|s servers IH]; intros m Hni; [done|].
  cbn [foldl]. unfold start_one at 2. destruct (decide (ID s = localID r)) as [Hs|Hs].
  - apply IH. rewrite filter_cons_False in Hni by tauto. exact Hni.
  - rewrite filter_cons_True, fmap_cons in Hni by done. rewrite IH; [|set_solver]. rewrite lookup_insert_ne; [done|]. set_solver.
Qed.

Lemma start_one_in now r lastIdx servers m server :
  NoDup (ID <$> servers) -> server ∈ servers -> ID server <> localID r ->
  foldl (start_one now r lastIdx) m servers !! ID server =
    Some (repl_for now r lastIdx (m !! ID server) server).
Proof.
  revert m. induction servers as [|s servers IH]; intros m Hnd Hin Hid;
    [by apply elem_of_nil in Hin|].
  rewrite fmap_cons in Hnd. apply NoDup_cons in Hnd as [Hni Hnd].
  cbn [foldl]. apply elem_of_cons in Hin as [->|Hin].
  - rewrite start_one_other.
    + unfold start_one. rewrite decide_False by done. by rewrite lookup_insert_eq.
    + unfold other_ids. intros (x & Hx & Hx')%elem_of_list_to_set%list_elem_of_fmap.
      apply Hni. rewrite Hx. apply list_elem_of_fmap_2.
      by apply list_elem_of_filter in Hx' as [_ ?].
  - rewrite IH by done. unfold start_one.
    destruct (decide (ID s = localID r)); [done|].
    rewrite lookup_insert_ne; [done|]. intros He. apply Hni. rewrite He.
    by apply list_elem_of_fmap_2.
Qed.

Lemma stop_replication_Done lastIdx gone lr :
  exists lr', stop_replication lastIdx gone lr = Done tt lr' /\
    same_but_repl lr lr' /\
    replState (lr_leader lr') = foldr (fun kv => delete kv.1) (replState (lr_leader lr)) gone.
Proof.
  revert lr. induction gone as [|[id repl] gone IH]; intros [r l].
  { eexists. split; [done|]. by split. }
  cbn [stop_replication]. unfold bind; simpl.
  match goal with |- context [stop_replication _ _ ?x] =>
    destruct (IH x) as (lr' & -> & [H1' H2'] & H3') end.
  exists lr'. split; [done|]. simpl in *. split; [split; [by rewrite H1'|by rewrite H2']|].
  rewrite H3'. clear. induction gone as [|kv gone IH]; [done|]. simpl. rewrite IH.
  apply delete_delete.
Qed.

Lemma lookup_deletes {A} (gone : list (ServerID * A)) (m : gmap ServerID A) id :
  foldr (fun kv => delete kv.1) m gone !! id =
    if decide (id ∈ gone.*1) then None else m !! id.
Proof.
  induction gone as [|[k x] gone IH]; simpl; [done|].
  destruct (decide (id = k)) as [->|Hne].
  - rewrite lookup_delete_eq. rewrite decide_True by (left). done.
  - rewrite lookup_delete_ne by done. rewrite IH.
    destruct (decide (id ∈ gone.*1)) as [Hin|Hin].
    + rewrite decide_True by (by right). done.
    + rewrite decide_False; [done|]. by rewrite elem_of_cons; intros [|].
Qed.

Lemma start_one_is_Some now r lastIdx servers m id :
  id ∈ other_ids r servers -> is_Some (foldl (start_one now r lastIdx) m servers !! id).
Proof.
  unfold other_ids. revert m. induction servers as [|s servers IH]; intros m Hin; [set_solver|].
  destruct (decide (id ∈ other_ids r servers)) as [Hi|Hi]; [by apply IH|].
  cbn [foldl]. rewrite start_one_other by done.
  destruct (decide (ID s = localID r)) as [Hs|Hs].
  - rewrite filter_cons_False in Hin by tauto. done.
  - rewrite filter_cons_True, fmap_cons in Hin by done. unfold other_ids in Hi.
    replace id with (ID s) by set_solver. unfold start_one. rewrite decide_False by done.
    rewrite lookup_insert_eq. eauto.
Qed.

(** The routines after [startStopReplication]. *)
Lemma startStopReplication_Done now lr :
  let r := lr_raft lr in
  let servers := Servers (latest (raft_configurations r)) in
  exists lr', startStopReplication now lr = Done tt lr' /\ same_but_repl lr lr' /\
    forall id, replState (lr_leader lr') !! id =
      if decide (id ∈ other_ids r servers)
      then foldl (start_one now r (getLastIndex (raft_state r)))
             (replState (lr_leader lr)) servers !! id
      else None.
Proof.
  intros r servers. unfold startStopReplication, bind at 1, get_raft. fold r. fold servers.
  destruct (start_replication_Done now (getLastIndex (raft_state r)) servers lr)
    as (lr1 & HE1 & [Hr1 Hl1] & Hm1).
  unfold bind at 1. rewrite HE1. unfold bind, get_leader.
  set (gone := filter _ _).
  destruct (stop_replication_Done (getLastIndex (raft_state r)) gone lr1)
    as (lr2 & HE2 & [Hr2 Hl2] & Hm2).
  exists lr2. split; [done|]. split; [split; congruence|]. intros id.
  assert (id ∈ gone.*1 <-> id ∉ other_ids r servers /\ is_Some (replState (lr_leader lr1) !! id))
    as Hgone.
  { unfold gone. rewrite list_elem_of_fmap. split.
    - intros ([k x] & -> & [Hk Hx%elem_of_map_to_list]%list_elem_of_filter). eauto.
    - intros [Hk [x Hx]]. exists (id, x). split; [done|]. apply list_elem_of_filter.
      split; [done|]. by apply elem_of_map_to_list. }
  rewrite Hm2, lookup_deletes. destruct (decide (id ∈ other_ids r servers)) as [Hi|Hi].
  - rewrite decide_False by tauto. by rewrite Hm1.
  - case_decide as Hg; [done|]. destruct (replState (lr_leader lr1) !! id) eqn:E; [|done].
    exfalso. apply Hg, Hgone. split; [done|eauto].
Qed.

Lemma startStopReplication_dom now lr lr' :
  (forall id, replState (lr_leader lr') !! id =
      if decide (id ∈ other_ids (lr_raft lr) (Servers (latest (raft_configurations (lr_raft lr)))))
      then foldl (start_one now (lr_raft lr) (getLastIndex (raft_state (lr_raft lr))))
             (replState (lr_leader lr))
             (Servers (latest (raft_configurations (lr_raft lr)))) !! id
      else None) ->
  dom (replState (lr_leader lr')) =
    other_ids (lr_raft lr) (Servers (latest (raft_configurations (lr_raft lr)))).
Proof.
  intros Hm. apply set_eq. intros id. rewrite elem_of_dom, Hm. case_decide as Hi.
  - split; [done|]. intros _. by apply start_one_is_Some.
  - split; [by intros [? ?]|done].
Qed.

(** After [startStopReplication] there is a replication routine exactly for each
    other server of the latest configuration; a routine that existed goes on where it
    was, with the server's current address, a new one starts after the last index
    with the leader's term, and the rest of the state stays as it was. *)
Theorem startStopReplication_spec now lr :
  valid_configuration (latest (raft_configurations (lr_raft lr))) ->
  let r := lr_raft lr in
  let servers := Servers (latest (raft_configurations r)) in
  exists lr', startStopReplication now lr = Done tt lr' /\
    dom (replState (lr_leader lr')) = other_ids r servers /\
    (forall server, server ∈ servers -> ID server <> localID r ->
       replState (lr_leader lr') !! ID server =
         Some (repl_for now r (getLastIndex (raft_state r))
                 (replState (lr_leader lr) !! ID server) server)) /\
    same_but_repl lr lr'.
Proof.
  intros Hv r servers. destruct (startStopReplication_Done now lr) as (lr' & HE & Hs & Hm).
  exists lr'. split_and!; [done|by apply (startStopReplication_dom now)| |done].
  intros server Hin Hid. rewrite Hm, decide_True.
  - apply start_one_in; [apply Hv|done|done].
  - unfold other_ids. apply elem_of_list_to_set, list_elem_of_fmap_2.
    by apply list_elem_of_filter.
Qed.

(** ** The lease *)

(** The voters a leader counts: itself, and those heard from within the timeout. *)
Definition in_contact (now timeout : Z) (self : ServerID)
    (repl : gmap ServerID followerReplication) (server : Server) : Prop :=
  Suffrage server = Voter /\
  (ID server = self \/
   from_option (fun f => (now - fr_lastContact f <= timeout)%Z) False (repl !! ID server)).

#[global] Instance in_contact_dec now timeout self repl server :
  Decision (in_contact now timeout self repl server).
Proof. unfold in_contact. destruct (repl !! ID server); simpl; apply _. Defined.

Lemma lease_loop_spec now timeout self repl servers contacted maxDiff :
  (forall server, server ∈ servers -> Suffrage server = Voter -> ID server <> self ->
     is_Some (repl !! ID server)) ->
  exists maxDiff', lease_loop now timeout self repl servers contacted maxDiff =
    Some ((contacted +
           Z.of_nat (length (filter (in_contact now timeout self repl) servers)))%Z, maxDiff') /\
    (maxDiff <= maxDiff' <= Z.max maxDiff timeout)%Z.
Proof.
  revert contacted maxDiff. induction servers as [|s servers IH]; intros n d Hr.
  { exists d. simpl. split; [do 2 f_equal; lia|lia]. }
  assert (forall server, server ∈ servers -> Suffrage server = Voter -> ID server <> self ->
     is_Some (repl !! ID server)) as Hr' by (intros x Hx; apply Hr; by right).
  pose proof (fun n d => IH n d Hr') as IH'. cbn [lease_loop].
  destruct (decide (Suffrage s = Voter)) as [Hv|Hv].
  - destruct (decide (ID s = self)) as [Hs|Hs].
    + rewrite filter_cons_True by (unfold in_contact; tauto).
      destruct (IH' (n + 1)%Z d) as (m & -> & Hm).
      exists m. split; [|done]. do 2 f_equal. cbn [length]. lia.
    + destruct (Hr s) as [f Hf]; [left|done|done|]. rewrite Hf.
      destruct (decide (now - fr_lastContact f <= timeout)%Z) as [Hd|Hd].
      * rewrite filter_cons_True by (unfold in_contact; rewrite Hf; simpl; tauto).
        destruct (decide (d < now - fr_lastContact f)%Z);
          [destruct (IH' (n + 1)%Z (now - fr_lastContact f)%Z) as (m & -> & Hm)
          |destruct (IH' (n + 1)%Z d) as (m & -> & Hm)];
          (exists m; split; [do 2 f_equal; cbn [length]; lia|lia]).
      * rewrite filter_cons_False by (unfold in_contact; rewrite Hf; simpl; tauto).
        apply IH'.
  - rewrite filter_cons_False by (unfold in_contact; tauto). apply IH'.
Qed.

(** C36: With a routine for every other voter, the lease check goes through: the
    leader steps down exactly when it and the voters heard from within the lease
    timeout are fewer than a quorum, nothing else changes, and the next check
    comes no sooner than the minimum interval and, when the timeout is at least that,
    no later than a timeout from now. *)
Theorem leader_lease_spec now lr :
  let r := lr_raft lr in
  let timeout := LeaderLeaseTimeout (conf r) in
  let contacted := filter (in_contact now timeout (localID r) (replState (lr_leader lr)))
                     (Servers (latest (raft_configurations r))) in
  (forall server, server ∈ Servers (latest (raft_configurations r)) ->
     Suffrage server = Voter -> ID server <> localID r ->
     is_Some (replState (lr_leader lr) !! ID server)) ->
  exists interval lr', leader_lease now lr = Done interval lr' /\
    lr_leader lr' = lr_leader lr /\
    (if decide (Z.of_nat (length contacted) < quorumSize r)%Z
     then setState Follower r = Done tt (lr_raft lr') /\
          state (raft_state (lr_raft lr')) = Follower
     else lr_raft lr' = r) /\
    (minCheckInterval <= interval <= Z.max minCheckInterval timeout)%Z.
Proof.
  intros r timeout contacted Hr.
  destruct (lease_loop_spec now timeout (localID r) (replState (lr_leader lr))
    (Servers (latest (raft_configurations r))) 0 0 Hr) as (m & HE & Hm).
  unfold leader_lease, checkLeaderLease, bind, get_raft, get_leader. fold r. fold timeout.
  rewrite HE. fold contacted. rewrite Z.add_0_l.
  destruct (decide (Z.of_nat (length contacted) < quorumSize r)%Z) as [Hq|Hq].
  - unfold on_raft. fold r. rewrite setState_eq. do 2 eexists. split; [reflexivity|].
    split; [done|]. split; [done|]. cbn [lr_raft]. change (conf _) with (conf r).
    fold timeout. case_decide; lia.
  - do 2 eexists. split; [reflexivity|]. split; [done|]. split; [done|].
    fold r. fold timeout. case_decide; lia.
Qed.

(** ** Membership changes *)

(** The outcome of dispatching one entry, for a leader that goes on or steps down. *)
Lemma dispatch_one now f lr :
  let r := lr_raft lr in
  exists x lr', dispatchLogs now [f] lr = Done [x] lr' /\
    log_Index (lf_log x) = u64_add (getLastIndex (raft_state r)) 1 /\
    stamped_as now (currentTerm (raft_state r)) f x /\
    raft_configurations (lr_raft lr') = raft_configurations r /\
    localID (lr_raft lr') = localID r /\
    logs (lr_raft lr') = (StoreLogs (logs r) [lf_log x]).1 /\
    match (StoreLogs (logs r) [lf_log x]).2 with
    | None => getLastLog (raft_state (lr_raft lr')) =
                (log_Index (lf_log x), currentTerm (raft_state r))
    | Some _ => getLastLog (raft_state (lr_raft lr')) = getLastLog (raft_state r) /\
                state (raft_state (lr_raft lr')) = Follower
    end.
Proof.
  intros r. unfold dispatchLogs, bind at 1, get_raft. cbn [stamp_logs]. fold r.
  unfold bind at 1. cbn [modify_leader modify].
  set (x := mkLogFuture _ _). exists x.
  change (lf_log <$> [x]) with [lf_log x].
  destruct (StoreLogs (logs r) [lf_log x]) as [l [err|]] eqn:HS;
    unfold bind, on_raft, modify, returns; cbn [lr_raft lr_leader].
  - rewrite respond_all_eq. cbn [lr_raft lr_leader]. rewrite setState_eq.
    eexists. split; [reflexivity|]. by split_and!.
  - eexists. split; [reflexivity|]. by split_and!.
Qed.

Lemma setConfiguration_voters c conf :
  dom (matchIndexes (setConfiguration c conf)) = voter_ids (Servers conf).
Proof.
  unfold setConfiguration.
  assert (forall c, matchIndexes (recalculate c) = matchIndexes c) as ->.
  { intros c'. unfold recalculate. by repeat case_decide. }
  apply set_eq. intros id. cbn [matchIndexes]. rewrite elem_of_dom, voter_indexes_lookup.
  case_decide; (split; [by try intros [? ?]|by eauto]).
Qed.

(** What a membership change leaves behind. *)
Record changed (c : Configuration) lr lr' : Prop := {
  changed_committed :
    committed (raft_configurations (lr_raft lr')) = committed (raft_configurations (lr_raft lr));
  changed_committedIndex :
    committedIndex (raft_configurations (lr_raft lr')) =
    committedIndex (raft_configurations (lr_raft lr));
  changed_latest : latest (raft_configurations (lr_raft lr')) = c;
  changed_latestIndex :
    latestIndex (raft_configurations (lr_raft lr')) =
    u64_add (getLastIndex (raft_state (lr_raft lr))) 1;
  changed_routines : dom (replState (lr_leader lr')) = other_ids (lr_raft lr) (Servers c);
  changed_voters : dom (matchIndexes (ls_commitment (lr_leader lr'))) = voter_ids (Servers c)
}.

Lemma appendConfigurationEntry_Done now future change c entry lr :
  let r := lr_raft lr in
  nextConfiguration (latest (raft_configurations r)) (latestIndex (raft_configurations r))
    change = Ok c ->
  configuration_entry r c = Some entry ->
  let entry' := mkLog (u64_add (getLastIndex (raft_state r)) 1) (currentTerm (raft_state r))
                  (log_Type entry) (log_Data entry) (log_Extensions entry) now in
  exists lr', appendConfigurationEntry now future change lr = Done tt lr' /\
    changed c lr lr' /\
    logs (lr_raft lr') = (StoreLogs (logs r) [entry']).1 /\
    match (StoreLogs (logs r) [entry']).2 with
    | None => getLastLog (raft_state (lr_raft lr')) = (log_Index entry', log_Term entry')
    | Some _ => getLastLog (raft_state (lr_raft lr')) = getLastLog (raft_state r) /\
                state (raft_state (lr_raft lr')) = Follower
    end.
Proof.
  intros r Hn He entry'. unfold appendConfigurationEntry, bind at 1, get_raft. fold r.
  rewrite Hn, He.
  destruct (dispatch_one now (mkLogFuture future entry) lr)
    as ([xid x] & lr1 & HE & Hi & (_ & Ht & Hty & Hd & Hx & Ha) & Hcs & Hid & Hl & Hll).
  fold r in Hi, Ht, Hcs, Hid, Hl, Hll. cbn [lf_log] in *.
  assert (x = entry') as -> by (destruct x; simpl in *; by subst).
  unfold bind at 1. rewrite HE. cbn [head from_option lf_log].
  unfold setLatestConfiguration, bind, on_raft, modify_leader, modify.
  cbn [lr_raft lr_leader].
  match goal with |- context [startStopReplication now ?s] => set (lr2 := s) end.
  destruct (startStopReplication_Done now lr2) as (lr' & HE' & [Hr' Hl'] & Hm).
  exists lr'. split; [done|].
  pose proof (startStopReplication_dom now lr2 lr' Hm) as Hdom.
  assert (raft_configurations (lr_raft lr') =
          mkConfigurations (committed (raft_configurations r))
            (committedIndex (raft_configurations r)) c (log_Index entry')) as Hcs'.
  { transitivity (raft_configurations (lr_raft lr2)); [exact (f_equal raft_configurations Hr')|].
    simpl. by rewrite Hcs. }
  assert (ls_commitment (lr_leader lr') = setConfiguration (ls_commitment (lr_leader lr1)) c)
    as Hc' by exact (f_equal ls_commitment Hl').
  split_and!.
  - split; rewrite ?Hcs'; try done.
    + rewrite Hdom. unfold other_ids. cbn. by rewrite Hid.
    + rewrite Hc'. apply setConfiguration_voters.
  - rewrite <- Hl. exact (f_equal logs Hr').
  - assert (raft_state (lr_raft lr') = raft_state (lr_raft lr1)) as -> by
      exact (f_equal raft_state Hr'). by rewrite Ht in *.
Qed.

(** C15: A membership change taken from a stable leader leaves at most one
    configuration uncommitted: either it is refused and only its future is
    answered, or the committed configuration stays, the latest one is the changed
    one at the new entry's index, no further change is accepted until it
    commits, the leader replicates to exactly the other servers and counts
    exactly the voters of the new configuration, and every quorum of the committed
    configuration meets every quorum of the latest. *)
Theorem configurationChange_safe now future change lr :
  let r := lr_raft lr in
  let cs := raft_configurations r in
  configurationChangeChIfStable lr = true ->
  leadershipTransferInProgress (lr_leader lr) = false ->
  valid_configuration (latest cs) ->
  (committedIndex cs = latestIndex cs -> committed cs = latest cs) ->
  (latestIndex cs <= getLastIndex (raft_state r))%N ->
  (getLastIndex (raft_state r) + 1 < u64_size)%N ->
  (forall c, configuration_entry r c <> None) ->
  exists lr', leader_configurationChange now future change lr = Done tt lr' /\
    match nextConfiguration (latest cs) (latestIndex cs) change with
    | Err err =>
        lr' = mkLeaderRaft (with_futures (answer (futures r) future (Some err)) r)
                (lr_leader lr)
    | Ok c =>
        changed c lr lr' /\ configurationChangeChIfStable lr' = false /\
        valid_configuration c /\
        forall Q1 Q2,
          is_quorum Q1 (voter_set (committed (raft_configurations (lr_raft lr')))) ->
          is_quorum Q2 (voter_set (latest (raft_configurations (lr_raft lr')))) ->
          Q1 ∩ Q2 ≠ ∅
    end.
Proof.
  intros r cs Hst Htr Hv Hcom Hle Hlt Henc.
  unfold leader_configurationChange, bind at 1, get_leader. rewrite Htr.
  destruct (nextConfiguration (latest cs) (latestIndex cs) change) as [c|err] eqn:Hn.
  - destruct (configuration_entry r c) as [entry|] eqn:He; [|by destruct (Henc c)].
    destruct (appendConfigurationEntry_Done now future change c entry lr Hn He)
      as (lr' & HE & Hch & _).
    exists lr'. split; [done|]. apply bool_decide_eq_true in Hst as [Hst _].
    fold r cs in Hst. split_and!; [done| | |].
    + apply bool_decide_eq_false. rewrite (changed_latestIndex _ _ _ Hch),
        (changed_committedIndex _ _ _ Hch). fold r cs.
      rewrite u64_add_small by lia. lia.
    + eapply nextConfiguration_Ok; [apply Hv|exact Hn].
    + intros Q1 Q2. rewrite (changed_committed _ _ _ Hch), (changed_latest _ _ _ Hch).
      fold r cs. rewrite Hcom by done.
      destruct (nextConfiguration_Ok _ _ _ _ (valid_unique_ids _ Hv) Hn) as [_ Hm].
      unfold voter_set. rewrite Hm. apply (quorum_overlap _ _ _ _ (serverID change)).
      symmetry. apply change_voters.
  - unfold appendConfigurationEntry, bind, get_raft. fold r cs. rewrite Hn.
    unfold on_raft. fold r. rewrite respond_eq. eauto.
Qed.

(** C39: When the log store refuses the entry of a membership change, the leader
    steps down without the entry in its log but keeps the changed configuration as
    its latest, at an index beyond its last one. *)
Theorem configurationChange_unlogged now future change c entry err lr :
  let r := lr_raft lr in
  nextConfiguration (latest (raft_configurations r)) (latestIndex (raft_configurations r))
    change = Ok c ->
  configuration_entry r c = Some entry ->
  (forall ls, (StoreLogs (logs r) ls).2 = Some err) ->
  (lastSnapshotIndex (raft_state r) <= lastLogIndex (raft_state r))%N ->
  (getLastIndex (raft_state r) + 1 < u64_size)%N ->
  store_ok (logs r) ->
  exists lr', appendConfigurationEntry now future change lr = Done tt lr' /\
    state (raft_state (lr_raft lr')) = Follower /\
    (forall i, GetLog (logs (lr_raft lr')) i = GetLog (logs r) i) /\
    lastLogIndex (raft_state (lr_raft lr')) = lastLogIndex (raft_state r) /\
    latest (raft_configurations (lr_raft lr')) = c /\
    (lastLogIndex (raft_state (lr_raft lr')) <
     latestIndex (raft_configurations (lr_raft lr')))%N.
Proof.
  intros r Hn He Herr Hs Hlt Hok.
  destruct (appendConfigurationEntry_Done now future change c entry lr Hn He)
    as (lr' & HE & Hch & Hl & Hll).
  exists lr'. split; [done|]. fold r in Hl, Hll. rewrite Herr in Hll.
  destruct Hll as [[= Hll _] Hst]. split_and!; [done| |done|by apply Hch|].
  - intros i. rewrite Hl. match goal with |- context [StoreLogs (logs r) ?ls] =>
      pose proof (Herr ls) as Hls; destruct (StoreLogs (logs r) ls) eqn:HS end.
    simpl in *. subst. by eapply GetLog_StoreLogs_failed.
  - rewrite Hll, (changed_latestIndex _ _ _ Hch). fold r.
    rewrite getLastIndex_max in *. rewrite u64_add_small; lia.
Qed.

(** ** Committing *)

Lemma committed_prefix_spec n commit q :
  consecutive_from n (lf_log <$> q) ->
  committed_prefix commit q =
    (filter (fun f => (log_Index (lf_log f) <= commit)%N) q,
     filter (fun f => (commit < log_Index (lf_log f))%N) q).
Proof.
  revert n. induction q as [|f q IH]; intros n Hc; [done|].
  unfold consecutive_from in Hc. rewrite fmap_cons in Hc. cbn [length range] in Hc.
  rewrite fmap_cons in Hc. injection Hc as Hf Hc. cbn [committed_prefix].
  destruct (decide (commit < log_Index (lf_log f))%N) as [Hlt|Hle].
  - rewrite filter_cons_False by lia. rewrite filter_cons_True by done.
    assert (forall g, g ∈ q -> (commit < log_Index (lf_log g))%N) as Hall.
    { intros g Hg. eapply (consecutive_index (n + 1) _ (lf_log g)) in Hc; [lia|].
      by apply list_elem_of_fmap_2. }
    rewrite filter_none, filter_every; [done|by auto|].
    intros g Hg. specialize (Hall _ Hg). lia.
  - rewrite (IH (n + 1)%N Hc). rewrite filter_cons_True by lia.
    by rewrite filter_cons_False by done.
Qed.

Lemma group_futures_lookup q i :
  NoDup (log_Index <$> (lf_log <$> q)) ->
  forall f, group_futures q !! i = Some f <-> f ∈ q /\ log_Index (lf_log f) = i.
Proof.
  unfold group_futures. induction q as [|g q IH] using rev_ind; intros Hnd f.
  { simpl. rewrite lookup_empty. split; [done|]. by intros [?%elem_of_nil _]. }
  rewrite foldl_app. cbn [foldl]. rewrite !fmap_app in Hnd.
  apply NoDup_app in Hnd as (Hnd & Hdis & _). specialize (IH Hnd).
  rewrite elem_of_app, list_elem_of_singleton.
  destruct (decide (log_Index (lf_log g) = i)) as [<-|Hne].
  - rewrite lookup_insert_eq. split; [intros [= <-]; tauto|].
    intros [[Hf| ->] Hi]; [|done]. exfalso. apply (Hdis (log_Index (lf_log f))).
    + by do 2 apply list_elem_of_fmap_2.
    + rewrite Hi. left.
  - rewrite lookup_insert_ne by done. rewrite IH. split; [tauto|].
    intros [[?| ->] ?]; [tauto|done].
Qed.

(** The futures ready to be answered, and the index applied up to. *)
Definition ready_futures (commit : N) (q : list logFuture) : list logFuture :=
  filter (fun f => (log_Index (lf_log f) <= commit)%N) q.

Definition ready_indexes (r : raft) (ready : list logFuture) : list N :=
  from_option (fun f => to_apply r (log_Index (lf_log f))) [] (last ready).

(** The entries a leader can apply: its own in flight, from the index [n] on, and
    the stored ones before them. *)
Record can_apply (n commit : N) (r : raft) (q : list logFuture) : Prop := {
  can_consecutive : consecutive_from n (lf_log <$> q);
  can_applied : (lastApplied (raft_state r) < n)%N;
  can_prepare f : f ∈ q -> prepareLog r (lf_log f) (Some f) <> None;
  can_stored i : (lastApplied (raft_state r) < i < n)%N -> (i <= commit)%N ->
    exists e, GetLog (logs r) i = Ok e /\ prepareLog r e None <> None
}.

Lemma ready_consecutive n commit q :
  consecutive_from n (lf_log <$> q) ->
  consecutive_from n (lf_log <$> ready_futures commit q).
Proof.
  intros Hc. pose proof (committed_prefix_spec n commit q Hc) as Hs.
  assert (forall q a b, committed_prefix commit q = (a, b) -> q = a ++ b) as Happ.
  { clear. induction q as [|f q IH]; simpl; intros a b; [by intros [= <- <-]|].
    case_decide; [by intros [= <- <-]|].
    destruct (committed_prefix commit q) as [x y]. intros [= <- <-]. simpl. f_equal. auto. }
  apply Happ in Hs. rewrite Hs, fmap_app in Hc. by apply consecutive_app_l in Hc.
Qed.

Lemma group_futures_consecutive n q i :
  consecutive_from n (lf_log <$> q) -> (n <= i < n + N.of_nat (length q))%N ->
  exists f, group_futures q !! i = Some f.
Proof.
  intros Hc Hi. assert (i ∈ log_Index <$> (lf_log <$> q)) as Hin.
  { unfold consecutive_from in Hc. rewrite Hc, elem_of_range, length_fmap. lia. }
  apply list_elem_of_fmap in Hin as (? & -> & (f & -> & Hf)%list_elem_of_fmap).
  exists f. apply group_futures_lookup; [by eapply consecutive_NoDup|done].
Qed.

Lemma can_apply_prepared n commit r q i :
  can_apply n commit r q -> i ∈ ready_indexes r (ready_futures commit q) ->
  prepared_at r (group_futures (ready_futures commit q)) i <> None.
Proof.
  intros Hc. pose proof (ready_consecutive n commit q (can_consecutive _ _ _ _ Hc)) as Hr.
  unfold ready_indexes.
  destruct (last (ready_futures commit q)) as [f|] eqn:Hf; simpl; [|by intros ?%elem_of_nil].
  pose proof (last_Some_elem_of _ _ Hf) as [Hfc Hfq]%list_elem_of_filter.
  intros Hi. apply elem_of_range in Hi. unfold prepared_at.
  destruct (group_futures (ready_futures commit q) !! i) as [g|] eqn:Hg.
  - apply group_futures_lookup in Hg as [Hg _]; [|by eapply consecutive_NoDup].
    apply (can_prepare _ _ _ _ Hc). by apply list_elem_of_filter in Hg as [_ ?].
  - destruct (decide (i < n)%N) as [Hin|Hin].
    + destruct (can_stored _ _ _ _ Hc i) as (e & -> & He); [lia|lia|done].
    + exfalso. destruct (group_futures_consecutive n (ready_futures commit q) i) as [g Hg'];
        [done| |congruence].
      assert (log_Index (lf_log f) = (n + N.of_nat (length (ready_futures commit q)) - 1)%N).
      { rewrite <- (length_fmap lf_log (ready_futures _ _)).
        apply consecutive_last; [done|]. by rewrite fmap_last, Hf. }
      destruct (ready_futures commit q); [done|]. simpl in *. lia.
Qed.

(** Each ready future goes to the state machine with its own entry. *)
Lemma ready_delivered n commit r q f ct :
  can_apply n commit r q -> f ∈ ready_futures commit q ->
  prepareLog r (lf_log f) (Some f) = Some (Some ct) ->
  ct ∈ concat (tuples_at r (group_futures (ready_futures commit q)) <$>
                 ready_indexes r (ready_futures commit q)).
Proof.
  intros Hc Hf Hct. pose proof (ready_consecutive n commit q (can_consecutive _ _ _ _ Hc)) as Hr.
  unfold ready_indexes.
  destruct (last (ready_futures commit q)) as [g|] eqn:Hg;
    [|apply last_None in Hg; rewrite Hg in Hf; by apply elem_of_nil in Hf].
  simpl. apply list_elem_of_In, in_concat. exists [ct]. split; [|by left].
  apply list_elem_of_In, list_elem_of_fmap. exists (log_Index (lf_log f)). split.
  - unfold tuples_at, prepared_at.
    rewrite (proj2 (group_futures_lookup _ _ (consecutive_NoDup _ _ Hr) f)) by done.
    by rewrite Hct.
  - assert (log_Index (lf_log g) = (n + N.of_nat (length (lf_log <$> ready_futures commit q)) - 1)%N).
    { apply consecutive_last; [done|]. by rewrite fmap_last, Hg. }
    pose proof (consecutive_index _ _ (lf_log f) Hr (list_elem_of_fmap_2 _ _ _ Hf)).
    pose proof (can_applied _ _ _ _ Hc). apply elem_of_range. lia.
Qed.

(** Whether the new commit index commits the latest configuration. *)
Definition commits_latest (commit : N) (r : raft) : Prop :=
  (commitIndex (raft_state r) < latestIndex (raft_configurations r) <= commit)%N.

#[global] Instance commits_latest_dec commit r : Decision (commits_latest commit r).
Proof. unfold commits_latest. apply _. Defined.

Lemma commit_configuration_Done old commit stepDown lr :
  let r := lr_raft lr in
  let cs := raft_configurations r in
  commit_configuration old commit stepDown lr =
    Done (stepDown || bool_decide (old < latestIndex cs <= commit)%N &&
            negb (hasVote (latest cs) (localID r)))
      (mkLeaderRaft
         (with_configurations
            (if decide (old < latestIndex cs <= commit)%N
             then mkConfigurations (latest cs) (latestIndex cs) (latest cs) (latestIndex cs)
             else cs) r)
         (lr_leader lr)).
Proof.
  intros r cs. unfold commit_configuration, bind, get_raft. fold r cs.
  rewrite bool_decide_decide. case_decide; simpl.
  - f_equal. destruct (hasVote _ _), stepDown; done.
  - rewrite orb_false_r. unfold returns. f_equal. unfold r, cs. by destruct lr as [[]].
Qed.

Lemma apply_ready_Done n commit lr :
  let r := lr_raft lr in
  let q := inflight (lr_leader lr) in
  shutdown r = false -> (0 < MaxAppendEntries (conf r))%Z -> (commit + 1 < u64_size)%N ->
  can_apply n commit r q ->
  exists batches r',
    apply_ready commit lr =
      Done tt (mkLeaderRaft r' (ls_set_inflight
        (filter (fun f => (commit < log_Index (lf_log f))%N) q) (lr_leader lr))) /\
    unapplied r' = unapplied r /\
    fsmMutateCh r' = fsmMutateCh r ++ (fsmBatch <$> batches) /\
    concat batches =
      concat (tuples_at r (group_futures (ready_futures commit q)) <$>
                ready_indexes r (ready_futures commit q)) /\
    lastApplied (raft_state r') =
      default (lastApplied (raft_state r)) (last (ready_indexes r (ready_futures commit q))).
Proof.
  intros r q Hsh Hmax Hlt Hc.
  pose proof (committed_prefix_spec n commit q (can_consecutive _ _ _ _ Hc)) as Hq.
  pose proof (can_apply_prepared n commit r q) as Hp. unfold ready_indexes in *.
  unfold apply_ready, bind, get_leader. fold q. rewrite Hq. fold (ready_futures commit q).
  destruct (last (ready_futures commit q)) as [f|] eqn:Hf; simpl in Hp.
  - pose proof (last_Some_elem_of _ _ Hf) as [Hfc Hfq]%list_elem_of_filter.
    pose proof (consecutive_index _ _ (lf_log f) (can_consecutive _ _ _ _ Hc)
      (list_elem_of_fmap_2 _ _ _ Hfq)). pose proof (can_applied _ _ _ _ Hc).
    destruct (processLogs_applied (log_Index (lf_log f))
      (group_futures (ready_futures commit q)) r) as (bs & HE & Hcc & _);
      [done|done|lia|by intros; apply Hp|].
    exists bs. eexists. unfold on_raft. fold r. rewrite HE.
    split_and!; [done|done|done|done|].
    simpl. rewrite N.max_l by lia. unfold to_apply.
    destruct (N.to_nat (log_Index (lf_log f) - lastApplied (raft_state r))) as [|k] eqn:Hk; [lia|].
    rewrite range_snoc. rewrite last_snoc. simpl. lia.
  - exists [], r. rewrite app_nil_r. split_and!; [|done..].
    apply last_None in Hf. unfold returns. rewrite filter_every; [by destruct lr as [? []]|].
    intros f Hin. apply N.lt_nge. intros Hle.
    apply (elem_of_nil f). rewrite <- Hf. by apply list_elem_of_filter.
Qed.

Lemma step_down_Done (sd onRemove : bool) lr :
  shutdown (lr_raft lr) = false ->
  exists r', (if sd then if onRemove then on_raft Shutdown_ else on_raft (setState Follower)
              else returns tt) lr = Done tt (mkLeaderRaft r' (lr_leader lr)) /\
    state (raft_state r') =
      (if sd then if onRemove then Shutdown else Follower else state (raft_state (lr_raft lr))) /\
    (commitIndex (raft_state r'), lastApplied (raft_state r'), raft_configurations r',
     fsmMutateCh r') =
    (commitIndex (raft_state (lr_raft lr)), lastApplied (raft_state (lr_raft lr)),
     raft_configurations (lr_raft lr), fsmMutateCh (lr_raft lr)).
Proof.
  intros Hsh. destruct sd; [destruct onRemove|].
  - unfold on_raft, Shutdown_, bind, get_state, modify. rewrite Hsh, setState_eq.
    eexists. by split_and!.
  - unfold on_raft. rewrite setState_eq. eexists. by split_and!.
  - exists (lr_raft lr). split_and!; [by destruct lr|done|done].
Qed.

(** C18: When the commit index has advanced, the leader takes the commitment's
    index as its own; records the latest configuration as committed exactly when
    the index passes it, stepping down if it is no voter of it; takes the
    futures up to the index off the in-flight list; applies the log up to the last
    of them; and gives the state machine each of them together with its own
    entry. *)
Theorem leader_commit_spec stepDown n lr :
  let r := lr_raft lr in
  let cs := raft_configurations r in
  let commit := c_commitIndex (ls_commitment (lr_leader lr)) in
  let ready := ready_futures commit (inflight (lr_leader lr)) in
  let stepDown' := stepDown ||
    bool_decide (commits_latest commit r) && negb (hasVote (latest cs) (localID r)) in
  shutdown r = false -> (0 < MaxAppendEntries (conf r))%Z -> (commit + 1 < u64_size)%N ->
  can_apply n commit r (inflight (lr_leader lr)) ->
  exists lr' batches, leader_commit stepDown lr = Done stepDown' lr' /\
    commitIndex (raft_state (lr_raft lr')) = commit /\
    raft_configurations (lr_raft lr') =
      (if decide (commits_latest commit r)
       then mkConfigurations (latest cs) (latestIndex cs) (latest cs) (latestIndex cs)
       else cs) /\
    inflight (lr_leader lr') =
      filter (fun f => (commit < log_Index (lf_log f))%N) (inflight (lr_leader lr)) /\
    fsmMutateCh (lr_raft lr') = fsmMutateCh r ++ (fsmBatch <$> batches) /\
    (forall f ct, f ∈ ready -> prepareLog r (lf_log f) (Some f) = Some (Some ct) ->
       ct ∈ concat batches) /\
    lastApplied (raft_state (lr_raft lr')) =
      default (lastApplied (raft_state r)) (last (ready_indexes r ready)) /\
    state (raft_state (lr_raft lr')) =
      (if stepDown' then if ShutdownOnRemove (conf r) then Shutdown else Follower
       else state (raft_state r)).
Proof.
  intros r cs commit ready stepDown' Hsh Hmax Hlt Hc.
  unfold leader_commit, bind at 1, modify_leader at 1, modify. unfold bind, get_raft, get_leader.
  unfold on_raft at 1, setCommitIndex, modify. cbn [lr_raft lr_leader]. fold r.
  change (commitment_getCommitIndex _) with commit.
  rewrite commit_configuration_Done. cbn [lr_raft lr_leader].
  match goal with |- context [apply_ready commit ?x] => set (lr2 := x) end.
  change (bool_decide (_ < _ <= _)%N) with (bool_decide (commits_latest commit r)).
  fold cs. change (_ || _) with stepDown'.
  destruct (apply_ready_Done n commit lr2) as (bs & r3 & HE & Hun & Hch & Hbs & Hla);
    [done|done|done|by destruct Hc; split|].
  rewrite HE. destruct (step_down_Done stepDown' (ShutdownOnRemove (conf r))
    (mkLeaderRaft r3 (ls_set_inflight (filter (fun f => (commit < log_Index (lf_log f))%N)
       (inflight (lr_leader lr2))) (lr_leader lr2)))) as (r4 & HE4 & Hst & Hfr).
  { exact (eq_trans (f_equal shutdown Hun) Hsh). }
  rewrite HE4. cbn [lr_raft lr_leader] in *. injection Hfr as Hci Hla4 Hcs4 Hch4.
  eexists _, bs. split; [reflexivity|]. cbn [lr_raft lr_leader]. split_and!.
  - rewrite Hci. exact (f_equal (fun r => commitIndex (raft_state r)) Hun).
  - rewrite Hcs4. exact (f_equal raft_configurations Hun).
  - done.
  - rewrite Hch4. exact Hch.
  - intros f ct Hf Hct. rewrite Hbs. by apply (ready_delivered n commit r _ f).
  - rewrite Hla4. exact Hla.
  - rewrite Hst. destruct stepDown'; [done|].
    exact (f_equal (fun r => state (raft_state r)) Hun).
Qed.
End LeaderFacts.

(** ** Examples *)

#[local] Existing Instance bitsMsgPack.
#[local] Existing Instance inmemPeerCodec.

(** A store on a full disk. *)
Inductive FullStore := Full (s : InmemStore).

Definition full_GetLog (f : FullStore) (i : N) : result Log := let '(Full s) := f in GetLog s i.

Definition no_space : error := Errorf "no space left on device".

Instance FullStore_LogStore : LogStore FullStore := {
  FirstIndex '(Full s) := FirstIndex s;
  LastIndex '(Full s) := LastIndex s;
  GetLog := full_GetLog;
  StoreLogs f _ := (f, Some no_space);
  DeleteRange f _ _ := (f, Some no_space);
  IsMonotonic _ := false
}.

Instance FullStore_LogStoreLaws : LogStoreLaws FullStore.
Proof.
  refine {| store_ok := fun '(Full s) => store_ok s |}.
  - by intros s ls.
  - by intros s a b.
  - intros [s] i l. exact (GetLog_Index s i l).
  - intros s ls s' i _ HS. discriminate HS.
  - intros s ls s' e i _ HS. by injection HS as <- _.
  - intros s a b s' i _ _ HS. discriminate HS.
  - intros s a b s' e i l _ HS. by injection HS as <- _.
  - intros s a b s' e i _ HS. by injection HS as <- _.
Defined.

(** The leader [b] once its first entry has committed. *)
Definition steady_b : leaderState :=
  mkLeaderState false (mkCommitment false {["a" := 4%N; "b" := 4%N; "c" := 4%N]} 4 4) []
    {["a" := repl_to (mkServer Voter "a" "addr-a") 5;
      "c" := repl_to (mkServer Voter "c" "addr-c") 5]} ∅ false ∅ [] [].

Definition steady_leader : LeaderRaft InmemStore InmemStore InmemSnapshotStore :=
  mkLeaderRaft (with_raft_state (raftState_setCommitIndex 4) leader_b) steady_b.

(** The same leader before it hears that its entry has committed. *)
Definition commit_leader : LeaderRaft InmemStore InmemStore InmemSnapshotStore :=
  mkLeaderRaft leader_b (ls_set_inflight [mkLogFuture (Some 7) (cmd 4 4 "v")] steady_b).

(** The same leader on a full disk. *)
Definition full_leader : LeaderRaft FullStore InmemStore InmemSnapshotStore :=
  let r := lr_raft steady_leader in
  mkLeaderRaft
    (mkRaft (raft_state r) (protocolVersion r) (conf r) (localID r) (localAddr r)
       (lastContact r) (leaderAddr r) (leaderID r) (candidateFromLeadershipTransfer r)
       (preVoteDisabled r) (Full (logs r)) (stable r) (snapshots r) (raft_configurations r)
       (latestConfiguration r) (fsmMutateCh r) (futures r) (observations r) (shutdown r))
    steady_b.

Lemma trio_valid : valid_configuration trio.
Proof. apply checkConfiguration_valid. reflexivity. Qed.

Lemma leader_b_cached : log_cached leader_b.
Proof.
  split; [apply inmem_stored|..].
  - intros i l [Hl <-]%inmem_reads.
    repeat (apply elem_of_cons in Hl as [->|Hl]; [done|]). by apply elem_of_nil in Hl.
  - vm_compute. by intros l [= <-].
Qed.

Lemma dispatchLogs_spec_witness :
  exists stamped lr',
    dispatchLogs 9 [mkLogFuture (Some 8) (cmd 0 0 "new")] steady_leader = Done stamped lr' /\
    GetLog (logs (lr_raft lr')) 5 = Ok (mkLog 5 4 LogCommand "new" "" 9) /\
    log_cached (lr_raft lr').
Proof.
  destruct (dispatchLogs_spec 9 [mkLogFuture (Some 8) (cmd 0 0 "new")] steady_leader)
    as (st & lr' & HE & _ & _ & _ & Hs);
    [destruct leader_b_cached as [? ? ?]; by split|congruence|reflexivity|].
  exists st, lr'. split; [exact HE|].
  assert (st = [mkLogFuture (Some 8) (mkLog 5 4 LogCommand "new" "" 9)]) as ->.
  { vm_compute in HE. injection HE as <- _. reflexivity. }
  destruct Hs as (<- & Hc & Hg & _). split; [|exact Hc].
  apply Forall_inv in Hg. exact Hg.
Defined.

Lemma startStopReplication_spec_witness :
  exists lr', startStopReplication 9 (mkLeaderRaft leader_b (ls_set_replState ∅ steady_b))
      = Done tt lr' /\
    dom (replState (lr_leader lr')) = {["a"; "c"]}.
Proof.
  destruct (startStopReplication_spec 9 (mkLeaderRaft leader_b (ls_set_replState ∅ steady_b)))
    as (lr' & HE & Hd & _); [apply trio_valid|].
  exists lr'. split; [exact HE|]. rewrite Hd. apply (bool_decide_unpack _). vm_compute. exact I.
Defined.

Lemma leader_lease_spec_witness :
  exists interval lr', leader_lease (2000 * Millisecond) steady_leader = Done interval lr' /\
    state (raft_state (lr_raft lr')) = Follower.
Proof.
  destruct (leader_lease_spec (2000 * Millisecond) steady_leader) as (i & lr' & HE & _ & Hs & _).
  { intros server Hin _ Hid. vm_compute in Hin.
    repeat (apply elem_of_cons in Hin as [->|Hin]; [first [by destruct Hid|by eexists]|]).
    by apply elem_of_nil in Hin. }
  exists i, lr'. split; [exact HE|]. apply Hs.
Defined.

Lemma configurationChange_safe_witness :
  exists lr', leader_configurationChange 9 (Some 8) (mkChange AddVoter "d" "addr-d" 0)
      steady_leader = Done tt lr' /\
    configurationChangeChIfStable lr' = false /\
    dom (replState (lr_leader lr')) = {["a"; "c"; "d"]}.
Proof.
  destruct (configurationChange_safe 9 (Some 8) (mkChange AddVoter "d" "addr-d" 0) steady_leader)
    as (lr' & HE & Hc);
    [reflexivity|reflexivity|apply trio_valid|reflexivity|vm_compute; congruence|reflexivity
    |intros c; vm_compute; congruence|].
  exists lr'. split; [exact HE|]. destruct Hc as (Hc & Hs & _). split; [exact Hs|].
  rewrite (changed_routines _ _ _ Hc). apply (bool_decide_unpack _). vm_compute. exact I.
Defined.

Lemma configurationChange_unlogged_witness :
  exists lr', appendConfigurationEntry 9 (Some 8) (mkChange AddVoter "d" "addr-d" 0)
      full_leader = Done tt lr' /\
    (lastLogIndex (raft_state (lr_raft lr')) <
     latestIndex (raft_configurations (lr_raft lr')))%N.
Proof.
  destruct (nextConfiguration trio 1 (mkChange AddVoter "d" "addr-d" 0)) as [c|] eqn:Hn;
    [|discriminate Hn].
  destruct (configuration_entry (lr_raft full_leader) c) as [e|] eqn:He; [|discriminate He].
  destruct (configurationChange_unlogged 9 (Some 8) (mkChange AddVoter "d" "addr-d" 0) c e
              no_space full_leader) as (lr' & HE & _ & _ & _ & _ & Hlt);
    [exact Hn|exact He|reflexivity|vm_compute; congruence|reflexivity|apply inmem_stored|].
  exists lr'. split; [exact HE|exact Hlt].
Defined.

Lemma leader_commit_spec_witness :
  exists lr', leader_commit false commit_leader = Done false lr' /\
    lastApplied (raft_state (lr_raft lr')) = 4%N /\ inflight (lr_leader lr') = [].
Proof.
  destruct (leader_commit_spec false 4 commit_leader)
    as (lr' & bs & HE & _ & _ & Hi & _ & _ & Hl & _);
    [reflexivity|reflexivity|reflexivity| |].
  { split; [reflexivity|reflexivity| |].
    - intros f Hf. apply list_elem_of_singleton in Hf as ->. vm_compute. congruence.
    - intros i Hi. simpl in Hi. lia. }
  exists lr'. split_and!; [exact HE|exact Hl|exact Hi].
Defined.

(** The leader [b] of three voters with a non-voter [d], cut off from [a] and [c]. *)
Definition watched : Configuration :=
  mkConfiguration (Servers trio ++ [mkServer Nonvoter "d" "addr-d"]).

Definition cut_off_leader : LeaderRaft InmemStore InmemStore InmemSnapshotStore :=
  mkLeaderRaft (with_configurations (mkConfigurations watched 1 watched 1) leader_b)
    (ls_set_replState
       (<["d" := repl_to (mkServer Nonvoter "d" "addr-d") 5]> (replState steady_b)) steady_b).

(** A verification of leadership that needs two of three voters is granted on
    the answer of a server without a vote: a leader that reaches no other voter
    is told it is still the leader. *)
Theorem verifyLeader_counts_nonvoter :
  quorumSize (lr_raft cut_off_leader) = 2%Z /\ hasVote watched "d" = false /\
  exists lr1 l lr2,
    leader_verify 0 (Some 5) cut_off_leader = Done tt lr1 /\
    heartbeat_response 9 "d" 0
      (Ok (mkAppendEntriesResponse (mkHeader 3 "d" "addr-d") 4 4 true false)) (lr_leader lr1)
      = (0%N, l) /\
    ls_verifyCh l = [0] /\
    leader_verify 0 (Some 5) (mkLeaderRaft (lr_raft lr1) l) = Done tt lr2 /\
    futures (lr_raft lr2) !! 5 = Some None /\ state (raft_state (lr_raft lr2)) = Leader.
Proof. do 2 (split; [reflexivity|]). do 3 eexists. split_and!; vm_compute; reflexivity. Qed.
