(* ===== verification/Api.v ===== *)
(** * Starting and recovering a server, [api.go]

    [HasExistingState], [BootstrapCluster], [RecoverCluster] and [NewRaft] with
    [restoreSnapshot], the live bootstrap of [raft.go], and the requests that the
    membership calls put on the leader's channel. *)
From S2P Require Import Prelude Types Util Codec Configuration Config Stores State Elections AppendEntries SnapshotStores Snapshot Fsm.

(** ** Definitions *)

(** What a server keeps across restarts. *)
Record Stores (L K SN : Type) := mkStores {
  st_logs : L;
  st_stable : K;
  st_snaps : SN
}.
Arguments mkStores {L K SN} _ _ _.
Arguments st_logs {L K SN} _.
Arguments st_stable {L K SN} _.
Arguments st_snaps {L K SN} _.

Section Api.
Context {L K SN F : Type} `{LogStore L} `{StableStore K} `{SnapshotStore SN} `{!FSM F SN}
  `{MsgPack} `{PeerCodec}.
Abbreviation raft := (Raft L K SN).
Abbreviation stores := (Stores L K SN).

Definition HasExistingState (s : stores) : result bool :=
  let '(currentTerm, err) := GetUint64 (st_stable s) keyCurrentTerm in
  match (if read_failed err then err else None) with
  | Some e => Err (wrapError "failed to read current term" e)
  | None =>
      if decide (err = None /\ (0 < currentTerm)%N) then Ok true
      else
        match LastIndex (st_logs s) with
        | Err e => Err (wrapError "failed to get last log index" e)
        | Ok lastIndex =>
            if decide (0 < lastIndex)%N then Ok true
            else
              match List_ (st_snaps s) with
              | Err e => Err (wrapError "failed to list snapshots" e)
              | Ok snapshots => Ok (bool_decide (snapshots <> []))
              end
        end
  end.

(** The first entry of a new cluster; [None] is the panic of the encoders. *)
Definition bootstrap_entry (cf : Config) (configuration : Configuration) : option Log :=
  let '(type, data) :=
    if decide (ProtocolVersion cf < 3)%Z
    then (LogRemovePeerDeprecated, encodePeers configuration)
    else (LogConfiguration, EncodeConfiguration configuration) in
  match data with
  | Ok data => Some (mkLog 1 1 type data "" 0)
  | Err _ => None
  end.

Definition BootstrapCluster (cf : Config) (configuration : Configuration)
    : M stores (option error) := fun s =>
  match ValidateConfig cf with
  | Some err => Done (Some err) s
  | None =>
  match checkConfiguration configuration with
  | Some err => Done (Some err) s
  | None =>
  match HasExistingState s with
  | Err err => Done (Some (wrapError "failed to check for existing state" err)) s
  | Ok true => Done (Some ErrCantBootstrap) s
  | Ok false =>
      let '(k, err) := SetUint64 (st_stable s) keyCurrentTerm 1 in
      let s := mkStores (st_logs s) k (st_snaps s) in
      match err with
      | Some err => Done (Some (wrapError "failed to save current term" err)) s
      | None =>
          match bootstrap_entry cf configuration with
          | None => Panicked s
          | Some entry =>
              let '(l, err) := StoreLog (st_logs s) entry in
              let s := mkStores l (st_stable s) (st_snaps s) in
              match err with
              | Some err =>
                  Done (Some (wrapError "failed to append configuration entry to log" err)) s
              | None => Done None s
              end
          end
      end
  end end end.

(** *** Starting *)

(** A method of [Raft] run while the state machine belongs to the caller. *)
Definition with_fsm {A} (m : M raft A) : M (raft * F) A := fun s =>
  match m s.1 with
  | Done a r => Done a (r, s.2)
  | Panicked r => Panicked (r, s.2)
  end.

Definition tryRestoreSingleSnapshot (snapshot : SnapshotMeta) : M (raft * F) bool := fun s =>
  let '(r, f) := s in
  if NoSnapshotRestoreOnStart (conf r) then Done true s
  else
    match Open (snapshots r) (sm_ID snapshot) with
    | Err _ => Done false s
    | Ok (_, source) =>
        match Restore f source with
        | (f, Some _) => Done false (r, f)
        | (f, None) => Done true (r, f)
        end
    end.

(** The loop of [restoreSnapshot]: [None] is its normal end. *)
Fixpoint restore_loop (metas : list SnapshotMeta) : M (raft * F) (option (option error)) :=
  match metas with
  | [] => returns None
  | snapshot :: rest => (
      success <- tryRestoreSingleSnapshot snapshot;;
      if negb success then restore_loop rest
      else
        with_fsm (setLastApplied (sm_Index snapshot));;
        with_fsm (setLastSnapshot (sm_Index snapshot) (sm_Term snapshot));;
        match (if decide (0 < sm_Version snapshot)%Z
               then Ok (sm_Configuration snapshot, sm_ConfigurationIndex snapshot)
               else match decodePeers (sm_Peers snapshot) with
                    | Ok c => Ok (c, sm_Index snapshot)
                    | Err err => Err err
                    end) with
        | Err err => returns (Some (Some err))
        | Ok (c, index) =>
            with_fsm (setCommittedConfiguration c index);;
            with_fsm (setLatestConfiguration c index);;
            returns (Some None)
        end)%go
  end.

Definition restoreSnapshot : M (raft * F) (option error) := (
  s <- get_state;;
  match List_ (snapshots s.1) with
  | Err err => returns (Some err)
  | Ok metas =>
      res <- restore_loop metas;;
      match res with
      | Some err => returns err
      | None =>
          if decide (metas <> [])
          then returns (Some (Errorf "failed to load any existing snapshots"))
          else returns None
      end
  end)%go.

(** The loop of [NewRaft] over the log; [fuel] is the number of entries left. *)
Fixpoint scan_configurations (fuel : nat) (index : N) : M raft (option error) :=
  match fuel with
  | O => returns None
  | S fuel => (
      r <- get_state;;
      match GetLog (logs r) index with
      | Err _ => panic
      | Ok entry =>
          err <- processConfigurationLogEntry entry;;
          match err with
          | Some err => returns (Some err)
          | None => scan_configurations fuel (u64_add index 1)
          end
      end)%go
  end.

Definition new_struct (cf : Config) (addr : ServerAddress) (supportPreVote : bool)
    (s : stores) : raft :=
  mkRaft (mkRaftState 0 0 0 0 0 0 0 Follower) (ProtocolVersion cf) cf (LocalID cf) addr 0
    "" "" false (PreVoteDisabled cf || negb supportPreVote)
    (st_logs s) (st_stable s) (st_snaps s)
    (mkConfigurations (mkConfiguration []) 0 (mkConfiguration []) 0) None [] ∅ [] false.

(** [NewRaft] after the struct was created. *)
Definition start_raft (currentTerm : N) (lastIndex lastTerm : N)
    : M (raft * F) (option error) := (
  with_fsm (setState Follower);;
  with_fsm (setCurrentTerm currentTerm);;
  with_fsm (setLastLog lastIndex lastTerm);;
  err <- restoreSnapshot;;
  match err with
  | Some err => returns (Some err)
  | None =>
      s <- get_state;;
      let first := u64_add (lastSnapshotIndex (raft_state s.1)) 1 in
      with_fsm (scan_configurations (N.to_nat (lastIndex + 1 - first)) first)
  end)%go.

(** The outcome is the server, or the error of the call; the state is what is left
    of the server (of its stores, when the call fails early) and of the state
    machine. *)
Definition NewRaft (cf : Config) (addr : ServerAddress) (supportPreVote : bool)
    (s : stores) (f : F) : outcome (raft * F) (option error) :=
  let r := new_struct cf addr supportPreVote s in
  let fail err := Done (Some err) (r, f) in
  match ValidateConfig cf with
  | Some err => fail err
  | None =>
  let '(currentTerm, err) := GetUint64 (st_stable s) keyCurrentTerm in
  match (if read_failed err then err else None) with
  | Some e => fail (wrapError "failed to load current term" e)
  | None =>
  match LastIndex (st_logs s) with
  | Err e => fail (wrapError "failed to find last log" e)
  | Ok lastIndex =>
  match (if decide (0 < lastIndex)%N then GetLog (st_logs s) lastIndex
         else Ok (mkLog 0 0 LogCommand "" "" 0)) with
  | Err e =>
      fail (wrapError ("failed to get last log at index " +:+ pretty lastIndex) e)
  | Ok lastLog =>
      if decide ((ProtocolVersion cf < 3)%Z /\ LocalID cf <> addr) then
        fail (Errorf "when running with ProtocolVersion < 3, LocalID must be set to the network address")
      else start_raft currentTerm (log_Index lastLog) (log_Term lastLog) (r, f)
  end end end end.

(** *** Recovering *)

(** The loop over the snapshots: the index and term of the one restored. *)
Fixpoint recover_snapshot (snaps : SN) (metas : list SnapshotMeta) (f : F) : (N * N) * F :=
  match metas with
  | [] => ((0%N, 0%N), f)
  | snapshot :: rest =>
      match Open snaps (sm_ID snapshot) with
      | Err _ => recover_snapshot snaps rest f
      | Ok (_, source) =>
          match Restore f source with
          | (f, Some _) => recover_snapshot snaps rest f
          | (f, None) => ((sm_Index snapshot, sm_Term snapshot), f)
          end
      end
  end.

(** The loop that applies the log; [fuel] is the number of entries left. *)
Fixpoint recover_log (store : L) (fuel : nat) (index lastIndex lastTerm : N) (f : F)
    : result (N * N) * F :=
  match fuel with
  | O => (Ok (lastIndex, lastTerm), f)
  | S fuel =>
      match GetLog store index with
      | Err e =>
          (Err (wrapError ("failed to get log at index " +:+ pretty index) e), f)
      | Ok entry =>
          let f := if decide (log_Type entry = LogCommand) then (Apply f entry).1 else f in
          recover_log store fuel (u64_add index 1) (log_Index entry) (log_Term entry) f
      end
  end.

(** The snapshot of [RecoverCluster]: it is not cancelled when writing it fails. *)
Definition recover_write (msec version : Z) (lastIndex lastTerm : N)
    (configuration : Configuration) (persist : SnapshotSink -> M SN (option error))
    : M SN (option error) := (
  sink <- Create msec version lastIndex lastTerm configuration 1;;
  match sink with
  | Err err => returns (Some (wrapError "failed to create snapshot" err))
  | Ok sink =>
      err <- persist sink;;
      match err with
      | Some err => returns (Some (wrapError "failed to persist snapshot" err))
      | None =>
          err <- sink_Close sink;;
          match err with
          | Some err => returns (Some (wrapError "failed to finalize snapshot" err))
          | None => returns None
          end
      end
  end)%go.

(** [RecoverCluster] once the checks have passed and the snapshots are listed. *)
Definition recover_stores (msec : Z) (cf : Config) (configuration : Configuration)
    (metas : list SnapshotMeta) (s : stores) (f : F) : outcome (stores * F) (option error) :=
  let '((snapshotIndex, snapshotTerm), f) := recover_snapshot (st_snaps s) metas f in
  let fail err f := Done (Some err) (s, f) in
  if decide (metas <> [] /\ (snapshotIndex = 0%N \/ snapshotTerm = 0%N)) then
    fail (Errorf "failed to restore any of the available snapshots") f
  else
  match LastIndex (st_logs s) with
  | Err e => fail (wrapError "failed to find last log" e) f
  | Ok lastLogIndex =>
  let first := u64_add snapshotIndex 1 in
  match recover_log (st_logs s) (N.to_nat (lastLogIndex + 1 - first)) first
          snapshotIndex snapshotTerm f with
  | (Err e, f) => fail e f
  | (Ok (lastIndex, lastTerm), f) =>
  match Snapshot f with
  | (f, Err e) => fail (wrapError "failed to snapshot FSM" e) f
  | (f, Ok persist) =>
  match recover_write msec (getSnapshotVersion (ProtocolVersion cf)) lastIndex lastTerm
          configuration persist (st_snaps s) with
  | Panicked sn => Panicked (mkStores (st_logs s) (st_stable s) sn, f)
  | Done (Some err) sn => Done (Some err) (mkStores (st_logs s) (st_stable s) sn, f)
  | Done None sn =>
      match FirstIndex (st_logs s) with
      | Err e =>
          Done (Some (wrapError "failed to get first log index" e))
            (mkStores (st_logs s) (st_stable s) sn, f)
      | Ok firstLogIndex =>
          match DeleteRange (st_logs s) firstLogIndex lastLogIndex with
          | (l, Some e) =>
              Done (Some (wrapError "log compaction failed" e)) (mkStores l (st_stable s) sn, f)
          | (l, None) => Done None (mkStores l (st_stable s) sn, f)
          end
      end
  end end end end.

Definition RecoverCluster (msec : Z) (cf : Config) (configuration : Configuration)
    (s : stores) (f : F) : outcome (stores * F) (option error) :=
  let fail err := Done (Some err) (s, f) in
  match ValidateConfig cf with
  | Some err => fail err
  | None =>
  match checkConfiguration configuration with
  | Some err => fail err
  | None =>
  match HasExistingState s with
  | Err err => fail (wrapError "failed to check for existing state" err)
  | Ok false =>
      fail (Errorf "refused to recover cluster with no initial state, this is probably an operator error")
  | Ok true =>
  match List_ (st_snaps s) with
  | Err err => fail (wrapError "failed to list snapshots" err)
  | Ok metas => recover_stores msec cf configuration metas s f
  end end end end.

(** *** On a running server *)

Definition liveBootstrap (configuration : Configuration) : M raft (option error) := fun r =>
  if negb (hasVote configuration (localID r)) then Done (Some ErrNotVoter) r
  else
    let back (s : stores) :=
      with_logs (st_logs s) (with_stable (st_stable s) (with_snapshots (st_snaps s) r)) in
    match BootstrapCluster (conf r) configuration
            (mkStores (logs r) (stable r) (snapshots r)) with
    | Panicked s => Panicked (back s)
    | Done (Some err) s => Done (Some err) (back s)
    | Done None s =>
        match GetLog (st_logs s) 1 with
        | Err _ => Panicked (back s)
        | Ok entry => (
            setCurrentTerm 1;;
            setLastLog (log_Index entry) (log_Term entry);;
            processConfigurationLogEntry entry)%go (back s)
        end
    end.

(** The change that [AddPeer] and the like ask the leader for, or the error they
    return at once. *)
Definition api_AddPeer (r : raft) (peer : ServerAddress) : result configurationChangeRequest :=
  if decide (2 < protocolVersion r)%Z then Err ErrUnsupportedProtocol
  else Ok (mkChange AddVoter peer peer 0).

Definition api_RemovePeer (r : raft) (peer : ServerAddress) : result configurationChangeRequest :=
  if decide (2 < protocolVersion r)%Z then Err ErrUnsupportedProtocol
  else Ok (mkChange RemoveServer peer "" 0).

Definition api_AddVoter (r : raft) (id : ServerID) (address : ServerAddress) (prevIndex : N)
    : result configurationChangeRequest :=
  if decide (protocolVersion r < 2)%Z then Err ErrUnsupportedProtocol
  else Ok (mkChange AddVoter id address prevIndex).

Definition api_AddNonvoter (r : raft) (id : ServerID) (address : ServerAddress) (prevIndex : N)
    : result configurationChangeRequest :=
  if decide (protocolVersion r < 3)%Z then Err ErrUnsupportedProtocol
  else Ok (mkChange AddNonvoter id address prevIndex).

Definition api_RemoveServer (r : raft) (id : ServerID) (prevIndex : N)
    : result configurationChangeRequest :=
  if decide (protocolVersion r < 2)%Z then Err ErrUnsupportedProtocol
  else Ok (mkChange RemoveServer id "" prevIndex).

Definition api_DemoteVoter (r : raft) (id : ServerID) (prevIndex : N)
    : result configurationChangeRequest :=
  if decide (protocolVersion r < 3)%Z then Err ErrUnsupportedProtocol
  else Ok (mkChange DemoteVoter id "" prevIndex).

(** [initiateLeadershipTransfer] up to the channel. *)
Definition initiateLeadershipTransfer (r : raft) (id : option ServerID) : option error :=
  if decide (id = Some (localID r))
  then Some (Errorf "cannot transfer leadership to itself") else None.
End Api.
