(* ===== verification/Server.v ===== *)
(** * The main thread of a server, [raft.go]

    [processRPC] and [processHeartbeat], and the loops [run], [runFollower],
    [runCandidate] and [leaderLoop] as one step per event: the loop a server is in,
    with its local variables, is its [role], and each event is a case of the
    [select] of that loop. *)
From S2P Require Import Prelude Types Util Codec Configuration Config Commitment Stores State Elections AppendEntries SnapshotStores Snapshot Fsm Replication Leader Api.

(** ** Definitions *)

(** [rpc.Command]; [cmd_Other] is any other type, with its header if it has one. *)
Inductive Command :=
  | cmd_AppendEntries (a : AppendEntriesRequest)
  | cmd_RequestVote (req : RequestVoteRequest)
  | cmd_RequestPreVote (req : RequestPreVoteRequest)
  | cmd_InstallSnapshot (req : InstallSnapshotRequest)
  | cmd_TimeoutNow (req : TimeoutNowRequest)
  | cmd_Other (header : option RPCHeader).

Definition command_header (c : Command) : option RPCHeader :=
  match c with
  | cmd_AppendEntries a => Some (ae_Header a)
  | cmd_RequestVote req => Some (rv_Header req)
  | cmd_RequestPreVote req => Some (pv_Header req)
  | cmd_InstallSnapshot req => Some (is_Header req)
  | cmd_TimeoutNow req => Some (tn_Header req)
  | cmd_Other header => header
  end.

Inductive Reply :=
  | reply_AppendEntries (resp : AppendEntriesResponse)
  | reply_RequestVote (resp : RequestVoteResponse)
  | reply_RequestPreVote (resp : RequestPreVoteResponse)
  | reply_InstallSnapshot (resp : InstallSnapshotResponse)
  | reply_TimeoutNow (resp : TimeoutNowResponse).

(** What a handler reads from the outside: the clock, in ns and in ms, what the
    snapshot's reader delivers, and the answer of the state machine's thread. *)
Record rpcEnv := mkRpcEnv {
  env_now : Z;
  env_msec : Z;
  env_data : string;
  env_rerr : option error;
  env_answer : option error
}.

(** The loop the main thread is in.  [sd] is [stepDown] of [leaderLoop], and [vs]
    the futures of the verifications the leader has taken. *)
Inductive role :=
  | in_run
  | in_follower
  | in_candidate (c : candidateLoop)
  | in_leader (l : leaderState) (sd : bool) (vs : gmap nat (option nat)).

(** What the main thread receives. *)
Inductive event :=
  | ev_enter
  | ev_rpc (c : Command)
  | ev_configurationChange (f : option nat) (change : configurationChangeRequest)
  | ev_apply (f : logFuture) (waiting : list logFuture)
  | ev_verify (v : nat) (f : option nat)
  | ev_userRestore (f : option nat) (meta : SnapshotMeta)
  | ev_leadershipTransfer (f : option nat) (id : option ServerID)
      (address : option ServerAddress)
  | ev_configurations (f : option nat)
  | ev_bootstrap (f : option nat) (c : Configuration)
  | ev_timer
  | ev_preVote (v : preVoteResult)
  | ev_vote (v : voteResult)
  | ev_commit
  | ev_stepDown
  | ev_leaderNotify
  | ev_shutdown.

(** What a step sends: an answer to an RPC, the requests of a campaign, or the
    server that a leadership transfer was started for. *)
Inductive output :=
  | out_none
  | out_reply (resp : option Reply) (err : option error)
  | out_preCampaign (p : preCampaign)
  | out_campaign (e : campaign)
  | out_transfer (res : result (ServerID * ServerAddress)).

Section Server.
Context {L K SN : Type} `{LogStore L} `{StableStore K} `{SnapshotStore SN} `{MsgPack}
  `{PeerCodec}.
Abbreviation raft := (Raft L K SN).
Abbreviation lraft := (LeaderRaft L K SN).

Definition processRPC (env : rpcEnv) (c : Command) : M raft (option Reply * option error) := (
  r <- get_state;;
  match checkRPCHeader r (command_header c) with
  | Some err => returns (None, Some err)
  | None =>
      match c with
      | cmd_AppendEntries a =>
          res <- appendEntries (env_now env) a;;
          returns (Some (reply_AppendEntries res.1), res.2)
      | cmd_RequestVote req =>
          res <- requestVote (env_now env) req;;
          returns (Some (reply_RequestVote res.1), res.2)
      | cmd_RequestPreVote req =>
          res <- requestPreVote req;;
          returns (Some (reply_RequestPreVote res.1), res.2)
      | cmd_InstallSnapshot req =>
          res <- installSnapshot (env_now env) (env_msec env) (env_data env) (env_rerr env)
                   (env_answer env) req;;
          returns (Some (reply_InstallSnapshot res.1), res.2)
      | cmd_TimeoutNow req =>
          res <- timeoutNow req;;
          returns (Some (reply_TimeoutNow res.1), res.2)
      | cmd_Other _ => returns (None, Some (Errorf rpcUnexpectedCommandError))
      end
  end)%go.

(** The handler that the transport calls for heartbeats; it does not check the
    header.  [None] is the return without an answer. *)
Definition processHeartbeat (now : Z) (c : Command)
    : M raft (option (option Reply * option error)) := (
  r <- get_state;;
  if shutdown r then returns None
  else
    match c with
    | cmd_AppendEntries a =>
        res <- appendEntries now a;;
        returns (Some (Some (reply_AppendEntries res.1), res.2))
    | _ => returns (Some (None, Some (Errorf "unexpected command")))
    end)%go.

(** The cases that [runFollower] and [runCandidate] share: everything only a
    leader does is refused. *)
Definition refuse (ev : event) : option (M raft unit) :=
  match ev with
  | ev_configurationChange f _ | ev_verify _ f | ev_userRestore f _
  | ev_leadershipTransfer f _ _ => Some (respond f (Some ErrNotLeader))
  | ev_apply f _ => Some (respond (lf_id f) (Some ErrNotLeader))
  | ev_configurations f => Some (respond f None)
  | ev_leaderNotify => Some (returns tt)
  | ev_shutdown => Some Shutdown_
  | _ => None
  end.

Definition answer_rpc (env : rpcEnv) (c : Command) : M raft output := (
  res <- processRPC env c;; returns (out_reply res.1 res.2))%go.

(** A case of the loop of [runFollower]; [None] is an event the loop does not
    receive, and the answer is whether the loop returns. *)
Definition follower_case (env : rpcEnv) (ev : event) : option (M raft (bool * output)) :=
  match ev with
  | ev_rpc c => Some (out <- answer_rpc env c;; returns (false, out))%go
  | ev_bootstrap f c =>
      Some (err <- liveBootstrap c;; respond f err;; returns (false, out_none))%go
  | ev_timer =>
      Some (b <- follower_heartbeatTimeout (env_now env);; returns (b, out_none))%go
  | _ =>
      match refuse ev with
      | Some m => Some (m;; returns (false, out_none))%go
      | None => None
      end
  end.

Definition candidate_result (c : candidateCase) : option candidateLoop * output :=
  match c with
  | cl_continue c => (Some c, out_none)
  | cl_elect c e => (Some c, out_campaign e)
  | cl_return => (None, out_none)
  end.

(** A case of the loop of [runCandidate]; the answer is the loop's variables, or
    [None] for a return. *)
Definition candidate_case (env : rpcEnv) (c : candidateLoop) (ev : event)
    : option (M raft (option candidateLoop * output)) :=
  match ev with
  | ev_rpc cmd => Some (out <- answer_rpc env cmd;; returns (Some c, out))%go
  | ev_preVote v =>
      if cl_prevoteCh c
      then Some (res <- candidate_preVote c v;; returns (candidate_result res))%go
      else None
  | ev_vote v =>
      if cl_voteCh c
      then Some (res <- candidate_vote c v;; returns (candidate_result res))%go
      else None
  | ev_bootstrap f _ =>
      Some (respond f (Some ErrCantBootstrap);; returns (Some c, out_none))%go
  | ev_timer => Some (returns (None, out_none))
  | _ =>
      match refuse ev with
      | Some m => Some (m;; returns (Some c, out_none))%go
      | None => None
      end
  end.

(** Refusal while leadership is being transferred, of the cases that check it. *)
Definition unless_transferring (f : option nat) (m : M lraft unit) : M lraft unit := (
  l <- get_leader;;
  if leadershipTransferInProgress l
  then on_raft (respond f (Some ErrLeadershipTransferInProgress)) else m)%go.

(** A case of [leaderLoop]; the answer is the value of [stepDown].  Only the
    requests that [configurationChangeChIfStable] lets through are received. *)
Definition leader_case (env : rpcEnv) (sd : bool) (lr : lraft) (ev : event)
    : option (M lraft (bool * output)) :=
  let now := env_now env in
  let quiet (m : M lraft unit) := Some (m;; returns (sd, out_none))%go in
  match ev with
  | ev_rpc c => Some (out <- on_raft (answer_rpc env c);; returns (sd, out))%go
  | ev_stepDown =>
      quiet (modify_leader (ls_set_stepDown false);; on_raft (setState Follower))%go
  | ev_leadershipTransfer f id address =>
      Some (res <- leader_transfer id address;;
            (match res with
             | Err e => on_raft (respond f (Some e))
             | Ok _ => returns tt
             end);;
            returns (sd, out_transfer res))%go
  | ev_commit => Some (sd <- leader_commit sd;; returns (sd, out_none))%go
  | ev_verify v f => quiet (leader_verify v f)
  | ev_userRestore f meta =>
      quiet (unless_transferring f
        (err <- restoreUserSnapshot (env_msec env) meta (env_data env) (env_rerr env)
                  (env_answer env);;
         on_raft (respond f err)))%go
  | ev_configurations f => quiet (unless_transferring f (on_raft (respond f None)))
  | ev_configurationChange f change =>
      if configurationChangeChIfStable lr
      then quiet (leader_configurationChange now f change) else None
  | ev_bootstrap f _ => quiet (on_raft (respond f (Some ErrCantBootstrap)))
  | ev_apply f waiting => quiet (leader_apply now sd f waiting)
  | ev_timer => quiet (leader_lease now;; returns tt)%go
  | ev_leaderNotify =>
      quiet (modify_leader (fun l =>
        ls_set_replState (fr_set_notifyCh true <$> replState l) l))
  | ev_shutdown => quiet (on_raft Shutdown_)
  | _ => None
  end.

(** The condition of each loop, and what is deferred to its return. *)
Definition leave_follower (returned : bool) : M raft role := (
  r <- get_state;;
  returns (if decide (returned = false /\ state (raft_state r) = Follower)
           then in_follower else in_run))%go.

Definition leave_candidate (c : option candidateLoop) : M raft role := (
  r <- get_state;;
  match c with
  | Some c =>
      if decide (state (raft_state r) = Candidate) then returns (in_candidate c)
      else runCandidate_return;; returns in_run
  | None => runCandidate_return;; returns in_run
  end)%go.

Definition leave_leader (now : Z) (sd : bool) (vs : gmap nat (option nat)) (lr : lraft)
    : outcome raft role :=
  if decide (state (raft_state (lr_raft lr)) = Leader)
  then Done (in_leader (lr_leader lr) sd vs) (lr_raft lr)
  else
    match runLeader_return now vs lr with
    | Done _ r => Done in_run r
    | Panicked r => Panicked r
    end.

(** The loop of [run]: the next loop is the one of the current state. *)
Definition enter_loop (env : rpcEnv) : M raft (role * output) := fun r =>
  if shutdown r then (setLeader "" "";; returns (in_run, out_none))%go r
  else
    match state (raft_state r) with
    | Follower => Done (in_follower, out_none) r
    | Candidate =>
        (res <- runCandidate_start;;
         ro <- leave_candidate (Some res.1);;
         returns (ro, match res.2 with
                      | inl p => out_preCampaign p
                      | inr e => out_campaign e
                      end))%go r
    | Leader =>
        match runLeader_start (env_now env) r with
        | Done _ lr =>
            match leave_leader (env_now env) false ∅ lr with
            | Done ro r => Done (ro, out_none) r
            | Panicked r => Panicked r
            end
        | Panicked lr => Panicked (lr_raft lr)
        end
    | Shutdown => Done (in_run, out_none) r
    end.

(** The verification that an event registers. *)
Definition note_verify (ev : event) (vs : gmap nat (option nat)) : gmap nat (option nat) :=
  match ev with
  | ev_verify v f => <[v := f]> vs
  | _ => vs
  end.

(** One step of the main thread: [None] when the loop does not receive the event. *)
Definition main_step (env : rpcEnv) (ev : event) (ro : role) (r : raft)
    : option (outcome raft (role * output)) :=
  match ro with
  | in_run =>
      match ev with
      | ev_enter => Some (enter_loop env r)
      | ev_shutdown => Some ((Shutdown_;; returns (in_run, out_none))%go r)
      | _ => None
      end
  | in_follower =>
      match follower_case env ev with
      | Some m => Some ((res <- m;; ro <- leave_follower res.1;; returns (ro, res.2))%go r)
      | None => None
      end
  | in_candidate c =>
      match candidate_case env c ev with
      | Some m => Some ((res <- m;; ro <- leave_candidate res.1;; returns (ro, res.2))%go r)
      | None => None
      end
  | in_leader l sd vs =>
      let lr := mkLeaderRaft r l in
      match leader_case env sd lr ev with
      | Some m =>
          Some (match m lr with
                | Done (sd, out) lr =>
                    match leave_leader (env_now env) sd (note_verify ev vs) lr with
                    | Done ro r => Done (ro, out) r
                    | Panicked r => Panicked r
                    end
                | Panicked lr => Panicked (lr_raft lr)
                end)
      | None => None
      end
  end.
End Server.
