(* ===== verification/Advance.v ===== *)
(** * What the steps of a server do to its votes and its term

    Two relations between the states before and after a step: [quiet], when the disk
    and the term stay and the state at most falls back, and [advances], when the
    votes on disk are kept, the term does not fall and nobody becomes a leader.  Every
    handler and every case of the main loops is shown to be in one of them, so that
    [Cluster] only has to look at the campaigns. *)
From S2P Require Import Prelude Types Util Codec Configuration Config Commitment Stores State Elections AppendEntries SnapshotStores Snapshot Fsm Replication Leader Api Server.

(** ** Steps that leave the votes and the term alone *)

Create HintDb quiet.

(** [break] splits the innermost branch of the goal. *)
Ltac break :=
  match goal with
  | |- context [match ?x with _ => _ end] =>
      lazymatch x with
      | context [match _ with _ => _ end] => fail
      | _ => destruct x eqn:?
      end
  end.

(** [calm] follows a computation down to steps that are known to be quiet. *)
Ltac calm :=
  repeat first
    [ progress intros
    | solve [eauto 3 with quiet]
    | apply frames_bind; [apply _| |]
    | apply frames_returns; apply _
    | apply frames_panic; apply _
    | apply frames_get; apply _
    | case_match ].

Section Quiet.
Context {L K SN : Type} `{LogStore L} `{StableStore K} `{SnapshotStore SN} `{MsgPack}
  `{PeerCodec}.
Abbreviation raft := (Raft L K SN).
Abbreviation lraft := (LeaderRaft L K SN).
Implicit Types r : raft.

(** The identity of a server, which nothing changes. *)
Definition identity r : ServerID * ServerAddress * ServerID :=
  (localID r, localAddr r, LocalID (conf r)).

(** The disk and the term stay, and the state at most falls back. *)
Record quiet r r' : Prop := {
  quiet_identity : identity r' = identity r;
  quiet_stable : stable r' = stable r;
  quiet_term : currentTerm (raft_state r') = currentTerm (raft_state r);
  quiet_state : state (raft_state r') = state (raft_state r) \/
                state (raft_state r') = Follower \/ state (raft_state r') = Shutdown
}.

#[export] Instance quiet_preorder : PreOrder quiet.
Proof.
  split.
  - intros r. split; auto.
  - intros r1 r2 r3 [I1 I2 I3 I4] [J1 J2 J3 J4].
    split; [congruence|congruence|congruence|]. destruct J4 as [->|?]; auto.
Qed.

(** The same for a leader. *)
Definition lquiet (lr lr' : lraft) : Prop := quiet (lr_raft lr) (lr_raft lr').

#[export] Instance lquiet_preorder : PreOrder lquiet.
Proof.
  split; unfold lquiet; [intros lr; reflexivity|].
  intros lr1 lr2 lr3 Hq1 Hq2. by etrans.
Qed.

Lemma quiet_modify (f : raft -> raft) : (forall r, quiet r (f r)) -> frames quiet (modify f).
Proof. intros Hf r. apply Hf. Qed.

Lemma quiet_on_raft {A} (m : M raft A) : frames quiet m -> frames lquiet (on_raft m).
Proof. intros Hm lr. unfold on_raft. specialize (Hm (lr_raft lr)). by destruct (m _). Qed.

Lemma lquiet_modify_leader f : frames lquiet (@modify_leader L K SN f).
Proof. intros lr. unfold lquiet. simpl. reflexivity. Qed.

Lemma lquiet_get_raft : frames lquiet (@get_raft L K SN).
Proof. intros lr. unfold lquiet. simpl. reflexivity. Qed.

Lemma lquiet_get_leader : frames lquiet (@get_leader L K SN).
Proof. intros lr. unfold lquiet. simpl. reflexivity. Qed.

Lemma quiet_observe o : frames quiet (@observe L K SN o).
Proof. apply quiet_modify. intros r. by split; auto. Qed.

Lemma quiet_respond f err : frames quiet (@respond L K SN f err).
Proof. intros r. rewrite respond_eq. by split; auto. Qed.

Lemma quiet_respond_all fs err : frames quiet (@respond_all L K SN fs err).
Proof. intros r. rewrite respond_all_eq. by split; auto. Qed.

Lemma quiet_setLeader addr id : frames quiet (@setLeader L K SN addr id).
Proof. intros r. rewrite setLeader_eq. by split; auto. Qed.

Lemma quiet_setState s :
  s = Follower \/ s = Shutdown -> frames quiet (@setState L K SN s).
Proof. intros Hs r. rewrite setState_eq. split; simpl; auto. Qed.

Lemma quiet_on_snapshots {A} (m : M SN A) : frames quiet (@on_snapshots L K SN A m).
Proof. intros r. unfold on_snapshots. destruct (m _); by split; auto. Qed.

Lemma quiet_processLogs index fs : frames quiet (@processLogs L K SN _ index fs).
Proof.
  intros r. pose proof (processLogs_keeps index fs r) as Hk.
  assert (forall r', unapplied r' = unapplied r -> quiet r r') as Hq.
  { intros r' E. split; [exact (f_equal identity E)|exact (f_equal stable E)
    |exact (f_equal (fun r => currentTerm (raft_state r)) E)
    |left; exact (f_equal (fun r => state (raft_state r)) E)]. }
  destruct (processLogs index fs r); by apply Hq.
Qed.

#[local] Hint Resolve quiet_on_raft lquiet_modify_leader lquiet_get_raft lquiet_get_leader
  quiet_observe quiet_respond quiet_respond_all quiet_setLeader quiet_on_snapshots
  quiet_processLogs : quiet.
#[local] Hint Extern 1 (frames _ (setState _)) => apply quiet_setState; by auto : quiet.
#[local] Hint Extern 1 (frames _ (modify _)) =>
  apply quiet_modify; intros; by split; auto : quiet.

Lemma quiet_setLatestConfiguration c i : frames quiet (@setLatestConfiguration L K SN c i).
Proof. unfold setLatestConfiguration. calm. Qed.

Lemma lquiet_start_replication now lastIdx servers :
  frames lquiet (@start_replication L K SN now lastIdx servers).
Proof. induction servers; cbn [start_replication]; calm. Qed.

Lemma lquiet_stop_replication lastIdx gone :
  frames lquiet (@stop_replication L K SN lastIdx gone).
Proof. induction gone; cbn [stop_replication]; calm. Qed.

#[local] Hint Resolve quiet_setLatestConfiguration lquiet_start_replication
  lquiet_stop_replication : quiet.

Lemma lquiet_startStopReplication now : frames lquiet (@startStopReplication L K SN now).
Proof. unfold startStopReplication. calm. Qed.

Lemma lquiet_dispatchLogs now fs : frames lquiet (@dispatchLogs L K SN _ now fs).
Proof. unfold dispatchLogs, setLastLog. calm. Qed.

#[local] Hint Resolve lquiet_startStopReplication lquiet_dispatchLogs : quiet.

Lemma lquiet_leader_configurationChange now f change :
  frames lquiet (@leader_configurationChange L K SN _ _ _ now f change).
Proof. unfold leader_configurationChange, appendConfigurationEntry. calm.
Qed.

Lemma quiet_Shutdown : frames quiet (@Shutdown_ L K SN).
Proof. unfold Shutdown_. calm. Qed.

#[local] Hint Resolve lquiet_leader_configurationChange quiet_Shutdown : quiet.

Lemma lquiet_leader_commit sd : frames lquiet (@leader_commit L K SN _ sd).
Proof.
  unfold leader_commit, commit_configuration, apply_ready, setCommitIndex,
    setCommittedConfiguration. calm.
Qed.

Lemma lquiet_leader_verify v f : frames lquiet (@leader_verify L K SN v f).
Proof. unfold leader_verify, verifyLeader. calm. Qed.

Lemma lquiet_leader_lease now : frames lquiet (@leader_lease L K SN now).
Proof. unfold leader_lease, checkLeaderLease. calm. Qed.

Lemma lquiet_leader_transfer id address : frames lquiet (@leader_transfer L K SN id address).
Proof. unfold leader_transfer. calm. Qed.

Lemma lquiet_leader_apply now sd f waiting :
  frames lquiet (@leader_apply L K SN _ now sd f waiting).
Proof. unfold leader_apply. calm. Qed.

Lemma quiet_compactLogsWithTrailing snapIdx lastLogIdx trailing :
  frames quiet (@compactLogsWithTrailing L K SN _ snapIdx lastLogIdx trailing).
Proof. intros r. unfold compactLogsWithTrailing. repeat break; by split; auto. Qed.

Lemma quiet_removeOldLogs : frames quiet (@removeOldLogs L K SN _).
Proof.
  intros r. unfold removeOldLogs. destruct (LastIndex _); [|reflexivity].
  apply quiet_compactLogsWithTrailing.
Qed.

Lemma quiet_compactLogs i : frames quiet (@compactLogs L K SN _ i).
Proof. intros r. apply quiet_compactLogsWithTrailing. Qed.

#[local] Hint Resolve lquiet_leader_verify lquiet_leader_lease lquiet_leader_transfer
  lquiet_leader_apply quiet_removeOldLogs quiet_compactLogs lquiet_leader_commit : quiet.

Lemma lquiet_restoreUserSnapshot msec meta data rerr answer :
  frames lquiet (@restoreUserSnapshot L K SN _ _ msec meta data rerr answer).
Proof. unfold restoreUserSnapshot, setLastLog, setLastApplied, setLastSnapshot. calm. Qed.

Lemma quiet_takeSnapshot msec req cs : frames quiet (@takeSnapshot L K SN _ _ msec req cs).
Proof. unfold takeSnapshot, setLastSnapshot. calm. Qed.

Lemma quiet_receive_snapshot msec data rerr answer req c ci :
  frames quiet (@receive_snapshot L K SN _ msec data rerr answer req c ci).
Proof. unfold receive_snapshot. calm. Qed.

Lemma quiet_adopt_snapshot req c ci : frames quiet (@adopt_snapshot L K SN _ req c ci).
Proof. unfold adopt_snapshot, setLastApplied, setLastSnapshot, setCommittedConfiguration. calm. Qed.

Lemma quiet_truncate_suffix from last : frames quiet (@truncate_suffix L K SN _ from last).
Proof.
  intros r. unfold truncate_suffix, setLatestConfiguration, bind, modify, returns.
  repeat break; by split; auto.
Qed.

Lemma quiet_processConfigurationLogEntries entries :
  frames quiet (@processConfigurationLogEntries L K SN _ _ entries).
Proof.
  intros r. pose proof (processConfigurationLogEntries_keeps entries r) as Hk.
  assert (forall r', unconfigured r' = unconfigured r -> quiet r r') as Hq.
  { intros r' E. split; [exact (f_equal identity E)|exact (f_equal stable E)
    |exact (f_equal (fun r => currentTerm (raft_state r)) E)
    |left; exact (f_equal (fun r => state (raft_state r)) E)]. }
  destruct (processConfigurationLogEntries entries r); by apply Hq.
Qed.

#[local] Hint Resolve quiet_truncate_suffix quiet_processConfigurationLogEntries : quiet.

Lemma quiet_append_newEntries entries :
  frames quiet (@append_newEntries L K SN _ _ _ entries).
Proof.
  intros r. unfold append_newEntries. destruct (last entries) as [x|]; [|reflexivity].
  destruct (StoreLogs _ _) as [l0 [e|]]; [by split; auto|].
  match goal with |- context [bind ?m ?f ?s] =>
    assert (frames quiet (bind m f)) as Hq by (unfold setLastLog; calm);
    specialize (Hq s); destruct (bind m f s) end;
    (etrans; [|exact Hq]; by split; auto).
Qed.

Lemma quiet_advance_commit c : frames quiet (@advance_commit L K SN _ c).
Proof. unfold advance_commit, setCommitIndex, setCommittedConfiguration. calm. Qed.

#[local] Hint Resolve quiet_append_newEntries quiet_advance_commit : quiet.

Lemma quiet_process_entries entries : frames quiet (@process_entries L K SN _ _ _ entries).
Proof. unfold process_entries. calm. Qed.
End Quiet.

#[export] Hint Resolve quiet_on_raft lquiet_modify_leader lquiet_get_raft lquiet_get_leader
  quiet_observe quiet_respond quiet_respond_all quiet_setLeader quiet_on_snapshots
  quiet_processLogs quiet_setLatestConfiguration lquiet_startStopReplication
  lquiet_dispatchLogs lquiet_leader_configurationChange quiet_Shutdown lquiet_leader_commit
  lquiet_leader_verify lquiet_leader_lease lquiet_leader_transfer lquiet_leader_apply
  quiet_removeOldLogs quiet_compactLogs lquiet_restoreUserSnapshot quiet_takeSnapshot
  quiet_receive_snapshot quiet_adopt_snapshot quiet_advance_commit quiet_process_entries
  : quiet.
#[export] Hint Extern 1 (frames _ (setState _)) => apply quiet_setState; by auto : quiet.
#[export] Hint Extern 1 (frames _ (modify _)) =>
  apply quiet_modify; intros; by split; auto : quiet.

(** ** Steps that keep the votes *)

Section Advance.
Context {L K SN : Type} `{LogStore L} `{StableStore K} `{!StableStoreLaws K}
  `{SnapshotStore SN} `{MsgPack} `{PeerCodec}.
Abbreviation raft := (Raft L K SN).
Implicit Types r : raft.

(** A completed step keeps the votes given so far on disk, does not lower the term,
    and makes nobody a leader or, in a new term, a candidate. *)
Record advances r r' : Prop := {
  adv_identity : identity r' = identity r;
  adv_term : (currentTerm (raft_state r) <= currentTerm (raft_state r'))%N;
  adv_cached : term_cached r';
  adv_votes g : votes_recorded (stable r) g -> votes_recorded (stable r') g;
  adv_leader : state (raft_state r') = Leader ->
    state (raft_state r) = Leader /\ currentTerm (raft_state r') = currentTerm (raft_state r);
  adv_candidate : state (raft_state r') = Candidate ->
    currentTerm (raft_state r') = currentTerm (raft_state r)
}.

(** A step that panics keeps the votes on disk. *)
Definition crashes r r' : Prop :=
  forall g, votes_recorded (stable r) g -> votes_recorded (stable r') g.

Definition safe_at {A} r (m : M raft A) : Prop :=
  match m r with Done _ r' => advances r r' | Panicked r' => crashes r r' end.

Lemma quiet_advances r r' : term_cached r -> quiet r r' -> advances r r'.
Proof.
  unfold term_cached. intros Hc [I1 I2 I3 I4]. split; try done.
  - by rewrite I3.
  - unfold term_cached. by rewrite I2, I3.
  - by rewrite I2.
  - intros Hl. destruct I4 as [He|[He|He]]; [|congruence..]. split; congruence.
Qed.

Lemma advances_quiet r r1 r' : advances r r1 -> quiet r1 r' -> advances r r'.
Proof.
  unfold term_cached. intros [I1 I2 I3 I4 I5 I6] [J1 J2 J3 J4]. split.
  - congruence.
  - by rewrite J3.
  - unfold term_cached in *. by rewrite J2, J3.
  - intros g Hg. rewrite J2. auto.
  - intros Hl. destruct J4 as [He|[He|He]]; [|congruence..]. rewrite J3. apply I5. congruence.
  - intros Hl. destruct J4 as [He|[He|He]]; [|congruence..]. rewrite J3. apply I6. congruence.
Qed.

Lemma safe_quiet {A} (m : M raft A) r : term_cached r -> frames quiet m -> safe_at r m.
Proof.
  intros Hc Hm. unfold safe_at. specialize (Hm r). destruct (m r).
  - by apply quiet_advances.
  - intros g. by rewrite (quiet_stable _ _ Hm).
Qed.

Lemma safe_bind {A B} (m : M raft A) (f : A -> M raft B) r :
  safe_at r m -> (forall a, frames quiet (f a)) -> safe_at r (bind m f).
Proof.
  unfold safe_at, bind. intros Hm Hf. destruct (m r) as [a r1|r1]; [|done].
  specialize (Hf a r1). destruct (f a r1).
  - by eapply advances_quiet.
  - intros g Hg. rewrite (quiet_stable _ _ Hf). by apply (adv_votes _ _ Hm).
Qed.

(** Entering a term as a follower. *)
Lemma safe_raise t r :
  term_cached r -> (currentTerm (raft_state r) <= t)%N ->
  safe_at r (setState Follower;; setCurrentTerm t)%go.
Proof.
  intros Hc Ht. unfold safe_at, bind. rewrite setState_eq. unfold setCurrentTerm. simpl.
  unfold term_cached in Hc. destruct (SetUint64 _ _ _) as [k [e|]] eqn:HS.
  - intros g Hg. simpl. eapply votes_recorded_term; [exact HS|lia|exact Hg].
  - split; try done.
    + unfold term_cached, disk_term. simpl. by rewrite (GetUint64_SetUint64 _ _ _ _ HS).
    + intros g Hg. eapply votes_recorded_term; [exact HS|lia|exact Hg].
Qed.

Lemma caught_up_identity t r r1 : caught_up t r r1 -> identity r1 = identity r.
Proof. intros Hc. destruct (cu_self _ _ _ Hc) as (H1' & H2' & H3'). unfold identity. congruence. Qed.

Lemma vote_outcome_frame now req r b r' :
  vote_outcome now req r b r' ->
  identity r' = identity r /\
  (state (raft_state r') = Follower \/
   state (raft_state r') = state (raft_state r) /\
   currentTerm (raft_state r') = currentTerm (raft_state r)).
Proof.
  assert (forall t r1, caught_up t r r1 ->
    identity r1 = identity r /\
    (state (raft_state r1) = Follower \/
     state (raft_state r1) = state (raft_state r) /\
     currentTerm (raft_state r1) = currentTerm (raft_state r))) as Hcu.
  { intros t r1 Hc. split; [by eapply caught_up_identity|].
    destruct (cu_disk _ _ _ Hc) as [(_ & _ & ?)|(Ht & _ & Hs)]; [by left|right].
    split; [done|]. by rewrite (cu_term _ _ _ Hc). }
  intros HO. destruct HO as [o|r1 Hc|r1 Hc|r1 err r2 Hc _ _ _ HP]; [auto|by eauto..|].
  assert (exists k, r2 = with_stable k r1) as [k ->].
  { revert HP. unfold persistVote. repeat case_match; intros [= _ <-]; eauto. }
  specialize (Hcu _ _ Hc). by destruct (decide (err = None)).
Qed.

Lemma safe_requestVote now req r :
  term_cached r -> votes_recorded (stable r) ∅ -> safe_at r (requestVote now req).
Proof.
  intros Hc H0'. unfold safe_at. destruct (requestVote now req r) as [[resp err] r'|r'] eqn:HE.
  - apply requestVote_outcome in HE as [_ HO].
    destruct (vote_outcome_frame _ _ _ _ _ HO) as [Hid Hst].
    destruct (vote_outcome_recorded _ _ _ _ _ _ Hc H0' HO) as (Hc' & Ht & _).
    split; [done|done|done| |..].
    + intros g Hg. destruct (vote_outcome_recorded _ _ _ _ _ _ Hc Hg HO) as (_ & _ & Hg' & _).
      destruct (rvr_Granted resp); [|done].
      eapply votes_recorded_mono; [|exact Hg']. apply union_subseteq_r.
    + intros Hl. destruct Hst as [Hf|[Hs Hct]]; [congruence|]. split; congruence.
    + intros Hl. destruct Hst as [Hf|[Hs Hct]]; [congruence|done].
  - intros g Hg. by eapply requestVote_Panicked.
Qed.

Lemma safe_get {A} (f : raft -> M raft A) r :
  safe_at r (f r) -> safe_at r (bind get_state f).
Proof. done. Qed.

(** What the handlers of requests from a leader start with. *)
Lemma safe_catch_up {A} t r (m : M raft N) (k : N -> M raft A) :
  term_cached r -> (currentTerm (raft_state r) <= t)%N -> (forall t, frames quiet (k t)) ->
  m = (setState Follower;; setCurrentTerm t;; returns t)%go \/
  m = returns (currentTerm (raft_state r)) ->
  safe_at r (bind m k).
Proof.
  intros Hc Ht Hk Hm. apply safe_bind; [|done]. destruct Hm as [-> | ->].
  - pose proof (safe_raise t r Hc Ht) as Hs. unfold safe_at, bind in *.
    destruct (setState Follower r) as [u r1|r1]; [|done].
    by destruct (setCurrentTerm t r1).
  - apply safe_quiet; [done|]. apply frames_returns. apply _.
Qed.

Lemma safe_appendEntries now a r : term_cached r -> safe_at r (appendEntries now a).
Proof.
  intros Hc. apply safe_get. cbv zeta.
  destruct (decide (ae_Term a < currentTerm (raft_state r))%N) as [Hlt|Hge].
  { apply safe_quiet; [done|]. calm. }
  apply safe_catch_up with (ae_Term a); [done|lia| |case_decide; auto].
  intros t. unfold setLastContact. calm.
Qed.

Lemma safe_installSnapshot now msec data rerr answer req r :
  term_cached r -> safe_at r (installSnapshot now msec data rerr answer req).
Proof.
  intros Hc. apply safe_get. cbv zeta.
  case_decide; [apply safe_quiet; [done|calm]|].
  destruct (decide (is_Term req < currentTerm (raft_state r))%N) as [Hlt|Hge].
  { apply safe_quiet; [done|]. calm. }
  apply safe_catch_up with (is_Term req); [done|lia| |case_decide; auto].
  intros t. unfold setLastContact. calm.
Qed.

Lemma safe_requestPreVote req r : term_cached r -> safe_at r (requestPreVote req).
Proof. intros Hc. apply safe_quiet; [done|]. unfold requestPreVote. calm. Qed.

Lemma safe_timeoutNow req r : term_cached r -> safe_at r (timeoutNow req).
Proof.
  intros Hc. unfold safe_at, timeoutNow, bind. rewrite setLeader_eq, setState_eq.
  by split.
Qed.

Lemma safe_heartbeatTimeout now r : term_cached r -> safe_at r (follower_heartbeatTimeout now).
Proof.
  intros Hc. unfold safe_at, follower_heartbeatTimeout, bind, get_state, returns.
  case_decide; [by apply quiet_advances|]. rewrite setLeader_eq.
  case_decide; [apply quiet_advances; [done|by split; auto]|].
  case_decide; [apply quiet_advances; [done|by split; auto]|].
  destruct (hasVote _ _); [|apply quiet_advances; [done|by split; auto]].
  rewrite setState_eq. by split.
Qed.

Lemma safe_processRPC env c r :
  term_cached r -> votes_recorded (stable r) ∅ -> safe_at r (processRPC env c).
Proof.
  intros Hc Hv. apply safe_get. destruct (checkRPCHeader _ _).
  { apply safe_quiet; [done|calm]. }
  destruct c; (apply safe_bind; [|intros; apply frames_returns; apply _]) ||
    (apply safe_quiet; [done|calm]).
  - by apply safe_appendEntries.
  - by apply safe_requestVote.
  - by apply safe_requestPreVote.
  - by apply safe_installSnapshot.
  - by apply safe_timeoutNow.
Qed.

Lemma safe_processHeartbeat now c r : term_cached r -> safe_at r (processHeartbeat now c).
Proof.
  intros Hc. apply safe_get. destruct (shutdown r); [apply safe_quiet; [done|calm]|].
  destruct c; try solve [apply safe_quiet; [done|calm]].
  apply safe_bind; [by apply safe_appendEntries|]. intros. apply frames_returns. apply _.
Qed.

(** ** Steps of the main thread *)

Lemma safe_map {A B} (m : M raft A) (f : A -> B) r :
  safe_at r m -> safe_at r (a <- m;; returns (f a))%go.
Proof. intros Hm. apply safe_bind; [done|]. intros. apply frames_returns. apply _. Qed.

Lemma map_Done {A B} (m : M raft A) (f : A -> B) r b r' :
  (a <- m;; returns (f a))%go r = Done b r' -> exists a, m r = Done a r' /\ b = f a.
Proof. intros (a & r1 & Hm & HE)%bind_Done. injection HE as <- <-. eauto. Qed.

Definition no_campaign (out : output) : Prop :=
  match out with out_campaign _ => False | _ => True end.

(** What a step other than a campaign's does to a server and its loop. *)
Record ordinary r (ro : role) (out : output) r' (ro' : role) : Prop := {
  ord_advances : advances r r';
  ord_out : no_campaign out;
  ord_candidate c : ro' = in_candidate c ->
    ro = in_candidate c /\ state (raft_state r') = Candidate
}.

Lemma follower_case_safe env ev m r :
  term_cached r -> votes_recorded (stable r) ∅ -> (forall f c, ev <> ev_bootstrap f c) ->
  follower_case env ev = Some m ->
  safe_at r m /\ forall x r1, m r = Done x r1 -> no_campaign x.2.
Proof.
  intros Hc Hv Hb Hm. destruct ev; simplify_eq/=; try solve [
      split; [apply safe_quiet; [done|calm]
             |intros x r1 (? & ? & _ & HD)%bind_Done; by injection HD as <- _]].
  - split.
    + apply safe_map, safe_map. by apply safe_processRPC.
    + by intros x r1 (o & (? & _ & ->)%map_Done & ->)%map_Done.
  - exfalso. by eapply Hb.
  - split.
    + apply safe_map. by apply safe_heartbeatTimeout.
    + by intros x r1 (? & _ & ->)%map_Done.
Qed.

Lemma follower_ordinary env ev r ro' out r' :
  term_cached r -> votes_recorded (stable r) ∅ -> (forall f c, ev <> ev_bootstrap f c) ->
  main_step env ev in_follower r = Some (Done (ro', out) r') ->
  ordinary r in_follower out r' ro'.
Proof.
  intros Hc Hv Hb. cbn [main_step].
  destruct (follower_case env ev) as [m|] eqn:Hm; [|done]. intros [= HE].
  destruct (follower_case_safe _ _ _ r Hc Hv Hb Hm) as [Hs Ho].
  apply bind_Done in HE as ([b o] & r1 & HD & HE). specialize (Ho _ _ HD).
  unfold safe_at in Hs. rewrite HD in Hs.
  apply map_Done in HE as (ro & HL & HE). injection HE as -> ->.
  injection HL as <- <-. split; [done|done|]. intros c. case_decide; done.
Qed.

Lemma leave_candidate_Done c r ro r' :
  leave_candidate c r = Done ro r' ->
  quiet r r' /\ (forall c', ro = in_candidate c' ->
                 c = Some c' /\ state (raft_state r') = Candidate).
Proof.
  unfold leave_candidate, bind, get_state, runCandidate_return, modify, returns.
  destruct c as [c|]; [case_decide|]; intros [= <- <-];
    (split; [by split; auto|naive_solver]).
Qed.

Lemma candidate_case_safe env c ev m r :
  term_cached r -> votes_recorded (stable r) ∅ ->
  (forall v, ev <> ev_vote v) -> (forall v, ev <> ev_preVote v) ->
  candidate_case env c ev = Some m ->
  safe_at r m /\
  forall x r1, m r = Done x r1 -> no_campaign x.2 /\ (x.1 = Some c \/ x.1 = None).
Proof.
  intros Hc Hv Hn1 Hn2 Hm. destruct ev; simplify_eq/=; try solve [
      split; [apply safe_quiet; [done|calm]
             |first [intros x r1 (? & ? & _ & HD)%bind_Done; injection HD as <- _
                    |intros x r1 HD; injection HD as <- _]; simpl; by auto]].
  - split.
    + apply safe_map, safe_map. by apply safe_processRPC.
    + intros x r1 (o & (? & _ & ->)%map_Done & ->)%map_Done. simpl. by auto.
  - exfalso. by eapply Hn2.
  - exfalso. by eapply Hn1.
Qed.

Lemma candidate_ordinary env c ev r ro' out r' :
  term_cached r -> votes_recorded (stable r) ∅ ->
  (forall v, ev <> ev_vote v) -> (forall v, ev <> ev_preVote v) ->
  main_step env ev (in_candidate c) r = Some (Done (ro', out) r') ->
  ordinary r (in_candidate c) out r' ro'.
Proof.
  intros Hc Hv Hn1 Hn2. cbn [main_step].
  destruct (candidate_case env c ev) as [m|] eqn:Hm; [|done]. intros [= HE].
  destruct (candidate_case_safe _ _ _ _ r Hc Hv Hn1 Hn2 Hm) as [Hs Ho].
  apply bind_Done in HE as ([b o] & r1 & HD & HE). destruct (Ho _ _ HD) as [Ho1 Ho2].
  unfold safe_at in Hs. rewrite HD in Hs.
  apply map_Done in HE as (ro & HL & HE). injection HE as -> ->.
  apply leave_candidate_Done in HL as [Hq Hl]. split; [by eapply advances_quiet|done|].
  intros c' ->. destruct (Hl c' eq_refl) as [Hb Hst]. split; [|done].
  destruct Ho2; simpl in *; congruence.
Qed.

Lemma leave_leader_Done now sd vs lr ro r' :
  leave_leader now sd vs lr = Done ro r' ->
  quiet (lr_raft lr) r' /\ forall c, ro <> in_candidate c.
Proof.
  unfold leave_leader. case_decide; [by intros [= <- <-]|].
  destruct (runLeader_return now vs lr) as [u r1|r1] eqn:HE; [|done]. intros [= <- <-].
  split; [|done]. unfold runLeader_return in HE.
  match type of HE with ?m _ = _ => assert (frames quiet m) as Hq by (unfold setLastContact; calm) end.
  exact (frames_Done _ _ _ _ _ Hq HE).
Qed.
Definition lsafe_at {A} (lr : LeaderRaft L K SN) (m : M (LeaderRaft L K SN) A) : Prop :=
  match m lr with
  | Done _ lr' => advances (lr_raft lr) (lr_raft lr')
  | Panicked lr' => crashes (lr_raft lr) (lr_raft lr')
  end.

Lemma lsafe_quiet {A} (m : M (LeaderRaft L K SN) A) lr :
  term_cached (lr_raft lr) -> frames lquiet m -> lsafe_at lr m.
Proof.
  intros Hc Hm. unfold lsafe_at. specialize (Hm lr). destruct (m lr).
  - by apply quiet_advances.
  - intros g. by rewrite (quiet_stable _ _ Hm).
Qed.

Lemma on_raft_Done {A} (m : M raft A) lr a lr' :
  on_raft m lr = Done a lr' -> m (lr_raft lr) = Done a (lr_raft lr').
Proof. unfold on_raft. destruct (m _); [|done]. by intros [= <- <-]. Qed.

Lemma answer_rpc_out env c r out r' : answer_rpc env c r = Done out r' -> no_campaign out.
Proof. by intros (res & _ & ->)%map_Done. Qed.

Lemma leader_case_out env sd lr ev m x lr' :
  leader_case env sd lr ev = Some m -> m lr = Done x lr' -> no_campaign x.2.
Proof.
  intros Hm HD.
  destruct ev; simplify_eq/=; try case_match; simplify_eq/=;
    apply bind_Done in HD as (a & lr1 & HD' & HD); try (by injection HD as <- _).
  - injection HD as <- _. apply on_raft_Done in HD'. by eapply answer_rpc_out.
  - apply bind_Done in HD as (? & ? & _ & HD). by injection HD as <- _.
Qed.

Lemma leader_case_quiet env sd lr ev m :
  leader_case env sd lr ev = Some m -> frames lquiet m \/ exists c, ev = ev_rpc c.
Proof.
  intros Hm. destruct ev; simplify_eq/=; try case_match; simplify_eq/=;
    unfold unless_transferring; try (right; by eexists); left; calm.
Qed.

Lemma leader_case_safe env sd lr ev m :
  term_cached (lr_raft lr) -> votes_recorded (stable (lr_raft lr)) ∅ ->
  leader_case env sd lr ev = Some m -> lsafe_at lr m.
Proof.
  intros Hc Hv Hm. destruct (leader_case_quiet _ _ _ _ _ Hm) as [Hq|[c ->]].
  - by apply lsafe_quiet.
  - injection Hm as <-. pose proof (safe_processRPC env c _ Hc Hv) as Hs.
    unfold lsafe_at, bind, on_raft, answer_rpc, safe_at, bind in *.
    by destruct (processRPC env c (lr_raft lr)).
Qed.

Lemma leader_ordinary env l sd vs ev r ro' out r' :
  term_cached r -> votes_recorded (stable r) ∅ ->
  main_step env ev (in_leader l sd vs) r = Some (Done (ro', out) r') ->
  ordinary r (in_leader l sd vs) out r' ro'.
Proof.
  intros Hc Hv. cbn [main_step].
  destruct (leader_case env sd _ ev) as [m|] eqn:Hm; [|done].
  pose proof (leader_case_safe _ _ (mkLeaderRaft r l) _ _ Hc Hv Hm) as Hs. unfold lsafe_at in Hs.
  destruct (m (mkLeaderRaft r l)) as [[sd' o] lr'|] eqn:HD; [|done].
  pose proof (leader_case_out _ _ _ _ _ _ _ Hm HD) as Ho.
  destruct (leave_leader _ _ _ lr') as [ro r1|] eqn:HL; [|done]. intros [= <- <- <-].
  apply leave_leader_Done in HL as [Hq Hl]. split; [by eapply advances_quiet|done|].
  intros c ->. by destruct (Hl c).
Qed.

(** Entering a loop without a campaign. *)
Lemma run_ordinary env r ro' out r' :
  term_cached r -> state (raft_state r) <> Candidate \/ shutdown r = true ->
  enter_loop env r = Done (ro', out) r' -> ordinary r in_run out r' ro'.
Proof.
  intros Hc Hst. unfold enter_loop. destruct (shutdown r) eqn:Hsh.
  { unfold bind. rewrite setLeader_eq. intros [= <- <- <-].
    split; [apply quiet_advances; [done|by split; auto]|done|done]. }
  destruct Hst as [Hst|?]; [|done].
  destruct (state (raft_state r)) eqn:Hs; [|done| |];
    [intros [= <- <- <-]; split; [by apply quiet_advances|done|done]| |
     intros [= <- <- <-]; split; [by apply quiet_advances|done|done]].
  unfold runLeader_start.
  match goal with |- context [match ?m ?s with _ => _ end] =>
    assert (frames lquiet m) as Hq by calm; specialize (Hq s); destruct (m s) as [u lr|] end;
    [|done].
  destruct (leave_leader _ _ _ lr) as [ro r1|] eqn:HL; [|done]. intros [= <- <- <-].
  apply leave_leader_Done in HL as [Hq' Hl]. split; [|done|by intros c ->; destruct (Hl c)].
  apply quiet_advances; [done|]. etrans; [exact Hq|exact Hq'].
Qed.
End Advance.

(** ** Restarting *)

Section Restart.
Context {L K SN F : Type} `{LogStore L} `{StableStore K} `{!StableStoreLaws K}
  `{SnapshotStore SN} `{!FSM F SN} `{MsgPack} `{PeerCodec}.
Abbreviation raft := (Raft L K SN).
Implicit Types r : raft.

(** [quiet] while the state machine belongs to the caller. *)
Definition fquiet (s s' : raft * F) : Prop := quiet s.1 s'.1.

#[export] Instance fquiet_preorder : PreOrder fquiet.
Proof.
  split; unfold fquiet; [intros s; reflexivity|]. intros s1 s2 s3 Hq1 Hq2. by etrans.
Qed.

Lemma fquiet_with_fsm {A} (m : M raft A) : frames quiet m -> frames fquiet (with_fsm (F := F) m).
Proof. intros Hm s. unfold with_fsm. specialize (Hm s.1). by destruct (m _). Qed.

Lemma quiet_processConfigurationLogEntry e :
  frames quiet (@processConfigurationLogEntry L K SN _ _ e).
Proof.
  unfold processConfigurationLogEntry, setCommittedConfiguration. calm.
Qed.

#[local] Hint Resolve fquiet_with_fsm quiet_processConfigurationLogEntry : quiet.

Lemma quiet_scan_configurations fuel index :
  frames quiet (@scan_configurations L K SN _ _ _ fuel index).
Proof. revert index. induction fuel as [|fuel IH]; intros index; cbn [scan_configurations]; calm. Qed.

Lemma fquiet_tryRestore meta : frames fquiet (tryRestoreSingleSnapshot (L := L) (K := K) (F := F) meta).
Proof.
  intros [r f]. unfold tryRestoreSingleSnapshot. repeat break; unfold fquiet; simpl; reflexivity.
Qed.

#[local] Hint Resolve quiet_scan_configurations fquiet_tryRestore : quiet.

Lemma fquiet_restore_loop metas : frames fquiet (restore_loop (L := L) (K := K) (F := F) metas).
Proof.
  induction metas as [|m metas IH]; cbn [restore_loop];
    unfold setLastApplied, setLastSnapshot, setCommittedConfiguration; calm.
Qed.

#[local] Hint Resolve fquiet_restore_loop : quiet.

Lemma fquiet_restoreSnapshot : frames fquiet (restoreSnapshot (L := L) (K := K) (F := F)).
Proof. unfold restoreSnapshot. calm. Qed.

#[local] Hint Resolve fquiet_restoreSnapshot : quiet.

(** A server started on the stores of another has its votes and its term, and is a
    follower. *)
Lemma NewRaft_sound cf addr pv (s : Stores L K SN) (f f' : F) r' :
  NewRaft cf addr pv s f = Done None (r', f') ->
  identity r' = (LocalID cf, addr, LocalID cf) /\ term_cached r' /\
  (state (raft_state r') = Follower \/ state (raft_state r') = Shutdown) /\
  forall g, votes_recorded (st_stable s) g -> votes_recorded (stable r') g.
Proof.
  unfold NewRaft. destruct (ValidateConfig cf); [done|].
  destruct (GetUint64 (st_stable s) keyCurrentTerm) as [t err] eqn:Ht.
  destruct (if read_failed err then err else None); [done|].
  destruct (LastIndex _) as [li|]; [|done].
  destruct (if decide (0 < li)%N then _ else _) as [ll|]; [|done]. case_decide; [done|].
  unfold start_raft, bind at 1, with_fsm at 1. cbn [fst snd]. rewrite setState_eq.
  unfold bind at 1, with_fsm at 1. cbn [fst snd]. unfold setCurrentTerm. cbn [stable].
  match goal with |- context [SetUint64 ?k _ _] => change k with (st_stable s) end.
  destruct (SetUint64 (st_stable s) keyCurrentTerm t) as [k [e|]] eqn:HS; [done|].
  match goal with |- ?m (?r0, f) = _ -> _ =>
    assert (frames fquiet m) as Hq by (unfold setLastLog; calm); set (r1 := r0) end.
  intros HE. pose proof (frames_Done _ _ _ _ _ Hq HE) as [Q1 Q2 Q3 Q4]. cbn [fst] in *.
  assert (disk_term k = t) as Hk.
  { unfold disk_term. by rewrite (GetUint64_SetUint64 _ _ _ _ HS). }
  split_and!.
  - rewrite Q1. done.
  - unfold term_cached. rewrite Q2, Q3. symmetry. exact Hk.
  - destruct Q4 as [->|?]; auto.
  - intros g Hg. rewrite Q2. eapply votes_recorded_term; [exact HS| |exact Hg].
    unfold disk_term. by rewrite Ht.
Qed.
End Restart.

(** ** Panics *)

Section Panics.
Context {L K SN : Type} `{LogStore L} `{StableStore K} `{!StableStoreLaws K}
  `{SnapshotStore SN} `{MsgPack} `{PeerCodec}.
Abbreviation raft := (Raft L K SN).
Implicit Types r : raft.

Lemma electSelf_loop_total req servers asked ch r :
  exists e r', electSelf_loop req servers asked ch r = Done e r'.
Proof.
  revert asked ch r. induction servers as [|s servers IH]; intros asked ch r; simpl; [eauto|].
  repeat case_decide; [|by apply IH..]. unfold bind.
  assert (exists err r1, persistVote (rv_Term req) (hdr_Addr (rv_Header req)) r = Done err r1)
    as (err & r1 & ->).
  { unfold persistVote. repeat case_match; eauto. }
  destruct err; [eauto|by apply IH].
Qed.

Lemma electSelf_crashes r r' :
  (currentTerm (raft_state r) + 1 < u64_size)%N -> term_cached r ->
  electSelf r = Panicked r' -> crashes r r'.
Proof.
  intros Hlt Hc. unfold electSelf, bind at 1, get_state. unfold bind at 1, setCurrentTerm.
  destruct (SetUint64 _ _ _) as [k [e|]] eqn:HS.
  - intros [= <-] g Hg. simpl. eapply votes_recorded_term; [exact HS| |exact Hg].
    rewrite u64_add_small by done. unfold term_cached in Hc. lia.
  - unfold bind. destruct (getLastEntry _). 
    match goal with |- electSelf_loop ?a ?b ?c ?d ?e = _ -> _ =>
      destruct (electSelf_loop_total a b c d e) as (? & ? & ->) end. done.
Qed.

Lemma raise_crashes {A} t r r' (k : M raft A) :
  term_cached r -> (currentTerm (raft_state r) <= t)%N -> frames quiet k ->
  (setState Follower;; setCurrentTerm t;; k)%go r = Panicked r' -> crashes r r'.
Proof.
  intros Hc Ht Hk HE. pose proof (safe_raise t r Hc Ht) as Hs.
  pose proof (safe_bind _ (fun _ => k) _ Hs (fun _ => Hk)) as Hb. unfold safe_at in Hb.
  unfold bind in *. destruct (setState Follower r) as [u r1|r1]; [|by injection HE as <-].
  destruct (setCurrentTerm t r1); [|by injection HE as <-]. by rewrite HE in Hb.
Qed.

Lemma candidate_preVote_crashes c v r r' :
  (currentTerm (raft_state r) + 1 < u64_size)%N -> term_cached r ->
  (currentTerm (raft_state r) <= cl_term c)%N ->
  candidate_preVote c v r = Panicked r' -> crashes r r'.
Proof.
  intros Hlt Hc Hle. unfold candidate_preVote. cbv zeta.
  destruct (decide (cl_term c < pvr_Term (pr_response v))%N) as [Hgt|_].
  { apply raise_crashes; [done|lia|]. calm. }
  match goal with |- context [if decide ?P then _ else _] => destruct (decide P) end; [|done].
  unfold bind. destruct (electSelf r) eqn:HE; [done|]. intros [= <-]. by eapply electSelf_crashes.
Qed.

Lemma candidate_vote_crashes c v r r' :
  term_cached r -> candidate_vote c v r = Panicked r' -> crashes r r'.
Proof.
  intros Hc. unfold candidate_vote, bind at 1, get_state. cbv zeta.
  match goal with |- context [if decide ?P then _ else _] => destruct (decide P) as [Hgt|_] end.
  { apply raise_crashes; [done|lia|]. calm. }
  match goal with |- context [if decide ?P then _ else _] => destruct (decide P) end; [|done].
  unfold bind. by rewrite setState_eq, setLeader_eq.
Qed.

Lemma bind_Panicked {A B} (m : M raft A) (f : A -> M raft B) r r' :
  bind m f r = Panicked r' ->
  m r = Panicked r' \/ exists a r1, m r = Done a r1 /\ f a r1 = Panicked r'.
Proof. unfold bind. destruct (m r); [eauto|]. intros [= <-]. by left. Qed.

Lemma leave_leader_crashes now sd vs (lr : LeaderRaft L K SN) r r' :
  quiet r (lr_raft lr) \/ advances r (lr_raft lr) ->
  leave_leader now sd vs lr = Panicked r' -> crashes r r'.
Proof.
  unfold leave_leader. intros Hr. case_decide; [done|].
  destruct (runLeader_return now vs lr) as [u r1|r1] eqn:HE; [done|]. intros [= <-].
  unfold runLeader_return in HE.
  match type of HE with ?m _ = _ =>
    assert (frames quiet m) as Hq by (unfold setLastContact; calm) end.
  pose proof (frames_Panicked _ _ _ _ Hq HE) as Hq'. intros g Hg.
  rewrite (quiet_stable _ _ Hq'). destruct Hr as [Hr|Hr].
  - by rewrite (quiet_stable _ _ Hr).
  - by apply (adv_votes _ _ Hr).
Qed.

Lemma enter_loop_crashes env r r' :
  (currentTerm (raft_state r) + 1 < u64_size)%N -> term_cached r ->
  enter_loop env r = Panicked r' -> crashes r r'.
Proof.
  intros Hlt Hc. unfold enter_loop. destruct (shutdown r).
  { unfold bind. by rewrite setLeader_eq. }
  destruct (state (raft_state r)); [done| | |done].
  - intros [HE|(a & r1 & _ & HE)]%bind_Panicked.
    + unfold runCandidate_start, bind at 1, get_state in HE. cbv zeta in HE.
      destruct (_ && _); [done|].
      apply bind_Panicked in HE as [HE|(e & r1 & _ & HE)]; [by eapply electSelf_crashes|done].
    + apply bind_Panicked in HE as [HE|(x & r2 & _ & HE)]; [|done].
      revert HE. unfold leave_candidate, bind, get_state. by case_decide.
  - unfold runLeader_start.
    match goal with |- context [match ?m ?s with _ => _ end] =>
      assert (frames lquiet m) as Hq by calm; specialize (Hq s); destruct (m s) as [u lr|lr] end.
    + destruct (leave_leader _ _ _ lr) as [|r1] eqn:HL; [done|]. intros [= <-].
      eapply leave_leader_crashes; [left; exact Hq|exact HL].
    + intros [= <-] g. by rewrite (quiet_stable _ _ Hq).
Qed.

Lemma candidate_crashes env c ev r r' :
  (currentTerm (raft_state r) + 1 < u64_size)%N -> term_cached r ->
  votes_recorded (stable r) ∅ ->
  (cl_prevoteCh c = true -> (currentTerm (raft_state r) <= cl_term c)%N) ->
  main_step env ev (in_candidate c) r = Some (Panicked r') -> crashes r r'.
Proof.
  intros Hlt Hc Hv Hpre. cbn [main_step].
  destruct (candidate_case env c ev) as [m|] eqn:Hm; [|done]. intros [= HE].
  assert (safe_at r m \/ (exists v, ev = ev_vote v) \/ exists v, ev = ev_preVote v) as Hs.
  { destruct ev; try (left; eapply candidate_case_safe; [done|done| | |exact Hm]; done); eauto. }
  apply bind_Panicked in HE as [HE|(a & r1 & HD & HE)].
  2:{ apply bind_Panicked in HE as [HE|(x & r2 & _ & HE)]; [|done].
      revert HE. unfold leave_candidate, bind, get_state. destruct a.1; [by case_decide|done]. }
  destruct Hs as [Hs|[[v ->]|[v ->]]].
  - unfold safe_at in Hs. by rewrite HE in Hs.
  - cbn [candidate_case] in Hm. destruct (cl_voteCh c); [|done]. injection Hm as <-.
    apply bind_Panicked in HE as [HE|(x & r1 & _ & HE)]; [by eapply candidate_vote_crashes|done].
  - cbn [candidate_case] in Hm. destruct (cl_prevoteCh c); [|done]. injection Hm as <-.
    apply bind_Panicked in HE as [HE|(x & r1 & _ & HE)]; [|done].
    eapply candidate_preVote_crashes; [done|done|by apply Hpre|exact HE].
Qed.

(** A panic of the main thread keeps the votes, whatever it was doing. *)
Lemma main_step_crashes env ev ro r r' :
  (currentTerm (raft_state r) + 1 < u64_size)%N -> term_cached r ->
  votes_recorded (stable r) ∅ -> (forall f c, ev <> ev_bootstrap f c) ->
  (forall c, ro = in_candidate c -> cl_prevoteCh c = true ->
     (currentTerm (raft_state r) <= cl_term c)%N) ->
  main_step env ev ro r = Some (Panicked r') -> crashes r r'.
Proof.
  intros Hlt Hc Hv Hb Hpre. destruct ro as [| |c|l sd vs]; cbn [main_step].
  - destruct ev; try done; intros [= HE]; [by eapply enter_loop_crashes|].
    apply bind_Panicked in HE as [HE|(x & r1 & _ & HE)]; [|done].
    pose proof (frames_Panicked _ _ _ _ quiet_Shutdown HE) as Hq.
    intros g. by rewrite (quiet_stable _ _ Hq).
  - destruct (follower_case env ev) as [m|] eqn:Hm; [|done]. intros [= HE].
    destruct (follower_case_safe _ _ _ r Hc Hv Hb Hm) as [Hs _]. unfold safe_at in Hs.
    apply bind_Panicked in HE as [HE|(a & r1 & HD & HE)]; [by rewrite HE in Hs|done].
  - by apply candidate_crashes; auto.
  - destruct (leader_case env sd _ ev) as [m|] eqn:Hm; [|done].
    pose proof (leader_case_safe _ _ (mkLeaderRaft r l) _ _ Hc Hv Hm) as Hs.
    unfold lsafe_at in Hs.
    destruct (m (mkLeaderRaft r l)) as [[sd' o] lr'|lr']; [|by intros [= <-]].
    destruct (leave_leader _ _ _ lr') as [|r1] eqn:HL; [done|]. intros [= <-].
    eapply leave_leader_crashes; [right; exact Hs|exact HL].
Qed.
End Panics.
