(* ===== verification/Protocol.v ===== *)
(** * The protocol of a cluster: elections, replication and commitment on lists

    An abstract specification of what the servers of a cluster do together.  A log
    is a list, a step changes one thing, and the state remembers what a proof needs
    of the past: every vote, every campaign, the log of the leader of each term,
    what every server has stored for a leader, and every request.  The rules are
    those of the source where they differ from the literature: a follower moves its
    commit index up to the last index of its whole log, [raft.go], and what makes
    that safe is where the leader's requests start, the indexes [p_hints].

    [inv] is inductive, and [chosen_agree] is what it is for: two prefixes that were
    ever committed agree.  [Agreement] shows that the servers of [Cluster] follow
    these rules. *)
From stdpp Require Import functions.
From S2P Require Import Prelude.

(** ** Lists *)

Section Prefixes.
Context {E : Type}.
Implicit Types l : list E.

Lemma prefix_take_eq l1 l2 n :
  l1 `prefix_of` l2 -> n <= length l1 -> take n l1 = take n l2.
Proof. intros [k ->] Hn. by rewrite take_app_le. Qed.

Lemma prefix_of_take l1 l2 : l1 `prefix_of` l2 -> l1 = take (length l1) l2.
Proof. intros [k ->]. by rewrite take_app_length. Qed.

Lemma take_prefix l n : take n l `prefix_of` l.
Proof. exists (drop n l). by rewrite take_drop. Qed.

Lemma take_prefix_le l n m : n <= m -> take n l `prefix_of` take m l.
Proof. intros Hn. exists (take (m - n) (drop n l)). by rewrite take_take_drop, Nat.add_sub_assoc, Nat.add_comm, Nat.add_sub. Qed.

Lemma prefix_cover l1 l2 l :
  l1 `prefix_of` l -> l2 `prefix_of` l -> length l1 <= length l2 -> l1 `prefix_of` l2.
Proof.
  intros H1 H2 Hle. rewrite (prefix_of_take _ _ H1), (prefix_of_take _ _ H2).
  by apply take_prefix_le.
Qed.

Lemma prefix_total l1 l2 l :
  l1 `prefix_of` l -> l2 `prefix_of` l -> l1 `prefix_of` l2 \/ l2 `prefix_of` l1.
Proof.
  intros H1 H2. destruct (Nat.le_ge_cases (length l1) (length l2));
    [left|right]; by eapply prefix_cover.
Qed.

Lemma take_prefix_mono l1 l2 n :
  l1 `prefix_of` l2 -> take n l1 `prefix_of` take n l2.
Proof.
  intros [k ->]. rewrite take_app. by apply prefix_app_r.
Qed.

Lemma take_eq_lookup l1 l2 n k :
  take n l1 = take n l2 -> k < n -> l1 !! k = l2 !! k.
Proof. intros Ht Hk. rewrite <- (lookup_take_lt l1 n), <- (lookup_take_lt l2 n) by done. by rewrite Ht. Qed.

Lemma prefix_lookup_in l1 l2 k :
  l1 `prefix_of` l2 -> k < length l1 -> l1 !! k = l2 !! k.
Proof. intros [r ->] Hk. by rewrite lookup_app_l. Qed.

Lemma take_S_lookup l1 l2 n :
  take n l1 = take n l2 -> l1 !! n = l2 !! n -> take (S n) l1 = take (S n) l2.
Proof.
  intros Ht Hl. destruct (l1 !! n) as [x|] eqn:H1.
  - rewrite (take_S_r l1 n x), (take_S_r l2 n x) by congruence. by rewrite Ht.
  - apply lookup_ge_None in H1. symmetry in Hl. apply lookup_ge_None in Hl.
    rewrite !take_ge in Ht |- * by lia. done.
Qed.
End Prefixes.

Module Proto.

(** ** Definitions *)

Section Protocol.
Context {I E : Type} `{Countable I} `{EqDecision E}.
Context (tm : E -> N) (quorum : gset I -> Prop) (base : list E).
Implicit Types l : list E.
Implicit Types t : N.

(** The leader of a term: its log when it was elected, and its log. *)
Record leadership := mkLeadership {
  ld_id : I;
  ld_start : list E;
  ld_log : list E
}.

(** A request of a leader: the entries after the first [m_prev] ones. *)
Record append := mkAppend {
  m_term : N;
  m_to : I;
  m_prev : nat;
  m_prevTerm : N;
  m_entries : list E;
  m_commit : nat
}.

(** [p_cand] is whether a server may still win the campaign of its term, [p_camp]
    the log a campaign was started with, [p_acks v t k] that [v] has stored the
    first [k] entries of the leader of [t] when it was in term [t], and
    [p_hints t j n] that the leader of [t] may send [j] the entries from [n] on. *)
Record proto := mkProto {
  p_term : I -> N;
  p_log : I -> list E;
  p_commit : I -> nat;
  p_cand : I -> bool;
  p_votes : I -> N -> I -> Prop;
  p_camp : N -> I -> option (list E);
  p_lead : N -> option leadership;
  p_acks : I -> N -> nat -> Prop;
  p_hints : N -> I -> nat -> Prop;
  p_msgs : append -> Prop
}.
Implicit Types s : proto.

Definition last_term l : N := from_option tm 0%N (last l).

(** The comparison of a vote request: the log of the voter, and the candidate's. *)
Definition up_to_date l lc : Prop :=
  (last_term l < last_term lc)%N \/ last_term l = last_term lc /\ length l <= length lc.

(** What a follower makes of its log: entries that are already there are skipped,
    and the first one that is not replaces the rest. *)
Fixpoint merge l (p : nat) (es : list E) : list E :=
  match es with
  | [] => l
  | e :: es' =>
      match l !! p with
      | Some e' => if decide (tm e = tm e') then merge l (S p) es' else take p l ++ es
      | None => take p l ++ es
      end
  end.

(** The check of the entry before the ones of a request. *)
Definition prev_matches l (m : append) : Prop :=
  m_prev m = 0 \/ exists e, l !! (m_prev m - 1) = Some e /\ tm e = m_prevTerm m.

(** *** Steps *)

(** A server learns of a term. *)
Definition raise i t s : proto :=
  mkProto (<[i := t]> (p_term s)) (p_log s) (p_commit s)
    (if decide (p_term s i = t) then p_cand s else <[i := false]> (p_cand s))
    (p_votes s) (p_camp s) (p_lead s) (p_acks s) (p_hints s) (p_msgs s).

Definition campaign i s : proto :=
  mkProto (p_term s) (p_log s) (p_commit s) (<[i := true]> (p_cand s)) (p_votes s)
    (<[p_term s i := <[i := Some (p_log s i)]> (p_camp s (p_term s i))]> (p_camp s))
    (p_lead s) (p_acks s) (p_hints s) (p_msgs s).

Definition cast_for v t i s : proto :=
  mkProto (p_term s) (p_log s) (p_commit s) (p_cand s)
    (fun v' t' i' => p_votes s v' t' i' \/ v' = v /\ t' = t /\ i' = i)
    (p_camp s) (p_lead s) (p_acks s) (p_hints s) (p_msgs s).

Definition win i s : proto :=
  let t := p_term s i in
  mkProto (p_term s) (p_log s) (p_commit s) (<[i := false]> (p_cand s)) (p_votes s)
    (p_camp s) (<[t := Some (mkLeadership i (p_log s i) (p_log s i))]> (p_lead s)) (p_acks s)
    (fun t' j n => p_hints s t' j n \/ t' = t /\ n = S (length (p_log s i))) (p_msgs s).

(** The leader [i], whose leadership is [ld], appends entries. *)
Definition extend i ld (es : list E) s : proto :=
  let t := p_term s i in
  let l := ld_log ld ++ es in
  mkProto (p_term s) (<[i := l]> (p_log s)) (p_commit s) (p_cand s) (p_votes s) (p_camp s)
    (<[t := Some (mkLeadership (ld_id ld) (ld_start ld) l)]> (p_lead s))
    (fun v t' k => p_acks s v t' k \/
       v = i /\ t' = t /\ length (ld_start ld) < k <= length l)
    (p_hints s) (p_msgs s).

Definition send (m : append) s : proto :=
  mkProto (p_term s) (p_log s) (p_commit s) (p_cand s) (p_votes s) (p_camp s) (p_lead s)
    (p_acks s) (p_hints s) (fun m' => p_msgs s m' \/ m' = m).

Definition hint t j n s : proto :=
  mkProto (p_term s) (p_log s) (p_commit s) (p_cand s) (p_votes s) (p_camp s) (p_lead s)
    (p_acks s) (fun t' j' n' => p_hints s t' j' n' \/ t' = t /\ j' = j /\ n' = n) (p_msgs s).

(** A follower stores the entries of [m], a request of the leadership [ld], and sets
    its commit index to [c]. *)
Definition store ld (m : append) (c : nat) s : proto :=
  let j := m_to m in
  mkProto (p_term s) (<[j := merge (p_log s j) (m_prev m) (m_entries m)]> (p_log s))
    (<[j := c]> (p_commit s)) (p_cand s) (p_votes s) (p_camp s) (p_lead s)
    (fun v t k => p_acks s v t k \/
       v = j /\ t = m_term m /\ length (ld_start ld) < k <= m_prev m + length (m_entries m))
    (fun t j' n => p_hints s t j' n \/ t = m_term m /\ j' = j /\ 1 <= n) (p_msgs s).

Definition set_commit i (c : nat) s : proto :=
  mkProto (p_term s) (p_log s) (<[i := c]> (p_commit s)) (p_cand s) (p_votes s) (p_camp s)
    (p_lead s) (p_acks s) (p_hints s) (p_msgs s).

(** A quorum has stored the first [k] entries of the leader of [t]. *)
Definition stored s t (k : nat) : Prop :=
  exists Q, quorum Q /\ forall v, v ∈ Q -> p_acks s v t k.

Inductive proto_step s : proto -> Prop :=
  | p_raise i t :
      (p_term s i <= t)%N -> proto_step s (raise i t s)
  | p_campaign i :
      p_camp s (p_term s i) i = None ->
      Forall (fun e => tm e < p_term s i)%N (p_log s i) -> proto_step s (campaign i s)
  | p_vote v i l :
      p_camp s (p_term s v) i = Some l ->
      (forall i', p_votes s v (p_term s v) i' -> i' = i) ->
      p_votes s v (p_term s v) i \/ up_to_date (p_log s v) l ->
      proto_step s (cast_for v (p_term s v) i s)
  | p_win i Q :
      p_cand s i = true -> quorum Q -> (forall v, v ∈ Q -> p_votes s v (p_term s i) i) ->
      proto_step s (win i s)
  | p_extend i ld es :
      p_lead s (p_term s i) = Some ld -> ld_id ld = i ->
      Forall (fun e => tm e = p_term s i) es -> proto_step s (extend i ld es s)
  | p_send i ld j n n' es :
      p_lead s (p_term s i) = Some ld -> ld_id ld = i -> j <> i ->
      p_hints s (p_term s i) j n -> n <= S n' -> n' <= length (ld_log ld) ->
      es `prefix_of` drop n' (ld_log ld) ->
      (es = [] -> length (ld_start ld) < n') ->
      proto_step s (send (mkAppend (p_term s i) j n' (last_term (take n' (ld_log ld))) es
                            (p_commit s i)) s)
  | p_hint j n ld :
      p_lead s (p_term s j) = Some ld ->
      (forall e, p_log s j !! (n - 1) = Some e -> ld_log ld !! (n - 1) <> Some e) ->
      1 <= n -> proto_step s (hint (p_term s j) j n s)
  | p_store ld m c :
      p_msgs s m -> p_term s (m_to m) = m_term m -> p_lead s (m_term m) = Some ld ->
      prev_matches (p_log s (m_to m)) m ->
      c = p_commit s (m_to m) \/
      c <= m_commit m /\
      c <= length (merge (p_log s (m_to m)) (m_prev m) (m_entries m)) ->
      proto_step s (store ld m c s)
  | p_leader_commit i ld c :
      p_lead s (p_term s i) = Some ld -> ld_id ld = i -> stored s (p_term s i) c ->
      proto_step s (set_commit i c s)
  | p_reset i : proto_step s (set_commit i 0 s).

(** ** The invariant *)

Definition sorted l : Prop := forall a b ea eb,
  a <= b -> l !! a = Some ea -> l !! b = Some eb -> (tm ea <= tm eb)%N.

(** Entries of the same term at one place come with the same beginning. *)
Definition matching l l' : Prop := forall k e e',
  l !! k = Some e -> l' !! k = Some e' -> tm e = tm e' -> take (S k) l = take (S k) l'.

(** A log: the common beginning, and then each entry as the leader of its term has
    it, with everything before it. *)
Record wf s l : Prop := {
  wf_base : base `prefix_of` l;
  wf_source k e : length base <= k -> l !! k = Some e ->
    exists ld, p_lead s (tm e) = Some ld /\ take (S k) l `prefix_of` ld_log ld;
  wf_sorted : sorted l
}.

(** [l] has the first [k] entries of the leader of [t]; the leader of [t'] was
    elected without them. *)
Definition contains s l t (k : nat) : Prop :=
  exists ld, p_lead s t = Some ld /\ take k (ld_log ld) `prefix_of` l.

Definition lacks s t' t (k : nat) : Prop :=
  exists ld' ld, p_lead s t' = Some ld' /\ p_lead s t = Some ld /\
    ~ take k (ld_log ld) `prefix_of` ld_start ld'.

(** What was stored for a leader is in [l], or was overwritten by a leader without it,
    in a term allowed by [P]. *)
Definition kept s l t (k : nat) (P : N -> Prop) : Prop :=
  contains s l t k \/ exists t', (t < t')%N /\ P t' /\ lacks s t' t k.

(** A prefix that is committed for a server in term [T]. *)
Definition chosen s (T : N) l : Prop :=
  l `prefix_of` base \/
  exists t k ld, (t <= T)%N /\ stored s t k /\ p_lead s t = Some ld /\
    l `prefix_of` take k (ld_log ld).

(** The leader of [t] may send [j] the entries from [n] on: [j] has no other entries
    behind the ones it shares with the leader, or it does not have the first of them. *)
Definition starts s t (j : I) (n : nat) : Prop :=
  1 <= n /\ exists ld, p_lead s t = Some ld /\
    (length (ld_start ld) < n \/
     (t <= p_term s j)%N /\
     (p_term s j = t ->
      p_log s j `prefix_of` ld_log ld \/
      forall e, p_log s j !! (n - 1) = Some e -> ld_log ld !! (n - 1) <> Some e)).

Record lead_ok s t (ld : leadership) : Prop := {
  ldo_camp : p_camp s t (ld_id ld) = Some (ld_start ld);
  ldo_log : exists es, ld_log ld = ld_start ld ++ es /\ Forall (fun e => tm e = t) es;
  ldo_self : p_term s (ld_id ld) = t -> p_log s (ld_id ld) = ld_log ld;
  ldo_quorum : exists Q, quorum Q /\ forall v, v ∈ Q -> p_votes s v t (ld_id ld) /\
    forall t0 k, (t0 < t)%N -> p_acks s v t0 k -> kept s (ld_start ld) t0 k (fun t' => (t' < t)%N)
}.

Record msg_ok s (m : append) (ld : leadership) : Prop := {
  mo_to : m_to m <> ld_id ld;
  mo_prev : m_prev m <= length (ld_log ld);
  mo_prevTerm : m_prevTerm m = last_term (take (m_prev m) (ld_log ld));
  mo_entries : m_entries m `prefix_of` drop (m_prev m) (ld_log ld);
  mo_empty : m_entries m = [] -> length (ld_start ld) < m_prev m;
  mo_commit : m_commit m <= length (ld_log ld) /\
    chosen s (m_term m) (take (m_commit m) (ld_log ld));
  mo_starts : starts s (m_term m) (m_to m) (S (m_prev m))
}.

Record inv s : Prop := {
  inv_log i : wf s (p_log s i);
  inv_log_term i e : e ∈ p_log s i -> (tm e <= p_term s i)%N;
  inv_lead t ld : p_lead s t = Some ld -> lead_ok s t ld;
  inv_camp t i l : p_camp s t i = Some l ->
    (t <= p_term s i)%N /\ wf s l /\ Forall (fun e => tm e < t)%N l;
  inv_cand i : p_cand s i = true -> exists l, p_camp s (p_term s i) i = Some l /\
    (p_lead s (p_term s i) = None -> l = p_log s i) /\
    forall ld, p_lead s (p_term s i) = Some ld -> ld_id ld <> i;
  inv_vote_unique v t i i' : p_votes s v t i -> p_votes s v t i' -> i = i';
  inv_vote v t i : p_votes s v t i -> (t <= p_term s v)%N /\
    exists l, p_camp s t i = Some l /\
      forall t0 k, (t0 < t)%N -> p_acks s v t0 k -> kept s l t0 k (fun t' => (t' <= t)%N);
  inv_ack v t k : p_acks s v t k -> (t <= p_term s v)%N /\
    (exists ld, p_lead s t = Some ld /\ length (ld_start ld) < k <= length (ld_log ld)) /\
    kept s (p_log s v) t k (fun t' => (t' <= p_term s v)%N);
  inv_hint t j n : p_hints s t j n -> starts s t j n;
  inv_msg m : p_msgs s m -> exists ld, p_lead s (m_term m) = Some ld /\ msg_ok s m ld;
  inv_commit i : p_commit s i <= length (p_log s i) /\
    chosen s (p_term s i) (take (p_commit s i) (p_log s i))
}.

(** *** What the leaders' logs have in common *)

Lemma sorted_prefix l l' : l `prefix_of` l' -> sorted l' -> sorted l.
Proof.
  intros Hp Hs a b ea eb Hab Ha Hb. eapply Hs; [exact Hab|..]; by eapply prefix_lookup_Some.
Qed.

Lemma wf_prefix s l l' : wf s l' -> l `prefix_of` l' -> base `prefix_of` l -> wf s l.
Proof.
  intros [W1 W2 W3] Hp Hb. split; [done| |by eapply sorted_prefix].
  intros k e Hk Hl. destruct (W2 k e Hk) as (ld & Hld & Hpre); [by eapply prefix_lookup_Some|].
  exists ld. split; [done|]. etrans; [|exact Hpre].
  apply lookup_lt_Some in Hl. rewrite (prefix_take_eq _ _ _ Hp) by lia. done.
Qed.

(** Two logs with entries of the same term at one place agree up to there. *)
Lemma wf_matching s l1 l2 k e1 e2 :
  wf s l1 -> wf s l2 -> l1 !! k = Some e1 -> l2 !! k = Some e2 -> tm e1 = tm e2 ->
  take (S k) l1 = take (S k) l2.
Proof.
  intros [B1 S1 _] [B2 S2 _] H1 H2 Ht.
  pose proof (lookup_lt_Some _ _ _ H1). pose proof (lookup_lt_Some _ _ _ H2).
  destruct (le_lt_dec (length base) k) as [Hk|Hk].
  - destruct (S1 _ _ Hk H1) as (ld & Hl & P1). destruct (S2 _ _ Hk H2) as (ld' & Hl' & P2).
    rewrite Ht, Hl' in Hl. injection Hl as <-.
    apply prefix_of_take in P1, P2. rewrite P1, P2, !length_take. f_equal. lia.
  - rewrite <- (prefix_take_eq base l1), <- (prefix_take_eq base l2) by (done || lia). done.
Qed.

Lemma wf_matches s l L : wf s l -> wf s L -> matching l L.
Proof. intros Hl HL k e1 e2. by apply (wf_matching s). Qed.

(** A log that ends in an entry of term [t] is what the leader of [t] had. *)
Lemma wf_last s l e :
  wf s l -> last l = Some e -> length base < length l ->
  exists ld, p_lead s (tm e) = Some ld /\ l `prefix_of` ld_log ld.
Proof.
  intros [_ S1 _] Hl Hlen. rewrite last_lookup in Hl.
  destruct (S1 (pred (length l)) e) as (ld & Hld & Hp); [lia|done|].
  exists ld. split; [done|]. by rewrite take_ge in Hp by lia.
Qed.

Section Leaders.
Context (s : proto) (Hinv : inv s).

Lemma lead_start_log t ld : p_lead s t = Some ld -> ld_start ld `prefix_of` ld_log ld.
Proof. intros [_ (es & -> & _) _ _]%(inv_lead s Hinv). by exists es. Qed.

Lemma lead_start_wf t ld :
  p_lead s t = Some ld -> wf s (ld_start ld) /\ Forall (fun e => tm e < t)%N (ld_start ld).
Proof. intros [Hc _ _ _]%(inv_lead s Hinv). by apply (inv_camp s Hinv) in Hc as (_ & ? & ?). Qed.

Lemma lead_base t ld : p_lead s t = Some ld -> length base <= length (ld_start ld).
Proof. intros [Hw _]%lead_start_wf. apply prefix_length, Hw. Qed.

(** The entries of the term are the ones behind the log of the election. *)
Lemma lead_entry t ld k e :
  p_lead s t = Some ld -> ld_log ld !! k = Some e ->
  k < length (ld_start ld) /\ (tm e < t)%N \/ length (ld_start ld) <= k /\ tm e = t.
Proof.
  intros Hl He. destruct (lead_start_wf _ _ Hl) as [_ Hlt].
  destruct (inv_lead s Hinv _ _ Hl) as [_ (es & Heq & Hes) _ _]. rewrite Heq in He.
  apply lookup_app_Some in He as [He|[Hk He]].
  - left. split; [by eapply lookup_lt_Some|]. rewrite Forall_lookup in Hlt. by eapply Hlt.
  - right. split; [done|]. rewrite Forall_lookup in Hes. by eapply Hes.
Qed.

Lemma lead_entry_le t ld k e :
  p_lead s t = Some ld -> ld_log ld !! k = Some e -> (tm e <= t)%N.
Proof. intros Hl He. pose proof (lead_entry _ _ _ _ Hl He). lia. Qed.

Lemma lead_entry_term t ld k e :
  p_lead s t = Some ld -> ld_log ld !! k = Some e -> length (ld_start ld) <= k -> tm e = t.
Proof. intros Hl He Hk. pose proof (lead_entry _ _ _ _ Hl He). lia. Qed.

Lemma lead_wf t ld : p_lead s t = Some ld -> wf s (ld_log ld).
Proof.
  intros Hl. destruct (lead_start_wf _ _ Hl) as [[W1 W2 W3] _].
  pose proof (lead_start_log _ _ Hl) as Hp. split.
  - by etrans.
  - intros k e Hk He. destruct (lead_entry _ _ _ _ Hl He) as [[Hlt _]|[_ <-]].
    + destruct (W2 k e Hk) as (ld' & ? & Hp'); [|exists ld'; split; [done|]].
      * by rewrite (prefix_lookup_in _ _ _ Hp Hlt).
      * by rewrite <- (prefix_take_eq _ _ _ Hp) by lia.
    + exists ld. split; [done|]. apply take_prefix.
  - intros a b ea eb Hab Ha Hb. destruct (lead_entry _ _ _ _ Hl Hb) as [[Hlt _]|[_ ->]].
    + eapply W3; [exact Hab|..]; by rewrite (prefix_lookup_in _ _ _ Hp) by lia.
    + by eapply lead_entry_le.
Qed.

(** A server in term [t] whose log has an entry of the term is a copy of its leader. *)
Lemma log_clean t ld i k e :
  p_lead s t = Some ld -> p_term s i = t -> p_log s i !! k = Some e -> tm e = t ->
  p_log s i `prefix_of` ld_log ld.
Proof.
  intros Hl Ht Hk He. pose proof (inv_log s Hinv i) as Hw.
  pose proof (lookup_lt_Some _ _ _ Hk) as Hlt.
  destruct (last (p_log s i)) as [x|] eqn:Hx.
  2:{ apply last_None in Hx. by rewrite Hx in Hk. }
  assert (tm x = t) as Hxt.
  { apply N.le_antisymm; [rewrite <- Ht; eapply inv_log_term, last_Some_elem_of; eauto|].
    rewrite <- He. rewrite last_lookup in Hx. eapply (wf_sorted _ _ Hw); [|exact Hk|exact Hx]. lia. }
  destruct (wf_last _ _ _ Hw Hx) as (ld' & Hl' & Hp); [|rewrite Hxt in Hl'; by simplify_eq].
  destruct (le_lt_dec (length (p_log s i)) (length base)) as [Hle|]; [|done].
  exfalso. destruct (lead_start_wf _ _ Hl) as [Hws Hlts].
  assert (base !! k = Some e) as Hb.
  { destruct (lookup_lt_is_Some_2 base k) as [e' He']; [lia|]. rewrite He'.
    pose proof (prefix_lookup_Some _ _ _ _ He' (wf_base _ _ Hw)). congruence. }
  rewrite Forall_lookup in Hlts.
  pose proof (Hlts k e (prefix_lookup_Some _ _ _ _ Hb (wf_base _ _ Hws))). lia.
Qed.
End Leaders.

(** *** Growing *)

(** The leaders stay, and their logs only grow. *)
Definition grows s s' : Prop := forall t ld, p_lead s t = Some ld ->
  exists ld', p_lead s' t = Some ld' /\ ld_id ld' = ld_id ld /\ ld_start ld' = ld_start ld /\
    exists es, ld_log ld' = ld_log ld ++ es /\ Forall (fun e => tm e = t) es.

Lemma grows_same s s' : p_lead s' = p_lead s -> grows s s'.
Proof.
  intros Heq t ld Hl. exists ld. rewrite Heq. split_and!; [done..|].
  exists []. by rewrite app_nil_r.
Qed.

Lemma grows_lead s s' t ld :
  grows s s' -> p_lead s t = Some ld ->
  exists ld', p_lead s' t = Some ld' /\ ld_id ld' = ld_id ld /\ ld_start ld' = ld_start ld /\
    ld_log ld `prefix_of` ld_log ld'.
Proof.
  intros Hg Hl. destruct (Hg _ _ Hl) as (ld' & ? & ? & ? & es & He & _).
  exists ld'. rewrite He. split_and!; [done..|]. by exists es.
Qed.

Lemma wf_grows s s' l : grows s s' -> wf s l -> wf s' l.
Proof.
  intros Hg [W1 W2 W3]. split; [done| |done]. intros k e Hk He.
  destruct (W2 _ _ Hk He) as (ld & Hl & Hp). destruct (grows_lead _ _ _ _ Hg Hl) as (ld' & ? & _ & _ & ?).
  exists ld'. split; [done|]. by etrans.
Qed.

Lemma kept_grows s s' l l' t k (P P' : N -> Prop) ld :
  grows s s' -> p_lead s t = Some ld -> k <= length (ld_log ld) ->
  l `prefix_of` l' -> (forall t', P t' -> P' t') -> kept s l t k P -> kept s' l' t k P'.
Proof.
  intros Hg Hl Hk Hll HP Hkept. destruct (grows_lead _ _ _ _ Hg Hl) as (ld1 & Hl1 & _ & _ & Hp).
  assert (take k (ld_log ld) = take k (ld_log ld1)) as Ht by by apply prefix_take_eq.
  destruct Hkept as [(ld0 & Hl0 & Hpre)|(t' & Hlt & HPt & ld0' & ld0 & Hl0' & Hl0 & Hn)];
    rewrite Hl in Hl0; injection Hl0 as <-.
  - left. exists ld1. split; [done|]. rewrite <- Ht. by etrans.
  - right. exists t'. split_and!; [done|by apply HP|].
    destruct (Hg _ _ Hl0') as (ld1' & ? & _ & Hs & _). exists ld1', ld1.
    split_and!; [done|done|]. by rewrite <- Ht, Hs.
Qed.

Definition more_acks s s' : Prop := forall v t k, p_acks s v t k -> p_acks s' v t k.

Lemma chosen_grows s s' T T' l l' :
  grows s s' -> more_acks s s' -> (T <= T')%N -> l' `prefix_of` l ->
  chosen s T l -> chosen s' T' l'.
Proof.
  intros Hg Ha HT Hp [Hb|(t & k & ld & Ht & (Q & HQ & Hv) & Hl & Hpre)].
  { left. by etrans. }
  destruct (grows_lead _ _ _ _ Hg Hl) as (ld' & Hl' & _ & _ & Hlog). right. exists t, k, ld'.
  split_and!; [lia|exists Q; split; [done|]; intros v HvQ; by apply Ha, Hv|done|].
  etrans; [exact Hp|]. etrans; [exact Hpre|]. by apply take_prefix_mono.
Qed.

(** *** Merging *)

Lemma merge_spec l L (p : nat) es :
  matching l L -> take p l = take p L -> p <= length L -> es `prefix_of` drop p L ->
  merge l p es = l /\ take (p + length es) l = take (p + length es) L \/
  merge l p es = take (p + length es) L /\
  exists q, p <= q < p + length es /\ l !! q <> L !! q.
Proof.
  intros Hm. revert p. induction es as [|e es IH]; intros p Ht Hp Hes.
  { left. by rewrite Nat.add_0_r. }
  assert (L !! p = Some e) as He.
  { rewrite <- (Nat.add_0_r p), <- lookup_drop. by eapply prefix_lookup_Some; [|exact Hes]. }
  assert (take p l ++ e :: es = take (p + length (e :: es)) L) as Htake.
  { rewrite Ht. destruct Hes as [r Hr]. rewrite <- (take_drop p L) at 2. rewrite Hr.
    rewrite take_app_ge by (rewrite length_take; lia). rewrite length_take.
    rewrite Nat.min_l by done. replace (p + length (e :: es) - p) with (length (e :: es)) by lia.
    by rewrite take_app_length. }
  assert (es `prefix_of` drop (S p) L) as Hes'.
  { destruct Hes as [r Hr]. exists r. rewrite (drop_S _ e) in Hr by done. by injection Hr. }
  cbn [merge]. destruct (l !! p) as [e'|] eqn:Hle.
  2:{ right. split; [exact Htake|]. exists p. rewrite Hle, He. cbn [length]. split; [lia|done]. }
  destruct (decide (tm e = tm e')) as [Hte|Hte].
  - assert (take (S p) l = take (S p) L) as Ht' by (by eapply Hm).
    pose proof (lookup_lt_Some _ _ _ He).
    cbn [length]. rewrite <- Nat.add_succ_comm.
    destruct (IH (S p) Ht' ltac:(lia) Hes') as [?|(? & q & Hq & ?)]; [by left|right].
    split; [done|]. exists q. split; [lia|done].
  - right. split; [exact Htake|]. exists p. rewrite Hle, He. cbn [length].
    split; [lia|congruence].
Qed.

(** The check before the entries compares the whole beginning. *)
Lemma prev_matches_take l L m :
  matching l L -> prev_matches l m -> m_prev m <= length L ->
  m_prevTerm m = last_term (take (m_prev m) L) ->
  take (m_prev m) l = take (m_prev m) L.
Proof.
  intros Hm [->|(e & He & Ht)] Hp Hlast; [done|].
  destruct (m_prev m) as [|p]; [done|]. simpl in He. rewrite Nat.sub_0_r in He.
  destruct (lookup_lt_is_Some_2 L p) as [e' He']; [lia|].
  eapply Hm; [exact He|exact He'|]. rewrite Ht, Hlast.
  unfold last_term. rewrite (take_S_r L p e') by done. by rewrite last_snoc.
Qed.

(** *** Leader completeness *)

Context (quorums : forall Q Q', quorum Q -> quorum Q' -> exists v, v ∈ Q /\ v ∈ Q').

(** The leaders of later terms were elected with what a quorum has stored. *)
Lemma leader_complete s t k ld t' ld' :
  inv s -> stored s t k -> p_lead s t = Some ld -> (t < t')%N -> p_lead s t' = Some ld' ->
  take k (ld_log ld) `prefix_of` ld_start ld'.
Proof.
  intros Hinv (Q & HQ & Hacks) Hl. revert ld'.
  induction t' as [t' IH] using (well_founded_induction N.lt_wf_0). intros ld' Hlt Hl'.
  destruct (inv_lead _ Hinv _ _ Hl') as [_ _ _ (Q' & HQ' & Hvotes)].
  destruct (quorums Q Q' HQ HQ') as (v & Hv & Hv').
  destruct (Hvotes v Hv') as [_ Hkept].
  destruct (Hkept t k Hlt (Hacks v Hv)) as [(ld0 & Hl0 & Hp)|(t2 & H2 & H2' & l2 & l1 & Hl2 & Hl1 & Hn)].
  - by simplify_eq.
  - exfalso. simplify_eq. apply Hn. by apply (IH t2).
Qed.

(** Two prefixes that are committed agree. *)
Lemma stored_led s t1 k1 ld1 t2 ld2 :
  inv s -> (t1 <= t2)%N -> stored s t1 k1 -> p_lead s t1 = Some ld1 -> p_lead s t2 = Some ld2 ->
  take k1 (ld_log ld1) `prefix_of` ld_log ld2.
Proof.
  intros Hinv Ht H1 Hl1 Hl2. destruct (decide (t1 = t2)) as [->|Hne].
  - simplify_eq. apply take_prefix.
  - etrans; [eapply leader_complete; [done|done|done| |done]; lia|by eapply lead_start_log].
Qed.

(** A leader has what was chosen up to its term. *)
Lemma chosen_led s T l t ld :
  inv s -> chosen s T l -> (T <= t)%N -> p_lead s t = Some ld -> l `prefix_of` ld_log ld.
Proof.
  intros Hinv [Hb|(t1 & k1 & ld1 & Ht & S1 & L1 & P1)] HT Hl.
  - etrans; [exact Hb|]. by eapply wf_base, lead_wf.
  - etrans; [exact P1|]. apply (stored_led s t1 k1 ld1 t ld); [done|lia|done..].
Qed.

Lemma chosen_total s T1 T2 l1 l2 :
  inv s -> chosen s T1 l1 -> chosen s T2 l2 -> l1 `prefix_of` l2 \/ l2 `prefix_of` l1.
Proof.
  intros Hinv.
  assert (forall t ld, p_lead s t = Some ld -> base `prefix_of` ld_log ld) as Hbase.
  { intros t ld Hl. by eapply wf_base, lead_wf. }
  intros [H1|(t1 & k1 & ld1 & _ & S1 & L1 & P1)] [H2|(t2 & k2 & ld2 & _ & S2 & L2 & P2)].
  - by eapply prefix_total.
  - eapply prefix_total; [etrans; [exact H1|by eapply Hbase]|].
    etrans; [exact P2|apply take_prefix].
  - eapply prefix_total; [|etrans; [exact H2|by eapply Hbase]].
    etrans; [exact P1|apply take_prefix].
  - destruct (N.le_ge_cases t1 t2) as [Ht|Ht].
    + eapply prefix_total; [etrans; [exact P1|by eapply stored_led]|].
      etrans; [exact P2|apply take_prefix].
    + eapply prefix_total; [etrans; [exact P1|apply take_prefix]|].
      etrans; [exact P2|by eapply stored_led].
Qed.

(** ** Every step keeps the invariant *)

(** What no step takes back; what is newly stored is stored for the leader of the
    server's term. *)
Record evolves s s' : Prop := {
  ev_grows : grows s s';
  ev_term i : (p_term s i <= p_term s' i)%N;
  ev_camp t i l : p_camp s t i = Some l -> p_camp s' t i = Some l;
  ev_votes v t i : p_votes s v t i -> p_votes s' v t i;
  ev_acks : more_acks s s';
  ev_new_acks v t k : p_acks s' v t k -> p_acks s v t k \/ p_term s v = t
}.

Section Evolves.
Context (s s' : proto) (Hinv : inv s) (Hev : evolves s s').

Lemma starts_evolves t j n :
  starts s t j n ->
  (p_term s j = t -> p_log s' j = p_log s j \/
     forall ld, p_lead s' t = Some ld -> p_log s' j `prefix_of` ld_log ld) ->
  starts s' t j n.
Proof.
  intros (Hn & ld & Hl & Hst) Hlog. split; [done|].
  destruct (ev_grows _ _ Hev _ _ Hl) as (ld' & Hl' & _ & Hs & es & Hlog' & Hes).
  exists ld'. split; [done|]. rewrite Hs. destruct Hst as [|[Hle Hst]]; [by left|right].
  pose proof (ev_term _ _ Hev j). split; [lia|]. intros Ht.
  assert (p_term s j = t) as Hts by lia. specialize (Hlog Hts).
  destruct Hlog as [->|Hc]; [|left; by apply Hc].
  destruct (Hst Hts) as [Hp|Hne]; [left; rewrite Hlog'; by apply prefix_app_r|right].
  intros e He. specialize (Hne e He). rewrite Hlog'. intros [He'|[Hge He']]%lookup_app_Some.
  { done. }
  apply Hne. rewrite Forall_lookup in Hes. specialize (Hes _ _ He').
  pose proof (lead_base s Hinv _ _ Hl).
  pose proof (prefix_length _ _ (lead_start_log s Hinv _ _ Hl)).
  destruct (wf_source _ _ (inv_log s Hinv j) (n - 1) e) as (ld2 & Hl2 & Hp); [lia|done|].
  rewrite Hes in Hl2. simplify_eq. eapply prefix_lookup_Some; [|exact Hp].
  rewrite lookup_take_lt by lia. done.
Qed.

Lemma kept_evolves v t k l l' (P P' : N -> Prop) :
  p_acks s v t k -> l `prefix_of` l' -> (forall t', P t' -> P' t') ->
  kept s l t k P -> kept s' l' t k P'.
Proof.
  intros (_ & (ld & Hl & _ & Hk) & _)%(inv_ack s Hinv) Hp HP Hkept.
  eapply kept_grows; [apply Hev|done|done|done|done|done].
Qed.

Lemma vote_evolves v t i :
  p_votes s v t i -> (t <= p_term s' v)%N /\ exists l, p_camp s' t i = Some l /\
    forall t0 k, (t0 < t)%N -> p_acks s' v t0 k -> kept s' l t0 k (fun t' => (t' <= t)%N).
Proof.
  intros (Ht & l & Hc & Hk)%(inv_vote s Hinv). pose proof (ev_term _ _ Hev v).
  split; [lia|]. exists l. split; [by apply Hev|]. intros t0 k Ht0 [Ha|Hn]%(ev_new_acks _ _ Hev); [|lia].
  eapply kept_evolves; [done|done| |by apply Hk]. done.
Qed.

Lemma quorum_evolves t ld ld' :
  lead_ok s t ld -> ld_id ld' = ld_id ld -> ld_start ld' = ld_start ld ->
  exists Q, quorum Q /\ forall v, v ∈ Q -> p_votes s' v t (ld_id ld') /\
    forall t0 k, (t0 < t)%N -> p_acks s' v t0 k ->
      kept s' (ld_start ld') t0 k (fun t' => (t' < t)%N).
Proof.
  intros [_ _ _ (Q & HQ & Hv)] -> ->. exists Q. split; [done|]. intros v HvQ.
  destruct (Hv v HvQ) as [Hvote Hk]. split; [by apply Hev|].
  intros t0 k Ht0 [Ha|Hn]%(ev_new_acks _ _ Hev).
  - eapply kept_evolves; [done|done| |by apply Hk]. done.
  - destruct (inv_vote s Hinv _ _ _ Hvote) as [? _]. lia.
Qed.

Lemma chosen_evolves T T' l l' :
  (T <= T')%N -> l' `prefix_of` l -> chosen s T l -> chosen s' T' l'.
Proof. apply chosen_grows; apply Hev. Qed.

Lemma msg_evolves m ld :
  p_lead s (m_term m) = Some ld -> msg_ok s m ld ->
  (p_term s (m_to m) = m_term m -> p_log s' (m_to m) = p_log s (m_to m) \/
     forall ld, p_lead s' (m_term m) = Some ld -> p_log s' (m_to m) `prefix_of` ld_log ld) ->
  exists ld', p_lead s' (m_term m) = Some ld' /\ msg_ok s' m ld'.
Proof.
  intros Hl [M1 M2 M3 M4 M5 [M6 M7] M8] Hlog.
  destruct (grows_lead _ _ _ _ (ev_grows _ _ Hev) Hl) as (ld' & Hl' & Hid & Hs & Hp).
  exists ld'. split; [done|]. pose proof (prefix_length _ _ Hp). split.
  - by rewrite Hid.
  - lia.
  - by rewrite <- (prefix_take_eq _ _ _ Hp).
  - etrans; [exact M4|]. destruct Hp as [r ->]. rewrite drop_app_le by done. by apply prefix_app_r.
  - by rewrite Hs.
  - split; [lia|]. rewrite <- (prefix_take_eq _ _ _ Hp) by done. by eapply chosen_evolves.
  - by apply starts_evolves.
Qed.
End Evolves.

(** A step that changes no log and stores nothing: what is left to show is about
    what is new. *)
Lemma inv_same_logs s s' :
  inv s -> evolves s s' -> p_log s' = p_log s -> p_acks s' = p_acks s ->
  (forall t ld, p_lead s' t = Some ld -> p_lead s t = Some ld \/ lead_ok s' t ld) ->
  (forall t ld, p_lead s t = Some ld -> p_term s' (ld_id ld) = t -> p_term s (ld_id ld) = t) ->
  (forall t i l, p_camp s' t i = Some l -> p_camp s t i = Some l \/
     (t <= p_term s' i)%N /\ wf s' l /\ Forall (fun e => tm e < t)%N l) ->
  (forall i, p_cand s' i = true -> exists l, p_camp s' (p_term s' i) i = Some l /\
     (p_lead s' (p_term s' i) = None -> l = p_log s' i) /\
     forall ld, p_lead s' (p_term s' i) = Some ld -> ld_id ld <> i) ->
  (forall v t i i', p_votes s' v t i -> p_votes s' v t i' -> i = i') ->
  (forall v t i, p_votes s' v t i -> p_votes s v t i \/ (t <= p_term s' v)%N /\
     exists l, p_camp s' t i = Some l /\ forall t0 k, (t0 < t)%N -> p_acks s' v t0 k ->
       kept s' l t0 k (fun t' => (t' <= t)%N)) ->
  (forall t j n, p_hints s' t j n -> p_hints s t j n \/ starts s' t j n) ->
  (forall m, p_msgs s' m -> p_msgs s m \/
     exists ld, p_lead s' (m_term m) = Some ld /\ msg_ok s' m ld) ->
  (forall i, p_commit s' i = p_commit s i \/ p_commit s' i <= length (p_log s' i) /\
     chosen s' (p_term s' i) (take (p_commit s' i) (p_log s' i))) ->
  inv s'.
Proof.
  intros Hinv Hev Hlog Hacks Hlead Hself Hcamp Hcand Hu Hvote Hhint Hmsg Hcommit.
  assert (forall l, wf s l -> wf s' l) as Hwf by (intros l; apply wf_grows, Hev).
  split.
  - intros i. rewrite Hlog. apply Hwf, Hinv.
  - intros i e. rewrite Hlog. intros He%(inv_log_term s Hinv).
    pose proof (ev_term _ _ Hev i). lia.
  - intros t ld Hl'. destruct (Hlead _ _ Hl') as [Hl|]; [|done].
    pose proof (inv_lead s Hinv _ _ Hl) as Hok. pose proof Hok as [L1 L2 L3 _]. split.
    + by apply Hev.
    + done.
    + intros Ht. rewrite Hlog. by apply L3, Hself.
    + by eapply quorum_evolves.
  - intros t i l Hc'. destruct (Hcamp _ _ _ Hc') as [(Ht & Hw & Hf)%(inv_camp s Hinv)|]; [|done].
    pose proof (ev_term _ _ Hev i). split_and!; [lia|by apply Hwf|done].
  - done.
  - done.
  - intros v t i [Hv|Hv]%Hvote; [by eapply vote_evolves|done].
  - intros v t k. rewrite Hacks. intros Ha. pose proof (ev_term _ _ Hev v).
    destruct (inv_ack s Hinv _ _ _ Ha) as (Ht & (ld & Hl & Hk) & Hkept). split; [lia|]. split.
    + destruct (grows_lead _ _ _ _ (ev_grows _ _ Hev) Hl) as (ld' & Hl' & _ & Hs & Hp).
      exists ld'. split; [done|]. rewrite Hs. pose proof (prefix_length _ _ Hp). lia.
    + rewrite Hlog. eapply kept_evolves; [done|done|done|done| |done]. cbv beta. lia.
  - intros t j n [Hh|Hh]%Hhint; [|done]. eapply starts_evolves; [done|done|by apply Hinv|].
    intros _. left. by rewrite Hlog.
  - intros m [Hm|Hm]%Hmsg; [|done]. destruct (inv_msg s Hinv _ Hm) as (ld & Hl & Hok).
    eapply msg_evolves; [done|done|done|done|]. intros _. left. by rewrite Hlog.
  - intros i. destruct (Hcommit i) as [->|]; [|done]. rewrite Hlog.
    destruct (inv_commit s Hinv i) as [Hle Hch]. split; [done|].
    eapply chosen_evolves; [done|apply Hev|done|exact Hch].
Qed.

Lemma insert_case {A B} `{EqDecision A} (f : A -> B) a b x :
  (<[a := b]> f) x = if decide (x = a) then b else f x.
Proof.
  destruct (decide (x = a)) as [->|Hne]; [apply fn_lookup_insert|by apply fn_lookup_insert_ne].
Qed.

Lemma raise_inv i t s : inv s -> (p_term s i <= t)%N -> inv (raise i t s).
Proof.
  intros Hinv Ht.
  assert (forall j, (p_term s j <= p_term (raise i t s) j)%N) as Hterm.
  { intros j. cbn [raise p_term]. rewrite insert_case. case_decide; [by subst|lia]. }
  assert (evolves s (raise i t s)) as Hev.
  { split; [by apply grows_same|done|done|done|by intros v t' k|by auto]. }
  eapply inv_same_logs; [done|done|done|done|by auto| |by auto| | |by auto|by auto|by auto|by auto].
  - intros t' ld Hl. destruct (inv_lead s Hinv _ _ Hl) as [Hc _ _ _].
    apply (inv_camp s Hinv) in Hc as (Hc & _). pose proof (Hterm (ld_id ld)). lia.
  - intros j. cbn [raise p_cand p_term p_camp p_lead p_log].
    destruct (decide (p_term s i = t)) as [He|Hne]; rewrite !insert_case.
    + intros Hj. destruct (inv_cand s Hinv _ Hj) as (l & ? & ? & ?). exists l.
      case_decide; [|done]. by subst.
    + case_decide; [done|]. apply (inv_cand s Hinv).
  - apply Hinv.
Qed.

Lemma campaign_inv i s :
  inv s -> p_camp s (p_term s i) i = None ->
  Forall (fun e => tm e < p_term s i)%N (p_log s i) -> inv (campaign i s).
Proof.
  intros Hinv Hc Hf.
  assert (forall t j, p_camp (campaign i s) t j =
    if decide (t = p_term s i /\ j = i) then Some (p_log s i) else p_camp s t j) as Hcamp.
  { intros t j. cbn [campaign p_camp]. rewrite insert_case.
    destruct (decide (t = p_term s i)) as [->|]; [|rewrite decide_False by tauto; done].
    rewrite insert_case. destruct (decide (j = i)) as [->|]; [by rewrite decide_True|].
    by rewrite decide_False by tauto. }
  assert (evolves s (campaign i s)) as Hev.
  { split; [by apply grows_same|done| |done|by intros v t' k|by auto].
    intros t j l Hl. rewrite Hcamp. case_decide as Hd; [|done].
    destruct Hd as [-> ->]. congruence. }
  eapply inv_same_logs; [done|done|done|done|by auto|by auto| | |apply Hinv|by auto..].
  - intros t j l. rewrite Hcamp. case_decide as Hd; [|by auto]. destruct Hd as [-> ->].
    intros [= <-]. right. split_and!; [done| |done]. eapply wf_grows; [apply Hev|apply Hinv].
  - intros j. cbn [p_cand]. unfold campaign at 1. cbn [p_cand]. rewrite insert_case.
    case_decide as Hd.
    + intros _. subst j. exists (p_log s i). rewrite Hcamp, decide_True by done.
      split_and!; [done|done|]. intros ld Hl Hid.
      destruct (inv_lead s Hinv _ _ Hl) as [Hlc _ _ _]. rewrite Hid in Hlc.
      cbn [campaign p_term] in Hlc. congruence.
    + intros Hj. destruct (inv_cand s Hinv _ Hj) as (l & Hl & ? & ?). exists l.
      split_and!; [by apply Hev|done|done].
Qed.

Lemma win_inv i s Q :
  inv s -> p_cand s i = true -> quorum Q -> (forall v, v ∈ Q -> p_votes s v (p_term s i) i) ->
  inv (win i s).
Proof.
  intros Hinv Hi HQ Hv. destruct (inv_cand s Hinv _ Hi) as (l & Hc & Hnone & Hnot).
  assert (p_lead s (p_term s i) = None) as Hfree.
  { destruct (p_lead s (p_term s i)) as [ld|] eqn:Hl; [|done]. exfalso.
    destruct (inv_lead s Hinv _ _ Hl) as [_ _ _ (Q' & HQ' & Hv')].
    destruct (quorums Q Q' HQ HQ') as (v & H1 & H2). apply (Hnot ld); [done|].
    eapply (inv_vote_unique s Hinv); [by apply Hv'|by apply Hv]. }
  specialize (Hnone Hfree). subst l.
  assert (forall t, p_lead (win i s) t =
    if decide (t = p_term s i) then Some (mkLeadership i (p_log s i) (p_log s i))
    else p_lead s t) as Hlead by (intros t; apply insert_case).
  assert (evolves s (win i s)) as Hev.
  { split; [|done|done|done|by intros v t' k|by auto]. intros t ld Hl. exists ld. rewrite Hlead.
    rewrite decide_False by congruence. split_and!; [done..|]. exists []. by rewrite app_nil_r. }
  eapply inv_same_logs; [done|done|done|done| |by auto|by auto| |apply Hinv|by auto| |by auto|by auto].
  - intros t ld. rewrite Hlead. case_decide as Hd; [|by auto]. intros [= <-]. right. subst t.
    split; cbn [ld_id ld_start ld_log]; [done|exists []; by rewrite app_nil_r|done|].
    exists Q. split; [done|]. intros v HvQ. split; [by apply Hv|]. intros t0 k Ht0 Ha.
    destruct (inv_vote s Hinv _ _ _ (Hv v HvQ)) as (_ & l & Hl & Hk). simplify_eq.
    eapply kept_evolves; [done|done|done|done| |].
    { by intros t' Hp; exact Hp. }
    destruct (Hk _ _ Ht0 Ha) as [?|(t' & ? & Ht' & Hla)]; [by left|right].
    exists t'. split_and!; [done| |done]. destruct Hla as (ld' & _ & Hl' & _).
    assert (t' <> p_term s i) by congruence. lia.
  - intros j. unfold win at 1. cbn [p_cand]. rewrite insert_case. case_decide as Hd; [done|].
    intros Hj. destruct (inv_cand s Hinv _ Hj) as (l & Hl & H1 & H2). exists l.
    change (p_term (win i s) j) with (p_term s j). rewrite Hlead. split; [done|].
    case_decide as Hd'; [|done]. split; [done|]. intros ld [= <-]. by intros <-.
  - intros t j n [Hh|[-> ->]]; [by left|right]. split; [lia|].
    eexists. rewrite Hlead, decide_True by done. split; [done|]. left. cbn [ld_start]. lia.
Qed.

(** A candidate whose log passes the check of a voter has what the voter stored, or
    its log comes from a leader that was elected without it. *)
Lemma up_to_date_kept s t i l lv t0 k ld0 :
  inv s -> p_camp s t i = Some l -> wf s lv -> up_to_date lv l ->
  p_lead s t0 = Some ld0 -> length (ld_start ld0) < k <= length (ld_log ld0) ->
  take k (ld_log ld0) `prefix_of` lv -> kept s l t0 k (fun t' => (t' <= t)%N).
Proof.
  intros Hinv Hc Hw Hup Hl0 Hk Hp. destruct (inv_camp s Hinv _ _ _ Hc) as (_ & Hwl & Hlt).
  pose proof (lead_base s Hinv _ _ Hl0) as Hb.
  pose proof (prefix_length _ _ Hp) as Hlen. rewrite length_take in Hlen.
  destruct (last lv) as [x|] eqn:Hx; [|apply last_None in Hx; subst lv; simpl in Hlen; lia].
  assert (t0 <= tm x)%N as Hx0.
  { destruct (lookup_lt_is_Some_2 (ld_log ld0) (k - 1)) as [e He]; [lia|].
    rewrite <- (lead_entry_term s Hinv _ _ _ _ Hl0 He) by lia.
    assert (lv !! (k - 1) = Some e) as Hev.
    { eapply prefix_lookup_Some; [|exact Hp]. by rewrite lookup_take_lt by lia. }
    pose proof Hx as Hx'. rewrite last_lookup in Hx'.
    eapply (wf_sorted _ _ Hw); [|exact Hev|exact Hx']. lia. }
  unfold up_to_date, last_term in Hup. rewrite Hx in Hup. simpl in Hup.
  destruct (last l) as [y|] eqn:Hy; simpl in Hup.
  2:{ apply last_None in Hy. subst l. simpl in Hup. lia. }
  assert (tm y < t)%N as Hyt.
  { rewrite Forall_forall in Hlt. apply Hlt. by apply last_Some_elem_of. }
  destruct Hup as [Hgt|[Heq Hle]].
  - assert (length base < length l) as Hbl.
    { destruct (le_lt_dec (length l) (length base)) as [Hlb|]; [|done]. exfalso.
      destruct (lead_start_wf s Hinv _ _ Hl0) as [Hws Hf0].
      assert (l `prefix_of` ld_start ld0) as Hls.
      { etrans; [|apply Hws]. eapply prefix_cover; [reflexivity|apply Hwl|done]. }
      rewrite last_lookup in Hy. rewrite Forall_lookup in Hf0.
      pose proof (Hf0 _ _ (prefix_lookup_Some _ _ _ _ Hy Hls)). lia. }
    destruct (wf_last _ _ _ Hwl Hy Hbl) as (ld1 & Hl1 & Hp1).
    destruct (decide (take k (ld_log ld0) `prefix_of` ld_start ld1)) as [Hin|Hout].
    + left. exists ld0. split; [done|]. etrans; [exact Hin|].
      eapply prefix_cover; [by eapply lead_start_log|exact Hp1|].
      rewrite last_lookup in Hy. pose proof (lookup_lt_Some _ _ _ Hy).
      destruct (lead_entry s Hinv _ _ (pred (length l)) y Hl1) as [[_ ?]|[? _]]; [|lia|lia].
      by eapply prefix_lookup_Some.
    + right. exists (tm y). split_and!; [lia|lia|]. by exists ld1, ld0.
  - left. exists ld0. split; [done|]. etrans; [exact Hp|].
    destruct (wf_last _ _ _ Hw Hx) as (ld1 & Hl1 & Hp1); [lia|].
    destruct (wf_last _ _ _ Hwl Hy) as (ld2 & Hl2 & Hp2); [lia|].
    rewrite Heq, Hl2 in Hl1. simplify_eq. by eapply prefix_cover.
Qed.

Lemma vote_inv v i l s :
  inv s -> p_camp s (p_term s v) i = Some l ->
  (forall i', p_votes s v (p_term s v) i' -> i' = i) ->
  p_votes s v (p_term s v) i \/ up_to_date (p_log s v) l ->
  inv (cast_for v (p_term s v) i s).
Proof.
  intros Hinv Hc Hu Hok. set (s' := cast_for v (p_term s v) i s).
  assert (evolves s s') as Hev.
  { split; [by apply grows_same|done|done|by left|by intros v' t' k|by auto]. }
  eapply inv_same_logs; [done|done|done|done|by auto|by auto|by auto|apply Hinv| | |by auto..].
  - intros v' t' i1 i2 [H1|(-> & -> & ->)] [H2|(E1 & E2 & ->)].
    + by eapply (inv_vote_unique s Hinv).
    + subst. by apply Hu.
    + symmetry. by apply Hu.
    + done.
  - intros v' t' i' [Hv|(-> & -> & ->)]; [by left|]. destruct Hok as [Hv|Hup]; [by left|right].
    split; [done|]. exists l. split; [done|]. intros t0 k Ht0 Ha.
    destruct (inv_ack s Hinv _ _ _ Ha) as (_ & (ld & Hl & Hk) & Hkept).
    change (kept s l t0 k (fun t' => (t' <= p_term s v)%N)).
    destruct Hkept as [(ld' & Hl' & Hp)|?]; [|by right]. simplify_eq.
    by eapply up_to_date_kept; [| |apply (inv_log s Hinv v)|..].
Qed.

Lemma starts_up s t j n n' : inv s -> starts s t j n -> n <= n' -> starts s t j n'.
Proof.
  intros Hinv (Hn & ld & Hl & Hst) Hle. split; [lia|]. exists ld. split; [done|].
  destruct Hst as [?|[Ht Hst]]; [left; lia|right]. split; [done|]. intros Hj.
  destruct (Hst Hj) as [?|Hne]; [by left|right]. intros e He Hle'.
  assert (take (S (n' - 1)) (p_log s j) = take (S (n' - 1)) (ld_log ld)) as Htake.
  { eapply wf_matching; [apply Hinv|by eapply lead_wf|done|done|done]. }
  pose proof (lookup_lt_Some _ _ _ He).
  destruct (lookup_lt_is_Some_2 (p_log s j) (n - 1)) as [e' He']; [lia|].
  apply (Hne e' He'). rewrite <- He'. symmetry. eapply take_eq_lookup; [exact Htake|lia].
Qed.

Lemma send_inv s i ld j n n' es :
  inv s -> p_lead s (p_term s i) = Some ld -> ld_id ld = i -> j <> i ->
  p_hints s (p_term s i) j n -> n <= S n' -> n' <= length (ld_log ld) ->
  es `prefix_of` drop n' (ld_log ld) -> (es = [] -> length (ld_start ld) < n') ->
  inv (send (mkAppend (p_term s i) j n' (last_term (take n' (ld_log ld))) es (p_commit s i)) s).
Proof.
  intros Hinv Hl Hid Hj Hh Hn Hn' Hes Hempty. set (m := mkAppend _ _ _ _ _ _).
  assert (evolves s (send m s)) as Hev.
  { split; [by apply grows_same|done|done|done|by intros v' t' k|by auto]. }
  eapply inv_same_logs; [done|done|done|done|by auto|by auto|by auto|apply Hinv|apply Hinv
    |by auto|by auto| |by auto].
  intros m' [Hm| ->]; [by left|right]. exists ld. split; [done|].
  pose proof (ldo_self _ _ _ (inv_lead s Hinv _ _ Hl)) as Hself. rewrite Hid in Hself.
  specialize (Hself eq_refl). destruct (inv_commit s Hinv i) as [Hc Hch]. rewrite Hself in Hc, Hch.
  split; cbn [m m_to m_prev m_prevTerm m_entries m_commit m_term]; [congruence|done..|].
  eapply starts_evolves; [done|done|by eapply starts_up; [|by apply Hinv|]|]. by left.
Qed.

Lemma hint_inv s j n ld :
  inv s -> p_lead s (p_term s j) = Some ld ->
  (forall e, p_log s j !! (n - 1) = Some e -> ld_log ld !! (n - 1) <> Some e) -> 1 <= n ->
  inv (hint (p_term s j) j n s).
Proof.
  intros Hinv Hl Hne Hn. set (s' := hint _ _ _ _).
  assert (evolves s s') as Hev.
  { split; [by apply grows_same|done|done|done|by intros v' t' k|by auto]. }
  eapply inv_same_logs; [done|done|done|done|by auto|by auto|by auto|apply Hinv|apply Hinv
    |by auto| |by auto|by auto].
  intros t' j' n' [Hh|(-> & -> & ->)]; [by left|right]. split; [done|]. exists ld.
  split; [done|]. right. by split; [|right].
Qed.

Lemma set_commit_inv s i c :
  inv s -> c <= length (p_log s i) -> chosen s (p_term s i) (take c (p_log s i)) ->
  inv (set_commit i c s).
Proof.
  intros Hinv Hc Hch. set (s' := set_commit _ _ _).
  assert (evolves s s') as Hev.
  { split; [by apply grows_same|done|done|done|by intros v' t' k|by auto]. }
  eapply inv_same_logs; [done|done|done|done|by auto|by auto|by auto|apply Hinv|apply Hinv
    |by auto|by auto|by auto|].
  intros j. unfold s'. cbn [set_commit p_commit p_log p_term]. rewrite insert_case.
  case_decide; [right|by left]. subst j. split; [done|].
  by eapply (chosen_evolves _ s').
Qed.

Lemma leader_commit_inv s i ld c :
  inv s -> p_lead s (p_term s i) = Some ld -> ld_id ld = i -> stored s (p_term s i) c ->
  inv (set_commit i c s).
Proof.
  intros Hinv Hl Hid Hst. pose proof Hst as (Q & HQ & Hv).
  destruct (quorums Q Q HQ HQ) as (v & HvQ & _).
  destruct (inv_ack s Hinv _ _ _ (Hv v HvQ)) as (_ & (ld' & Hl' & Hk) & _). simplify_eq.
  pose proof (ldo_self _ _ _ (inv_lead s Hinv _ _ Hl)) as Hself.
  apply set_commit_inv; [done|rewrite Hself by done; lia|]. rewrite Hself by done.
  right. by eexists _, c, _.
Qed.

(** *** Appending *)

Lemma wf_app s t ld l es :
  wf s l -> p_lead s t = Some ld -> ld_log ld = l ++ es -> Forall (fun e => tm e = t) es ->
  (forall e, e ∈ l -> (tm e <= t)%N) -> wf s (l ++ es).
Proof.
  intros [W1 W2 W3] Hl Heq Hes Hle. rewrite Forall_lookup in Hes. split.
  - by apply prefix_app_r.
  - intros k e Hk [He|[Hge He]]%lookup_app_Some.
    + destruct (W2 k e Hk He) as (ld' & ? & Hp). exists ld'. split; [done|].
      apply lookup_lt_Some in He. by rewrite take_app_le by lia.
    + rewrite (Hes _ _ He). exists ld. split; [done|]. rewrite Heq. apply take_prefix.
  - intros a b ea eb Hab [Ha|[Hga Ha]]%lookup_app_Some [Hb|[Hgb Hb]]%lookup_app_Some.
    + by eapply W3.
    + rewrite (Hes _ _ Hb). apply Hle. by eapply list_elem_of_lookup_2.
    + apply lookup_lt_Some in Hb. lia.
    + by rewrite (Hes _ _ Ha), (Hes _ _ Hb).
Qed.

(** A step that makes the log of one server a part of the log of its leader. *)
Record one_log s s' i (ld : leadership) : Prop := {
  ol_evolves : evolves s s';
  ol_term : p_term s' = p_term s;
  ol_camp : p_camp s' = p_camp s;
  ol_cand : p_cand s' = p_cand s;
  ol_votes : p_votes s' = p_votes s;
  ol_msgs : p_msgs s' = p_msgs s;
  ol_others j : j <> i -> p_log s' j = p_log s j /\ p_commit s' j = p_commit s j;
  ol_leads t ld' : p_lead s' t = Some ld' -> exists ld0, p_lead s t = Some ld0 /\
    ld_id ld' = ld_id ld0 /\ ld_start ld' = ld_start ld0 /\
    (t <> p_term s i \/ ld_id ld' <> i -> ld' = ld0) /\
    exists es, ld_log ld' = ld_start ld' ++ es /\ Forall (fun e => tm e = t) es;
  ol_lead : p_lead s' (p_term s i) = Some ld;
  ol_wf : wf s' (ld_log ld);
  ol_log : p_log s' i `prefix_of` ld_log ld;
  ol_base : base `prefix_of` p_log s' i;
  ol_self : ld_id ld = i -> p_log s' i = ld_log ld;
  ol_new_acks v t k : p_acks s' v t k -> p_acks s v t k \/
    v = i /\ t = p_term s i /\ length (ld_start ld) < k <= length (p_log s' i);
  ol_kept t k : p_acks s i t k ->
    kept s' (p_log s' i) t k (fun t' => (t' <= p_term s i)%N);
  ol_hints t j n : p_hints s' t j n -> p_hints s t j n \/ t = p_term s i /\ j = i /\ 1 <= n;
  ol_commit : p_commit s' i <= length (p_log s' i) /\
    chosen s' (p_term s i) (take (p_commit s' i) (p_log s' i))
}.

Section OneLog.
Context (s s' : proto) (i : I) (ld : leadership) (Hinv : inv s) (Hol : one_log s s' i ld).

Lemma one_log_clean t j :
  p_term s j = t -> p_log s' j = p_log s j \/
    forall ld, p_lead s' t = Some ld -> p_log s' j `prefix_of` ld_log ld.
Proof.
  intros <-. destruct (decide (j = i)) as [->|Hne]; [right|left; by apply Hol].
  rewrite (ol_lead _ _ _ _ Hol). intros ? [= <-]. apply Hol.
Qed.

Lemma one_log_lead t ld' : p_lead s' t = Some ld' -> lead_ok s' t ld'.
Proof.
  intros Hl'. destruct (ol_leads _ _ _ _ Hol _ _ Hl') as (ld0 & Hl & Hid & Hs & Hsame & Hes).
  pose proof (inv_lead s Hinv _ _ Hl) as Hok. pose proof Hok as [O1 O2 O3 _]. split.
  - by rewrite (ol_camp _ _ _ _ Hol), Hid, Hs.
  - done.
  - rewrite (ol_term _ _ _ _ Hol). intros Ht. destruct (decide (ld_id ld' = i)) as [Hi|Hi].
    + rewrite <- Ht, Hi, (ol_lead _ _ _ _ Hol) in Hl'. injection Hl' as <-. rewrite Hi.
      by apply Hol.
    + rewrite (proj1 (ol_others _ _ _ _ Hol _ Hi)). rewrite (Hsame (or_intror Hi)) in *.
      by apply O3.
  - by eapply quorum_evolves; [|apply Hol|..].
Qed.

Lemma one_log_cand j : p_cand s' j = true -> exists l, p_camp s' (p_term s' j) j = Some l /\
    (p_lead s' (p_term s' j) = None -> l = p_log s' j) /\
    forall ld, p_lead s' (p_term s' j) = Some ld -> ld_id ld <> j.
Proof.
  rewrite (ol_cand _ _ _ _ Hol), (ol_camp _ _ _ _ Hol), (ol_term _ _ _ _ Hol).
  intros Hj. destruct (inv_cand s Hinv _ Hj) as (l & Hc & H1 & H2). exists l. split; [done|].
  split.
  - intros Hn. destruct (decide (j = i)) as [->|Hne].
    + by rewrite (ol_lead _ _ _ _ Hol) in Hn.
    + rewrite (proj1 (ol_others _ _ _ _ Hol _ Hne)). apply H1.
      destruct (p_lead s (p_term s j)) as [ld0|] eqn:Hl; [|done].
      destruct (ev_grows _ _ (ol_evolves _ _ _ _ Hol) _ _ Hl) as (? & ? & _). congruence.
  - intros ld' (ld0 & Hl & -> & _)%(ol_leads _ _ _ _ Hol). by apply H2.
Qed.

Lemma one_log_ack v t k : p_acks s' v t k -> (t <= p_term s' v)%N /\
    (exists ld, p_lead s' t = Some ld /\ length (ld_start ld) < k <= length (ld_log ld)) /\
    kept s' (p_log s' v) t k (fun t' => (t' <= p_term s' v)%N).
Proof.
  pose proof (ol_evolves _ _ _ _ Hol) as Hev. rewrite (ol_term _ _ _ _ Hol).
  intros [Ha|(-> & -> & Hk)]%(ol_new_acks _ _ _ _ Hol).
  - destruct (inv_ack s Hinv _ _ _ Ha) as (Ht & (ld0 & Hl0 & Hk) & Hkept).
    split; [done|]. split.
    + destruct (grows_lead _ _ _ _ (ev_grows _ _ Hev) Hl0) as (ld1 & Hl1 & _ & Hs & Hp).
      exists ld1. rewrite Hs. pose proof (prefix_length _ _ Hp). split; [done|]. lia.
    + destruct (decide (v = i)) as [->|Hne]; [by apply Hol|].
      rewrite (proj1 (ol_others _ _ _ _ Hol _ Hne)).
      eapply (kept_evolves s s'); [done|done|done|done| |done]. done.
  - pose proof (ol_log _ _ _ _ Hol) as Hp. pose proof (prefix_length _ _ Hp).
    pose proof (ol_lead _ _ _ _ Hol) as Hl. split; [done|]. split.
    + exists ld. split; [done|]. lia.
    + left. exists ld. split; [done|]. rewrite <- (prefix_take_eq _ _ _ Hp) by lia.
      apply take_prefix.
Qed.

Lemma one_log_inv : inv s'.
Proof.
  pose proof (ol_evolves _ _ _ _ Hol) as Hev.
  assert (forall l, wf s l -> wf s' l) as Hwf by (intros l; apply wf_grows, Hev).
  assert (wf s' (p_log s' i)) as Hwi by (by eapply wf_prefix; apply Hol).
  split; rewrite ?(ol_term _ _ _ _ Hol), ?(ol_camp _ _ _ _ Hol), ?(ol_votes _ _ _ _ Hol),
    ?(ol_msgs _ _ _ _ Hol).
  - intros j. destruct (decide (j = i)) as [->|Hne]; [done|].
    rewrite (proj1 (ol_others _ _ _ _ Hol _ Hne)). apply Hwf, Hinv.
  - intros j e. destruct (decide (j = i)) as [->|Hne].
    + intros [k He]%list_elem_of_lookup.
      pose proof (prefix_lookup_Some _ _ _ _ He (ol_log _ _ _ _ Hol)) as He'.
      destruct (one_log_lead _ _ (ol_lead _ _ _ _ Hol)) as [Hc (es & Heq & Hes) _ _].
      rewrite (ol_camp _ _ _ _ Hol) in Hc. apply (inv_camp s Hinv) in Hc as (_ & _ & Hlt).
      rewrite Heq in He'. rewrite Forall_lookup in Hlt, Hes.
      apply lookup_app_Some in He' as [He'|[_ He']].
      * pose proof (Hlt _ _ He'). lia.
      * by rewrite (Hes _ _ He').
    + rewrite (proj1 (ol_others _ _ _ _ Hol _ Hne)). apply Hinv.
  - apply one_log_lead.
  - intros t j l Hc. destruct (inv_camp s Hinv _ _ _ Hc) as (? & ? & ?). by auto.
  - intros j. pose proof (one_log_cand j) as Hj.
    rewrite (ol_term _ _ _ _ Hol), (ol_camp _ _ _ _ Hol) in Hj. done.
  - apply Hinv.
  - intros v t j Hv. pose proof (vote_evolves s s' Hinv Hev _ _ _ Hv) as Hv'.
    by rewrite (ol_term _ _ _ _ Hol), (ol_camp _ _ _ _ Hol) in Hv'.
  - intros v t k Ha. pose proof (one_log_ack v t k Ha) as Ha'.
    by rewrite (ol_term _ _ _ _ Hol) in Ha'.
  - intros t j n [Hh|(-> & -> & Hn)]%(ol_hints _ _ _ _ Hol).
    + eapply (starts_evolves s s'); [done|done|by apply Hinv|apply one_log_clean].
    + split; [done|]. exists ld. split; [apply Hol|right]. rewrite (ol_term _ _ _ _ Hol).
      split; [done|]. intros _. left. apply Hol.
  - intros m Hm. destruct (inv_msg s Hinv _ Hm) as (ld0 & Hl0 & Hm0).
    eapply (msg_evolves s s'); [done|done|done|done|apply one_log_clean].
  - intros j. destruct (decide (j = i)) as [->|Hne]; [apply Hol|].
    destruct (ol_others _ _ _ _ Hol _ Hne) as [-> ->].
    destruct (inv_commit s Hinv j) as [Hc Hch]. split; [done|]. by eapply (chosen_evolves s s').
Qed.
End OneLog.

Lemma extend_inv s i ld es :
  inv s -> p_lead s (p_term s i) = Some ld -> ld_id ld = i ->
  Forall (fun e => tm e = p_term s i) es -> inv (extend i ld es s).
Proof.
  intros Hinv Hl Hid Hes. set (s' := extend i ld es s).
  set (ld' := mkLeadership (ld_id ld) (ld_start ld) (ld_log ld ++ es)).
  pose proof (inv_lead s Hinv _ _ Hl) as [O1 (es0 & O2 & O2') O3 _].
  rewrite Hid in O3. specialize (O3 eq_refl).
  assert (forall t, p_lead s' t = if decide (t = p_term s i) then Some ld' else p_lead s t)
    as Hlead by (intros t; apply insert_case).
  assert (forall j, p_log s' j = if decide (j = i) then ld_log ld ++ es else p_log s j)
    as Hlog by (intros j; apply insert_case).
  assert (p_lead s' (p_term s i) = Some ld') as Hl' by (by rewrite Hlead, decide_True).
  assert (p_log s' i = ld_log ld ++ es) as Hli by (by rewrite Hlog, decide_True).
  assert (p_log s i `prefix_of` p_log s' i) as Hpre by (rewrite Hli, O3; by apply prefix_app_r).
  assert (evolves s s') as Hev.
  { split; [|done|done|done|by intros v t k; left|by intros v t k [|(-> & -> & _)]; auto].
    intros t ld0 Hl0. rewrite Hlead. case_decide as Hd.
    - exists ld'. subst t. simplify_eq. split_and!; [done..|]. by exists es.
    - exists ld0. split_and!; [done..|]. exists []. by rewrite app_nil_r. }
  eapply (one_log_inv s s' i ld'); [done|]. split; try done.
  - intros j Hj. by rewrite Hlog, decide_False.
  - intros t ld1. rewrite Hlead. case_decide as Hd.
    + intros [= <-]. subst t. exists ld. split_and!; try done.
      * intros [?|?]; [done|]. by subst.
      * exists (es0 ++ es). cbn [ld' ld_log ld_start]. rewrite O2, <- (assoc_L (++)).
        split; [done|]. by apply Forall_app.
    + intros Hl1. exists ld1. split_and!; try done. apply (inv_lead s Hinv _ _ Hl1).
  - eapply wf_app; [eapply wf_grows; [apply Hev|by eapply lead_wf]|exact Hl'|done|done|].
    intros e [k He]%list_elem_of_lookup. by eapply lead_entry_le.
  - by rewrite Hli.
  - etrans; [|exact Hpre]. apply (inv_log s Hinv i).
  - intros v t k [?|(-> & -> & Hk)]; [by left|right]. by rewrite Hli.
  - intros t k Ha. destruct (inv_ack s Hinv _ _ _ Ha) as (_ & _ & Hkept).
    eapply (kept_evolves s s'); [done|done|done|done| |done]. done.
  - by left.
  - destruct (inv_commit s Hinv i) as [Hc Hch]. pose proof (prefix_length _ _ Hpre).
    change (p_commit s' i) with (p_commit s i). split; [lia|].
    rewrite <- (prefix_take_eq _ _ _ Hpre) by done. by eapply (chosen_evolves s s').
Qed.

(** *** Storing *)

Section Store.
Context (s : proto) (m : append) (ld : leadership) (Hinv : inv s).
Let j := m_to m.
Let l := p_log s j.
Let l' := merge l (m_prev m) (m_entries m).
Let n := m_prev m + length (m_entries m).
Context (Hl : p_lead s (m_term m) = Some ld) (Hm : msg_ok s m ld)
  (Ht : p_term s j = m_term m) (Hprev : prev_matches l m).

Lemma store_merge :
  l' = l /\ take n l = take n (ld_log ld) \/
  l' = take n (ld_log ld) /\ exists q, q < n /\ l !! q <> ld_log ld !! q.
Proof.
  pose proof (inv_log s Hinv j) as Hw. pose proof (lead_wf s Hinv _ _ Hl) as HwL.
  destruct (merge_spec l (ld_log ld) (m_prev m) (m_entries m) (wf_matches _ _ _ Hw HwL)) as [?|(? & q & ? & ?)].
  - eapply prev_matches_take; [by eapply wf_matches|done|apply Hm|apply Hm].
  - apply Hm.
  - apply Hm.
  - by left.
  - right. split; [done|]. exists q. split; [lia|done].
Qed.

Lemma store_bound : n <= length (ld_log ld).
Proof.
  pose proof (prefix_length _ _ (mo_entries _ _ _ Hm)) as Hle. rewrite length_drop in Hle.
  pose proof (mo_prev _ _ _ Hm). unfold n. lia.
Qed.

Lemma store_take : take n l' = take n (ld_log ld).
Proof.
  destruct store_merge as [[-> ?]|[-> _]]; [done|]. by rewrite take_take, Nat.min_id.
Qed.

(** Afterwards the follower is a copy of the leader. *)
Lemma store_clean : l' `prefix_of` ld_log ld.
Proof.
  destruct store_merge as [[-> Htake]|[-> _]]; [|apply take_prefix].
  pose proof store_bound as Hb.
  assert (forall k, k < n -> length (ld_start ld) <= k -> l `prefix_of` ld_log ld) as Hterm.
  { intros k Hk Hs. destruct (lookup_lt_is_Some_2 (ld_log ld) k) as [e He]; [lia|].
    eapply (log_clean s Hinv _ _ j k e); [done|done| |by eapply lead_entry_term].
    rewrite <- He. eapply take_eq_lookup; [exact Htake|done]. }
  destruct (decide (m_entries m = [])) as [Hes|Hes].
  { pose proof (mo_empty _ _ _ Hm Hes). apply (Hterm (m_prev m - 1)); [|lia].
    unfold n. rewrite Hes. simpl. lia. }
  assert (m_prev m < n) as Hlt by (unfold n; destruct (m_entries m); [done|simpl; lia]).
  destruct (mo_starts _ _ _ Hm) as (_ & ld0 & Hl0 & Hst). rewrite Hl in Hl0. injection Hl0 as <-.
  destruct Hst as [Hs|[_ Hst]]; [apply (Hterm (m_prev m)); lia|].
  destruct (Hst Ht) as [?|Hne]; [done|]. exfalso.
  destruct (lookup_lt_is_Some_2 (ld_log ld) (m_prev m)) as [e He]; [lia|].
  cbn [Nat.sub] in Hne. rewrite Nat.sub_0_r in Hne. apply (Hne e); [|done].
  rewrite <- He. eapply take_eq_lookup; [exact Htake|done].
Qed.

(** What the follower shares with the leader stays. *)
Lemma store_shared lp : lp `prefix_of` l -> lp `prefix_of` ld_log ld -> lp `prefix_of` l'.
Proof.
  intros Hp HpL. destruct store_merge as [[-> _]|[-> (q & Hq & Hne)]]; [done|].
  eapply prefix_cover; [exact HpL|apply take_prefix|]. rewrite length_take.
  pose proof store_bound. destruct (le_lt_dec (length lp) q); [lia|]. exfalso. apply Hne.
  by rewrite <- (prefix_lookup_in lp l), <- (prefix_lookup_in lp (ld_log ld)).
Qed.

Lemma store_kept t k :
  p_acks s j t k -> kept s l' t k (fun t' => (t' <= p_term s j)%N).
Proof.
  intros Ha. destruct (inv_ack s Hinv _ _ _ Ha) as (Hle & (ld0 & Hl0 & Hk) & [Hc|?]); [|by right].
  destruct Hc as (ld1 & Hl1 & Hp). simplify_eq.
  destruct (decide (t = m_term m)) as [->|Hne].
  - left. exists ld0. split; [done|]. simplify_eq. apply store_shared; [done|apply take_prefix].
  - destruct (decide (take k (ld_log ld0) `prefix_of` ld_start ld)) as [Hin|Hout].
    + left. exists ld0. split; [done|]. apply store_shared; [done|].
      etrans; [exact Hin|by eapply lead_start_log].
    + right. exists (m_term m). rewrite Ht in Hle |- *. split_and!; [lia|done|]. by exists ld, ld0.
Qed.

(** What is committed stays. *)
Lemma store_committed T lp :
  (T <= m_term m)%N -> lp `prefix_of` l -> chosen s T lp -> lp `prefix_of` l'.
Proof.
  intros HT Hp Hch. apply store_shared; [done|].
  destruct Hch as [Hb|(t & k & ld0 & Htt & Hst & Hl0 & Hpre)].
  - etrans; [exact Hb|]. by eapply wf_base, lead_wf.
  - etrans; [exact Hpre|]. destruct (decide (t = m_term m)) as [->|Hne].
    + simplify_eq. apply take_prefix.
    + etrans; [eapply (leader_complete s t k ld0 (m_term m) ld); [done|done|done|lia|done]|].
      by eapply lead_start_log.
Qed.
End Store.

Lemma store_inv s ld m c :
  inv s -> p_msgs s m -> p_term s (m_to m) = m_term m -> p_lead s (m_term m) = Some ld ->
  prev_matches (p_log s (m_to m)) m ->
  c = p_commit s (m_to m) \/
  c <= m_commit m /\ c <= length (merge (p_log s (m_to m)) (m_prev m) (m_entries m)) ->
  inv (store ld m c s).
Proof.
  intros Hinv Hm Ht Hl Hprev Hc. set (s' := store ld m c s). set (j := m_to m).
  set (l' := merge (p_log s j) (m_prev m) (m_entries m)).
  destruct (inv_msg s Hinv _ Hm) as (ld0 & Hl0 & Hok). rewrite Hl in Hl0. injection Hl0 as <-.
  pose proof (store_clean s m ld Hinv Hl Hok Ht Hprev) as Hclean. fold j l' in Hclean.
  pose proof (store_take s m ld Hinv Hl Hok Ht Hprev) as Htake. fold j l' in Htake.
  pose proof (store_bound s m ld Hok Ht) as Hn.
  assert (forall i, p_log s' i = if decide (i = j) then l' else p_log s i)
    as Hlog by (intros i; apply insert_case).
  assert (p_log s' j = l') as Hlj by (by rewrite Hlog, decide_True).
  assert (evolves s s') as Hev.
  { split; [by apply grows_same|done|done|done|by intros v t k; left|].
    intros v t k [|(-> & -> & _)]; auto. }
  eapply (one_log_inv s s' j ld); [done|]. split; try done; rewrite ?Hlj, ?Ht.
  - intros i Hi. rewrite Hlog, decide_False by done. split; [done|].
    unfold s'. cbn [store p_commit]. by rewrite insert_case, decide_False.
  - intros t ld' Hl'. exists ld'. split_and!; try done. apply (inv_lead s Hinv _ _ Hl').
  - fold j in Ht. by rewrite Ht.
  - eapply wf_grows; [apply Hev|by eapply lead_wf].
  - exact Hclean.
  - eapply (store_committed s m ld Hinv Hl Hok Ht Hprev (m_term m)); [done|apply Hinv|by left].
  - intros Hid. by destruct (mo_to _ _ _ Hok).
  - fold j in Ht. rewrite Ht. intros v t k [?|(-> & -> & Hk)]; [by left|right].
    split_and!; [done|done|lia|]. apply (f_equal length) in Htake. rewrite !length_take in Htake. lia.
  - intros t k Ha. by eapply (store_kept s m ld Hinv Hl Hok Ht Hprev).
  - fold j in Ht. rewrite Ht. intros t i n [?|?]; auto.
  - assert (p_commit s' j = c) as -> by apply fn_lookup_insert.
    destruct (inv_commit s Hinv j) as [Hcj Hch]. destruct Hc as [->|[Hc1 Hc2]].
    + assert (take (p_commit s j) (p_log s j) `prefix_of` l') as Hp.
      { eapply (store_committed s m ld Hinv Hl Hok Ht Hprev (p_term s j)); [|apply take_prefix|done].
        by rewrite <- Ht. }
      pose proof (prefix_length _ _ Hp) as Hlen. rewrite length_take in Hlen.
      change (p_commit s (m_to m)) with (p_commit s j). split; [lia|].
      eapply (chosen_evolves s s'); [done|done| |exact Hch].
      rewrite <- (prefix_take_eq _ _ (p_commit s j) Hp) by (rewrite length_take; lia).
      by rewrite take_take, Nat.min_id.
    + split; [done|]. destruct (mo_commit _ _ _ Hok) as [Hcl Hcc]. fold j in Ht. rewrite Ht.
      eapply (chosen_evolves s s'); [done|done| |exact Hcc].
      rewrite (prefix_take_eq _ _ _ Hclean Hc2). by apply take_prefix_le.
Qed.

Lemma step_inv s s' : inv s -> proto_step s s' -> inv s'.
Proof.
  intros Hinv Hs. destruct Hs.
  - by apply raise_inv.
  - by apply campaign_inv.
  - by eapply vote_inv.
  - by eapply win_inv.
  - by apply extend_inv.
  - by eapply send_inv.
  - by eapply hint_inv.
  - by apply store_inv.
  - by eapply leader_commit_inv.
  - apply set_commit_inv; [done|lia|]. left. apply prefix_nil.
Qed.

(** ** Executions *)

Lemma step_grows s s' : inv s -> proto_step s s' -> grows s s' /\ more_acks s s'.
Proof.
  intros Hinv Hs. pose proof (step_inv _ _ Hinv Hs) as Hinv'. destruct Hs as
    [| | |i Q Hi HQ Hv|i ld es Hl Hid Hes| | | | |];
    try (split; [by apply grows_same|intros v' t' k'; simpl; tauto]).
  - split; [|intros v' t' k'; simpl; tauto]. intros t ld Hl.
    assert (t <> p_term s i) as Hne.
    { intros ->. destruct (inv_cand s Hinv _ Hi) as (_ & _ & _ & Hnot). apply (Hnot ld Hl).
      destruct (inv_lead s Hinv _ _ Hl) as [_ _ _ (Q' & HQ' & Hv')].
      destruct (quorums Q Q' HQ HQ') as (v & H1 & H2).
      eapply (inv_vote_unique s Hinv); [by apply Hv'|by apply Hv]. }
    exists ld. cbn [win p_lead]. rewrite insert_case, decide_False by done.
    split_and!; [done..|]. exists []. by rewrite app_nil_r.
  - split; [|intros v' t' k'; simpl; tauto]. intros t ld0 Hl0. cbn [extend p_lead].
    rewrite insert_case. case_decide as Hd.
    + subst t. simplify_eq. eexists. split_and!; [done..|]. by exists es.
    + exists ld0. split_and!; [done..|]. exists []. by rewrite app_nil_r.
Qed.

Lemma steps_inv s s' : inv s -> rtc proto_step s s' -> inv s'.
Proof. intros Hinv. induction 1 as [|s1 s2 s3 Hs _ IH]; [done|]. by apply IH, (step_inv s1). Qed.

(** What is committed stays committed. *)
Lemma steps_chosen s s' T l : inv s -> rtc proto_step s s' -> chosen s T l -> chosen s' T l.
Proof.
  intros Hinv Hrtc. revert Hinv. induction Hrtc as [|s1 s2 s3 Hs _ IH]; [done|].
  intros Hinv Hc. destruct (step_grows _ _ Hinv Hs). apply IH; [by eapply step_inv|].
  by eapply chosen_grows.
Qed.

(** The beginning: every server has the log [base]. *)
Record initially s : Prop := {
  in_log i : p_log s i = base;
  in_sorted : sorted base;
  in_term i e : e ∈ base -> (tm e <= p_term s i)%N;
  in_commit i : p_commit s i <= length base;
  in_cand i : p_cand s i = false;
  in_votes v t i : ~ p_votes s v t i;
  in_camp t i : p_camp s t i = None;
  in_lead t : p_lead s t = None;
  in_acks v t k : ~ p_acks s v t k;
  in_hints t j n : ~ p_hints s t j n;
  in_msgs m : ~ p_msgs s m
}.

Lemma initially_inv s : initially s -> inv s.
Proof.
  intros [I1 I2 I3 I4 I5 I6 I7 I8 I9 I10 I11]. split.
  - intros i. rewrite I1. split; [done| |done]. intros k e Hk He.
    apply lookup_lt_Some in He. lia.
  - intros i e. rewrite I1. apply I3.
  - intros t ld. by rewrite I8.
  - intros t i l. by rewrite I7.
  - intros i. by rewrite I5.
  - intros v t i i' Hv. by destruct (I6 v t i).
  - intros v t i Hv. by destruct (I6 v t i).
  - intros v t k Hv. by destruct (I9 v t k).
  - intros t j n Hv. by destruct (I10 t j n).
  - intros m Hv. by destruct (I11 m).
  - intros i. rewrite I1. split; [done|]. left. apply take_prefix.
Qed.

(** Log matching. *)
Lemma inv_matching s i j k e e' :
  inv s -> p_log s i !! k = Some e -> p_log s j !! k = Some e' -> tm e = tm e' ->
  take (S k) (p_log s i) = take (S k) (p_log s j).
Proof. intros Hinv He He' Ht. by eapply wf_matching; [apply Hinv|apply Hinv|..]. Qed.

(** State machine safety: what is committed on two servers, at two times, agrees. *)
Lemma committed_agree s s' i j k :
  inv s -> rtc proto_step s s' -> k < p_commit s i -> k < p_commit s' j ->
  p_log s i !! k = p_log s' j !! k.
Proof.
  intros Hinv Hrtc Hi Hj. pose proof (steps_inv _ _ Hinv Hrtc) as Hinv'.
  destruct (inv_commit s Hinv i) as [Hli Hci]. destruct (inv_commit s' Hinv' j) as [Hlj Hcj].
  pose proof (steps_chosen _ _ _ _ Hinv Hrtc Hci) as Hci'.
  rewrite <- (lookup_take_lt (p_log s i) (p_commit s i)) by done.
  rewrite <- (lookup_take_lt (p_log s' j) (p_commit s' j)) by done.
  destruct (chosen_total _ _ _ _ _ Hinv' Hci' Hcj) as [Hp|Hp].
  - rewrite (prefix_lookup_in _ _ _ Hp); [done|]. rewrite length_take. lia.
  - symmetry. rewrite (prefix_lookup_in _ _ _ Hp); [done|]. rewrite length_take. lia.
Qed.

(** Leader completeness. *)
Lemma committed_led s s' i j k ld :
  inv s -> rtc proto_step s s' -> k < p_commit s i ->
  p_lead s' (p_term s' j) = Some ld -> ld_id ld = j -> (p_term s i <= p_term s' j)%N ->
  p_log s i !! k = p_log s' j !! k.
Proof.
  intros Hinv Hrtc Hi Hl Hid Ht. pose proof (steps_inv _ _ Hinv Hrtc) as Hinv'.
  destruct (inv_commit s Hinv i) as [Hli Hci].
  pose proof (steps_chosen _ _ _ _ Hinv Hrtc Hci) as Hci'.
  pose proof (chosen_led _ _ _ _ _ Hinv' Hci' Ht Hl) as Hp.
  pose proof (ldo_self _ _ _ (inv_lead _ Hinv' _ _ Hl)) as Hself. rewrite Hid in Hself.
  rewrite (Hself eq_refl), <- (prefix_lookup_in _ _ k Hp).
  - by rewrite lookup_take_lt.
  - rewrite length_take. lia.
Qed.

(** ** The part of one server *)

(** A step of the server [i] changes nothing of the other servers, and takes nothing
    back. *)
Record others i s s' : Prop := {
  ot_same j : j <> i -> p_term s' j = p_term s j /\ p_log s' j = p_log s j /\
    p_commit s' j = p_commit s j /\ p_cand s' j = p_cand s j;
  ot_votes v t c : p_votes s' v t c -> p_votes s v t c \/ v = i;
  ot_voted v t c : p_votes s v t c -> p_votes s' v t c;
  ot_camp t j l : p_camp s t j = Some l -> p_camp s' t j = Some l;
  ot_lead t ld : p_lead s t = Some ld -> ld_id ld <> i -> p_lead s' t = Some ld;
  ot_grows t ld : p_lead s t = Some ld -> exists ld', p_lead s' t = Some ld' /\
    ld_id ld' = ld_id ld /\ ld_start ld' = ld_start ld /\ ld_log ld `prefix_of` ld_log ld';
  ot_acks v t k : p_acks s v t k -> p_acks s' v t k;
  ot_hints t j n : p_hints s t j n -> p_hints s' t j n;
  ot_msgs m : p_msgs s m -> p_msgs s' m
}.

#[global] Instance others_preorder i : PreOrder (others i).
Proof.
  split.
  - intros s. split; try done; [by left|]. intros t ld Hl. by exists ld.
  - intros s1 s2 s3 [A1 A2 A3 A4 A5 A6 A7 A8 A9] [B1 B2 B3 B4 B5 B6 B7 B8 B9]. split.
    + intros j Hj. destruct (A1 j Hj) as (<- & <- & <- & <-). by apply B1.
    + intros v t c Hv. destruct (B2 _ _ _ Hv); auto.
    + auto.
    + auto.
    + intros t ld Hl Hid. by apply B5; [apply A5|].
    + intros t ld Hl. destruct (A6 _ _ Hl) as (ld1 & H1 & H2 & H3 & H4).
      destruct (B6 _ _ H1) as (ld2 & H5 & H6 & H7 & H8). exists ld2.
      split_and!; [done|congruence|congruence|by etrans].
    + auto.
    + auto.
    + auto.
Qed.

#[local] Ltac untouched :=
  split; simpl; try tauto; try (intros j Hj; by rewrite ?insert_case, ?decide_False by done);
  try (intros ? x ?; by exists x).

Lemma others_raise i t s : others i s (raise i t s).
Proof.
  split; simpl; try tauto; [|intros t' ld Hl; by exists ld].
  intros j Hj. case_decide; by rewrite ?insert_case, ?decide_False.
Qed.

Lemma others_campaign i s : p_camp s (p_term s i) i = None -> others i s (campaign i s).
Proof.
  intros Hc. untouched. intros t j l Hl. rewrite insert_case. case_decide as Ht; [|done].
  subst t. rewrite insert_case. case_decide as Hj; [|done]. subst j. congruence.
Qed.

Lemma others_vote v t c s : others v s (cast_for v t c s).
Proof. untouched. Qed.

Lemma others_win i Q s :
  inv s -> p_cand s i = true -> quorum Q -> (forall v, v ∈ Q -> p_votes s v (p_term s i) i) ->
  others i s (win i s).
Proof.
  intros Hinv Hi HQ Hv. destruct (step_grows s (win i s) Hinv) as [Hg _]; [by eapply p_win|].
  assert (forall t ld, p_lead s t = Some ld -> t <> p_term s i) as Hne.
  { intros t ld Hl ->. destruct (inv_cand s Hinv _ Hi) as (_ & _ & _ & Hnot). apply (Hnot ld Hl).
    destruct (inv_lead s Hinv _ _ Hl) as [_ _ _ (Q' & HQ' & Hv')].
    destruct (quorums Q Q' HQ HQ') as (v & H1 & H2).
    eapply (inv_vote_unique s Hinv); [by apply Hv'|by apply Hv]. }
  untouched.
  - intros t ld Hl _. rewrite insert_case, decide_False; [done|by eapply Hne].
  - intros t ld Hl. exists ld. rewrite insert_case, decide_False; [done|by eapply Hne].
Qed.

Lemma others_extend i ld es s :
  p_lead s (p_term s i) = Some ld -> ld_id ld = i -> others i s (extend i ld es s).
Proof.
  intros Hl Hid. untouched.
  - intros t ld' Hl' Hid'. rewrite insert_case. case_decide as Ht; [|done]. subst t. congruence.
  - intros t ld' Hl'. rewrite insert_case. case_decide as Ht; [|by exists ld'].
    subst t. simplify_eq. eexists. split_and!; [done..|]. by exists es.
Qed.

Lemma others_send i m s : others i s (send m s).
Proof. untouched. Qed.

Lemma others_hint i t j n s : others i s (hint t j n s).
Proof. untouched. Qed.

Lemma others_store ld m c s : others (m_to m) s (store ld m c s).
Proof. untouched. Qed.

Lemma others_set_commit i c s : others i s (set_commit i c s).
Proof. untouched. Qed.
End Protocol.
End Proto.
