(* ===== verification/Logs.v ===== *)
(** * What the steps of a server do to its log

    [still]: the log, the cached positions of its last entry and of the snapshot,
    and the commit index stay.  Every handler but the ones for the entries of a
    leader is [still], and so is every case of the leader's loop but the ones that
    append and commit; those are described on lists. *)
From S2P Require Import Prelude Types Util Codec Configuration Config Commitment Stores State Elections AppendEntries SnapshotStores Snapshot Fsm Replication Leader Api Server Advance Protocol.

Create HintDb still.

(** [hold] follows a computation down to steps that are known to be [still]. *)
Ltac hold :=
  repeat first
    [ progress intros
    | solve [eauto 3 with still]
    | apply frames_bind; [apply _| |]
    | apply frames_returns; apply _
    | apply frames_panic; apply _
    | apply frames_get; apply _
    | case_match ].

(** ** Steps that leave the log alone *)

Section Still.
Context {L K SN : Type} `{LogStore L} `{StableStore K} `{SnapshotStore SN} `{MsgPack}
  `{PeerCodec}.
Abbreviation raft := (Raft L K SN).
Abbreviation lraft := (LeaderRaft L K SN).
Implicit Types r : raft.

Definition log_part r : L * (N * N) * (N * N) * N :=
  (logs r, getLastLog (raft_state r), getLastSnapshot (raft_state r),
   commitIndex (raft_state r)).

Definition still r r' : Prop := log_part r' = log_part r.

#[export] Instance still_preorder : PreOrder still.
Proof. split; [intros r; done|intros r1 r2 r3; unfold still; congruence]. Qed.

(** How far the followers of a leader are: the commitment, and for each routine its
    term, the next index and the peer. *)
Definition routine (s : followerReplication) : N * N * ServerID :=
  (fr_currentTerm s, fr_nextIndex s, ID (fr_peer s)).

Definition progress_of (l : leaderState)
    : gmap ServerID N * N * N * gmap ServerID (N * N * ServerID) :=
  (matchIndexes (ls_commitment l), c_commitIndex (ls_commitment l),
   startIndex (ls_commitment l), routine <$> replState l).

Definition lstill (lr lr' : lraft) : Prop :=
  still (lr_raft lr) (lr_raft lr') /\ progress_of (lr_leader lr') = progress_of (lr_leader lr).

#[export] Instance lstill_preorder : PreOrder lstill.
Proof.
  split; unfold lstill; [intros lr; split; done|].
  intros lr1 lr2 lr3 [H1' H2'] [H3' H4']. split; [by etrans|congruence].
Qed.

Lemma routine_fmap (f : followerReplication -> followerReplication)
    (m : gmap ServerID followerReplication) :
  (forall s, routine (f s) = routine s) -> routine <$> (f <$> m) = routine <$> m.
Proof. intros Hf. rewrite <- map_fmap_compose. apply map_fmap_ext. intros. apply Hf. Qed.

Lemma still_modify (f : raft -> raft) : (forall r, still r (f r)) -> frames still (modify f).
Proof. intros Hf r. apply Hf. Qed.

Lemma still_on_raft {A} (m : M raft A) : frames still m -> frames lstill (on_raft m).
Proof. intros Hm lr. unfold on_raft. specialize (Hm (lr_raft lr)). by destruct (m _). Qed.

Lemma lstill_modify_leader f :
  (forall l, progress_of (f l) = progress_of l) -> frames lstill (modify_leader f : M lraft _).
Proof. intros Hf lr. split; simpl; [reflexivity|apply Hf]. Qed.

Lemma lstill_get_raft : frames lstill (get_raft : M lraft _).
Proof. by intros lr. Qed.

Lemma lstill_get_leader : frames lstill (get_leader : M lraft _).
Proof. by intros lr. Qed.

Lemma still_observe o : frames still (observe o : M raft _).
Proof. by intros r. Qed.

Lemma still_respond f err : frames still (respond f err : M raft _).
Proof. intros r. by rewrite respond_eq. Qed.

Lemma still_respond_all fs err : frames still (respond_all fs err : M raft _).
Proof. intros r. by rewrite respond_all_eq. Qed.

Lemma still_setLeader addr id : frames still (setLeader addr id : M raft _).
Proof. intros r. by rewrite setLeader_eq. Qed.

Lemma still_setState s : frames still (setState s : M raft _).
Proof. intros r. by rewrite setState_eq. Qed.

Lemma still_setCurrentTerm t : frames still (setCurrentTerm t : M raft _).
Proof. intros r. unfold setCurrentTerm. by destruct (SetUint64 _ _ _) as [k [e|]]. Qed.

Lemma still_persistVote t c : frames still (persistVote t c : M raft _).
Proof.
  intros r. unfold persistVote. destruct (SetUint64 _ _ _) as [k [e|]]; [done|].
  by destruct (Set_ _ _ _) as [k2 [e|]].
Qed.

Lemma still_processLogs index fs : frames still (processLogs index fs : M raft _).
Proof.
  intros r. pose proof (processLogs_keeps index fs r) as Hk.
  destruct (processLogs index fs r); exact (f_equal log_part Hk).
Qed.

#[local] Hint Resolve still_on_raft lstill_get_raft lstill_get_leader still_observe
  still_respond still_respond_all still_setLeader still_setState still_setCurrentTerm
  still_persistVote still_processLogs : still.
#[local] Hint Extern 1 (frames still (modify _)) => apply still_modify; by intros : still.
#[local] Hint Extern 1 (frames lstill (modify_leader _)) =>
  apply lstill_modify_leader; intros; unfold progress_of; simpl;
  by rewrite ?routine_fmap : still.

Lemma still_setLatestConfiguration c i : frames still (setLatestConfiguration c i : M raft _).
Proof. unfold setLatestConfiguration. hold. Qed.

Lemma still_setCommittedConfiguration c i :
  frames still (setCommittedConfiguration c i : M raft _).
Proof. unfold setCommittedConfiguration. hold. Qed.

Lemma still_Shutdown : frames still (Shutdown_ : M raft _).
Proof. unfold Shutdown_. hold. Qed.

#[local] Hint Resolve still_setLatestConfiguration still_setCommittedConfiguration
  still_Shutdown : still.

(** *** Elections *)

Lemma still_encode_latest_peers : frames still (encode_latest_peers : M raft _).
Proof.
  intros r. unfold encode_latest_peers. case_decide; [|done]. by destruct (encodePeers _).
Qed.

#[local] Hint Resolve still_encode_latest_peers : still.

Lemma still_requestVote now req : frames still (requestVote now req : M raft _).
Proof. unfold requestVote, setLastContact. hold. Qed.

Lemma still_requestPreVote req : frames still (requestPreVote req : M raft _).
Proof. unfold requestPreVote. hold. Qed.

Lemma still_timeoutNow req : frames still (timeoutNow req : M raft _).
Proof. unfold timeoutNow. hold. Qed.

Lemma still_electSelf_loop req servers asked ch :
  frames still (electSelf_loop req servers asked ch : M raft _).
Proof.
  revert asked ch. induction servers as [|s servers IH]; intros asked ch; [apply frames_returns; apply _|].
  intros r. cbn [electSelf_loop]. repeat case_decide; try apply IH.
  match goal with |- match ?m r with _ => _ end =>
    assert (frames still m) as Hm by hold; exact (Hm r) end.
Qed.

#[local] Hint Resolve still_electSelf_loop : still.

Lemma still_electSelf : frames still (electSelf : M raft _).
Proof. unfold electSelf. hold. Qed.

#[local] Hint Resolve still_electSelf : still.

Lemma still_candidate_preVote c v : frames still (candidate_preVote c v : M raft _).
Proof. unfold candidate_preVote. cbv zeta. hold. Qed.

Lemma still_candidate_vote c v : frames still (candidate_vote c v : M raft _).
Proof. unfold candidate_vote. hold. Qed.

Lemma still_runCandidate_start : frames still (runCandidate_start : M raft _).
Proof. unfold runCandidate_start. hold. Qed.

Lemma still_heartbeatTimeout now : frames still (follower_heartbeatTimeout now : M raft _).
Proof. unfold follower_heartbeatTimeout. hold. Qed.

Lemma still_leave_follower b : frames still (leave_follower b : M raft _).
Proof. unfold leave_follower. hold. Qed.

Lemma still_leave_candidate c : frames still (leave_candidate c : M raft _).
Proof. unfold leave_candidate, runCandidate_return. hold. Qed.

(** *** The leader's loop *)

Lemma lstill_leader_verify v f : frames lstill (leader_verify v f : M lraft _).
Proof. unfold leader_verify, verifyLeader, forget_verify. hold. Qed.

Lemma lstill_leader_lease now : frames lstill (leader_lease now : M lraft _).
Proof. unfold leader_lease, checkLeaderLease. hold. Qed.

Lemma lstill_leader_transfer id address : frames lstill (leader_transfer id address : M lraft _).
Proof. unfold leader_transfer. hold. Qed.

#[local] Hint Resolve lstill_leader_verify lstill_leader_lease lstill_leader_transfer : still.

(** The events of a leader that change neither its log nor what it knows of its
    followers. *)
Definition leader_idle (ev : event) : bool :=
  match ev with
  | ev_rpc _ | ev_apply _ _ | ev_commit | ev_configurationChange _ _ | ev_userRestore _ _ => false
  | _ => true
  end.

Lemma leader_case_lstill env sd lr ev m :
  leader_idle ev = true -> leader_case env sd lr ev = Some m -> frames lstill m.
Proof.
  intros Hi Hm. destruct ev; try done; simplify_eq/=; unfold unless_transferring; hold.
Qed.

(** Starting and stopping routines. *)
Definition rstill (lr lr' : lraft) : Prop := still (lr_raft lr) (lr_raft lr').

#[export] Instance rstill_preorder : PreOrder rstill.
Proof. split; unfold rstill; [intros lr; reflexivity|]. intros lr1 lr2 lr3 H1' H2'. by etrans. Qed.

Lemma rstill_on_raft {A} (m : M raft A) : frames still m -> frames rstill (on_raft m).
Proof. intros Hm lr. unfold on_raft. specialize (Hm (lr_raft lr)). by destruct (m _). Qed.

Lemma rstill_modify_leader f : frames rstill (modify_leader f : M lraft _).
Proof. by intros lr. Qed.

Lemma rstill_get_raft : frames rstill (get_raft : M lraft _).
Proof. by intros lr. Qed.

Lemma rstill_get_leader : frames rstill (get_leader : M lraft _).
Proof. by intros lr. Qed.

#[local] Hint Resolve rstill_on_raft rstill_modify_leader rstill_get_raft rstill_get_leader : still.

Lemma rstill_start_replication now lastIdx servers :
  frames rstill (start_replication now lastIdx servers : M lraft _).
Proof. induction servers; cbn [start_replication]; hold. Qed.

Lemma rstill_stop_replication lastIdx gone :
  frames rstill (stop_replication lastIdx gone : M lraft _).
Proof. induction gone as [|[]]; cbn [stop_replication]; hold. Qed.

#[local] Hint Resolve rstill_start_replication rstill_stop_replication : still.

Lemma rstill_startStopReplication now : frames rstill (startStopReplication now : M lraft _).
Proof. unfold startStopReplication. hold. Qed.

Lemma still_leave_leader now sd vs (lr : lraft) ro r' :
  leave_leader now sd vs lr = Done ro r' ->
  still (lr_raft lr) r' /\
  (ro = in_run /\ state (raft_state (lr_raft lr)) <> Leader \/
   ro = in_leader (lr_leader lr) sd vs /\ r' = lr_raft lr /\
   state (raft_state r') = Leader).
Proof.
  unfold leave_leader. case_decide; [intros [= <- <-]; split; [reflexivity|by auto]|].
  destruct (runLeader_return now vs lr) as [u r1|r1] eqn:HE; [|done]. intros [= <- <-].
  split; [|by left]. unfold runLeader_return in HE.
  match type of HE with ?m _ = _ =>
    assert (frames still m) as Hq by (unfold setLastContact; hold) end.
  exact (frames_Done _ _ _ _ _ Hq HE).
Qed.

Lemma leave_leader_total now sd vs (lr : lraft) r' : leave_leader now sd vs lr <> Panicked r'.
Proof.
  unfold leave_leader. case_decide; [done|]. unfold runLeader_return, setLastContact, bind at 1.
  simpl. unfold bind at 1. rewrite respond_all_eq. unfold bind at 1. rewrite respond_all_eq.
  unfold bind, get_state. by case_decide.
Qed.
End Still.

#[export] Hint Resolve still_on_raft lstill_get_raft lstill_get_leader still_observe
  still_respond still_respond_all still_setLeader still_setState still_setCurrentTerm
  still_persistVote still_processLogs still_setLatestConfiguration
  still_setCommittedConfiguration still_Shutdown still_requestVote still_requestPreVote
  still_timeoutNow still_electSelf still_candidate_preVote still_candidate_vote
  still_runCandidate_start still_heartbeatTimeout still_leave_follower
  still_leave_candidate lstill_leader_verify lstill_leader_lease lstill_leader_transfer
  rstill_startStopReplication rstill_on_raft rstill_modify_leader rstill_get_raft
  rstill_get_leader : still.
#[export] Hint Extern 1 (frames still (modify _)) => apply still_modify; by intros : still.
#[export] Hint Extern 1 (frames lstill (modify_leader _)) =>
  apply lstill_modify_leader; intros; unfold progress_of; simpl;
  by rewrite ?routine_fmap : still.

(** ** Logs as lists *)

(** A log store that is used as a list, entry [i] at index [i + 1], and whose writes
    succeed: appending at the end and deleting from an index to the end. *)
Class ListStore (L : Type) `{LogStore L} := {
  holds : L -> list Log -> Prop;
  holds_numbered s l : holds s l -> consecutive_from 1 l;
  holds_GetLog s l i e : holds s l ->
    GetLog s i = Ok e <-> (0 < i)%N /\ l !! pred (N.to_nat i) = Some e;
  holds_LastIndex s l : holds s l -> LastIndex s = Ok (N.of_nat (length l));
  holds_append s l es :
    holds s l -> consecutive_from (N.of_nat (length l) + 1) es -> es <> [] ->
    exists s', StoreLogs s es = (s', None) /\ holds s' (l ++ es);
  holds_truncate s l (n : nat) :
    holds s l -> n < length l -> (N.of_nat (length l) + 1 < u64_size)%N ->
    exists s', DeleteRange s (N.of_nat n + 1) (N.of_nat (length l)) = (s', None) /\
      holds s' (take n l)
}.

(** A stable store whose writes succeed. *)
Class SteadyStore (K : Type) `{StableStore K} := {
  Set_steady k key v : (Set_ k key v).2 = None;
  SetUint64_steady k key v : (SetUint64 k key v).2 = None
}.

(** Entries of the types that are in use: no membership change of the old kind,
    which a follower may fail to decode. *)
Definition plain (e : Log) : Prop :=
  log_Type e <> LogAddPeerDeprecated /\ log_Type e <> LogRemovePeerDeprecated.

Section Lists.
Context {L K SN : Type} `{LogStore L} `{!ListStore L} `{StableStore K} `{SnapshotStore SN}
  `{MsgPack} `{PeerCodec}.
Abbreviation raft := (Raft L K SN).
Implicit Types r : raft.
Implicit Types l : list Log.

Abbreviation merge := (Proto.merge log_Term).
Abbreviation last_term := (Proto.last_term log_Term).

Lemma holds_lookup (s : L) l (k : nat) e :
  holds s l -> l !! k = Some e -> GetLog s (N.of_nat k + 1) = Ok e.
Proof.
  intros Hh He. apply (holds_GetLog s l); [done|]. split; [lia|].
  by replace (pred (N.to_nat (N.of_nat k + 1))) with k by lia.
Qed.

Lemma consecutive_nth i l (k : nat) e :
  consecutive_from i l -> l !! k = Some e -> log_Index e = (i + N.of_nat k)%N.
Proof.
  revert i k. induction l as [|x l IH]; intros i k Hc He; [done|].
  unfold consecutive_from in Hc. cbn [length range] in Hc. rewrite fmap_cons in Hc.
  injection Hc as Hx Hc. destruct k as [|k]; simpl in He; [injection He as <-; lia|].
  rewrite (IH (i + 1)%N k Hc He). lia.
Qed.

Lemma scan_entries_suffix (s : L) n es :
  match scan_entries s n es with
  | scan_failed => True
  | scan_append new | scan_conflict _ new => exists old, es = old ++ new
  end.
Proof.
  pose proof (scan_entries_spec s n es) as Hsc.
  destruct (scan_entries s n es); [done|by destruct Hsc as (old & -> & _); exists old|].
  destruct Hsc as (old & ? & ? & -> & _). by exists old.
Qed.

(** The scan of a request finds where merging replaces the log. *)
Lemma scan_entries_merge (s : L) l (p : nat) es :
  holds s l -> p <= length l -> consecutive_from (N.of_nat p + 1) es ->
  match scan_entries s (N.of_nat (length l)) es with
  | scan_failed => False
  | scan_append new => merge l p es = l ++ new /\
      (new <> [] -> consecutive_from (N.of_nat (length l) + 1) new)
  | scan_conflict from new => exists q, from = (N.of_nat q + 1)%N /\ q < length l /\
      new <> [] /\ consecutive_from (N.of_nat q + 1) new /\ merge l p es = take q l ++ new
  end.
Proof.
  intros Hh. revert p. induction es as [|e es IH]; intros p Hp Hc.
  { simpl. by rewrite app_nil_r. }
  pose proof (consecutive_nth _ _ 0 e Hc eq_refl) as Hi.
  assert (consecutive_from (N.of_nat (S p) + 1) es) as Hc'.
  { pose proof (consecutive_app _ [e] es Hc) as Hc'. simpl in Hc'.
    by replace (N.of_nat (S p) + 1)%N with (N.of_nat p + 1 + 1)%N by lia. }
  cbn [scan_entries Proto.merge]. case_decide as Hlast.
  - assert (p = length l) as -> by lia.
    rewrite (proj2 (lookup_ge_None l (length l))) by done. rewrite take_ge by done. done.
  - destruct (lookup_lt_is_Some_2 l p) as [e' He']; [lia|]. rewrite He'.
    assert (GetLog s (log_Index e) = Ok e') as ->.
    { rewrite Hi. replace (N.of_nat p + 1 + N.of_nat 0)%N with (N.of_nat p + 1)%N by lia.
      by apply (holds_lookup s l). }
    destruct (decide (log_Term e <> log_Term e')) as [Hne|Heq].
    + rewrite decide_False by done. exists p. split_and!; [lia|lia|done|done|done].
    + rewrite decide_True by (by apply dec_stable). apply IH; [lia|done].
Qed.

(** The cached positions of the server are those of the log [l], and there is no
    snapshot. *)
Record positions r l : Prop := {
  pos_log : getLastLog (raft_state r) = (N.of_nat (length l), last_term l);
  pos_snap : getLastSnapshot (raft_state r) = (0, 0)%N
}.

Lemma positions_lastIndex r l : positions r l -> lastLogIndex (raft_state r) = N.of_nat (length l).
Proof. intros [Hl _]. by injection Hl. Qed.

Lemma positions_getLastIndex r l :
  positions r l -> getLastIndex (raft_state r) = N.of_nat (length l).
Proof.
  intros [Hl Hs]. injection Hl as Hi _. injection Hs as Hs _. rewrite getLastIndex_max. lia.
Qed.

Lemma positions_getLastEntry r l :
  positions r l -> getLastEntry (raft_state r) = (N.of_nat (length l), last_term l).
Proof.
  intros [Hl Hs]. injection Hl as Hi Ht. injection Hs as Hs _. unfold getLastEntry.
  rewrite Hi, Ht, Hs. by rewrite decide_True by lia.
Qed.

Lemma still_logs r r' : still r r' -> logs r' = logs r.
Proof. intros Hst. exact (f_equal (fun x => x.1.1.1) Hst). Qed.

Lemma still_last r r' : still r r' -> getLastLog (raft_state r') = getLastLog (raft_state r).
Proof. intros Hst. exact (f_equal (fun x => x.1.1.2) Hst). Qed.

Lemma still_snapshot r r' :
  still r r' -> getLastSnapshot (raft_state r') = getLastSnapshot (raft_state r).
Proof. intros Hst. exact (f_equal (fun x => x.1.2) Hst). Qed.

Lemma still_commit r r' : still r r' -> commitIndex (raft_state r') = commitIndex (raft_state r).
Proof. intros Hst. exact (f_equal snd Hst). Qed.

Lemma still_positions r r' l : still r r' -> positions r l -> positions r' l.
Proof.
  intros Hst [Hl Hs]. split; [by rewrite (still_last _ _ Hst)|by rewrite (still_snapshot _ _ Hst)].
Qed.

(** Plain entries are taken into the configurations or end the process. *)
Lemma processConfiguration_plain es r res r' :
  Forall plain es -> processConfigurationLogEntries es r = Done res r' -> res = None.
Proof.
  intros Hp. revert r. induction Hp as [|e es [H1' H2'] _ IH]; intros r.
  { by intros [= <- _]. }
  cbn [processConfigurationLogEntries]. intros (err & r1 & HE & HC)%bind_Done.
  assert (err = None) as -> by
    (unfold processConfigurationLogEntry, bind, get_state, returns, panic in HE;
     repeat case_match; by simplify_eq).
  by eapply IH.
Qed.

Lemma unconfigured_part r r' : unconfigured r' = unconfigured r -> still r r'.
Proof. intros Hu. exact (f_equal log_part Hu). Qed.

(** Storing new entries at the end of the log. *)
Lemma append_newEntries_lists new r l :
  holds (logs r) l -> getLastSnapshot (raft_state r) = (0, 0)%N -> (new = [] -> positions r l) ->
  (new <> [] -> consecutive_from (N.of_nat (length l) + 1) new) -> Forall plain new ->
  match append_newEntries new r with
  | Done res r' => res = entries_ok /\ holds (logs r') (l ++ new) /\
      positions r' (l ++ new) /\ commitIndex (raft_state r') = commitIndex (raft_state r)
  | Panicked r' => holds (logs r') (l ++ new)
  end.
Proof.
  intros Hh Hsn Hpos Hc Hp. unfold append_newEntries.
  destruct (last new) as [x|] eqn:Hx.
  2:{ apply last_None in Hx. subst. rewrite app_nil_r. by auto. }
  assert (new <> []) as Hne by (by intros ->). specialize (Hc Hne).
  destruct (holds_append _ _ _ Hh Hc Hne) as (s' & -> & Hh').
  unfold bind at 1. set (r1 := with_logs s' r).
  pose proof (processConfigurationLogEntries_keeps new r1) as Hk.
  destruct (processConfigurationLogEntries new r1) as [res r2|r2] eqn:HE.
  2:{ apply unconfigured_part, still_logs in Hk. by rewrite Hk. }
  rewrite (processConfiguration_plain _ _ _ _ Hp HE). apply unconfigured_part in Hk.
  unfold bind, setLastLog, modify, returns. cbn [logs with_raft_state raft_state].
  rewrite (still_logs _ _ Hk). pose proof (still_commit _ _ Hk) as Hcm.
  split_and!; [done|done| |exact Hcm]. split; simpl.
  - pose proof (consecutive_last _ _ _ Hc Hx) as Hxi. rewrite Hxi, length_app.
    unfold getLastLog, Proto.last_term. simpl. rewrite last_app, Hx. simpl. f_equal.
    destruct new; [done|]. cbn [length]. lia.
  - pose proof (still_snapshot _ _ Hk) as Hs. unfold getLastSnapshot in *. simpl in *. congruence.
Qed.

Lemma process_entries_lists es r l (p : nat) :
  holds (logs r) l -> positions r l -> (N.of_nat (length l) + 1 < u64_size)%N ->
  p <= length l -> consecutive_from (N.of_nat p + 1) es -> Forall plain es ->
  match process_entries es r with
  | Done res r' => res = entries_ok /\ holds (logs r') (merge l p es) /\
      positions r' (merge l p es) /\
      commitIndex (raft_state r') = commitIndex (raft_state r)
  | Panicked r' => holds (logs r') (merge l p es)
  end.
Proof.
  intros Hh Hpos Hlt Hp Hc Hpl. unfold process_entries, bind at 1, get_state.
  rewrite (pos_log _ _ Hpos). pose proof (scan_entries_merge _ _ _ _ Hh Hp Hc) as Hs.
  pose proof (scan_entries_suffix (logs r) (N.of_nat (length l)) es) as Hsuf.
  destruct (scan_entries _ _ _) as [|new|from new]; [done|..].
  - destruct Hs as [-> Hnew]. destruct Hsuf as [old ->]. apply Forall_app in Hpl as [_ Hpl].
    apply append_newEntries_lists; [done|apply Hpos|done|done|done].
  - destruct Hs as (q & -> & Hq & Hne & Hnew & ->). destruct Hsuf as [old ->].
    apply Forall_app in Hpl as [_ Hpl].
    destruct (holds_truncate _ _ _ Hh Hq Hlt) as (s' & HD & Hh').
    unfold bind at 1, truncate_suffix. rewrite HD. 
    assert (exists r1, (if decide (N.of_nat q + 1 <= latestIndex (raft_configurations r))%N
      then (setLatestConfiguration (committed (raft_configurations r))
              (committedIndex (raft_configurations r));; returns true)%go (with_logs s' r)
      else Done true (with_logs s' r)) = Done true r1 /\ still (with_logs s' r) r1) as (r1 & -> & Hst).
    { case_decide; (eexists; split; [reflexivity|done]). }
    assert (length (take q l) = q) as Hlen by (rewrite length_take; lia).
    pose proof (append_newEntries_lists new r1 (take q l)) as Ha.
    rewrite (still_logs _ _ Hst), (still_commit _ _ Hst), Hlen in Ha.
    apply Ha; [done| |done|done|done]. rewrite (still_snapshot _ _ Hst).
    apply Hpos.
Qed.

(** The check of the entry before the ones of a request, on the list. *)
Definition prev_ok l (a : AppendEntriesRequest) : Prop :=
  ae_PrevLogEntry a = 0%N \/
  exists e, l !! (N.to_nat (ae_PrevLogEntry a) - 1) = Some e /\
    log_Term e = ae_PrevLogTerm a.

Lemma previous_entry_lists r l a :
  holds (logs r) l -> positions r l -> previous_entry_ok r a = true <-> prev_ok l a.
Proof.
  intros Hh Hpos. unfold previous_entry_ok, prev_ok. case_decide as Hz; [|split; [left; lia|done]].
  rewrite (positions_getLastEntry _ _ Hpos). set (p := ae_PrevLogEntry a) in *.
  destruct (decide (p = N.of_nat (length l))) as [He|Hne].
  - rewrite bool_decide_eq_true. unfold Proto.last_term. rewrite last_lookup.
    replace (N.to_nat p - 1) with (pred (length l)) by lia.
    destruct (lookup_lt_is_Some_2 l (pred (length l))) as [e ->]; [lia|]. simpl. split.
    + intros Ht. right. by exists e.
    + intros [?|(e' & [= <-] & ?)]; [lia|done].
  - replace (N.to_nat p - 1) with (pred (N.to_nat p)) by lia.
    destruct (GetLog (logs r) p) as [e|err] eqn:Hg.
    + apply (holds_GetLog _ _ _ _ Hh) in Hg as [_ Hg]. rewrite Hg, bool_decide_eq_true. split.
      * intros Ht. right. by exists e.
      * intros [?|(e' & [= <-] & ?)]; [lia|done].
    + split; [done|]. intros [?|(e & He & _)]; [lia|].
      assert (GetLog (logs r) p = Ok e) by (apply (holds_GetLog _ _ _ _ Hh); split; [lia|done]).
      congruence.
Qed.

Lemma prev_ok_length l a : prev_ok l a -> N.to_nat (ae_PrevLogEntry a) <= length l.
Proof. intros [->|(e & He & _)]; [lia|]. apply lookup_lt_Some in He. lia. Qed.

Lemma advance_commit_part c r :
  match advance_commit c r with
  | Done _ r' => logs r' = logs r /\ getLastLog (raft_state r') = getLastLog (raft_state r) /\
      getLastSnapshot (raft_state r') = getLastSnapshot (raft_state r) /\
      (commitIndex (raft_state r') = commitIndex (raft_state r) \/
       commitIndex (raft_state r') = min c (getLastIndex (raft_state r)))
  | Panicked r' => logs r' = logs r
  end.
Proof.
  unfold advance_commit, bind at 1, get_state. case_decide; [|split_and!; by auto].
  unfold bind at 1, setCommitIndex, modify.
  match goal with |- context [bind ?m ?f ?s] =>
    assert (frames still (bind m f)) as Hf by hold;
    pose proof (Hf s) as Hs; destruct (bind m f s) as [u r'|r'] end.
  - split_and!; [exact (still_logs _ _ Hs)|exact (still_last _ _ Hs)|exact (still_snapshot _ _ Hs)|].
    right. exact (still_commit _ _ Hs).
  - exact (still_logs _ _ Hs).
Qed.

Definition append_done a r l resp r' : Prop :=
  let l' := merge l (N.to_nat (ae_PrevLogEntry a)) (ae_Entries a) in
  (currentTerm (raft_state r) <= ae_Term a)%N /\ aer_Term resp = ae_Term a /\
  (aer_Success resp = false /\ ~ prev_ok l a /\ still r r' \/
   aer_Success resp = true /\ prev_ok l a /\ holds (logs r') l' /\ positions r' l' /\
   (commitIndex (raft_state r') = commitIndex (raft_state r) \/
    commitIndex (raft_state r') = min (ae_LeaderCommitIndex a) (N.of_nat (length l')))).

Lemma appendEntries_lists now a r l :
  holds (logs r) l -> positions r l -> (N.of_nat (length l) + 1 < u64_size)%N ->
  consecutive_from (ae_PrevLogEntry a + 1) (ae_Entries a) -> Forall plain (ae_Entries a) ->
  match appendEntries now a r with
  | Done (resp, err) r' => err = None /\ aer_LastLog resp = N.of_nat (length l) /\
      ((ae_Term a < currentTerm (raft_state r))%N /\ r' = r /\ aer_Success resp = false /\
       aer_Term resp = currentTerm (raft_state r) \/
       append_done a r l resp r')
  | Panicked r' => (currentTerm (raft_state r) <= ae_Term a)%N /\
      (holds (logs r') l \/
       prev_ok l a /\ holds (logs r') (merge l (N.to_nat (ae_PrevLogEntry a)) (ae_Entries a)))
  end.
Proof.
  intros Hh Hpos Hlt Hc Hp. unfold appendEntries, bind at 1, get_state. cbv zeta.
  rewrite (positions_getLastIndex _ _ Hpos).
  destruct (decide (ae_Term a < currentTerm (raft_state r))%N) as [Hold|Hnew].
  { simpl. split_and!; [done|done|]. left. by split_and!. }
  match goal with |- context [bind ?m _ r] =>
    assert (frames still m /\ forall t r1, m r = Done t r1 -> t = ae_Term a) as [Hst Hterm] end.
  { split; [hold|]. case_decide.
    - intros t r1 (? & ? & _ & HE)%bind_Done. apply bind_Done in HE as (? & ? & _ & HE).
      by injection HE as <- _.
    - intros t r1 [= <- _]. lia. }
  unfold bind at 1. match goal with |- context [?m r] =>
    pose proof (Hst r) as Hs1; destruct (m r) as [t r1|r1] eqn:HE1 end.
  2:{ split; [lia|]. left. by rewrite (still_logs _ _ Hs1). }
  rewrite (Hterm _ _ eq_refl). clear Hterm Hst HE1 t.
  unfold bind at 1. match goal with |- context [?m r1] =>
    assert (frames still m) as Hf by hold;
    pose proof (Hf r1) as Hs2; destruct (m r1) as [u r2|r2] end.
  2:{ split; [lia|]. left. by rewrite (still_logs _ _ Hs2), (still_logs _ _ Hs1). }
  assert (still r r2) as Hs by (by etrans). clear Hs1 Hs2 Hf r1 u.
  unfold bind at 1, get_state.
  assert (holds (logs r2) l) as Hh2 by (by rewrite (still_logs _ _ Hs)).
  pose proof (still_positions _ _ _ Hs Hpos) as Hpos2.
  pose proof (previous_entry_lists r2 l a Hh2 Hpos2) as Hprev.
  destruct (previous_entry_ok r2 a); cbn [negb].
  2:{ simpl. split_and!; [done|done|]. right. split_and!; [lia|done|]. left.
      split_and!; [done| |done]. by intros ?%Hprev. }
  pose proof (proj1 Hprev eq_refl) as Hok. clear Hprev.
  set (l' := merge l (N.to_nat (ae_PrevLogEntry a)) (ae_Entries a)).
  unfold bind at 1. match goal with |- context [?m r2] =>
    assert (match m r2 with
      | Done res r' => res = entries_ok /\ holds (logs r') l' /\ positions r' l' /\
          commitIndex (raft_state r') = commitIndex (raft_state r2)
      | Panicked r' => holds (logs r') l' end) as Hpe end.
  { case_decide as Hes.
    - apply process_entries_lists; [done|done|done|by apply prev_ok_length| |done].
      by rewrite N2Nat.id.
    - unfold l'. rewrite Hes. simpl. done. }
  match goal with |- context [?m r2] => destruct (m r2) as [res r3|r3] end.
  2:{ split; [lia|]. right. by split. }
  destruct Hpe as (-> & Hh3 & Hpos3 & Hc3).
  unfold bind at 1. pose proof (advance_commit_part (ae_LeaderCommitIndex a) r3) as Hac.
  destruct (advance_commit _ r3) as [u r4|r4].
  2:{ split; [lia|]. right. split; [done|]. by rewrite Hac. }
  destruct Hac as (Hl4 & Hll4 & Hsn4 & Hc4). unfold bind, setLastContact, modify, returns.
  split_and!; [done|done|]. right. split_and!; [lia|done|]. right. simpl.
  rewrite Hl4. rewrite (positions_getLastIndex _ _ Hpos3), Hc3, (still_commit _ _ Hs) in Hc4.
  destruct Hpos3 as [P1 P2]. split_and!; [done|done|done| |done].
  split; [by etrans; [exact Hll4|]|by etrans; [exact Hsn4|]].
Qed.
End Lists.

(** ** The leader's side *)

Section LeaderLists.
Context {L K SN : Type} `{LogStore L} `{!ListStore L} `{StableStore K} `{SnapshotStore SN}
  `{MsgPack} `{PeerCodec}.
Abbreviation raft := (Raft L K SN).
Abbreviation lraft := (LeaderRaft L K SN).
Implicit Types r : raft.
Implicit Types lr : lraft.
Implicit Types l : list Log.
Abbreviation last_term := (Proto.last_term log_Term).

Lemma last_term_app l es t :
  es <> [] -> Forall (fun e => log_Term e = t) es -> last_term (l ++ es) = t.
Proof.
  intros Hne Ht. unfold Proto.last_term. rewrite last_app.
  destruct (last es) as [e|] eqn:He; [|by apply last_None in He].
  simpl. rewrite Forall_forall in Ht. by apply Ht, last_Some_elem_of.
Qed.

(** Appending entries: [es] is what is added to the log [l]. *)
Record dispatched (fs : list logFuture) lr lr' l (es : list Log) : Prop := {
  dp_length : length es = length fs;
  dp_term : Forall (fun e => log_Term e = currentTerm (raft_state (lr_raft lr))) es;
  dp_type : Forall2 (fun f e => log_Type e = log_Type (lf_log f)) fs es;
  dp_holds : holds (logs (lr_raft lr')) (l ++ es);
  dp_positions : positions (lr_raft lr') (l ++ es);
  dp_commit : commitIndex (raft_state (lr_raft lr')) = commitIndex (raft_state (lr_raft lr));
  dp_state : state (raft_state (lr_raft lr')) = state (raft_state (lr_raft lr));
  dp_match : ls_commitment (lr_leader lr') =
    match_ (ls_commitment (lr_leader lr)) (localID (lr_raft lr)) (N.of_nat (length (l ++ es)));
  dp_routines : routine <$> replState (lr_leader lr') = routine <$> replState (lr_leader lr)
}.

Lemma dispatchLogs_lists now fs lr l :
  holds (logs (lr_raft lr)) l -> positions (lr_raft lr) l -> fs <> [] ->
  (N.of_nat (length l + length fs) < u64_size)%N ->
  exists es st lr', dispatchLogs now fs lr = Done st lr' /\ dispatched fs lr lr' l es.
Proof.
  intros Hh Hpos Hne Hlt. set (r := lr_raft lr) in *.
  destruct (stamp_logs_spec now (currentTerm (raft_state r)) (N.of_nat (length l)) fs)
    as (st & Hst & Hc & Hall); [lia|].
  assert (length st = length fs) as Hlen by (symmetry; by eapply Forall2_length).
  destruct (holds_append _ _ (lf_log <$> st) Hh Hc) as (s' & HS & Hh').
  { destruct st; [by destruct fs|done]. }
  assert (Forall (fun e => log_Term e = currentTerm (raft_state r)) (lf_log <$> st)) as Ht.
  { apply Forall_fmap. eapply Forall2_Forall_r; [exact Hall|].
    apply Forall_forall. intros f _ f' Hf. apply Hf. }
  exists (lf_log <$> st), st. unfold dispatchLogs, bind at 1, get_raft. fold r.
  rewrite (positions_getLastIndex _ _ Hpos), Hst. unfold bind at 1. cbn [modify_leader modify].
  rewrite HS. eexists. split; [reflexivity|]. split; cbn; try done.
  - by rewrite length_fmap.
  - apply Forall2_fmap_r. eapply Forall2_impl; [exact Hall|]. intros f f' Hf. apply Hf.
  - split; simpl; [|apply Hpos]. unfold getLastLog. simpl. f_equal.
    + rewrite length_app, length_fmap, Hlen. lia.
    + symmetry. apply last_term_app; [|done]. destruct st; [by destruct fs|done].
  - fold r. f_equal. rewrite length_app, length_fmap, Hlen. lia.
  - by rewrite routine_fmap.
Qed.

(** The request for a follower, in terms of the leader's log. *)
Lemma read_logs_lists (s : L) l fuel (p : nat) ls :
  holds s l -> (N.of_nat (p + fuel) + 1 < u64_size)%N ->
  read_logs s fuel (N.of_nat p + 1) = Ok ls -> ls = take fuel (drop p l) /\ length ls = fuel.
Proof.
  intros Hh. revert p ls. induction fuel as [|fuel IH]; intros p ls Hlt HE; simpl in HE.
  { by injection HE as <-. }
  destruct (GetLog s (N.of_nat p + 1)) as [e|] eqn:Hg; [|done].
  rewrite u64_add_small in HE by lia.
  destruct (read_logs s fuel _) as [ls'|] eqn:Hr; [|done]. injection HE as <-.
  replace (N.of_nat p + 1 + 1)%N with (N.of_nat (S p) + 1)%N in Hr by lia.
  destruct (IH (S p) ls') as [-> Hlen]; [lia|done|].
  apply (holds_GetLog s l) in Hg as [_ Hg]; [|done].
  replace (pred (N.to_nat (N.of_nat p + 1))) with p in Hg by lia.
  rewrite (drop_S l e p) by done. simpl. by rewrite Hlen.
Qed.

Lemma last_term_take l (p : nat) e : l !! p = Some e -> last_term (take (S p) l) = log_Term e.
Proof. intros He. unfold Proto.last_term. by rewrite (take_S_r l p e), last_snoc. Qed.

(** [p] is the position the request starts after. *)
Record built r (s : followerReplication) (next lastIndex : N) (req : AppendEntriesRequest)
    l (p : nat) : Prop := {
  bu_next : next = (N.of_nat p + 1)%N;
  bu_prev : ae_PrevLogEntry req = N.of_nat p;
  bu_length : p <= length l;
  bu_prevTerm : ae_PrevLogTerm req = last_term (take p l);
  bu_entries : ae_Entries req `prefix_of` drop p l;
  bu_empty : ae_Entries req = [] -> (lastIndex < next)%N;
  bu_term : ae_Term req = fr_currentTerm s;
  bu_commit : ae_LeaderCommitIndex req = commitIndex (raft_state r)
}.

Lemma setupAppendEntries_lists r s next lastIndex req l :
  holds (logs r) l -> getLastSnapshot (raft_state r) = (0, 0)%N ->
  (0 < MaxAppendEntries (conf r))%Z ->
  (next + Z.to_N (MaxAppendEntries (conf r)) + 1 < u64_size)%N -> (1 <= next)%N ->
  setupAppendEntries r s next lastIndex = Ok req ->
  exists p, built r s next lastIndex req l p.
Proof.
  intros Hh Hsn Hmax Hlt Hn HE. unfold setupAppendEntries in HE.
  destruct (setPreviousLog r next) as [[e t]|] eqn:HP; [|done].
  destruct (setNewLogs r next lastIndex) as [ls|] eqn:HN; [|done].
  injection HE as <-. exists (N.to_nat (next - 1)). set (p := N.to_nat (next - 1)).
  assert (next = (N.of_nat p + 1)%N) as Hp by lia.
  unfold setNewLogs in HN. rewrite u64_add_small, u64_sub_small in HN by (unfold in_u64; lia).
  rewrite min_spec in HN. rewrite Hp in HN.
  apply (read_logs_lists _ l) in HN as [Hls Hlen]; [|done|lia].
  assert (e = N.of_nat p /\ p <= length l /\ t = last_term (take p l)) as (-> & ? & ->).
  { unfold setPreviousLog in HP. rewrite Hsn in HP. case_decide.
    { injection HP as <- <-. replace p with 0 by lia. split_and!; [lia|lia|done]. }
    rewrite u64_sub_small in HP by (unfold in_u64; lia).
    rewrite decide_False in HP by lia. destruct (GetLog _ _) as [x|] eqn:Hg; [|done].
    injection HP as <- <-. apply (holds_GetLog _ _ _ _ Hh) in Hg as [_ Hg].
    pose proof (consecutive_nth _ _ _ _ (holds_numbered _ _ Hh) Hg) as Hi.
    pose proof (lookup_lt_Some _ _ _ Hg). split_and!; [lia|lia|].
    replace p with (S (pred (N.to_nat (next - 1)))) by lia. by rewrite (last_term_take _ _ x). }
  split; simpl; try done.
  - rewrite Hls. apply take_prefix.
  - intros ->. simpl in Hlen. lia.
Qed.

(** Committing. *)
Lemma leader_commit_lists sd lr :
  match leader_commit sd lr with
  | Done _ lr' => logs (lr_raft lr') = logs (lr_raft lr) /\
      getLastLog (raft_state (lr_raft lr')) = getLastLog (raft_state (lr_raft lr)) /\
      getLastSnapshot (raft_state (lr_raft lr')) = getLastSnapshot (raft_state (lr_raft lr)) /\
      commitIndex (raft_state (lr_raft lr')) = c_commitIndex (ls_commitment (lr_leader lr)) /\
      progress_of (lr_leader lr') = progress_of (lr_leader lr)
  | Panicked lr' => logs (lr_raft lr') = logs (lr_raft lr)
  end.
Proof.
  unfold leader_commit. unfold bind at 1. cbn [modify_leader modify].
  unfold bind at 1, get_raft. unfold bind at 1, get_leader. unfold bind at 1, on_raft at 1.
  unfold setCommitIndex, modify. cbn [lr_raft lr_leader].
  match goal with |- context [bind ?m ?f ?s] =>
    assert (frames lstill (bind m f)) as Hf
      by (unfold commit_configuration, apply_ready; hold);
    pose proof (Hf s) as Hs; destruct (bind m f s) as [u lr'|lr'] end.
  - destruct Hs as [Hs Hp]. split_and!; [exact (still_logs _ _ Hs)|exact (still_last _ _ Hs)
      |exact (still_snapshot _ _ Hs)|exact (still_commit _ _ Hs)|exact Hp].
  - destruct Hs as [Hs _]. exact (still_logs _ _ Hs).
Qed.

(** The routines of a new leader. *)
Definition fresh_routines (self : ServerID) (t next : N)
    (m : gmap ServerID followerReplication) : Prop :=
  map_Forall (fun j f => j <> self /\ routine f = (t, next, j)) m.

Lemma start_one_fresh now r lastIdx servers m :
  (lastIdx + 1 < u64_size)%N ->
  fresh_routines (localID r) (currentTerm (raft_state r)) (lastIdx + 1) m ->
  fresh_routines (localID r) (currentTerm (raft_state r)) (lastIdx + 1)
    (foldl (start_one now r lastIdx) m servers).
Proof.
  intros Hlt. revert m. induction servers as [|s servers IH]; intros m Hm; [done|].
  cbn [foldl]. apply IH. unfold start_one. case_decide as Hid; [done|].
  apply map_Forall_insert_2; [|done]. split; [done|]. unfold repl_for.
  destruct (m !! ID s) as [f|] eqn:Hf.
  - destruct (Hm _ _ Hf) as [_ Hr]. unfold routine in *. injection Hr as Ht Hn Hp.
    case_decide; simpl; congruence.
  - unfold routine, new_replication. simpl. by rewrite u64_add_small.
Qed.

Record started r l (e : Log) lr' : Prop := {
  sd_term : log_Term e = currentTerm (raft_state r);
  sd_type : log_Type e = LogNoop;
  sd_holds : holds (logs (lr_raft lr')) (l ++ [e]);
  sd_positions : positions (lr_raft lr') (l ++ [e]);
  sd_commit : commitIndex (raft_state (lr_raft lr')) = commitIndex (raft_state r);
  sd_state : state (raft_state (lr_raft lr')) = state (raft_state r);
  sd_stable : stable (lr_raft lr') = stable r;
  sd_match : ls_commitment (lr_leader lr') =
    match_ (newCommitment false (latest (raft_configurations r)) (N.of_nat (length l) + 1))
      (localID r) (N.of_nat (length l) + 1);
  sd_routines : forall j f, replState (lr_leader lr') !! j = Some f -> j <> localID r /\
    routine f = (currentTerm (raft_state r), (N.of_nat (length l) + 1)%N, j)
}.

Lemma runLeader_start_lists now r l :
  holds (logs r) l -> positions r l -> (N.of_nat (length l) + 1 < u64_size)%N ->
  exists e lr', runLeader_start now r = Done tt lr' /\ started r l e lr'.
Proof.
  intros Hh Hpos Hlt. unfold runLeader_start.
  set (lr0 := mkLeaderRaft r (setupLeaderState r)).
  destruct (startStopReplication_Done now lr0) as (lr1 & HE1 & [Hr1 Hl1] & Hm1).
  simpl in Hr1, Hl1, Hm1.
  pose proof (rstill_startStopReplication now lr0) as Hst. rewrite HE1 in Hst.
  unfold rstill in Hst. simpl in Hst.
  destruct (dispatchLogs_lists now [mkLogFuture None (mkLog 0 0 LogNoop "" "" 0)] lr1 l)
    as (es & st & lr2 & HE2 & D); [by rewrite (still_logs _ _ Hst)|by eapply still_positions
      |done|simpl; lia|].
  pose proof (dp_length _ _ _ _ _ D) as Hlen. destruct es as [|e [|]]; try done. clear Hlen.
  assert (currentTerm (raft_state (lr_raft lr1)) = currentTerm (raft_state r)) as Hct
    by exact (f_equal (fun r => currentTerm (raft_state r)) Hr1).
  assert (localID (lr_raft lr1) = localID r) as Hid by exact (f_equal localID Hr1).
  exists e, lr2. split; [unfold bind at 1; rewrite HE1; unfold bind; by rewrite HE2|].
  pose proof (proj1 (Forall_singleton _ _) (dp_term _ _ _ _ _ D)) as Ht. simpl in Ht.
  pose proof (dp_type _ _ _ _ _ D) as Hty. apply Forall2_cons in Hty as [Hty _].
  split; try done.
  - etrans; [exact Ht|done].
  - apply D.
  - apply D.
  - rewrite (dp_commit _ _ _ _ _ D). exact (still_commit _ _ Hst).
  - rewrite (dp_state _ _ _ _ _ D). exact (f_equal (fun r => state (raft_state r)) Hr1).
  - match type of HE2 with dispatchLogs ?n ?fs _ = _ =>
      pose proof (lquiet_dispatchLogs n fs lr1) as Hq end. rewrite HE2 in Hq.
    rewrite (quiet_stable _ _ Hq). exact (f_equal stable Hr1).
  - rewrite (dp_match _ _ _ _ _ D), Hid.
    assert (ls_commitment (lr_leader lr1) = ls_commitment (setupLeaderState r)) as ->
      by exact (f_equal ls_commitment Hl1).
    unfold setupLeaderState. simpl. rewrite (positions_getLastIndex _ _ Hpos), length_app.
    simpl. rewrite u64_add_small by done. f_equal. lia.
  - intros j f Hj. pose proof (dp_routines _ _ _ _ _ D) as Hro.
    assert (Hx := f_equal (lookup j) Hro). rewrite !lookup_fmap, Hj in Hx.
    destruct (replState (lr_leader lr1) !! j) as [f'|] eqn:Hf'; [|done].
    assert (routine f = routine f') as -> by (by injection Hx as Hx1 Hx2 Hx3; unfold routine; congruence).
    rewrite Hm1 in Hf'. case_decide; [|done].
    rewrite (positions_getLastIndex _ _ Hpos) in Hf'.
    pose proof (start_one_fresh now r (N.of_nat (length l))
      (Servers (latest (raft_configurations r))) ∅ Hlt (map_Forall_empty _)) as Hfr.
    exact (Hfr _ _ Hf').
Qed.
End LeaderLists.

(** Answers: the routine of the server [id] goes on at [n], the others as before. *)
Record responded (id : ServerID) (f : followerReplication) (l l' : leaderState) (n : N)
    (c : commitment) : Prop := {
  rs_commitment : ls_commitment l' = c;
  rs_self : routine <$> replState l' !! id = Some (fr_currentTerm f, n, ID (fr_peer f));
  rs_other j : j <> id -> replState l' !! j = replState l !! j
}.

Lemma responded_update id f l l' n c g :
  responded id f l l' n c -> (forall s, routine (g s) = routine s) ->
  responded id f l (update_repl id g l') n c.
Proof.
  intros [R1 R2 R3] Hg. split; [done|..]; simpl.
  - rewrite lookup_alter_eq. destruct (replState l' !! id); [|done]. simpl. by rewrite Hg.
  - intros j Hj. rewrite lookup_alter_ne by done. by apply R3.
Qed.

Lemma responded_notifyAll id b f l l' n c :
  responded id f l l' n c -> responded id f l (notifyAll id b l') n c.
Proof.
  intros R. destruct (responded_update _ _ _ _ _ _ (fr_set_notify ∅) R) as [R1 R2 R3]; [done|].
  destruct (notifyAll_frame id b l') as [Hr Hc]. split.
  - rewrite Hc. apply R1.
  - rewrite Hr. apply R2.
  - rewrite Hr. apply R3.
Qed.

Lemma responded_refl id f l :
  replState l !! id = Some f -> responded id f l l (fr_nextIndex f) (ls_commitment l).
Proof. intros Hf. split; [done|by rewrite Hf|done]. Qed.

Lemma responded_stale id f l :
  replState l !! id = Some f ->
  responded id f l (handleStaleTerm id l) (fr_nextIndex f) (ls_commitment l).
Proof.
  intros Hf. unfold handleStaleTerm. cbv zeta.
  destruct (responded_notifyAll id false _ _ _ _ _ (responded_refl _ _ _ Hf)) as [R1 R2 R3].
  by split.
Qed.

Lemma responded_appended id f l l' req c :
  responded id f l l' (fr_nextIndex f) c ->
  match last (ae_Entries req) with
  | None => responded id f l (updateLastAppended id req l') (fr_nextIndex f) c
  | Some x => responded id f l (updateLastAppended id req l') (u64_add (log_Index x) 1)
                (match_ c (ID (fr_peer f)) (log_Index x))
  end.
Proof.
  intros R. unfold updateLastAppended. destruct (last (ae_Entries req)) as [x|].
  2:{ by apply responded_notifyAll. }
  destruct R as [R1 R2 R3]. destruct (replState l' !! id) as [f'|] eqn:Hf'; [|done].
  injection R2 as Ht Hn Hp. apply responded_notifyAll. split; simpl.
  - by rewrite R1, Hp.
  - rewrite lookup_alter_eq, Hf'. unfold routine. simpl. congruence.
  - intros j Hj. rewrite lookup_alter_ne by done. by apply R3.
Qed.

(** The next index and the commitment after an answer: unless it is as before, the
    answer is not of a newer term, and either accepts the entries of the request, or
    refuses them. *)
Definition progressed (req : AppendEntriesRequest) (resp : AppendEntriesResponse)
    (f : followerReplication) (l : leaderState) (n : N) (c : commitment) : Prop :=
  n = fr_nextIndex f /\ c = ls_commitment l \/
  (aer_Term resp <= ae_Term req)%N /\
  (aer_Success resp = true /\ (exists x, last (ae_Entries req) = Some x /\
     n = u64_add (log_Index x) 1 /\
     c = match_ (ls_commitment l) (ID (fr_peer f)) (log_Index x)) \/
   aer_Success resp = false /\ c = ls_commitment l /\
   n = max (min (u64_sub (fr_nextIndex f) 1) (u64_add (aer_LastLog resp) 1)) 1).

Lemma replicate_response_progress now id req rp l f step l' :
  replState l !! id = Some f -> replicate_response now id req (Ok rp) l = (step, l') ->
  exists n c, responded id f l l' n c /\ progressed req rp f l n c.
Proof.
  intros Hf. unfold replicate_response. case_decide as Ht.
  { intros [= <- <-]. do 2 eexists. split; [by apply responded_stale|by left]. }
  assert (responded id f l (update_repl id (fr_set_lastContact now) l) (fr_nextIndex f)
    (ls_commitment l)) as R by (apply responded_update; [by apply responded_refl|done]).
  destruct (aer_Success rp) eqn:Hs; intros [= <- <-].
  - pose proof (responded_appended _ _ _ _ req _ R) as R'.
    destruct (last (ae_Entries req)) as [x|] eqn:Hx; do 2 eexists;
      (split; [apply responded_update; [exact R'|done]|]).
    + right. split; [lia|]. left. eauto.
    + by left.
  - do 2 eexists. split.
    + destruct R as [R1 R2 R3]. split; [exact R1|..]; simpl.
      * rewrite !lookup_alter_eq, Hf. reflexivity.
      * intros j Hj. by rewrite !lookup_alter_ne.
    + right. split; [lia|]. by right.
Qed.

Lemma pipelineDecode_progress now id req rp l f b l' :
  replState l !! id = Some f -> pipelineDecode_response now id req rp l = (b, l') ->
  exists n c, responded id f l l' n c /\
    (n = fr_nextIndex f /\ c = ls_commitment l \/
     aer_Success rp = true /\ (aer_Term rp <= ae_Term req)%N /\
     exists x, last (ae_Entries req) = Some x /\ n = u64_add (log_Index x) 1 /\
       c = match_ (ls_commitment l) (ID (fr_peer f)) (log_Index x)).
Proof.
  intros Hf. unfold pipelineDecode_response. case_decide as Ht.
  { intros [= <- <-]. do 2 eexists. split; [by apply responded_stale|by left]. }
  assert (responded id f l (update_repl id (fr_set_lastContact now) l) (fr_nextIndex f)
    (ls_commitment l)) as R by (apply responded_update; [by apply responded_refl|done]).
  destruct (aer_Success rp) eqn:Hs; intros [= <- <-].
  - pose proof (responded_appended _ _ _ _ req _ R) as R'.
    destruct (last (ae_Entries req)) as [x|] eqn:Hx; do 2 eexists; (split; [exact R'|]).
    + right. split_and!; [done|lia|]. eauto.
    + by left.
  - do 2 eexists. split; [exact R|by left].
Qed.

(** ** What is on disk *)

(** The log and the stable store stay. *)
Definition idle {L K SN} (r r' : Raft L K SN) : Prop := still r r' /\ stable r' = stable r.

#[export] Instance idle_preorder {L K SN} : PreOrder (@idle L K SN).
Proof.
  split; unfold idle; [intros r; by split|].
  intros r1 r2 r3 [A1 A2] [B1 B2]. split; [by etrans|congruence].
Qed.

Section Disk.
Context {L K SN : Type} `{LogStore L} `{StableStore K} `{!StableStoreLaws K} `{!SteadyStore K}
  `{SnapshotStore SN} `{MsgPack} `{PeerCodec}.
Abbreviation raft := (Raft L K SN).
Abbreviation lraft := (LeaderRaft L K SN).
Implicit Types r : raft.

(** The vote on disk. *)
Definition disk_vote (k : K) : N * option string := (disk_vote_term k, disk_vote_cand k).

Lemma idle_quiet {A} (m : M raft A) : frames still m -> frames quiet m -> frames idle m.
Proof.
  intros Hs Hq r. specialize (Hs r). specialize (Hq r).
  destruct (m r); (split; [done|apply Hq]).
Qed.

Lemma idle_keeps {A} (m : M raft A) : frames still m -> keeps stable m -> frames idle m.
Proof. intros Hs Hq r. specialize (Hs r). specialize (Hq r). by destruct (m r). Qed.

Lemma setCurrentTerm_steady t r :
  exists k, setCurrentTerm t r =
      Done tt (with_raft_state (raftState_setCurrentTerm t) (with_stable k r)) /\
    disk_term k = t /\ disk_vote k = disk_vote (stable r).
Proof.
  destruct (setCurrentTerm t r) as [[] r'|r'] eqn:HE.
  - pose proof (setCurrentTerm_disk _ _ _ _ HE) as Hd.
    destruct (setCurrentTerm_Done _ _ _ _ HE) as (k & HS & ->). exists k. split_and!; [done|done|].
    destruct (SetUint64_cases _ _ _ _ _ HS) as [HU HG].
    unfold disk_vote, disk_vote_term, disk_vote_cand. rewrite HG.
    by destruct HU as [HU|[? _]]; [rewrite HU|].
  - exfalso. revert HE. unfold setCurrentTerm.
    pose proof (SetUint64_steady (stable r) keyCurrentTerm t) as Hs.
    destruct (SetUint64 _ _ _) as [k e]. simpl in Hs. by subst.
Qed.

Lemma persistVote_steady t c r :
  exists k, persistVote t c r = Done None (with_stable k r) /\
    disk_term k = disk_term (stable r) /\ disk_vote k = (t, Some c).
Proof.
  unfold persistVote. pose proof (SetUint64_steady (stable r) keyLastVoteTerm t) as Hs.
  destruct (SetUint64 _ _ _) as [k1 e1] eqn:E1. simpl in Hs. subst e1.
  pose proof (Set_steady k1 keyLastVoteCand c) as Hs.
  destruct (Set_ k1 _ _) as [k2 e2] eqn:E2. simpl in Hs. subst e2. exists k2.
  destruct (SetUint64_cases _ _ _ _ _ E1) as [[HU1|[? _]] HG1]; [|done].
  destruct (Set_cases _ _ _ _ _ E2) as [[HG2|[? _]] HU2]; [|done].
  split_and!; [done|..]; unfold disk_term, disk_vote, disk_vote_term, disk_vote_cand;
    rewrite ?HU2, ?HU1, ?HG2; [done|]. by rewrite decide_True.
Qed.

(** A campaign records the server's vote for itself, when it votes. *)
Lemma electSelf_loop_steady req servers asked ch r :
  exists e k, electSelf_loop req servers asked ch r = Done e (with_stable k r) /\
    disk_term k = disk_term (stable r) /\ is_Some (cp_respCh e) /\ cp_request e = req /\
    (disk_vote k = disk_vote (stable r) \/
     disk_vote k = (rv_Term req, Some (hdr_Addr (rv_Header req)))).
Proof.
  revert asked ch r. induction servers as [|s servers IH]; intros asked ch r.
  { exists (mkCampaign req asked (Some ch)), (stable r). split_and!; [by destruct r|done|eauto|done|auto]. }
  cbn [electSelf_loop]. case_decide; [|apply IH]. case_decide; [|apply IH].
  destruct (persistVote_steady (rv_Term req) (hdr_Addr (rv_Header req)) r) as (k & HP & Ht & Hv).
  unfold bind. rewrite HP.
  destruct (IH asked (ch ++ [mkVoteResult
    (mkRequestVoteResponse (getRPCHeader r) (rv_Term req) "" true) (localID r)]) (with_stable k r))
    as (e & k' & -> & Ht' & Hc & Hq & Hv'). simpl in Ht', Hv'.
  exists e, k'. split_and!; [done|congruence|done|done|]. right. destruct Hv' as [->|]; [done|done].
Qed.

Lemma electSelf_steady r :
  (currentTerm (raft_state r) + 1 < u64_size)%N -> LocalID (conf r) = localID r ->
  exists e k, let t := (currentTerm (raft_state r) + 1)%N in
    electSelf r = Done e (with_raft_state (raftState_setCurrentTerm t) (with_stable k r)) /\
    disk_term k = t /\ is_Some (cp_respCh e) /\
    rv_Term (cp_request e) = t /\ candidateBytes (cp_request e) = own_bytes r /\
    (rv_LastLogIndex (cp_request e), rv_LastLogTerm (cp_request e)) =
      getLastEntry (raft_state r) /\
    (disk_vote k = disk_vote (stable r) \/ disk_vote k = (t, Some (own_bytes r))).
Proof.
  intros Hlt Hid. cbv zeta. set (t := (currentTerm (raft_state r) + 1)%N).
  unfold electSelf, bind at 1, get_state. cbv zeta. rewrite u64_add_small by done. fold t.
  destruct (setCurrentTerm_steady t r) as (k & HT & Ht & Hv).
  unfold bind at 1. rewrite HT. unfold bind at 1.
  destruct (getLastEntry _) as [li lt] eqn:EL.
  match goal with |- context [electSelf_loop ?q ?ss ?a ?c ?r1] =>
    destruct (electSelf_loop_steady q ss a c r1) as (e & k' & -> & Ht' & Hc & Hq & Hv') end.
  exists e, k'. rewrite Hq. simpl in Ht', Hv'. split_and!; [by destruct r|congruence|done|done| | |].
  - unfold candidateBytes, own_bytes. simpl. case_decide; [done|]. by rewrite Hid.
  - done.
  - rewrite Hv in Hv'. exact Hv'.
Qed.

(** What a vote request does to the disk. *)
Inductive vote_effect (req : RequestVoteRequest) r r' : Prop :=
  | ve_idle : idle r r' -> vote_effect req r r'
  | ve_raised :
      still r r' -> (currentTerm (raft_state r) <= rv_Term req)%N ->
      disk_term (stable r') = rv_Term req -> disk_vote (stable r') = disk_vote (stable r) ->
      vote_effect req r r'
  | ve_voted :
      still r r' -> (currentTerm (raft_state r) <= rv_Term req)%N ->
      disk_term (stable r') = rv_Term req ->
      disk_vote (stable r') = (rv_Term req, Some (candidateBytes req)) ->
      ~ (disk_vote_term (stable r) = rv_Term req /\ disk_vote_cand (stable r) <> None) ->
      up_to_date (rv_LastLogIndex req) (rv_LastLogTerm req) r ->
      vote_effect req r r'.

Lemma caught_up_disk t r r1 :
  term_cached r -> caught_up t r r1 ->
  disk_term (stable r1) = t /\ disk_vote (stable r1) = disk_vote (stable r).
Proof.
  unfold term_cached. intros Hc Hu. destruct (cu_disk _ _ _ Hu) as [(_ & HS & _)|(Ht & -> & _)].
  - destruct (SetUint64_cases _ _ _ _ _ HS) as [[HU|[? _]] HG]; [|done].
    unfold disk_term, disk_vote, disk_vote_term, disk_vote_cand. by rewrite !HU, HG.
  - split; [congruence|done].
Qed.

Lemma requestVote_effect now req r :
  term_cached r ->
  match requestVote now req r with
  | Done _ r' => vote_effect req r r'
  | Panicked r' => idle r r'
  end.
Proof.
  intros Hc. pose proof (still_requestVote now req r) as Hst.
  destruct (requestVote now req r) as [[resp err] r'|r'] eqn:HE.
  - apply requestVote_outcome in HE as [_ HO].
    destruct HO as [o|r1 Hcu|r1 Hcu _ Hvt Hvc|r1 err' r2 Hcu _ Hfr Hup HP].
    + by apply ve_idle.
    + destruct (caught_up_disk _ _ _ Hc Hcu). apply ve_raised; [done|apply Hcu|done|done].
    + destruct (caught_up_disk _ _ _ Hc Hcu). apply ve_raised; [done|apply Hcu|done|done].
    + destruct (caught_up_disk _ _ _ Hc Hcu) as [Ht Hv].
      destruct (persistVote_steady (rv_Term req) (candidateBytes req) r1) as (k & HP' & Hk & Hkv).
      rewrite HP in HP'. injection HP' as -> ->. rewrite decide_True in Hst |- * by done.
      apply ve_voted; [done|apply Hcu|simpl; congruence|done| |done].
      injection Hv as <- <-. done.
  - split; [done|]. revert HE. clear Hst.
    unfold requestVote, bind at 1. simpl. unfold bind at 1 2. simpl.
    destruct (encode_latest_peers _) as [p r1|r1] eqn:EP.
    2:{ intros [= <-]. revert EP. unfold encode_latest_peers.
        repeat case_match; naive_solver. }
    apply encode_latest_peers_Done in EP as ->. simpl.
    case_match; [done|]. case_decide; [done|]. case_decide; [done|].
    unfold bind at 1. case_decide.
    + unfold bind at 1. rewrite setState_eq. unfold bind at 1. simpl.
      match goal with |- context [setCurrentTerm ?t ?x] =>
        destruct (setCurrentTerm_steady t x) as (k & -> & _) end.
      simpl. repeat (case_match || case_decide); try done.
      unfold bind, persistVote. repeat case_match; try done; naive_solver.
    + simpl. repeat (case_match || case_decide); try done.
      unfold bind, persistVote. repeat case_match; try done; naive_solver.
Qed.
End Disk.

Section Idle.
Context {L K SN : Type} `{LogStore L} `{StableStore K} `{SnapshotStore SN} `{MsgPack}
  `{PeerCodec}.
Abbreviation raft := (Raft L K SN).
Abbreviation lraft := (LeaderRaft L K SN).
Implicit Types r : raft.

Lemma idle_requestPreVote req : frames idle (requestPreVote req : M raft _).
Proof. apply idle_quiet; [apply still_requestPreVote|]. unfold requestPreVote. calm. Qed.

Lemma idle_timeoutNow req : frames idle (timeoutNow req : M raft _).
Proof.
  apply idle_keeps; [apply still_timeoutNow|]. intros r. unfold timeoutNow, bind.
  by rewrite setLeader_eq, setState_eq.
Qed.

Lemma idle_heartbeatTimeout now : frames idle (follower_heartbeatTimeout now : M raft _).
Proof.
  apply idle_keeps; [apply still_heartbeatTimeout|]. intros r.
  unfold follower_heartbeatTimeout, bind, get_state, returns.
  case_decide; [done|]. rewrite setLeader_eq. repeat (case_decide; [done|]).
  destruct (hasVote _ _); [by rewrite setState_eq|done].
Qed.

Lemma idle_leave_candidate c : frames idle (leave_candidate c : M raft _).
Proof.
  apply idle_quiet; [apply still_leave_candidate|].
  unfold leave_candidate, runCandidate_return. calm.
Qed.

(** The events of a follower and of a candidate that change neither log nor disk. *)
Definition plain_event (ev : event) : bool :=
  match ev with ev_rpc _ | ev_bootstrap _ _ | ev_preVote _ | ev_vote _ => false | _ => true end.

Lemma follower_case_idle env ev m :
  plain_event ev = true -> follower_case env ev = Some m -> frames idle (m : M raft _).
Proof.
  intros Hp Hm. unfold follower_case in Hm.
  destruct ev; try done; simplify_eq/=;
    (apply frames_bind; [apply _| |intros; apply frames_returns; apply _]);
    first [apply idle_heartbeatTimeout|apply idle_quiet; [hold|calm]].
Qed.

Lemma candidate_case_idle env c ev m :
  plain_event ev = true -> candidate_case env c ev = Some m -> frames idle (m : M raft _).
Proof.
  intros Hp Hm. unfold candidate_case in Hm.
  destruct ev; try done; simplify_eq/=; try (apply frames_returns; apply _);
    (apply frames_bind; [apply _| |intros; apply frames_returns; apply _]);
    (apply idle_quiet; [hold|calm]).
Qed.
End Idle.

Section Restarted.
Context {L K SN F : Type} `{LogStore L} `{!ListStore L} `{StableStore K} `{!StableStoreLaws K}
  `{SnapshotStore SN} `{!FSM F SN} `{MsgPack} `{PeerCodec}.
Abbreviation raft := (Raft L K SN).
Implicit Types r : raft.

(** What restoring a snapshot and reading the configurations leave alone. *)
Definition beginning r : L * (N * N) * N * K :=
  (logs r, getLastLog (raft_state r), commitIndex (raft_state r), stable r).

Lemma keeps_with_fsm {A} (m : M raft A) :
  keeps beginning m -> keeps (fun s : raft * F => beginning s.1) (with_fsm m).
Proof. intros Hm s. unfold with_fsm. specialize (Hm s.1). by destruct (m _). Qed.

Lemma keeps_restore_loop metas :
  keeps (fun s : raft * F => beginning s.1) (restore_loop metas).
Proof.
  induction metas as [|m metas IH]; cbn [restore_loop]; frame; try done;
    try (apply keeps_with_fsm; by intros ?).
  intros [r f]. unfold tryRestoreSingleSnapshot. by repeat break.
Qed.

Lemma keeps_scan_configurations fuel index :
  keeps beginning (scan_configurations fuel index : M raft _).
Proof.
  revert index. induction fuel as [|fuel IH]; intros index; cbn [scan_configurations]; frame.
  all: first [by intros ?|apply IH].
Qed.

Lemma NewRaft_lists cf addr pv (s : Stores L K SN) (f f' : F) l r' :
  holds (st_logs s) l -> NewRaft cf addr pv s f = Done None (r', f') ->
  getLastSnapshot (raft_state r') = (0, 0)%N ->
  holds (logs r') l /\ positions r' l /\ commitIndex (raft_state r') = 0%N /\
  disk_term (stable r') = disk_term (st_stable s) /\
  disk_vote (stable r') = disk_vote (st_stable s).
Proof.
  intros Hh HE Hsn. unfold NewRaft in HE. destruct (ValidateConfig cf); [done|].
  destruct (GetUint64 (st_stable s) keyCurrentTerm) as [t err] eqn:Ht.
  destruct (if read_failed err then err else None); [done|].
  rewrite (holds_LastIndex _ _ Hh) in HE.
  destruct (if decide (0 < N.of_nat (length l))%N then _ else _) as [ll|] eqn:Hll; [|done].
  case_decide; [done|].
  unfold start_raft, bind at 1, with_fsm at 1 in HE. cbn [fst snd] in HE. rewrite setState_eq in HE.
  unfold bind at 1, with_fsm at 1 in HE. cbn [fst snd] in HE. unfold setCurrentTerm in HE.
  cbn [stable] in HE.
  match type of HE with context [SetUint64 ?k _ _] => change k with (st_stable s) in HE end.
  destruct (SetUint64 (st_stable s) keyCurrentTerm t) as [k [e|]] eqn:HS; [done|].
  unfold bind at 1, with_fsm at 1, setLastLog, modify in HE. cbn [fst snd] in HE.
  match type of HE with ?m ?x = _ =>
    assert (keeps (fun s : raft * F => beginning s.1) m) as Hk end.
  { unfold restoreSnapshot. frame.
    all: first [apply keeps_restore_loop|apply keeps_with_fsm, keeps_scan_configurations|by intros ?]. }
  pose proof (frames_Done _ _ _ _ _ Hk HE) as Hb. injection Hb as Hl1 Hl2 Hl3 Hl4 Hl5.
  simpl in Hl1, Hl2, Hl3, Hl4, Hl5. rewrite Hl1, Hl5.
  destruct (SetUint64_cases _ _ _ _ _ HS) as [[HU|[? _]] HG]; [|done].
  split_and!; [done| |done|..].
  - split; [|done]. unfold getLastLog. rewrite Hl2, Hl3. clear -Hll Hh.
    case_decide as Hl.
    + apply (holds_GetLog _ _ _ _ Hh) in Hll as [_ Hll].
      rewrite Nat2N.id in Hll. rewrite (consecutive_nth _ _ _ _ (holds_numbered _ _ Hh) Hll).
      unfold Proto.last_term. rewrite last_lookup, Hll. simpl. f_equal. lia.
    + injection Hll as <-. destruct l; [done|]. cbn [length] in Hl. lia.
  - unfold disk_term. simpl. rewrite HU, Ht. done.
  - unfold disk_vote, disk_vote_term, disk_vote_cand. simpl. by rewrite HU, HG.
Qed.
End Restarted.

Section Appended.
Context {L K SN : Type} `{LogStore L} `{StableStore K} `{!StableStoreLaws K} `{!SteadyStore K}
  `{SnapshotStore SN} `{MsgPack} `{PeerCodec}.

(** What a leader's request does to the stable store. *)
Lemma appendEntries_disk now a (r : Raft L K SN) :
  term_cached r -> (currentTerm (raft_state r) <= ae_Term a)%N ->
  match appendEntries now a r with
  | Done _ r' | Panicked r' => disk_term (stable r') = ae_Term a /\
      disk_vote (stable r') = disk_vote (stable r)
  end.
Proof.
  intros Hc Hle. unfold appendEntries, bind at 1, get_state. cbv zeta.
  rewrite decide_False by lia. unfold bind at 1.
  match goal with |- context [match (if decide ?P then ?m else ?m') r with _ => _ end] =>
    assert (exists r1, (if decide P then m else m') r = Done (ae_Term a) r1 /\
      disk_term (stable r1) = ae_Term a /\ disk_vote (stable r1) = disk_vote (stable r))
      as (r1 & -> & Ht & Hv) end.
  { case_decide.
    - unfold bind at 1. rewrite setState_eq. unfold bind.
      match goal with |- context [setCurrentTerm ?t ?x] =>
        destruct (setCurrentTerm_steady t x) as (k & -> & Ht & Hv) end.
      eexists. split; [reflexivity|]. by split.
    - exists r. unfold term_cached in Hc. split_and!; [|lia|done]. unfold returns. f_equal. lia. }
  match goal with |- context [?m r1] => assert (frames quiet m) as Hq
    by (unfold setLastContact; calm); specialize (Hq r1); destruct (m r1) end;
    rewrite (quiet_stable _ _ Hq); by split.
Qed.
End Appended.

(** ** [InmemStore] holds lists *)

Record inmem_holds (s : InmemStore) (l : list Log) : Prop := {
  ih_numbered : consecutive_from 1 l;
  ih_logs i : im_logs s !! i = if decide (0 < i)%N then l !! pred (N.to_nat i) else None;
  ih_high : highIndex s = N.of_nat (length l);
  ih_low : lowIndex s = (if decide (l = []) then 0 else 1)%N
}.

Lemma consecutive_snoc i l e :
  consecutive_from i l -> log_Index e = (i + N.of_nat (length l))%N ->
  consecutive_from i (l ++ [e]).
Proof.
  unfold consecutive_from. revert i. induction l as [|x l IH]; intros i; simpl.
  - intros _ ->. by rewrite N.add_0_r.
  - intros [= Hx Hl] He. f_equal; [done|]. apply IH; [done|lia].
Qed.

Lemma inmem_holds_snoc s l e :
  inmem_holds s l -> log_Index e = (N.of_nat (length l) + 1)%N ->
  inmem_holds (inmem_StoreLogs_loop s [e]) (l ++ [e]).
Proof.
  intros [H1 H2 H3 H4] He. split; simpl.
  - apply consecutive_snoc; [done|lia].
  - intros i. rewrite lookup_insert, H2, He. destruct (decide (_ = i)) as [<-|Hne].
    + rewrite decide_True by lia. rewrite lookup_app_r by lia.
      by replace (_ - _) with 0 by lia.
    + destruct (decide (0 < i)%N); [|done]. symmetry.
      destruct (decide (pred (N.to_nat i) < length l)); [by apply lookup_app_l|].
      rewrite !(lookup_ge_None_2 _ (pred _)); [done|lia|]. rewrite length_app. simpl. lia.
  - rewrite length_app, decide_True by lia. simpl. lia.
  - rewrite H4, He. rewrite (decide_False (P := l ++ [e] = [])) by (by destruct l).
    destruct (decide (l = [])) as [->|]; [done|]. by rewrite decide_False.
Qed.

Lemma inmem_holds_append s l es :
  inmem_holds s l -> consecutive_from (N.of_nat (length l) + 1) es ->
  inmem_holds (inmem_StoreLogs_loop s es) (l ++ es).
Proof.
  revert s l. induction es as [|e es IH]; intros s l Hh Hc; [by rewrite app_nil_r|].
  rewrite cons_middle, app_assoc.
  change (inmem_StoreLogs_loop s (e :: es))
    with (inmem_StoreLogs_loop (inmem_StoreLogs_loop s [e]) es).
  apply IH.
  - apply inmem_holds_snoc; [done|]. pose proof (consecutive_nth _ _ 0 e Hc eq_refl). lia.
  - apply (consecutive_app _ [e]) in Hc. rewrite length_app. simpl in *.
    by replace (N.of_nat (length l + 1) + 1)%N with (N.of_nat (length l) + 1 + 1)%N by lia.
Qed.

Lemma inmem_holds_truncate s l n :
  inmem_holds s l -> n < length l -> (N.of_nat (length l) + 1 < u64_size)%N ->
  inmem_holds (inmem_DeleteRange s (N.of_nat n + 1) (N.of_nat (length l))).1 (take n l).
Proof.
  intros [H1 H2 H3 H4] Hn Hlen. split.
  - rewrite <- (take_drop n l) in H1. by apply consecutive_app_l in H1.
  - intros i. rewrite inmem_DeleteRange_logs, inmem_delete_loop_lookup, H2 by (done || lia).
    destruct (decide (0 < i)%N).
    + destruct (decide (N.of_nat n + 1 <= i <= N.of_nat (length l))%N) as [Hi|Hi].
      * rewrite lookup_take_ge by lia. done.
      * destruct (decide (pred (N.to_nat i) < n)); [by rewrite lookup_take_lt by lia|].
        rewrite !lookup_ge_None_2; [done|rewrite length_take; lia|lia].
    + by destruct (decide (N.of_nat n + 1 <= i <= N.of_nat (length l))%N).
  - unfold inmem_DeleteRange. rewrite u64_add_small, u64_sub_small by (unfold in_u64; lia).
    rewrite length_take. repeat case_decide; simpl; lia.
  - unfold inmem_DeleteRange. rewrite u64_add_small, u64_sub_small by (unfold in_u64; lia).
    destruct l as [|e l]; [simpl in Hn; lia|]. destruct n; simpl in *; repeat case_decide; simpl; lia || done.
Qed.

#[export] Instance InmemStore_ListStore : ListStore InmemStore.
Proof.
  refine {| holds := inmem_holds |}.
  - intros s l Hh. apply Hh.
  - intros s l i e Hh. unfold GetLog, InmemStore_LogStore, inmem_GetLog.
    rewrite (ih_logs _ _ Hh). case_decide; [|split; [done|intros []; lia]].
    destruct (l !! _); split; [by intros [= ->]|by intros [_ [= ->]]|done|by intros []].
  - intros s l Hh. simpl. by rewrite (ih_high _ _ Hh).
  - intros s l es Hh Hc _. eexists. split; [done|]. by apply inmem_holds_append.
  - intros s l n Hh Hn Hlen. pose proof (inmem_holds_truncate _ _ _ Hh Hn Hlen) as Ht.
    eexists. split; [|exact Ht]. unfold DeleteRange, InmemStore_LogStore, inmem_DeleteRange.
    by repeat case_decide.
Defined.

#[export] Instance InmemStore_SteadyStore : SteadyStore InmemStore.
Proof. by split. Qed.

(** The log of a store that was filled from the start. *)
Lemma inmem_holds_new l :
  consecutive_from 1 l -> holds (inmem_StoreLogs_loop NewInmemStore l) l.
Proof.
  intros Hc. apply (inmem_holds_append NewInmemStore [] l); [|done].
  split; try done. intros i. rewrite lookup_nil. cbn. rewrite lookup_empty. by case_decide.
Qed.
