(* ===== verification/Cluster.v ===== *)
(** * A cluster of servers: at most one leader per term

    The servers of a cluster run the main threads of [Server] and exchange vote
    requests; everything else a server receives is arbitrary.  The membership is
    fixed.  The result is election safety, for every interleaving of the servers'
    steps, any loss of messages, failing disks, panics and restarts, as long as a
    candidate receives its heartbeats on the main thread; the transport's fast
    path for heartbeats breaks it. *)
From S2P Require Import Prelude Types Util Codec Configuration Config Commitment Stores State Elections AppendEntries SnapshotStores Snapshot Fsm Replication Leader Api Server Advance.

(** ** Definitions *)

(** A process: its server, the loop of its main thread ([None] when the process is
    down), the request of its last campaign with the peers whose answer is
    outstanding, and the answers on its channel. *)
Record node (L K SN : Type) := mkNode {
  nd_raft : Raft L K SN;
  nd_role : option role;
  nd_campaign : option (RequestVoteRequest * list Server);
  nd_respCh : list voteResult
}.
Arguments mkNode {L K SN} _ _ _ _.
Arguments nd_raft {L K SN} _.
Arguments nd_role {L K SN} _.
Arguments nd_campaign {L K SN} _.
Arguments nd_respCh {L K SN} _.

(** The processes, and the elections won so far: pairs of a term and a server. *)
Record cluster (L K SN : Type) := mkCluster {
  cl_nodes : gmap ServerID (node L K SN);
  cl_won : list (N * ServerID)
}.
Arguments mkCluster {L K SN} _ _.
Arguments cl_nodes {L K SN} _.
Arguments cl_won {L K SN} _.

Section ClusterModel.
Context {L K SN F : Type} `{LogStore L} `{StableStore K} `{SnapshotStore SN} `{!FSM F SN}
  `{MsgPack} `{PeerCodec}.
Abbreviation raft := (Raft L K SN).

(** The process after a step of its main thread: a campaign replaces the previous
    one, whose answers go to a channel nobody reads any more. *)
Definition after_event (nd : node L K SN) (ro : role) (out : output) (r : raft)
    : node L K SN :=
  match out with
  | out_campaign e =>
      mkNode r (Some ro) (Some (cp_request e, cp_asked e)) (default [] (cp_respCh e))
  | _ => mkNode r (Some ro) (nd_campaign nd) (nd_respCh nd)
  end.

(** What the goroutine that asks [peer] puts on the channel, for the answer of the
    peer's handler and the failure of the transport, if any. *)
Definition vote_of (req : RequestVoteRequest) (peer : Server) (rep : option Reply)
    (err lost : option error) : voteResult :=
  let none := mkRequestVoteResponse (mkHeader 0 "" "") 0 "" false in
  match rep, err, lost with
  | Some (reply_RequestVote resp), None, lost => askPeer req peer resp lost
  | _, Some e, _ => askPeer req peer none (Some e)
  | _, None, Some e => askPeer req peer none (Some e)
  | _, None, None => askPeer req peer none (Some (Errorf "unexpected response"))
  end.

Definition answered (peer : Server) (v : voteResult) (nd : node L K SN) : node L K SN :=
  mkNode (nd_raft nd) (nd_role nd)
    (match nd_campaign nd with
     | Some (req, asked) => Some (req, filter (fun p => ID p <> ID peer) asked)
     | None => None
     end)
    (nd_respCh nd ++ [v]).

Definition set_node (i : ServerID) (nd : node L K SN) (cl : cluster L K SN) : cluster L K SN :=
  mkCluster (<[i := nd]> (cl_nodes cl)) (cl_won cl).

(** The election that a vote has just won, if any. *)
Definition record_win (i : ServerID) (r : raft) (won : list (N * ServerID))
    : list (N * ServerID) :=
  if decide (state (raft_state r) = Leader)
  then (currentTerm (raft_state r), i) :: won else won.

Definition is_candidate_role (ro : role) : bool :=
  match ro with in_candidate _ => true | _ => false end.

Definition stores_of (r : raft) : Stores L K SN :=
  mkStores (logs r) (stable r) (snapshots r).

(** The steps.  [C] is the configuration of the cluster, [addr] the address of each
    server, and [fast] says whether the transport hands heartbeats to
    [processHeartbeat] while the main thread waits in the loop of a candidate. *)
Inductive cluster_step (C : Configuration) (addr : ServerID -> ServerAddress) (fast : bool)
    : cluster L K SN -> cluster L K SN -> Prop :=
  (** The main thread receives an event: a request of any kind, a timer, a pre-vote... *)
  | step_event cl i nd ro env ev ro' out r' :
      cl_nodes cl !! i = Some nd -> nd_role nd = Some ro ->
      (forall v, ev <> ev_vote v) -> (forall f c, ev <> ev_bootstrap f c) ->
      (currentTerm (raft_state (nd_raft nd)) + 1 < u64_size)%N ->
      main_step env ev ro (nd_raft nd) = Some (Done (ro', out) r') -> latest_of r' = C ->
      cluster_step C addr fast cl (set_node i (after_event nd ro' out r') cl)
  (** A candidate receives the next vote of its campaign. *)
  | step_vote cl i nd ro env v rest ro' out r' :
      cl_nodes cl !! i = Some nd -> nd_role nd = Some ro -> nd_respCh nd = v :: rest ->
      main_step env (ev_vote v) ro (nd_raft nd) = Some (Done (ro', out) r') ->
      latest_of r' = C ->
      cluster_step C addr fast cl
        (mkCluster
           (<[i := mkNode r' (Some ro') (nd_campaign nd) rest]> (cl_nodes cl))
           (record_win i r' (cl_won cl)))
  (** A vote request of the campaign of [i] is handled by [j]; the answer may get lost. *)
  | step_ask cl i ndi j ndj req asked peer ro env ro' rep err lost r' :
      cl_nodes cl !! i = Some ndi -> cl_nodes cl !! j = Some ndj -> i <> j ->
      nd_campaign ndi = Some (req, asked) -> peer ∈ asked -> ID peer = j ->
      nd_role ndj = Some ro ->
      main_step env (ev_rpc (cmd_RequestVote req)) ro (nd_raft ndj) =
        Some (Done (ro', out_reply rep err) r') -> latest_of r' = C ->
      cluster_step C addr fast cl
        (set_node i (answered peer (vote_of req peer rep err lost) ndi)
           (set_node j (mkNode r' (Some ro') (nd_campaign ndj) (nd_respCh ndj)) cl))
  (** The request does not arrive. *)
  | step_lost cl i nd req asked peer e :
      cl_nodes cl !! i = Some nd -> nd_campaign nd = Some (req, asked) -> peer ∈ asked ->
      cluster_step C addr fast cl
        (set_node i (answered peer (vote_of req peer None None (Some e)) nd) cl)
  (** The transport's goroutine handles a heartbeat. *)
  | step_heartbeat cl i nd ro now c res r' :
      cl_nodes cl !! i = Some nd -> nd_role nd = Some ro ->
      fast = true \/ is_candidate_role ro = false ->
      processHeartbeat now c (nd_raft nd) = Done res r' -> latest_of r' = C ->
      cluster_step C addr fast cl
        (set_node i (mkNode r' (Some ro) (nd_campaign nd) (nd_respCh nd)) cl)
  (** The replication goroutines change the state of a leader. *)
  | step_replication cl i nd l l' sd vs :
      cl_nodes cl !! i = Some nd -> nd_role nd = Some (in_leader l sd vs) ->
      cluster_step C addr fast cl
        (set_node i (mkNode (nd_raft nd) (Some (in_leader l' sd vs)) (nd_campaign nd)
           (nd_respCh nd)) cl)
  (** The snapshot goroutine takes a snapshot. *)
  | step_snapshot cl i nd ro msec snapReq configReq res r' :
      cl_nodes cl !! i = Some nd -> nd_role nd = Some ro ->
      takeSnapshot msec snapReq configReq (nd_raft nd) = Done res r' -> latest_of r' = C ->
      cluster_step C addr fast cl
        (set_node i (mkNode r' (Some ro) (nd_campaign nd) (nd_respCh nd)) cl)
  (** The process panics, or is killed. *)
  | step_panic cl i nd ro env ev r' :
      cl_nodes cl !! i = Some nd -> nd_role nd = Some ro ->
      (forall f c, ev <> ev_bootstrap f c) ->
      (currentTerm (raft_state (nd_raft nd)) + 1 < u64_size)%N ->
      main_step env ev ro (nd_raft nd) = Some (Panicked r') ->
      cluster_step C addr fast cl
        (set_node i (mkNode r' None (nd_campaign nd) (nd_respCh nd)) cl)
  | step_crash cl i nd :
      cl_nodes cl !! i = Some nd ->
      cluster_step C addr fast cl
        (set_node i (mkNode (nd_raft nd) None (nd_campaign nd) (nd_respCh nd)) cl)
  (** The process is started again on its stores. *)
  | step_restart cl i nd cf supportPreVote (f f' : F) r' :
      cl_nodes cl !! i = Some nd -> nd_role nd = None -> LocalID cf = i ->
      NewRaft cf (addr i) supportPreVote (stores_of (nd_raft nd)) f = Done None (r', f') ->
      latest_of r' = C ->
      cluster_step C addr fast cl (set_node i (mkNode r' (Some in_run) None []) cl).

(** A cluster of running followers with the configuration [C]. *)
Record initial (C : Configuration) (addr : ServerID -> ServerAddress) (cl : cluster L K SN)
    : Prop := {
  init_won : cl_won cl = [];
  init_node i nd : cl_nodes cl !! i = Some nd ->
    nd_role nd = Some in_run /\ nd_campaign nd = None /\
    localID (nd_raft nd) = i /\ LocalID (conf (nd_raft nd)) = i /\
    localAddr (nd_raft nd) = addr i /\ latest_of (nd_raft nd) = C /\
    state (raft_state (nd_raft nd)) = Follower /\ term_cached (nd_raft nd) /\
    (disk_vote_term (stable (nd_raft nd)) <= disk_term (stable (nd_raft nd)))%N
}.
End ClusterModel.

(** ** The invariant *)

Section Invariant.
Context {L K SN : Type} `{LogStore L} `{StableStore K} `{!StableStoreLaws K}
  `{SnapshotStore SN} `{MsgPack} `{PeerCodec}.
Abbreviation raft := (Raft L K SN).
Context (C : Configuration) (addr : ServerID -> ServerAddress).
Implicit Types r : raft.
Implicit Types g : ServerID -> gset (N * string).

(** The bytes a server asks its votes for. *)
Definition bytes (i : ServerID) : string := EncodePeer i (addr i).

Definition needed : Z := count_voters (Servers C) `div` 2 + 1.

Definition granted_votes (ch : list voteResult) : nat :=
  length (filter (fun v => rvr_Granted (vr_response v) = true) ch).

(** The votes that a campaign for [(t, b)] counted or will count come from distinct
    voters that have recorded them, none of which is asked again. *)
Definition tally g (t : N) (b : string) (asked : list Server) (ch : list voteResult)
    (granted : Z) : Prop :=
  exists V : gset ServerID,
    V ⊆ voter_ids (Servers C) /\
    Z.of_nat (size V) = (granted + Z.of_nat (granted_votes ch))%Z /\
    (forall v, v ∈ V -> (t, b) ∈ g v) /\
    (forall p, p ∈ asked -> ID p ∈ voter_ids (Servers C) /\ ID p ∉ V) /\
    NoDup (ID <$> asked).

(** The loop of a candidate. *)
Record candidate_ok g (i : ServerID) (nd : node L K SN) (c : candidateLoop) : Prop := {
  cand_state : state (raft_state (nd_raft nd)) = Candidate;
  cand_needed : votesNeeded c = needed;
  cand_prevote : cl_prevoteCh c = true ->
    (currentTerm (raft_state (nd_raft nd)) <= cl_term c)%N;
  cand_granted : cl_voteCh c = false -> grantedVotes c = 0%Z;
  cand_one : cl_prevoteCh c = true -> cl_voteCh c = false;
  cand_tally : cl_voteCh c = true -> exists req asked,
    nd_campaign nd = Some (req, asked) /\
    rv_Term req = currentTerm (raft_state (nd_raft nd)) /\
    candidateBytes req = bytes i /\
    tally g (rv_Term req) (bytes i) asked (nd_respCh nd) (grantedVotes c)
}.

(** A process that is up. *)
Record up_ok g (won : list (N * ServerID)) (i : ServerID) (nd : node L K SN) (ro : role)
    : Prop := {
  up_identity : identity (nd_raft nd) = (i, addr i, i);
  up_cached : term_cached (nd_raft nd);
  up_conf : latest_of (nd_raft nd) = C;
  up_leader : state (raft_state (nd_raft nd)) = Leader ->
    (currentTerm (raft_state (nd_raft nd)), i) ∈ won;
  up_candidate c : ro = in_candidate c -> candidate_ok g i nd c
}.

Record node_ok g won (i : ServerID) (nd : node L K SN) : Prop := {
  ok_votes : votes_recorded (stable (nd_raft nd)) (g i);
  ok_up ro : nd_role nd = Some ro -> up_ok g won i nd ro
}.

Record cluster_ok g (cl : cluster L K SN) : Prop := {
  ok_node i nd : cl_nodes cl !! i = Some nd -> node_ok g (cl_won cl) i nd;
  ok_known v t b : (t, b) ∈ g v -> is_Some (cl_nodes cl !! v);
  ok_won t i : (t, i) ∈ cl_won cl ->
    is_Some (cl_nodes cl !! i) /\
    exists Q, is_quorum Q (voter_set C) /\ forall v, v ∈ Q -> (t, bytes i) ∈ g v
}.

(** ** The invariant under more votes *)

Definition grows g g' : Prop := forall v, g v ⊆ g' v.

Lemma tally_grows g g' t b asked ch n : grows g g' -> tally g t b asked ch n -> tally g' t b asked ch n.
Proof.
  intros Hg (V & H1' & H2' & H3' & H4'). exists V. split_and!; try done; [|by apply H4'..].
  intros v Hv. by apply Hg, H3'.
Qed.

Lemma up_ok_grows g g' won won' i nd ro :
  grows g g' -> (forall x, x ∈ won -> x ∈ won') -> up_ok g won i nd ro -> up_ok g' won' i nd ro.
Proof.
  intros Hg Hw [U1 U2 U3 U4 U5]. split; [done..|by auto|].
  intros c Hc. destruct (U5 c Hc) as [C1 C2 C3 C4 C5 C6]. split; try done.
  intros Hv. destruct (C6 Hv) as (req & asked & ? & ? & ? & Ht).
  exists req, asked. split_and!; try done. by eapply tally_grows.
Qed.

(** Replacing one process. *)
Lemma cluster_ok_set g g' cl i nd nd' won' :
  cluster_ok g cl -> cl_nodes cl !! i = Some nd ->
  grows g g' -> (forall v, v <> i -> g' v = g v) ->
  (forall x, x ∈ cl_won cl -> x ∈ won') ->
  (forall t j, (t, j) ∈ won' -> (t, j) ∉ cl_won cl -> j = i /\
     exists Q, is_quorum Q (voter_set C) /\ forall v, v ∈ Q -> (t, bytes i) ∈ g' v) ->
  node_ok g' won' i nd' ->
  cluster_ok g' (mkCluster (<[i := nd']> (cl_nodes cl)) won').
Proof.
  intros [O1 O2 O3] Hi Hg Hne Hw Hnew Hnd. split; cbn [cl_nodes cl_won].
  - intros j ndj. destruct (decide (j = i)) as [->|Hj].
    + rewrite lookup_insert_eq. by intros [= <-].
    + rewrite lookup_insert_ne by done. intros Hl. destruct (O1 _ _ Hl) as [V U]. split.
      * by rewrite Hne.
      * intros ro Hro. eapply up_ok_grows; [done|done|by apply U].
  - intros v t b Hin. destruct (decide (v = i)) as [->|Hv].
    + rewrite lookup_insert_eq. eauto.
    + rewrite lookup_insert_ne by done. rewrite Hne in Hin by done. by eapply O2.
  - intros t j Hin. destruct (decide ((t, j) ∈ cl_won cl)) as [Hold|Hold].
    + destruct (O3 _ _ Hold) as (Hs & Q & HQ & Hv). split.
      * destruct (decide (j = i)) as [->|Hj]; [rewrite lookup_insert_eq; eauto|].
        by rewrite lookup_insert_ne.
      * exists Q. split; [done|]. intros v HvQ. by apply Hg, Hv.
    + destruct (Hnew _ _ Hin Hold) as [-> HQ]. split; [rewrite lookup_insert_eq; eauto|done].
Qed.

(** Election safety in one state. *)
Lemma cluster_ok_leaders g cl t i j :
  (forall i j, is_Some (cl_nodes cl !! i) -> is_Some (cl_nodes cl !! j) ->
     bytes i = bytes j -> i = j) ->
  cluster_ok g cl -> (t, i) ∈ cl_won cl -> (t, j) ∈ cl_won cl -> i = j.
Proof.
  intros Hinj [O1 O2 O3] Hi Hj.
  destruct (O3 _ _ Hi) as (Hsi & Q1 & HQ1 & Hv1). destruct (O3 _ _ Hj) as (Hsj & Q2 & HQ2 & Hv2).
  destruct (set_choose_or_empty (Q1 ∩ Q2)) as [[v Hv]|He].
  2:{ exfalso. apply leibniz_equiv in He. revert He.
      by apply (quorum_overlap (voter_set C) (voter_set C) Q1 Q2 ""). }
  apply elem_of_intersection in Hv as [HvQ1 HvQ2].
  specialize (Hv1 _ HvQ1). specialize (Hv2 _ HvQ2).
  destruct (O2 _ _ _ Hv1) as [nd Hnd]. destruct (O1 _ _ Hnd) as [Hrec _].
  apply Hinj; [done|done|]. exact (granted_once _ _ Hrec _ _ _ Hv1 Hv2).
Qed.

(** ** Steps of one process *)

Lemma up_sound g won i nd ro :
  node_ok g won i nd -> nd_role nd = Some ro ->
  term_cached (nd_raft nd) /\ votes_recorded (stable (nd_raft nd)) ∅.
Proof.
  intros [Hv Hu] Hro. split; [by destruct (Hu _ Hro)|].
  eapply votes_recorded_mono; [|exact Hv]. apply empty_subseteq.
Qed.

(** A step that starts no campaign and counts no vote. *)
Lemma advances_ok g won i nd ro r' ro' :
  node_ok g won i nd -> nd_role nd = Some ro -> advances (nd_raft nd) r' -> latest_of r' = C ->
  (forall c, ro' = in_candidate c ->
     ro = in_candidate c /\ state (raft_state r') = Candidate) ->
  node_ok g won i (mkNode r' (Some ro') (nd_campaign nd) (nd_respCh nd)).
Proof.
  intros [Hv Hu] Hro Ha HC Hcand. destruct (Hu _ Hro) as [U1 U2 U3 U4 U5]. split; simpl.
  - by apply (adv_votes _ _ Ha).
  - intros ? [= <-]. split; simpl; [..|done| |].
    + by rewrite (adv_identity _ _ Ha).
    + apply Ha.
    + intros Hl. destruct (adv_leader _ _ Ha Hl) as [Hl' ->]. auto.
    + intros c ->. destruct (Hcand c eq_refl) as [-> Hst].
      pose proof (adv_candidate _ _ Ha Hst) as Ht.
      destruct (U5 c eq_refl) as [C1 C2 C3 C4 C5 C6]. split; simpl; rewrite ?Ht; done.
Qed.

Lemma ordinary_ok g won i nd ro out r' ro' :
  node_ok g won i nd -> nd_role nd = Some ro -> ordinary (nd_raft nd) ro out r' ro' ->
  latest_of r' = C -> node_ok g won i (after_event nd ro' out r').
Proof.
  intros Hnd Hro [Ha Ho Hc] HC.
  assert (after_event nd ro' out r' = mkNode r' (Some ro') (nd_campaign nd) (nd_respCh nd)) as ->
    by (by destruct out).
  by eapply advances_ok.
Qed.

(** One more recorded vote. *)
Definition add_vote g (i : ServerID) (t : N) (b : string) : ServerID -> gset (N * string) :=
  fun v => if decide (v = i) then {[(t, b)]} ∪ g v else g v.

Lemma add_vote_grows g i t b : grows g (add_vote g i t b).
Proof. intros v. unfold add_vote. case_decide; [apply union_subseteq_r|done]. Qed.

Lemma add_vote_in g i t b : (t, b) ∈ add_vote g i t b i.
Proof. unfold add_vote. rewrite decide_True by done. set_solver. Qed.

Lemma add_vote_other g i t b v : v <> i -> add_vote g i t b v = g v.
Proof. intros Hv. unfold add_vote. by rewrite decide_False. Qed.

(** The vote of the current term that is on disk. *)
Definition voted (k : K) (t : N) (b : string) : Prop :=
  disk_term k = t /\ disk_vote_term k = t /\ disk_vote_cand k = Some b.

Lemma voted_last (k : K) (t : N) (b : string) (v : gset (N * string)) :
  votes_recorded k ({[(t, b)]} ∪ v) -> disk_term k = t -> voted k t b.
Proof.
  intros [R1 R2 R3 _] Ht. specialize (R2 t b ltac:(set_solver)).
  assert (disk_vote_term k = t) by lia. split_and!; [done|done|].
  apply (R3 t b); [set_solver|done].
Qed.

(** The votes that a step of [i] adds are the one it has on disk. *)
Definition cast g g' (i : ServerID) (k : K) : Prop :=
  forall t b, (t, b) ∈ g' i -> (t, b) ∈ g i \/ voted k t b.

Lemma cast_same g i k : cast g g i k.
Proof. intros t b. by left. Qed.

Lemma cast_add g i t b k : voted k t b -> cast g (add_vote g i t b) i k.
Proof.
  intros Hv t' b'. unfold add_vote. rewrite decide_True by done.
  intros [[= -> ->]%elem_of_singleton|]%elem_of_union; auto.
Qed.

Context (C_valid : valid_configuration C).

Lemma elem_of_voter_ids s : s ∈ Servers C -> Suffrage s = Voter -> ID s ∈ voter_ids (Servers C).
Proof.
  intros Hs Hv. apply elem_of_list_to_set, list_elem_of_fmap_2. by apply list_elem_of_filter.
Qed.

(** The channel of a new campaign. *)
Lemma campaign_tally g r r' t votes :
  latest_of r = C ->
  votes = (fun _ => self_vote r' t) <$> self_voters r ->
  tally (if decide (self_voters r = []) then g else add_vote g (localID r) t (bytes (localID r)))
    t (bytes (localID r)) (other_voters r) votes 0.
Proof.
  intros HC ->. exists (if decide (self_voters r = []) then ∅ else {[localID r]}).
  assert (forall p, p ∈ other_voters r ->
    ID p ∈ voter_ids (Servers C) /\ ID p <> localID r) as Hp.
  { unfold other_voters. rewrite HC. intros p [[Hv Hid] Hp]%list_elem_of_filter.
    split; [by apply elem_of_voter_ids|done]. }
  assert (NoDup (ID <$> other_voters r)) as Hnd.
  { unfold other_voters. rewrite HC. eapply sublist_NoDup; [apply C_valid|].
    apply fmap_sublist, sublist_filter. }
  destruct (decide (self_voters r = [])) as [He|Hne].
  { rewrite He. split_and!; [apply empty_subseteq|done|set_solver| |done].
    intros p Hin. split; [by apply Hp|apply not_elem_of_empty]. }
  pose proof (self_voters_hasVote r) as Hs. rewrite HC in Hs.
  specialize (Hs (valid_unique_ids _ C_valid)). case_match; [|done]. destruct Hs as [s Hs].
  assert (s ∈ self_voters r) as Hin by (rewrite Hs; left).
  unfold self_voters in Hin. rewrite HC in Hin.
  apply list_elem_of_filter in Hin as [[Hv Hid] Hin].
  rewrite Hs. split_and!; [|by rewrite size_singleton| | |done].
  - intros v ->%elem_of_singleton. rewrite <- Hid. by apply elem_of_voter_ids.
  - intros v ->%elem_of_singleton. apply add_vote_in.
  - intros p Hin'. destruct (Hp _ Hin') as [? Hne']. split; [done|]. by intros ?%elem_of_singleton.
Qed.

Lemma campaign_ok g won i nd ro e r' c :
  node_ok g won i nd -> nd_role nd = Some ro ->
  (currentTerm (raft_state (nd_raft nd)) + 1 < u64_size)%N ->
  electSelf (nd_raft nd) = Done e r' -> state (raft_state (nd_raft nd)) = Candidate ->
  votesNeeded c = needed -> grantedVotes c = 0%Z -> cl_prevoteCh c = false ->
  cl_voteCh c = bool_decide (cp_respCh e <> None) ->
  exists g', grows g g' /\ (forall v, v <> i -> g' v = g v) /\ cast g g' i (stable r') /\
    node_ok g' won i (mkNode r' (Some (in_candidate c)) (Some (cp_request e, cp_asked e))
                        (default [] (cp_respCh e))).
Proof.
  intros [Hv Hu] Hro Hlt HE Hst Hn Hz Hpre Hch. destruct (Hu _ Hro) as [U1 U2 U3 U4 U5].
  unfold identity in U1. injection U1 as Hid Haddr Hconf.
  destruct (electSelf_Done _ _ _ _ Hlt ltac:(congruence) U2 Hv HE)
    as (k & -> & Hk & Hrec & Ht & Hb & _ & Hs).
  assert (own_bytes (nd_raft nd) = bytes i) as Hbi
    by (unfold own_bytes, bytes; congruence). rewrite Hbi in *.
  set (t := (currentTerm (raft_state (nd_raft nd)) + 1)%N) in *.
  set (r' := with_raft_state _ _) in *.
  assert (forall g', g' i = g i \/ (exists votes, cp_respCh e = Some votes) /\
            self_voters (nd_raft nd) <> [] /\ g' i = {[(t, bytes i)]} ∪ g i ->
    (forall votes, cp_respCh e = Some votes ->
       tally g' t (bytes i) (cp_asked e) votes 0) ->
    node_ok g' won i (mkNode r' (Some (in_candidate c)) (Some (cp_request e, cp_asked e))
                        (default [] (cp_respCh e)))) as Hok.
  { intros g' Hg' Hta. split; simpl.
    - destruct Hg' as [->|([votes Hvo] & Hne & ->)]; [done|]. by apply (Hs votes Hvo).
    - intros ? [= <-]. split; simpl; [by unfold identity; simpl; congruence|done|done|congruence|].
      intros ? [= <-]. split; simpl; try done; try congruence.
      rewrite Hch. intros Hne%bool_decide_eq_true. destruct (cp_respCh e) as [votes|]; [|done].
      do 2 eexists. split; [done|]. rewrite Ht. split_and!; [done|done|]. rewrite Hz. by apply Hta. }
  destruct (cp_respCh e) as [votes|] eqn:Hvo.
  2:{ exists g. split_and!; [by intros v|done|apply cast_same|]. apply Hok; [by left|done]. }
  destruct (Hs votes eq_refl) as (Ha & Hvotes & Hself).
  pose proof (campaign_tally g _ _ _ _ U3 Hvotes) as Hta. rewrite <- Ha, Hid in Hta.
  eexists. split_and!; [| | |apply Hok; [|by intros ? [= <-]; exact Hta]];
    destruct (decide (self_voters (nd_raft nd) = [])) as [He|He].
  - by intros v.
  - apply add_vote_grows.
  - done.
  - intros v Hvi. by apply add_vote_other.
  - apply cast_same.
  - apply cast_add. by eapply voted_last; [apply Hself|].
  - by left.
  - right. split_and!; [eauto|done|]. unfold add_vote. by rewrite decide_True.
Qed.

(** Starting as a candidate, with a round of pre-votes or with a campaign. *)
Lemma runCandidate_ok g won i nd ro env ro' out r' :
  node_ok g won i nd -> nd_role nd = Some ro ->
  (currentTerm (raft_state (nd_raft nd)) + 1 < u64_size)%N ->
  state (raft_state (nd_raft nd)) = Candidate -> shutdown (nd_raft nd) = false ->
  enter_loop env (nd_raft nd) = Done (ro', out) r' ->
  exists g', grows g g' /\ (forall v, v <> i -> g' v = g v) /\ cast g g' i (stable r') /\
    node_ok g' won i (after_event nd ro' out r').
Proof.
  intros Hok Hro Hlt Hst Hsh. pose proof (ok_up _ _ _ _ Hok _ Hro) as [U1 U2 U3 U4 U5].
  unfold enter_loop. rewrite Hsh, Hst. unfold runCandidate_start.
  intros ([c x] & r1 & HR & HE)%bind_Done. cbn [fst snd] in HE.
  apply bind_Done in HR as (? & ? & HG & HR). injection HG as <- <-. cbv zeta in HR.
  destruct (negb (preVoteDisabled _) && _).
  - injection HR as <- <- <-. unfold leave_candidate, bind, get_state in HE.
    rewrite decide_True in HE by done. injection HE as <- <- <-. exists g.
    split_and!; [by intros v|done|apply cast_same|]. split; simpl; [apply Hok|].
    intros ? [= <-]. split; simpl; [done|done|done|congruence|].
    intros ? [= <-]. split; simpl; try done.
    + unfold quorumSize, needed. unfold latest_of in U3. by rewrite U3.
    + intros _. rewrite u64_add_small by done. lia.
  - apply bind_Done in HR as (e & r2 & HS & HR).
    apply bind_Done in HR as (? & ? & HG & HR). injection HG as <- <-. injection HR as <- <- <-.
    pose proof (ok_votes _ _ _ _ Hok) as Hv. unfold identity in U1. injection U1 as Hid _ Hconf.
    destruct (electSelf_Done _ _ _ _ Hlt ltac:(congruence) U2 Hv HS) as (k & -> & _).
    unfold leave_candidate, bind, get_state in HE. rewrite decide_True in HE by done.
    injection HE as <- <- <-. eapply campaign_ok; [done|done|done|exact HS|done| |done|done|done].
    unfold quorumSize, needed. unfold latest_of in U3. simpl. by rewrite U3.
Qed.

(** A pre-vote of any content. *)
Lemma preVote_ok g won i nd c env v ro' out r' :
  node_ok g won i nd -> nd_role nd = Some (in_candidate c) ->
  (currentTerm (raft_state (nd_raft nd)) + 1 < u64_size)%N ->
  main_step env (ev_preVote v) (in_candidate c) (nd_raft nd) = Some (Done (ro', out) r') ->
  latest_of r' = C ->
  exists g', grows g g' /\ (forall v, v <> i -> g' v = g v) /\ cast g g' i (stable r') /\
    node_ok g' won i (after_event nd ro' out r').
Proof.
  intros Hok Hro Hlt. pose proof (ok_up _ _ _ _ Hok _ Hro) as [U1 U2 U3 U4 U5].
  destruct (U5 c eq_refl) as [C1 C2 C3 C4 C5 C6].
  cbn [main_step candidate_case]. destruct (cl_prevoteCh c) eqn:Hch; [|done]. intros [= HE] HC.
  apply bind_Done in HE as (x & r1 & (cc & HD & ->)%map_Done & HE).
  apply map_Done in HE as (ro & HL & HE). injection HE as -> ->.
  unfold candidate_preVote in HD. cbv zeta in HD.
  destruct (decide (cl_term c < pvr_Term (pr_response v))%N) as [Hgt|_].
  { pose proof (safe_raise (pvr_Term (pr_response v)) (nd_raft nd) U2) as Hs.
    unfold safe_at, bind in Hs, HD. rewrite setState_eq in Hs, HD.
    destruct (setCurrentTerm _ _) as [u r2|]; [|done]. injection HD as <- <-.
    apply leave_candidate_Done in HL as [Hq Hl]. exists g.
    split_and!; [by intros ?|done|apply cast_same|].
    apply (advances_ok _ _ _ _ (in_candidate c)); [done|done| |done|].
    - eapply advances_quiet; [|exact Hq]. apply Hs. specialize (C3 eq_refl). lia.
    - intros c' ->. by destruct (Hl c' eq_refl). }
  match type of HD with context [if decide ?P then _ else _] => destruct (decide P) end.
  - apply map_Done in HD as (e & HS & ->). cbn [candidate_result fst snd] in *.
    pose proof (ok_votes _ _ _ _ Hok) as Hv. unfold identity in U1. injection U1 as Hid _ Hconf.
    destruct (electSelf_Done _ _ _ _ Hlt ltac:(congruence) U2 Hv HS) as (k & -> & _).
    unfold leave_candidate, bind, get_state in HL. rewrite decide_True in HL by done.
    injection HL as <- <-.
    eapply campaign_ok; [done|done|done|exact HS|done|done|by apply C4, C5|done|done].
  - injection HD as <- <-. cbn [candidate_result fst snd] in *.
    unfold leave_candidate, bind, get_state in HL. rewrite decide_True in HL by done.
    injection HL as <- <-. exists g. split_and!; [by intros ?|done|apply cast_same|].
    split; simpl; [apply Hok|]. intros ? [= <-]. split; simpl; try done.
    intros ? [= <-]. by split; simpl; rewrite ?Hch.
Qed.

(** Any event of the main thread that is no vote. *)
Lemma event_ok g won i nd ro env ev ro' out r' :
  node_ok g won i nd -> nd_role nd = Some ro ->
  (forall v, ev <> ev_vote v) -> (forall f c, ev <> ev_bootstrap f c) ->
  (currentTerm (raft_state (nd_raft nd)) + 1 < u64_size)%N ->
  main_step env ev ro (nd_raft nd) = Some (Done (ro', out) r') -> latest_of r' = C ->
  exists g', grows g g' /\ (forall v, v <> i -> g' v = g v) /\ cast g g' i (stable r') /\
    node_ok g' won i (after_event nd ro' out r').
Proof.
  intros Hok Hro Hn1 Hn2 Hlt HE HC. destruct (up_sound _ _ _ _ _ Hok Hro) as [Hc Hv].
  assert (ordinary (nd_raft nd) ro out r' ro' -> exists g', grows g g' /\
    (forall v, v <> i -> g' v = g v) /\ cast g g' i (stable r') /\
    node_ok g' won i (after_event nd ro' out r')) as Hord.
  { intros Ho. exists g. split_and!; [by intros v|done|apply cast_same|by eapply ordinary_ok]. }
  destruct ro as [| |c|l sd vs].
  - cbn [main_step] in HE. destruct ev; try done; injection HE as HE.
    + destruct (decide (state (raft_state (nd_raft nd)) = Candidate)) as [Hs|Hs].
      * destruct (shutdown (nd_raft nd)) eqn:Hsh; [|by eapply runCandidate_ok].
        apply Hord. eapply run_ordinary; eauto.
      * apply Hord. eapply run_ordinary; eauto.
    + apply Hord. apply bind_Done in HE as (u & r1 & HS & HE). injection HE as <- <- <-.
      split; [|done|done]. apply quiet_advances; [done|].
      exact (frames_Done _ _ _ _ _ quiet_Shutdown HS).
  - apply Hord. by eapply follower_ordinary.
  - destruct ev; try (apply Hord; by eapply candidate_ordinary). by eapply preVote_ok.
  - apply Hord. by eapply leader_ordinary.
Qed.

(** ** Votes *)

Lemma voter_ids_set : voter_ids (Servers C) = voter_set C.
Proof.
  apply set_eq. intros id. unfold voter_ids, voter_set. rewrite elem_of_voters_of.
  setoid_rewrite conf_map_lookup; [|apply C_valid].
  rewrite elem_of_list_to_set, list_elem_of_fmap. split.
  - intros ([v j a] & -> & [Hv ?]%list_elem_of_filter). simpl in *. subst. eauto.
  - intros [a Ha]. exists (mkServer Voter id a). by rewrite list_elem_of_filter.
Qed.

Lemma count_voters_length servers :
  count_voters servers = Z.of_nat (length (filter (fun s => Suffrage s = Voter) servers)).
Proof.
  induction servers as [|s l IH]; [done|]. cbn [count_voters]. rewrite filter_cons.
  case_decide; cbn [length]; lia.
Qed.

Lemma needed_quorum (V : gset ServerID) :
  V ⊆ voter_ids (Servers C) -> (needed <= Z.of_nat (size V))%Z -> is_quorum V (voter_set C).
Proof.
  intros Hs Hn. split; [by rewrite <- voter_ids_set|].
  rewrite voter_set_size by apply C_valid. unfold needed in Hn. rewrite count_voters_length in Hn.
  revert Hn. generalize (length (filter (fun s => Suffrage s = Voter) (Servers C))). intros n Hn.
  assert (Z.of_nat n `div` 2 = Z.of_nat (n / 2))%Z as Hdiv by (by rewrite Nat2Z.inj_div). lia.
Qed.

Lemma vote_ok g won i nd ro env v rest ro' out r' :
  node_ok g won i nd -> nd_role nd = Some ro -> nd_respCh nd = v :: rest ->
  main_step env (ev_vote v) ro (nd_raft nd) = Some (Done (ro', out) r') -> latest_of r' = C ->
  (state (raft_state r') = Leader -> exists Q, is_quorum Q (voter_set C) /\
     forall v, v ∈ Q -> (currentTerm (raft_state r'), bytes i) ∈ g v) /\
  forall won', (forall x, x ∈ won -> x ∈ won') ->
    (state (raft_state r') = Leader -> (currentTerm (raft_state r'), i) ∈ won') ->
    node_ok g won' i (mkNode r' (Some ro') (nd_campaign nd) rest).
Proof.
  intros Hok Hro Hch HE HC. destruct ro as [| |c|l sd vs]; try done.
  pose proof (ok_up _ _ _ _ Hok _ Hro) as [U1 U2 U3 U4 U5].
  destruct (U5 c eq_refl) as [C1 C2 C3 C4 C5 C6].
  cbn [main_step candidate_case] in HE. destruct (cl_voteCh c) eqn:Hvc; [|done].
  injection HE as HE. destruct (C6 eq_refl) as (req & asked & Hcp & Hrt & Hb & V & V1 & V2 & V3 & V4 & V5).
  apply bind_Done in HE as (x & r1 & (cc & HD & ->)%map_Done & HE).
  apply map_Done in HE as (ro & HL & HE). injection HE as -> ->.
  unfold candidate_vote, bind at 1, get_state in HD. cbv zeta in HD.
  rewrite Hch in V2. unfold granted_votes in V2. rewrite filter_cons in V2.
  match type of HD with context [if decide ?P then _ else _] => destruct (decide P) as [Hgt|_] end.
  { pose proof (safe_raise (rvr_Term (vr_response v)) (nd_raft nd) U2 ltac:(lia)) as Hs.
    unfold safe_at, bind in Hs, HD. rewrite setState_eq in Hs, HD.
    destruct (setCurrentTerm _ _) as [u r2|] eqn:HT; [|done]. injection HD as <- <-.
    apply setCurrentTerm_Done in HT as (k & _ & Hr2).
    injection HL as <- <-. split; [by rewrite Hr2|]. intros won' Hw Hl. split; simpl.
    - by apply (adv_votes _ _ Hs), Hok.
    - intros ? [= <-]. split; simpl; [|by apply Hs|done|done|done].
      rewrite <- U1. exact (adv_identity _ _ Hs). }
  match type of HD with context [if decide ?P then _ else _] => destruct (decide P) as [Hq|Hq] end.
  - unfold bind in HD. rewrite setState_eq, setLeader_eq in HD. injection HD as <- <-.
    injection HL as <- <-. simpl. split.
    + intros _. exists V. split; [|by rewrite <- Hrt]. apply needed_quorum; [done|].
      rewrite <- C2. revert Hq V2. destruct (rvr_Granted _); case_decide; try done; cbn [length]; lia.
    + intros won' Hw Hl. split; simpl; [apply Hok|]. intros ? [= <-].
      split; simpl; [by rewrite <- U1|done|done|by auto|done].
  - injection HD as <- <-. simpl in HL. unfold leave_candidate, bind, get_state in HL.
    rewrite decide_True in HL by done. injection HL as <- <-.
    split; [congruence|]. intros won' Hw Hl. split; simpl; [apply Hok|]. intros ? [= <-].
    split; simpl; [done|done|done|by auto|]. intros ? [= <-]. split; simpl; rewrite ?Hvc; try done.
    intros _. exists req, asked. split_and!; [done|done|done|]. exists V. split_and!; try done.
    unfold granted_votes. revert V2.
    destruct (rvr_Granted _); case_decide; try done; cbn [length]; lia.
Qed.

(** A request on the main thread: the handler, and what leaving the loop does. *)
Lemma rpc_step_Done env c ro r ro' out r' :
  main_step env (ev_rpc c) ro r = Some (Done (ro', out) r') ->
  exists r1, answer_rpc env c r = Done out r1 /\ quiet r1 r'.
Proof.
  destruct ro as [| |cd|l sd vs]; cbn [main_step follower_case candidate_case leader_case].
  - done.
  - intros HE. injection HE as HE. apply bind_Done in HE as ([b o] & r1 & (o2 & HA & [= -> ->])%map_Done & HE).
    apply map_Done in HE as (ro & HL & [= -> ->]). injection HL as <- <-. by exists r1.
  - intros HE. injection HE as HE. apply bind_Done in HE as ([b o] & r1 & (o2 & HA & [= -> ->])%map_Done & HE).
    apply map_Done in HE as (ro & HL & [= -> ->]).
    apply leave_candidate_Done in HL as [Hq _]. by exists r1.
  - match goal with |- context [match ?m ?x with Done _ _ => _ | Panicked _ => _ end] =>
      destruct (m x) as [[sd' o] lr1|] eqn:HD end; [|done].
    apply bind_Done in HD as (o' & lr2 & HA & [= <- <- <-]).
    apply on_raft_Done in HA.
    destruct (leave_leader _ _ _ _) as [ro r2|] eqn:HL; [|done]. intros [= <- <- <-].
    apply leave_leader_Done in HL as [Hq _]. by eexists.
Qed.

Lemma requestVote_step_recorded (g : gset (N * string)) env req ro r ro' rep err r' :
  term_cached r -> votes_recorded (stable r) g ->
  main_step env (ev_rpc (cmd_RequestVote req)) ro r = Some (Done (ro', out_reply rep err) r') ->
  votes_recorded (stable r') g /\
  forall resp, rep = Some (reply_RequestVote resp) -> rvr_Granted resp = true ->
    votes_recorded (stable r') ({[(rv_Term req, candidateBytes req)]} ∪ g) /\
    voted (stable r') (rv_Term req) (candidateBytes req).
Proof.
  intros Hc Hv (r1 & HA & Hq)%rpc_step_Done. rewrite (quiet_stable _ _ Hq). clear Hq.
  unfold answer_rpc in HA. apply map_Done in HA as ([rep1 err1] & HP & [= -> ->]).
  unfold processRPC, bind at 1, get_state in HP. destruct (checkRPCHeader _ _).
  { by injection HP as <- <- <-. }
  apply map_Done in HP as ([resp err2] & HR & [= -> ->]).
  apply requestVote_outcome in HR as [_ HO].
  destruct (vote_outcome_recorded _ _ _ _ _ _ Hc Hv HO) as (Hc1 & _ & Hrec & Ht). split.
  - destruct (rvr_Granted resp); [|done].
    eapply votes_recorded_mono; [|exact Hrec]. apply union_subseteq_r.
  - intros ? [= <-] Hg. rewrite Hg in Hrec. split; [done|]. apply (voted_last _ _ _ _ Hrec).
    unfold term_cached in Hc1. rewrite <- Hc1. by apply Ht.
Qed.

(** An answer arrives on the channel of a campaign. *)
Lemma answered_ok g won i nd req asked peer v :
  node_ok g won i nd -> nd_campaign nd = Some (req, asked) -> peer ∈ asked ->
  (rvr_Granted (vr_response v) = true -> (rv_Term req, candidateBytes req) ∈ g (ID peer)) ->
  node_ok g won i (answered peer v nd).
Proof.
  intros [Hv Hu] Hcp Hin Hg. split; [done|]. intros ro Hro. destruct (Hu ro Hro) as [U1 U2 U3 U4 U5].
  split; try done. intros c Hc. destruct (U5 c Hc) as [C1 C2 C3 C4 C5 C6]. split; try done.
  intros Hch. destruct (C6 Hch) as (req' & asked' & Hcp' & Ht & Hb & V & V1 & V2 & V3 & V4 & V5).
  rewrite Hcp in Hcp'. injection Hcp' as <- <-.
  exists req, (filter (fun p => ID p <> ID peer) asked). simpl. rewrite Hcp.
  split_and!; [done|done|done|].
  destruct (V4 _ Hin) as [Hvo Hnew].
  assert (forall p, p ∈ filter (fun p => ID p <> ID peer) asked ->
    ID p ∈ voter_ids (Servers C) /\ ID p ∉ V /\ ID p <> ID peer) as Hrest.
  { intros p [Hp1 Hp2]%list_elem_of_filter. split_and!; [..|done]; by apply V4. }
  assert (NoDup (ID <$> filter (fun p => ID p <> ID peer) asked)) as Hnd.
  { eapply sublist_NoDup; [exact V5|]. apply fmap_sublist, sublist_filter. }
  unfold tally, granted_votes in *. rewrite filter_app, length_app.
  cbn [filter list_filter]. rewrite Hb in Hg.
  destruct (rvr_Granted (vr_response v)).
  - exists ({[ID peer]} ∪ V). cbn [length]. split_and!; [|rewrite size_union, size_singleton| | |done].
    + apply union_subseteq. split; [|done]. by intros x ->%elem_of_singleton.
    + case_decide; [|done]. cbn [length]. lia.
    + set_solver.
    + intros x [->%elem_of_singleton|Hx]%elem_of_union; [by apply Hg|by apply V3].
    + intros p Hp. destruct (Hrest p Hp) as (? & ? & ?). split; [done|]. set_solver.
  - exists V. split_and!; [done| |done| |done].
    + case_decide; [done|]. cbn [length]. lia.
    + intros p Hp. destruct (Hrest p Hp) as (? & ? & ?). done.
Qed.

Lemma vote_of_granted req peer rep err lost :
  rvr_Granted (vr_response (vote_of req peer rep err lost)) = true ->
  exists resp, rep = Some (reply_RequestVote resp) /\ rvr_Granted resp = true.
Proof. destruct rep as [[]|], err, lost; simpl; try done. eauto. Qed.

(** The peer's side of a vote request. *)
Lemma ask_ok g won j ndj req peer ro env ro' rep err lost r' :
  node_ok g won j ndj -> nd_role ndj = Some ro -> ID peer = j ->
  main_step env (ev_rpc (cmd_RequestVote req)) ro (nd_raft ndj) =
    Some (Done (ro', out_reply rep err) r') -> latest_of r' = C ->
  exists g', grows g g' /\ (forall v, v <> j -> g' v = g v) /\ cast g g' j (stable r') /\
    node_ok g' won j (mkNode r' (Some ro') (nd_campaign ndj) (nd_respCh ndj)) /\
    (rvr_Granted (vr_response (vote_of req peer rep err lost)) = true ->
     (rv_Term req, candidateBytes req) ∈ g' (ID peer)).
Proof.
  intros Hok Hro Hp HE HC. destruct (up_sound _ _ _ _ _ Hok Hro) as [Hc Hv].
  assert (ordinary (nd_raft ndj) ro (out_reply rep err) r' ro') as Hord.
  { destruct ro; [done|eapply follower_ordinary|eapply candidate_ordinary
      |eapply leader_ordinary]; by eauto. }
  pose proof (ordinary_ok _ _ _ _ _ _ _ _ Hok Hro Hord HC) as Hnode.
  pose proof (requestVote_step_recorded _ _ _ _ _ _ _ _ _ Hc (ok_votes _ _ _ _ Hok) HE) as [_ Hrec].
  destruct (rvr_Granted (vr_response (vote_of req peer rep err lost))) eqn:Hg.
  - apply vote_of_granted in Hg as (resp & Hrep & Hgr). destruct (Hrec _ Hrep Hgr) as [Hrec' Hlast].
    exists (add_vote g j (rv_Term req) (candidateBytes req)).
    split_and!; [apply add_vote_grows|intros; by apply add_vote_other|by apply cast_add| |].
    + split; simpl.
      * unfold add_vote. rewrite decide_True by done. exact Hrec'.
      * intros ro2 Hro2. eapply up_ok_grows; [apply add_vote_grows|done|].
        by apply (ok_up _ _ _ _ Hnode).
    + intros _. rewrite Hp. apply add_vote_in.
  - exists g. split_and!; [by intros v|done|apply cast_same|done|done].
Qed.

(** ** Every step keeps the invariant *)

Context {F : Type} `{!FSM F SN}.

(** A step of one process that wins no election. *)
Lemma cluster_ok_step g g' cl i nd nd' :
  cluster_ok g cl -> cl_nodes cl !! i = Some nd ->
  grows g g' -> (forall v, v <> i -> g' v = g v) -> node_ok g' (cl_won cl) i nd' ->
  cluster_ok g' (set_node i nd' cl).
Proof. intros Hok Hi Hg Hne Hnd. eapply cluster_ok_set; naive_solver. Qed.

Lemma cluster_ok_step_same g cl i nd nd' :
  cluster_ok g cl -> cl_nodes cl !! i = Some nd -> node_ok g (cl_won cl) i nd' ->
  cluster_ok g (set_node i nd' cl).
Proof. intros Hok Hi Hnd. eapply cluster_ok_step; [done|done|by intros v|done|done]. Qed.

(** A process that went down. *)
Lemma down_ok g won i nd r' :
  node_ok g won i nd -> crashes (nd_raft nd) r' ->
  node_ok g won i (mkNode r' None (nd_campaign nd) (nd_respCh nd)).
Proof. intros Hok Hc. split; [apply Hc, Hok|done]. Qed.

(** A process whose main thread waits while another goroutine works. *)
Lemma background_ok g won i nd ro r' :
  node_ok g won i nd -> nd_role nd = Some ro -> advances (nd_raft nd) r' -> latest_of r' = C ->
  is_candidate_role ro = false \/
    state (raft_state r') = state (raft_state (nd_raft nd)) ->
  node_ok g won i (mkNode r' (Some ro) (nd_campaign nd) (nd_respCh nd)).
Proof.
  intros Hok Hro Ha HC Hcand. eapply advances_ok; [done|done|done|done|].
  intros c ->. split; [done|]. destruct Hcand as [Hn| ->]; [done|].
  by destruct (up_candidate _ _ _ _ _ (ok_up _ _ _ _ Hok _ Hro) c eq_refl).
Qed.

Lemma restart_ok g won i nd cf pv (f f' : F) r' :
  node_ok g won i nd -> LocalID cf = i ->
  NewRaft cf (addr i) pv (stores_of (nd_raft nd)) f = Done None (r', f') -> latest_of r' = C ->
  node_ok g won i (mkNode r' (Some in_run) None []).
Proof.
  intros Hok Hid (I & Hc & Hst & Hv)%NewRaft_sound HC. split; [apply Hv, Hok|].
  intros ? [= <-]. split; simpl; [congruence|done|done|by destruct Hst; congruence|done].
Qed.

Lemma takeSnapshot_state msec req cs r res r' :
  takeSnapshot msec req cs r = Done res r' -> state (raft_state r') = state (raft_state r).
Proof.
  assert (keeps (fun r => state (raft_state r)) (@takeSnapshot L K SN _ _ msec req cs)) as Hk.
  { unfold takeSnapshot, setLastSnapshot. frame.
    all: try by intros ?. all: intros r1.
    all: unfold on_snapshots, compactLogs, compactLogsWithTrailing; by repeat break. }
  intros HE. exact (frames_Done _ _ _ _ _ Hk HE).
Qed.

(** The step that may win an election. *)
Lemma vote_step_ok g cl i nd ro env v rest ro' out r' :
  cluster_ok g cl -> cl_nodes cl !! i = Some nd -> nd_role nd = Some ro ->
  nd_respCh nd = v :: rest ->
  main_step env (ev_vote v) ro (nd_raft nd) = Some (Done (ro', out) r') -> latest_of r' = C ->
  cluster_ok g
    (mkCluster (<[i := mkNode r' (Some ro') (nd_campaign nd) rest]> (cl_nodes cl))
       (record_win i r' (cl_won cl))).
Proof.
  unfold record_win. intros Hok Hi Hro Hch HE HC.
  destruct (vote_ok _ _ _ _ _ _ _ _ _ _ _ (ok_node _ _ Hok _ _ Hi) Hro Hch HE HC) as [HQ Hnd].
  eapply cluster_ok_set; [done|done|by intros v'|done| | |].
  - intros x Hx. case_decide; [by right|done].
  - intros t j Hin Hold. case_decide; [|done]. apply elem_of_cons in Hin as [[= -> ->]|]; auto.
    done.
  - apply Hnd; [intros x Hx; case_decide; [by right|done]|].
    intros Hl. rewrite decide_True by done. left.
Qed.

(** The votes that a step adds are on the disks of their voters. *)
Definition ballots g g' (cl' : cluster L K SN) : Prop :=
  forall v t b, (t, b) ∈ g' v -> (t, b) ∈ g v \/
    exists nd, cl_nodes cl' !! v = Some nd /\ voted (stable (nd_raft nd)) t b.

Lemma ballots_same g cl' : ballots g g cl'.
Proof. intros v t b. by left. Qed.

Lemma ballots_set g g' (cl' : cluster L K SN) i nd :
  (forall v, v <> i -> g' v = g v) -> cast g g' i (stable (nd_raft nd)) ->
  cl_nodes cl' !! i = Some nd -> ballots g g' cl'.
Proof.
  intros Hne Hc Hi v t b Hin. destruct (decide (v = i)) as [->|Hv].
  - destruct (Hc _ _ Hin); eauto.
  - rewrite Hne in Hin by done. by left.
Qed.

#[local] Ltac keep g := exists g; split_and!; [|by intros ?|by apply ballots_same].

Lemma step_ok g cl cl' :
  cluster_ok g cl -> cluster_step (F := F) C addr false cl cl' ->
  exists g', cluster_ok g' cl' /\ grows g g' /\ ballots g g' cl'.
Proof.
  intros Hok Hstep. pose proof (ok_node _ _ Hok) as Hn. destruct Hstep as
    [cl i nd ro env ev ro' out r' Hi Hro Hv Hb Hlt HE HC
    |cl i nd ro env v rest ro' out r' Hi Hro Hch HE HC
    |cl i ndi j ndj req asked peer ro env ro' rep err lost r' Hi Hj Hij Hcp Hin Hp Hro HE HC
    |cl i nd req asked peer e Hi Hcp Hin
    |cl i nd ro now c res r' Hi Hro Hfast HE HC
    |cl i nd l l' sd vs Hi Hro
    |cl i nd ro msec snapReq configReq res r' Hi Hro HE HC
    |cl i nd ro env ev r' Hi Hro Hb Hlt HE
    |cl i nd Hi
    |cl i nd cf pv f f' r' Hi Hro Hid HE HC]; specialize (Hn _ _ Hi) as Hnd.
  - destruct (event_ok _ _ _ _ _ _ _ _ _ _ Hnd Hro Hv Hb Hlt HE HC) as (g' & Hg & Hne & Hc & Hnd').
    exists g'. split_and!; [by eapply cluster_ok_step|done|].
    apply (ballots_set _ _ _ i (after_event nd ro' out r')); [done|by destruct out|].
    simpl. by rewrite lookup_insert_eq.
  - keep g. by eapply vote_step_ok.
  - destruct (ask_ok _ _ _ _ _ _ _ _ _ _ _ lost _ (Hn _ _ Hj) Hro Hp HE HC)
      as (g' & Hg & Hne & Hc & Hndj & Hgr).
    assert (cluster_ok g' (set_node j (mkNode r' (Some ro') (nd_campaign ndj) (nd_respCh ndj)) cl))
      as Hok' by (by eapply cluster_ok_step).
    assert (cl_nodes (set_node j (mkNode r' (Some ro') (nd_campaign ndj) (nd_respCh ndj)) cl) !! i
      = Some ndi) as Hi' by (simpl; by rewrite lookup_insert_ne).
    exists g'. split_and!; [|done|].
    + eapply cluster_ok_step_same; [done|exact Hi'|].
      eapply answered_ok; [by apply (ok_node _ _ Hok')|done|done|done].
    + apply (ballots_set _ _ _ j (mkNode r' (Some ro') (nd_campaign ndj) (nd_respCh ndj)));
        [done|exact Hc|]. simpl.
      by rewrite lookup_insert_ne, lookup_insert_eq.
  - keep g. eapply cluster_ok_step_same; [done|done|]. by eapply answered_ok.
  - keep g. eapply cluster_ok_step_same; [done|done|].
    eapply background_ok; [done|done| |done|left; by destruct Hfast].
    destruct (up_sound _ _ _ _ _ Hnd Hro) as [Hc _].
    pose proof (safe_processHeartbeat now c _ Hc) as Hs. unfold safe_at in Hs. by rewrite HE in Hs.
  - keep g. eapply cluster_ok_step_same; [done|done|]. split; [apply Hnd|].
    intros ? [= <-]. destruct (ok_up _ _ _ _ Hnd _ Hro). by split.
  - keep g. eapply cluster_ok_step_same; [done|done|].
    eapply background_ok; [done|done| |done|right; by eapply takeSnapshot_state].
    apply quiet_advances; [by eapply up_sound|].
    exact (frames_Done _ _ _ _ _ (quiet_takeSnapshot _ _ _) HE).
  - keep g. eapply cluster_ok_step_same; [done|done|]. apply down_ok; [done|].
    destruct (up_sound _ _ _ _ _ Hnd Hro) as [Hc Hv].
    eapply main_step_crashes; [done|done|done|done| |exact HE]. intros c ->.
    apply (up_candidate _ _ _ _ _ (ok_up _ _ _ _ Hnd _ Hro) c eq_refl).
  - keep g. eapply cluster_ok_step_same; [done|done|]. apply down_ok; [done|]. by intros ?.
  - keep g. eapply cluster_ok_step_same; [done|done|]. by eapply restart_ok.
Qed.
End Invariant.

(** ** Election safety *)

Section Safety.
Context {L K SN F : Type} `{LogStore L} `{StableStore K} `{!StableStoreLaws K}
  `{SnapshotStore SN} `{MsgPack} `{PeerCodec} `{!FSM F SN}.
Context (C : Configuration) (addr : ServerID -> ServerAddress).

Lemma votes_recorded_empty (k : K) :
  (disk_vote_term k <= disk_term k)%N -> votes_recorded k ∅.
Proof. intros Hle. split; set_solver. Qed.

Lemma initial_ok (cl : cluster L K SN) :
  initial C addr cl -> cluster_ok C addr (fun _ => ∅) cl.
Proof.
  intros [Hw Hn]. split.
  - intros i nd Hi. destruct (Hn _ _ Hi) as (Hr & Hc & H1' & H2' & H3' & H4' & H5' & H6' & H7').
    split; [by apply votes_recorded_empty|]. intros ro Hro.
    rewrite Hr in Hro. injection Hro as <-.
    split; [unfold identity; congruence|done|done|congruence|done].
  - intros v t b Hin. set_solver.
  - intros t i. rewrite Hw. by intros ?%elem_of_nil.
Qed.

Lemma execution_ok (cl0 cl : cluster L K SN) :
  valid_configuration C -> initial C addr cl0 ->
  rtc (cluster_step (F := F) C addr false) cl0 cl -> exists g, cluster_ok C addr g cl.
Proof.
  intros Hv Hi%initial_ok Hrtc. revert Hi. generalize (fun _ : ServerID => ∅ : gset (N * string)).
  induction Hrtc as [cl|cl1 cl2 cl3 Hs _ IH]; intros g Hok; [eauto|].
  destruct (step_ok C addr Hv _ _ _ Hok Hs) as (g' & Hok' & _). by eapply IH.
Qed.

(** The processes of a cluster stay the same. *)
Lemma cluster_step_dom fast (cl cl' : cluster L K SN) :
  cluster_step (F := F) C addr fast cl cl' -> dom (cl_nodes cl') = dom (cl_nodes cl).
Proof.
  intros Hs. destruct Hs; cbn [set_node cl_nodes]; rewrite ?dom_insert_L;
    repeat match goal with
    | Hl : cl_nodes cl !! ?j = Some _ |- _ =>
        apply elem_of_dom_2 in Hl
    end; set_solver.
Qed.

Lemma execution_dom fast (cl cl' : cluster L K SN) :
  rtc (cluster_step (F := F) C addr fast) cl cl' -> dom (cl_nodes cl') = dom (cl_nodes cl).
Proof.
  induction 1 as [|cl1 cl2 cl3 Hs _ IH]; [done|]. rewrite IH. by eapply cluster_step_dom.
Qed.

End Safety.

(** ** Executions that can be run *)

(** The steps of an execution with what chooses them. *)
Inductive action :=
  | act_event (i : ServerID) (env : rpcEnv) (ev : event)
  | act_vote (i : ServerID) (env : rpcEnv)
  | act_ask (i : ServerID) (peer : Server) (env : rpcEnv) (lost : option error)
  | act_heartbeat (i : ServerID) (now : Z) (c : Command).

Definition outside_event (ev : event) : bool :=
  match ev with ev_vote _ | ev_bootstrap _ _ => false | _ => true end.

Section Run.
Context {L K SN F : Type} `{LogStore L} `{StableStore K} `{SnapshotStore SN} `{MsgPack}
  `{PeerCodec} `{!FSM F SN}.
Context (C : Configuration) (addr : ServerID -> ServerAddress) (fast : bool).
Abbreviation clus := (cluster L K SN).

Definition completed {A} (o : option (outcome (Raft L K SN) A)) : option (A * Raft L K SN) :=
  match o with
  | Some (Done a r) => if decide (latest_of r = C) then Some (a, r) else None
  | _ => None
  end.

Definition perform (a : action) (cl : clus) : option clus :=
  match a with
  | act_event i env ev =>
      nd ← cl_nodes cl !! i; ro ← nd_role nd;
      guard (outside_event ev = true);;
      guard (currentTerm (raft_state (nd_raft nd)) + 1 < u64_size)%N;;
      '(ro', out, r') ← completed (main_step env ev ro (nd_raft nd));
      Some (set_node i (after_event nd ro' out r') cl)
  | act_vote i env =>
      nd ← cl_nodes cl !! i; ro ← nd_role nd;
      '(v, rest) ← match nd_respCh nd with v :: rest => Some (v, rest) | [] => None end;
      '(ro', out, r') ← completed (main_step env (ev_vote v) ro (nd_raft nd));
      Some (mkCluster (<[i := mkNode r' (Some ro') (nd_campaign nd) rest]> (cl_nodes cl))
              (record_win i r' (cl_won cl)))
  | act_ask i peer env lost =>
      ndi ← cl_nodes cl !! i; ndj ← cl_nodes cl !! ID peer; guard (i <> ID peer);;
      '(req, asked) ← nd_campaign ndi; guard (peer ∈ asked);; ro ← nd_role ndj;
      '(ro', out, r') ←
        completed (main_step env (ev_rpc (cmd_RequestVote req)) ro (nd_raft ndj));
      '(rep, err) ← match out with out_reply rep err => Some (rep, err) | _ => None end;
      Some (set_node i (answered peer (vote_of req peer rep err lost) ndi)
              (set_node (ID peer) (mkNode r' (Some ro') (nd_campaign ndj) (nd_respCh ndj)) cl))
  | act_heartbeat i now c =>
      nd ← cl_nodes cl !! i; ro ← nd_role nd;
      guard (fast = true \/ is_candidate_role ro = false);;
      '(_, r') ← completed (Some (processHeartbeat now c (nd_raft nd)));
      Some (set_node i (mkNode r' (Some ro) (nd_campaign nd) (nd_respCh nd)) cl)
  end.

Fixpoint perform_all (acts : list action) (cl : clus) : option clus :=
  match acts with
  | [] => Some cl
  | a :: acts => cl ← perform a cl; perform_all acts cl
  end.

Lemma completed_Some {A} (o : option (outcome (Raft L K SN) A)) a r :
  completed o = Some (a, r) -> o = Some (Done a r) /\ latest_of r = C.
Proof.
  unfold completed. destruct o as [[]|]; try done. case_decide; [|done]. by intros [= -> ->].
Qed.

Lemma perform_step a cl cl' :
  perform a cl = Some cl' -> cluster_step (F := F) C addr fast cl cl'.
Proof.
  destruct a as [i env ev|i env|i peer env lost|i now c]; cbn [perform]; intros HE;
    repeat first
      [ progress simplify_option_eq
      | match goal with
        | Hc : completed _ = Some (?x, _) |- _ =>
            apply completed_Some in Hc as [? ?]; simplify_eq
        | x : (_ * _)%type |- _ => destruct x
        end ].
  - eapply step_event; eauto; by destruct ev.
  - destruct (nd_respCh _) eqn:?; simplify_eq. by eapply step_vote.
  - destruct o; simplify_eq. by eapply step_ask.
  - apply (completed_Some (Some _)) in Heqo2 as [[= ?] ?]. eapply step_heartbeat; eauto.
  - apply (completed_Some (Some _)) in Heqo2 as [[= ?] ?]. eapply step_heartbeat; eauto.
Qed.

Lemma perform_all_steps acts cl cl' :
  perform_all acts cl = Some cl' -> rtc (cluster_step (F := F) C addr fast) cl cl'.
Proof.
  revert cl. induction acts as [|a acts IH]; intros cl; cbn [perform_all].
  - intros [= ->]. constructor.
  - destruct (perform a cl) as [cl1|] eqn:Hp; [|done]. intros HE.
    eapply rtc_l; [by eapply perform_step|by apply IH].
Qed.

Lemma performed {X} (f : clus -> X) acts cl0 x :
  f <$> perform_all acts cl0 = Some x ->
  exists cl, rtc (cluster_step (F := F) C addr fast) cl0 cl /\ f cl = x.
Proof.
  destruct (perform_all acts cl0) as [cl|] eqn:HE; [|done]. intros [= <-].
  exists cl. split; [by eapply perform_all_steps|done].
Qed.
End Run.

(** ** Three servers *)

#[local] Existing Instance bitsMsgPack.
#[local] Existing Instance inmemPeerCodec.

#[local] Existing Instance list_FSM.

Definition trio_addr (i : ServerID) : ServerAddress := ("addr-" ++ i)%string.

(** A follower of the trio that voted for nobody in term 3; pre-votes are disabled. *)
Definition trio_server (i : ServerID) : Raft InmemStore InmemStore InmemSnapshotStore :=
  mkRaft (mkRaftState 3 1 1 0 0 3 2 Follower) 3 (config_of i) i (trio_addr i) 0 "" "" false true
    (inmem_StoreLogs_loop NewInmemStore log_b)
    (mkInmemStore 0 0 ∅ ∅ {[keyCurrentTerm := 3%N]}) NewInmemSnapshotStore
    (mkConfigurations trio 1 trio 1) (Some trio) [] ∅ [] false.

Definition trio_node (i : ServerID) : node InmemStore InmemStore InmemSnapshotStore :=
  mkNode (trio_server i) (Some in_run) None [].

Definition trio_cluster : cluster InmemStore InmemStore InmemSnapshotStore :=
  mkCluster {["a" := trio_node "a"; "b" := trio_node "b"; "c" := trio_node "c"]} [].

Definition noon : rpcEnv := mkRpcEnv (5 * Second) 5000 "" None None.

(** Server [i] starts its loop, hears nothing and campaigns. *)
Definition campaigns (i : ServerID) : list action :=
  [act_event i noon ev_enter; act_event i noon ev_timer; act_event i noon ev_enter].

Definition peer_c : Server := mkServer Voter "c" "addr-c".

(** [a] campaigns in term 4, and [c] votes for it. *)
Definition a_campaigns : list action :=
  act_event "c" noon ev_enter :: campaigns "a" ++
  [act_vote "a" noon; act_ask "a" peer_c noon None].

(** [b] campaigns in term 4, hears nothing, campaigns in term 5 and wins. *)
Definition b_wins : list action :=
  campaigns "b" ++
  [act_event "b" noon ev_timer; act_event "b" noon ev_enter; act_vote "b" noon;
   act_ask "b" peer_c noon None; act_vote "b" noon].

(** The heartbeat of the leader [b], as [heartbeat] sends it. *)
Definition heartbeat_b : AppendEntriesRequest :=
  mkAppendEntriesRequest (mkHeader 3 "b" "addr-b") 5 "addr-b" 0 0 [] 0.

Lemma trio_initial : initial trio trio_addr trio_cluster.
Proof.
  split; [done|]. intros i nd Hi.
  assert (i ∈ ["a"; "b"; "c"] /\ nd = trio_node i) as [Hin ->].
  { revert Hi. unfold trio_cluster. cbn [cl_nodes].
    rewrite !lookup_insert_Some, lookup_singleton_Some. set_solver. }
  split_and!; try done; repeat (apply elem_of_cons in Hin as [->|Hin]; [done|]);
    by apply elem_of_nil in Hin.
Qed.

Lemma trio_inj i j :
  i ∈ dom (cl_nodes trio_cluster) -> j ∈ dom (cl_nodes trio_cluster) ->
  EncodePeer i (trio_addr i) = EncodePeer j (trio_addr j) -> i = j.
Proof. intros _ _ He. by injection He. Qed.

(** The executions, as far as the statements below look at them. *)
Lemma b_elected :
  cl_won <$> perform_all trio false (a_campaigns ++ b_wins) trio_cluster = Some [(5%N, "b")].
Proof. vm_compute. reflexivity. Qed.

Definition race : list action :=
  a_campaigns ++ b_wins ++
  [act_heartbeat "a" 0 (cmd_AppendEntries heartbeat_b); act_vote "a" noon].

Definition standing (i : ServerID) (cl : cluster InmemStore InmemStore InmemSnapshotStore)
    : option (RaftState * N) :=
  (fun nd => (state (raft_state (nd_raft nd)), currentTerm (raft_state (nd_raft nd))))
    <$> cl_nodes cl !! i.

Lemma race_won :
  (fun cl => (cl_won cl, standing "a" cl, standing "b" cl))
    <$> perform_all trio true race trio_cluster
  = Some ([(5%N, "a"); (5%N, "b")], Some (Leader, 5%N), Some (Leader, 5%N)).
Proof. vm_compute. reflexivity. Qed.


(** C5: heartbeats on the transport's fast path break election safety.  [a] waits
    in the loop of a candidate of term 4 for its last vote; [b] wins term 5, and
    its heartbeat makes [a] a follower of term 5 behind the back of the loop, which
    then counts the vote of term 4 and makes [a] a leader of term 5 too. *)
Theorem heartbeat_fast_path_two_leaders :
  initial trio trio_addr trio_cluster /\
  exists cl,
    rtc (cluster_step (F := list string) trio trio_addr true) trio_cluster cl /\
    cl_won cl = [(5%N, "a"); (5%N, "b")] /\
    standing "a" cl = Some (Leader, 5%N) /\ standing "b" cl = Some (Leader, 5%N).
Proof.
  split; [apply trio_initial|].
  destruct (performed (F := list string) trio trio_addr true _ _ _ _ race_won)
    as (cl & Hrtc & Hw).
  injection Hw as Hw Ha Hb. by exists cl.
Qed.
