(* ===== verification/Network.v ===== *)
(** * A cluster with its network: replication

    The processes of [Cluster] with the requests that leaders and candidates really
    send.  A server receives only the requests that were built for it, any number of
    times and in any order; a leader's routines build their requests from its log and
    process the answers that were given to them.  The membership is fixed and no
    snapshots are taken. *)
From S2P Require Import Prelude Types Util Codec Configuration Config Commitment Stores State Elections AppendEntries SnapshotStores Snapshot Fsm Replication Leader Api Server Advance Protocol Logs Cluster.

(** ** Definitions *)

(** The processes, and everything that was ever sent: the vote requests, the requests
    of the replication routines with their receivers, the heartbeats, and the answers
    to the requests of the routines. *)
Record network (L K SN : Type) := mkNetwork {
  nt_cluster : cluster L K SN;
  nt_votes : list RequestVoteRequest;
  nt_msgs : list (ServerID * AppendEntriesRequest);
  nt_beats : list (ServerID * AppendEntriesRequest);
  nt_replies : list (ServerID * AppendEntriesRequest * AppendEntriesResponse)
}.
Arguments mkNetwork {L K SN} _ _ _ _ _.
Arguments nt_cluster {L K SN} _.
Arguments nt_votes {L K SN} _.
Arguments nt_msgs {L K SN} _.
Arguments nt_beats {L K SN} _.
Arguments nt_replies {L K SN} _.

(** The entries that [Apply], [ApplyLog] and [Barrier] put on [applyCh]. *)
Definition client_entry (f : logFuture) : Prop :=
  log_Type (lf_log f) = LogCommand \/ log_Type (lf_log f) = LogBarrier.

(** How many entries an event may append to the log of a leader. *)
Definition appended_by (ev : event) : nat :=
  match ev with ev_apply _ waiting => S (length waiting) | _ => 1 end.

Section NetworkModel.
Context {L K SN F : Type} `{LogStore L} `{StableStore K} `{SnapshotStore SN} `{!FSM F SN}
  `{MsgPack} `{PeerCodec}.
Abbreviation raft := (Raft L K SN).
Abbreviation netw := (network L K SN).
Implicit Types nt : netw.

Definition on_cluster (cl : cluster L K SN) nt : netw :=
  mkNetwork cl (nt_votes nt) (nt_msgs nt) (nt_beats nt) (nt_replies nt).

Definition campaigned (out : output) nt : netw :=
  match out with
  | out_campaign e =>
      mkNetwork (nt_cluster nt) (cp_request e :: nt_votes nt) (nt_msgs nt) (nt_beats nt)
        (nt_replies nt)
  | _ => nt
  end.

Definition sent (j : ServerID) (a : AppendEntriesRequest) nt : netw :=
  mkNetwork (nt_cluster nt) (nt_votes nt) ((j, a) :: nt_msgs nt) (nt_beats nt) (nt_replies nt).

Definition beaten (j : ServerID) (a : AppendEntriesRequest) nt : netw :=
  mkNetwork (nt_cluster nt) (nt_votes nt) (nt_msgs nt) ((j, a) :: nt_beats nt) (nt_replies nt).

Definition replied (j : ServerID) (a : AppendEntriesRequest) (rep : option Reply)
    (err : option error) nt : netw :=
  match rep, err with
  | Some (reply_AppendEntries resp), None =>
      mkNetwork (nt_cluster nt) (nt_votes nt) (nt_msgs nt) (nt_beats nt)
        ((j, a, resp) :: nt_replies nt)
  | _, _ => nt
  end.

(** What the main thread of server [i] may receive: requests that were sent, and what
    clients and timers give it; no change of the membership, and no snapshot. *)
Definition admissible nt (i : ServerID) (ev : event) : Prop :=
  match ev with
  | ev_rpc (cmd_AppendEntries a) => (i, a) ∈ nt_beats nt
  | ev_rpc (cmd_RequestVote req) => req ∈ nt_votes nt
  | ev_rpc (cmd_InstallSnapshot _) => False
  | ev_apply f waiting => Forall client_entry (f :: waiting)
  | ev_configurationChange _ _ | ev_userRestore _ _ | ev_bootstrap _ _ | ev_vote _ => False
  | _ => True
  end.

(** Indexes and terms do not reach the end of their 64 bits. *)
Definition roomy (r : raft) (n : nat) : Prop :=
  (getLastIndex (raft_state r) + N.of_nat n + 1 < u64_size)%N /\
  (currentTerm (raft_state r) + 1 < u64_size)%N.

(** The main thread is between two loops, or in the one of a follower. *)
Definition waits (ro : role) : bool :=
  match ro with in_run | in_follower => true | _ => false end.

Definition with_role (nd : node L K SN) (r : raft) (ro : option role) : node L K SN :=
  mkNode r ro (nd_campaign nd) (nd_respCh nd).

(** The steps.  [fast] says whether the transport hands heartbeats to
    [processHeartbeat] while the main thread waits in the loop of a candidate or of a
    leader, and [late] whether a replication routine uses a last index that it read
    before its leader had stored the entry that opens its term. *)
Inductive net_step (C : Configuration) (addr : ServerID -> ServerAddress) (fast late : bool)
    : netw -> netw -> Prop :=
  | net_event nt i nd ro env ev ro' out r' :
      cl_nodes (nt_cluster nt) !! i = Some nd -> nd_role nd = Some ro ->
      admissible nt i ev -> roomy (nd_raft nd) (appended_by ev) ->
      main_step env ev ro (nd_raft nd) = Some (Done (ro', out) r') -> latest_of r' = C ->
      net_step C addr fast late nt
        (campaigned out
           (on_cluster (set_node i (after_event nd ro' out r') (nt_cluster nt)) nt))
  (** A request of a replication routine is handled; the answer may be read later. *)
  | net_append nt i nd ro env a ro' rep err r' :
      cl_nodes (nt_cluster nt) !! i = Some nd -> nd_role nd = Some ro ->
      (i, a) ∈ nt_msgs nt -> roomy (nd_raft nd) 1 ->
      main_step env (ev_rpc (cmd_AppendEntries a)) ro (nd_raft nd) =
        Some (Done (ro', out_reply rep err) r') -> latest_of r' = C ->
      net_step C addr fast late nt
        (replied i a rep err
           (on_cluster (set_node i (with_role nd r' (Some ro')) (nt_cluster nt)) nt))
  | net_vote nt i nd ro env v rest ro' out r' :
      cl_nodes (nt_cluster nt) !! i = Some nd -> nd_role nd = Some ro ->
      nd_respCh nd = v :: rest ->
      main_step env (ev_vote v) ro (nd_raft nd) = Some (Done (ro', out) r') ->
      latest_of r' = C ->
      net_step C addr fast late nt
        (on_cluster
           (mkCluster
              (<[i := mkNode r' (Some ro') (nd_campaign nd) rest]> (cl_nodes (nt_cluster nt)))
              (record_win i r' (cl_won (nt_cluster nt)))) nt)
  | net_ask nt i ndi j ndj req asked peer ro env ro' rep err lost r' :
      cl_nodes (nt_cluster nt) !! i = Some ndi -> cl_nodes (nt_cluster nt) !! j = Some ndj ->
      i <> j -> nd_campaign ndi = Some (req, asked) -> peer ∈ asked -> ID peer = j ->
      nd_role ndj = Some ro -> roomy (nd_raft ndj) 1 ->
      main_step env (ev_rpc (cmd_RequestVote req)) ro (nd_raft ndj) =
        Some (Done (ro', out_reply rep err) r') -> latest_of r' = C ->
      net_step C addr fast late nt
        (on_cluster
           (set_node i (answered peer (vote_of req peer rep err lost) ndi)
              (set_node j (with_role ndj r' (Some ro')) (nt_cluster nt))) nt)
  | net_lost nt i nd req asked peer e :
      cl_nodes (nt_cluster nt) !! i = Some nd -> nd_campaign nd = Some (req, asked) ->
      peer ∈ asked ->
      net_step C addr fast late nt
        (on_cluster
           (set_node i (answered peer (vote_of req peer None None (Some e)) nd)
              (nt_cluster nt)) nt)
  (** The transport's goroutine handles a heartbeat. *)
  | net_heartbeat nt i nd ro now a res r' :
      cl_nodes (nt_cluster nt) !! i = Some nd -> nd_role nd = Some ro ->
      (i, a) ∈ nt_beats nt -> fast = true \/ waits ro = true -> roomy (nd_raft nd) 1 ->
      processHeartbeat now (cmd_AppendEntries a) (nd_raft nd) = Done res r' ->
      latest_of r' = C ->
      net_step C addr fast late nt
        (on_cluster (set_node i (with_role nd r' (Some ro)) (nt_cluster nt)) nt)
  (** A replication routine sends a request: [replicateTo] from the routine's next
      index, [pipelineSend] from one behind it. *)
  | net_send nt i nd l sd vs j f next lastIndex req :
      cl_nodes (nt_cluster nt) !! i = Some nd -> nd_role nd = Some (in_leader l sd vs) ->
      replState l !! j = Some f -> (fr_nextIndex f <= next)%N ->
      late = true \/ (startIndex (ls_commitment l) <= lastIndex)%N ->
      (0 < MaxAppendEntries (conf (nd_raft nd)))%Z ->
      (next + Z.to_N (MaxAppendEntries (conf (nd_raft nd))) + 1 < u64_size)%N ->
      setupAppendEntries (nd_raft nd) f next lastIndex = Ok req ->
      net_step C addr fast late nt (sent (ID (fr_peer f)) req nt)
  | net_beat nt i nd l sd vs j f :
      cl_nodes (nt_cluster nt) !! i = Some nd -> nd_role nd = Some (in_leader l sd vs) ->
      replState l !! j = Some f ->
      net_step C addr fast late nt
        (beaten (ID (fr_peer f)) (heartbeat_request (nd_raft nd) f) nt)
  (** An answer to a request of a routine: to [replicateTo], which waits for it with
      the next index of the request, or on the pipeline. *)
  | net_reply nt i nd l sd vs j f now req resp step l' :
      cl_nodes (nt_cluster nt) !! i = Some nd -> nd_role nd = Some (in_leader l sd vs) ->
      replState l !! j = Some f -> (j, req, resp) ∈ nt_replies nt ->
      ae_Term req = fr_currentTerm f -> (ae_PrevLogEntry req + 1 = fr_nextIndex f)%N ->
      roomy (nd_raft nd) 1 ->
      replicate_response now j req (Ok resp) l = (step, l') ->
      net_step C addr fast late nt
        (on_cluster
           (set_node i (with_role nd (nd_raft nd) (Some (in_leader l' sd vs)))
              (nt_cluster nt)) nt)
  | net_pipelined nt i nd l sd vs j f now req resp b l' :
      cl_nodes (nt_cluster nt) !! i = Some nd -> nd_role nd = Some (in_leader l sd vs) ->
      replState l !! j = Some f -> (j, req, resp) ∈ nt_replies nt ->
      ae_Term req = fr_currentTerm f -> roomy (nd_raft nd) 1 ->
      pipelineDecode_response now j req resp l = (b, l') ->
      net_step C addr fast late nt
        (on_cluster
           (set_node i (with_role nd (nd_raft nd) (Some (in_leader l' sd vs)))
              (nt_cluster nt)) nt)
  (** What else the routines do to the state of a leader: failures, contacts, votes on
      verifications. *)
  | net_background nt i nd l l' sd vs :
      cl_nodes (nt_cluster nt) !! i = Some nd -> nd_role nd = Some (in_leader l sd vs) ->
      progress_of l' = progress_of l ->
      net_step C addr fast late nt
        (on_cluster
           (set_node i (with_role nd (nd_raft nd) (Some (in_leader l' sd vs)))
              (nt_cluster nt)) nt)
  | net_panic nt i nd ro env ev r' :
      cl_nodes (nt_cluster nt) !! i = Some nd -> nd_role nd = Some ro ->
      admissible nt i ev \/ (exists a, ev = ev_rpc (cmd_AppendEntries a) /\ (i, a) ∈ nt_msgs nt) ->
      roomy (nd_raft nd) (appended_by ev) ->
      main_step env ev ro (nd_raft nd) = Some (Panicked r') ->
      net_step C addr fast late nt
        (on_cluster (set_node i (with_role nd r' None) (nt_cluster nt)) nt)
  | net_crash nt i nd :
      cl_nodes (nt_cluster nt) !! i = Some nd ->
      net_step C addr fast late nt
        (on_cluster (set_node i (with_role nd (nd_raft nd) None) (nt_cluster nt)) nt)
  | net_restart nt i nd cf supportPreVote (f f' : F) r' :
      cl_nodes (nt_cluster nt) !! i = Some nd -> nd_role nd = None -> LocalID cf = i ->
      NewRaft cf (addr i) supportPreVote (stores_of (nd_raft nd)) f = Done None (r', f') ->
      latest_of r' = C -> getLastSnapshot (raft_state r') = (0, 0)%N ->
      net_step C addr fast late nt
        (on_cluster (set_node i (mkNode r' (Some in_run) None []) (nt_cluster nt)) nt).

Lemma campaigned_cluster out nt : nt_cluster (campaigned out nt) = nt_cluster nt.
Proof. by destruct out. Qed.

Lemma replied_cluster j a rep err nt : nt_cluster (replied j a rep err nt) = nt_cluster nt.
Proof. by destruct rep as [[]|], err. Qed.

(** The cluster of a network takes the steps of [Cluster]. *)
Lemma net_step_cluster C addr late nt nt' :
  net_step C addr false late nt nt' ->
  nt_cluster nt' = nt_cluster nt \/
  cluster_step (F := F) C addr false (nt_cluster nt) (nt_cluster nt').
Proof.
  intros Hs. destruct Hs as
    [nt i nd ro env ev ro' out r' Hi Hro Ha [_ Hlt] HE HC
    |nt i nd ro env a ro' rep err r' Hi Hro Ha [_ Hlt] HE HC
    |nt i nd ro env v rest ro' out r' Hi Hro Hch HE HC
    |nt i ndi j ndj req asked peer ro env ro' rep err lost r' Hi Hj Hij Hcp Hin Hp Hro _ HE HC
    |nt i nd req asked peer e Hi Hcp Hin
    |nt i nd ro now a res r' Hi Hro Ha Hfast _ HE HC
    |nt i nd l sd vs j f next lastIndex req
    |nt i nd l sd vs j f
    |nt i nd l sd vs j f now req resp step l' Hi Hro
    |nt i nd l sd vs j f now req resp b l' Hi Hro
    |nt i nd l l' sd vs Hi Hro
    |nt i nd ro env ev r' Hi Hro Ha [_ Hlt] HE
    |nt i nd Hi
    |nt i nd cf pv f f' r' Hi Hro Hid HE HC _]; try by left.
  all: right.
  - rewrite campaigned_cluster. eapply step_event; eauto; by destruct ev.
  - rewrite replied_cluster. 
    by eapply (step_event _ _ _ _ _ _ _ env (ev_rpc (cmd_AppendEntries a)) _ (out_reply rep err)).
  - by eapply step_vote.
  - by eapply step_ask.
  - by eapply step_lost.
  - eapply step_heartbeat; eauto. right. destruct Hfast; [done|]. by destruct ro.
  - by eapply step_replication.
  - by eapply step_replication.
  - by eapply step_replication.
  - eapply step_panic; eauto. destruct Ha as [Ha|(a & -> & _)]; [by destruct ev|done].
  - by eapply step_crash.
  - by eapply step_restart.
Qed.
End NetworkModel.
