(* ===== verification/Agreement.v ===== *)
(** * Log matching and state machine safety

    The network of [Network] follows the protocol of [Protocol]: every step of a server
    is a sequence of steps of the protocol, for the state in which the log of each
    server is a list.  With log stores that are lists and stores whose writes succeed,
    the results of the protocol hold of the servers: two logs with an entry of the
    same index and term agree up to it, and what two servers have committed, at any
    two times, is the same. *)
From stdpp Require Import functions.
From S2P Require Import Prelude Types Util Codec Configuration Config Commitment Stores State Elections AppendEntries SnapshotStores Snapshot Fsm Replication Leader Api Server Advance Protocol Logs Cluster Network.

Section Simulation.
Context {L K SN F : Type} `{LogStore L} `{!ListStore L} `{StableStore K} `{!StableStoreLaws K}
  `{!SteadyStore K} `{SnapshotStore SN} `{!FSM F SN} `{MsgPack} `{PeerCodec}.
Context (C : Configuration) (addr : ServerID -> ServerAddress).
Context (D : gset ServerID) (base : list Log).
Abbreviation raft := (Raft L K SN).
Abbreviation netw := (network L K SN).
Abbreviation pstate := (Proto.proto (I := ServerID) (E := Log)).
Abbreviation last_term := (Proto.last_term log_Term).
Abbreviation bytes := (bytes addr).
Implicit Types r : raft.
Implicit Types s : pstate.
Implicit Types g : ServerID -> gset (N * string).

(** ** The relation *)

Definition quorum (Q : gset ServerID) : Prop := is_quorum Q (voter_set C).

Definition steps : pstate -> pstate -> Prop := rtc (Proto.proto_step log_Term quorum).

Abbreviation inv := (Proto.inv log_Term quorum base).

(** The disk of the server [i]: its log, its term, and its last vote. *)
Record disk_sim s (i : ServerID) r : Prop := {
  ds_holds : holds (logs r) (Proto.p_log s i);
  ds_plain : Forall plain (Proto.p_log s i);
  ds_term : disk_term (stable r) = Proto.p_term s i;
  ds_le : (disk_vote_term (stable r) <= disk_term (stable r))%N;
  ds_recorded t c : Proto.p_votes s i t c -> c ∈ D /\
    (t <= disk_vote_term (stable r))%N /\
    (t = disk_vote_term (stable r) -> disk_vote_cand (stable r) = Some (bytes c));
  ds_voted t c : c ∈ D -> voted (stable r) t (bytes c) -> Proto.p_votes s i t c
}.

(** What a leader knows of its followers, as a [progress_of]. *)
Record leader_sim s (i : ServerID)
    (P : gmap ServerID N * N * N * gmap ServerID (N * N * ServerID)) : Prop := {
  lm_start : exists ld, Proto.p_lead s (Proto.p_term s i) = Some ld /\
    Proto.ld_id ld = i /\ (N.of_nat (length (Proto.ld_start ld)) < P.1.2)%N;
  lm_voters : dom P.1.1.1 = voter_set C;
  lm_match v m k : P.1.1.1 !! v = Some m -> (P.1.2 <= N.of_nat k <= m)%N ->
    Proto.p_acks s v (Proto.p_term s i) k;
  lm_commit : P.1.1.2 = 0%N \/
    Proto.stored quorum s (Proto.p_term s i) (N.to_nat P.1.1.2);
  lm_routine j t n p : P.2 !! j = Some (t, n, p) ->
    j <> i /\ p = j /\ t = Proto.p_term s i /\ (1 <= n)%N /\
    Proto.p_hints s t j (N.to_nat n)
}.

Definition leading (ro : role) : Prop := exists l sd vs, ro = in_leader l sd vs.

(** A process that is up. *)
Record up_sim s (i : ServerID) r (ro : role) : Prop := {
  us_positions : positions r (Proto.p_log s i);
  us_commit : commitIndex (raft_state r) = N.of_nat (Proto.p_commit s i);
  us_leader : state (raft_state r) = Leader ->
    exists ld, Proto.p_lead s (Proto.p_term s i) = Some ld /\ Proto.ld_id ld = i /\
      (~ leading ro -> Proto.ld_log ld = Proto.ld_start ld /\
         forall j, Proto.p_hints s (Proto.p_term s i) j (S (length (Proto.ld_start ld))));
  us_cand c : ro = in_candidate c -> cl_voteCh c = true -> Proto.p_cand s i = true;
  us_loop l sd vs : ro = in_leader l sd vs ->
    state (raft_state r) = Leader /\ leader_sim s i (progress_of l)
}.

(** A campaign that was started. *)
Definition request_sim s (req : RequestVoteRequest) : Prop :=
  exists i l, i ∈ D /\ candidateBytes req = bytes i /\
    Proto.p_camp s (rv_Term req) i = Some l /\
    rv_LastLogIndex req = N.of_nat (length l) /\ rv_LastLogTerm req = last_term l.

(** A request of a replication routine to the server [j]. *)
Definition abstract (j : ServerID) (a : AppendEntriesRequest) : Proto.append :=
  Proto.mkAppend (ae_Term a) j (N.to_nat (ae_PrevLogEntry a)) (ae_PrevLogTerm a)
    (ae_Entries a) (N.to_nat (ae_LeaderCommitIndex a)).

Definition message_sim s (j : ServerID) (a : AppendEntriesRequest) : Prop :=
  Proto.p_msgs s (abstract j a) /\ Forall plain (ae_Entries a) /\
  consecutive_from (ae_PrevLogEntry a + 1) (ae_Entries a).

Definition beat_sim s (j : ServerID) (a : AppendEntriesRequest) : Prop :=
  ae_PrevLogEntry a = 0%N /\ ae_Entries a = [] /\ ae_LeaderCommitIndex a = 0%N /\
  exists ld, Proto.p_lead s (ae_Term a) = Some ld /\ Proto.ld_id ld <> j.

(** An answer of the server [j] to the request [a]. *)
Definition reply_sim s (j : ServerID) (a : AppendEntriesRequest)
    (resp : AppendEntriesResponse) : Prop :=
  message_sim s j a /\ (aer_LastLog resp + 1 < u64_size)%N /\
  ((aer_Term resp <= ae_Term a)%N ->
   if aer_Success resp then
     (exists ld, Proto.p_lead s (ae_Term a) = Some ld /\
        forall k, length (Proto.ld_start ld) < k <=
          N.to_nat (ae_PrevLogEntry a) + length (ae_Entries a) ->
        Proto.p_acks s j (ae_Term a) k) /\
     (forall n, 1 <= n -> Proto.p_hints s (ae_Term a) j n)
   else
     (1 <= ae_PrevLogEntry a)%N /\
     Proto.p_hints s (ae_Term a) j (N.to_nat (ae_PrevLogEntry a)) /\
     Proto.p_hints s (ae_Term a) j (S (N.to_nat (aer_LastLog resp)))).

Record sim g s (nt : netw) : Prop := {
  sm_cluster : cluster_ok C addr g (nt_cluster nt);
  sm_dom : dom (cl_nodes (nt_cluster nt)) = D;
  sm_inv : inv s;
  sm_votes v t c : c ∈ D -> (t, bytes c) ∈ g v -> Proto.p_votes s v t c;
  sm_disk i nd : cl_nodes (nt_cluster nt) !! i = Some nd -> disk_sim s i (nd_raft nd);
  sm_up i nd ro : cl_nodes (nt_cluster nt) !! i = Some nd -> nd_role nd = Some ro ->
    up_sim s i (nd_raft nd) ro;
  sm_own i nd req asked : cl_nodes (nt_cluster nt) !! i = Some nd ->
    nd_campaign nd = Some (req, asked) -> req ∈ nt_votes nt;
  sm_requests req : req ∈ nt_votes nt -> request_sim s req;
  sm_msgs j a : (j, a) ∈ nt_msgs nt -> message_sim s j a;
  sm_beats j a : (j, a) ∈ nt_beats nt -> beat_sim s j a;
  sm_replies j a resp : (j, a, resp) ∈ nt_replies nt -> reply_sim s j a resp
}.

(** ** Steps of another server *)

Section Others.
Context (i : ServerID) (s s' : pstate) (Ho : Proto.others i s s').

Lemma request_others req : request_sim s req -> request_sim s' req.
Proof using Ho.
  intros (c & l & H1' & H2' & H3' & H4' & H5'). exists c, l. split_and!; try done.
  by apply (Proto.ot_camp _ _ _ Ho).
Qed.

Lemma message_others j a : message_sim s j a -> message_sim s' j a.
Proof using Ho. intros (H1' & H2'). split; [|done]. by apply (Proto.ot_msgs _ _ _ Ho). Qed.

Lemma beat_others j a : beat_sim s j a -> beat_sim s' j a.
Proof using Ho.
  intros (H1' & H2' & H3' & ld & Hl & Hid). split_and!; [done..|].
  destruct (Proto.ot_grows _ _ _ Ho _ _ Hl) as (ld' & Hl' & Hid' & _). exists ld'.
  split; [done|congruence].
Qed.

Lemma reply_others j a resp : reply_sim s j a resp -> reply_sim s' j a resp.
Proof using Ho.
  intros (Hm & Hl & Hr). split_and!; [by apply message_others|done|]. intros Ht.
  specialize (Hr Ht). destruct (aer_Success resp).
  - destruct Hr as [(ld & Hld & Ha) Hh]. split.
    + destruct (Proto.ot_grows _ _ _ Ho _ _ Hld) as (ld' & Hl' & _ & Hst & _). exists ld'.
      split; [done|]. rewrite Hst. intros k Hk. by apply (Proto.ot_acks _ _ _ Ho), Ha.
    + intros n Hn. by apply (Proto.ot_hints _ _ _ Ho), Hh.
  - destruct Hr as (H1' & H2' & H3'). split_and!; [done|by apply (Proto.ot_hints _ _ _ Ho)..].
Qed.

Context (j : ServerID) (Hj : j <> i).

Lemma disk_others r : disk_sim s j r -> disk_sim s' j r.
Proof using Ho Hj.
  destruct (Proto.ot_same _ _ _ Ho j Hj) as (Et & El & Ec & Ed).
  intros [D1 D2 D3 D4 D5 D6]. split; rewrite ?El, ?Et; try done.
  - intros t c Hv. apply D5. by destruct (Proto.ot_votes _ _ _ Ho _ _ _ Hv).
  - intros t c Hc Hv. by apply (Proto.ot_voted _ _ _ Ho), D6.
Qed.

Lemma leader_others P : leader_sim s j P -> leader_sim s' j P.
Proof using Ho Hj.
  destruct (Proto.ot_same _ _ _ Ho j Hj) as (Et & El & Ec & Ed).
  intros [(ld & L1 & L2 & L3) M2 M3 M4 M5]. split; rewrite ?Et; try done.
  - exists ld. split_and!; [|done|done]. apply (Proto.ot_lead _ _ _ Ho); [done|congruence].
  - intros v m k Hm Hk. apply (Proto.ot_acks _ _ _ Ho). by eapply M3.
  - destruct M4 as [?|(Q & HQ & Ha)]; [by left|right]. exists Q. split; [done|].
    intros v Hv. by apply (Proto.ot_acks _ _ _ Ho), Ha.
  - intros k t n p Hk. destruct (M5 _ _ _ _ Hk) as (? & ? & ? & ? & Hh).
    split_and!; try done. by apply (Proto.ot_hints _ _ _ Ho).
Qed.

Lemma up_others r ro : up_sim s j r ro -> up_sim s' j r ro.
Proof using Ho Hj.
  destruct (Proto.ot_same _ _ _ Ho j Hj) as (Et & El & Ec & Ed).
  intros [U1 U2 U3 U4 U5]. split; rewrite ?El, ?Ec, ?Ed, ?Et; try done.
  - intros Hst. destruct (U3 Hst) as (ld & H1' & H2' & H3'). exists ld. split_and!; [|done|].
    + apply (Proto.ot_lead _ _ _ Ho); [done|congruence].
    + intros Hn. destruct (H3' Hn) as [? Hh]. split; [done|]. intros k.
      apply (Proto.ot_hints _ _ _ Ho), Hh.
  - intros l sd vs Hro. destruct (U5 _ _ _ Hro) as [Hs Hl]. split; [done|].
    by apply leader_others.
Qed.
End Others.

(** A step of the server [i]. *)
Lemma sim_step g g' s s' (nt nt' : netw) i :
  sim g s nt -> steps s s' -> Proto.others i s s' -> inv s' ->
  cluster_ok C addr g' (nt_cluster nt') -> ballots g g' (nt_cluster nt') ->
  dom (cl_nodes (nt_cluster nt')) = dom (cl_nodes (nt_cluster nt)) ->
  (forall v nd', v <> i -> cl_nodes (nt_cluster nt') !! v = Some nd' ->
     exists nd, cl_nodes (nt_cluster nt) !! v = Some nd /\
       nd_raft nd' = nd_raft nd /\ nd_role nd' = nd_role nd) ->
  (forall nd', cl_nodes (nt_cluster nt') !! i = Some nd' ->
     disk_sim s' i (nd_raft nd') /\
     forall ro, nd_role nd' = Some ro -> up_sim s' i (nd_raft nd') ro) ->
  (forall v nd' req asked, cl_nodes (nt_cluster nt') !! v = Some nd' ->
     nd_campaign nd' = Some (req, asked) -> req ∈ nt_votes nt') ->
  (forall req, req ∈ nt_votes nt' -> req ∈ nt_votes nt \/ request_sim s' req) ->
  (forall j a, (j, a) ∈ nt_msgs nt' -> (j, a) ∈ nt_msgs nt \/ message_sim s' j a) ->
  (forall j a, (j, a) ∈ nt_beats nt' -> (j, a) ∈ nt_beats nt \/ beat_sim s' j a) ->
  (forall j a resp, (j, a, resp) ∈ nt_replies nt' ->
     (j, a, resp) ∈ nt_replies nt \/ reply_sim s' j a resp) ->
  sim g' s' nt'.
Proof.
  intros [S1 S2 S3 S4 S5 S6 S7 S8 S9 S10 S11] Hs Ho Hinv Hok Hb Hdom Hoth Hi Hown Hreq Hmsg Hbeat Hrep.
  assert (forall v nd', cl_nodes (nt_cluster nt') !! v = Some nd' ->
    disk_sim s' v (nd_raft nd')) as Hdisk.
  { intros v nd' Hv. destruct (decide (v = i)) as [->|Hne]; [by apply Hi|].
    destruct (Hoth _ _ Hne Hv) as (nd & Hnd & -> & _). eapply disk_others; [done|done|].
    by apply S5. }
  split; try done.
  - congruence.
  - intros v t c Hc Hin. destruct (Hb _ _ _ Hin) as [Hold|(nd & Hnd & Hv)].
    + by apply (Proto.ot_voted _ _ _ Ho), S4.
    + by apply (ds_voted _ _ _ (Hdisk _ _ Hnd)).
  - intros v nd' ro Hv Hro. destruct (decide (v = i)) as [->|Hne]; [by apply Hi|].
    destruct (Hoth _ _ Hne Hv) as (nd & Hnd & -> & Hr). eapply up_others; [done|done|].
    apply S6; [done|congruence].
  - intros req Hin. destruct (Hreq _ Hin); [|done]. eapply request_others; eauto.
  - intros j a Hin. destruct (Hmsg _ _ Hin); [|done]. eapply message_others; eauto.
  - intros j a Hin. destruct (Hbeat _ _ Hin); [|done]. eapply beat_others; eauto.
  - intros j a resp Hin. destruct (Hrep _ _ _ Hin); [|done]. eapply reply_others; eauto.
Qed.

(** ** Handlers *)

(** A handler that appends no entries of its own and starts no campaign. *)
Record moved (i : ServerID) s s' r' : Prop := {
  mv_positions : positions r' (Proto.p_log s' i);
  mv_commit : commitIndex (raft_state r') = N.of_nat (Proto.p_commit s' i);
  mv_disk : disk_sim s' i r';
  mv_cand : Proto.p_term s' i = Proto.p_term s i -> Proto.p_cand s' i = Proto.p_cand s i;
  mv_lead : Proto.p_lead s' = Proto.p_lead s
}.

Definition reaches (i : ServerID) s (P : pstate -> Prop) : Prop :=
  exists s', steps s s' /\ Proto.others i s s' /\ P s'.

Lemma reaches_here i s (P : pstate -> Prop) : P s -> reaches i s P.
Proof. intros HP. exists s. split_and!; [apply rtc_refl|reflexivity|done]. Qed.

Lemma reaches_step i s s1 (P : pstate -> Prop) :
  Proto.proto_step log_Term quorum s s1 -> Proto.others i s s1 -> reaches i s1 P -> reaches i s P.
Proof.
  intros Hs Ho (s' & Hs' & Ho' & HP). exists s'. split_and!; [by eapply rtc_l|by etrans|done].
Qed.

Lemma reaches_mono i s (P P' : pstate -> Prop) :
  (forall s', P s' -> P' s') -> reaches i s P -> reaches i s P'.
Proof. intros HP (s' & Hs & Ho & Hp). exists s'. auto. Qed.

Lemma moved_up i s s' r r' ro ro' :
  term_cached r -> disk_sim s i r -> up_sim s i r ro -> Proto.others i s s' -> moved i s s' r' ->
  advances r r' ->
  (forall c, ro' = in_candidate c -> ro = in_candidate c /\ state (raft_state r') = Candidate) ->
  (forall l' sd' vs', ro' = in_leader l' sd' vs' -> state (raft_state r') = Leader /\
     exists l sd vs, ro = in_leader l sd vs /\ progress_of l' = progress_of l) ->
  (leading ro -> ~ leading ro' -> state (raft_state r') <> Leader) ->
  up_sim s' i r' ro'.
Proof.
  unfold term_cached. intros Hc Hd [U1 U2 U3 U4 U5] Ho [M1 M2 M3 M4 M5] Ha Hcand Hlead Hleft.
  pose proof (adv_cached _ _ Ha) as Hc'. unfold term_cached in Hc'.
  assert (state (raft_state r') = Leader ->
    state (raft_state r) = Leader /\ Proto.p_term s' i = Proto.p_term s i) as Hkeep.
  { intros Hl. destruct (adv_leader _ _ Ha Hl) as [Hl0 Ht]. split; [done|].
    rewrite <- (ds_term _ _ _ M3), <- (ds_term _ _ _ Hd). congruence. }
  split; [done|done|..].
  - intros Hl. destruct (Hkeep Hl) as [Hl0 ->]. rewrite M5.
    destruct (U3 Hl0) as (ld & H1' & H2' & H3'). exists ld. split_and!; [done|done|].
    intros Hnl. destruct H3' as [? Hh]; [intros Hx; by apply (Hleft Hx)|]. split; [done|].
    intros j. apply (Proto.ot_hints _ _ _ Ho), Hh.
  - intros c Hro Hv. destruct (Hcand _ Hro) as [-> Hst]. rewrite M4; [by eapply U4|].
    rewrite <- (ds_term _ _ _ M3), <- (ds_term _ _ _ Hd), <- Hc, <- Hc'.
    by apply (adv_candidate _ _ Ha).
  - intros l' sd' vs' Hro. destruct (Hlead _ _ _ Hro) as [Hl (l & sd & vs & -> & ->)].
    split; [done|]. destruct (Hkeep Hl) as [_ Ht].
    destruct (U5 _ _ _ eq_refl) as [_ [L1 L2 L3 L4 L5]]. split; rewrite ?Ht, ?M5; try done.
    + intros v m k Hm Hk. apply (Proto.ot_acks _ _ _ Ho). by eapply L3.
    + destruct L4 as [?|(Q & HQ & HA)]; [by left|right]. exists Q. split; [done|].
      intros v Hv. by apply (Proto.ot_acks _ _ _ Ho), HA.
    + intros j t n p Hj. destruct (L5 _ _ _ _ Hj) as (? & ? & ? & ? & ?).
      split_and!; try done. by apply (Proto.ot_hints _ _ _ Ho).
Qed.

Lemma disk_same s i r r' :
  logs r' = logs r -> stable r' = stable r -> disk_sim s i r -> disk_sim s i r'.
Proof. intros El Es [D1 D2 D3 D4 D5 D6]. split; rewrite ?El, ?Es; done. Qed.

Lemma moved_idle i s r r' :
  disk_sim s i r -> positions r (Proto.p_log s i) ->
  commitIndex (raft_state r) = N.of_nat (Proto.p_commit s i) -> idle r r' -> moved i s s r'.
Proof.
  intros Hd Hp Hc [Hs Hk]. split; try done.
  - by eapply still_positions.
  - by rewrite (still_commit _ _ Hs).
  - eapply disk_same; [by apply still_logs|done|done].
Qed.

(** The server learns of the term [t]. *)
Lemma disk_raise i s r r' t :
  disk_sim s i r -> holds (logs r') (Proto.p_log s i) ->
  disk_vote (stable r') = disk_vote (stable r) ->
  disk_term (stable r') = t -> (disk_term (stable r) <= t)%N ->
  disk_sim (Proto.raise i t s) i r'.
Proof.
  intros [D1 D2 D3 D4 D5 D6] El Ev Et Hle. injection Ev as Ev1 Ev2. split; simpl.
  - done.
  - done.
  - rewrite Proto.insert_case, decide_True by done. done.
  - lia.
  - intros t' c Hv. destruct (D5 _ _ Hv) as (? & ? & ?). rewrite Ev1, Ev2. done.
  - intros t' c Hc (V1 & V2 & V3). apply D6; [done|]. unfold voted. rewrite <- Ev1, <- Ev2.
    split_and!; [|done|done]. lia.
Qed.

Lemma reaches_raise i s r t (P : pstate -> Prop) :
  disk_sim s i r -> (disk_term (stable r) <= t)%N ->
  reaches i (Proto.raise i t s) P -> reaches i s P.
Proof.
  intros Hd Ht. apply reaches_step; [|apply Proto.others_raise]. apply Proto.p_raise.
  by rewrite <- (ds_term _ _ _ Hd).
Qed.

Lemma raise_cand i t s j :
  Proto.p_term (Proto.raise i t s) j = Proto.p_term s j ->
  Proto.p_cand (Proto.raise i t s) j = Proto.p_cand s j.
Proof.
  simpl. rewrite Proto.insert_case. case_decide as Hj.
  - subst j. intros ->. by rewrite decide_True.
  - intros _. case_decide; [done|]. by rewrite Proto.insert_case, decide_False.
Qed.

Lemma moved_raise i s r r' t :
  disk_sim s i r -> positions r (Proto.p_log s i) ->
  commitIndex (raft_state r) = N.of_nat (Proto.p_commit s i) -> still r r' ->
  disk_vote (stable r') = disk_vote (stable r) ->
  disk_term (stable r') = t -> (disk_term (stable r) <= t)%N ->
  moved i s (Proto.raise i t s) r'.
Proof.
  intros Hd Hp Hc Hs Ev Et Hle. split; [..|apply raise_cand|done].
  - by eapply still_positions.
  - by rewrite (still_commit _ _ Hs).
  - eapply disk_raise; [done| |done..]. rewrite (still_logs _ _ Hs). apply Hd.
Qed.

Context (D_inj : forall c c', c ∈ D -> c' ∈ D -> bytes c = bytes c' -> c = c').

Lemma no_vote_yet i s r t c :
  disk_sim s i r -> (disk_term (stable r) <= t)%N ->
  ~ (disk_vote_term (stable r) = t /\ disk_vote_cand (stable r) <> None) ->
  ~ Proto.p_votes s i t c.
Proof using D_inj.
  intros [D1 D2 D3 D4 D5 D6] Hle Hn Hv. destruct (D5 _ _ Hv) as (_ & Hb & Hc). apply Hn.
  assert (t = disk_vote_term (stable r)) as Ht by lia. split; [done|]. by rewrite (Hc Ht).
Qed.

(** A vote for [c] in the term [t]. *)
Lemma disk_cast i s s' r r' t c :
  disk_sim s i r -> Proto.p_log s' i = Proto.p_log s i -> Proto.p_term s' i = t ->
  (forall t' c', Proto.p_votes s' i t' c' <-> Proto.p_votes s i t' c' \/ t' = t /\ c' = c) ->
  c ∈ D -> (disk_term (stable r) <= t)%N -> disk_term (stable r') = t ->
  ~ (disk_vote_term (stable r) = t /\ disk_vote_cand (stable r) <> None) ->
  disk_vote (stable r') = (t, Some (bytes c)) -> logs r' = logs r -> disk_sim s' i r'.
Proof using D_inj.
  intros Hd El Ep Hv Hc Hle Et Hn Ev Er. pose proof (fun c' => no_vote_yet i s r t c' Hd Hle Hn) as Hno.
  destruct Hd as [D1 D2 D3 D4 D5 D6]. injection Ev as Ev1 Ev2. split; rewrite ?El, ?Er; try done.
  - congruence.
  - lia.
  - rewrite Ev1, Ev2. intros t' c' [Hold|[-> ->]]%Hv; [|done].
    destruct (D5 _ _ Hold) as (? & ? & _). split_and!; [done|lia|]. intros ->.
    by destruct (Hno c').
  - intros t' c' Hc' (V1 & V2 & V3). apply Hv. right. split; [congruence|].
    apply D_inj; [done|done|congruence].
Qed.

Lemma moved_vote i s r r' t c l :
  disk_sim s i r -> positions r (Proto.p_log s i) ->
  commitIndex (raft_state r) = N.of_nat (Proto.p_commit s i) -> still r r' ->
  c ∈ D -> Proto.p_camp s t c = Some l -> Proto.up_to_date log_Term (Proto.p_log s i) l ->
  (disk_term (stable r) <= t)%N -> disk_term (stable r') = t ->
  ~ (disk_vote_term (stable r) = t /\ disk_vote_cand (stable r) <> None) ->
  disk_vote (stable r') = (t, Some (bytes c)) ->
  reaches i s (fun s' => moved i s s' r').
Proof using D_inj.
  intros Hd Hp Hcm Hs Hc Hcamp Hup Hle Et Hn Ev.
  eapply reaches_raise; [done|exact Hle|]. set (s1 := Proto.raise i t s).
  assert (Proto.p_term s1 i = t) as Ht1.
  { unfold s1. simpl. by rewrite Proto.insert_case, decide_True. }
  pose proof (no_vote_yet i s r t) as Hnone.
  apply (reaches_step _ _ (Proto.cast_for i t c s1)); [|apply Proto.others_vote|].
  { rewrite <- Ht1 at 1. apply (Proto.p_vote _ _ s1 i c l); rewrite ?Ht1; [done| |by right].
    intros c' Hv. by destruct (Hnone c' Hd Hle Hn). }
  apply reaches_here. split; simpl.
  - by eapply still_positions.
  - by rewrite (still_commit _ _ Hs).
  - eapply (disk_cast i s _ r r' t c); try done; [|by apply still_logs].
    intros t' c'. simpl. split; [tauto|]. intros [?|[-> ->]]; auto.
  - apply raise_cand.
  - done.
Qed.

Lemma moved_requestVote i s r r' req :
  term_cached r -> disk_sim s i r -> positions r (Proto.p_log s i) ->
  commitIndex (raft_state r) = N.of_nat (Proto.p_commit s i) ->
  request_sim s req -> vote_effect req r r' -> reaches i s (fun s' => moved i s s' r').
Proof using D_inj.
  unfold term_cached. intros Hc Hd Hp Hcm (c & l & HcD & Hb & Hcamp & Hli & Hlt)
    [Hi|Hs Hle Et Ev|Hs Hle Et Ev Hn Hup].
  - apply reaches_here. by eapply moved_idle.
  - apply (reaches_raise _ _ r (rv_Term req)); [done|lia|]. apply reaches_here.
    apply (moved_raise i s r); try done. lia.
  - rewrite Hb in Ev. eapply moved_vote; try done; [|lia].
    unfold up_to_date in Hup. rewrite (positions_getLastEntry _ _ Hp), Hli, Hlt in Hup.
    unfold Proto.up_to_date. lia.
Qed.

(** *** Requests of a leader *)

Lemma merge_Forall (P : Log -> Prop) l (p : nat) es :
  Forall P l -> Forall P es -> Forall P (Proto.merge log_Term l p es).
Proof.
  intros Hl. revert p. induction es as [|e es IH]; intros p Hes; [done|].
  cbn [Proto.merge]. destruct (l !! p).
  - case_decide; [by apply IH; inversion Hes|].
    apply Forall_app. split; [by apply Forall_take|done].
  - apply Forall_app. split; [by apply Forall_take|done].
Qed.

Lemma prev_ok_matches l i a :
  prev_ok l a <-> Proto.prev_matches log_Term l (abstract i a).
Proof.
  unfold prev_ok, Proto.prev_matches. simpl. split; (intros [?|?]; [left; lia|by right]).
Qed.

(** The server is in the term of the request. *)
Lemma raised_term i t s : Proto.p_term (Proto.raise i t s) i = t.
Proof. simpl. by rewrite Proto.insert_case, decide_True. Qed.

Section Request.
Context (i : ServerID) (s : pstate) (r : raft) (a : AppendEntriesRequest) (ld : Proto.leadership (I := ServerID) (E := Log)).
Context (Hd : disk_sim s i r) (Hm : message_sim s i a).
Context (Hl : Proto.p_lead s (ae_Term a) = Some ld)
  (Hok : Proto.msg_ok log_Term quorum base s (abstract i a) ld).
Context (Hle : (disk_term (stable r) <= ae_Term a)%N).
Abbreviation s1 := (Proto.raise i (ae_Term a) s).
Abbreviation l' := (Proto.merge log_Term (Proto.p_log s i) (N.to_nat (ae_PrevLogEntry a)) (ae_Entries a)).

(** It stores the entries. *)
Lemma store_step c :
  prev_ok (Proto.p_log s i) a ->
  c = Proto.p_commit s i \/ c <= N.to_nat (ae_LeaderCommitIndex a) /\ c <= length l' ->
  Proto.proto_step log_Term quorum s1 (Proto.store log_Term ld (abstract i a) c s1).
Proof using Hm Hl.
  intros Hp Hc. apply Proto.p_store; simpl; [apply Hm|apply raised_term|done| |done].
  by apply prev_ok_matches.
Qed.

Lemma store_disk c r' :
  holds (logs r') l' -> disk_term (stable r') = ae_Term a ->
  disk_vote (stable r') = disk_vote (stable r) ->
  disk_sim (Proto.store log_Term ld (abstract i a) c s1) i r'.
Proof using Hd Hm Hle.
  intros Hh Et Ev. destruct Hd as [D1 D2 D3 D4 D5 D6]. destruct Hm as (_ & Hp & _).
  injection Ev as Ev1 Ev2.
  assert (Proto.p_log (Proto.store log_Term ld (abstract i a) c s1) i = l') as El
    by (simpl; by rewrite Proto.insert_case, decide_True).
  split; rewrite ?El; [done|by apply merge_Forall|simpl|lia|simpl..].
  - by rewrite Proto.insert_case, decide_True.
  - intros t' c' Hv. destruct (D5 _ _ Hv) as (? & ? & ?). rewrite Ev1, Ev2. done.
  - intros t' c' Hc' (V1 & V2 & V3). apply D6; [done|]. unfold voted. rewrite <- Ev1, <- Ev2.
    split_and!; [|done|done]. lia.
Qed.

(** It refuses them. *)
Lemma hint_step n s2 :
  1 <= n -> Proto.p_term s2 i = ae_Term a -> Proto.p_lead s2 = Proto.p_lead s ->
  Proto.p_log s2 = Proto.p_log s ->
  (forall e, Proto.p_log s i !! (n - 1) = Some e -> Proto.ld_log ld !! (n - 1) <> Some e) ->
  Proto.proto_step log_Term quorum s2 (Proto.hint (ae_Term a) i n s2).
Proof using Hl.
  intros Hn Ht El Ep He. rewrite <- Ht. eapply Proto.p_hint; [|rewrite Ep; exact He|done].
  by rewrite Ht, El.
Qed.

Lemma refused_prev e :
  ~ prev_ok (Proto.p_log s i) a ->
  Proto.p_log s i !! (N.to_nat (ae_PrevLogEntry a) - 1) = Some e ->
  Proto.ld_log ld !! (N.to_nat (ae_PrevLogEntry a) - 1) <> Some e.
Proof using Hok Hle.
  intros Hn He Hl'. apply Hn. right. exists e. split; [done|].
  pose proof (Proto.mo_prevTerm _ _ _ _ _ _ Hok) as Ht. simpl in Ht. rewrite Ht.
  assert (ae_PrevLogEntry a <> 0%N) as Hz by (intros Hz; apply Hn; by left).
  replace (N.to_nat (ae_PrevLogEntry a)) with (S (N.to_nat (ae_PrevLogEntry a) - 1)) by lia.
  by rewrite (last_term_take _ _ e).
Qed.
End Request.

Lemma moved_append now i s r a :
  inv s -> term_cached r -> disk_sim s i r -> positions r (Proto.p_log s i) ->
  commitIndex (raft_state r) = N.of_nat (Proto.p_commit s i) ->
  (N.of_nat (length (Proto.p_log s i)) + 1 < u64_size)%N -> message_sim s i a ->
  match appendEntries now a r with
  | Done (resp, err) r' => reaches i s (fun s' => moved i s s' r' /\ reply_sim s' i a resp)
  | Panicked r' => reaches i s (fun s' => disk_sim s' i r')
  end.
Proof.
  intros Hinv Hc Hd Hp Hcm Hlt Hm. pose proof Hm as (Hmsg & Hpl & Hcons).
  destruct (Proto.inv_msg _ _ _ _ Hinv _ Hmsg) as (ld & Hl & Hok). simpl in Hl.
  pose proof (appendEntries_lists now a r _ (ds_holds _ _ _ Hd) Hp Hlt Hcons Hpl) as Ha.
  pose proof (appendEntries_disk now a r Hc) as Hdk. unfold term_cached in Hc.
  destruct (appendEntries now a r) as [[resp err] r'|r'].
  - destruct Ha as (_ & HLL & [(Hold & -> & Hs & Ht)|(Hle & Ht & Hcase)]).
    { apply reaches_here. split; [by apply (moved_idle i s r)|].
      split_and!; [done|lia|]. intros Hx. lia. }
    destruct (Hdk Hle) as [Et Ev].
    apply (reaches_raise _ _ r (ae_Term a)); [done|lia|].
    destruct Hcase as [(Hs & Hno & Hst)|(Hs & Hpok & Hh & Hpos & Hcommit)].
    + assert (ae_PrevLogEntry a <> 0%N) as Hz by (intros Hz; apply Hno; by left).
      eapply reaches_step; [|apply Proto.others_hint|eapply reaches_step;
        [|apply Proto.others_hint|apply reaches_here; split]].
      * apply (hint_step i s a ld Hl (N.to_nat (ae_PrevLogEntry a)));
          [lia|apply raised_term|done|done|].
        intros e. eapply refused_prev; [done| |done]. rewrite <- Hc. exact Hle.
      * apply (hint_step i s a ld Hl (S (length (Proto.p_log s i))));
          [lia|apply raised_term|done|done|].
        intros e He. apply lookup_lt_Some in He. lia.
      * destruct (moved_raise i s r r' (ae_Term a)) as [M1 M2 M3 M4 M5]; try done; [lia|].
        split; try done. destruct M3. by split.
      * split_and!; [|lia|].
        { destruct Hm as [? ?]. split; [simpl; auto|done]. }
        rewrite Hs. intros _. split_and!; [lia|simpl; auto|]. simpl. right.
        rewrite HLL, Nat2N.id. done.
    + set (c := N.to_nat (commitIndex (raft_state r'))).
      eapply reaches_step; [apply (store_step i s a ld Hm Hl c Hpok)|apply (Proto.others_store log_Term ld (abstract i a))|].
      { unfold c. rewrite Hcm, min_spec in Hcommit. lia. }
      apply reaches_here. split.
      * split; simpl; [|..|done].
        -- by rewrite Proto.insert_case, decide_True.
        -- rewrite Proto.insert_case, decide_True by done. unfold c. lia.
        -- eapply store_disk; try done. lia.
        -- apply raise_cand.
      * split_and!; [|lia|].
        { destruct Hm as [? ?]. split; [simpl; auto|done]. }
        rewrite Hs. intros _. simpl. split; [|auto].
        exists ld. split; [done|]. intros k [? ?]. right. by split_and!.
  - destruct Ha as [Hle Ha]. destruct (Hdk Hle) as [Et Ev]. apply (reaches_raise _ _ r (ae_Term a)); [done|lia|].
    destruct Ha as [Hh|[Hpok Hh]].
    + apply reaches_here. eapply disk_raise; try done. lia.
    + eapply reaches_step; [apply (store_step i s a ld Hm Hl (Proto.p_commit s i) Hpok); by left
        |apply (Proto.others_store log_Term ld (abstract i a))|].
      apply reaches_here. eapply store_disk; try done. lia.
Qed.

Lemma moved_beat now i s r a :
  term_cached r -> disk_sim s i r -> positions r (Proto.p_log s i) ->
  commitIndex (raft_state r) = N.of_nat (Proto.p_commit s i) ->
  (N.of_nat (length (Proto.p_log s i)) + 1 < u64_size)%N -> beat_sim s i a ->
  match appendEntries now a r with
  | Done _ r' => reaches i s (fun s' => moved i s s' r')
  | Panicked r' => reaches i s (fun s' => disk_sim s' i r')
  end.
Proof.
  intros Hc Hd Hp Hcm Hlt (Hprev & Hes & Hlc & _).
  pose proof (appendEntries_lists now a r _ (ds_holds _ _ _ Hd) Hp Hlt) as Ha.
  rewrite Hes in Ha. specialize (Ha eq_refl (Forall_nil_2 _)).
  pose proof (appendEntries_disk now a r Hc) as Hdk. unfold term_cached in Hc.
  destruct (appendEntries now a r) as [[resp err] r'|r'].
  - destruct Ha as (_ & _ & [(Hold & -> & Hs & Ht)|(Hle & Ht & Hcase)]).
    { apply reaches_here. by apply (moved_idle i s r). }
    destruct (Hdk Hle) as [Et Ev]. apply (reaches_raise _ _ r (ae_Term a)); [done|lia|].
    destruct Hcase as [(_ & Hno & _)|(_ & _ & Hh & Hpos & Hcommit)]; [by destruct Hno; left|].
    rewrite Hes in Hh, Hpos. simpl in Hh, Hpos. rewrite Hlc, min_spec, N.min_0_l in Hcommit.
    assert (disk_sim (Proto.raise i (ae_Term a) s) i r') as Hd' by (eapply disk_raise; try done; lia).
    destruct Hcommit as [Hcommit|Hcommit].
    + apply reaches_here. split; [done|by rewrite Hcommit|done|apply raise_cand|done].
    + eapply reaches_step; [apply Proto.p_reset|apply (Proto.others_set_commit i)|].
      apply reaches_here. split; simpl; [done| | |apply raise_cand|done].
      * by rewrite Proto.insert_case, decide_True.
      * destruct Hd'. by split.
  - destruct Ha as [Hle Ha]. destruct (Hdk Hle) as [Et Ev].
    apply (reaches_raise _ _ r (ae_Term a)); [done|lia|]. apply reaches_here.
    eapply disk_raise; try done; [|lia]. by destruct Ha as [?|[_ Hh]].
Qed.

(** *** Every request on the main thread *)

(** The answer to a request of a routine is recorded in the new state. *)
Definition answers s s' (i : ServerID) (c : Command) (rep : option Reply) (err : option error)
    : Prop :=
  match c, rep, err with
  | cmd_AppendEntries a, Some (reply_AppendEntries resp), None =>
      message_sim s i a -> reply_sim s' i a resp
  | _, _, _ => True
  end.

Definition receivable s (i : ServerID) (c : Command) : Prop :=
  match c with
  | cmd_AppendEntries a => message_sim s i a \/ beat_sim s i a
  | cmd_RequestVote req => request_sim s req
  | cmd_InstallSnapshot _ => False
  | _ => True
  end.

Lemma message_no_beat s i a : inv s -> message_sim s i a -> ~ beat_sim s i a.
Proof.
  intros Hinv (Hm & _) (Hp & He & _).
  destruct (Proto.inv_msg _ _ _ _ Hinv _ Hm) as (ld & _ & Hok).
  pose proof (Proto.mo_empty _ _ _ _ _ _ Hok) as Hz. simpl in Hz. rewrite Hp in Hz.
  specialize (Hz He). lia.
Qed.

Lemma moved_rpc env c i s r :
  inv s -> term_cached r -> disk_sim s i r -> positions r (Proto.p_log s i) ->
  commitIndex (raft_state r) = N.of_nat (Proto.p_commit s i) ->
  (N.of_nat (length (Proto.p_log s i)) + 1 < u64_size)%N -> receivable s i c ->
  match answer_rpc env c r with
  | Done out r' => exists rep err, out = out_reply rep err /\
      reaches i s (fun s' => moved i s s' r' /\ answers s s' i c rep err)
  | Panicked r' => reaches i s (fun s' => disk_sim s' i r')
  end.
Proof.
  intros Hinv Hc Hd Hp Hcm Hlt Hr.
  assert (forall r', idle r r' -> reaches i s (fun s' => moved i s s' r')) as Hidle.
  { intros r' Hi. apply reaches_here. by apply (moved_idle i s r). }
  assert (forall r', idle r r' -> reaches i s (fun s' => disk_sim s' i r')) as Hidle'.
  { intros r' [Hst Hk]. apply reaches_here. eapply disk_same; [by apply still_logs|done|done]. }
  unfold answer_rpc, bind at 1, processRPC, bind at 1, get_state.
  destruct (checkRPCHeader _ _).
  { simpl. do 2 eexists. split; [done|]. apply reaches_here. split; [by apply (moved_idle i s r)|].
    by destruct c. }
  destruct c as [a|req|req|req|req|h]; cbn [receivable] in Hr; unfold bind.
  - destruct Hr as [Hm|Hb].
    + pose proof (moved_append (env_now env) i s r a Hinv Hc Hd Hp Hcm Hlt Hm) as Ha.
      destruct (appendEntries _ a r) as [[resp err] r'|r']; [|done]. simpl.
      do 2 eexists. split; [done|]. eapply reaches_mono; [|exact Ha]. intros s' [? ?].
      split; [done|]. by destruct err.
    + pose proof (moved_beat (env_now env) i s r a Hc Hd Hp Hcm Hlt Hb) as Ha.
      destruct (appendEntries _ a r) as [[resp err] r'|r']; [|done]. simpl.
      do 2 eexists. split; [done|]. eapply reaches_mono; [|exact Ha]. intros s' Hm'.
      split; [done|]. destruct err; [done|]. intros Hm. by destruct (message_no_beat s i a).
  - pose proof (requestVote_effect (env_now env) req r Hc) as He.
    destruct (requestVote _ req r) as [[resp err] r'|r']; [|by apply Hidle']. simpl.
    do 2 eexists. split; [done|].
    eapply reaches_mono; [|by eapply moved_requestVote]. intros s' ?. by split.
  - pose proof (idle_requestPreVote req r) as He.
    destruct (requestPreVote req r) as [[resp err] r'|r']; [|by apply Hidle']. simpl.
    do 2 eexists. split; [done|]. eapply reaches_mono; [|by apply Hidle]. intros s' ?. by split.
  - done.
  - pose proof (idle_timeoutNow req r) as He.
    destruct (timeoutNow req r) as [[resp err] r'|r']; [|by apply Hidle']. simpl.
    do 2 eexists. split; [done|]. eapply reaches_mono; [|by apply Hidle]. intros s' ?. by split.
  - simpl. do 2 eexists. split; [done|]. eapply reaches_mono; [|by apply Hidle].
    intros s' ?. by split.
Qed.

(** ** The main thread *)

Lemma moved_then i s s' r1 r' : moved i s s' r1 -> idle r1 r' -> moved i s s' r'.
Proof.
  intros [M1 M2 M3 M4 M5] [Hs Hk]. split; [..|done|done].
  - by eapply still_positions.
  - by rewrite (still_commit _ _ Hs).
  - eapply disk_same; [by apply still_logs|done|done].
Qed.

(** A leader stays in its loop with what it knows, or is none any more. *)
Definition roles (ro : role) r' (ro' : role) : Prop :=
  (forall l' sd' vs', ro' = in_leader l' sd' vs' -> state (raft_state r') = Leader /\
     exists l sd vs, ro = in_leader l sd vs /\ progress_of l' = progress_of l) /\
  (leading ro -> ~ leading ro' -> state (raft_state r') <> Leader).

Lemma roles_follower r' b r1 ro' : leave_follower b r1 = Done ro' r' -> roles in_follower r' ro'.
Proof.
  unfold leave_follower, bind, get_state, returns. intros [= <- <-].
  split; [intros l' sd' vs'; by case_decide|]. by intros (l & sd & vs & ?).
Qed.

Lemma roles_candidate r' c c' r1 ro' :
  leave_candidate c' r1 = Done ro' r' -> roles (in_candidate c) r' ro'.
Proof.
  unfold leave_candidate, bind, get_state, runCandidate_return, modify, returns.
  intros HE. split; [|by intros (l & sd & vs & ?)]. intros l' sd' vs' ->.
  destruct c' as [c'|]; [case_decide|]; by injection HE.
Qed.

Lemma roles_leader now sd vs l sd0 vs0 (lr : LeaderRaft L K SN) ro' r' :
  leave_leader now sd vs lr = Done ro' r' -> progress_of (lr_leader lr) = progress_of l ->
  idle (lr_raft lr) r' /\ roles (in_leader l sd0 vs0) r' ro'.
Proof.
  intros HE Hp. pose proof (leave_leader_Done _ _ _ _ _ _ HE) as [Hq _].
  destruct (still_leave_leader _ _ _ _ _ _ HE) as [Hs Hcase]. split; [split; [done|apply Hq]|].
  destruct Hcase as [[-> Hst]|(-> & -> & Hst)].
  - split; [done|]. intros _ _. destruct (quiet_state _ _ Hq) as [->|[->| ->]]; done.
  - split; [|intros _ Hn; destruct Hn; by do 3 eexists].
    intros l' sd' vs' [= <- <- <-]. split; [done|]. eauto.
Qed.

Lemma rpc_step_idle env c ro r ro' out r' :
  main_step env (ev_rpc c) ro r = Some (Done (ro', out) r') ->
  exists r1, answer_rpc env c r = Done out r1 /\ idle r1 r' /\ roles ro r' ro'.
Proof.
  destruct ro as [| |cd|l sd vs]; cbn [main_step follower_case candidate_case leader_case].
  - done.
  - intros HE. injection HE as HE. apply bind_Done in HE as ([b o] & r1 & (o2 & HA & [= -> ->])%map_Done & HE).
    apply map_Done in HE as (ro & HL & [= -> ->]). exists r1. split; [done|].
    pose proof (roles_follower _ _ _ _ HL). injection HL as <- <-. by split; [|done].
  - intros HE. injection HE as HE. apply bind_Done in HE as ([b o] & r1 & (o2 & HA & [= -> ->])%map_Done & HE).
    apply map_Done in HE as (ro & HL & [= -> ->]). exists r1. split; [done|].
    split; [|by eapply roles_candidate]. exact (frames_Done _ _ _ _ _ (idle_leave_candidate _) HL).
  - match goal with |- context [match ?m ?x with Done _ _ => _ | Panicked _ => _ end] =>
      destruct (m x) as [[sd' o] lr1|] eqn:HD end; [|done].
    apply bind_Done in HD as (o' & lr2 & HA & [= <- <- <-]).
    pose proof HA as HA'. apply on_raft_Done in HA'.
    destruct (leave_leader _ _ _ _) as [ro r2|] eqn:HL; [|done]. intros [= <- <- <-].
    assert (lr_leader lr2 = l) as Hl.
    { unfold on_raft in HA. destruct (answer_rpc _ _ _); [by injection HA as <- <-|done]. }
    destruct (roles_leader _ _ _ l sd vs _ _ _ HL) as [Hi Hr]; [by rewrite Hl|]. eauto.
Qed.

(** The events that change neither the log nor the disk. *)
Definition quiet_event (ro : role) (ev : event) : bool :=
  match ro with
  | in_run => match ev with ev_shutdown => true | _ => false end
  | in_follower | in_candidate _ => plain_event ev
  | in_leader _ _ _ => leader_idle ev
  end.

Lemma quiet_event_idle env ev ro r :
  quiet_event ro ev = true ->
  match main_step env ev ro r with
  | Some (Done (ro', out) r') => idle r r' /\ roles ro r' ro'
  | Some (Panicked r') => idle r r'
  | None => True
  end.
Proof.
  destruct ro as [| |cd|l sd vs]; cbn [quiet_event main_step].
  - destruct ev; try done. intros _.
    assert (frames idle (Shutdown_ : M raft _)) as Hi
      by (apply idle_quiet; [apply still_Shutdown|apply quiet_Shutdown]).
    specialize (Hi r). unfold bind. destruct (Shutdown_ r) as [u r1|r1]; [|done]. simpl.
    split; [done|]. split; [done|by intros (? & ? & ? & ?)].
  - intros Hp. destruct (follower_case env ev) as [m|] eqn:Hm; [|done].
    pose proof (follower_case_idle _ _ _ Hp Hm r) as Hi. unfold bind at 1.
    destruct (m r) as [[b o] r1|r1]; [|done]. unfold bind. simpl.
    destruct (leave_follower b r1) as [ro' r2|r2] eqn:HL; [|done]. simpl.
    pose proof (roles_follower _ _ _ _ HL). by injection HL as <- <-.
  - intros Hp. destruct (candidate_case env cd ev) as [m|] eqn:Hm; [|done].
    pose proof (candidate_case_idle _ _ _ _ Hp Hm r) as Hi. unfold bind at 1.
    destruct (m r) as [[b o] r1|r1]; [|done]. unfold bind. simpl.
    pose proof (idle_leave_candidate b r1) as Hi'.
    destruct (leave_candidate b r1) as [ro' r2|r2] eqn:HL; [|by etrans]. simpl.
    split; [by etrans|by eapply roles_candidate].
  - intros Hp. destruct (leader_case env sd _ ev) as [m|] eqn:Hm; [|done].
    pose proof (leader_case_lstill _ _ _ _ _ Hp Hm (mkLeaderRaft r l)) as Hs.
    destruct (leader_case_quiet _ _ _ _ _ Hm) as [Hq|[c ->]]; [|done].
    specialize (Hq (mkLeaderRaft r l)).
    destruct (m _) as [[sd' o] lr|lr]; destruct Hs as [Hs Hpr]; simpl in *.
    2:{ split; [done|apply Hq]. }
    assert (idle r (lr_raft lr)) as Hi by (split; [done|apply Hq]).
    destruct (leave_leader _ _ _ lr) as [ro' r2|r2] eqn:HL; [|by destruct (leave_leader_total _ _ _ _ _ HL)].
    destruct (roles_leader _ _ _ l sd vs _ _ _ HL Hpr) as [Hi' Hr]. split; [by etrans|done].
Qed.

(** A server of the network that is up. *)
Record server s (i : ServerID) r (ro : role) : Prop := {
  sv_in : i ∈ D;
  sv_inv : inv s;
  sv_cached : term_cached r;
  sv_votes : votes_recorded (stable r) ∅;
  sv_identity : identity r = (i, addr i, i);
  sv_conf : latest_of r = C;
  sv_disk : disk_sim s i r;
  sv_up : up_sim s i r ro
}.

Definition keeps_sim (i : ServerID) r' (ro' : role) s' : Prop :=
  disk_sim s' i r' /\ up_sim s' i r' ro'.

Lemma moved_sim i s s' r r' ro ro' :
  server s i r ro -> Proto.others i s s' -> moved i s s' r' -> advances r r' ->
  (forall c, ro' = in_candidate c -> ro = in_candidate c /\ state (raft_state r') = Candidate) ->
  roles ro r' ro' -> keeps_sim i r' ro' s'.
Proof.
  intros S Ho Hm Ha Hc [R1 R2]. split; [apply Hm|].
  eapply moved_up; [apply S|apply S|apply S|done|done|done|done|done|done].
Qed.

Lemma moved_ordinary i s s' r r' ro ro' out :
  server s i r ro -> Proto.others i s s' -> moved i s s' r' ->
  ordinary r ro out r' ro' -> roles ro r' ro' -> keeps_sim i r' ro' s'.
Proof. intros S Ho Hm [Ha _ Hc] Hr. by eapply moved_sim. Qed.

Lemma server_roomy s i r ro n :
  server s i r ro -> roomy r n -> (N.of_nat (length (Proto.p_log s i) + n) + 1 < u64_size)%N.
Proof.
  intros S [Hr _]. rewrite (positions_getLastIndex _ _ (us_positions _ _ _ _ (sv_up _ _ _ _ S))) in Hr.
  lia.
Qed.

Lemma quiet_event_sim env ev s i r ro ro' out r' :
  server s i r ro -> quiet_event ro ev = true ->
  main_step env ev ro r = Some (Done (ro', out) r') -> ordinary r ro out r' ro' ->
  reaches i s (keeps_sim i r' ro').
Proof.
  intros S Hq HE Ho. pose proof (quiet_event_idle env ev ro r Hq) as Hi. rewrite HE in Hi.
  destruct Hi as [Hi Hr]. apply reaches_here. eapply moved_ordinary; [done|reflexivity| |done|done].
  eapply moved_idle; [apply S|apply S|apply S|done].
Qed.

Lemma rpc_ordinary env c s i r ro ro' out r' :
  server s i r ro -> main_step env (ev_rpc c) ro r = Some (Done (ro', out) r') ->
  ordinary r ro out r' ro'.
Proof.
  intros S HE. destruct S. destruct ro; [done|eapply follower_ordinary|eapply candidate_ordinary
      |eapply leader_ordinary]; by eauto.
Qed.

Lemma rpc_sim env c s i r ro ro' out r' :
  server s i r ro -> roomy r 1 -> receivable s i c ->
  main_step env (ev_rpc c) ro r = Some (Done (ro', out) r') ->
  exists rep err, out = out_reply rep err /\
    reaches i s (fun s' => keeps_sim i r' ro' s' /\ answers s s' i c rep err).
Proof.
  intros S Hroom Hrc HE. pose proof (rpc_ordinary _ _ _ _ _ _ _ _ _ S HE) as Ho.
  pose proof (server_roomy _ _ _ _ _ S Hroom) as Hlt.
  destruct (rpc_step_idle _ _ _ _ _ _ _ HE) as (r1 & HA & Hi & Hr).
  pose proof (moved_rpc env c i s r) as Hm. rewrite HA in Hm.
  destruct Hm as (rep & err & -> & s' & Hs & Hot & Hmv & Hans);
    [apply S|apply S|apply S|apply S|apply S|lia|done|].
  do 2 eexists. split; [done|]. exists s'. split_and!; [done|done| |done].
  eapply moved_ordinary; [done|done|by eapply moved_then|done|done].
Qed.

(** ** Campaigns *)

Lemma campaign_sim s i r ro :
  server s i r ro -> (currentTerm (raft_state r) + 1 < u64_size)%N ->
  exists e k, electSelf r = Done e (with_raft_state
      (raftState_setCurrentTerm (currentTerm (raft_state r) + 1)) (with_stable k r)) /\
    forall r' , logs r' = logs r -> stable r' = k ->
    reaches i s (fun s' => disk_sim s' i r' /\ Proto.p_log s' i = Proto.p_log s i /\
      Proto.p_commit s' i = Proto.p_commit s i /\ Proto.p_cand s' i = true /\
      request_sim s' (cp_request e)).
Proof.
  intros S Hlt. destruct S as [SD Hinv Hc _ Hid HC Hd Hup]. unfold identity in Hid.
  injection Hid as Hid Haddr Hconf.
  destruct (electSelf_steady r Hlt ltac:(congruence))
    as (e & k & HE & Ht & _ & Hrt & Hrb & Hrl & Hv). set (t := (currentTerm (raft_state r) + 1)%N) in *.
  assert (own_bytes r = bytes i) as Hown by (unfold own_bytes, Cluster.bytes; congruence).
  rewrite Hown in Hrb, Hv.
  rewrite (positions_getLastEntry _ _ (us_positions _ _ _ _ Hup)) in Hrl. injection Hrl as Hli Hlt'.
  unfold term_cached in Hc. pose proof (ds_term _ _ _ Hd) as Hdt.
  exists e, k. split; [done|]. intros r' El Ek.
  apply (reaches_raise _ _ r t); [done|lia|]. set (s1 := Proto.raise i t s).
  pose proof (raised_term i t s) as Ht1. fold s1 in Ht1.
  assert (Proto.p_camp s1 t i = None) as Hnone.
  { destruct (Proto.p_camp s1 t i) as [l|] eqn:Hl; [|done].
    destruct (Proto.inv_camp _ _ _ _ Hinv _ _ _ Hl) as [Hx _]. lia. }
  set (s2 := Proto.campaign i s1).
  assert (Proto.p_camp s2 t i = Some (Proto.p_log s i)) as Hcamp.
  { unfold s2. cbn [Proto.campaign Proto.p_camp]. rewrite Ht1.
    rewrite Proto.insert_case, decide_True by done. by rewrite Proto.insert_case, decide_True. }
  apply (reaches_step _ _ s2); [..|].
  { apply Proto.p_campaign; rewrite Ht1; [done|]. apply Forall_forall. intros x Hx.
    pose proof (Proto.inv_log_term _ _ _ _ Hinv i x Hx). lia. }
  { apply Proto.others_campaign. by rewrite Ht1. }
  assert (forall s3, Proto.p_camp s3 = Proto.p_camp s2 -> request_sim s3 (cp_request e)) as Hreq.
  { intros s3 Hs3. exists i, (Proto.p_log s i). rewrite Hs3, Hrt. by split_and!. }
  assert (Proto.p_cand s2 i = true) as Hcand
    by (simpl; by rewrite Proto.insert_case, decide_True).
  destruct Hv as [Hv|Hv].
  - apply reaches_here. split_and!; [|done|done|done|by apply Hreq].
    assert (disk_sim s1 i r') as [D1 D2 D3 D4 D5 D6]; [|by split].
    apply (disk_raise i s r); rewrite ?El, ?Ek; [done|apply Hd|done|done|lia].
  - apply (reaches_step _ _ (Proto.cast_for i t i s2)); [|apply Proto.others_vote|].
    { rewrite <- Ht1 at 1. apply (Proto.p_vote _ _ s2 i i (Proto.p_log s i)).
      - change (Proto.p_term s2 i) with (Proto.p_term s1 i). by rewrite Ht1.
      - change (Proto.p_term s2 i) with (Proto.p_term s1 i). rewrite Ht1. intros c' Hv'.
        destruct (ds_recorded _ _ _ Hd _ _ Hv') as (_ & Hx & _). pose proof (ds_le _ _ _ Hd). lia.
      - right. unfold Proto.up_to_date. simpl. lia. }
    apply reaches_here. split_and!; [|done|done|done|by apply Hreq].
    eapply (disk_cast i s _ r r' t i); rewrite ?Ek; try done; [|lia|].
    + intros t' c'. simpl. split; [tauto|]. intros [?|[-> ->]]; auto.
    + intros [Hx _]. pose proof (ds_le _ _ _ Hd). lia.
Qed.

Lemma candidate_up s' i r' c :
  positions r' (Proto.p_log s' i) -> commitIndex (raft_state r') = N.of_nat (Proto.p_commit s' i) ->
  state (raft_state r') = Candidate -> (cl_voteCh c = true -> Proto.p_cand s' i = true) ->
  up_sim s' i r' (in_candidate c).
Proof. intros Hp Hc Hs Hv. split; try done; [congruence|]. by intros ? [= <-]. Qed.

Lemma run_up s' i r' :
  positions r' (Proto.p_log s' i) -> commitIndex (raft_state r') = N.of_nat (Proto.p_commit s' i) ->
  state (raft_state r') <> Leader -> up_sim s' i r' in_run.
Proof. intros Hp Hc Hs. by split. Qed.

(** A candidate that learns of a newer term. *)
Lemma raise_steady {A} t (x : A) r :
  exists r', (setState Follower;; setCurrentTerm t;; returns x)%go r = Done x r' /\
    still r r' /\ state (raft_state r') = Follower /\
    disk_term (stable r') = t /\ disk_vote (stable r') = disk_vote (stable r).
Proof.
  unfold bind at 1. rewrite setState_eq. unfold bind.
  match goal with |- context [setCurrentTerm ?t ?x] =>
    destruct (setCurrentTerm_steady t x) as (k & -> & Ht & Hv) end.
  eexists. split; [reflexivity|]. by split_and!.
Qed.

Definition out_sim s' (out : output) : Prop :=
  forall e, out = out_campaign e -> request_sim s' (cp_request e).

Lemma step_down_sim s i r r1 r' ro t :
  server s i r ro -> (currentTerm (raft_state r) <= t)%N -> still r r1 ->
  state (raft_state r1) = Follower -> disk_term (stable r1) = t ->
  disk_vote (stable r1) = disk_vote (stable r) -> leave_candidate None r1 = Done in_run r' ->
  reaches i s (keeps_sim i r' in_run).
Proof.
  intros S Hle Hs Hst Ht Hv HL. pose proof (sv_cached _ _ _ _ S) as Hc. unfold term_cached in Hc.
  apply (reaches_raise _ _ r t); [apply S|lia|]. apply reaches_here.
  pose proof (frames_Done _ _ _ _ _ (idle_leave_candidate _) HL) as Hi.
  assert (moved i s (Proto.raise i t s) r') as Hm.
  { eapply moved_then; [|exact Hi]. eapply (moved_raise i s r); try done; [apply S..|lia]. }
  split; [apply Hm|]. apply run_up; [apply Hm|apply Hm|]. injection HL as <-. simpl. congruence.
Qed.

Lemma preVote_sim env v s i r c ro' out r' :
  server s i r (in_candidate c) -> state (raft_state r) = Candidate ->
  (cl_prevoteCh c = true -> (currentTerm (raft_state r) <= cl_term c)%N) ->
  (currentTerm (raft_state r) + 1 < u64_size)%N ->
  main_step env (ev_preVote v) (in_candidate c) r = Some (Done (ro', out) r') ->
  reaches i s (fun s' => keeps_sim i r' ro' s' /\ out_sim s' out).
Proof.
  intros S Hst Hpre Hlt. cbn [main_step candidate_case].
  destruct (cl_prevoteCh c) eqn:Hch; [|done]. intros [= HE].
  apply bind_Done in HE as (x & r1 & (cc & HD & ->)%map_Done & HE).
  apply map_Done in HE as (ro & HL & HE). injection HE as -> ->.
  unfold candidate_preVote in HD. cbv zeta in HD.
  destruct (decide (cl_term c < pvr_Term (pr_response v))%N) as [Hgt|_].
  { destruct (raise_steady (pvr_Term (pr_response v)) cl_return r) as (r2 & HR & Hs & Hf & Ht & Hv).
    rewrite HR in HD. injection HD as <- <-. cbn [candidate_result fst] in HL.
    assert (ro = in_run) as -> by (by injection HL).
    specialize (Hpre eq_refl).
    pose proof (step_down_sim s i r r2 r' _ (pvr_Term (pr_response v)) S ltac:(lia) Hs Hf Ht Hv HL) as Hdown.
    eapply reaches_mono; [|exact Hdown]. intros s' ?. by split. }
  match type of HD with context [if decide ?P then _ else _] => destruct (decide P) end.
  - apply map_Done in HD as (e & HS & ->). cbn [candidate_result fst snd] in *.
    destruct (campaign_sim s i r _ S Hlt) as (e' & k & HE' & Hrch). rewrite HS in HE'.
    injection HE' as <- ->. unfold leave_candidate, bind, get_state in HL.
    rewrite decide_True in HL by done. injection HL as <- <-.
    match goal with |- context [keeps_sim i ?x] => specialize (Hrch x eq_refl eq_refl) end.
    eapply reaches_mono; [|exact Hrch]. intros s' (Hd & El & Ec & Hcand & Hreq).
    split; [|by intros e' [= <-]]. split; [done|]. apply candidate_up; [|..|done].
    + rewrite El. split; apply (sv_up _ _ _ _ S).
    + rewrite Ec. apply (sv_up _ _ _ _ S).
    + done.
  - injection HD as <- <-. cbn [candidate_result fst snd] in *.
    unfold leave_candidate, bind, get_state in HL. rewrite decide_True in HL by done.
    injection HL as <- <-. apply reaches_here. split; [|done]. split; [apply S|].
    destruct (sv_up _ _ _ _ S) as [U1 U2 U3 U4 U5].
    apply candidate_up; [done|done|done|]. simpl. by apply U4.
Qed.

(** Between two loops: a candidate starts. *)
Lemma enter_candidate_sim env s i r ro' out r' :
  server s i r in_run -> state (raft_state r) = Candidate -> shutdown r = false ->
  (currentTerm (raft_state r) + 1 < u64_size)%N -> enter_loop env r = Done (ro', out) r' ->
  reaches i s (fun s' => keeps_sim i r' ro' s' /\ out_sim s' out).
Proof.
  intros S Hst Hsh Hlt. unfold enter_loop. rewrite Hsh, Hst. unfold runCandidate_start.
  intros ([c x] & r1 & HR & HE)%bind_Done. cbn [fst snd] in HE.
  apply bind_Done in HR as (? & ? & HG & HR). injection HG as <- <-. cbv zeta in HR.
  destruct (negb (preVoteDisabled _) && _).
  - injection HR as <- <- <-. unfold leave_candidate, bind, get_state in HE.
    rewrite decide_True in HE by done. injection HE as <- <- <-. apply reaches_here.
    split; [|done]. split; [apply S|]. destruct (sv_up _ _ _ _ S). by apply candidate_up.
  - apply bind_Done in HR as (e & r2 & HS & HR).
    apply bind_Done in HR as (? & ? & HG & HR). injection HG as <- <-. injection HR as <- <- <-.
    destruct (campaign_sim s i r _ S Hlt) as (e' & k & HE' & Hrch). rewrite HS in HE'.
    injection HE' as <- ->. unfold leave_candidate, bind, get_state in HE.
    rewrite decide_True in HE by done. injection HE as <- <- <-.
    match goal with |- context [keeps_sim i ?x] => specialize (Hrch x eq_refl eq_refl) end.
    eapply reaches_mono; [|exact Hrch]. intros s' (Hd & El & Ec & Hcand & Hreq).
    split; [|by intros e' [= <-]]. split; [done|]. apply candidate_up; [|..|done].
    + rewrite El. split; apply (sv_up _ _ _ _ S).
    + rewrite Ec. apply (sv_up _ _ _ _ S).
    + done.
Qed.

(** ** The leader's loop *)

(** What the commitment of a leader counts was stored. *)
Record commit_sim s (t : N) (c : commitment) : Prop := {
  cs_voters : dom (matchIndexes c) = voter_set C;
  cs_match v m k : matchIndexes c !! v = Some m -> (startIndex c <= N.of_nat k <= m)%N ->
    Proto.p_acks s v t k;
  cs_commit : c_commitIndex c = 0%N \/ Proto.stored quorum s t (N.to_nat (c_commitIndex c))
}.

Lemma quorum_stored s t c q :
  dom (matchIndexes c) = voter_set C ->
  (forall v m k, matchIndexes c !! v = Some m -> (startIndex c <= N.of_nat k <= m)%N ->
     Proto.p_acks s v t k) ->
  quorum_stores (matchIndexes c) q -> (startIndex c <= q)%N ->
  Proto.stored quorum s t (N.to_nat q).
Proof.
  intros Hdom Hm Hq Hst. exists (dom (storing (matchIndexes c) q)). split; [split|].
  - rewrite <- Hdom. apply dom_filter_subseteq.
  - rewrite <- Hdom, !size_dom. exact Hq.
  - intros v [m [Hv Hle]%map_lookup_filter_Some]%elem_of_dom. simpl in Hle.
    eapply Hm; [exact Hv|]. lia.
Qed.

Lemma commit_match s t c v m :
  commit_sim s t c ->
  (forall k, (startIndex c <= N.of_nat k <= m)%N -> Proto.p_acks s v t k) ->
  commit_sim s t (match_ c v m) /\ startIndex (match_ c v m) = startIndex c.
Proof.
  intros [C1 C2 C3] Ha.
  destruct (commitment_step_spec c (match_ c v m)) as (_ & Hst & Hq); [constructor|].
  split; [|done].
  assert (matchIndexes (match_ c v m) = matchIndexes c \/
    is_Some (matchIndexes c !! v) /\ matchIndexes (match_ c v m) = <[v := m]> (matchIndexes c)) as Hcase.
  { unfold match_. destruct (matchIndexes c !! v) as [p|] eqn:Hp; [|by left].
    case_decide; [|by left]. right. split; [eauto|]. rewrite recalculate_unfold. by case_decide. }
  assert (dom (matchIndexes (match_ c v m)) = voter_set C) as Hd.
  { destruct Hcase as [->|[Hs ->]]; [done|]. rewrite dom_insert_L, <- C1.
    apply elem_of_dom in Hs. apply subseteq_union_1_L. by apply singleton_subseteq_l. }
  assert (forall v' m' k, matchIndexes (match_ c v m) !! v' = Some m' ->
    (startIndex (match_ c v m) <= N.of_nat k <= m')%N -> Proto.p_acks s v' t k) as Hm.
  { intros v' m' k Hl. rewrite Hst. destruct Hcase as [He|[_ He]]; rewrite He in Hl; [by apply (C2 v' m' k)|].
    destruct (decide (v' = v)) as [->|Hne].
    - rewrite lookup_insert_eq in Hl. injection Hl as <-. apply Ha.
    - rewrite lookup_insert_ne in Hl by done. by apply (C2 v' m' k). }
  split; [done|done|].
  destruct (decide (c_commitIndex (match_ c v m) = c_commitIndex c)) as [->|Hne]; [done|].
  right. destruct (Hq Hne) as (Hq1 & Hq2 & _). eapply quorum_stored; [done|done|done|lia].
Qed.

Lemma leader_sim_of s i l :
  leader_sim s i (progress_of l) <->
  (exists ld, Proto.p_lead s (Proto.p_term s i) = Some ld /\ Proto.ld_id ld = i /\
     (N.of_nat (length (Proto.ld_start ld)) < startIndex (ls_commitment l))%N) /\
  commit_sim s (Proto.p_term s i) (ls_commitment l) /\
  (forall j f, replState l !! j = Some f ->
     j <> i /\ ID (fr_peer f) = j /\ fr_currentTerm f = Proto.p_term s i /\
     (1 <= fr_nextIndex f)%N /\
     Proto.p_hints s (Proto.p_term s i) j (N.to_nat (fr_nextIndex f))).
Proof.
  split.
  - intros [L1 L2 L3 L4 L5]. simpl in *. split_and!; [done|by split|]. intros j f Hj.
    destruct (L5 j (fr_currentTerm f) (fr_nextIndex f) (ID (fr_peer f))) as (? & ? & Ht & ? & ?).
    { by rewrite lookup_fmap, Hj. }
    split_and!; try done. by rewrite <- Ht.
  - intros (L1 & [L2 L3 L4] & L5). split; simpl; try done. intros j t n p.
    rewrite lookup_fmap. destruct (replState l !! j) as [f|] eqn:Hj; [|done].
    intros [= <- <- <-]. destruct (L5 _ _ Hj) as (? & ? & Ht & ? & ?).
    rewrite Ht. by split_and!.
Qed.

Lemma commit_others i s s' t c : Proto.others i s s' -> commit_sim s t c -> commit_sim s' t c.
Proof.
  intros Ho [C1 C2 C3]. split; [done|..].
  - intros v m k Hm Hk. apply (Proto.ot_acks _ _ _ Ho). by eapply C2.
  - destruct C3 as [?|(Q & HQ & Ha)]; [by left|right]. exists Q. split; [done|].
    intros v Hv. by apply (Proto.ot_acks _ _ _ Ho), Ha.
Qed.

(** The leader [i] appends the entries [es]. *)
Section Extend.
Context (i : ServerID) (s : pstate) (r : raft) (ld : Proto.leadership (I := ServerID) (E := Log))
  (es : list Log).
Context (Hinv : inv s) (Hd : disk_sim s i r).
Context (Hl : Proto.p_lead s (Proto.p_term s i) = Some ld) (Hid : Proto.ld_id ld = i).
Context (Hterm : Forall (fun e => log_Term e = currentTerm (raft_state r)) es)
  (Hc : term_cached r) (Hplain : Forall plain es).
Abbreviation s' := (Proto.extend i ld es s).

Lemma extend_log : Proto.ld_log ld = Proto.p_log s i.
Proof using Hinv Hl Hid.
  symmetry. pose proof (Proto.ldo_self _ _ _ _ _ (Proto.inv_lead _ _ _ _ Hinv _ _ Hl)) as Hs.
  rewrite Hid in Hs. by apply Hs.
Qed.

Lemma extended_log : Proto.p_log s' i = Proto.p_log s i ++ es.
Proof using Hinv Hl Hid. simpl. by rewrite Proto.insert_case, decide_True, extend_log. Qed.

Lemma extend_reaches (P : pstate -> Prop) : P s' -> reaches i s P.
Proof using Hl Hid Hterm Hc Hd.
  intros HP. apply (reaches_step _ _ s'); [|by apply Proto.others_extend|by apply reaches_here].
  apply Proto.p_extend; [done|done|]. rewrite <- (ds_term _ _ _ Hd). unfold term_cached in Hc.
  by rewrite <- Hc.
Qed.

Lemma extended_disk r' :
  holds (logs r') (Proto.p_log s i ++ es) -> stable r' = stable r -> disk_sim s' i r'.
Proof using Hinv Hl Hid Hplain Hd.
  intros Hh Hk. destruct Hd as [D1 D2 D3 D4 D5 D6]. split; rewrite ?extended_log, ?Hk; try done.
  by apply Forall_app.
Qed.

(** The leader counts its own entries, and goes on with its routines. *)
Lemma extended_leader c l' :
  (N.of_nat (length (Proto.ld_start ld)) < startIndex c)%N ->
  commit_sim s (Proto.p_term s i) c ->
  ls_commitment l' = match_ c i (N.of_nat (length (Proto.p_log s i ++ es))) ->
  (forall j t n p, (routine <$> replState l') !! j = Some (t, n, p) ->
     j <> i /\ p = j /\ t = Proto.p_term s i /\ (1 <= n)%N /\ Proto.p_hints s t j (N.to_nat n)) ->
  leader_sim s' i (progress_of l').
Proof using Hinv Hl Hid.
  intros Hst Hcs Hm Hro. pose proof (Proto.others_extend i ld es s Hl Hid) as Ho.
  destruct (commit_match s' (Proto.p_term s i) c i (N.of_nat (length (Proto.p_log s i ++ es))))
    as [[C1 C2 C3] Hst']; [by eapply commit_others| |].
  { intros k Hk. right. split_and!; [done|done|lia|]. rewrite extend_log. lia. }
  rewrite <- Hm in *. split; simpl; try done.
  eexists. rewrite Proto.insert_case, decide_True by done. split_and!; [done|done|].
  simpl. lia.
Qed.
End Extend.

Lemma leave_leading now sd vs (lr : LeaderRaft L K SN) :
  state (raft_state (lr_raft lr)) = Leader ->
  leave_leader now sd vs lr = Done (in_leader (lr_leader lr) sd vs) (lr_raft lr).
Proof. intros Hs. unfold leave_leader. by rewrite decide_True. Qed.

Lemma leading_up s' i r' l sd vs :
  positions r' (Proto.p_log s' i) -> commitIndex (raft_state r') = N.of_nat (Proto.p_commit s' i) ->
  state (raft_state r') = Leader -> leader_sim s' i (progress_of l) ->
  up_sim s' i r' (in_leader l sd vs).
Proof.
  intros Hp Hc Hs Hl. split; try done.
  - intros _. destruct (lm_start _ _ _ Hl) as (ld & ? & ? & _). exists ld. split_and!; [done|done|].
    intros Hn. destruct Hn. by do 3 eexists.
  - by intros ? ? ? [= <- <- <-].
Qed.

Lemma client_plain f e : client_entry f -> log_Type e = log_Type (lf_log f) -> plain e.
Proof. unfold client_entry, plain. intros [Hf|Hf] ->; rewrite Hf; done. Qed.

(** New entries of clients. *)
Lemma dispatch_sim now fs s i r l sd vs :
  server s i r (in_leader l sd vs) -> Forall client_entry fs -> fs <> [] -> roomy r (length fs) ->
  exists st lr', dispatchLogs now fs (mkLeaderRaft r l) = Done st lr' /\
    state (raft_state (lr_raft lr')) = Leader /\
    reaches i s (keeps_sim i (lr_raft lr') (in_leader (lr_leader lr') sd vs)).
Proof.
  intros S Hcl Hne Hroom. pose proof (server_roomy _ _ _ _ _ S Hroom) as Hlt.
  destruct S as [SD Hinv Hc _ Hid HC Hd [U1 U2 U3 U4 U5]].
  destruct (U5 _ _ _ eq_refl) as [Hst Hsim].
  destruct (dispatchLogs_lists now fs (mkLeaderRaft r l) (Proto.p_log s i))
    as (es & st & lr' & HE & [P1 P2 P3 P4 P5 P6 P7 P8 P9]); [apply Hd|done|done|lia|].
  exists st, lr'. split; [done|]. simpl in *. split; [congruence|].
  destruct (proj1 (leader_sim_of s i l) Hsim) as ((ld & Hl & Hi & Hstart) & Hcs & _).
  assert (Forall plain es) as Hplain.
  { clear -P3 Hcl. induction P3 as [|f e fs es He _ IH]; [constructor|].
    apply Forall_cons in Hcl as [Hf Hcl]. constructor; [by eapply client_plain|by apply IH]. }
  pose proof (lquiet_dispatchLogs now fs (mkLeaderRaft r l)) as Hq. rewrite HE in Hq.
  apply (extend_reaches i s r ld es); try done. unfold identity in Hid. injection Hid as Hid _ _.
  pose proof (extended_log i s ld es Hinv Hl Hi) as El. split.
  - apply (extended_disk i s r); try done. apply Hq.
  - apply leading_up; rewrite ?El; [done|by rewrite P6|by rewrite P7|].
    eapply (extended_leader i s ld es); try done.
    + rewrite P8. by rewrite Hid.
    + rewrite P9. apply Hsim.
Qed.

(** What the loop goes on with after one of its cases. *)
Definition leader_after (env : rpcEnv) (sd : bool) (vs : gmap nat (option nat))
    (o : outcome (LeaderRaft L K SN) unit) : outcome raft (role * output) :=
  match o with
  | Done _ lr =>
      match leave_leader (env_now env) sd vs lr with
      | Done ro r => Done (ro, out_none) r
      | Panicked r => Panicked r
      end
  | Panicked lr => Panicked (lr_raft lr)
  end.

Lemma leader_case_after env (sd : bool) vs (m : M (LeaderRaft L K SN) unit) lr :
  match (m;; returns (sd, out_none))%go lr with
  | Done (sd, out) lr =>
      match leave_leader (env_now env) sd vs lr with
      | Done ro r => Done (ro, out) r
      | Panicked r => Panicked r
      end
  | Panicked lr => Panicked (lr_raft lr)
  end = leader_after env sd vs (m lr).
Proof. unfold bind, leader_after. by destruct (m lr). Qed.

Lemma leader_after_idle env sd vs m s i r l ro' out r' :
  server s i r (in_leader l sd vs) -> ordinary r (in_leader l sd vs) out r' ro' ->
  frames lstill m -> frames lquiet m ->
  leader_after env sd vs (m (mkLeaderRaft r l)) = Done (ro', out) r' ->
  reaches i s (keeps_sim i r' ro').
Proof.
  intros Sv Ho Hs Hq. specialize (Hs (mkLeaderRaft r l)). specialize (Hq (mkLeaderRaft r l)).
  unfold leader_after. destruct (m _) as [u lr|]; [|done].
  destruct Hs as [Hs Hp]. destruct (leave_leader _ _ _ _) as [ro r1|] eqn:HL; [|done].
  intros [= <- <- <-]. destruct (roles_leader _ _ _ l sd vs _ _ _ HL Hp) as [Hi Hr].
  apply reaches_here. eapply moved_ordinary; [done|reflexivity| |exact Ho|done].
  eapply moved_then; [|exact Hi]. eapply moved_idle; [apply Sv|apply Sv|apply Sv|].
  split; [done|apply Hq].
Qed.

Lemma apply_sim env f waiting s i r l sd vs ro' out r' :
  server s i r (in_leader l sd vs) -> Forall client_entry (f :: waiting) ->
  roomy r (S (length waiting)) ->
  main_step env (ev_apply f waiting) (in_leader l sd vs) r = Some (Done (ro', out) r') ->
  reaches i s (keeps_sim i r' ro').
Proof.
  intros Sv Hcl Hroom HE. pose proof (leader_ordinary _ _ _ _ _ _ _ _ _ (sv_cached _ _ _ _ Sv)
    (sv_votes _ _ _ _ Sv) HE) as Ho. revert HE.
  cbn [main_step leader_case note_verify]. rewrite leader_case_after. intros [= HE].
  unfold leader_apply, bind at 1, get_raft in HE. unfold bind at 1, get_leader in HE.
  cbn [lr_leader lr_raft] in HE. destruct (leadershipTransferInProgress l).
  { eapply leader_after_idle; [done|done| | |exact HE]; [hold|calm]. }
  destruct sd.
  { eapply leader_after_idle; [done|done| | |exact HE]; [hold|calm]. }
  set (ready := f :: _) in HE.
  assert (length ready <= S (length waiting)) as Hlen.
  { unfold ready. cbn [length]. rewrite length_take. lia. }
  destruct (dispatch_sim (env_now env) ready s i r l false vs) as (st & lr' & HD & Hst & Hrch);
    [done| |done| |].
  { apply Forall_cons in Hcl as [? ?]. constructor; [done|by apply Forall_take]. }
  { destruct Hroom as [? ?]. split; [lia|done]. }
  unfold bind in HE. rewrite HD in HE. unfold leader_after, returns in HE.
  rewrite leave_leading in HE by done. by injection HE as <- <- <-.
Qed.

Context (C_valid : valid_configuration C).

Lemma quorums_meet Q1 Q2 : quorum Q1 -> quorum Q2 -> exists v, v ∈ Q1 /\ v ∈ Q2.
Proof.
  intros HQ1 HQ2. destruct (set_choose_or_empty (Q1 ∩ Q2)) as [[v Hv]|He].
  - exists v. by apply elem_of_intersection.
  - exfalso. apply leibniz_equiv in He. revert He.
    by apply (quorum_overlap (voter_set C) (voter_set C) Q1 Q2 "").
Qed.

(** The first entry of a leader. *)
Lemma start_sim env s i r ro' out r' :
  server s i r in_run -> state (raft_state r) = Leader -> shutdown r = false -> roomy r 1 ->
  enter_loop env r = Done (ro', out) r' ->
  reaches i s (fun s' => keeps_sim i r' ro' s' /\ out_sim s' out).
Proof using C_valid.
  intros Sv Hst Hsh Hroom. pose proof (server_roomy _ _ _ _ _ Sv Hroom) as Hlt.
  destruct Sv as [SD Hinv Hc _ Hid HC Hd [U1 U2 U3 U4 U5]].
  destruct (U3 Hst) as (ld & Hl & Hi & Hnew). destruct Hnew as [Hlog Hh];
    [by intros (? & ? & ? & ?)|].
  unfold enter_loop. rewrite Hsh, Hst.
  destruct (runLeader_start_lists (env_now env) r (Proto.p_log s i))
    as (e & lr' & HE & [P1 P2 P3 P4 P5 P6 P7 P8 P9]); [apply Hd|done|lia|].
  rewrite HE, leave_leading by congruence. intros [= <- <- <-].
  unfold identity in Hid. injection Hid as Hid _ _.
  pose proof (extend_log i s ld Hinv Hl Hi) as Hll. rewrite Hlog in Hll.
  apply (extend_reaches i s r ld [e]); try done.
  { constructor; [done|constructor]. }
  pose proof (extended_log i s ld [e] Hinv Hl Hi) as El. split; [|done]. split.
  - apply (extended_disk i s r); try done. constructor; [|constructor].
    unfold plain. rewrite P2. done.
  - apply leading_up; rewrite ?El; [done|by rewrite P5|by rewrite P6|].
    apply (extended_leader i s ld [e] Hinv Hl Hi
      (newCommitment false (latest (raft_configurations r)) (N.of_nat (length (Proto.p_log s i)) + 1))).
    + rewrite Hll. simpl. lia.
    + unfold latest_of in HC. rewrite HC. split; simpl; [|..|by left].
      * rewrite <- (voter_ids_set C C_valid). apply set_eq. intros v.
        rewrite elem_of_dom, voter_indexes_lookup. case_decide; [by split; [|eauto]|].
        rewrite lookup_empty. split; [by intros [? ?]|done].
      * intros v m k. rewrite voter_indexes_lookup. case_decide; [|by rewrite lookup_empty].
        intros [= <-]. lia.
    + rewrite P8, Hid, length_app. simpl. f_equal. lia.
    + intros j t n p. rewrite lookup_fmap. destruct (replState _ !! j) as [f|] eqn:Hj; [|done].
      intros [= <- <- <-]. destruct (P9 _ _ Hj) as [Hne Hr]. unfold routine in Hr.
      injection Hr as R1 R2 R3.
      unfold term_cached in Hc. rewrite R1, R2, Hc, (ds_term _ _ _ Hd).
      split_and!; [congruence|done|done|lia|].
      replace (N.to_nat (N.of_nat (length (Proto.p_log s i)) + 1))
        with (S (length (Proto.ld_start ld))) by (rewrite Hll; lia). apply Hh.
Qed.

Lemma enter_sim env s i r ro' out r' :
  server s i r in_run -> roomy r 1 -> enter_loop env r = Done (ro', out) r' ->
  reaches i s (fun s' => keeps_sim i r' ro' s' /\ out_sim s' out).
Proof.
  intros Sv Hroom HE. destruct (shutdown r) eqn:Hsh.
  { unfold enter_loop in HE. rewrite Hsh in HE. unfold bind in HE. rewrite setLeader_eq in HE.
    injection HE as <- <- <-. apply reaches_here. split; [|done].
    destruct Sv as [SD Hinv Hc _ Hid HC Hd [U1 U2 U3 U4 U5]].
    split; [by apply (disk_same s i r)|]. split; [by split; apply U1|..]; done. }
  destruct (state (raft_state r)) eqn:Hst.
  - unfold enter_loop in HE. rewrite Hsh, Hst in HE. injection HE as <- <- <-.
    apply reaches_here. split; [|done]. destruct Sv as [SD Hinv Hc _ Hid HC Hd [U1 U2 U3 U4 U5]].
    split; [done|]. split; try done. congruence.
  - eapply enter_candidate_sim; eauto. apply Hroom.
  - by eapply start_sim.
  - unfold enter_loop in HE. rewrite Hsh, Hst in HE. injection HE as <- <- <-.
    apply reaches_here. split; [|done]. destruct Sv as [SD Hinv Hc _ Hid HC Hd [U1 U2 U3 U4 U5]].
    split; [done|]. by split.
Qed.

(** The commit index of a leader. *)
Lemma commit_step_sim env s i r l sd vs ro' out r' :
  server s i r (in_leader l sd vs) ->
  main_step env ev_commit (in_leader l sd vs) r = Some (Done (ro', out) r') ->
  reaches i s (keeps_sim i r' ro').
Proof.
  intros Sv HE. pose proof (leader_ordinary _ _ _ _ _ _ _ _ _ (sv_cached _ _ _ _ Sv)
    (sv_votes _ _ _ _ Sv) HE) as Ho. revert HE.
  cbn [main_step leader_case note_verify]. intros [= HE].
  pose proof (leader_commit_lists sd (mkLeaderRaft r l)) as Hlc.
  pose proof (lquiet_leader_commit sd (mkLeaderRaft r l)) as Hq. unfold bind in HE.
  destruct (leader_commit sd _) as [sd' lr|]; [|done]. simpl in HE, Hlc.
  destruct Hlc as (P1 & P2 & P3 & P4 & P5).
  destruct (leave_leader _ _ _ _) as [ro r1|] eqn:HL; [|done]. injection HE as <- <- <-.
  destruct (roles_leader _ _ _ l sd vs _ _ _ HL P5) as [Hi Hr].
  destruct (us_loop _ _ _ _ (sv_up _ _ _ _ Sv) _ _ _ eq_refl) as [Hst Hsim].
  set (c := N.to_nat (c_commitIndex (ls_commitment l))) in *.
  apply (reaches_step _ _ (Proto.set_commit i c s)); [|apply Proto.others_set_commit|].
  { destruct (lm_start _ _ _ Hsim) as (ld & Hl & Hid & _).
    destruct (lm_commit _ _ _ Hsim) as [Hz|Hs]; simpl in *.
    - unfold c. rewrite Hz. apply Proto.p_reset.
    - by eapply Proto.p_leader_commit. }
  apply reaches_here. eapply moved_ordinary; [done|apply Proto.others_set_commit| |exact Ho|done].
  eapply moved_then; [|exact Hi]. destruct (sv_up _ _ _ _ Sv) as [[U1 U1'] U2 _ _ _]. split; simpl; try done.
  - split; [by rewrite P2|by rewrite P3].
  - rewrite Proto.insert_case, decide_True by done. unfold c. lia.
  - assert (disk_sim s i (lr_raft lr)) as [D1 D2 D3 D4 D5 D6]; [|by split].
    apply (disk_same s i r); [done|apply Hq|apply Sv].
Qed.

(** A vote. *)
Lemma vote_sim env v s i r c ro' out r' :
  server s i r (in_candidate c) -> state (raft_state r) = Candidate ->
  main_step env (ev_vote v) (in_candidate c) r = Some (Done (ro', out) r') ->
  (state (raft_state r') = Leader -> exists Q, quorum Q /\
     forall v, v ∈ Q -> Proto.p_votes s v (currentTerm (raft_state r')) i) ->
  reaches i s (keeps_sim i r' ro').
Proof.
  intros Sv Hst HE HQ. cbn [main_step candidate_case] in HE.
  destruct (cl_voteCh c) eqn:Hvc; [|done]. injection HE as HE.
  apply bind_Done in HE as (x & r1 & (cc & HD & ->)%map_Done & HE).
  apply map_Done in HE as (ro & HL & HE). injection HE as -> ->.
  unfold candidate_vote, bind at 1, get_state in HD. cbv zeta in HD.
  match type of HD with context [if decide ?P then _ else _] => destruct (decide P) as [Hgt|_] end.
  { destruct (raise_steady (rvr_Term (vr_response v)) cl_return r) as (r2 & HR & Hs & Hf & Ht & Hv).
    rewrite HR in HD. injection HD as <- <-. cbn [candidate_result fst] in HL.
    assert (ro = in_run) as -> by (by injection HL).
    apply (step_down_sim s i r r2 r' _ (rvr_Term (vr_response v)) Sv ltac:(lia) Hs Hf Ht Hv HL). }
  destruct (sv_up _ _ _ _ Sv) as [U1 U2 U3 U4 U5].
  match type of HD with context [if decide ?P then _ else _] => destruct (decide P) as [Hq|Hq] end.
  - unfold bind in HD. rewrite setState_eq, setLeader_eq in HD. injection HD as <- <-.
    injection HL as <- <-. destruct (HQ eq_refl) as (Q & HQ1 & HQ2). simpl in HQ2.
    pose proof (sv_cached _ _ _ _ Sv) as Hc. unfold term_cached in Hc.
    rewrite Hc, (ds_term _ _ _ (sv_disk _ _ _ _ Sv)) in HQ2.
    apply (reaches_step _ _ (Proto.win i s)).
    { eapply Proto.p_win; [by eapply U4|done|done]. }
    { eapply Proto.others_win; [apply quorums_meet|apply Sv|by eapply U4|done|done]. }
    apply reaches_here. split.
    + assert (disk_sim s i r) as [D1 D2 D3 D4 D5 D6] by apply Sv. by split.
    + split; simpl; [by split; apply U1|done| |done|done]. intros _.
      eexists. rewrite Proto.insert_case, decide_True by done. split_and!; [done|done|].
      intros _. split; [done|]. intros j. right. done.
  - injection HD as <- <-. simpl in HL. unfold leave_candidate, bind, get_state in HL.
    rewrite decide_True in HL by done. injection HL as <- <-. apply reaches_here.
    split; [apply Sv|]. apply candidate_up; [done|done|done|]. simpl. intros _. by eapply U4.
Qed.

(** ** Panics *)

Lemma rpc_panic env c ro r r' :
  main_step env (ev_rpc c) ro r = Some (Panicked r') -> answer_rpc env c r = Panicked r'.
Proof.
  destruct ro as [| |cd|l sd vs]; cbn [main_step follower_case candidate_case leader_case]; [done|..].
  - unfold bind. destruct (answer_rpc env c r) as [o r1|r1]; by intros [= <-].
  - unfold bind at 1 2. destruct (answer_rpc env c r) as [o r1|r1]; [|by intros [= <-]].
    unfold returns, bind, leave_candidate, bind, get_state. simpl. by case_decide.
  - unfold bind, on_raft. simpl. destruct (answer_rpc env c r) as [o r1|r1]; [|by intros [= <-]].
    simpl. destruct (leave_leader _ _ _ _) as [|r2] eqn:HL; [done|].
    by destruct (leave_leader_total _ _ _ _ _ HL).
Qed.

(** What the main thread may receive, in terms of the protocol. *)
Definition permitted s (i : ServerID) (ev : event) : Prop :=
  match ev with
  | ev_rpc c => receivable s i c
  | ev_apply f waiting => Forall client_entry (f :: waiting)
  | ev_configurationChange _ _ | ev_userRestore _ _ | ev_bootstrap _ _ | ev_vote _ => False
  | _ => True
  end.

Lemma enter_panic env s i r r' :
  server s i r in_run -> roomy r 1 -> enter_loop env r <> Panicked r'.
Proof.
  intros Sv Hroom. pose proof (server_roomy _ _ _ _ _ Sv Hroom) as Hlt. unfold enter_loop.
  destruct (shutdown r); [unfold bind; by rewrite setLeader_eq|].
  destruct (state (raft_state r)) eqn:Hst; [done| | |done].
  - unfold runCandidate_start, bind at 1 2, get_state. cbv zeta.
    destruct (negb _ && _).
    + unfold returns, leave_candidate, bind, get_state. by case_decide.
    + destruct (campaign_sim s i r _ Sv) as (e & k & HE & _); [apply Hroom|].
      unfold bind at 1. rewrite HE. unfold leave_candidate, bind, get_state, returns.
      cbn [fst]. by case_decide.
  - destruct (runLeader_start_lists (env_now env) r (Proto.p_log s i)) as (e & lr' & -> & _);
      [apply Sv|apply Sv|lia|].
    destruct (leave_leader _ _ _ _) as [|r2] eqn:HL; [done|].
    by destruct (leave_leader_total _ _ _ _ _ HL).
Qed.

Lemma preVote_panic env v s i r c r' :
  server s i r (in_candidate c) -> (currentTerm (raft_state r) + 1 < u64_size)%N ->
  main_step env (ev_preVote v) (in_candidate c) r <> Some (Panicked r').
Proof.
  intros Sv Hlt. cbn [main_step candidate_case]. destruct (cl_prevoteCh c); [|done].
  assert (exists x r1, candidate_preVote c v r = Done x r1) as (x & r1 & HD).
  { unfold candidate_preVote. cbv zeta. case_decide.
    - destruct (raise_steady (pvr_Term (pr_response v)) cl_return r) as (r2 & -> & _). eauto.
    - case_decide; [|eauto]. destruct (campaign_sim s i r _ Sv Hlt) as (e & k & HE & _).
      unfold bind. rewrite HE. eauto. }
  unfold bind at 1 2. rewrite HD. unfold returns, bind, leave_candidate, bind, get_state.
  destruct (candidate_result x).1 as [c'|]; [case_decide|]; done.
Qed.

Lemma leader_panic env ev s i r l sd vs r' :
  server s i r (in_leader l sd vs) -> permitted s i ev -> roomy r (appended_by ev) ->
  ev = ev_commit \/ (exists f w, ev = ev_apply f w) ->
  main_step env ev (in_leader l sd vs) r = Some (Panicked r') -> disk_sim s i r'.
Proof.
  intros Sv Hp Hroom [->|(f & w & ->)].
  - cbn [main_step leader_case note_verify]. intros [= HE].
    pose proof (leader_commit_lists sd (mkLeaderRaft r l)) as Hlc.
    pose proof (lquiet_leader_commit sd (mkLeaderRaft r l)) as Hq. unfold bind in HE.
    destruct (leader_commit sd _) as [sd' lr|lr]; simpl in HE.
    + destruct (leave_leader _ _ _ _) as [|r2] eqn:HL; [done|].
      by destruct (leave_leader_total _ _ _ _ _ HL).
    + injection HE as <-. apply (disk_same s i r); [done|apply Hq|apply Sv].
  - cbn [main_step leader_case note_verify]. rewrite leader_case_after. intros [= HE].
    assert (forall o, leader_after env sd vs o = Panicked r' -> exists lr, o = Panicked lr) as Hno.
    { unfold leader_after. intros [u lr|lr]; [|eauto]. 
      destruct (leave_leader _ _ _ _) as [|r2] eqn:HL; [done|].
      by destruct (leave_leader_total _ _ _ _ _ HL). }
    destruct (Hno _ HE) as [lr Hlr]. exfalso. revert Hlr.
    unfold leader_apply, bind at 1, get_raft. unfold bind at 1, get_leader.
    cbn [lr_leader lr_raft]. destruct (leadershipTransferInProgress l).
    { unfold on_raft. by rewrite respond_eq. }
    destruct sd; [unfold on_raft; by rewrite respond_all_eq|].
    set (ready := f :: _).
    destruct (dispatch_sim (env_now env) ready s i r l false vs) as (st & lr' & HD & _);
      [done| |done| |unfold bind; by rewrite HD].
    + apply Forall_cons in Hp as [? ?]. constructor; [done|by apply Forall_take].
    + destruct Hroom as [Hr ?]. split; [|done]. unfold ready. cbn [length appended_by] in *.
      rewrite length_take. lia.
Qed.

(** A panic leaves the disk as the protocol allows it. *)
Lemma panic_sim env ev s i r ro r' :
  server s i r ro -> permitted s i ev -> roomy r (appended_by ev) ->
  main_step env ev ro r = Some (Panicked r') -> reaches i s (fun s' => disk_sim s' i r').
Proof.
  intros Sv Hp Hroom HE. destruct (quiet_event ro ev) eqn:Hq.
  { pose proof (quiet_event_idle env ev ro r Hq) as Hi. rewrite HE in Hi. destruct Hi as [Hs Hk].
    apply reaches_here. apply (disk_same s i r); [by apply still_logs|done|apply Sv]. }
  assert ((exists c, ev = ev_rpc c) \/ forall c, ev <> ev_rpc c) as [[c ->]|Hne]
    by (destruct ev; try (right; done); left; eauto).
  { apply rpc_panic in HE. pose proof (server_roomy _ _ _ _ _ Sv Hroom) as Hlt.
    cbn [appended_by] in Hlt. pose proof (moved_rpc env c i s r) as Hm. rewrite HE in Hm.
    apply Hm; [apply Sv|apply Sv|apply Sv|apply Sv|apply Sv|lia|done]. }
  destruct ro as [| |cd|l sd vs].
  - destruct ev; try done. cbn [main_step] in HE. injection HE as HE.
    by destruct (enter_panic env s i r r' Sv Hroom).
  - destruct ev; try done. by destruct (Hne c).
  - destruct ev; try done; [by destruct (Hne c)|].
    by destruct (preVote_panic env v s i r cd r' Sv (proj2 Hroom)).
  - apply reaches_here. eapply leader_panic; [done|done|done| |exact HE].
    destruct ev; try done; [by destruct (Hne c)|right; eauto|by left].
Qed.

(** ** Every event of the main thread *)

Lemma no_campaign_sim s' out : no_campaign out -> out_sim s' out.
Proof. intros Hn e ->. by destruct Hn. Qed.

Lemma quiet_event_ordinary env ev s i r ro ro' out r' :
  server s i r ro -> permitted s i ev -> quiet_event ro ev = true ->
  main_step env ev ro r = Some (Done (ro', out) r') -> ordinary r ro out r' ro'.
Proof.
  intros Sv Hp Hq HE. destruct Sv as [SD Hinv Hc Hv Hid HC Hd Hup]. destruct ro as [| |cd|l sd vs].
  - destruct ev; try done. cbn [main_step] in HE. injection HE as HE.
    apply bind_Done in HE as (u & r1 & HS & HE). injection HE as <- <- <-.
    split; [|done|done]. apply quiet_advances; [done|].
    exact (frames_Done _ _ _ _ _ quiet_Shutdown HS).
  - eapply follower_ordinary; [done|done| |done]. by destruct ev.
  - eapply candidate_ordinary; [done|done|..|done]; by destruct ev.
  - by eapply leader_ordinary.
Qed.

Lemma event_sim env ev s i r ro ro' out r' :
  server s i r ro -> permitted s i ev -> roomy r (appended_by ev) ->
  (forall c, ro = in_candidate c -> state (raft_state r) = Candidate /\
     (cl_prevoteCh c = true -> (currentTerm (raft_state r) <= cl_term c)%N)) ->
  main_step env ev ro r = Some (Done (ro', out) r') ->
  reaches i s (fun s' => keeps_sim i r' ro' s' /\ out_sim s' out).
Proof.
  intros Sv Hp Hroom Hcand HE. destruct (quiet_event ro ev) eqn:Hq.
  { pose proof (quiet_event_ordinary _ _ _ _ _ _ _ _ _ Sv Hp Hq HE) as Ho.
    eapply reaches_mono; [|by eapply quiet_event_sim]. intros s' ?. split; [done|].
    apply no_campaign_sim, Ho. }
  assert ((exists c, ev = ev_rpc c) \/ forall c, ev <> ev_rpc c) as [[c ->]|Hne]
    by (destruct ev; try (right; done); left; eauto).
  { destruct (rpc_sim env c s i r ro ro' out r' Sv Hroom Hp HE) as (rep & err & -> & Hr).
    eapply reaches_mono; [|exact Hr]. intros s' [? _]. split; [done|]. by apply no_campaign_sim. }
  assert (reaches i s (keeps_sim i r' ro') -> no_campaign out ->
    reaches i s (fun s' => keeps_sim i r' ro' s' /\ out_sim s' out)) as Hplain.
  { intros Hr Hn. eapply reaches_mono; [|exact Hr]. intros s' ?. split; [done|].
    by apply no_campaign_sim. }
  destruct ro as [| |cd|l sd vs].
  - destruct ev; try done. cbn [main_step] in HE. injection HE as HE. by eapply enter_sim.
  - destruct ev; try done. by destruct (Hne c).
  - destruct (Hcand cd eq_refl) as [Hst Hpre].
    destruct ev; try done; [by destruct (Hne c)|]. eapply preVote_sim; try done. apply Hroom.
  - pose proof (leader_ordinary _ _ _ _ _ _ _ _ _ (sv_cached _ _ _ _ Sv) (sv_votes _ _ _ _ Sv) HE)
      as [_ Hn _]. apply Hplain; [|done].
    destruct ev; try done; [by destruct (Hne c)|by eapply apply_sim|by eapply commit_step_sim].
Qed.

(** ** Replication *)

Lemma consecutive_part i l (p : nat) es :
  consecutive_from i l -> es `prefix_of` drop p l -> p <= length l ->
  consecutive_from (i + N.of_nat p) es.
Proof.
  intros Hc [k Hk] Hp. assert (l = take p l ++ es ++ k) as Hl
    by (by rewrite <- Hk, take_drop).
  rewrite Hl in Hc. apply consecutive_app in Hc. rewrite length_take, Nat.min_l in Hc by done.
  by apply consecutive_app_l in Hc.
Qed.

Lemma send_keeps s m v r ro :
  disk_sim s v r /\ up_sim s v r ro ->
  disk_sim (Proto.send m s) v r /\ up_sim (Proto.send m s) v r ro.
Proof.
  destruct (exist_fresh ({[v]} : gset ServerID)) as [x Hx%not_elem_of_singleton].
  pose proof (Proto.others_send x m s) as Ho. intros [Hd Hu].
  split; [eapply disk_others|eapply up_others]; done.
Qed.

Lemma send_sim s i r l sd vs j f next lastIndex req :
  server s i r (in_leader l sd vs) -> replState l !! j = Some f ->
  (fr_nextIndex f <= next)%N -> (startIndex (ls_commitment l) <= lastIndex)%N ->
  (0 < MaxAppendEntries (conf r))%Z ->
  (next + Z.to_N (MaxAppendEntries (conf r)) + 1 < u64_size)%N ->
  setupAppendEntries r f next lastIndex = Ok req ->
  Proto.proto_step log_Term quorum s (Proto.send (abstract (ID (fr_peer f)) req) s) /\
  message_sim (Proto.send (abstract (ID (fr_peer f)) req) s) (ID (fr_peer f)) req.
Proof.
  intros Sv Hf Hn Hst Hmax Hlt HE. destruct Sv as [SD Hinv Hc _ Hid HC Hd [U1 U2 U3 U4 U5]].
  destruct (U5 _ _ _ eq_refl) as [_ Hsim].
  destruct (proj1 (leader_sim_of s i l) Hsim) as ((ld & Hl & Hi & Hstart) & _ & Hro).
  destruct (Hro _ _ Hf) as (Hji & Hp & Ht & H1' & Hh).
  destruct (setupAppendEntries_lists r f next lastIndex req (Proto.p_log s i))
    as (p & [B1 B2 B3 B4 B5 B6 B7 B8]); [apply Hd|apply U1|done|done|lia|done|].
  pose proof (extend_log i s ld Hinv Hl Hi) as Hll. rewrite Hp. split.
  - assert (abstract j req = Proto.mkAppend (Proto.p_term s i) j p
      (last_term (take p (Proto.ld_log ld))) (ae_Entries req) (Proto.p_commit s i)) as ->.
    { unfold abstract. rewrite B2, B4, B7, B8, U2, !Nat2N.id, Hll, Ht. done. }
    eapply Proto.p_send; try done; rewrite ?Hll; [lia|done|done|].
    intros He. specialize (B6 He). lia.
  - split; [by right|]. split.
    + apply Forall_forall. intros e He. pose proof (ds_plain _ _ _ Hd) as Hpl.
      rewrite Forall_forall in Hpl. apply Hpl. destruct B5 as [k Hk].
      rewrite <- (take_drop p (Proto.p_log s i)), Hk, !elem_of_app. auto.
    + rewrite B2, N.add_comm. eapply consecutive_part; [|done|done].
      apply holds_numbered with (logs r). apply Hd.
Qed.

Lemma beat_made s i r l sd vs j f :
  server s i r (in_leader l sd vs) -> replState l !! j = Some f ->
  beat_sim s (ID (fr_peer f)) (heartbeat_request r f).
Proof.
  intros Sv Hf. destruct (us_loop _ _ _ _ (sv_up _ _ _ _ Sv) _ _ _ eq_refl) as [_ Hsim].
  destruct (proj1 (leader_sim_of s i l) Hsim) as ((ld & Hl & Hi & _) & _ & Hro).
  destruct (Hro _ _ Hf) as (Hji & Hp & Ht & _). split_and!; [done|done|done|].
  exists ld. simpl. rewrite Ht, Hp. split; [done|congruence].
Qed.

(** A message of the leader's own term. *)
Lemma message_bound s i j a ld :
  inv s -> message_sim s j a -> ae_Term a = Proto.p_term s i ->
  Proto.p_lead s (Proto.p_term s i) = Some ld -> Proto.ld_id ld = i ->
  N.to_nat (ae_PrevLogEntry a) + length (ae_Entries a) <= length (Proto.p_log s i).
Proof.
  intros Hinv (Hm & _) Ht Hl Hid. destruct (Proto.inv_msg _ _ _ _ Hinv _ Hm) as (ld' & Hl' & Hok).
  simpl in Hl'. rewrite Ht, Hl in Hl'. injection Hl' as <-.
  pose proof (Proto.mo_prev _ _ _ _ _ _ Hok) as Hp.
  pose proof (prefix_length _ _ (Proto.mo_entries _ _ _ _ _ _ Hok)) as He. simpl in Hp, He.
  rewrite length_drop in He. rewrite <- (extend_log i s ld Hinv Hl Hid). lia.
Qed.

(** The leader's state after an answer: what moved is backed by the answer. *)
Lemma progress_sim s i r l sd vs j f l' n c :
  server s i r (in_leader l sd vs) -> replState l !! j = Some f ->
  responded j f l l' n c -> startIndex c = startIndex (ls_commitment l) ->
  commit_sim s (Proto.p_term s i) c -> (1 <= n)%N ->
  Proto.p_hints s (Proto.p_term s i) j (N.to_nat n) ->
  up_sim s i r (in_leader l' sd vs).
Proof.
  intros Sv Hf [R1 R2 R3] Hst Hc Hn Hh. destruct (sv_up _ _ _ _ Sv) as [U1 U2 U3 U4 U5].
  destruct (U5 _ _ _ eq_refl) as [Hs Hsim].
  destruct (proj1 (leader_sim_of s i l) Hsim) as (Hld & _ & Hro).
  apply leading_up; try done. apply leader_sim_of. rewrite R1, Hst. split_and!; [done|done|].
  intros k f' Hk. destruct (decide (k = j)) as [->|Hne].
  - rewrite Hk in R2. injection R2 as E1 E2 E3. destruct (Hro _ _ Hf) as (? & ? & ? & _ & _).
    rewrite E1, E2, E3. by split_and!.
  - rewrite R3 in Hk by done. by apply Hro.
Qed.

(** An accepted request. *)
Lemma accepted_sim s i r l sd vs j f req resp x :
  server s i r (in_leader l sd vs) -> replState l !! j = Some f -> roomy r 1 ->
  reply_sim s j req resp -> ae_Term req = fr_currentTerm f ->
  (aer_Term resp <= ae_Term req)%N -> aer_Success resp = true ->
  last (ae_Entries req) = Some x ->
  let c := match_ (ls_commitment l) (ID (fr_peer f)) (log_Index x) in
  let n := u64_add (log_Index x) 1 in
  startIndex c = startIndex (ls_commitment l) /\ commit_sim s (Proto.p_term s i) c /\
  (1 <= n)%N /\ Proto.p_hints s (Proto.p_term s i) j (N.to_nat n).
Proof.
  intros Sv Hf Hroom (Hm & _ & Hr) Ht Hle Hs Hx. cbv zeta.
  pose proof (server_roomy _ _ _ _ _ Sv Hroom) as Hlt.
  destruct Sv as [SD Hinv Hc _ Hid HC Hd [U1 U2 U3 U4 U5]].
  destruct (U5 _ _ _ eq_refl) as [_ Hsim].
  destruct (proj1 (leader_sim_of s i l) Hsim) as ((ld & Hl & Hi & Hst) & Hcs & Hro).
  destruct (Hro _ _ Hf) as (_ & Hp & Hft & _). rewrite Hft in Ht. rewrite Hp.
  specialize (Hr Hle). rewrite Hs, Ht in Hr. destruct Hr as [(ld' & Hl' & Ha) Hh].
  rewrite Hl in Hl'. injection Hl' as <-.
  pose proof (message_bound s i j req ld Hinv Hm Ht Hl Hi) as Hb.
  pose proof (consecutive_last _ _ _ (proj2 (proj2 Hm)) Hx) as Hxi.
  assert (ae_Entries req <> []) as Hne by (by intros Hnil; rewrite Hnil in Hx).
  destruct (ae_Entries req) as [|y ys] eqn:Hes; [done|]. cbn [length] in *.
  rewrite u64_add_small by lia.
  destruct (commit_match s (Proto.p_term s i) (ls_commitment l) j (log_Index x) Hcs) as [Hcs' Hst'].
  { intros k Hk. apply Ha. lia. }
  split_and!; [done|done|lia|]. apply Hh. lia.
Qed.

Lemma pipelined_sim s i r l sd vs j f now req resp b l' :
  server s i r (in_leader l sd vs) -> replState l !! j = Some f -> roomy r 1 ->
  reply_sim s j req resp -> ae_Term req = fr_currentTerm f ->
  pipelineDecode_response now j req resp l = (b, l') -> up_sim s i r (in_leader l' sd vs).
Proof.
  intros Sv Hf Hroom Hr Ht HE.
  destruct (us_loop _ _ _ _ (sv_up _ _ _ _ Sv) _ _ _ eq_refl) as [_ Hsim].
  destruct (proj1 (leader_sim_of s i l) Hsim) as (_ & Hcs & Hro).
  destruct (Hro _ _ Hf) as (_ & _ & _ & ? & ?).
  destruct (pipelineDecode_progress _ _ _ _ _ _ _ _ Hf HE) as (n & c & R & Hcase).
  destruct Hcase as [[-> ->]|(Hs & Hle & x & Hx & -> & ->)]; [by eapply progress_sim|].
  destruct (accepted_sim s i r l sd vs j f req resp x) as (? & ? & ? & ?); try done.
  by eapply progress_sim.
Qed.

Lemma replied_sim s i r l sd vs j f now req resp step l' :
  server s i r (in_leader l sd vs) -> replState l !! j = Some f -> roomy r 1 ->
  reply_sim s j req resp -> ae_Term req = fr_currentTerm f ->
  (ae_PrevLogEntry req + 1 = fr_nextIndex f)%N ->
  replicate_response now j req (Ok resp) l = (step, l') -> up_sim s i r (in_leader l' sd vs).
Proof.
  intros Sv Hf Hroom Hr Ht Hprev HE. pose proof (server_roomy _ _ _ _ _ Sv Hroom) as Hlt.
  destruct (us_loop _ _ _ _ (sv_up _ _ _ _ Sv) _ _ _ eq_refl) as [_ Hsim].
  destruct (proj1 (leader_sim_of s i l) Hsim) as ((ld & Hl & Hi & _) & Hcs & Hro).
  destruct (Hro _ _ Hf) as (_ & _ & Hft & ? & ?).
  destruct (replicate_response_progress _ _ _ _ _ _ _ _ Hf HE) as (n & c & R & Hcase).
  destruct Hcase as [[-> ->]|(Hle & [(Hs & x & Hx & -> & ->)|(Hs & -> & ->)])]; [by eapply progress_sim|..].
  { destruct (accepted_sim s i r l sd vs j f req resp x) as (? & ? & ? & ?); try done.
    by eapply progress_sim. }
  pose proof Hr as (Hm & HLL & Hhint). specialize (Hhint Hle). rewrite Hs in Hhint.
  destruct Hhint as (H1' & Hh1 & Hh2). rewrite Hft in Ht. rewrite Ht in Hh1, Hh2.
  pose proof (message_bound s i j req ld (sv_inv _ _ _ _ Sv) Hm Ht Hl Hi) as Hb.
  rewrite max_spec, min_spec, u64_add_small, u64_sub_small in R by (unfold in_u64; lia).
  eapply progress_sim; try done; [lia|]. rewrite <- Hprev.
  destruct (decide (ae_PrevLogEntry req <= aer_LastLog resp + 1)%N).
  - replace (N.to_nat _) with (N.to_nat (ae_PrevLogEntry req)) by lia. done.
  - replace (N.to_nat _) with (S (N.to_nat (aer_LastLog resp))) by lia. done.
Qed.

Lemma heartbeat_sim now a s i r ro res r' :
  server s i r ro -> roomy r 1 -> beat_sim s i a -> waits ro = true ->
  processHeartbeat now (cmd_AppendEntries a) r = Done res r' -> reaches i s (keeps_sim i r' ro).
Proof.
  intros Sv Hroom Hb Hw HE. pose proof (server_roomy _ _ _ _ _ Sv Hroom) as Hlt.
  pose proof (safe_processHeartbeat now (cmd_AppendEntries a) r (sv_cached _ _ _ _ Sv)) as Ha.
  unfold safe_at in Ha. rewrite HE in Ha.
  assert (forall s', Proto.others i s s' -> moved i s s' r' -> keeps_sim i r' ro s') as Hk.
  { intros s' Ho Hm. eapply moved_sim; try done; [by intros c ->|]. split.
    - by intros l sd vs ->.
    - by intros (l & sd & vs & ->). }
  unfold processHeartbeat, bind at 1, get_state in HE. destruct (shutdown r).
  { injection HE as <- <-. apply reaches_here. apply Hk; [reflexivity|].
    eapply moved_idle; [apply Sv..|reflexivity]. }
  pose proof (moved_beat now i s r a (sv_cached _ _ _ _ Sv) (sv_disk _ _ _ _ Sv)) as Hm.
  unfold bind in HE. destruct (appendEntries now a r) as [x r1|]; [|done].
  injection HE as <- <-. destruct Hm as (s' & Hs & Ho & Hm); [apply Sv|apply Sv|lia|done|].
  exists s'. split_and!; [done|done|by apply Hk].
Qed.

Lemma restart_sim cf pv s i r (f f' : F) r' :
  disk_sim s i r -> NewRaft cf (addr i) pv (stores_of r) f = Done None (r', f') ->
  getLastSnapshot (raft_state r') = (0, 0)%N -> reaches i s (keeps_sim i r' in_run).
Proof.
  intros Hd HE Hsn. destruct Hd as [D1 D2 D3 D4 D5 D6].
  destruct (NewRaft_lists cf (addr i) pv (stores_of r) f f' (Proto.p_log s i) r' D1 HE Hsn)
    as (Hh & Hp & Hc & Ht & Hv). simpl in Ht, Hv.
  destruct (NewRaft_sound _ _ _ _ _ _ _ HE) as (_ & _ & Hst & _).
  apply (reaches_step _ _ (Proto.set_commit i 0 s)); [apply Proto.p_reset
    |apply Proto.others_set_commit|]. apply reaches_here. injection Hv as Hv1 Hv2. split.
  - split; simpl; rewrite ?Ht, ?Hv1, ?Hv2; try done. intros t c Hc' (V1 & V2 & V3).
    apply D6; [done|]. unfold voted. by rewrite <- Ht, <- Hv1, <- Hv2.
  - apply run_up; simpl; [done| |].
    + by rewrite Proto.insert_case, decide_True.
    + destruct Hst as [->| ->]; done.
Qed.

(** ** Every step of the network *)

Lemma sim_server g s nt i nd ro :
  sim g s nt -> cl_nodes (nt_cluster nt) !! i = Some nd -> nd_role nd = Some ro ->
  server s i (nd_raft nd) ro.
Proof.
  intros S Hi Hro. pose proof (ok_node _ _ _ _ (sm_cluster _ _ _ S) _ _ Hi) as Hnd.
  destruct (ok_up _ _ _ _ _ _ Hnd _ Hro) as [U1 U2 U3 U4 U5].
  destruct (up_sound _ _ _ _ _ _ _ Hnd Hro) as [_ Hv].
  split; [|apply S|done|done|done|done|by eapply sm_disk|by eapply sm_up].
  rewrite <- (sm_dom _ _ _ S). by eapply elem_of_dom_2.
Qed.

Lemma sim_permitted g s nt i ev : sim g s nt -> admissible nt i ev -> permitted s i ev.
Proof.
  intros S. destruct ev; try done. destruct c; try done; simpl.
  - intros Hin. right. by eapply sm_beats.
  - intros Hin. by eapply sm_requests.
Qed.

Lemma sim_candidate g s nt i nd ro c :
  sim g s nt -> cl_nodes (nt_cluster nt) !! i = Some nd -> nd_role nd = Some ro ->
  ro = in_candidate c -> state (raft_state (nd_raft nd)) = Candidate /\
    (cl_prevoteCh c = true -> (currentTerm (raft_state (nd_raft nd)) <= cl_term c)%N).
Proof.
  intros S Hi Hro ->. pose proof (ok_node _ _ _ _ (sm_cluster _ _ _ S) _ _ Hi) as Hnd.
  destruct (up_candidate _ _ _ _ _ _ _ (ok_up _ _ _ _ _ _ Hnd _ Hro) c eq_refl). done.
Qed.

Lemma sim_cluster g s nt nt' :
  sim g s nt -> net_step (F := F) C addr false false nt nt' ->
  exists g', cluster_ok C addr g' (nt_cluster nt') /\ ballots g g' (nt_cluster nt') /\
    dom (cl_nodes (nt_cluster nt')) = dom (cl_nodes (nt_cluster nt)).
Proof.
  intros S Hs. destruct (net_step_cluster _ _ _ _ _ Hs) as [->|Hc].
  - exists g. split_and!; [apply S|by apply ballots_same|done].
  - destruct (step_ok C addr C_valid _ _ _ (sm_cluster _ _ _ S) Hc) as (g' & Hok & _ & Hb).
    exists g'. split_and!; [done|done|by eapply cluster_step_dom].
Qed.

(** What a step sends is backed by the new state of the protocol. *)
Definition mail s' (nt nt' : netw) : Prop :=
  (forall req, req ∈ nt_votes nt' -> req ∈ nt_votes nt \/ request_sim s' req) /\
  (forall j a, (j, a) ∈ nt_msgs nt' -> (j, a) ∈ nt_msgs nt \/ message_sim s' j a) /\
  (forall j a, (j, a) ∈ nt_beats nt' -> (j, a) ∈ nt_beats nt \/ beat_sim s' j a) /\
  (forall j a resp, (j, a, resp) ∈ nt_replies nt' ->
     (j, a, resp) ∈ nt_replies nt \/ reply_sim s' j a resp).

Lemma mail_same s' cl' nt : mail s' nt (on_cluster cl' nt).
Proof. split_and!; simpl; auto. Qed.

(** The server [i] takes a step, and its process becomes [nd']. *)
Lemma sim_one g s nt nt' i nd nd' :
  sim g s nt -> net_step (F := F) C addr false false nt nt' ->
  cl_nodes (nt_cluster nt) !! i = Some nd ->
  cl_nodes (nt_cluster nt') = <[i := nd']> (cl_nodes (nt_cluster nt)) ->
  (forall req, req ∈ nt_votes nt -> req ∈ nt_votes nt') ->
  (forall req asked, nd_campaign nd' = Some (req, asked) ->
     (exists asked', nd_campaign nd = Some (req, asked')) \/ req ∈ nt_votes nt') ->
  reaches i s (fun s' => disk_sim s' i (nd_raft nd') /\
    (forall ro, nd_role nd' = Some ro -> up_sim s' i (nd_raft nd') ro) /\ mail s' nt nt') ->
  exists g' s', steps s s' /\ sim g' s' nt'.
Proof.
  intros S Hs Hi Hn Hv Hown (s' & Hst & Ho & Hd & Hup & M1 & M2 & M3 & M4).
  destruct (sim_cluster _ _ _ _ S Hs) as (g' & Hok & Hb & Hdom). exists g', s'. split; [done|].
  eapply sim_step; [exact S|done|done| |done|done|done|..]; try done.
  - eapply Proto.steps_inv; [apply quorums_meet|apply S|done].
  - intros v nd2 Hne. rewrite Hn, lookup_insert_ne by done. eauto.
  - rewrite Hn, lookup_insert_eq. by intros ? [= <-].
  - intros v nd2 req asked. rewrite Hn. destruct (decide (v = i)) as [->|Hne].
    + rewrite lookup_insert_eq. intros [= <-] Hc. destruct (Hown _ _ Hc) as [[asked' Hc']|]; [|done].
      apply Hv. by eapply sm_own.
    + rewrite lookup_insert_ne by done. intros Hl Hc. apply Hv. by eapply sm_own.
Qed.

(** Nothing is sent. *)
Lemma sim_one_quiet g s nt i nd nd' :
  sim g s nt ->
  net_step (F := F) C addr false false nt (on_cluster (set_node i nd' (nt_cluster nt)) nt) ->
  cl_nodes (nt_cluster nt) !! i = Some nd ->
  nd_campaign nd' = nd_campaign nd \/ nd_campaign nd' = None ->
  reaches i s (fun s' => disk_sim s' i (nd_raft nd') /\
    forall ro, nd_role nd' = Some ro -> up_sim s' i (nd_raft nd') ro) ->
  exists g' s', steps s s' /\
    sim g' s' (on_cluster (set_node i nd' (nt_cluster nt)) nt).
Proof.
  intros S Hs Hi Hc Hr. eapply (sim_one g s nt _ i nd nd'); try done.
  - intros req asked Hq. left. destruct Hc as [Hc|Hc]; rewrite Hc in Hq; [eauto|done].
  - eapply reaches_mono; [|exact Hr]. intros s' [? ?]. split_and!; [done|done|apply mail_same].
Qed.

Lemma up_keeps i r ro s' : keeps_sim i r ro s' -> disk_sim s' i r /\
  forall ro', Some ro = Some ro' -> up_sim s' i r ro'.
Proof. intros [? ?]. split; [done|]. by intros ? [= <-]. Qed.

(** A vote request changes the server that is asked, and the channel of the other. *)
Lemma ask_sim g s nt i ndi j ndj req asked peer ro env ro' rep err lost r' nt' :
  sim g s nt -> net_step (F := F) C addr false false nt nt' ->
  nt' = on_cluster
    (set_node i (answered peer (vote_of req peer rep err lost) ndi)
       (set_node j (with_role ndj r' (Some ro')) (nt_cluster nt))) nt ->
  cl_nodes (nt_cluster nt) !! i = Some ndi -> cl_nodes (nt_cluster nt) !! j = Some ndj ->
  i <> j -> nd_campaign ndi = Some (req, asked) -> nd_role ndj = Some ro ->
  roomy (nd_raft ndj) 1 ->
  main_step env (ev_rpc (cmd_RequestVote req)) ro (nd_raft ndj) =
    Some (Done (ro', out_reply rep err) r') ->
  exists g' s', steps s s' /\ sim g' s' nt'.
Proof.
  intros S Hstep -> Hi Hj Hij Hcp Hro Hroom HE.
  pose proof (sim_server _ _ _ _ _ _ S Hj Hro) as Sv.
  assert (receivable s j (cmd_RequestVote req)) as Hrc.
  { exact (sm_requests _ _ _ S _ (sm_own _ _ _ S _ _ _ _ Hi Hcp)). }
  destruct (rpc_sim _ _ _ _ _ _ _ _ _ Sv Hroom Hrc HE) as (rep' & err' & _ & s' & Hst & Ho & Hk & _).
  destruct (up_keeps _ _ _ _ Hk) as [Hd Hu].
  destruct (sim_cluster _ _ _ _ S Hstep) as (g' & Hok & Hb & Hdom). exists g', s'. split; [done|].
  destruct (mail_same s' (set_node i (answered peer (vote_of req peer rep err lost) ndi)
    (set_node j (with_role ndj r' (Some ro')) (nt_cluster nt))) nt) as (M1 & M2 & M3 & M4).
  eapply (sim_step g g' s s' nt _ j); [exact S|done|done| |done|done|done|..]; try done.
  - eapply Proto.steps_inv; [apply quorums_meet|apply S|done].
  - intros v nd' Hne. simpl. destruct (decide (v = i)) as [->|Hvi].
    + rewrite lookup_insert_eq. intros [= <-]. by exists ndi.
    + rewrite !lookup_insert_ne by done. eauto.
  - simpl. rewrite lookup_insert_ne, lookup_insert_eq by done. by intros ? [= <-].
  - intros v nd' req' asked'. simpl. destruct (decide (v = i)) as [->|Hvi].
    + rewrite lookup_insert_eq. intros [= <-]. simpl. rewrite Hcp. intros [= <- _].
      exact (sm_own _ _ _ S _ _ _ _ Hi Hcp).
    + rewrite lookup_insert_ne by done. destruct (decide (v = j)) as [->|Hvj].
      * rewrite lookup_insert_eq. intros [= <-]. simpl. intros Hc. exact (sm_own _ _ _ S _ _ _ _ Hj Hc).
      * rewrite lookup_insert_ne by done. intros Hl Hc. exact (sm_own _ _ _ S _ _ _ _ Hl Hc).
Qed.

Lemma sim_net_step g s nt nt' :
  sim g s nt -> net_step (F := F) C addr false false nt nt' ->
  exists g' s', steps s s' /\ sim g' s' nt'.
Proof.
  intros S Hstep. pose proof Hstep as Hst. destruct Hst as
    [nt i nd ro env ev ro' out r' Hi Hro Ha Hroom HE HC
    |nt i nd ro env a ro' rep err r' Hi Hro Ha Hroom HE HC
    |nt i nd ro env v rest ro' out r' Hi Hro Hch HE HC
    |nt i ndi j ndj req asked peer ro env ro' rep err lost r' Hi Hj Hij Hcp Hin Hp Hro Hroom HE HC
    |nt i nd req asked peer e Hi Hcp Hin
    |nt i nd ro now a res r' Hi Hro Ha Hfast Hroom HE HC
    |nt i nd l sd vs j f next lastIndex req Hi Hro Hf Hn Hlate Hmax Hlt HE
    |nt i nd l sd vs j f Hi Hro Hf
    |nt i nd l sd vs j f now req resp step l' Hi Hro Hf Hin Ht Hprev Hroom HE
    |nt i nd l sd vs j f now req resp b l' Hi Hro Hf Hin Ht Hroom HE
    |nt i nd l l' sd vs Hi Hro Hpr
    |nt i nd ro env ev r' Hi Hro Ha Hroom HE
    |nt i nd Hi
    |nt i nd cf pv f f' r' Hi Hro Hid HE HC Hsn].
  all: try pose proof (sim_server _ _ _ _ _ _ S Hi Hro) as Sv.
  - eapply (sim_one g s nt _ i nd (after_event nd ro' out r')); try done.
    + by rewrite campaigned_cluster.
    + destruct out; simpl; auto. intros req ?. by right.
    + destruct out; simpl; try eauto. intros ? ? [= <- _]. right. left.
    + eapply reaches_mono; [|eapply event_sim; [exact Sv|by eapply sim_permitted|done
        |intros c; by eapply sim_candidate|exact HE]].
      intros s' [Hk Ho]. destruct (up_keeps _ _ _ _ Hk) as [Hd Hu].
      replace (nd_raft (after_event nd ro' out r')) with r' by (by destruct out).
      replace (nd_role (after_event nd ro' out r')) with (Some ro') by (by destruct out).
      split_and!; [done|done|]. destruct out; try (split_and!; simpl; auto).
      intros req [->|?]%elem_of_cons; [|by left]. right. by apply Ho.
  - eapply (sim_one g s nt _ i nd (with_role nd r' (Some ro'))); try done.
    + by rewrite replied_cluster.
    + by destruct rep as [[]|], err.
    + simpl. eauto.
    + destruct (rpc_sim _ (cmd_AppendEntries a) _ _ _ _ _ _ _ Sv Hroom
        (or_introl (sm_msgs _ _ _ S _ _ Ha)) HE)
        as (rep' & err' & [= <- <-] & Hr).
      eapply reaches_mono; [|exact Hr]. intros s' [Hk Hans].
      destruct (up_keeps _ _ _ _ Hk) as [Hd Hu]. split_and!; [done|done|].
      destruct rep as [[]|], err; try (by split_and!; simpl; auto).
      split_and!; simpl; auto. intros j b resp' [[= -> -> ->]|?]%elem_of_cons; [|by left].
      right. apply Hans. by eapply sm_msgs.
  - destruct ro as [| |c|l sd vs]; try done.
    eapply (sim_one g s nt _ i nd (mkNode r' (Some ro') (nd_campaign nd) rest)); try done.
    + simpl. eauto.
    + eapply reaches_mono; [|eapply vote_sim; [exact Sv|by eapply sim_candidate|exact HE|]].
      * intros s' Hk. destruct (up_keeps _ _ _ _ Hk) as [Hd Hu].
        split_and!; [done|done|apply mail_same].
      * intros Hl. pose proof (ok_node _ _ _ _ (sm_cluster _ _ _ S) _ _ Hi) as Hnd.
        destruct (vote_ok C addr C_valid _ _ _ _ _ _ _ _ _ _ _ Hnd Hro Hch HE HC) as [HQ _].
        destruct (HQ Hl) as (Q & HQ1 & HQ2). exists Q. split; [done|]. intros v' Hv'.
        eapply sm_votes; [exact S|apply Sv|]. by apply HQ2.
  - by eapply ask_sim.
  - eapply (sim_one g s nt _ i nd); [exact S|exact Hstep|exact Hi|done|done|..].
    + simpl. rewrite Hcp. intros ? ? [= <- _]. eauto.
    + apply reaches_here. split_and!; [exact (sm_disk _ _ _ S _ _ Hi)| |apply mail_same].
      intros ro Hro. exact (sm_up _ _ _ S _ _ _ Hi Hro).
  - eapply (sim_one_quiet g s nt i nd); try done; [by left|].
    eapply reaches_mono; [|eapply heartbeat_sim; [exact Sv|done|by eapply sm_beats| |exact HE]];
      [intros s'; apply up_keeps|by destruct Hfast].
  - destruct Hlate as [|Hlate]; [done|].
    destruct (send_sim _ _ _ _ _ _ _ _ _ _ _ Sv Hf Hn Hlate Hmax Hlt HE) as [Hs Hm].
    eapply (sim_one g s nt _ i nd nd); try done; [by rewrite insert_id|by eauto|].
    eapply reaches_step; [exact Hs|apply Proto.others_send|]. apply reaches_here.
    destruct (send_keeps s (abstract (ID (fr_peer f)) req) i (nd_raft nd) (in_leader l sd vs))
      as [Hd Hu]; [split; apply Sv|]. split_and!; [done|by rewrite Hro; intros ? [= <-]|].
    split_and!; simpl; auto. intros j' a [[= -> ->]|?]%elem_of_cons; [by right|by left].
  - eapply (sim_one g s nt _ i nd nd); try done; [by rewrite insert_id|by eauto|].
    apply reaches_here. split_and!; [apply Sv|rewrite Hro; intros ? [= <-]; apply Sv|].
    split_and!; simpl; auto. intros j' a [[= -> ->]|?]%elem_of_cons; [|by left].
    right. by eapply beat_made.
  - eapply (sim_one_quiet g s nt i nd); try done; [by left|]. apply reaches_here.
    apply up_keeps. split; [apply Sv|]. eapply replied_sim; try done. by eapply sm_replies.
  - eapply (sim_one_quiet g s nt i nd); try done; [by left|]. apply reaches_here.
    apply up_keeps. split; [apply Sv|]. eapply pipelined_sim; try done. by eapply sm_replies.
  - eapply (sim_one_quiet g s nt i nd); try done; [by left|]. apply reaches_here.
    apply up_keeps. split; [apply Sv|]. destruct (sv_up _ _ _ _ Sv) as [U1 U2 U3 U4 U5].
    destruct (U5 _ _ _ eq_refl) as [? ?]. apply leading_up; try done. by rewrite Hpr.
  - eapply (sim_one_quiet g s nt i nd); try done; [by left|].
    eapply reaches_mono; [|eapply panic_sim; [exact Sv| |done|exact HE]].
    + intros s' ?. split; [done|by intros ? [=]].
    + destruct Ha as [Ha|(a & -> & Ha)]; [by eapply sim_permitted|]. left. by eapply sm_msgs.
  - eapply (sim_one_quiet g s nt i nd); try done; [by left|]. apply reaches_here.
    split; [exact (sm_disk _ _ _ S _ _ Hi)|by intros ? [=]].
  - eapply (sim_one_quiet g s nt i nd); try done; [by right|].
    eapply reaches_mono; [|eapply restart_sim; [by eapply sm_disk|exact HE|done]].
    intros s'. apply up_keeps.
Qed.

(** ** Executions *)

Lemma sim_execution g s nt nt' :
  sim g s nt -> rtc (net_step (F := F) C addr false false) nt nt' ->
  exists g' s', steps s s' /\ sim g' s' nt'.
Proof.
  intros S Hrtc. revert g s S. induction Hrtc as [nt|nt1 nt2 nt3 Hs _ IH]; intros g s S.
  - exists g, s. split; [apply rtc_refl|done].
  - destruct (sim_net_step _ _ _ _ S Hs) as (g1 & s1 & H1' & S1).
    destruct (IH _ _ S1) as (g2 & s2 & H2' & S2). exists g2, s2. split; [by etrans|done].
Qed.

(** The entry of a server at an index. *)
Lemma sim_GetLog g s nt i nd (k : N) e :
  sim g s nt -> cl_nodes (nt_cluster nt) !! i = Some nd ->
  GetLog (logs (nd_raft nd)) k = Ok e <->
  (0 < k)%N /\ Proto.p_log s i !! pred (N.to_nat k) = Some e.
Proof. intros S Hi. apply holds_GetLog. exact (ds_holds _ _ _ (sm_disk _ _ _ S _ _ Hi)). Qed.

Lemma sim_committed g s nt i nd (k : N) :
  sim g s nt -> cl_nodes (nt_cluster nt) !! i = Some nd -> is_Some (nd_role nd) ->
  (1 <= k <= commitIndex (raft_state (nd_raft nd)))%N ->
  pred (N.to_nat k) < Proto.p_commit s i /\
  exists e, Proto.p_log s i !! pred (N.to_nat k) = Some e.
Proof.
  intros S Hi [ro Hro] Hk. pose proof (us_commit _ _ _ _ (sm_up _ _ _ S _ _ _ Hi Hro)) as Hc.
  destruct (Proto.inv_commit _ _ _ _ (sm_inv _ _ _ S) i) as [Hle _].
  split; [lia|]. apply lookup_lt_is_Some_2. lia.
Qed.
End Simulation.
