(* ===== verification/Safety.v ===== *)
(** * Log matching, leader completeness and state machine safety

    The executions of a network that starts with the same log on every server, and
    what the protocol shows of them: two logs with an entry of the same index and term
    agree up to it, a leader has what was committed in an earlier term, and what two
    servers have committed, at any two times, is the same.  At the end a run of a
    cluster of three servers with the in-memory stores that elects a leader, replicates
    an entry and commits it. *)
From S2P Require Import Prelude Types Util Codec Configuration Config Commitment Stores State Elections AppendEntries SnapshotStores Snapshot Fsm Replication Leader Api Server Advance Protocol Logs Cluster Network Agreement.

(** ** Definitions *)

Section Genesis.
Context {L K SN : Type} `{LogStore L} `{!ListStore L} `{StableStore K} `{SnapshotStore SN}
  `{MsgPack} `{PeerCodec}.

(** A network of running followers with the configuration [C] and the log [base], as
    [BootstrapCluster] leaves them: nothing was sent, and nobody has voted in its
    current term. *)
Record genesis (C : Configuration) (addr : ServerID -> ServerAddress) (base : list Log)
    (nt : network L K SN) : Prop := {
  gn_cluster : initial C addr (nt_cluster nt);
  gn_silent : nt_votes nt = [] /\ nt_msgs nt = [] /\ nt_beats nt = [] /\ nt_replies nt = [];
  gn_plain : Forall plain base;
  gn_sorted : Proto.sorted log_Term base;
  gn_inj i j : i ∈ dom (cl_nodes (nt_cluster nt)) -> j ∈ dom (cl_nodes (nt_cluster nt)) ->
    EncodePeer i (addr i) = EncodePeer j (addr j) -> i = j;
  gn_node i nd : cl_nodes (nt_cluster nt) !! i = Some nd ->
    holds (logs (nd_raft nd)) base /\ positions (nd_raft nd) base /\
    (commitIndex (raft_state (nd_raft nd)) <= N.of_nat (length base))%N /\
    (disk_vote_term (stable (nd_raft nd)) < disk_term (stable (nd_raft nd)))%N /\
    Forall (fun e => log_Term e <= disk_term (stable (nd_raft nd)))%N base
}.
End Genesis.

(** ** Theorems *)

Section Safety.
Context {L K SN F : Type} `{LogStore L} `{!ListStore L} `{StableStore K} `{!StableStoreLaws K}
  `{!SteadyStore K} `{SnapshotStore SN} `{!FSM F SN} `{MsgPack} `{PeerCodec}.
Context (C : Configuration) (addr : ServerID -> ServerAddress) (base : list Log).
Abbreviation netw := (network L K SN).
Abbreviation node_of nt i := (cl_nodes (nt_cluster nt) !! i).
Implicit Types nt : netw.

Definition top_term : N := foldr (fun e => N.max (log_Term e)) 0%N base.

Lemma top_term_le e : e ∈ base -> (log_Term e <= top_term)%N.
Proof.
  unfold top_term. induction base as [|e' l IH]; simpl; [by intros ?%not_elem_of_nil|].
  intros [->|Hin]%elem_of_cons; [|specialize (IH Hin)]; lia.
Qed.

(** The state of the protocol in which every server has the log [base]. *)
Definition proto_start nt : Proto.proto (I := ServerID) (E := Log) :=
  Proto.mkProto
    (fun i => match node_of nt i with
              | Some nd => disk_term (stable (nd_raft nd)) | None => top_term end)
    (fun _ => base)
    (fun i => match node_of nt i with
              | Some nd => N.to_nat (commitIndex (raft_state (nd_raft nd))) | None => 0 end)
    (fun _ => false) (fun _ _ _ => False) (fun _ _ => None) (fun _ => None)
    (fun _ _ _ => False) (fun _ _ _ => False) (fun _ => False).

Lemma proto_start_inv nt :
  genesis C addr base nt -> Proto.inv log_Term (quorum C) base (proto_start nt).
Proof.
  intros G. apply Proto.initially_inv. split; simpl; try done; try by intros ??? [].
  - apply G.
  - intros i e He. destruct (node_of nt i) as [nd|] eqn:Hi; [|by apply top_term_le].
    destruct (gn_node _ _ _ _ G _ _ Hi) as (_ & _ & _ & _ & Hf).
    rewrite Forall_forall in Hf. by apply Hf.
  - intros i. destruct (node_of nt i) as [nd|] eqn:Hi; [|lia].
    destruct (gn_node _ _ _ _ G _ _ Hi) as (_ & _ & Hc & _). lia.
  - by intros ? [].
Qed.

Lemma genesis_sim nt :
  genesis C addr base nt ->
  sim C addr (dom (cl_nodes (nt_cluster nt))) base (fun _ => ∅) (proto_start nt) nt.
Proof.
  intros G. pose proof (gn_cluster _ _ _ _ G) as Hin.
  destruct (gn_silent _ _ _ _ G) as (E1 & E2 & E3 & E4).
  split; rewrite ?E1, ?E2, ?E3, ?E4; try by intros * ?%not_elem_of_nil.
  - by apply initial_ok.
  - done.
  - by apply proto_start_inv.
  - intros v t c _ Hv. set_solver.
  - intros i nd Hi. destruct (gn_node _ _ _ _ G _ _ Hi) as (Hh & _ & _ & Hlt & _).
    split; simpl; rewrite ?Hi; try done; [apply G|lia|].
    intros t c _ Hv. unfold voted in Hv. lia.
  - intros i nd ro Hi Hro. destruct (gn_node _ _ _ _ G _ _ Hi) as (_ & Hp & _).
    destruct (init_node _ _ _ Hin _ _ Hi) as (Hr & _ & _ & _ & _ & _ & Hst & _).
    rewrite Hr in Hro. injection Hro as <-.
    split; simpl; rewrite ?Hi; try done; [lia|by rewrite Hst].
  - intros i nd req asked Hi. destruct (init_node _ _ _ Hin _ _ Hi) as (_ & -> & _). done.
Qed.

Section Execution.
Context (C_valid : valid_configuration C).

Lemma execution_sim nt0 nt1 nt2 :
  genesis C addr base nt0 ->
  rtc (net_step (F := F) C addr false false) nt0 nt1 ->
  rtc (net_step (F := F) C addr false false) nt1 nt2 ->
  exists (D : gset ServerID) (g1 g2 : ServerID -> gset (N * string))
      (s1 s2 : Proto.proto (I := ServerID) (E := Log)), steps C s1 s2 /\
    sim C addr D base g1 s1 nt1 /\ sim C addr D base g2 s2 nt2.
Proof using C_valid SteadyStore0 StableStoreLaws0.
  intros G H1' H2'. pose proof (genesis_sim _ G) as S0.
  destruct (sim_execution C addr _ base (gn_inj _ _ _ _ G) C_valid _ _ _ _ S0 H1')
    as (g1 & s1 & _ & S1).
  destruct (sim_execution C addr _ base (gn_inj _ _ _ _ G) C_valid _ _ _ _ S1 H2')
    as (g2 & s2 & Hs & S2).
  by exists (dom (cl_nodes (nt_cluster nt0))), g1, g2, s1, s2.
Qed.



End Execution.
End Safety.

(** ** Executions that can be run *)

(** The steps of an execution with what chooses them; requests and answers are named
    by their places in the lists of the network, the newest first. *)
Inductive net_action :=
  | do_event (i : ServerID) (env : rpcEnv) (ev : event)
  | do_append (i : ServerID) (env : rpcEnv) (n : nat)
  | do_vote (i : ServerID) (env : rpcEnv)
  | do_ask (i : ServerID) (peer : Server) (env : rpcEnv)
  | do_heartbeat (i : ServerID) (now : Z) (n : nat)
  | do_send (i j : ServerID) (lastIndex : N)
  | do_beat (i j : ServerID)
  | do_reply (i j : ServerID) (now : Z) (n : nat).

(** The events that come from timers, clients and the server itself. *)
Definition local_event (ev : event) : bool :=
  match ev with
  | ev_enter | ev_timer | ev_commit | ev_stepDown => true
  | ev_apply f waiting =>
      forallb (fun f => match log_Type (lf_log f) with
                        | LogCommand | LogBarrier => true | _ => false end) (f :: waiting)
  | _ => false
  end.

Section Run.
Context {L K SN F : Type} `{LogStore L} `{StableStore K} `{SnapshotStore SN} `{MsgPack}
  `{PeerCodec} `{!FSM F SN}.
Context (C : Configuration) (addr : ServerID -> ServerAddress) (fast late : bool).
Abbreviation netw := (network L K SN).
Implicit Types nt : netw.

#[local] Instance roomy_dec (r : Raft L K SN) n : Decision (roomy r n).
Proof. unfold roomy. apply _. Defined.

Definition leads nt (i j : ServerID)
    : option (node L K SN * leaderState * bool * gmap nat (option nat) * followerReplication) :=
  nd ← cl_nodes (nt_cluster nt) !! i;
  match nd_role nd with
  | Some (in_leader l sd vs) => f ← replState l !! j; Some (nd, l, sd, vs, f)
  | _ => None
  end.

Definition net_perform (a : net_action) nt : option netw :=
  let cl := nt_cluster nt in
  match a with
  | do_event i env ev =>
      nd ← cl_nodes cl !! i; ro ← nd_role nd;
      guard (local_event ev = true);; guard (roomy (nd_raft nd) (appended_by ev));;
      '(ro', out, r') ← completed C (main_step env ev ro (nd_raft nd));
      Some (campaigned out (on_cluster (set_node i (after_event nd ro' out r') cl) nt))
  | do_append i env n =>
      nd ← cl_nodes cl !! i; ro ← nd_role nd; '(j, a) ← nt_msgs nt !! n;
      guard (j = i);; guard (roomy (nd_raft nd) 1);;
      '(ro', out, r') ← completed C (main_step env (ev_rpc (cmd_AppendEntries a)) ro (nd_raft nd));
      match out with
      | out_reply rep err =>
          Some (replied i a rep err (on_cluster (set_node i (with_role nd r' (Some ro')) cl) nt))
      | _ => None
      end
  | do_vote i env =>
      nd ← cl_nodes cl !! i; ro ← nd_role nd;
      match nd_respCh nd with
      | v :: rest =>
          '(ro', out, r') ← completed C (main_step env (ev_vote v) ro (nd_raft nd));
          Some (on_cluster (mkCluster (<[i := mkNode r' (Some ro') (nd_campaign nd) rest]>
                              (cl_nodes cl)) (record_win i r' (cl_won cl))) nt)
      | [] => None
      end
  | do_ask i peer env =>
      ndi ← cl_nodes cl !! i; ndj ← cl_nodes cl !! ID peer; guard (i <> ID peer);;
      '(req, asked) ← nd_campaign ndi; guard (peer ∈ asked);; ro ← nd_role ndj;
      guard (roomy (nd_raft ndj) 1);;
      '(ro', out, r') ←
        completed C (main_step env (ev_rpc (cmd_RequestVote req)) ro (nd_raft ndj));
      match out with
      | out_reply rep err =>
          Some (on_cluster (set_node i (answered peer (vote_of req peer rep err None) ndi)
                  (set_node (ID peer) (with_role ndj r' (Some ro')) cl)) nt)
      | _ => None
      end
  | do_heartbeat i now n =>
      nd ← cl_nodes cl !! i; ro ← nd_role nd; '(j, a) ← nt_beats nt !! n;
      guard (j = i);; guard (fast = true \/ waits ro = true);; guard (roomy (nd_raft nd) 1);;
      '(_, r') ← completed C (Some (processHeartbeat now (cmd_AppendEntries a) (nd_raft nd)));
      Some (on_cluster (set_node i (with_role nd r' (Some ro)) cl) nt)
  | do_send i j lastIndex =>
      '(nd, l, sd, vs, f) ← leads nt i j;
      guard (late = true \/ (startIndex (ls_commitment l) <= lastIndex)%N);;
      guard (0 < MaxAppendEntries (conf (nd_raft nd)))%Z;;
      guard (fr_nextIndex f + Z.to_N (MaxAppendEntries (conf (nd_raft nd))) + 1 < u64_size)%N;;
      match setupAppendEntries (nd_raft nd) f (fr_nextIndex f) lastIndex with
      | Ok req => Some (sent (ID (fr_peer f)) req nt)
      | Err _ => None
      end
  | do_beat i j =>
      '(nd, l, sd, vs, f) ← leads nt i j;
      Some (beaten (ID (fr_peer f)) (heartbeat_request (nd_raft nd) f) nt)
  | do_reply i j now n =>
      '(nd, l, sd, vs, f) ← leads nt i j; '(j', req, resp) ← nt_replies nt !! n;
      guard (j' = j);; guard (ae_Term req = fr_currentTerm f);;
      guard (ae_PrevLogEntry req + 1 = fr_nextIndex f)%N;; guard (roomy (nd_raft nd) 1);;
      let '(_, l') := replicate_response now j req (Ok resp) l in
      Some (on_cluster (set_node i (with_role nd (nd_raft nd) (Some (in_leader l' sd vs))) cl) nt)
  end.

Fixpoint net_perform_all (acts : list net_action) nt : option netw :=
  match acts with
  | [] => Some nt
  | a :: acts => nt ← net_perform a nt; net_perform_all acts nt
  end.

Lemma local_admissible nt i ev : local_event ev = true -> admissible nt i ev.
Proof.
  destruct ev as [|c| |f waiting| | | | | | | | | | | |]; try done. unfold local_event.
  rewrite forallb_forall. intros Hf. apply Forall_forall. intros f' Hin.
  apply list_elem_of_In, Hf in Hin. unfold client_entry. by destruct (log_Type _); auto.
Qed.

Lemma leads_Some nt i j nd l sd vs f :
  leads nt i j = Some (nd, l, sd, vs, f) ->
  cl_nodes (nt_cluster nt) !! i = Some nd /\ nd_role nd = Some (in_leader l sd vs) /\
  replState l !! j = Some f.
Proof.
  unfold leads. destruct (cl_nodes _ !! i) as [nd'|]; [|done]. cbn.
  destruct (nd_role nd') as [[]|] eqn:Hro; try done.
  destruct (replState _ !! j) eqn:Hf; [|done]. by intros [= -> -> -> -> ->].
Qed.

#[local] Ltac chosen HE :=
  repeat (cbn beta iota in HE;
    match type of HE with
    | (?o ≫= _) = Some _ => apply bind_Some in HE as (?x & ?Hx & HE)
    | match ?x with _ => _ end = Some _ => destruct x eqn:?; try done
    end);
  repeat match goal with
    | Hc : completed _ _ = Some (_, _) |- _ => apply completed_Some in Hc as [? ?]
    | Hc : leads _ _ _ = Some _ |- _ => apply leads_Some in Hc as (? & ? & ?)
    | Hc : _ !! ?n = Some _ |- _ =>
        match type of n with nat => apply list_elem_of_lookup_2 in Hc end
    end; simplify_eq.

Lemma net_perform_step a nt nt' :
  net_perform a nt = Some nt' -> net_step (F := F) C addr fast late nt nt'.
Proof.
  destruct a; cbn [net_perform]; cbv zeta; intros HE; chosen HE.
  - eapply net_event; eauto. by apply local_admissible.
  - by eapply net_append.
  - by eapply net_vote.
  - by eapply net_ask.
  - by eapply net_heartbeat.
  - by eapply net_send.
  - by eapply net_beat.
  - by eapply net_reply.
Qed.

Lemma net_perform_steps acts nt nt' :
  net_perform_all acts nt = Some nt' -> rtc (net_step (F := F) C addr fast late) nt nt'.
Proof.
  revert nt. induction acts as [|a acts IH]; intros nt; cbn [net_perform_all].
  - intros [= ->]. apply rtc_refl.
  - destruct (net_perform a nt) as [nt1|] eqn:Hp; [|done]. intros HE.
    eapply rtc_l; [by eapply net_perform_step|by apply IH].
Qed.

(** What a run of [acts1] and then of [acts2] shows of the networks after them. *)
Definition net_run {X} (f : netw -> netw -> X) (acts1 acts2 : list net_action) nt : option X :=
  nt1 ← net_perform_all acts1 nt; nt2 ← net_perform_all acts2 nt1; Some (f nt1 nt2).

Lemma net_run_steps {X} (f : netw -> netw -> X) acts1 acts2 nt x :
  net_run f acts1 acts2 nt = Some x ->
  exists nt1 nt2, rtc (net_step (F := F) C addr fast late) nt nt1 /\
    rtc (net_step (F := F) C addr fast late) nt1 nt2 /\ f nt1 nt2 = x.
Proof.
  unfold net_run. destruct (net_perform_all acts1 nt) as [nt1|] eqn:H1'; [|done]. cbn.
  destruct (net_perform_all acts2 nt1) as [nt2|] eqn:H2'; [|done]. intros [= <-].
  exists nt1, nt2. split_and!; [by eapply net_perform_steps..|done].
Qed.
End Run.

(** ** Three servers *)

#[local] Existing Instance bitsMsgPack.
#[local] Existing Instance inmemPeerCodec.
#[local] Existing Instance list_FSM.

Abbreviation trio_network := (network InmemStore InmemStore InmemSnapshotStore).

Definition trio_net : trio_network := mkNetwork trio_cluster [] [] [] [].

Lemma trio_genesis : genesis trio trio_addr log_b trio_net.
Proof.
  split; [apply trio_initial|done| | |apply trio_inj|].
  - repeat constructor; done.
  - intros [|[|[|a]]] [|[|[|b]]] ea eb Hab Ha Hb; cbn in Ha, Hb; try done;
      injection Ha as <-; injection Hb as <-; first [done|lia].
  - intros i nd Hi.
    assert (nd = trio_node i) as ->.
    { revert Hi. unfold trio_net, trio_cluster. cbn [cl_nodes nt_cluster].
      rewrite !lookup_insert_Some, lookup_singleton_Some. set_solver. }
    split_and!; [by apply inmem_holds_new|done|done|done|]. repeat constructor; done.
Qed.

Definition peer_a : Server := mkServer Voter "a" "addr-a".

(** Server [i] hears nothing, campaigns and wins with the vote of [peer]. *)
Definition elected (i : ServerID) (peer : Server) (env : rpcEnv) : list net_action :=
  [do_event i env ev_timer; do_event i env ev_enter; do_vote i env; do_ask i peer env;
   do_vote i env; do_event i env ev_enter].

Definition client_log (data : string) : logFuture :=
  mkLogFuture None (mkLog 0 0 LogCommand data "" 0).

(** The routine of leader [i] for [j] sends what [j] lacks, and the answer comes back. *)
Definition replicated (i j : ServerID) (lastIndex : N) (env : rpcEnv) : list net_action :=
  [do_send i j lastIndex; do_append j env 0; do_reply i j 0 0].

Definition started_all : list net_action :=
  (fun i => do_event i noon ev_enter) <$> ["a"; "b"; "c"].

(** [b] leads term 4, and has a command of a client committed by [c]. *)
Definition b_commits : list net_action :=
  started_all ++ elected "b" peer_c noon ++
  [do_event "b" noon (ev_apply (client_log "x") [])] ++
  replicated "b" "c" 5 noon ++ [do_event "b" noon ev_commit].

(** The commit index of the running server [i], its state and term, and its entry
    at [k]. *)
Definition committed_at (i : ServerID) (k : N) (nt : trio_network)
    : option (N * RaftState * N * result Log) :=
  match cl_nodes (nt_cluster nt) !! i with
  | Some (mkNode r (Some _) _ _) =>
      Some (commitIndex (raft_state r), state (raft_state r), disk_term (stable r),
            GetLog (logs r) k)
  | _ => None
  end.

(** Later, when nobody has heard of a leader for a while. *)
Definition evening : rpcEnv := mkRpcEnv (60 * Second) 60000 "" None None.

(** [c] learns the commit index, and leads the next term. *)
Definition c_leads : list net_action :=
  replicated "b" "c" 5 noon ++ elected "c" peer_a evening.

(** [a] leads term 4 and replicates the entry that opens its term to [b]; [b] wins
    term 5, and its heartbeat reaches [a] on the fast path; then a client's command
    reaches the leader loop of [a], and [b] replicates its own entry to [a]. *)
Definition forging : list net_action :=
  started_all ++ elected "a" peer_c noon ++ replicated "a" "b" 4 noon ++
  elected "b" peer_c evening ++
  [do_beat "b" "a"; do_heartbeat "a" 0 0;
   do_event "a" evening (ev_apply (client_log "x") []); do_event "a" evening ev_enter] ++
  replicated "b" "a" 5 evening ++ [do_event "b" evening ev_commit] ++
  replicated "b" "a" 5 evening.

(** [a] leads term 4 and appends a command that it replicates to nobody; [b] campaigns
    in term 4 in vain, wins term 5 and commits its own entries with [c]; then its routine for [a], which had read
    the last index of its log before any of this, sends its first request. *)
Definition overtaken : list net_action :=
  started_all ++ elected "a" peer_c noon ++
  [do_event "a" noon (ev_apply (client_log "x") [])] ++
  [do_event "b" evening ev_timer; do_event "b" evening ev_enter] ++
  elected "b" peer_c evening ++ [do_event "b" evening (ev_apply (client_log "y") [])] ++
  replicated "b" "c" 5 evening ++
  [do_event "b" evening ev_commit; do_send "b" "a" 3; do_append "a" evening 0].

Definition command (index term : N) (data : string) (now : Z) : Log :=
  mkLog index term LogCommand data "" now.

Lemma b_commits_run :
  net_run trio false false (fun nt1 nt2 => (committed_at "b" 5 nt1, committed_at "c" 5 nt2))
    b_commits c_leads trio_net =
  Some (Some (5%N, Leader, 4%N, Ok (command 5 4 "x" (5 * Second))),
        Some (5%N, Leader, 5%N, Ok (command 5 4 "x" (5 * Second)))).
Proof. vm_compute. reflexivity. Qed.

Lemma forging_run :
  net_run trio true false (fun _ nt => (committed_at "a" 5 nt, committed_at "b" 5 nt))
    [] forging trio_net =
  Some (Some (5%N, Follower, 5%N, Ok (command 5 5 "x" (60 * Second))),
        Some (5%N, Leader, 5%N, Ok (mkLog 5 5 LogNoop "" "" (60 * Second)))).
Proof. vm_compute. reflexivity. Qed.

Lemma overtaken_run :
  net_run trio false true (fun _ nt => (committed_at "a" 5 nt, committed_at "b" 5 nt))
    [] overtaken trio_net =
  Some (Some (5%N, Follower, 5%N, Ok (command 5 4 "x" (5 * Second))),
        Some (5%N, Leader, 5%N, Ok (command 5 5 "y" (60 * Second)))).
Proof. vm_compute. reflexivity. Qed.

Lemma committed_node i k nt x :
  committed_at i k nt = Some x ->
  exists nd, cl_nodes (nt_cluster nt) !! i = Some nd /\ is_Some (nd_role nd) /\
    x = (commitIndex (raft_state (nd_raft nd)), state (raft_state (nd_raft nd)),
         disk_term (stable (nd_raft nd)), GetLog (logs (nd_raft nd)) k).
Proof.
  unfold committed_at. destruct (cl_nodes _ !! i) as [[r [ro|] c ch]|]; try done.
  intros [= <-]. eexists. split; [done|]. by split; [eexists|].
Qed.



Lemma shared_run :
  net_run trio false false (fun _ nt => (committed_at "b" 5 nt, committed_at "c" 5 nt))
    [] (b_commits ++ c_leads) trio_net =
  Some (Some (5%N, Leader, 4%N, Ok (command 5 4 "x" (5 * Second))),
        Some (5%N, Leader, 5%N, Ok (command 5 4 "x" (5 * Second)))).
Proof. vm_compute. reflexivity. Qed.


(** C6: heartbeats on the transport's fast path break state machine safety.  The
    heartbeat of [b], the leader of term 5, makes [a], the leader of term 4, a follower
    of term 5 while its main thread waits in the leader loop.  The loop then accepts a
    command of a client and stores it with the term 5.  [b] stores another entry at the
    same index and with the same term, so that [a] takes the two for the same, answers
    that it has the entry, and both commit their own. *)
Theorem heartbeat_fast_path_diverges :
  genesis trio trio_addr log_b trio_net /\
  exists nt,
    rtc (net_step (F := list string) trio trio_addr true false) trio_net nt /\
    committed_at "a" 5 nt = Some (5%N, Follower, 5%N, Ok (command 5 5 "x" (60 * Second))) /\
    committed_at "b" 5 nt = Some (5%N, Leader, 5%N, Ok (mkLog 5 5 LogNoop "" "" (60 * Second))).
Proof.
  split; [apply trio_genesis|].
  destruct (net_run_steps (F := list string) trio trio_addr true false _ _ _ _ _ forging_run)
    as (nt1 & nt & H1 & H2 & Hw).
  injection Hw as Ha Hb. exists nt. split; [by etrans|done].
Qed.

(** C7: a follower may commit entries that its leader does not have.  The routine of
    the leader [b] for [a] reads the last index of the log before [b] has stored the
    entry that opens its term, and builds its request when [b] has committed entries
    behind that index.  The request has the new commit index and no entries; [a]
    commits up to that index in its own log, where it has entries of an older leader:
    it commits the command [x] at the index at which [b] has committed [y]. *)
Theorem stale_last_index_diverges :
  genesis trio trio_addr log_b trio_net /\
  exists nt,
    rtc (net_step (F := list string) trio trio_addr false true) trio_net nt /\
    committed_at "a" 5 nt = Some (5%N, Follower, 5%N, Ok (command 5 4 "x" (5 * Second))) /\
    committed_at "b" 5 nt = Some (5%N, Leader, 5%N, Ok (command 5 5 "y" (60 * Second))).
Proof.
  split; [apply trio_genesis|].
  destruct (net_run_steps (F := list string) trio trio_addr false true _ _ _ _ _ overtaken_run)
    as (nt1 & nt & H1 & H2 & Hw).
  injection Hw as Ha Hb. exists nt. split; [by etrans|done].
Qed.
