(* ===== verification/CatchUp.v ===== *)
(** * Catching up a follower

    [replicateTo] against a server that handles the requests with [appendEntries]: the
    loop ends after a bounded number of rounds, and the follower then has the leader's
    log up to the index that was asked for. *)
From S2P Require Import Prelude Types Util Codec Configuration Config Commitment Stores State Elections AppendEntries SnapshotStores Snapshot Fsm Replication Leader Api Server Advance Protocol Logs.

(** ** The handler of a follower returns *)

(** Entries that [appendEntries] and [processLogs] do not panic on. *)
Definition tame `{MsgPack} (e : Log) : Prop :=
  match log_Type e with
  | LogCommand | LogNoop | LogBarrier => True
  | LogConfiguration => exists c, DecodeConfiguration (log_Data e) = Ok c
  | _ => False
  end.

Lemma tame_plain `{MsgPack} e : tame e -> plain e.
Proof. unfold tame, plain. destruct (log_Type e); done. Qed.

Section Returns.
Context {L K SN : Type} `{LogStore L} `{!ListStore L} `{StableStore K} `{!StableStoreLaws K}
  `{!SteadyStore K} `{SnapshotStore SN} `{MsgPack} `{PeerCodec}.
Abbreviation raft := (Raft L K SN).
Implicit Types r : raft.

Definition returns_at {A} (m : M raft A) r : Prop := exists a r', m r = Done a r'.

Lemma respond_all_returns fs err r : returns_at (respond_all fs err) r.
Proof.
  revert r. induction fs as [|f fs IH]; intros r; [by do 2 eexists|].
  cbn [respond_all]. unfold returns_at, bind. unfold respond at 1, modify. apply IH.
Qed.

Lemma applyBatch_returns b r : returns_at (applyBatch b) r.
Proof.
  unfold returns_at, applyBatch. destruct (shutdown r); [apply respond_all_returns|eauto].
Qed.

Lemma tame_prepared r e : tame e -> prepareLog r e None <> None.
Proof.
  unfold tame, prepareLog. destruct (log_Type e); try done. by case_decide.
Qed.

Lemma processLogs_loop_returns fuel max idx b r :
  (idx + N.of_nat fuel < u64_size)%N ->
  (forall i, (idx <= i < idx + N.of_nat fuel)%N ->
     exists e, GetLog (logs r) i = Ok e /\ tame e) ->
  returns_at (processLogs_loop fuel max idx ∅ b) r.
Proof.
  revert idx b r. induction fuel as [|fuel IH]; intros idx b r Hlt Hg; [by do 2 eexists|].
  unfold returns_at. cbn [processLogs_loop]. cbv zeta. rewrite lookup_empty.
  destruct (Hg idx) as (e & He & Ht); [lia|]. rewrite He.
  assert (forall b r1, logs r1 = logs r ->
    exists a r', processLogs_loop fuel max (u64_add idx 1) ∅ b r1 = Done a r') as Hnext.
  { intros b1 r1 Hl. rewrite u64_add_small by lia. apply IH; [lia|]. intros i Hi. rewrite Hl.
    apply Hg. lia. }
  pose proof (tame_prepared r e Ht) as Hp. destruct (prepareLog r e None) as [[ct|]|]; [| |done].
  - case_decide; [|by apply Hnext]. unfold bind.
    destruct (applyBatch_returns (b ++ [ct]) r) as (a & r1 & HE). rewrite HE. apply Hnext.
    pose proof (applyBatch_keeps (b ++ [ct]) r) as Hf. rewrite HE in Hf. exact (f_equal logs Hf).
  - by apply Hnext.
Qed.

Lemma advance_commit_returns c r l :
  holds (logs r) l -> positions r l -> (N.of_nat (length l) + 1 < u64_size)%N -> Forall tame l ->
  returns_at (advance_commit c) r.
Proof.
  intros Hh Hpos Hlt Ht. unfold returns_at, advance_commit, bind at 1, get_state.
  case_decide; [|eauto]. cbv zeta. unfold bind at 1, setCommitIndex, modify.
  rewrite (positions_getLastIndex _ _ Hpos).
  set (idx := min c _). set (r1 := with_raft_state _ r).
  assert (exists r2, (if decide (latestIndex (raft_configurations r) <= idx)%N
    then setCommittedConfiguration (latest (raft_configurations r))
           (latestIndex (raft_configurations r)) else returns tt) r1 = Done tt r2 /\
    logs r2 = logs r) as (r2 & HE & Hl) by (case_decide; eexists; by split).
  unfold bind at 1. rewrite HE. unfold processLogs, bind at 1, get_state. cbv zeta.
  destruct (decide (idx <= lastApplied (raft_state r2))%N); [eauto|].
  assert (idx <= N.of_nat (length l))%N.
  { unfold idx. rewrite min_spec. lia. }
  edestruct (processLogs_loop_returns (N.to_nat (idx - lastApplied (raft_state r2)))
    (MaxAppendEntries (conf r2)) (u64_add (lastApplied (raft_state r2)) 1) [] r2)
    as (b & r3 & HL).
  - rewrite u64_add_small by lia. lia.
  - rewrite u64_add_small by lia. intros i Hi. rewrite Hl.
    destruct (lookup_lt_is_Some_2 l (pred (N.to_nat i))) as [e He]; [lia|]. exists e. split.
    + apply (holds_GetLog _ _ _ _ Hh). split; [lia|done].
    + rewrite Forall_forall in Ht. eapply Ht, list_elem_of_lookup_2, He.
  - unfold bind at 1. rewrite HL. unfold bind, setLastApplied, modify.
    destruct (decide (b <> [])); [|eauto].
    destruct (applyBatch_returns b r3) as (? & ? & ->). eauto.
Qed.

Lemma processConfiguration_returns es r :
  Forall tame es -> returns_at (processConfigurationLogEntries es) r.
Proof.
  intros Ht. revert r. induction Ht as [|e es He _ IH]; intros r; [by do 2 eexists|].
  cbn [processConfigurationLogEntries]. unfold returns_at, bind at 1.
  assert (exists r1, processConfigurationLogEntry e r = Done None r1) as (r1 & ->).
  { unfold processConfigurationLogEntry, bind at 1, get_state. unfold tame in He.
    destruct (log_Type e); try done; try by eexists. destruct He as [c ->]. by eexists. }
  apply IH.
Qed.

Lemma process_entries_returns es r : Forall tame es -> returns_at (process_entries es) r.
Proof.
  intros Ht.
  assert (forall new r1, new `suffix_of` es -> returns_at (append_newEntries new) r1) as Ha.
  { intros new r1 [old ->]. apply Forall_app in Ht as [_ Hn]. unfold returns_at, append_newEntries.
    destruct (last new); [|eauto]. destruct (StoreLogs _ _) as [lg [e|]]; [eauto|].
    unfold bind at 1.
    destruct (processConfiguration_returns new (with_logs lg r1) Hn) as ([err|] & r2 & ->); eauto. }
  unfold returns_at, process_entries, bind at 1, get_state.
  destruct (getLastLog (raft_state r)) as [last t].
  pose proof (scan_entries_suffix (logs r) last es) as Hs.
  destruct (scan_entries (logs r) last es) as [|new|from new]; [eauto|by apply Ha|].
  unfold bind. destruct (truncate_suffix from last r) as [[] r1|r1] eqn:HE; [by apply Ha|eauto|].
  exfalso. revert HE. unfold truncate_suffix. by repeat case_match.
Qed.

Lemma merge_elem l p es e :
  e ∈ Proto.merge log_Term l p es -> e ∈ l \/ e ∈ es.
Proof.
  revert p. induction es as [|x es IH]; intros p; cbn [Proto.merge]; [by left|].
  assert (e ∈ take p l ++ x :: es -> e ∈ l \/ e ∈ x :: es) as Ha.
  { intros [He|He]%elem_of_app; [left; by apply elem_of_take in He as (? & ?%list_elem_of_lookup_2 & _)
    |by right]. }
  destruct (l !! p); [|done]. case_decide; [|done]. intros [?|?]%IH; [by left|right]. by right.
Qed.

Lemma merge_length l p es :
  p <= length l -> length (Proto.merge log_Term l p es) <= length l `max` (p + length es).
Proof.
  revert p. induction es as [|x es IH]; intros p Hp; cbn [Proto.merge length]; [lia|].
  assert (length (take p l ++ x :: es) <= length l `max` (p + S (length es))) as Ha.
  { rewrite length_app, length_take. simpl. lia. }
  destruct (l !! p) eqn:Hl; [|done]. case_decide; [|done]. apply lookup_lt_Some in Hl.
  etrans; [apply IH; lia|]. lia.
Qed.

(** On tame entries the handler returns. *)
Lemma appendEntries_returns now a r l :
  holds (logs r) l -> positions r l ->
  (N.of_nat (length l) + 1 < u64_size)%N ->
  (ae_PrevLogEntry a + N.of_nat (length (ae_Entries a)) + 1 < u64_size)%N ->
  consecutive_from (ae_PrevLogEntry a + 1) (ae_Entries a) ->
  Forall tame l -> Forall tame (ae_Entries a) ->
  returns_at (appendEntries now a) r.
Proof.
  intros Hh Hpos Hlt Hlt' Hc Ht Hte. unfold returns_at.
  destruct (appendEntries now a r) as [res r'|r'] eqn:HE; [eauto|exfalso].
  unfold appendEntries in HE. apply bind_Panicked in HE as [HE|(r0 & r1 & HE1 & HE)]; [done|].
  injection HE1 as <- <-. cbv zeta in HE. case_decide; [done|].
  apply bind_Panicked in HE as [HE|(t & r1 & HD & HE)].
  { revert HE. case_decide; [|done]. unfold bind at 1. rewrite setState_eq. unfold bind.
    match goal with |- context [setCurrentTerm ?t ?x] =>
      destruct (setCurrentTerm_steady t x) as (k & -> & _) end. done. }
  assert (still r r1) as Hs1.
  { eapply (frames_Done still); [|exact HD]. hold. }
  apply bind_Panicked in HE as [HE|(u & r2 & HD2 & HE)].
  { revert HE. unfold setLeader, bind, get_state, modify. by repeat case_decide. }
  assert (still r1 r2) as Hs2.
  { eapply (frames_Done still); [|exact HD2]. hold. }
  apply bind_Panicked in HE as [HE|(r0 & r3 & HE1 & HE)]; [done|]. injection HE1 as <- <-.
  assert (still r r2) as Hs by (by etrans). clear HD HD2.
  destruct (previous_entry_ok r2 a) eqn:Hprev; cbn [negb] in HE; [|done].
  assert (holds (logs r2) l) as Hh2 by (by rewrite (still_logs _ _ Hs)).
  pose proof (still_positions _ _ _ Hs Hpos) as Hpos2.
  apply (previous_entry_lists _ _ _ Hh2 Hpos2), prev_ok_length in Hprev.
  set (l' := Proto.merge log_Term l (N.to_nat (ae_PrevLogEntry a)) (ae_Entries a)).
  apply bind_Panicked in HE as [HE|(res & r3 & HD3 & HE)].
  { revert HE. case_decide; [|done].
    destruct (process_entries_returns (ae_Entries a) r2 Hte) as (? & ? & ->). done. }
  assert (res = entries_ok /\ holds (logs r3) l' /\ positions r3 l') as (-> & Hh3 & Hpos3).
  { revert HD3. case_decide as Hes.
    - intros HD3.
      pose proof (process_entries_lists (ae_Entries a) r2 l (N.to_nat (ae_PrevLogEntry a))) as Hp.
      rewrite HD3 in Hp. destruct Hp as (? & ? & ? & _); try done; [by rewrite N2Nat.id|].
      eapply Forall_impl; [exact Hte|apply tame_plain].
    - intros [= <- <-]. unfold l'. rewrite Hes. done. }
  apply bind_Panicked in HE as [HE|(? & r4 & HD4 & HE)]; [|done].
  destruct (advance_commit_returns (ae_LeaderCommitIndex a) r3 l' Hh3 Hpos3)
    as (? & ? & Hr); [| |by rewrite Hr in HE].
  - pose proof (merge_length l _ (ae_Entries a) Hprev). unfold l'. lia.
  - apply Forall_forall. intros e [He|He]%merge_elem.
    + rewrite Forall_forall in Ht. by apply Ht.
    + rewrite Forall_forall in Hte. by apply Hte.
Qed.
End Returns.

(** ** One round *)

Section Round.
Context {L K SN : Type} `{LogStore L} `{!ListStore L} `{StableStore K} `{!StableStoreLaws K}
  `{!SteadyStore K} `{SnapshotStore SN} `{MsgPack} `{PeerCodec}.
Abbreviation raft := (Raft L K SN).
Implicit Types r fo : raft.
Implicit Types l fl : list Log.
Implicit Types s : followerReplication.
Implicit Types ls : leaderState.

Lemma read_logs_returns (st : L) l fuel (p : nat) :
  holds st l -> p + fuel <= length l -> (N.of_nat (length l) + 1 < u64_size)%N ->
  read_logs st fuel (N.of_nat p + 1) = Ok (take fuel (drop p l)).
Proof.
  intros Hh. revert p. induction fuel as [|fuel IH]; intros p Hp Hlt; [done|]. simpl.
  destruct (lookup_lt_is_Some_2 l p) as [e He]; [lia|].
  assert (GetLog st (N.of_nat p + 1) = Ok e) as ->.
  { apply (holds_GetLog _ _ _ _ Hh). split; [lia|].
    by replace (pred (N.to_nat (N.of_nat p + 1))) with p by lia. }
  rewrite u64_add_small by lia.
  replace (N.of_nat p + 1 + 1)%N with (N.of_nat (S p) + 1)%N by lia.
  rewrite IH by lia. by rewrite (drop_S l e p).
Qed.

(** The request for a follower whose log the leader takes to be right up to [p]. *)
Definition request_from r s l (p n : nat) : AppendEntriesRequest :=
  mkAppendEntriesRequest (getRPCHeader r) (fr_currentTerm s)
    (EncodePeer (localID r) (localAddr r)) (N.of_nat p)
    (Proto.last_term log_Term (take p l)) (take n (drop p l)) (commitIndex (raft_state r)).

Lemma setupAppendEntries_returns r s l (p : nat) lastIndex :
  holds (logs r) l -> getLastSnapshot (raft_state r) = (0, 0)%N ->
  (0 < MaxAppendEntries (conf r))%Z ->
  (N.of_nat (length l) + Z.to_N (MaxAppendEntries (conf r)) + 2 < u64_size)%N ->
  (N.of_nat p <= lastIndex <= N.of_nat (length l))%N ->
  exists n, setupAppendEntries r s (N.of_nat p + 1) lastIndex = Ok (request_from r s l p n) /\
    p + n <= N.to_nat lastIndex /\ (p < N.to_nat lastIndex -> 0 < n).
Proof.
  intros Hh Hsn Hmax Hlt Hp. unfold setupAppendEntries, setPreviousLog. rewrite Hsn.
  assert ((if decide (N.of_nat p + 1 = 1)%N then Ok (0%N, 0%N)
     else if decide (u64_sub (N.of_nat p + 1) 1 = 0)%N then Ok (0%N, 0%N)
     else match GetLog (logs r) (u64_sub (N.of_nat p + 1) 1) with
          | Ok l => Ok (log_Index l, log_Term l) | Err err => Err err end) =
    Ok (N.of_nat p, Proto.last_term log_Term (take p l))) as HP.
  { destruct p as [|p]; [done|]. rewrite decide_False by lia.
    rewrite u64_sub_small by (unfold in_u64; lia). rewrite decide_False by lia.
    destruct (lookup_lt_is_Some_2 l p) as [e He]; [lia|].
    replace (N.of_nat (S p) + 1 - 1)%N with (N.of_nat p + 1)%N by lia.
    assert (GetLog (logs r) (N.of_nat p + 1) = Ok e) as ->.
    { apply (holds_GetLog _ _ _ _ Hh). split; [lia|].
      by replace (pred (N.to_nat (N.of_nat p + 1))) with p by lia. }
    rewrite (last_term_take l p e) by done.
    rewrite (consecutive_nth _ _ _ _ (holds_numbered _ _ Hh) He). do 2 f_equal. lia. }
  rewrite HP. unfold setNewLogs. rewrite u64_add_small, u64_sub_small by (unfold in_u64; lia).
  rewrite min_spec.
  set (n := N.to_nat (N.min (N.of_nat p + 1 + Z.to_N (MaxAppendEntries (conf r)) - 1)
    lastIndex + 1 - (N.of_nat p + 1))). exists n.
  rewrite (read_logs_returns _ l) by (done || lia). split_and!; [done|lia|lia].
Qed.

(** What an answer that is not of a newer term does to the routine. *)
Definition accepted_next s (req : AppendEntriesRequest) : N :=
  match last (ae_Entries req) with Some x => u64_add (log_Index x) 1 | None => fr_nextIndex s end.

Definition accepted_commitment s (req : AppendEntriesRequest) (c : commitment) : commitment :=
  match last (ae_Entries req) with
  | Some x => match_ c (ID (fr_peer s)) (log_Index x)
  | None => c
  end.

Lemma replicate_response_next now id req resp ls s :
  replState ls !! id = Some s -> (aer_Term resp <= ae_Term req)%N ->
  exists ls', replicate_response now id req (Ok resp) ls = (rt_check_more, ls') /\
    if aer_Success resp
    then responded id s ls ls' (accepted_next s req) (accepted_commitment s req (ls_commitment ls))
    else responded id s ls ls'
           (max (min (u64_sub (fr_nextIndex s) 1) (u64_add (aer_LastLog resp) 1)) 1)
           (ls_commitment ls).
Proof.
  intros Hf Ht. unfold replicate_response. rewrite decide_False by lia.
  assert (responded id s ls (update_repl id (fr_set_lastContact now) ls) (fr_nextIndex s)
    (ls_commitment ls)) as R by (apply responded_update; [by apply responded_refl|done]).
  destruct (aer_Success resp); eexists; (split; [reflexivity|]).
  - pose proof (responded_appended _ _ _ _ req _ R) as R'. unfold accepted_next, accepted_commitment.
    destruct (last (ae_Entries req)) as [x|]; by apply responded_update.
  - destruct R as [R1 R2 R3]. split; [exact R1|..]; simpl.
    + rewrite !lookup_alter_eq, Hf. reflexivity.
    + intros j Hj. by rewrite !lookup_alter_ne.
Qed.
End Round.

(** ** The loop *)

Section Loop.
Context {L K SN : Type} `{LogStore L} `{!ListStore L} `{StableStore K} `{!StableStoreLaws K}
  `{!SteadyStore K} `{SnapshotStore SN} `{MsgPack} `{PeerCodec}.
Abbreviation raft := (Raft L K SN).
Implicit Types fo : raft.
Implicit Types fl : list Log.
Implicit Types s : followerReplication.
Implicit Types ls : leaderState.

(** The script of [replicateTo] when the follower [fo] answers the requests. *)
Inductive answered_by (now : Z) (r : raft) (id : ServerID) (lastIndex : N)
    : leaderState -> raft -> list rpcOutcome -> raft -> Prop :=
  | answered_nil ls fo : answered_by now r id lastIndex ls fo [] fo
  | answered_cons ls s req resp fo fo' fo'' step ls' script :
      replState ls !! id = Some s ->
      setupAppendEntries r s (fr_nextIndex s) lastIndex = Ok req ->
      appendEntries now req fo = Done (resp, None) fo' ->
      replicate_response now id req (Ok resp) ls = (step, ls') ->
      answered_by now r id lastIndex ls' fo' script fo'' ->
      answered_by now r id lastIndex ls fo
        (mkRpcOutcome (Ok resp) (Err (Errorf "not asked")) false :: script) fo''.

(** A server that can be caught up with the log [l] by the leader of term [t]. *)
Record follower_ok (l : list Log) (t : N) fo fl : Prop := {
  fo_holds : holds (logs fo) fl;
  fo_positions : positions fo fl;
  fo_tame : Forall tame fl;
  fo_matching : Proto.matching log_Term fl l;
  fo_cached : term_cached fo;
  fo_term : (currentTerm (raft_state fo) <= t)%N;
  fo_room : (N.of_nat (length fl) + 1 < u64_size)%N
}.

(** A leader that can catch it up to [lastIndex]. *)
Record leader_ready (r : raft) (l : list Log) (lastIndex : N) : Prop := {
  lr_holds : holds (logs r) l;
  lr_snapshot : getLastSnapshot (raft_state r) = (0, 0)%N;
  lr_tame : Forall tame l;
  lr_max : (0 < MaxAppendEntries (conf r))%Z;
  lr_last : (lastIndex <= N.of_nat (length l))%N;
  lr_room : (N.of_nat (length l) + Z.to_N (MaxAppendEntries (conf r)) + 2 < u64_size)%N
}.

Context (now : Z) (r : raft) (id : ServerID) (lastIndex : N) (l : list Log) (t : N).
Context (Hl : leader_ready r l lastIndex).

Lemma matching_take n : Proto.matching log_Term (take n l) l.
Proof using.
  intros k e e' He _ _. pose proof (lookup_lt_Some _ _ _ He) as Hk. rewrite length_take in Hk.
  rewrite take_take. f_equal. lia.
Qed.

(** The follower after a request from [p] with [n] entries that it accepted. *)
Lemma accepted_log fl (p n : nat) :
  Proto.matching log_Term fl l -> take p fl = take p l -> p + n <= length l ->
  let fl' := Proto.merge log_Term fl p (take n (drop p l)) in
  take (p + n) fl' = take (p + n) l /\ Proto.matching log_Term fl' l /\
  length fl' <= length fl `max` length l /\ (forall e, e ∈ fl' -> e ∈ fl \/ e ∈ l).
Proof using.
  intros Hm Ht Hp fl'.
  assert (length (take n (drop p l)) = n) as Hn by (rewrite length_take, length_drop; lia).
  destruct (Proto.merge_spec _ fl l p (take n (drop p l)) Hm Ht) as [[Hf Hk]|[Hf _]];
    [lia|apply prefix_take|..]; rewrite Hn in *; subst fl'; rewrite Hf.
  - split_and!; [done|done|lia|by left].
  - rewrite take_take, Nat.min_id, length_take. split_and!; [done|apply matching_take|lia|].
    intros e (i & ? & _)%elem_of_take. right. by eapply list_elem_of_lookup_2.
Qed.

Lemma prev_ok_take fl s (p n : nat) :
  Proto.matching log_Term fl l -> p <= length l ->
  prev_ok fl (request_from r s l p n) <-> take p fl = take p l.
Proof using.
  intros Hm Hp. unfold prev_ok. simpl. split.
  - intros [?|(e & He & Ht)]; [by replace p with 0 by lia|]. rewrite Nat2N.id in He.
    destruct p as [|p]; [done|]. replace (S p - 1) with p in He by lia.
    destruct (lookup_lt_is_Some_2 l p) as [e' He']; [lia|]. eapply Hm; [done..|].
    rewrite Ht. by apply last_term_take.
  - intros Ht. destruct p as [|p]; [by left|right]. rewrite Nat2N.id.
    replace (S p - 1) with p by lia. destruct (lookup_lt_is_Some_2 l p) as [e He]; [lia|].
    exists e. split; [|symmetry; by apply last_term_take].
    rewrite <- (lookup_take_lt fl (S p)), Ht by lia. by rewrite lookup_take_lt by lia.
Qed.

(** What the follower makes of a request. *)
Lemma follower_round fo fl s (p n : nat) :
  follower_ok l t fo fl -> fr_currentTerm s = t -> p + n <= length l ->
  exists resp fo', appendEntries now (request_from r s l p n) fo = Done (resp, None) fo' /\
    aer_Term resp = t /\ aer_LastLog resp = N.of_nat (length fl) /\
    if aer_Success resp
    then exists fl', follower_ok l t fo' fl' /\ take (p + n) fl' = take (p + n) l
    else follower_ok l t fo' fl /\ take p fl <> take p l.
Proof using Hl StableStoreLaws0 SteadyStore0.
  intros [F1 F2 F3 F4 F5 F6 F7] Ht Hp. destruct Hl as [L1 L2 L3 L4 L5 L6].
  set (req := request_from r s l p n).
  assert (length (ae_Entries req) = n) as Hn by (simpl; rewrite length_take, length_drop; lia).
  assert (consecutive_from (ae_PrevLogEntry req + 1) (ae_Entries req)) as Hc.
  { pose proof (holds_numbered _ _ L1) as Hc. rewrite <- (take_drop p l) in Hc.
    apply consecutive_app in Hc. rewrite length_take, Nat.min_l in Hc by lia.
    rewrite <- (take_drop n (drop p l)) in Hc. apply consecutive_app_l in Hc.
    simpl. by replace (N.of_nat p + 1)%N with (1 + N.of_nat p)%N by lia. }
  assert (Forall tame (ae_Entries req)) as Hte by (by apply Forall_take, Forall_drop).
  assert (currentTerm (raft_state fo) <= ae_Term req)%N as Hle by (simpl; lia).
  destruct (appendEntries_returns now req fo fl F1 F2 F7) as ([resp err] & fo' & HE);
    [rewrite Hn; simpl; lia|done|done|done|].
  pose proof (appendEntries_lists now req fo fl F1 F2 F7 Hc) as Ha.
  pose proof (appendEntries_disk now req fo F5 Hle) as Hd.
  pose proof (safe_appendEntries now req fo F5) as Hs. unfold safe_at in Hs.
  rewrite HE in Ha, Hd, Hs. destruct Hd as [Hd _]. destruct Ha as (-> & Hlast & Ha).
  { eapply Forall_impl; [exact Hte|apply tame_plain]. }
  destruct Ha as [[? _]|(_ & Hrt & Ha)]; [lia|].
  pose proof (adv_cached _ _ Hs) as Hc'. unfold term_cached in Hc'. simpl in Hrt, Hd.
  exists resp, fo'. split_and!; [done|congruence|done|].
  destruct Ha as [(-> & Hno & Hst)|(-> & Hok & Hh' & Hp' & _)].
  - split; [|by rewrite <- prev_ok_take by (done || lia)].
    split; try done; [by rewrite (still_logs _ _ Hst)|by eapply still_positions|lia].
  - simpl in Hh', Hp'. rewrite Nat2N.id in Hh', Hp'.
    apply prev_ok_take in Hok; [|done|lia].
    destruct (accepted_log fl p n F4 Hok Hp) as (Htake & Hm & Hlen & Hin).
    eexists. split; [|exact Htake]. split; try done; [|lia|lia].
    rewrite Forall_forall in F3, L3 |- *. intros e [?|?]%Hin; auto.
Qed.

(** One round of [replicateTo]. *)
Lemma round ls s fo fl (p : nat) :
  replState ls !! id = Some s -> fr_currentTerm s = t -> fr_nextIndex s = (N.of_nat p + 1)%N ->
  (N.of_nat p <= lastIndex)%N -> follower_ok l t fo fl ->
  exists req resp fo' ls' s' p' fl',
    setupAppendEntries r s (fr_nextIndex s) lastIndex = Ok req /\
    appendEntries now req fo = Done (resp, None) fo' /\
    replicate_response now id req (Ok resp) ls = (rt_check_more, ls') /\
    replState ls' !! id = Some s' /\ fr_currentTerm s' = t /\
    fr_nextIndex s' = (N.of_nat p' + 1)%N /\ follower_ok l t fo' fl' /\
    (N.of_nat p' <= lastIndex)%N /\
    (take p' fl' = take p' l /\ p <= p' /\ ((N.of_nat p < lastIndex)%N -> p < p') \/
     take p fl <> take p l /\ p' < p).
Proof using Hl StableStoreLaws0 SteadyStore0.
  intros Hs Ht Hn Hp Hf. destruct Hl as [L1 L2 L3 L4 L5 L6]. rewrite Hn.
  destruct (setupAppendEntries_returns r s l p lastIndex) as (n & HE & Hpn & Hpos); [done..|].
  destruct (follower_round fo fl s p n Hf Ht) as (resp & fo' & HA & Hrt & Hlast & Hcase); [lia|].
  destruct (replicate_response_next now id (request_from r s l p n) resp ls s Hs)
    as (ls' & HR & Hresp); [simpl; lia|].
  exists (request_from r s l p n), resp, fo', ls'.
  destruct (aer_Success resp).
  - destruct Hcase as (fl' & Hf' & Htake). apply rs_self in Hresp.
    destruct (replState ls' !! id) as [s'|] eqn:Hs'; [|done]. injection Hresp as R1 R2 R3.
    exists s', (p + n), fl'. split_and!; try done; [congruence| |lia|left].
    + rewrite R2. unfold accepted_next. simpl.
      destruct (last (take n (drop p l))) as [x|] eqn:Hx.
      2:{ apply last_None in Hx. apply (f_equal length) in Hx.
          rewrite length_take, length_drop in Hx. cbn [length] in Hx. lia. }
      assert (0 < n) by (destruct n; [done|lia]).
      rewrite last_lookup, length_take, length_drop in Hx.
      rewrite lookup_take_lt, lookup_drop in Hx by lia.
      rewrite (consecutive_nth _ _ _ _ (holds_numbered _ _ L1) Hx), u64_add_small by lia. lia.
    + split_and!; [done|lia|]. intros. lia.
  - destruct Hcase as [Hf' Hne]. apply rs_self in Hresp.
    destruct (replState ls' !! id) as [s'|] eqn:Hs'; [|done]. injection Hresp as R1 R2 R3.
    assert (0 < p) as Hp0 by (destruct p; [done|lia]).
    pose proof (fo_room _ _ _ _ Hf).
    rewrite Hn, Hlast, u64_sub_small, u64_add_small, min_spec, max_spec in R2
      by (unfold in_u64; lia).
    exists s', ((p - 1) `min` length fl), fl. split_and!; try done; [congruence|lia|lia|right].
    split; [done|lia].
Qed.

(** [replicateTo] ends in at most [bound] rounds, with the follower caught up. *)
Definition caught_up ls fo (bound : nat) : Prop :=
  exists script fo' ls' s' fl',
    answered_by now r id lastIndex ls fo script fo' /\
    replicateTo now r id lastIndex script ls = (Some false, ls') /\
    length script <= bound /\
    replState ls' !! id = Some s' /\ fr_nextIndex s' = (lastIndex + 1)%N /\
    holds (logs fo') fl' /\ take (N.to_nat lastIndex) fl' = take (N.to_nat lastIndex) l.

Lemma caught_up_mono ls fo b b' : b <= b' -> caught_up ls fo b -> caught_up ls fo b'.
Proof using.
  intros Hb (script & fo' & ls' & s' & fl' & H1' & H2' & H3' & H4').
  exists script, fo', ls', s', fl'. split_and!; try done; [lia|apply H4'..].
Qed.

Lemma caught_up_round ls fo s req resp fo' ls' s' fl' (p' b : nat) :
  replState ls !! id = Some s ->
  setupAppendEntries r s (fr_nextIndex s) lastIndex = Ok req ->
  appendEntries now req fo = Done (resp, None) fo' ->
  replicate_response now id req (Ok resp) ls = (rt_check_more, ls') ->
  replState ls' !! id = Some s' -> fr_nextIndex s' = (N.of_nat p' + 1)%N ->
  (N.of_nat p' <= lastIndex)%N ->
  (N.of_nat p' = lastIndex -> holds (logs fo') fl' /\ take p' fl' = take p' l) ->
  ((N.of_nat p' < lastIndex)%N -> caught_up ls' fo' b) ->
  caught_up ls fo (S b).
Proof using.
  intros Hs HE HA HR Hs' Hn Hp Hend Hmore.
  assert (forall script fo'', answered_by now r id lastIndex ls' fo' script fo'' ->
    answered_by now r id lastIndex ls fo
      (mkRpcOutcome (Ok resp) (Err (Errorf "not asked")) false :: script) fo'') as Hcons
    by (intros; by eapply answered_cons).
  destruct (decide (N.of_nat p' = lastIndex)) as [He|Hne].
  - destruct (Hend He) as [Hh Ht]. eexists _, fo', ls', s', fl'.
    split_and!; [apply Hcons, answered_nil| |simpl; lia|done|lia|done|].
    + cbn [replicateTo]. rewrite Hs, HE. cbn [ro_append ro_stop]. rewrite HR. cbv zeta.
      rewrite Hs'. by rewrite decide_False by lia.
    + by rewrite <- He, Nat2N.id.
  - destruct Hmore as (script & fo2 & ls2 & s2 & fl2 & H1' & H2' & H3' & H4'); [lia|].
    eexists _, fo2, ls2, s2, fl2. split_and!; [by apply Hcons| |simpl; lia|apply H4'..].
    cbn [replicateTo]. rewrite Hs, HE. cbn [ro_append ro_stop]. rewrite HR. cbv zeta.
    rewrite Hs'. by rewrite decide_True by lia.
Qed.

Lemma matched_catches_up (m : nat) ls s fo fl (p : nat) :
  N.to_nat lastIndex - p <= m -> (N.of_nat p < lastIndex)%N ->
  replState ls !! id = Some s -> fr_currentTerm s = t -> fr_nextIndex s = (N.of_nat p + 1)%N ->
  follower_ok l t fo fl -> take p fl = take p l -> caught_up ls fo m.
Proof using Hl StableStoreLaws0 SteadyStore0.
  revert ls s fo fl p. induction m as [|m IH]; intros ls s fo fl p Hm Hlt Hs Ht Hn Hf Hp; [lia|].
  destruct (round ls s fo fl p Hs Ht Hn) as
    (req & resp & fo' & ls' & s' & p' & fl' & HE & HA & HR & Hs' & Ht' & Hn' & Hf' & Hp' & Hc);
    [lia|done|].
  destruct Hc as [(Htk & _ & Hgt)|[? _]]; [|done]. specialize (Hgt Hlt).
  eapply caught_up_round; [done..| |].
  - intros _. split; [apply Hf'|done].
  - intros Hlt'. eapply IH; [|done..]. lia.
Qed.

Lemma catches_up ls s fo fl (p : nat) :
  (N.of_nat p <= lastIndex)%N ->
  replState ls !! id = Some s -> fr_currentTerm s = t -> fr_nextIndex s = (N.of_nat p + 1)%N ->
  follower_ok l t fo fl -> caught_up ls fo (p + N.to_nat lastIndex + 1).
Proof using Hl StableStoreLaws0 SteadyStore0.
  revert ls s fo fl. induction p as [p IH] using lt_wf_ind. intros ls s fo fl Hp Hs Ht Hn Hf.
  destruct (round ls s fo fl p Hs Ht Hn) as
    (req & resp & fo' & ls' & s' & p' & fl' & HE & HA & HR & Hs' & Ht' & Hn' & Hf' & Hp' & Hc);
    [done..|]. rewrite Nat.add_1_r.
  eapply caught_up_round; [done..| |].
  - intros He. split; [apply Hf'|]. destruct Hc as [(Htk & _)|[_ Hc]]; [done|lia].
  - intros Hlt'. destruct Hc as [(Htk & Hge & _)|[_ Hc]].
    + apply (caught_up_mono _ _ (N.to_nat lastIndex - p')); [lia|].
      by eapply matched_catches_up.
    + eapply caught_up_mono; [|eapply (IH p')]; [|lia|lia|done..]. lia.
Qed.
End Loop.

(** ** Theorems *)

Section Theorems.
Context {L K SN : Type} `{LogStore L} `{!ListStore L} `{StableStore K} `{!StableStoreLaws K}
  `{!SteadyStore K} `{SnapshotStore SN} `{MsgPack} `{PeerCodec}.

End Theorems.

#[local] Existing Instance bitsMsgPack.
#[local] Existing Instance inmemPeerCodec.

Lemma log_b_matching : Proto.matching log_Term log_b log_leader.
Proof.
  intros [|[|[|k]]] e e' He He' Ht; simpl in He, He'; try done;
    injection He as <-; injection He' as <-; done.
Qed.

Lemma leader_b_ready : leader_ready leader_b log_leader 4.
Proof.
  split; [by apply inmem_holds_new|done| |done|done|done]. repeat constructor.
Qed.

Lemma follower_s_ready : follower_ok log_leader 4 follower_s log_b.
Proof.
  split; [by apply inmem_holds_new|done| |apply log_b_matching|done|done|done].
  repeat constructor.
Qed.

