(* ===== verification/Routines.v ===== *)
(** * The goroutines of a server

    The loops of [replication.go], [raft.go] and [snapshot.go] that run beside the main
    thread: [replicate] with its pipeline, [heartbeat], the two goroutines of a
    leadership transfer, and [runSnapshots].  Each case of a [select] is an event. *)
From S2P Require Import Prelude Types Util Codec Configuration Config Commitment Stores State Elections AppendEntries SnapshotStores Snapshot Fsm Replication Leader Api Server Advance Protocol Logs.

(** ** [replicate] *)

(** Where the goroutine waits: at the label RPC, in the loop SEND of
    [pipelineReplicate] with its own next index, or nowhere any more. *)
Inductive routinePhase :=
  | in_rpc
  | in_pipeline (nextIndex : N)
  | in_stopped.

(** A closed [stopCh] delivers 0. *)
Inductive routineEvent :=
  | re_stop (maxIndex : N)
  | re_triggerDeferError (f : nat)
  | re_trigger
  | re_timeout
  | re_finish.

Section Replicate.
Context {L K SN : Type} `{LogStore L} `{SnapshotStore SN} `{MsgPack} `{PeerCodec}.
Abbreviation raft := (Raft L K SN).
Implicit Types r : raft.
Implicit Types l : leaderState.

(** The end of a round in the loop RPC: a healthy follower gets a pipeline, [pipe] is
    the error of creating it. *)
Definition after_round (id : ServerID) (pipe : option error) l : routinePhase * leaderState :=
  match replState l !! id with
  | Some s =>
      if fr_allowPipeline s then
        let l := update_repl id (fr_set_allowPipeline false) l in
        match pipe with
        | Some _ => (in_rpc, l)
        | None => (in_pipeline (fr_nextIndex s), l)
        end
      else (in_rpc, l)
  | None => (in_rpc, l)
  end.

Definition last_log r : N := (getLastLog (raft_state r)).1.

(** One case of the loop RPC, with the answers to futures of [triggerDeferErrorCh];
    [None] is a call of [replicateTo] that has not returned, and a case that the
    [select] does not have. *)
Definition replicate_case (now : Z) r (id : ServerID) (script : list rpcOutcome)
    (pipe : option error) (ev : routineEvent) l
    : option (routinePhase * leaderState * list (nat * option error)) :=
  let round answers :=
    match replicateTo now r id (last_log r) script l with
    | (Some true, l) => Some (in_stopped, l, answers true)
    | (Some false, l) =>
        let '(ph, l) := after_round id pipe l in Some (ph, l, answers false)
    | (None, _) => None
    end in
  match ev with
  | re_stop maxIndex =>
      if decide (0 < maxIndex)%N then
        match replicateTo now r id maxIndex script l with
        | (Some _, l) => Some (in_stopped, l, [])
        | (None, _) => None
        end
      else Some (in_stopped, l, [])
  | re_triggerDeferError f =>
      round (fun stop : bool =>
        [(f, if stop then Some (Errorf "replication failed") else None)])
  | re_trigger | re_timeout => round (fun _ => [])
  | re_finish => None
  end.

(** One case of the loop SEND: where the goroutine goes on, what was sent, and the
    answers.  After the loop the decoder is stopped, and [replicate] goes back to RPC. *)
Definition pipeline_case r (s : followerReplication) (sendErr : option error)
    (ev : routineEvent) (nextIndex : N)
    : routinePhase * option AppendEntriesRequest * list (nat * option error) :=
  let send answers :=
    match pipelineSend r s nextIndex (last_log r) sendErr with
    | None => (in_rpc, None, answers true)
    | Some (req, nextIndex) => (in_pipeline nextIndex, Some req, answers false)
    end in
  match ev with
  | re_finish => (in_rpc, None, [])
  | re_stop maxIndex =>
      (in_rpc,
       if decide (0 < maxIndex)%N then fst <$> pipelineSend r s nextIndex maxIndex sendErr
       else None, [])
  | re_triggerDeferError f =>
      send (fun stop : bool =>
        [(f, if stop then Some (Errorf "replication failed") else None)])
  | re_trigger | re_timeout => send (fun _ => [])
  end.

(** The answers that [pipelineDecode] reads, until one stops it or the pipeline does. *)
Fixpoint pipelineDecode (now : Z) (id : ServerID)
    (ready : list (AppendEntriesRequest * AppendEntriesResponse)) l : leaderState :=
  match ready with
  | [] => l
  | (req, resp) :: ready =>
      match pipelineDecode_response now id req resp l with
      | (true, l) => pipelineDecode now id ready l
      | (false, l) => l
      end
  end.

(** The requests of one pipeline: what the leader was at each event, and the event. *)
Fixpoint pipeline_sends (s : followerReplication) (steps : list (raft * routineEvent))
    (nextIndex : N) : list AppendEntriesRequest :=
  match steps with
  | [] => []
  | (r, ev) :: steps =>
      match pipeline_case r s None ev nextIndex with
      | (in_pipeline nextIndex, Some req, _) => req :: pipeline_sends s steps nextIndex
      | (_, Some req, _) => [req]
      | (_, None, _) => []
      end
  end.
End Replicate.

Section Contiguous.
Context {L K SN : Type} `{LogStore L} `{!ListStore L} `{SnapshotStore SN} `{MsgPack} `{PeerCodec}.
Abbreviation raft := (Raft L K SN).
Implicit Types r : raft.

(** The leader at some time: its log is a beginning of what it is in the end. *)
Record leader_log r (l : list Log) : Prop := {
  ll_holds : exists l', holds (logs r) l' /\ l' `prefix_of` l;
  ll_snapshot : getLastSnapshot (raft_state r) = (0, 0)%N;
  ll_max : (0 < MaxAppendEntries (conf r))%Z;
  ll_room : (N.of_nat (length l) + Z.to_N (MaxAppendEntries (conf r)) + 2 < u64_size)%N
}.

(** Requests that carry the list [es] after the position [p], piece by piece. *)
Fixpoint pieces (p : N) (reqs : list AppendEntriesRequest) (es : list Log) : Prop :=
  match reqs with
  | [] => es = []
  | req :: reqs => ae_PrevLogEntry req = p /\
      exists es', es = ae_Entries req ++ es' /\
        pieces (p + N.of_nat (length (ae_Entries req))) reqs es'
  end.

Lemma prefix_drop {A} (l l' : list A) n : l `prefix_of` l' -> drop n l `prefix_of` drop n l'.
Proof.
  intros [k ->]. destruct (decide (n <= length l)).
  - rewrite drop_app_le by done. by apply prefix_app_r.
  - rewrite drop_ge by lia. apply prefix_nil.
Qed.

Lemma prefix_drop_add {A} (es es' l : list A) p :
  es `prefix_of` drop p l -> es' `prefix_of` drop (p + length es) l ->
  es ++ es' `prefix_of` drop p l.
Proof.
  intros [k Hk] Hp. rewrite Hk. apply prefix_app.
  assert (k = drop (p + length es) l) as ->; [|done].
  by rewrite <- drop_drop, Hk, drop_app_length.
Qed.

(** What one send carries, and where the next one starts. *)
Lemma pipelineSend_lists r s l (p : nat) lastIndex req n :
  leader_log r l -> p <= length l ->
  pipelineSend r s (N.of_nat p + 1) lastIndex None = Some (req, n) ->
  ae_PrevLogEntry req = N.of_nat p /\ ae_Entries req `prefix_of` drop p l /\
  n = (N.of_nat (p + length (ae_Entries req)) + 1)%N /\ p + length (ae_Entries req) <= length l.
Proof.
  intros [(l' & Hh & Hpre) Hsn Hmax Hroom] Hp HE. unfold pipelineSend in HE.
  destruct (setupAppendEntries _ _ _ _) as [req'|] eqn:HS; [|done]. injection HE as <- Hn.
  destruct (setupAppendEntries_lists r s (N.of_nat p + 1) lastIndex req' l' Hh Hsn Hmax)
    as [q B]; [lia|lia|exact HS|].
  destruct B as [B1 B2 B3 B4 B5 B6 B7 B8].
  assert (q = p) as -> by lia. assert (ae_Entries req' `prefix_of` drop p l) as Hes.
  { etrans; [exact B5|]. by apply prefix_drop. }
  pose proof (prefix_length _ _ Hes) as Hlen. rewrite length_drop in Hlen.
  split_and!; [done|done| |lia]. rewrite <- Hn.
  destruct (last (ae_Entries req')) as [x|] eqn:Hx.
  2:{ apply last_None in Hx. rewrite Hx. simpl. lia. }
  rewrite last_lookup in Hx. pose proof (lookup_lt_Some _ _ _ Hx) as Hlt.
  eapply prefix_lookup_Some in Hx; [|exact B5]. rewrite lookup_drop in Hx.
  rewrite (consecutive_nth _ _ _ _ (holds_numbered _ _ Hh) Hx). rewrite u64_add_small by lia. lia.
Qed.

(** The requests of a pipeline carry the log of the leader from the next index on,
    without gaps and without repetitions, however the log grows meanwhile. *)
Theorem pipeline_contiguous s (steps : list (raft * routineEvent)) l (p : nat) :
  Forall (fun st => leader_log st.1 l) steps -> p <= length l ->
  exists es, pieces (N.of_nat p) (pipeline_sends s steps (N.of_nat p + 1)) es /\
    es `prefix_of` drop p l.
Proof.
  intros Hl. revert p. induction Hl as [|[r ev] steps Hr Hl IH]; intros p Hp; cbn [pipeline_sends].
  { exists []. split; [done|apply prefix_nil]. }
  assert (forall lastIndex req n,
    pipelineSend r s (N.of_nat p + 1) lastIndex None = Some (req, n) ->
    forall reqs, (reqs = [] \/ reqs = pipeline_sends s steps n) ->
    exists es, pieces (N.of_nat p) (req :: reqs) es /\ es `prefix_of` drop p l) as Hsend.
  { intros lastIndex req n HS reqs Hreqs.
    destruct (pipelineSend_lists _ _ _ _ _ _ _ Hr Hp HS) as (H1' & H2' & -> & H4').
    assert (exists es', pieces (N.of_nat (p + length (ae_Entries req))) reqs es' /\
      es' `prefix_of` drop (p + length (ae_Entries req)) l) as (es' & Hp' & Hes').
    { destruct Hreqs as [->| ->]; [|by apply IH]. exists []. split; [done|apply prefix_nil]. }
    exists (ae_Entries req ++ es'). split; [|by apply prefix_drop_add].
    cbn [pieces]. split; [done|]. exists es'. split; [done|].
    by replace (N.of_nat p + N.of_nat (length (ae_Entries req)))%N
      with (N.of_nat (p + length (ae_Entries req))) by lia. }
  assert (exists es, pieces (N.of_nat p) [] es /\ es `prefix_of` drop p l) as Hnil.
  { exists []. split; [done|apply prefix_nil]. }
  unfold pipeline_case. cbv zeta. destruct ev as [m|f| | |]; [case_decide| | | |];
    try exact Hnil;
    destruct (pipelineSend r s (N.of_nat p + 1) _ None) as [[req n]|] eqn:HS; try exact Hnil;
    eapply (Hsend _ _ _ HS); auto.
Qed.
End Contiguous.

(** ** [heartbeat] *)

(** What wakes the loop: [stopCh], or the interval or a notification, with the outcome
    of the call and whether [stopCh] ends the wait after a failure. *)
Inductive heartbeatEvent :=
  | hb_stop
  | hb_wake (now : Z) (resp : result AppendEntriesResponse) (stopped : bool).

(** The wait after a failure, for the number of failures before it. *)
Definition heartbeat_backoff (heartbeatTimeout : Z) (failures : N) : Z :=
  cappedExponentialBackoff failureWait failures maxFailureScale (Z.quot heartbeatTimeout 2).

Definition heartbeat_observation (id : ServerID) (failures : N)
    (resp : result AppendEntriesResponse) (l : leaderState) : list Observation :=
  match replState l !! id with
  | Some s =>
      match resp with
      | Err _ => [FailedHeartbeatObservation (ID (fr_peer s)) (fr_lastContact s)]
      | Ok _ => if decide (0 < failures)%N then [ResumedHeartbeatObservation (ID (fr_peer s))]
                else []
      end
  | None => []
  end.

(** The loop over the events, with the waits it takes and what observers see. *)
Fixpoint heartbeat (heartbeatTimeout : Z) (id : ServerID) (evs : list heartbeatEvent)
    (failures : N) (l : leaderState) : leaderState * list Z * list Observation :=
  match evs with
  | [] | hb_stop :: _ => (l, [], [])
  | hb_wake now resp stopped :: evs =>
      let obs := heartbeat_observation id failures resp l in
      let waits := match resp with
                   | Err _ => [heartbeat_backoff heartbeatTimeout failures]
                   | Ok _ => []
                   end in
      let '(failures', l') := heartbeat_response now id failures resp l in
      match resp, stopped with
      | Err _, true => (l', waits, obs)
      | _, _ =>
          let '(l'', waits', obs') := heartbeat heartbeatTimeout id evs failures' l' in
          (l'', waits ++ waits', obs ++ obs')
      end
  end.

(** The waits are bounded by half of the heartbeat timeout. *)
Lemma heartbeat_backoff_bounds heartbeatTimeout failures :
  (0 <= heartbeatTimeout < 9223372036854775808)%Z ->
  heartbeat_backoff heartbeatTimeout failures =
    Z.min (Z.quot heartbeatTimeout 2) (failureWait * 2 ^ Z.of_N (N.min failures 12 - 2))%Z.
Proof.
  intros Ht. unfold heartbeat_backoff, cappedExponentialBackoff. cbv zeta. rewrite min_spec.
  unfold maxFailureScale. apply cappedBackoff_loop_spec; [done| |done|].
  - unfold in_u64, u64_size. lia.
  - apply Z.quot_lt_upper_bound; lia.
Qed.

(** What observers see of a sequence of calls: every failure, and the first success
    after failures. *)
Fixpoint beats (p : ServerID) (failing : bool) (resps : list (result AppendEntriesResponse))
    : list (ServerID * bool) :=
  match resps with
  | [] => []
  | Err _ :: resps => (p, false) :: beats p true resps
  | Ok _ :: resps => (if failing then [(p, true)] else []) ++ beats p false resps
  end.

Definition beat_of (o : Observation) : list (ServerID * bool) :=
  match o with
  | FailedHeartbeatObservation id _ => [(id, false)]
  | ResumedHeartbeatObservation id => [(id, true)]
  | _ => []
  end.

Lemma heartbeat_response_peer now id failures resp l s :
  replState l !! id = Some s ->
  exists s', replState (heartbeat_response now id failures resp l).2 !! id = Some s' /\
    fr_peer s' = fr_peer s.
Proof.
  intros Hs. destruct resp as [resp|]; [|by exists s]. cbn [heartbeat_response snd].
  destruct (notifyAll_frame id (aer_Success resp) (update_repl id (fr_set_lastContact now) l))
    as [-> _]. simpl. rewrite !lookup_alter_eq, Hs. by eexists.
Qed.

(** The observers of a leader see every failed heartbeat to a follower, and the first
    one that succeeds after failures. *)
Lemma heartbeat_observed heartbeatTimeout id (calls : list (Z * result AppendEntriesResponse))
    failures l s :
  replState l !! id = Some s -> (failures + N.of_nat (length calls) < u64_size)%N ->
  (heartbeat heartbeatTimeout id ((fun c => hb_wake c.1 c.2 false) <$> calls) failures l).2
    ≫= beat_of = beats (ID (fr_peer s)) (bool_decide (0 < failures)%N) (snd <$> calls).
Proof.
  revert failures l s. induction calls as [|[now resp] calls IH]; intros failures l s Hs Hlt; [done|].
  cbn [fmap list_fmap fst snd heartbeat].
  destruct (heartbeat_response_peer now id failures resp l s Hs) as (s' & Hs' & Hp).
  destruct (heartbeat_response now id failures resp l) as [f' l'] eqn:HR. simpl in Hs'.
  assert (f' = match resp with Err _ => (failures + 1)%N | Ok _ => 0%N end) as Hf.
  { destruct resp; injection HR as <- _; [done|]. rewrite u64_add_small; [done|]. simpl in Hlt. lia. }
  assert (f' + N.of_nat (length calls) < u64_size)%N as Hlt'.
  { simpl in Hlt. destruct resp; lia. }
  specialize (IH f' l' s' Hs' Hlt'). rewrite Hp in IH.
  unfold heartbeat_observation. rewrite Hs.
  destruct (heartbeat heartbeatTimeout id _ f' l') as [[l'' ws] obs] eqn:HH.
  cbn [snd] in IH. destruct resp as [resp|e]; cbn [snd beats].
  - rewrite bind_app, IH, Hf. destruct (decide (0 < failures)%N) as [Hpos|Hpos].
    + by rewrite (bool_decide_true _ Hpos).
    + by rewrite (bool_decide_false _ Hpos).
  - rewrite bind_app, IH, Hf, bool_decide_true by lia. done.
Qed.

(** ** Leadership transfer *)

(** The goroutine that waits for a transfer: in its [select], in the one after a
    successful [TimeoutNow], at [<-doneCh] with the future answered, before its deferred
    reset of the flag, and over. *)
Inductive transferWaiter := wt_select | wt_linger | wt_drain | wt_reset | wt_ended.

(** The goroutine [leadershipTransfer]: not started, before and in its loop, sending on
    [triggerDeferErrorCh], waiting for a round of replication, in the call of
    [TimeoutNow], and over. *)
Inductive transferWorker := wk_none | wk_start | wk_check | wk_send | wk_wait | wk_rpc | wk_ended.

(** One request: the server, [tf_stop] is whether [stopCh] is closed, [tf_done] what is in [doneCh],
    [tf_answers] the answers to the future. *)
Record transfer := mkTransfer {
  tf_target : ServerID;
  tf_waiter : transferWaiter;
  tf_worker : transferWorker;
  tf_stop : bool;
  tf_done : option (option error);
  tf_answers : list (option error)
}.

(** The requests of one stay in [leaderLoop], whether it was left, the flag
    [leadershipTransferInProgress], and the followers whose [triggerDeferErrorCh], which
    has room for one value, is full. *)
Record transfers := mkTransfers {
  ts_left : bool;
  ts_inProgress : bool;
  ts_full : gset ServerID;
  ts_all : list transfer
}.

Definition transferTimeout : error := Errorf "leadership transfer timeout".

(** The case of [leaderLoop] for a request: [target] is the error when there is no
    server to transfer to. *)
Definition transfer_request (id : ServerID) (target : option error) (ts : transfers) : transfers :=
  if ts_inProgress ts then
    mkTransfers (ts_left ts) true (ts_full ts)
      (ts_all ts ++ [mkTransfer id wt_ended wk_none false None [Some ErrLeadershipTransferInProgress]])
  else match target with
       | Some err =>
           mkTransfers (ts_left ts) false (ts_full ts)
             (ts_all ts ++ [mkTransfer id wt_select wk_none false (Some (Some err)) []])
       | None =>
           mkTransfers (ts_left ts) true (ts_full ts)
             (ts_all ts ++ [mkTransfer id wt_select wk_start false None []])
       end.

(** What the two goroutines do next: the timer fires, the loop was left, a value of
    [doneCh] is taken, the deferred reset; the checks of [stopCh] and of the next index,
    the send on [triggerDeferErrorCh], the answer of the replication routine, and the one
    of [TimeoutNow]. *)
Inductive transferEvent :=
  | te_timeout
  | te_left
  | te_done
  | te_reset
  | te_begin
  | te_check (nextIndex lastIndex : N)
  | te_sent
  | te_replicated (err : option error)
  | te_stopped
  | te_timeoutNow (err : option error).

(** The waiter: [None] is an event that it does not wait for or that cannot be. *)
Definition transfer_wait (left : bool) (ev : transferEvent) (t : transfer) : option transfer :=
  match tf_waiter t, ev with
  | wt_select, te_timeout =>
      Some (mkTransfer (tf_target t) wt_drain (tf_worker t) true (tf_done t)
              (tf_answers t ++ [Some transferTimeout]))
  | wt_select, te_left =>
      if left then
        Some (mkTransfer (tf_target t) wt_drain (tf_worker t) true (tf_done t) (tf_answers t ++ [None]))
      else None
  | wt_select, te_done =>
      match tf_done t with
      | Some (Some err) =>
          Some (mkTransfer (tf_target t) wt_reset (tf_worker t) (tf_stop t) None (tf_answers t ++ [Some err]))
      | Some None => Some (mkTransfer (tf_target t) wt_linger (tf_worker t) (tf_stop t) None (tf_answers t))
      | None => None
      end
  | wt_linger, te_timeout =>
      Some (mkTransfer (tf_target t) wt_reset (tf_worker t) (tf_stop t) (tf_done t)
              (tf_answers t ++ [Some transferTimeout]))
  | wt_linger, te_left =>
      if left then
        Some (mkTransfer (tf_target t) wt_reset (tf_worker t) (tf_stop t) (tf_done t) (tf_answers t ++ [None]))
      else None
  | wt_drain, te_done =>
      match tf_done t with
      | Some _ => Some (mkTransfer (tf_target t) wt_reset (tf_worker t) (tf_stop t) None (tf_answers t))
      | None => None
      end
  | wt_reset, te_reset =>
      Some (mkTransfer (tf_target t) wt_ended (tf_worker t) (tf_stop t) (tf_done t) (tf_answers t))
  | _, _ => None
  end.

(** [leadershipTransfer]; [doneCh] has room for one value, and [full] is whether there is
    none in [triggerDeferErrorCh]. *)
Definition leadershipTransfer (full : bool) (ev : transferEvent) (t : transfer) : option transfer :=
  let go w := Some (mkTransfer (tf_target t) (tf_waiter t) w (tf_stop t) (tf_done t) (tf_answers t)) in
  let finish err :=
    match tf_done t with
    | None => Some (mkTransfer (tf_target t) (tf_waiter t) wk_ended (tf_stop t) (Some err) (tf_answers t))
    | Some _ => None
    end in
  match tf_worker t, ev with
  | wk_start, te_begin => if tf_stop t then finish None else go wk_check
  | wk_check, te_check nextIndex lastIndex =>
      if decide (nextIndex <= lastIndex)%N then go wk_send else go wk_rpc
  | wk_send, te_sent => if full then None else go wk_wait
  | wk_wait, te_replicated (Some err) => finish (Some err)
  | wk_wait, te_replicated None => go wk_check
  | wk_wait, te_stopped => if tf_stop t then finish None else None
  | wk_rpc, te_timeoutNow None => finish None
  | wk_rpc, te_timeoutNow (Some err) =>
      finish (Some (wrapError ("failed to make TimeoutNow RPC to " +:+ tf_target t) err))
  | _, _ => None
  end.

Definition transfer_full (ev : transferEvent) (t : transfer) (ts : transfers) : gset ServerID :=
  match ev with te_sent => {[tf_target t]} ∪ ts_full ts | _ => ts_full ts end.

(** The interleavings, with the replication routine that takes a value of its
    [triggerDeferErrorCh]. *)
Inductive transfer_step : transfers -> transfers -> Prop :=
  | ts_request id target ts :
      ts_left ts = false -> transfer_step ts (transfer_request id target ts)
  | ts_leave ts : transfer_step ts (mkTransfers true (ts_inProgress ts) (ts_full ts) (ts_all ts))
  | ts_take id ts :
      id ∈ ts_full ts ->
      transfer_step ts (mkTransfers (ts_left ts) (ts_inProgress ts) (ts_full ts ∖ {[id]}) (ts_all ts))
  | ts_wait k t t' ev ts :
      ts_all ts !! k = Some t -> transfer_wait (ts_left ts) ev t = Some t' ->
      transfer_step ts
        (mkTransfers (ts_left ts) (match ev with te_reset => false | _ => ts_inProgress ts end)
           (ts_full ts) (<[k := t']> (ts_all ts)))
  | ts_work k t t' ev ts :
      ts_all ts !! k = Some t ->
      leadershipTransfer (bool_decide (tf_target t ∈ ts_full ts)) ev t = Some t' ->
      transfer_step ts
        (mkTransfers (ts_left ts) (ts_inProgress ts) (transfer_full ev t ts) (<[k := t']> (ts_all ts))).

Definition no_transfers : transfers := mkTransfers false false ∅ [].

(** Whether [leadershipTransfer] runs. *)
Definition live (t : transfer) : bool :=
  match tf_worker t with wk_start | wk_check | wk_send | wk_wait | wk_rpc => true | _ => false end.

(** What holds of a request at any time. *)
Definition transfer_ok (left : bool) (t : transfer) : Prop :=
  (live t = true -> tf_done t = None) /\ (None ∈ tf_answers t -> left = true) /\
  match tf_waiter t with
  | wt_select => tf_answers t = [] /\ tf_stop t = false /\ (is_Some (tf_done t) \/ live t = true)
  | wt_linger => tf_answers t = [] /\ tf_stop t = false /\ live t = false /\ tf_done t = None
  | wt_drain => length (tf_answers t) = 1 /\ tf_stop t = true /\
      (is_Some (tf_done t) \/ live t = true)
  | wt_reset | wt_ended => length (tf_answers t) = 1 /\ live t = false /\ tf_done t = None
  end.

#[local] Ltac transfer_goal :=
  first
    [ done
    | by intros ?%list_elem_of_singleton
    | assumption
    | by left
    | match goal with |- context [match ?w with _ => _ end] => is_var w; destruct w end;
      first [done | by right | by left | exfalso; auto; congruence | intuition congruence] ].

Lemma transfer_wait_ok left ev t t' :
  transfer_ok left t -> transfer_wait left ev t = Some t' -> transfer_ok left t'.
Proof.
  destruct t as [i wt wk stop dn ans]. intros Hok HE. unfold transfer_wait in HE.
  destruct wt, ev; simpl in HE; try done; repeat case_match; simplify_eq;
    unfold transfer_ok, live in *; simpl in *; destruct Hok as (T1 & T2 & T3);
    destruct_and?; subst; split_and?; transfer_goal.
Qed.

Lemma leadershipTransfer_ok left full ev t t' :
  transfer_ok left t -> leadershipTransfer full ev t = Some t' -> transfer_ok left t'.
Proof.
  destruct t as [i wt wk stop dn ans]. intros Hok HE. unfold leadershipTransfer in HE.
  destruct wk, ev as [| | | | |next last| |[e|]| |[e|]]; simpl in HE; try done;
    repeat case_match; simplify_eq; unfold transfer_ok, live in *; simpl in *;
    destruct Hok as (T1 & T2 & T3); destruct wt; destruct_and?; subst; split_and?; transfer_goal.
Qed.

Lemma transfer_ok_leave left t : transfer_ok left t -> transfer_ok true t.
Proof. intros (T1 & _ & T3). by split_and!. Qed.

Lemma transfer_step_ok ts ts' :
  transfer_step ts ts' -> Forall (transfer_ok (ts_left ts)) (ts_all ts) ->
  Forall (transfer_ok (ts_left ts')) (ts_all ts').
Proof.
  intros Hs Hall. destruct Hs as [id target ts _|ts|id ts _|k t t' ev ts Hk HE|k t t' ev ts Hk HE]; simpl.
  - unfold transfer_request. destruct (ts_inProgress ts); [|destruct target];
      apply Forall_app; (split; [done|]); apply Forall_singleton; unfold transfer_ok, live; simpl;
      split_and!; try done; try (intros ?; set_solver); eauto.
  - eapply Forall_impl; [exact Hall|]. intros t. apply transfer_ok_leave.
  - done.
  - apply Forall_insert; [done|]. eapply transfer_wait_ok; [|done]. by eapply Forall_lookup_1.
  - apply Forall_insert; [done|]. eapply leadershipTransfer_ok; [|done]. by eapply Forall_lookup_1.
Qed.

Lemma transfers_ok ts :
  rtc transfer_step no_transfers ts -> Forall (transfer_ok (ts_left ts)) (ts_all ts).
Proof.
  revert ts. apply rtc_ind_r; [by constructor|]. intros ts ts' _ Hs IH.
  by eapply transfer_step_ok.
Qed.

(** C37: the future of a leadership transfer.  However the goroutines of any number of
    transfers are interleaved with the main thread, each future is answered at most
    once, and once when its goroutine is over; it reports success only if the leader
    has left its loop; and a goroutine that has not answered can do so at once when its
    timer fires.  After the answer it can go on as well, unless [leadershipTransfer]
    waits for the answer to [TimeoutNow] or for room in the channel of the replication
    routine. *)
Theorem transfer_outcome ts k t :
  rtc transfer_step no_transfers ts -> ts_all ts !! k = Some t ->
  length (tf_answers t) <= 1 /\ (None ∈ tf_answers t -> ts_left ts = true) /\
  (tf_waiter t = wt_ended -> length (tf_answers t) = 1 /\ live t = false) /\
  (tf_answers t = [] -> exists t', transfer_wait (ts_left ts) te_timeout t = Some t' /\
     tf_answers t' = [Some transferTimeout]) /\
  (tf_waiter t = wt_ended \/
   (exists ev t', ev <> te_left /\ transfer_wait (ts_left ts) ev t = Some t') \/
   (exists ev t', ev ∈ [te_begin; te_stopped] /\ leadershipTransfer true ev t = Some t') \/
   (forall nextIndex lastIndex, exists t',
      leadershipTransfer true (te_check nextIndex lastIndex) t = Some t') \/
   tf_worker t = wk_send \/ tf_worker t = wk_rpc).
Proof.
  intros Hrtc Hk. pose proof (Forall_lookup_1 _ _ _ _ (transfers_ok _ Hrtc) Hk) as (T1 & T2 & T3).
  destruct t as [i wt wk stop dn ans]. unfold live in *. simpl in *. split_and!.
  - destruct wt; destruct_and?; subst; simpl; lia.
  - done.
  - intros ->. by destruct_and?.
  - intros ->. destruct wt; destruct_and?; try done; by eexists.
  - destruct wt; [| | | |by left].
    1-2: right; left; by eexists te_timeout, _.
    + right. destruct T3 as (_ & -> & [[d ->]|Hl]); [left; by eexists te_done, _|].
      right. rewrite (T1 Hl). destruct wk; try done.
      * left. eexists te_begin, _. split; [set_solver|done].
      * right. left. intros n l. unfold leadershipTransfer. simpl. case_decide; by eexists.
      * by right; right; left.
      * left. eexists te_stopped, _. split; [set_solver|done].
      * by right; right; right.
    + right; left. by eexists te_reset, _.
Qed.

(** A run that is given by what happens. *)
Inductive transferAction :=
  | ta_request (id : ServerID) (target : option error)
  | ta_wait (k : nat) (ev : transferEvent)
  | ta_work (k : nat) (ev : transferEvent).

Definition transfer_act (a : transferAction) (ts : transfers) : option transfers :=
  match a with
  | ta_request id target => if ts_left ts then None else Some (transfer_request id target ts)
  | ta_wait k ev =>
      t ← ts_all ts !! k; t' ← transfer_wait (ts_left ts) ev t;
      Some (mkTransfers (ts_left ts) (match ev with te_reset => false | _ => ts_inProgress ts end)
              (ts_full ts) (<[k := t']> (ts_all ts)))
  | ta_work k ev =>
      t ← ts_all ts !! k;
      t' ← leadershipTransfer (bool_decide (tf_target t ∈ ts_full ts)) ev t;
      Some (mkTransfers (ts_left ts) (ts_inProgress ts) (transfer_full ev t ts)
              (<[k := t']> (ts_all ts)))
  end.

Fixpoint transfer_acts (acts : list transferAction) (ts : transfers) : option transfers :=
  match acts with
  | [] => Some ts
  | a :: acts => ts ← transfer_act a ts; transfer_acts acts ts
  end.

Lemma transfer_acts_steps acts ts ts' :
  transfer_acts acts ts = Some ts' -> rtc transfer_step ts ts'.
Proof.
  revert ts. induction acts as [|a acts IH]; intros ts HE; [injection HE as ->; apply rtc_refl|].
  cbn in HE. destruct (transfer_act a ts) as [ts1|] eqn:HA; [|done].
  eapply rtc_l; [|by apply IH]. destruct a as [id target|k ev|k ev]; cbn in HA.
  - destruct (ts_left ts) eqn:Hl; [done|]. injection HA as <-. by apply ts_request.
  - apply bind_Some in HA as (t & Hk & (t' & HW & [= <-])%bind_Some). by eapply ts_wait.
  - apply bind_Some in HA as (t & Hk & (t' & HW & [= <-])%bind_Some). by eapply ts_work.
Qed.

(** A transfer that times out while the replication routine is busy. *)
Definition timed_out : list transferAction :=
  [ta_request "b" None; ta_work 0 te_begin; ta_work 0 (te_check 1 1); ta_work 0 te_sent;
   ta_wait 0 te_timeout].

Lemma transfer_outcome_witness :
  exists ts t, rtc transfer_step no_transfers ts /\ ts_all ts !! 0 = Some t /\
    tf_answers t = [Some transferTimeout] /\ length (tf_answers t) <= 1 /\
    tf_waiter t <> wt_ended /\ tf_worker t = wk_wait.
Proof.
  destruct (transfer_acts timed_out no_transfers) as [ts|] eqn:HE; [|by vm_compute in HE].
  pose proof (transfer_acts_steps _ _ _ HE) as Hrtc. vm_compute in HE. injection HE as <-.
  eexists _, _. split; [exact Hrtc|]. split; [reflexivity|]. split; [reflexivity|].
  split; [apply (transfer_outcome _ 0 _ Hrtc); reflexivity|]. split; [discriminate|reflexivity].
Defined.

(** A transfer to a server that is not there fails; the caller asks again before the
    goroutine of the first request has run its deferred reset. *)
Definition retried : list transferAction :=
  [ta_request "x" (Some (Errorf "cannot find replication state")); ta_wait 0 te_done;
   ta_request "b" None; ta_work 1 te_begin; ta_wait 0 te_reset].

(** The flag that keeps a leader from taking commands during a transfer can be lost:
    the goroutine of a request that failed clears it when the next transfer is already
    going on. *)
Theorem transfer_flag_lost :
  exists ts t, rtc transfer_step no_transfers ts /\ ts_left ts = false /\
    ts_all ts !! 1 = Some t /\ live t = true /\ tf_answers t = [] /\ ts_inProgress ts = false.
Proof.
  destruct (transfer_acts retried no_transfers) as [ts|] eqn:HE; [|by vm_compute in HE].
  pose proof (transfer_acts_steps _ _ _ HE) as Hrtc. vm_compute in HE. injection HE as <-.
  eexists _, _. split_and!; done.
Qed.

(** The replication routine of a follower is in a long call: a transfer to it times out
    with its value still in the channel, and another one is asked for. *)
Definition repeated : list transferAction :=
  [ta_request "b" None; ta_work 0 te_begin; ta_work 0 (te_check 1 1); ta_work 0 te_sent;
   ta_wait 0 te_timeout; ta_work 0 te_stopped; ta_wait 0 te_done; ta_wait 0 te_reset;
   ta_request "b" None; ta_work 1 te_begin; ta_work 1 (te_check 1 1); ta_wait 1 te_timeout].

(** The send of [leadershipTransfer] does not watch [stopCh]: there is a run after which
    a transfer has timed out, its future is answered, and neither of its goroutines can
    go on, with the leader refusing commands, until the replication routine takes from
    its channel. *)
Theorem transfer_stuck :
  exists ts t, rtc transfer_step no_transfers ts /\ ts_left ts = false /\
    ts_all ts !! 1 = Some t /\ tf_answers t = [Some transferTimeout] /\ tf_stop t = true /\
    ts_inProgress ts = true /\ tf_target t ∈ ts_full ts /\
    (forall left ev, transfer_wait left ev t = None) /\
    (forall ev, leadershipTransfer true ev t = None).
Proof.
  destruct (transfer_acts repeated no_transfers) as [ts|] eqn:HE; [|by vm_compute in HE].
  pose proof (transfer_acts_steps _ _ _ HE) as Hrtc. vm_compute in HE. injection HE as <-.
  eexists _, _. split; [exact Hrtc|]. split_and!; try reflexivity.
  - by intros [] [].
  - by intros [].
Qed.

(** ** [runSnapshots] *)

Section Snapshots.
Context {L K SN : Type} `{LogStore L} `{StableStore K} `{SnapshotStore SN} `{MsgPack}
  `{PeerCodec}.
Abbreviation raft := (Raft L K SN).

(** What the loop waits for: the timer, and a request of the user; with the answers of
    the state machine's and of the main thread to a snapshot that is taken. *)
Inductive snapshotEvent :=
  | se_timer (msec : Z) (snapReq : result (reqSnapshot SN)) (configReq : result configurations)
  | se_user (future : nat) (msec : Z) (snapReq : result (reqSnapshot SN))
      (configReq : result configurations).

(** One case of the loop; the answer is the future whose opener is set, with the
    snapshot that it opens. *)
Definition runSnapshots_case (ev : snapshotEvent) : M raft (option (nat * string)) := (
  match ev with
  | se_timer msec snapReq configReq =>
      r <- get_state;;
      if shouldSnapshot r then takeSnapshot msec snapReq configReq;; returns None
      else returns None
  | se_user future msec snapReq configReq =>
      id <- takeSnapshot msec snapReq configReq;;
      match id with
      | Err err => respond (Some future) (Some err);; returns None
      | Ok id => respond (Some future) None;; returns (Some (future, id))
      end
  end)%go.

Fixpoint runSnapshots (evs : list (snapshotEvent)) : M raft (list (nat * string)) :=
  match evs with
  | [] => returns []
  | ev :: evs => (
      o <- runSnapshots_case ev;;
      os <- runSnapshots evs;;
      returns (option_list o ++ os))%go
  end.

(** A future of the user is answered when its snapshot was taken, with the error if
    there is one, and gets an opener only without one. *)
Lemma runSnapshots_user f msec snapReq configReq (r : raft) o r' :
  runSnapshots_case (se_user f msec snapReq configReq) r = Done o r' ->
  exists res r1, takeSnapshot msec snapReq configReq r = Done res r1 /\
    (futures r1 !! f = None -> futures r' !! f =
       Some (match res with Ok _ => None | Err err => Some err end)) /\
    o = match res with Ok id => Some (f, id) | Err _ => None end /\
    snapshots r' = snapshots r1 /\ logs r' = logs r1.
Proof.
  intros (res & r1 & HT & HE)%bind_Done. exists res, r1. split; [done|].
  assert (forall err, exists r2, respond (Some f) err r1 = Done tt r2 /\
    (futures r1 !! f = None -> futures r2 !! f = Some err) /\
    snapshots r2 = snapshots r1 /\ logs r2 = logs r1) as Hresp.
  { intros err. unfold respond, modify. destruct (futures r1 !! f) as [x|].
    - eexists. split; [done|]. by split_and!.
    - eexists. split; [done|]. split_and!; try done. intros _. simpl. by rewrite lookup_insert_eq. }
  destruct res as [id|err]; unfold bind in HE.
  - destruct (Hresp None) as (r2 & HR & Hf & Hs & Hl). rewrite HR in HE. by injection HE as <- <-.
  - destruct (Hresp (Some err)) as (r2 & HR & Hf & Hs & Hl). rewrite HR in HE.
    by injection HE as <- <-.
Qed.

(** A timer that finds nothing to do changes nothing. *)
Lemma runSnapshots_idle msec snapReq configReq (r : raft) :
  shouldSnapshot r = false ->
  runSnapshots_case (se_timer msec snapReq configReq) r = Done None r.
Proof. intros Hs. unfold runSnapshots_case, bind, get_state. by rewrite Hs. Qed.
End Snapshots.
