(* ===== verification/Startup.v ===== *)
(** * What a server starts with

    The results about [Api]: bootstrapping and then starting a server gives it the
    configuration it was bootstrapped with, as bootstrapping the running server
    does; a recovered server starts with the configuration and the state machine it
    was recovered with. *)
From S2P Require Import Prelude Types Util Codec Configuration Config Stores State Elections AppendEntries SnapshotStores Snapshot Fsm Api.

(** ** Bootstrapping *)

(** [LastIndex] of a store that had no entry, after its first one. *)
Class FirstEntryLaw (L : Type) `{LogStore L} := {
  LastIndex_first s l s' :
    LastIndex s = Ok 0%N -> StoreLogs s [l] = (s', None) -> (0 < log_Index l)%N ->
    LastIndex s' = Ok (log_Index l)
}.

#[export] Instance InmemStore_FirstEntryLaw : FirstEntryLaw InmemStore.
Proof.
  split. intros s l s' [= Hz] [= <-] Hl. simpl. rewrite Hz. by rewrite decide_True.
Qed.

Section Bootstrap.
Context {L K SN F : Type} `{!LogStore L} `{!LogStoreLaws L} `{!FirstEntryLaw L}
  `{!StableStore K} `{!StableStoreLaws K} `{!SnapshotStore SN} `{!FSM F SN}
  `{!MsgPack} `{!MsgPackLaws} `{!PeerCodec}.
Abbreviation raft := (Raft L K SN).
Abbreviation stores := (Stores L K SN).

(** Stores without any state. *)
Record fresh (s : stores) : Prop := {
  fresh_ok : store_ok (st_logs s);
  fresh_term : (GetUint64 (st_stable s) keyCurrentTerm).1 = 0%N;
  fresh_read : read_failed (GetUint64 (st_stable s) keyCurrentTerm).2 = false;
  fresh_logs : LastIndex (st_logs s) = Ok 0%N;
  fresh_snaps : List_ (st_snaps s) = Ok []
}.

(** Stores of a server that was bootstrapped with [c]. *)
Record bootstrapped (c : Configuration) (s : stores) : Prop := {
  boot_term : GetUint64 (st_stable s) keyCurrentTerm = (1%N, None);
  boot_logs : LastIndex (st_logs s) = Ok 1%N;
  boot_entry : exists data, GetLog (st_logs s) 1 = Ok (mkLog 1 1 LogConfiguration data "" 0) /\
    DecodeConfiguration data = Ok c;
  boot_snaps : List_ (st_snaps s) = Ok []
}.

Lemma HasExistingState_false s :
  HasExistingState s = Ok false ->
  read_failed (GetUint64 (st_stable s) keyCurrentTerm).2 = false /\
  ((GetUint64 (st_stable s) keyCurrentTerm).2 = None ->
   (GetUint64 (st_stable s) keyCurrentTerm).1 = 0%N) /\
  LastIndex (st_logs s) = Ok 0%N /\ List_ (st_snaps s) = Ok [].
Proof.
  unfold HasExistingState. destruct (GetUint64 _ _) as [t err]. simpl.
  destruct (read_failed err) eqn:Hr; [by destruct err|].
  destruct (decide (err = None /\ (0 < t)%N)) as [|Hn]; [done|].
  destruct (LastIndex _) as [li|]; [|done]. case_decide; [done|].
  destruct (List_ _) as [l|]; [|done]. intros [= Hl%bool_decide_eq_false].
  split_and!; [done| | |].
  - intros ->. destruct (decide (t = 0)%N); [done|]. destruct Hn. split; [done|lia].
  - f_equal. lia.
  - destruct l; [done|]. by destruct Hl.
Qed.

Lemma fresh_state s : fresh s -> HasExistingState s = Ok false.
Proof.
  intros [_ Ht Hr Hl Hs]. unfold HasExistingState.
  destruct (GetUint64 _ _) as [t err]. simpl in *. rewrite Hr, Hl, Hs. subst t.
  destruct (decide _) as [[_ Hlt]|_]; [lia|]. by case_decide.
Qed.

Lemma bootstrapped_state c s : bootstrapped c s -> HasExistingState s = Ok true.
Proof.
  intros [Ht _ _ _]. unfold HasExistingState. rewrite Ht. cbn [read_failed].
  by rewrite decide_True.
Qed.

Lemma decode_EncodeConfiguration c data :
  EncodeConfiguration c = Ok data -> DecodeConfiguration data = Ok c.
Proof.
  unfold EncodeConfiguration, DecodeConfiguration.
  destruct (encodeMsgPack_configuration c) eqn:HE; [|done]. intros [= <-].
  by rewrite (decode_encode_configuration _ _ HE).
Qed.

(** A successful bootstrap found no state, and left a bootstrapped server's. *)
Lemma BootstrapCluster_Done cf c s s' :
  BootstrapCluster cf c s = Done None s' -> (3 <= ProtocolVersion cf)%Z ->
  store_ok (st_logs s) ->
  ValidateConfig cf = None /\ checkConfiguration c = None /\ HasExistingState s = Ok false /\
  bootstrapped c s' /\ st_snaps s' = st_snaps s /\
  SetUint64 (st_stable s) keyCurrentTerm 1 = (st_stable s', None).
Proof.
  intros HB Hv Hok. unfold BootstrapCluster in HB.
  destruct (ValidateConfig cf) eqn:HV; [done|]. destruct (checkConfiguration c) eqn:HC; [done|].
  destruct (HasExistingState s) as [[]|] eqn:HH; try done.
  destruct (HasExistingState_false _ HH) as (_ & _ & Hl & Hs).
  destruct (SetUint64 _ _ _) as [k [e|]] eqn:HS; [done|].
  unfold bootstrap_entry in HB. rewrite decide_False in HB by lia.
  destruct (EncodeConfiguration c) as [data|] eqn:HE; [|done]. cbn [st_logs st_stable st_snaps] in HB.
  unfold StoreLog in HB. destruct (StoreLogs _ _) as [l [e|]] eqn:HL; [done|].
  injection HB as <-. split_and!; try done. split; simpl.
  - by rewrite (GetUint64_SetUint64 _ _ _ _ HS), decide_True.
  - exact (LastIndex_first _ _ _ Hl HL eq_refl).
  - exists data. split; [|by apply decode_EncodeConfiguration].
    by rewrite (GetLog_StoreLogs _ _ _ _ Hok HL).
  - done.
Qed.

(** The server that starts from bootstrapped stores; [k] is its stable store. *)
Definition bootstrapped_raft (cf : Config) (addr : ServerAddress) (pv : bool)
    (c : Configuration) (s : stores) (k : K) : raft :=
  mkRaft (mkRaftState 1 0 0 0 0 1 1 Follower) (ProtocolVersion cf) cf (LocalID cf) addr 0
    "" "" false (PreVoteDisabled cf || negb pv) (st_logs s) k (st_snaps s)
    (mkConfigurations (mkConfiguration []) 0 c 1) (Some c) [] ∅ [] false.

(** The server that starts from fresh stores. *)
Definition fresh_raft (cf : Config) (addr : ServerAddress) (pv : bool) (s : stores) (k : K)
    : raft :=
  mkRaft (mkRaftState 0 0 0 0 0 0 0 Follower) (ProtocolVersion cf) cf (LocalID cf) addr 0
    "" "" false (PreVoteDisabled cf || negb pv) (st_logs s) k (st_snaps s)
    (mkConfigurations (mkConfiguration []) 0 (mkConfiguration []) 0) None [] ∅ [] false.

Lemma NewRaft_bootstrapped cf addr pv c s k (f : F) :
  ValidateConfig cf = None -> (3 <= ProtocolVersion cf)%Z -> bootstrapped c s ->
  SetUint64 (st_stable s) keyCurrentTerm 1 = (k, None) ->
  NewRaft cf addr pv s f = Done None (bootstrapped_raft cf addr pv c s k, f).
Proof.
  intros HV Hv [Ht Hl (data & He & Hd) Hs] Hk. unfold NewRaft. rewrite HV, Ht, Hl.
  cbn [read_failed]. rewrite decide_True by done. rewrite He.
  rewrite decide_False by lia. unfold start_raft, restoreSnapshot, bind, with_fsm, setCurrentTerm.
  cbn [fst snd]. rewrite setState_eq. cbn. rewrite Hk. cbn. rewrite Hs. cbn.
  rewrite decide_False by (by intros []). cbn [returns fst snd].
  match goal with |- context [scan_configurations ?n ?i ?r] =>
    change (scan_configurations n i r) with (scan_configurations 1 1 r) end.
  unfold scan_configurations, processConfigurationLogEntry, bind. cbn. rewrite He. cbn.
  rewrite Hd. unfold modify. rewrite Configuration_Clone_id. done.
Qed.

Lemma NewRaft_fresh cf addr pv s k (f : F) :
  ValidateConfig cf = None -> (3 <= ProtocolVersion cf)%Z -> fresh s ->
  SetUint64 (st_stable s) keyCurrentTerm 0 = (k, None) ->
  NewRaft cf addr pv s f = Done None (fresh_raft cf addr pv s k, f).
Proof.
  intros HV Hv [_ Ht Hr Hl Hs] Hk. unfold NewRaft. rewrite HV, Hl.
  destruct (GetUint64 _ _) as [t err]. cbn [fst snd] in *. subst t. rewrite Hr.
  rewrite decide_False by lia. rewrite decide_False by lia.
  unfold start_raft, restoreSnapshot, bind, with_fsm, setCurrentTerm.
  cbn [fst snd]. rewrite setState_eq. cbn. rewrite Hk. cbn. rewrite Hs. cbn.
  rewrite decide_False by (by intros []). done.
Qed.

(** A bootstrap refuses stores with any state and otherwise leaves stores from
    which [NewRaft] starts a follower of term 1 whose latest configuration is the
    given one, uncommitted, at index 1; it cannot be repeated, with no configuration,
    and a refused bootstrap changes nothing. *)
Theorem BootstrapCluster_NewRaft cf c addr pv (s s' : stores) k (f : F) :
  BootstrapCluster cf c s = Done None s' -> (3 <= ProtocolVersion cf)%Z ->
  store_ok (st_logs s) -> SetUint64 (st_stable s') keyCurrentTerm 1 = (k, None) ->
  HasExistingState s = Ok false /\
  NewRaft cf addr pv s' f = Done None (bootstrapped_raft cf addr pv c s' k, f) /\
  HasExistingState s' = Ok true /\
  (forall c2, BootstrapCluster cf c2 s' =
     Done (Some (default ErrCantBootstrap (checkConfiguration c2))) s').
Proof.
  intros HB Hv Hok Hk.
  destruct (BootstrapCluster_Done _ _ _ _ HB Hv Hok) as (HV & _ & HH & Hb & _ & _).
  pose proof (bootstrapped_state _ _ Hb) as Ht. split_and!; [done|by apply NewRaft_bootstrapped|done|].
  intros c2. unfold BootstrapCluster. rewrite HV, Ht. by destruct (checkConfiguration c2).
Qed.

(** A stable store whose writes succeed. *)
Context (healthy : forall (k : K) key v, exists k', SetUint64 k key v = (k', None)).

Lemma SetUint64_reads (k k' : K) key v :
  SetUint64 k key v = (k', None) ->
  (forall x, GetUint64 k' x = if decide (x = key) then (v, None) else GetUint64 k x) /\
  (forall x, Get k' x = Get k x).
Proof.
  intros HS. split; [exact (GetUint64_SetUint64 _ _ _ _ HS)|]. intros x.
  pose proof (Get_SetUint64 k key v x) as HG. by rewrite HS in HG.
Qed.

Lemma BootstrapCluster_stable cf c l k k' sn s' :
  (3 <= ProtocolVersion cf)%Z ->
  HasExistingState (mkStores l k' sn) = Ok false ->
  BootstrapCluster cf c (mkStores l k sn) = Done None s' ->
  exists k2, SetUint64 k' keyCurrentTerm 1 = (k2, None) /\
    BootstrapCluster cf c (mkStores l k' sn) = Done None (mkStores (st_logs s') k2 sn).
Proof.
  intros Hv HH. unfold BootstrapCluster. rewrite HH. destruct (ValidateConfig cf); [done|].
  destruct (checkConfiguration c); [done|]. destruct (HasExistingState (mkStores l k sn)) as [[]|]; try done.
  cbn [st_logs st_stable st_snaps]. cbv zeta.
  destruct (SetUint64 k _ _) as [k1 [e|]]; [by intros [=]|]. destruct (healthy k' keyCurrentTerm 1) as [k2 ->].
  destruct (bootstrap_entry cf c); [|done]. cbn [st_logs st_stable st_snaps].
  destruct (StoreLog l _) as [l' [e|]]; [done|]. intros [= <-]. eauto.
Qed.

Lemma fresh_rewritten l k sn k0 :
  fresh (mkStores l k sn) -> SetUint64 k keyCurrentTerm 0 = (k0, None) ->
  fresh (mkStores l k0 sn).
Proof.
  intros [Hok Ht Hr Hl Hs] Hk. split; simpl in *; try done;
    by rewrite (GetUint64_SetUint64 _ _ _ _ Hk), decide_True.
Qed.

Lemma liveBootstrap_fresh cf c addr pv l k0 sn k1 l' :
  (3 <= ProtocolVersion cf)%Z -> hasVote c (LocalID cf) = true ->
  BootstrapCluster cf c (mkStores l k0 sn) = Done None (mkStores l' k1 sn) ->
  bootstrapped c (mkStores l' k1 sn) ->
  exists k2, SetUint64 k1 keyCurrentTerm 1 = (k2, None) /\
    liveBootstrap c (fresh_raft cf addr pv (mkStores l k0 sn) k0) =
      Done None (bootstrapped_raft cf addr pv c (mkStores l' k1 sn) k2).
Proof.
  intros Hv Hvote HB [_ _ (data & He & Hd) _]. destruct (healthy k1 keyCurrentTerm 1) as [k2 Hk].
  exists k2. split; [done|]. unfold liveBootstrap. cbn [localID fresh_raft conf logs stable snapshots].
  cbn in He. rewrite Hvote. cbn. rewrite HB. cbn. rewrite He. unfold bind, setCurrentTerm. cbn.
  rewrite Hk. cbn. unfold processConfigurationLogEntry, bind. cbn. rewrite Hd. cbn.
  unfold modify. rewrite Configuration_Clone_id. done.
Qed.

(** Bootstrapping a running server does what bootstrapping its stores before
    the start does: the two servers have the same state, configurations, log and
    snapshots, and their stable stores have the same contents. *)
Theorem liveBootstrap_equivalent cf c addr pv (s s' : stores) (f : F) :
  (3 <= ProtocolVersion cf)%Z -> fresh s -> hasVote c (LocalID cf) = true ->
  BootstrapCluster cf c s = Done None s' ->
  exists r0 r1 r2,
    NewRaft cf addr pv s f = Done None (r0, f) /\ liveBootstrap c r0 = Done None r1 /\
    NewRaft cf addr pv s' f = Done None (r2, f) /\
    r1 = with_stable (stable r1) r2 /\
    (forall key, GetUint64 (stable r1) key = GetUint64 (stable r2) key) /\
    (forall key, Get (stable r1) key = Get (stable r2) key).
Proof.
  intros Hv Hf Hvote HB. destruct s as [l k sn]. pose proof (fresh_ok _ Hf) as Hok.
  destruct (BootstrapCluster_Done _ _ _ _ HB Hv Hok) as (HV & _ & _ & Hb & Hsn & Hkb).
  destruct (healthy k keyCurrentTerm 0) as [k0 Hk0].
  pose proof (fresh_rewritten _ _ _ _ Hf Hk0) as Hf0.
  destruct (BootstrapCluster_stable _ _ _ _ _ _ _ Hv (fresh_state _ Hf0) HB) as (k1 & Hk1 & HB1).
  destruct (BootstrapCluster_Done _ _ _ _ HB1 Hv (fresh_ok _ Hf0)) as (_ & _ & _ & Hb1 & _).
  destruct (liveBootstrap_fresh _ _ addr pv _ _ _ _ _ Hv Hvote HB1 Hb1) as (k2 & Hk2 & HL).
  destruct (healthy (st_stable s') keyCurrentTerm 1) as [k3 Hk3].
  exists (fresh_raft cf addr pv (mkStores l k sn) k0). do 2 eexists.
  split; [by apply NewRaft_fresh|]. split; [exact HL|].
  split; [by apply NewRaft_bootstrapped|]. cbn [stable bootstrapped_raft].
  split; [unfold bootstrapped_raft; cbn in Hsn |- *; by rewrite Hsn|].
  destruct (SetUint64_reads _ _ _ _ Hk0) as [G0 B0]. destruct (SetUint64_reads _ _ _ _ Hk1) as [G1 B1].
  destruct (SetUint64_reads _ _ _ _ Hk2) as [G2 B2]. destruct (SetUint64_reads _ _ _ _ Hk3) as [G3 B3].
  destruct (SetUint64_reads _ _ _ _ Hkb) as [G4 B4]. split; intros key.
  - rewrite G2, G1, G0, G3, G4. by case_decide.
  - by rewrite B2, B1, B0, B3, B4.
Qed.
End Bootstrap.

(** ** Recovering *)

(** [FSM.Apply] for an entry that is a command. *)
Definition apply_command {F SN} `{SnapshotStore SN} `{!FSM F SN} (f : F) (e : Log) : F :=
  if decide (log_Type e = LogCommand) then (Apply f e).1 else f.

(** A state machine whose snapshots write to the sink without an error and restore
    the state they were taken of. *)
Class FSMSnapshotLaw (F SN : Type) `{SnapshotStore SN} `{!FSM F SN} := {
  Snapshot_Restore f f' persist :
    Snapshot f = (f', Ok persist) -> exists ps,
    (forall sink m, persist sink m = (write_all sink ps;; returns None)%go m) /\
    (forall g, Restore g (concat_strings ps) = (f', None))
}.

Section RecoverLog.
Context {L SN F : Type} `{!LogStore L} `{!SnapshotStore SN} `{!FSM F SN}.

Lemma recover_log_Done (store : L) n i li lt (f f' : F) res :
  recover_log store n i li lt f = (Ok res, f') ->
  n = 0%nat \/ (i + N.of_nat n < u64_size)%N ->
  exists es, length es = n /\
    (forall k e, es !! k = Some e -> GetLog store (i + N.of_nat k) = Ok e) /\
    f' = foldl apply_command f es /\
    res = from_option (fun e => (log_Index e, log_Term e)) (li, lt) (last es).
Proof.
  revert i li lt f. induction n as [|n IH]; intros i li lt f; cbn [recover_log].
  { intros [= <- <-] _. by exists []. }
  destruct (GetLog store i) as [e|] eqn:He; [|done]. intros HR [|Hlt]; [done|].
  apply IH in HR as (es & Hl & Hg & -> & ->).
  2:{ right. rewrite u64_add_small by lia. lia. }
  exists (e :: es). split_and!; [simpl; lia| | |].
  - intros [|k] e' Hk; simpl in Hk; [by simplify_eq; rewrite N.add_0_r|].
    rewrite <- (Hg _ _ Hk). rewrite u64_add_small by (apply lookup_lt_Some in Hk; lia).
    f_equal. lia.
  - done.
  - rewrite last_cons. by destruct (last es).
Qed.
End RecoverLog.

Section Recover.
Context {K F : Type} `{!StableStore K} `{!StableStoreLaws K} `{!MsgPack} `{!PeerCodec}
  `{!FSM F InmemSnapshotStore} `{!FSMSnapshotLaw F InmemSnapshotStore}.
Abbreviation stores := (Stores InmemStore K InmemSnapshotStore).

Lemma recover_write_inmem msec li lt c persist ps (m m' : InmemSnapshotStore) :
  (forall sink m, persist sink m = (write_all sink ps;; returns None)%go m) ->
  recover_write msec 1 li lt c persist m = Done None m' ->
  exists peers, let meta := mkSnapshotMeta 1 (snapshotName msec lt li) li lt peers c 1
                              (total_length ps) in
    List_ m' = Ok [meta] /\ Open m' (sm_ID meta) = Ok (meta, concat_strings ps).
Proof.
  intros Hp. unfold recover_write, bind at 1. simpl. unfold inmem_Create. simpl.
  destruct (encodePeers c) as [peers|] eqn:He; [|done]. intros HE. exists peers.
  set (s0 := mkInmemSnapshotSink _ _) in HE.
  assert ((iss_sinks m ++ [s0]) !! length (iss_sinks m) = Some s0) as Hs.
  { rewrite lookup_app_r by done. by rewrite Nat.sub_diag. }
  unfold bind at 1 in HE. rewrite Hp in HE. unfold bind at 1 in HE.
  rewrite (write_all_inmem _ _ _ _ _ s0) in HE by done. injection HE as <-.
  unfold List_, Open. simpl. unfold inmem_List, inmem_Open, inmem_latest. simpl.
  rewrite list_lookup_insert_eq by (rewrite length_app; simpl; lia). simpl.
  by rewrite decide_False by tauto.
Qed.

(** What a successful recovery went through. *)
Inductive recovery (msec : Z) (cf : Config) (c : Configuration) (s : stores) (f : F)
    (s' : stores) (f' : F) (li lt : N) : Prop :=
  | recovered metas si st f0 f1 persist :
      ValidateConfig cf = None -> List_ (st_snaps s) = Ok metas ->
      recover_snapshot (st_snaps s) metas f = ((si, st), f0) ->
      recover_log (st_logs s) (N.to_nat (highIndex (st_logs s) + 1 - u64_add si 1))
        (u64_add si 1) si st f0 = (Ok (li, lt), f1) ->
      Snapshot f1 = (f', Ok persist) ->
      recover_write msec (getSnapshotVersion (ProtocolVersion cf)) li lt c persist (st_snaps s)
        = Done None (st_snaps s') ->
      st_logs s' =
        (inmem_DeleteRange (st_logs s) (lowIndex (st_logs s)) (highIndex (st_logs s))).1 ->
      st_stable s' = st_stable s -> recovery msec cf c s f s' f' li lt.

Lemma RecoverCluster_recovery msec cf c s f s' f' :
  RecoverCluster msec cf c s f = Done None (s', f') ->
  exists li lt, recovery msec cf c s f s' f' li lt.
Proof.
  unfold RecoverCluster. destruct (ValidateConfig cf) eqn:HV; [done|].
  destruct (checkConfiguration c); [done|]. destruct (HasExistingState s) as [[]|]; try done.
  destruct (List_ (st_snaps s)) as [metas|] eqn:HL; [|done]. unfold recover_stores.
  destruct (recover_snapshot _ _ _) as [[si st] f0] eqn:HS. cbv zeta. case_decide; [done|].
  cbn [LastIndex InmemStore_LogStore].
  destruct (recover_log _ _ _ _ _ _) as [[[li lt]|] f1] eqn:HR; [|done].
  destruct (Snapshot f1) as [f2 [persist|]] eqn:HP; [|done].
  destruct (recover_write _ _ _ _ _ _ _) as [[e|] sn|sn] eqn:HW; try done.
  cbn [FirstIndex DeleteRange InmemStore_LogStore].
  destruct (inmem_DeleteRange _ _ _) as [l [e|]] eqn:HD; [done|]. intros [= <- <-].
  exists li, lt. by econstructor; try done; simpl; rewrite ?HD.
Qed.

Lemma recover_snapshot_Index (snaps : InmemSnapshotStore) metas (f : F) si st f0 :
  recover_snapshot snaps metas f = ((si, st), f0) ->
  si = 0%N \/ exists meta, meta ∈ metas /\ si = sm_Index meta.
Proof.
  revert f. induction metas as [|m metas IH]; intros f; cbn [recover_snapshot].
  { intros [= <- _ _]. by left. }
  intros HE.
  assert (si = sm_Index m \/ exists f, recover_snapshot snaps metas f = ((si, st), f0)) as [Hsi|[g Hg]].
  { destruct (Open _ _) as [[? src]|]; [|by eauto].
    destruct (Restore f src) as [f2 [e|]]; [by eauto|]. injection HE as <- _ _. by left. }
  - right. exists m. split; [left|done].
  - destruct (IH _ Hg) as [|(m' & Hm & ?)]; [by left|]. right. exists m'. split; [by right|done].
Qed.

(** The server that starts from recovered stores. *)
Definition recovered_raft (cf : Config) (addr : ServerAddress) (pv : bool) (c : Configuration)
    (term li lt : N) (s : stores) (k : K) : Raft InmemStore K InmemSnapshotStore :=
  mkRaft (mkRaftState term 0 li li lt 0 0 Follower) (ProtocolVersion cf) cf (LocalID cf) addr 0
    "" "" false (PreVoteDisabled cf || negb pv) (st_logs s) k (st_snaps s)
    (mkConfigurations c 1 c 1) (Some c) [] ∅ [] false.

Lemma NewRaft_recovered cf addr pv c term (s : stores) k (g f : F) meta src :
  ValidateConfig cf = None -> (3 <= ProtocolVersion cf)%Z ->
  NoSnapshotRestoreOnStart cf = false ->
  GetUint64 (st_stable s) keyCurrentTerm = (term, None) ->
  SetUint64 (st_stable s) keyCurrentTerm term = (k, None) ->
  highIndex (st_logs s) = 0%N -> List_ (st_snaps s) = Ok [meta] ->
  Open (st_snaps s) (sm_ID meta) = Ok (meta, src) -> Restore g src = (f, None) ->
  sm_Version meta = 1%Z -> sm_Configuration meta = c -> sm_ConfigurationIndex meta = 1%N ->
  (sm_Index meta + 1 < u64_size)%N ->
  NewRaft cf addr pv s g =
    Done None (recovered_raft cf addr pv c term (sm_Index meta) (sm_Term meta) s k, f).
Proof.
  intros HV Hv Hno Ht Hk Hh HL HO HR Hver <- Hci Hlt. unfold NewRaft. rewrite HV, Ht.
  cbn [read_failed LastIndex InmemStore_LogStore]. rewrite Hh. rewrite decide_False by lia.
  rewrite decide_False by lia. unfold start_raft, restoreSnapshot, bind, with_fsm, setCurrentTerm.
  cbn [fst snd]. rewrite setState_eq. cbn -[List_ Open]. rewrite Hk. cbn -[List_ Open].
  rewrite HL. unfold restore_loop, tryRestoreSingleSnapshot, bind. cbn -[List_ Open].
  rewrite Hno, HO, HR. cbn -[List_ Open u64_add]. rewrite Hver, Hci. cbn -[u64_add].
  rewrite decide_True by done. cbn -[u64_add]. rewrite Configuration_Clone_id.
  match goal with |- context [N.to_nat ?n] => assert (N.to_nat n = 0%nat) as -> end.
  { rewrite u64_add_small by done. lia. }
  done.
Qed.

Lemma inmem_DeleteRange_all (l : InmemStore) :
  (0 < lowIndex l <= highIndex l)%N -> (highIndex l + 1 < u64_size)%N ->
  highIndex (inmem_DeleteRange l (lowIndex l) (highIndex l)).1 = 0%N.
Proof.
  intros Hl Hh. unfold inmem_DeleteRange.
  rewrite u64_add_small, u64_sub_small by (unfold in_u64; lia).
  repeat case_decide; simpl; lia.
Qed.

(** The entries that recovery replays onto the state machine. *)
Definition replayed (l : InmemStore) (si : N) (es : list Log) : Prop :=
  length es = N.to_nat (highIndex l + 1 - u64_add si 1) /\
  forall k e, es !! k = Some e -> GetLog l (u64_add si 1 + N.of_nat k) = Ok e.

Lemma recovered_index (s : stores) metas f si st f0 es li lt :
  List_ (st_snaps s) = Ok metas -> recover_snapshot (st_snaps s) metas f = ((si, st), f0) ->
  replayed (st_logs s) si es ->
  (li, lt) = from_option (fun e => (log_Index e, log_Term e)) (si, st) (last es) ->
  inmem_ok (st_logs s) -> (highIndex (st_logs s) + 1 < u64_size)%N ->
  (sm_Index (iss_meta (inmem_latest (st_snaps s))) + 1 < u64_size)%N -> (li + 1 < u64_size)%N.
Proof.
  intros HL HS [Hlen Hes] Hlast Hok Hhigh Hsnap. destruct (last es) as [e|] eqn:He.
  - injection Hlast as -> _. rewrite last_lookup in He. pose proof (lookup_lt_Some _ _ _ He).
    assert (log_Index e = u64_add si 1 + N.of_nat (pred (length es)))%N as ->; [|lia].
    eapply (GetLog_Index (st_logs s)); [exact Hok|by apply Hes].
  - injection Hlast as -> _. destruct (recover_snapshot_Index _ _ _ _ _ _ HS) as [->|(m & Hm & ->)].
    { done. }
    simpl in HL. unfold inmem_List in HL. destruct (iss_hasSnapshot _); simpl in HL;
      injection HL as <-; [apply list_elem_of_singleton in Hm as ->; done|by apply elem_of_nil in Hm].
Qed.


(** [RecoverCluster] on an [InmemStore] without log entries, which is what a
    recovery leaves, reports success and leaves stores from which no server starts:
    it deletes the range from 0 to 0, after which the store reports the last index
    [2^64-1]. *)
Theorem RecoverCluster_empty_log msec cf c cf' addr pv (s s' : stores) (f f' g : F) :
  RecoverCluster msec cf c s f = Done None (s', f') ->
  lowIndex (st_logs s) = 0%N -> highIndex (st_logs s) = 0%N -> im_logs (st_logs s) = ∅ ->
  LastIndex (st_logs s') = Ok (u64_size - 1)%N /\
  exists err, NewRaft cf' addr pv s' g = Done (Some err) (new_struct cf' addr pv s', g).
Proof.
  intros (li & lt & [metas si st f0 f1 persist _ _ _ _ _ _ Hl _])%RecoverCluster_recovery Hlo Hhi Hm.
  rewrite Hlo, Hhi in Hl.
  assert (highIndex (st_logs s') = (u64_size - 1)%N /\ im_logs (st_logs s') = ∅) as [Hh Hlogs].
  { rewrite Hl. unfold inmem_DeleteRange. rewrite Hlo, Hhi, Hm. vm_compute. done. }
  simpl. rewrite Hh. split; [done|]. unfold NewRaft.
  destruct (ValidateConfig cf'); [eauto|]. destruct (GetUint64 _ _) as [t err].
  destruct (if read_failed err then err else None); [eauto|]. cbn [LastIndex InmemStore_LogStore].
  rewrite Hh, decide_True by done. cbn [GetLog InmemStore_LogStore]. unfold inmem_GetLog.
  rewrite Hlogs, lookup_empty. eauto.
Qed.
End Recover.

(** ** Concrete servers *)

#[local] Existing Instance bitsMsgPack.
#[local] Existing Instance inmemPeerCodec.
#[local] Existing Instance bitsMsgPackLaws.

(** A state machine that appends its commands to a string. *)
#[local] Instance text_FSM : FSM string InmemSnapshotStore := {|
  Response := unit;
  Apply f l := (f +:+ log_Data l, tt);
  ApplyBatch := None;
  StoreConfiguration := None;
  Snapshot f := (f, Ok (fun sink => (sink_Write sink f;; returns None)%go));
  Restore _ source := (source, None)
|}.

#[local] Instance text_FSMSnapshotLaw : FSMSnapshotLaw string InmemSnapshotStore.
Proof.
  split. intros f f' persist [= <- <-]. exists [f]. split.
  - done.
  - intros g. simpl. by rewrite string_app_nil_r.
Qed.

Definition empty_stores : Stores InmemStore InmemStore InmemSnapshotStore :=
  mkStores NewInmemStore NewInmemStore NewInmemSnapshotStore.

Lemma inmem_healthy (k : InmemStore) key v : exists k', SetUint64 k key v = (k', None).
Proof. by eexists. Qed.


Lemma BootstrapCluster_NewRaft_witness :
  exists s' r, BootstrapCluster config_a trio empty_stores = Done None s' /\
    NewRaft config_a "addr-a" true s' "" = Done None (r, "") /\
    latest_of r = trio /\ HasExistingState s' = Ok true.
Proof.
  destruct (BootstrapCluster config_a trio empty_stores) as [[e|] s'|s'] eqn:HB;
    [exfalso; vm_compute in HB; congruence| |exfalso; vm_compute in HB; congruence].
  destruct (inmem_healthy (st_stable s') keyCurrentTerm 1) as [k Hk].
  destruct (BootstrapCluster_NewRaft config_a trio "addr-a" true empty_stores s' k ""
    HB ltac:(done) (inmem_stored []) Hk) as (_ & HN & HH & _).
  exists s'. eexists. split; [reflexivity|]. split; [exact HN|]. split; [reflexivity|exact HH].
Defined.

Lemma liveBootstrap_equivalent_witness :
  exists r1 r2 : Raft InmemStore InmemStore InmemSnapshotStore,
    raft_state r1 = raft_state r2 /\ latest_of r1 = trio /\
    liveBootstrap trio (fresh_raft config_a "addr-a" true empty_stores
      (SetUint64 NewInmemStore keyCurrentTerm 0).1) = Done None r1.
Proof.
  destruct (BootstrapCluster config_a trio empty_stores) as [[e|] s'|s'] eqn:HB;
    [exfalso; vm_compute in HB; congruence| |exfalso; vm_compute in HB; congruence].
  destruct (liveBootstrap_equivalent inmem_healthy config_a trio "addr-a" true empty_stores s' "")
    as (r0 & r1 & r2 & HN & HL & _ & Hr & _); [done| |done|exact HB|].
  { split; [apply (inmem_stored [])|done..]. }
  exists r1, r2. split; [by rewrite Hr|].
  vm_compute in HN. injection HN as <-. split; [|exact HL].
  vm_compute in HL. injection HL as <-. reflexivity.
Defined.

(** A server with a snapshot up to index 2 and the log of [log_b]. *)
Definition crashed_stores : Stores InmemStore InmemStore InmemSnapshotStore :=
  mkStores (inmem_StoreLogs_loop NewInmemStore log_b) disk_a
    (mkInmemSnapshotStore [mkInmemSnapshotSink
       (mkSnapshotMeta 1 "1-2-0" 2 1 "" trio 1 2) "xy"] 0 true).

Definition solo : Configuration := mkConfiguration [mkServer Voter "a" "addr-a"].


(** The same server after its recovery: its log is empty. *)
Definition recovered_stores : Stores InmemStore InmemStore InmemSnapshotStore :=
  mkStores NewInmemStore disk_a (st_snaps crashed_stores).

Lemma RecoverCluster_empty_log_witness :
  exists s' err, RecoverCluster 9 config_a solo recovered_stores "" = Done None (s', "xy") /\
    NewRaft config_a "addr-a" true s' "" =
      Done (Some err) (new_struct config_a "addr-a" true s', "").
Proof.
  destruct (RecoverCluster 9 config_a solo recovered_stores "") as [[e|] [s' f']|[s' f']] eqn:HB;
    [exfalso; vm_compute in HB; congruence| |exfalso; vm_compute in HB; congruence].
  assert (f' = "xy") as -> by (vm_compute in HB; congruence).
  destruct (RecoverCluster_empty_log 9 config_a solo config_a "addr-a" true recovered_stores s' ""
    "xy" "" HB eq_refl eq_refl eq_refl) as [_ [err HN]].
  exists s', err. split; [reflexivity|exact HN].
Defined.
