(* ===== verification/Futures.v ===== *)
(** * Futures and the calls that hand them over, [future.go] and [api.go]

    A future is answered once through a channel of capacity one.  The calls of the API
    make a future and offer it to a loop of the server, in a [select] with a timer and
    the shutdown of the server. *)
From S2P Require Import Prelude Types Util Codec Configuration Config Stores State Elections AppendEntries SnapshotStores Snapshot Replication Leader Api Cluster.

(** ** Futures *)

(** A channel of errors of capacity one: what it holds and whether it is closed. *)
Record errChan := mkErrChan {
  ec_buffer : option (option error);
  ec_closed : bool
}.

(** [errCh] is nil before [init]; [ShutdownCh] is nil or the server's channel, here
    whether it is closed. *)
Record deferError := mkDeferError {
  de_err : option error;
  de_errCh : option errChan;
  de_responded : bool;
  de_ShutdownCh : option bool
}.

Definition new_deferError (shutdownCh : option bool) : deferError :=
  mkDeferError None None false shutdownCh.

Definition deferError_init (d : deferError) : deferError :=
  mkDeferError (de_err d) (Some (mkErrChan None false)) (de_responded d) (de_ShutdownCh d).

(** A send waits on a full channel and panics on a closed one. *)
Inductive attempt (A : Type) := Does (a : A) | Waits | Panics.
Arguments Does {A} a.
Arguments Waits {A}.
Arguments Panics {A}.

Definition deferError_respond (err : option error) (d : deferError) : attempt deferError :=
  match de_errCh d with
  | None => Does d
  | Some ch =>
      if de_responded d then Does d
      else if ec_closed ch then Panics
      else match ec_buffer ch with
           | Some _ => Waits
           | None => Does (mkDeferError (de_err d) (Some (mkErrChan (Some err) true)) true
                             (de_ShutdownCh d))
           end
  end.

(** A call of [Error] that returns, with what it returns. *)
Inductive deferError_Error : deferError -> option error -> deferError -> Prop :=
  | Error_again e ch re sh :
      deferError_Error (mkDeferError (Some e) ch re sh) (Some e) (mkDeferError (Some e) ch re sh)
  | Error_receive x cl re sh :
      deferError_Error (mkDeferError None (Some (mkErrChan (Some x) cl)) re sh) x
        (mkDeferError x (Some (mkErrChan None cl)) re sh)
  | Error_closed re sh :
      deferError_Error (mkDeferError None (Some (mkErrChan None true)) re sh) None
        (mkDeferError None (Some (mkErrChan None true)) re sh)
  | Error_shutdown ch re :
      deferError_Error (mkDeferError None (Some ch) re (Some true)) (Some ErrRaftShutdown)
        (mkDeferError (Some ErrRaftShutdown) (Some ch) re (Some true)).

(** What can happen to a future: an answer, a call of [Error] that returns, and the
    shutdown of the server. *)
Inductive future_event :=
  | fe_respond (err : option error)
  | fe_Error (result : option error)
  | fe_shutdown.

Inductive future_step : deferError -> future_event -> deferError -> Prop :=
  | future_respond d err d' :
      deferError_respond err d = Does d' -> future_step d (fe_respond err) d'
  | future_Error d res d' : deferError_Error d res d' -> future_step d (fe_Error res) d'
  | future_shutdown err ch re b :
      future_step (mkDeferError err ch re (Some b)) fe_shutdown
        (mkDeferError err ch re (Some true)).

Inductive future_trace : deferError -> list future_event -> deferError -> Prop :=
  | trace_nil d : future_trace d [] d
  | trace_cons d e d1 es d2 :
      future_step d e d1 -> future_trace d1 es d2 -> future_trace d (e :: es) d2.

(** The first answer, if there is one. *)
Fixpoint first_response (es : list future_event) : option (option error) :=
  match es with
  | [] => None
  | fe_respond err :: _ => Some err
  | _ :: es => first_response es
  end.

(** [userSnapshotFuture.Open]: the opener is used once. *)
Definition userSnapshot_Open {A} (opener : option (result A)) : result A * option (result A) :=
  match opener with
  | None => (Err (Errorf "no snapshot available"), None)
  | Some res => (res, None)
  end.

(** ** Offering a future to the server *)

(** What the [select] of a call finds ready. *)
Inductive offer := timer_fired | server_shutdown | taken.

(** A timer exists only for a positive timeout. *)
Definition can_fire (timeout : Z) (o : offer) : Prop :=
  match o with timer_fired => (0 < timeout)%Z | _ => True end.

(** The error that the call returns at once, or the entry that was handed over. *)
Definition ApplyLog (log : Log) (o : offer) : result Log :=
  match o with
  | timer_fired => Err ErrEnqueueTimeout
  | server_shutdown => Err ErrRaftShutdown
  | taken => Ok (mkLog 0 0 LogCommand (log_Data log) (log_Extensions log) 0)
  end.

Definition api_Apply (cmd : string) (o : offer) : result Log :=
  ApplyLog (mkLog 0 0 LogCommand cmd "" 0) o.

Definition api_Barrier (o : offer) : result Log :=
  match o with
  | timer_fired => Err ErrEnqueueTimeout
  | server_shutdown => Err ErrRaftShutdown
  | taken => Ok (mkLog 0 0 LogBarrier "" "" 0)
  end.

(** [VerifyLeader], [BootstrapCluster] and [Snapshot] have no timer. *)
Definition api_hand_over {A} (x : A) (o : offer) : result A :=
  match o with
  | taken => Ok x
  | _ => Err ErrRaftShutdown
  end.

Definition requestConfigChange (req : configurationChangeRequest) (o : offer)
    : result configurationChangeRequest :=
  match o with
  | timer_fired => Err ErrEnqueueTimeout
  | server_shutdown => Err ErrRaftShutdown
  | taken => Ok req
  end.

(** [Restore]: the restore, what the server answers to it, and then the no-op with its
    own [select]; [Ok] is the no-op that was handed over. *)
Definition api_Restore (o1 : offer) (answer : option error) (o2 : offer) : result Log :=
  match o1 with
  | timer_fired => Err ErrEnqueueTimeout
  | server_shutdown => Err ErrRaftShutdown
  | taken =>
      match answer with
      | Some err => Err err
      | None =>
          match o2 with
          | timer_fired => Err ErrEnqueueTimeout
          | server_shutdown => Err ErrRaftShutdown
          | taken => Ok (mkLog 0 0 LogNoop "" "" 0)
          end
      end
  end.

Section Api.
Context {L K SN : Type}.
Abbreviation raft := (Raft L K SN).

(** [configurationsFuture] *)
Record configurationsFuture := mkConfigurationsFuture {
  cf_deferError : deferError;
  cf_configurations : configurations
}.

Definition future_Configuration (c : configurationsFuture) : Configuration :=
  latest (cf_configurations c).
Definition future_Index (c : configurationsFuture) : N := latestIndex (cf_configurations c).

Definition zero_configuration : Configuration := mkConfiguration [].

Definition GetConfiguration (r : raft) : attempt configurationsFuture :=
  let c := mkConfigurations zero_configuration 0 (getLatestConfiguration r) 0 in
  match deferError_respond None (deferError_init (new_deferError None)) with
  | Does d => Does (mkConfigurationsFuture d c)
  | Waits => Waits
  | Panics => Panics
  end.

(** The loop of [Stats] over the servers: whether we are a voter, and the other voters. *)
Fixpoint count_peers (localID : ServerID) (servers : list Server) (hasUs : bool) (numPeers : N)
    : bool * N :=
  match servers with
  | [] => (hasUs, numPeers)
  | server :: servers =>
      if decide (Suffrage server = Voter) then
        if decide (ID server = localID) then count_peers localID servers true numPeers
        else count_peers localID servers hasUs (numPeers + 1)
      else count_peers localID servers hasUs numPeers
  end.

Definition stats_num_peers (r : raft) : N :=
  let '(hasUs, numPeers) := count_peers (localID r) (Servers (getLatestConfiguration r)) false 0 in
  if hasUs then numPeers else 0.

Definition api_LeadershipTransfer (r : raft) (id : option ServerID) : option error :=
  if decide (protocolVersion r < 3)%Z then Some ErrUnsupportedProtocol
  else initiateLeadershipTransfer r id.
End Api.

(** ** Facts: futures *)

(** A call of [Error] gave up because of the shutdown. *)
Definition gave_up (d : deferError) : Prop :=
  de_err d = Some ErrRaftShutdown /\ de_ShutdownCh d = Some true.

(** An initialised future after the first answer [first], if any. *)
Definition future_ok (first : option (option error)) (d : deferError) : Prop :=
  match first with
  | None => de_errCh d = Some (mkErrChan None false) /\ de_responded d = false /\
      (de_err d = None \/ gave_up d)
  | Some e => de_responded d = true /\
      (de_errCh d = Some (mkErrChan (Some e) true) /\ (de_err d = None \/ gave_up d) \/
       de_errCh d = Some (mkErrChan None true) /\ (de_err d = e \/ gave_up d))
  end.

Definition or_else (first : option (option error)) (e : future_event) : option (option error) :=
  match first, e with
  | None, fe_respond err => Some err
  | _, _ => first
  end.

Lemma future_step_ok first d e d' :
  future_ok first d -> future_step d e d' ->
  future_ok (or_else first e) d' /\
  forall res, e = fe_Error res ->
    first = Some res \/ res = Some ErrRaftShutdown /\ de_ShutdownCh d = Some true.
Proof.
  intros Hok Hstep. destruct Hstep as [d err d' Hr|d res d' He|err ch re b].
  - split; [|done]. unfold deferError_respond in Hr. destruct first as [e|]; simpl in Hok |- *.
    + assert (d' = d) as ->; [|done]. destruct Hok as [Hre Hok]. rewrite Hre in Hr.
      destruct Hok as [[Hch _]|[Hch _]]; rewrite Hch in Hr; congruence.
    + destruct Hok as (Hch & Hre & He). rewrite Hch, Hre in Hr. injection Hr as <-. simpl.
      split; [done|]. left. split; [done|]. destruct He as [|[]]; [by left|by right].
  - unfold gave_up in *. destruct He as [e ch re sh|x cl re sh|re sh|ch re];
      unfold future_ok, gave_up in *; destruct first as [e'|]; simpl in *; naive_solver.
  - split; [|done]. unfold future_ok, gave_up in *. destruct first; simpl in *; naive_solver.
Qed.

Lemma first_response_cons e es :
  first_response (e :: es) = match e with fe_respond err => Some err | _ => first_response es end.
Proof. by destruct e. Qed.

Lemma future_step_shutdownCh d e d' :
  future_step d e d' -> de_ShutdownCh d = None -> de_ShutdownCh d' = None.
Proof.
  destruct 1 as [d err d' Hr|d res d' He|]; [|by destruct He|done].
  unfold deferError_respond in Hr. destruct (de_errCh d) as [ch|]; [|congruence].
  destruct (de_responded d); [congruence|]. destruct (ec_closed ch), (ec_buffer ch); try done.
  by injection Hr as <-.
Qed.

Lemma future_trace_ok first d es d' :
  future_ok first d -> de_ShutdownCh d = None -> future_trace d es d' ->
  (exists first', future_ok first' d') /\
  forall res, fe_Error res ∈ es ->
    (match first with Some e => Some e | None => first_response es end) = Some res.
Proof.
  intros Hok Hsh Htr. revert first Hok Hsh.
  induction Htr as [d|d e d1 es d2 Hstep _ IH]; intros first Hok Hsh.
  { split; [eauto|]. intros res Hin. by apply elem_of_nil in Hin. }
  destruct (future_step_ok first d e d1 Hok Hstep) as [Hok1 Hres].
  destruct (IH _ Hok1 (future_step_shutdownCh _ _ _ Hstep Hsh)) as [Hex Hall].
  split; [done|]. intros res [<-|Hin]%elem_of_cons.
  - destruct (Hres res eq_refl) as [->|[_ Hx]]; [done|congruence].
  - specialize (Hall res Hin). rewrite first_response_cons. by destruct first, e.
Qed.

Lemma future_never_stuck first d err : future_ok first d -> exists d', deferError_respond err d = Does d'.
Proof.
  unfold deferError_respond. destruct first as [e|]; simpl.
  - intros [-> [[-> _]|[-> _]]]; by eexists.
  - intros (-> & -> & _). by eexists.
Qed.

(** A future has one answer.  However often a future of the API is answered and
    however often [Error] is called on it, in any order, every call of [Error] that
    returns gives the first answer, none returns before it, and an answer neither
    waits nor panics. *)
Theorem future_single_answer es d :
  future_trace (deferError_init (new_deferError None)) es d ->
  (forall res, fe_Error res ∈ es -> first_response es = Some res) /\
  forall err, exists d', deferError_respond err d = Does d'.
Proof.
  intros Htr.
  assert (future_ok None (deferError_init (new_deferError None))) as Hnew by (simpl; auto).
  destruct (future_trace_ok None _ es d Hnew eq_refl Htr) as [[first Hok] Hall]. split; [exact Hall|]. intros err. by eapply future_never_stuck.
Qed.

(** A future with the server's [ShutdownCh] can return nil first and [ErrRaftShutdown]
    in a later call. *)
Lemma future_shutdown_differs :
  exists es d, future_trace (deferError_init (new_deferError (Some false))) es d /\
    fe_Error None ∈ es /\ fe_Error (Some ErrRaftShutdown) ∈ es.
Proof.
  exists [fe_respond None; fe_Error None; fe_shutdown; fe_Error (Some ErrRaftShutdown)].
  eexists. split; [|set_solver].
  eapply trace_cons; [by apply future_respond|]. eapply trace_cons; [apply future_Error, Error_receive|].
  eapply trace_cons; [apply future_shutdown|]. eapply trace_cons; [apply future_Error, Error_shutdown|].
  apply trace_nil.
Qed.

(** ** Facts: the API *)

Section ApiFacts.
Context {L K SN : Type}.
Abbreviation raft := (Raft L K SN).

(** [GetConfiguration] loses the index.  The future has the latest configuration of
    the server, but its [Index] is 0 whatever the index of that configuration; a
    membership change with this index as its [prevIndex], which is to say that
    the change applies to that configuration only, is accepted for every later
    configuration just as well. *)
Theorem GetConfiguration_index_unchecked (r : raft) :
  exists c, GetConfiguration r = Does c /\ future_Configuration c = getLatestConfiguration r /\
    future_Index c = 0%N /\
    forall change current i j, prevIndex change = future_Index c ->
      nextConfiguration current i change = nextConfiguration current j change.
Proof.
  eexists. split; [reflexivity|]. split; [done|]. split; [done|]. intros change current i j Hp.
  simpl in Hp. unfold nextConfiguration. rewrite Hp.
  rewrite (decide_False (P := (0 < 0 /\ 0 <> i)%N)) by lia.
  by rewrite (decide_False (P := (0 < 0 /\ 0 <> j)%N)) by lia.
Qed.

Lemma count_peers_spec id servers hasUs n :
  count_peers id servers hasUs n =
    (hasUs || bool_decide (Exists (fun s => Suffrage s = Voter /\ ID s = id) servers),
     (n + N.of_nat (length (filter (fun s => Suffrage s = Voter /\ ID s <> id) servers)))%N).
Proof.
  revert hasUs n. induction servers as [|s servers IH]; intros hasUs n.
  { simpl. by rewrite orb_false_r, N.add_0_r. }
  cbn [count_peers]. rewrite filter_cons.
  assert (bool_decide (Exists (fun s => Suffrage s = Voter /\ ID s = id) (s :: servers)) =
    bool_decide (Suffrage s = Voter /\ ID s = id) ||
    bool_decide (Exists (fun s => Suffrage s = Voter /\ ID s = id) servers)) as ->.
  { rewrite <- bool_decide_or. apply bool_decide_ext. apply Exists_cons. }
  repeat case_decide; rewrite IH; f_equal; simpl; try tauto; try lia.
  all: try (rewrite bool_decide_false by tauto; done).
  all: try (rewrite bool_decide_true by tauto; by rewrite orb_true_r).
Qed.

Lemma stats_num_peers_spec (r : raft) :
  stats_num_peers r =
    if bool_decide (Exists (fun s => Suffrage s = Voter /\ ID s = localID r)
         (Servers (getLatestConfiguration r)))
    then N.of_nat (length (filter (fun s => Suffrage s = Voter /\ ID s <> localID r)
           (Servers (getLatestConfiguration r))))
    else 0%N.
Proof. unfold stats_num_peers. rewrite count_peers_spec. simpl. by case_bool_decide. Qed.
End ApiFacts.

(** ** Witnesses *)

Lemma future_single_answer_witness :
  let es := [fe_respond (Some ErrNotLeader); fe_Error (Some ErrNotLeader); fe_respond None;
             fe_Error (Some ErrNotLeader)] in
  exists d, future_trace (deferError_init (new_deferError None)) es d /\
    (forall res, fe_Error res ∈ es -> first_response es = Some res) /\
    forall err, exists d', deferError_respond err d = Does d'.
Proof.
  cbv zeta.
  assert (exists d, future_trace (deferError_init (new_deferError None))
    [fe_respond (Some ErrNotLeader); fe_Error (Some ErrNotLeader); fe_respond None;
     fe_Error (Some ErrNotLeader)] d) as [d Htr].
  { eexists. eapply trace_cons; [by apply future_respond|].
    eapply trace_cons; [apply future_Error, Error_receive|].
    eapply trace_cons; [by apply future_respond|].
    eapply trace_cons; [apply future_Error, Error_again|]. apply trace_nil. }
  exists d. split; [exact Htr|]. exact (future_single_answer _ _ Htr).
Defined.
