(* ===== verification/Fmt.v ===== *)
(** * Formatting without operands, as [fmt] does it

    [fmt.Errorf(s)] reads [s] as a format.  This is [doPrintf] of Go's [fmt] package
    for a call without operands: what it makes of the verbs it meets. *)
From Stdlib Require Import Ascii.
From S2P Require Import Prelude.

Definition byte_at (s : string) : option N :=
  match s with EmptyString => None | String c _ => Some (N_of_ascii c) end.

Definition is_byte (b : N) (s : string) : bool := bool_decide (byte_at s = Some b).

Definition string_tail (s : string) : string :=
  match s with EmptyString => "" | String _ s => s end.

(** The flags ['#', '0', '+', '-', ' ']. *)
Definition is_flag (c : ascii) : bool :=
  bool_decide (N_of_ascii c ∈ [35; 48; 43; 45; 32]%N).

Fixpoint skip_flags (s : string) : string :=
  match s with
  | String c s' => if is_flag c then skip_flags s' else s
  | EmptyString => ""
  end.

(** [parsenum]: the number at the front, if there is one, and what follows it; a
    number that is too large skips everything. *)
Fixpoint parsenum (s : string) (num : N) (isnum : bool) : option N * string :=
  match s with
  | String c s' =>
      let b := N_of_ascii c in
      if decide (48 <= b <= 57)%N then
        if decide (1000000 < num)%N then (None, "")
        else parsenum s' (num * 10 + (b - 48)) true
      else (if isnum then Some num else None, s)
  | EmptyString => (if isnum then Some num else None, "")
  end.

(** What is before the first closing bracket, and after it. *)
Fixpoint cut_bracket (s : string) : option (string * string) :=
  match s with
  | EmptyString => None
  | String c s' =>
      if decide (N_of_ascii c = 93)%N then Some ("", s')
      else prod_map (String c) id <$> cut_bracket s'
  end.

(** [argNumber] without operands: what follows an argument index, whether the index
    is well formed, and whether [goodArgNum] is kept. *)
Definition argNumber (s : string) : string * bool * bool :=
  if is_byte 91 s then
    let inner := string_tail s in
    if decide (String.length s < 3)%nat then (inner, false, false)
    else
      match cut_bracket inner with
      | None => (inner, false, false)
      | Some (digits, rest) =>
          match parsenum digits 0 false with
          | (Some _, EmptyString) => (rest, true, false)
          | _ => (rest, false, false)
          end
      end
  else (s, false, true).

(** [utf8.DecodeRuneInString]: the length of the rune at the front when it is valid. *)
Definition rune_length (s : string) : option nat :=
  let cont lo hi s := match byte_at s with
                      | Some b => bool_decide (lo <= b <= hi)%N
                      | None => false
                      end in
  let tails := cont 128%N 191%N in
  match byte_at s with
  | None => None
  | Some b =>
      let s1 := string_tail s in
      let s2 := string_tail s1 in
      let s3 := string_tail s2 in
      if decide (b < 128)%N then Some 1%nat
      else if decide (194 <= b <= 223)%N then if tails s1 then Some 2%nat else None
      else if decide (224 <= b <= 239)%N then
        let lo := if decide (b = 224)%N then 160%N else 128%N in
        let hi := if decide (b = 237)%N then 159%N else 191%N in
        if cont lo hi s1 && tails s2 then Some 3%nat else None
      else if decide (240 <= b <= 244)%N then
        let lo := if decide (b = 240)%N then 144%N else 128%N in
        let hi := if decide (b = 244)%N then 143%N else 191%N in
        if cont lo hi s1 && tails s2 && tails s3 then Some 4%nat else None
      else None
  end.

(** The rune at the front as it is written, and what follows it. *)
Definition read_rune (s : string) : string * string :=
  match rune_length s with
  | Some n => (string_take n s, string_drop n s)
  | None => (String (ascii_of_N 239) (String (ascii_of_N 191) (String (ascii_of_N 189) "")),
             string_tail s)
  end.

(** Where the reading of a verb is: what was written, what is left of the format,
    [afterIndex] and [goodArgNum]. *)
Record verb_state := mkVerb {
  vs_out : string;
  vs_rest : string;
  vs_afterIndex : bool;
  vs_good : bool
}.

Definition read_index (v : verb_state) : verb_state :=
  let '(s, found, good) := argNumber (vs_rest v) in
  mkVerb (vs_out v) s found (vs_good v && good).

Definition read_width (v : verb_state) : verb_state :=
  if is_byte 42 (vs_rest v)
  then mkVerb (vs_out v +:+ "%!(BADWIDTH)") (string_tail (vs_rest v)) false (vs_good v)
  else
    let '(wid, s) := parsenum (vs_rest v) 0 false in
    mkVerb (vs_out v) s (vs_afterIndex v)
      (vs_good v && negb (vs_afterIndex v && bool_decide (wid <> None))).

Definition read_precision (v : verb_state) : verb_state :=
  if is_byte 46 (vs_rest v) then
    let v := read_index (mkVerb (vs_out v) (string_tail (vs_rest v)) false
                           (vs_good v && negb (vs_afterIndex v))) in
    if is_byte 42 (vs_rest v)
    then mkVerb (vs_out v +:+ "%!(BADPREC)") (string_tail (vs_rest v)) false (vs_good v)
    else mkVerb (vs_out v) (parsenum (vs_rest v) 0 false).2 (vs_afterIndex v) (vs_good v)
  else v.

(** What is written for the verb after a percent sign, and what follows it; [None]
    when the format ends. *)
Definition print_verb (s : string) : string * option string :=
  let v := read_index (mkVerb "" (skip_flags s) false true) in
  let v := read_precision (read_width v) in
  let v := if vs_afterIndex v then v else read_index v in
  if decide (vs_rest v = "") then (vs_out v +:+ "%!(NOVERB)", None)
  else
    let '(verb, rest) := read_rune (vs_rest v) in
    let text := if decide (verb = "%") then "%"
                else if vs_good v then "%!" +:+ verb +:+ "(MISSING)"
                else "%!" +:+ verb +:+ "(BADINDEX)" in
    (vs_out v +:+ text, Some rest).

(** The loop of [doPrintf]; the fuel is the length of the format. *)
Fixpoint printf_loop (fuel : nat) (s : string) : string :=
  match fuel with
  | O => ""
  | S fuel =>
      match s with
      | EmptyString => ""
      | String c s' =>
          if decide (N_of_ascii c = 37)%N then
            match print_verb s' with
            | (out, None) => out
            | (out, Some rest) => out +:+ printf_loop fuel rest
            end
          else String c (printf_loop fuel s')
      end
  end.

Definition fmt_Sprintf (s : string) : string := printf_loop (String.length s) s.

Example fmt_Sprintf_verb : fmt_Sprintf "disk 90% full" = "disk 90%!f(MISSING)ull".
Proof. by vm_compute. Qed.

Example fmt_Sprintf_index : fmt_Sprintf "a%[2]d%%%" = "a%!d(BADINDEX)%%!(NOVERB)".
Proof. by vm_compute. Qed.

(** Text without a percent sign is written as it is. *)
Fixpoint percent_free (s : string) : bool :=
  match s with
  | EmptyString => true
  | String c s => bool_decide (N_of_ascii c <> 37%N) && percent_free s
  end.

Lemma fmt_Sprintf_text s : percent_free s = true -> fmt_Sprintf s = s.
Proof.
  unfold fmt_Sprintf. induction s as [|c s IH]; [done|]. simpl.
  intros [Hc Hs]%andb_prop. apply bool_decide_eq_true in Hc.
  rewrite decide_False by done. by rewrite IH.
Qed.

(** *** The fuel is enough *)

Lemma skip_flags_length s : (String.length (skip_flags s) <= String.length s)%nat.
Proof. induction s as [|c s IH]; simpl; [done|]. destruct (is_flag c); simpl; lia. Qed.

Lemma string_tail_length s : (String.length (string_tail s) <= String.length s)%nat.
Proof. destruct s; simpl; lia. Qed.

Lemma parsenum_length s num isnum :
  (String.length (parsenum s num isnum).2 <= String.length s)%nat.
Proof.
  revert num isnum. induction s as [|c s IH]; intros num isnum; simpl; [done|].
  case_decide; [|done]. case_decide; simpl; [lia|]. etrans; [apply IH|]. lia.
Qed.

Lemma cut_bracket_length s a b :
  cut_bracket s = Some (a, b) -> (String.length b <= String.length s)%nat.
Proof.
  revert a. induction s as [|c s IH]; intros a; simpl; [done|].
  case_decide; [intros [= _ <-]; lia|]. destruct (cut_bracket s) as [[a' b']|]; [|done].
  intros [= _ <-]. specialize (IH _ eq_refl). lia.
Qed.

Lemma argNumber_length s : (String.length (argNumber s).1.1 <= String.length s)%nat.
Proof.
  unfold argNumber. destruct (is_byte 91 s); [|done]. pose proof (string_tail_length s).
  case_decide; [done|]. destruct (cut_bracket (string_tail s)) as [[a b]|] eqn:Hc; [|done].
  apply cut_bracket_length in Hc. destruct (parsenum a 0 false) as [[|] [|]]; simpl; lia.
Qed.

Lemma read_rune_length s : (String.length (read_rune s).2 <= String.length s)%nat.
Proof.
  unfold read_rune. destruct (rune_length s); [apply string_drop_length|apply string_tail_length].
Qed.

Lemma read_index_length v : (String.length (vs_rest (read_index v)) <= String.length (vs_rest v))%nat.
Proof.
  unfold read_index. pose proof (argNumber_length (vs_rest v)).
  by destruct (argNumber (vs_rest v)) as [[s found] good].
Qed.

Lemma read_width_length v : (String.length (vs_rest (read_width v)) <= String.length (vs_rest v))%nat.
Proof.
  unfold read_width. destruct (is_byte _ _); [apply string_tail_length|].
  pose proof (parsenum_length (vs_rest v) 0 false). by destruct (parsenum _ _ _).
Qed.

Lemma read_precision_length v :
  (String.length (vs_rest (read_precision v)) <= String.length (vs_rest v))%nat.
Proof.
  unfold read_precision. destruct (is_byte _ _); [|done].
  set (v1 := read_index _). assert (String.length (vs_rest v1) <= String.length (vs_rest v))%nat.
  { etrans; [apply read_index_length|]. apply string_tail_length. }
  destruct (is_byte 42 (vs_rest v1)); simpl.
  - etrans; [apply string_tail_length|done].
  - etrans; [apply parsenum_length|done].
Qed.

Lemma print_verb_length s out rest :
  print_verb s = (out, Some rest) -> (String.length rest <= String.length s)%nat.
Proof.
  unfold print_verb. set (v := read_precision _).
  assert (String.length (vs_rest v) <= String.length s)%nat as Hv.
  { unfold v. etrans; [apply read_precision_length|]. etrans; [apply read_width_length|].
    etrans; [apply read_index_length|]. apply skip_flags_length. }
  set (v' := if vs_afterIndex v then v else read_index v).
  assert (String.length (vs_rest v') <= String.length s)%nat as Hv'.
  { unfold v'. destruct (vs_afterIndex v); [done|]. etrans; [apply read_index_length|done]. }
  case_decide; [done|]. pose proof (read_rune_length (vs_rest v')).
  destruct (read_rune (vs_rest v')) as [verb rest']. intros [= _ <-]. simpl in *. lia.
Qed.

Lemma printf_loop_enough fuel s :
  (String.length s <= fuel)%nat -> printf_loop fuel s = fmt_Sprintf s.
Proof.
  unfold fmt_Sprintf. remember (String.length s) as len eqn:Hlen.
  assert (String.length s <= len)%nat as Hs by lia. clear Hlen. intros Hf.
  revert fuel s Hs Hf. induction len as [|len IH]; intros fuel s Hs Hf.
  { destruct s; [by destruct fuel|simpl in Hs; lia]. }
  destruct fuel as [|fuel]; [lia|]. destruct s as [|c s]; [done|]. simpl in Hs. cbn [printf_loop].
  case_decide; [|by rewrite (IH fuel s) by lia].
  destruct (print_verb s) as [out [rest|]] eqn:Hp; [|done].
  apply print_verb_length in Hp. by rewrite (IH fuel rest) by lia.
Qed.
