(* ===== verification/Pipeline.v ===== *)
(** * The pipeline of append requests, [netPipeline] of [net_transport.go]

    Requests are sent on one connection without waiting for the responses.  The
    caller of [AppendEntries], the goroutine [decodeResponses] and whoever reads
    [Consumer()] run concurrently: a step of the relation below is one operation of
    one of them on the channels or the connection.  Futures are numbered in the order
    their requests are sent, responses in the order they are read. *)
From stdpp Require Import relations.
From S2P Require Import Prelude.

(** ** Definitions *)

(** Where [decodeResponses] is: at its [select], reading the response to a future, at
    the send of the future, with the response it read if there was no error, to
    [doneCh], or returned. *)
Inductive decoder :=
  | dec_select
  | dec_reading (future : nat)
  | dec_sending (future : nat) (resp : option nat)
  | dec_returned.

Record netPipeline := mkPipeline {
  pl_maxInFlight : nat;
  pl_sent : nat;                              (* requests sent *)
  pl_read : nat;                              (* responses read *)
  pl_caller : option nat;                     (* in AppendEntries, after sendRPC *)
  pl_inprogressCh : list nat;
  pl_decoder : decoder;
  pl_doneCh : list (nat * option nat);
  pl_consumed : list (nat * option nat);
  pl_open : bool;                             (* the connection *)
  pl_shutdown : bool
}.

(** [newNetPipeline]; [None] is its panic. *)
Definition newNetPipeline (maxInFlight : nat) : option netPipeline :=
  if decide (maxInFlight < 2)%nat then None
  else Some (mkPipeline maxInFlight 0 0 None [] dec_select [] [] true false).

(** The size of the buffers of [inprogressCh] and [doneCh]. *)
Definition pl_buffer (p : netPipeline) : nat := (pl_maxInFlight p - 2)%nat.

(** Who moves: the user of the pipeline, by a new call of [AppendEntries] or [Close],
    or the calls and goroutines that are under way. *)
Inductive action := by_user | onward.

Inductive pipeline_step : action -> netPipeline -> netPipeline -> Prop :=
  (* AppendEntries: sendRPC succeeds, on a connection that is open *)
  | step_send m s j inp d dn co :
      pipeline_step by_user (mkPipeline m s j None inp d dn co true false)
        (mkPipeline m (S s) j (Some s) inp d dn co true false)
  (* AppendEntries: sendRPC fails and releases the connection *)
  | step_send_error m s j inp d dn co o sh :
      pipeline_step by_user (mkPipeline m s j None inp d dn co o sh)
        (mkPipeline m s j None inp d dn co false sh)
  (* AppendEntries: the future goes into the buffer of inprogressCh *)
  | step_enqueue m s j k inp d dn co o sh :
      (length inp < m - 2)%nat ->
      pipeline_step onward (mkPipeline m s j (Some k) inp d dn co o sh)
        (mkPipeline m s j None (inp ++ [k]) d dn co o sh)
  (* AppendEntries: the future goes to a waiting decodeResponses *)
  | step_handoff m s j k dn co o sh :
      pipeline_step onward (mkPipeline m s j (Some k) [] dec_select dn co o sh)
        (mkPipeline m s j None [] (dec_reading k) dn co o sh)
  (* AppendEntries: ErrPipelineShutdown *)
  | step_abandon m s j k inp d dn co o :
      pipeline_step onward (mkPipeline m s j (Some k) inp d dn co o true)
        (mkPipeline m s j None inp d dn co o true)
  (* decodeResponses: the next future *)
  | step_receive m s j c k inp dn co o sh :
      pipeline_step onward (mkPipeline m s j c (k :: inp) dec_select dn co o sh)
        (mkPipeline m s j c inp (dec_reading k) dn co o sh)
  (* decodeResponse gives the next response *)
  | step_read m s j c k inp dn co sh :
      (j < s)%nat ->
      pipeline_step onward (mkPipeline m s j c inp (dec_reading k) dn co true sh)
        (mkPipeline m s (S j) c inp (dec_sending k (Some j)) dn co true sh)
  (* decodeResponse fails and releases the connection *)
  | step_read_error m s j c k inp dn co o sh :
      pipeline_step onward (mkPipeline m s j c inp (dec_reading k) dn co o sh)
        (mkPipeline m s j c inp (dec_sending k None) dn co false sh)
  (* decodeResponses: the future goes into the buffer of doneCh *)
  | step_done m s j c k x inp dn co o sh :
      (length dn < m - 2)%nat ->
      pipeline_step onward (mkPipeline m s j c inp (dec_sending k x) dn co o sh)
        (mkPipeline m s j c inp dec_select (dn ++ [(k, x)]) co o sh)
  (* decodeResponses: the future goes to a waiting consumer *)
  | step_done_handoff m s j c k x inp co o sh :
      pipeline_step onward (mkPipeline m s j c inp (dec_sending k x) [] co o sh)
        (mkPipeline m s j c inp dec_select [] (co ++ [(k, x)]) o sh)
  (* the consumer takes a future from the buffer *)
  | step_consume m s j c y inp d dn co o sh :
      pipeline_step onward (mkPipeline m s j c inp d (y :: dn) co o sh)
        (mkPipeline m s j c inp d dn (co ++ [y]) o sh)
  (* decodeResponses: shutdown, at either select *)
  | step_return m s j c inp d dn co o :
      d = dec_select \/ (exists k x, d = dec_sending k x) ->
      pipeline_step onward (mkPipeline m s j c inp d dn co o true)
        (mkPipeline m s j c inp dec_returned dn co o true)
  (* Close *)
  | step_close m s j c inp d dn co o :
      pipeline_step by_user (mkPipeline m s j c inp d dn co o false)
        (mkPipeline m s j c inp d dn co false true).

(** The histories of a pipeline. *)
Inductive pipeline_reachable (m : nat) : netPipeline -> Prop :=
  | reach_new p : newNetPipeline m = Some p -> pipeline_reachable m p
  | reach_step a p p' :
      pipeline_reachable m p -> pipeline_step a p p' -> pipeline_reachable m p'.

Definition held (d : decoder) : list nat :=
  match d with dec_reading k => [k] | _ => [] end.

Definition decoded_of (d : decoder) : list (nat * option nat) :=
  match d with dec_sending k x => [(k, x)] | _ => [] end.

(** The requests that are sent and whose responses are not read. *)
Definition in_flight (p : netPipeline) : list nat :=
  held (pl_decoder p) ++ pl_inprogressCh p ++ option_list (pl_caller p).

(** The futures that have been answered, in order. *)
Definition answered (p : netPipeline) : list (nat * option nat) :=
  pl_consumed p ++ pl_doneCh p ++ decoded_of (pl_decoder p).

(** ** Facts *)

Definition futures (p : netPipeline) : list nat := (answered p).*1 ++ in_flight p.

Record pipeline_ok (m : nat) (p : netPipeline) : Prop := {
  po_m : pl_maxInFlight p = m /\ (2 <= m)%nat;
  po_inprogress : (length (pl_inprogressCh p) <= m - 2)%nat;
  po_done : (length (pl_doneCh p) <= m - 2)%nat;
  po_futures : pl_decoder p <> dec_returned ->
    futures p = seq 0 (length (futures p)) /\ (length (futures p) <= pl_sent p)%nat;
  po_sent : pl_shutdown p = false -> length (futures p) = pl_sent p /\ pl_decoder p <> dec_returned;
  po_answered : (answered p).*1 = seq 0 (length (answered p));
  po_match k j : (k, Some j) ∈ answered p -> j = k;
  po_open : pl_open p = true -> pl_shutdown p = false /\ pl_read p = length (answered p)
}.

Lemma seq_prefix (l1 l2 : list nat) n : l1 ++ l2 = seq 0 n -> l1 = seq 0 (length l1).
Proof.
  intros Hl. assert (length l1 <= n)%nat as Hn.
  { apply (f_equal length) in Hl. rewrite length_app, length_seq in Hl. lia. }
  apply (f_equal (take (length l1))) in Hl. rewrite take_app_length in Hl.
  rewrite Hl at 1. by rewrite take_seq, Nat.min_l.
Qed.

(** Steps that only move futures along. *)
Lemma same_futures m p p' :
  pipeline_ok m p -> futures p' = futures p -> answered p' = answered p ->
  pl_sent p' = pl_sent p -> pl_read p' = pl_read p ->
  pl_shutdown p' = pl_shutdown p -> (pl_open p' = true -> pl_open p = true) ->
  (pl_decoder p' = dec_returned <-> pl_decoder p = dec_returned) ->
  pl_maxInFlight p' = pl_maxInFlight p ->
  (length (pl_inprogressCh p') <= m - 2)%nat -> (length (pl_doneCh p') <= m - 2)%nat ->
  pipeline_ok m p'.
Proof.
  intros [] Hf Ha Hs Hr Hsh Ho Hd Hm ? ?. split; rewrite ?Hf, ?Ha, ?Hs, ?Hr, ?Hsh, ?Hm; auto.
  - intros Hx. apply po_futures0. by rewrite <- Hd.
  - intros Hx. rewrite Hd. auto.
Qed.

(** Reading a response, or failing to, answers the future that was sent first. *)
Lemma read_ok m s j j' c k x inp dn co o o' sh :
  pipeline_ok m (mkPipeline m s j c inp (dec_reading k) dn co o sh) ->
  (forall i, x = Some i -> o = true /\ i = j) ->
  (o' = true -> o = true /\ j' = S j) ->
  pipeline_ok m (mkPipeline m s j' c inp (dec_sending k x) dn co o' sh).
Proof.
  intros [] Hx Ho.
  set (p := mkPipeline m s j c inp (dec_reading k) dn co o sh) in *.
  set (p' := mkPipeline m s j' c inp (dec_sending k x) dn co o' sh).
  assert (answered p' = answered p ++ [(k, x)]) as Ha.
  { unfold answered. simpl. rewrite app_nil_r, <- app_assoc. done. }
  assert (futures p' = futures p) as Hf.
  { unfold futures. rewrite Ha, fmap_app. unfold in_flight. simpl. by rewrite <- app_assoc. }
  destruct po_futures0 as [Hseq Hlen]; [done|].
  assert (k = length (answered p)) as Hk.
  { unfold futures, in_flight in Hseq. simpl in Hseq.
    apply (f_equal (.!! length (answered p))) in Hseq.
    rewrite lookup_app_r, length_fmap, Nat.sub_diag in Hseq by (by rewrite length_fmap). simpl in Hseq.
    symmetry in Hseq. apply lookup_seq in Hseq as [? _]. lia. }
  split; rewrite ?Hf, ?Ha; try done.
  - intros Hsh. split; [by apply po_sent0|done].
  - rewrite fmap_app, po_answered0, length_app, Nat.add_1_r, seq_S, Hk. done.
  - intros k' i. rewrite elem_of_app, list_elem_of_singleton.
    intros [Hin|[= -> Hj]]; [by eapply po_match0|]. symmetry in Hj.
    destruct (Hx _ Hj) as [Hop ->]. destruct (po_open0 Hop) as [_ Hr]. simpl in Hr. congruence.
  - intros [Hop ->]%Ho. destruct (po_open0 Hop) as [Hsh Hr]. split; [exact Hsh|].
    rewrite length_app, <- Hr. simpl. lia.
Qed.

Lemma pipeline_step_ok m a p p' : pipeline_ok m p -> pipeline_step a p p' -> pipeline_ok m p'.
Proof.
  intros Hok Hstep. pose proof Hok as [[Hm H2] Hinp Hdn Hfu Hse Han Hma Hop].
  destruct Hstep; simpl in Hm; subst.
  - (* send *) destruct (Hop eq_refl) as [_ Hr]. destruct (Hse eq_refl) as [Hlen Hd].
    destruct (Hfu Hd) as [Hseq _].
    set (p := mkPipeline m s j None inp d dn co true false) in *.
    set (p' := mkPipeline m (S s) j (Some s) inp d dn co true false).
    assert (futures p' = futures p ++ [s]) as Hf.
    { unfold futures, in_flight, answered. simpl. by rewrite app_nil_r, <- !app_assoc. }
    assert (length (futures p') = S s) as Hl.
    { rewrite Hf, length_app, Hlen. simpl. lia. }
    split; try done. intros _. rewrite Hl. split; [|done]. rewrite Hf, Hseq, Hlen, seq_S. done.
  - (* sendRPC fails *) by apply (same_futures m _ _ Hok).
  - (* enqueue *) apply (same_futures m _ _ Hok); try done; simpl.
    + unfold futures, in_flight. simpl. by rewrite app_nil_r.
    + rewrite length_app. simpl. lia.
  - (* handoff *) by apply (same_futures m _ _ Hok).
  - (* abandon *)
    set (p := mkPipeline m s j (Some k) inp d dn co o true) in *.
    set (p' := mkPipeline m s j None inp d dn co o true).
    assert (futures p = futures p' ++ [k]) as Hf.
    { unfold futures, in_flight, answered. simpl. by rewrite app_nil_r, <- !app_assoc. }
    split; try done. intros Hd. destruct (Hfu Hd) as [Hseq Hlen]. rewrite Hf in Hseq, Hlen.
    split; [by eapply seq_prefix|]. rewrite length_app in Hlen. simpl in *. lia.
  - (* receive *) apply (same_futures m _ _ Hok); try done; simpl in *. lia.
  - (* read *) eapply read_ok; [exact Hok| |done]. by intros i [= ->].
  - (* read error *) eapply read_ok; [exact Hok|done|done].
  - (* done *) apply (same_futures m _ _ Hok); try done; simpl.
    + unfold futures, answered. simpl. by rewrite app_nil_r.
    + unfold answered. simpl. by rewrite app_nil_r.
    + rewrite length_app. simpl. lia.
  - (* done, to the consumer *) apply (same_futures m _ _ Hok); try done; simpl.
    + unfold futures, answered. simpl. by rewrite app_nil_r.
    + unfold answered. simpl. by rewrite app_nil_r.
  - (* consume *) apply (same_futures m _ _ Hok); try done; simpl in *.
    + unfold futures, answered. simpl. by rewrite <- !app_assoc.
    + unfold answered. simpl. by rewrite <- app_assoc.
    + lia.
  - (* return *)
    set (p := mkPipeline m s j c inp d dn co o true) in *.
    set (p' := mkPipeline m s j c inp dec_returned dn co o true).
    assert (answered p = answered p' ++ decoded_of d) as Ha.
    { unfold answered. simpl. by rewrite app_nil_r, <- app_assoc. }
    split; try done.
    + rewrite Ha, fmap_app in Han. apply seq_prefix in Han. by rewrite length_fmap in Han.
    + intros k i Hin. apply (Hma k). rewrite Ha. apply elem_of_app. by left.
    + intros Ho. by destruct (Hop Ho).
  - (* Close *) by split.
Qed.

Lemma reachable_ok m p : pipeline_reachable m p -> pipeline_ok m p.
Proof.
  induction 1 as [p Hnew|a p p' _ IH Hstep]; [|by eapply pipeline_step_ok].
  unfold newNetPipeline in Hnew. case_decide; [done|]. injection Hnew as <-.
  split; try done; simpl; try lia. intros k j Hin. by apply elem_of_nil in Hin.
Qed.

(** ** Bounds *)

(** [i] more requests behind the one whose response is awaited. *)
Lemma pipeline_fill m i :
  (2 <= m)%nat -> (i <= m - 2)%nat ->
  pipeline_reachable m (mkPipeline m (S i) 0 None (seq 1 i) (dec_reading 0) [] [] true false).
Proof.
  intros Hm. induction i as [|i IH]; intros Hi.
  - eapply reach_step; [|apply step_handoff]. eapply reach_step; [|apply step_send].
    apply reach_new. unfold newNetPipeline. by rewrite decide_False by lia.
  - rewrite seq_S. eapply reach_step; [|apply step_enqueue; rewrite length_seq; lia].
    eapply reach_step; [|apply step_send]. apply IH. lia.
Qed.

Lemma in_flight_bound m p : pipeline_ok m p -> (length (in_flight p) <= m)%nat.
Proof.
  intros [[_ Hm] Hinp]. unfold in_flight. rewrite !length_app.
  destruct (pl_decoder p), (pl_caller p); simpl; lia.
Qed.

(** C32: A pipeline keeps at most [MaxRPCsInFlight] requests in flight, sent and without
    their response read, and it can keep that many, though its channel has room
    for two fewer. *)
Theorem pipeline_in_flight m :
  (2 <= m)%nat ->
  (forall p, pipeline_reachable m p -> (length (in_flight p) <= m)%nat) /\
  exists p, pipeline_reachable m p /\ length (in_flight p) = m.
Proof.
  intros Hm. split; [intros p Hp; by apply in_flight_bound, reachable_ok|].
  eexists. split; [eapply reach_step; [by apply (pipeline_fill m (m - 2))|apply step_send]|].
  unfold in_flight. simpl. rewrite length_app, length_seq. simpl. lia.
Qed.

Lemma pipeline_in_flight_witness :
  (forall p, pipeline_reachable 2 p -> (length (in_flight p) <= 2)%nat) /\
  exists p, pipeline_reachable 2 p /\ length (in_flight p) = 2%nat.
Proof. apply (pipeline_in_flight 2). lia. Defined.

(** ** Order *)

(** C30: The responses of a pipeline reach their requests: the consumer gets the futures
    in the order of the requests, none left out, and the response that a future
    carries is the one that the connection delivered for its request; this holds
    whatever reads and writes fail and whenever the pipeline is closed. *)
Theorem pipeline_order m p :
  pipeline_reachable m p ->
  (pl_consumed p).*1 = seq 0 (length (pl_consumed p)) /\
  forall k j, (k, Some j) ∈ pl_consumed p -> j = k.
Proof.
  intros [_ _ _ _ _ Han Hma _]%reachable_ok. unfold answered in Han, Hma. split.
  - rewrite fmap_app in Han. apply seq_prefix in Han. by rewrite length_fmap in Han.
  - intros k j Hin. apply Hma. apply elem_of_app. by left.
Qed.

(** ** Progress *)

Definition decoder_work (d : decoder) : nat :=
  match d with
  | dec_select => 1
  | dec_reading _ => 4
  | dec_sending _ _ => 3
  | dec_returned => 0
  end.

Definition work (p : netPipeline) : nat :=
  (5 * length (option_list (pl_caller p)) + 4 * length (pl_inprogressCh p) +
   decoder_work (pl_decoder p) + length (pl_doneCh p))%nat.

Lemma onward_work p p' : pipeline_step onward p p' -> (work p' < work p)%nat.
Proof.
  remember onward as a. intros Hstep. destruct Hstep; try done; unfold work; simpl;
    rewrite ?length_app; simpl; try lia.
  match goal with Hd : _ \/ _ |- _ => destruct Hd as [->|(k & x & ->)] end; simpl; lia.
Qed.

Lemma onward_steps n p p' : nsteps (pipeline_step onward) n p p' -> (n + work p' <= work p)%nat.
Proof. induction 1 as [|n p p1 p' Hs _ IH]; [lia|]. apply onward_work in Hs. lia. Qed.

(** What holds a pipeline up. *)
Lemma onward_stuck m p :
  pipeline_ok m p -> (forall p', ~ pipeline_step onward p p') ->
  pl_caller p = None /\ pl_doneCh p = [] /\
  if pl_shutdown p then pl_decoder p = dec_returned
  else pl_inprogressCh p = [] /\ pl_decoder p = dec_select.
Proof.
  intros Hok Hno. destruct p as [m' s j c inp d dn co o sh].
  destruct dn as [|y dn]; [|edestruct Hno; apply step_consume].
  destruct d as [|k|k x|].
  - destruct sh; [edestruct Hno; apply step_return; by left|].
    destruct inp as [|k inp]; [|edestruct Hno; apply step_receive].
    destruct c as [k|]; [edestruct Hno; apply step_handoff|done].
  - edestruct Hno. apply step_read_error.
  - edestruct Hno. apply step_done_handoff.
  - destruct sh; [|by destruct (po_sent _ _ Hok eq_refl)].
    destruct c as [k|]; [edestruct Hno; apply step_abandon|done].
Qed.

Lemma onward_reachable m n p p' :
  pipeline_reachable m p -> nsteps (pipeline_step onward) n p p' -> pipeline_reachable m p'.
Proof. intros Hp Hn. induction Hn; [done|]. apply IHHn. by eapply reach_step. Qed.


(** ** Witnesses *)

(** A response was consumed and the next request is with its caller. *)
Definition busy_pipeline : netPipeline :=
  mkPipeline 2 2 1 (Some 1%nat) [] dec_select [] [(0%nat, Some 0%nat)] true false.

Lemma busy_reachable : pipeline_reachable 2 busy_pipeline.
Proof.
  eapply reach_step; [|apply step_send]. eapply reach_step; [|apply (step_done_handoff 2 1 1 _ _ _ _ [])].
  eapply reach_step; [|apply step_read; lia]. apply (pipeline_fill 2 0); lia.
Qed.

Lemma pipeline_order_witness :
  (pl_consumed busy_pipeline).*1 = seq 0 (length (pl_consumed busy_pipeline)) /\
  forall k j, (k, Some j) ∈ pl_consumed busy_pipeline -> j = k.
Proof. apply (pipeline_order 2). apply busy_reachable. Defined.

Definition rested_pipeline : netPipeline :=
  mkPipeline 2 2 2 None [] dec_select [] [(0%nat, Some 0%nat); (1%nat, Some 1%nat)] true false.

