(* ===== verification/NetTransport.v ===== *)
(** * The network transport, [net_transport.go]

    A request is a byte for its type and the encoded command, a response an error
    text and the encoded response.  The connections, both ends of each, are the
    state: the client's calls of [NetworkTransport] with its pool of connections on
    one end, [handleConn] on the other.  Every call on a connection can fail. *)
From Stdlib Require Import Ascii.
From S2P Require Import Prelude Types Util Codec Configuration Config Stores State Elections AppendEntries SnapshotStores Disk Snapshot Replication Server Cluster Fmt Pipeline.

(** ** The wire *)

(** What reading a value from a stream gives: the value and what follows it, a wait
    for more, or an error. *)
Inductive decoded (A : Type) :=
  | Complete (x : A) (rest : string)
  | Partial
  | Malformed (e : error).
Arguments Complete {A} x rest.
Arguments Partial {A}.
Arguments Malformed {A} e.

(** The MsgPack encoder and decoder of [codec] at the type [A]. *)
Class Wire (A : Type) := {
  wire_Encode : A -> string;
  wire_Decode : string -> decoded A;
  wire_zero : A
}.

(** MsgPack's nil, the encoding of a nil interface. *)
Definition wire_nil : string := String (ascii_of_N 192) "".

(** A value is read back from the front of a stream, a nil as the zero value, and
    a part of a value waits for the rest; reading takes bytes from the front only. *)
Class WireLaws (A : Type) `{Wire A} := {
  wire_Decode_Encode x rest : wire_Decode (wire_Encode x +:+ rest) = Complete x rest;
  wire_Decode_nil rest : wire_Decode (wire_nil +:+ rest) = Complete wire_zero rest;
  wire_Decode_empty : wire_Decode "" = Partial;
  wire_Decode_part x n :
    (n < String.length (wire_Encode x))%nat ->
    wire_Decode (string_take n (wire_Encode x)) = Partial;
  wire_Decode_front r x rest : wire_Decode r = Complete x rest -> exists p, r = p +:+ rest
}.

Definition decoded_map {A B} (f : A -> B) (d : decoded A) : decoded B :=
  match d with
  | Complete x rest => Complete (f x) rest
  | Partial => Partial
  | Malformed e => Malformed e
  end.

Definition rpcAppendEntries : N := 0.
Definition rpcRequestVote : N := 1.
Definition rpcInstallSnapshot : N := 2.
Definition rpcTimeoutNow : N := 3.
Definition rpcRequestPreVote : N := 4.

(** The codec at the types that are sent; [slice_is_nil] tells whether a decoded
    byte slice is nil and not just empty. *)
Class RPCCodec := {
  wire_string :: Wire string;
  wire_AppendEntries :: Wire AppendEntriesRequest;
  wire_RequestVote :: Wire RequestVoteRequest;
  wire_RequestPreVote :: Wire RequestPreVoteRequest;
  wire_InstallSnapshot :: Wire InstallSnapshotRequest;
  wire_TimeoutNow :: Wire TimeoutNowRequest;
  wire_AppendEntriesResponse :: Wire AppendEntriesResponse;
  wire_RequestVoteResponse :: Wire RequestVoteResponse;
  wire_RequestPreVoteResponse :: Wire RequestPreVoteResponse;
  wire_InstallSnapshotResponse :: Wire InstallSnapshotResponse;
  wire_TimeoutNowResponse :: Wire TimeoutNowResponse;
  slice_is_nil : string -> bool
}.

Class RPCCodecLaws `{RPCCodec} := {
  laws_string :: WireLaws string;
  laws_AppendEntries :: WireLaws AppendEntriesRequest;
  laws_RequestVote :: WireLaws RequestVoteRequest;
  laws_RequestPreVote :: WireLaws RequestPreVoteRequest;
  laws_InstallSnapshot :: WireLaws InstallSnapshotRequest;
  laws_TimeoutNow :: WireLaws TimeoutNowRequest;
  laws_AppendEntriesResponse :: WireLaws AppendEntriesResponse;
  laws_RequestVoteResponse :: WireLaws RequestVoteResponse;
  laws_RequestPreVoteResponse :: WireLaws RequestPreVoteResponse;
  laws_InstallSnapshotResponse :: WireLaws InstallSnapshotResponse;
  laws_TimeoutNowResponse :: WireLaws TimeoutNowResponse;
  slice_not_nil s : s <> "" -> slice_is_nil s = false
}.

Section Wire.
Context `{RPCCodec}.

(** The switch of [handleCommand] over the type of the command. *)
Definition decode_command (r : string) : decoded Command :=
  match r with
  | EmptyString => Partial
  | String b r =>
      let rpcType := N_of_ascii b in
      if decide (rpcType = rpcAppendEntries) then decoded_map cmd_AppendEntries (wire_Decode r)
      else if decide (rpcType = rpcRequestVote) then decoded_map cmd_RequestVote (wire_Decode r)
      else if decide (rpcType = rpcRequestPreVote)
      then decoded_map cmd_RequestPreVote (wire_Decode r)
      else if decide (rpcType = rpcInstallSnapshot)
      then decoded_map cmd_InstallSnapshot (wire_Decode r)
      else if decide (rpcType = rpcTimeoutNow) then decoded_map cmd_TimeoutNow (wire_Decode r)
      else Malformed (Errorf ("unknown rpc type " +:+ pretty rpcType))
  end.

Definition isHeartbeat (c : Command) : bool :=
  match c with
  | cmd_AppendEntries req =>
      let leaderAddr := if decide (hdr_Addr (ae_Header req) = "") then ae_Leader req
                        else hdr_Addr (ae_Header req) in
      bool_decide (ae_Term req <> 0%N) && negb (slice_is_nil leaderAddr) &&
      bool_decide (ae_PrevLogEntry req = 0%N) && bool_decide (ae_PrevLogTerm req = 0%N) &&
      bool_decide (ae_Entries req = []) && bool_decide (ae_LeaderCommitIndex req = 0%N)
  | _ => false
  end.

(** What [rpc.Reader] delivers: at most [Size] bytes, fewer only at the end of the
    stream; [None] is a wait. *)
Definition rpc_Reader (c : Command) (eof : bool) (r : string) : option string :=
  match c with
  | cmd_InstallSnapshot req =>
      if decide (is_Size req <= Z.of_nat (String.length r))%Z
      then Some (string_take (Z.to_nat (is_Size req)) r)
      else if eof then Some r else None
  | _ => Some ""
  end.

(** [resp.Response]; a nil one is encoded as nil. *)
Definition encode_reply (resp : option Reply) : string :=
  match resp with
  | None => wire_nil
  | Some (reply_AppendEntries resp) => wire_Encode resp
  | Some (reply_RequestVote resp) => wire_Encode resp
  | Some (reply_RequestPreVote resp) => wire_Encode resp
  | Some (reply_InstallSnapshot resp) => wire_Encode resp
  | Some (reply_TimeoutNow resp) => wire_Encode resp
  end.

(** The bytes that [sendRPC] flushes for a command; no other kind is sent. *)
Definition encode_command (c : Command) : string :=
  match c with
  | cmd_AppendEntries req => String (ascii_of_N rpcAppendEntries) (wire_Encode req)
  | cmd_RequestVote req => String (ascii_of_N rpcRequestVote) (wire_Encode req)
  | cmd_RequestPreVote req => String (ascii_of_N rpcRequestPreVote) (wire_Encode req)
  | cmd_InstallSnapshot req => String (ascii_of_N rpcInstallSnapshot) (wire_Encode req)
  | cmd_TimeoutNow req => String (ascii_of_N rpcTimeoutNow) (wire_Encode req)
  | cmd_Other _ => ""
  end.
End Wire.

(** ** The server's end of a connection *)

Inductive handled (W : Type) :=
  | hd_waits
  | hd_closed (w : W)
  | hd_answered (out rest : string) (w : W).
Arguments hd_waits {W}.
Arguments hd_closed {W} w.
Arguments hd_answered {W} out rest w.

(** What becomes of a command that was given to the Raft server, directly when it
    looks like a heartbeat: its answer and how much it read of the data that
    follows it, or [None] when the transport is shut down first. *)
Definition handler (W : Type) : Type :=
  bool -> Command -> string -> W -> option (option Reply * option error * nat) * W.

Section Server.
Context `{RPCCodec} {W : Type} (serve : handler W).

(** [r] is what was received and not read yet, [eof] that no more will come. *)
Definition handleCommand (eof : bool) (r : string) (w : W) : handled W :=
  match decode_command r with
  | Partial => if eof then hd_closed w else hd_waits
  | Malformed _ => hd_closed w
  | Complete c rest =>
      match rpc_Reader c eof rest with
      | None => hd_waits
      | Some data =>
          match serve (isHeartbeat c) c data w with
          | (None, w) => hd_closed w
          | (Some (resp, err, n), w) =>
              let respErr := match err with Some e => Error e | None => "" end in
              let n := Nat.min n (String.length data) in
              hd_answered (wire_Encode respErr +:+ encode_reply resp)
                (string_drop n rest) w
          end
      end
  end.

(** The loop of [handleConn], until it waits or returns: what it writes, what is
    left to read unless the connection is closed, and the server afterwards.  The
    fuel is the number of commands. *)
Fixpoint handleConn (fuel : nat) (eof : bool) (r : string) (w : W)
    : string * option string * W :=
  match fuel with
  | O => ("", Some r, w)
  | S fuel =>
      match handleCommand eof r w with
      | hd_waits => ("", Some r, w)
      | hd_closed w => ("", None, w)
      | hd_answered out rest w =>
          let '(out', unread, w) := handleConn fuel eof rest w in (out +:+ out', unread, w)
      end
  end.
End Server.

(** ** The client's end *)

(** A connection: [nc_in] is what the client can read, [nc_srv] what the server has
    received and not read. *)
Record netConn := mkNetConn {
  nc_target : ServerAddress;
  nc_open : bool;
  nc_in : string;
  nc_srv : string;
  nc_srv_open : bool
}.

(** A call that fails, and how many of its bytes had been delivered. *)
Record net_fault := mkNetFault {
  nf_delivered : nat;
  nf_error : error
}.

(** The connections dialled so far, the client's [NetworkTransport], what happens to
    the following calls, and the servers. *)
Record net (W : Type) := mkNet {
  nw_conns : list netConn;
  nw_connPool : gmap ServerAddress (list nat);
  nw_maxPool : Z;
  nw_shutdown : bool;
  nw_faults : list (option net_fault);
  nw_servers : W
}.
Arguments mkNet {W}.
Arguments nw_conns {W}.
Arguments nw_connPool {W}.
Arguments nw_maxPool {W}.
Arguments nw_shutdown {W}.
Arguments nw_faults {W}.
Arguments nw_servers {W}.

Definition no_conn : netConn := mkNetConn "" false "" "" false.

Definition close_client (c : netConn) : netConn :=
  mkNetConn (nc_target c) false (nc_in c) "" false.

Definition set_in (s : string) (c : netConn) : netConn :=
  mkNetConn (nc_target c) (nc_open c) s (nc_srv c) (nc_srv_open c).

Definition after_serve (out : string) (unread : option string) (c : netConn) : netConn :=
  mkNetConn (nc_target c) (nc_open c) (nc_in c +:+ out) (default "" unread)
    (bool_decide (unread <> None)).

Section Client.
Context `{RPCCodec} {W : Type} (serve : ServerAddress -> handler W).
Context (provider : option (ServerID -> result ServerAddress)).
Abbreviation network := (net W).

Definition with_conns (cs : list netConn) (n : network) : network :=
  mkNet cs (nw_connPool n) (nw_maxPool n) (nw_shutdown n) (nw_faults n) (nw_servers n).
Definition with_pool (p : gmap ServerAddress (list nat)) (n : network) : network :=
  mkNet (nw_conns n) p (nw_maxPool n) (nw_shutdown n) (nw_faults n) (nw_servers n).
Definition with_servers (w : W) (n : network) : network :=
  mkNet (nw_conns n) (nw_connPool n) (nw_maxPool n) (nw_shutdown n) (nw_faults n) w.
Definition with_faults (fs : list (option net_fault)) (n : network) : network :=
  mkNet (nw_conns n) (nw_connPool n) (nw_maxPool n) (nw_shutdown n) fs (nw_servers n).

Definition update_conn (i : nat) (f : netConn -> netConn) : M network unit :=
  modify (fun n => with_conns (alter f i (nw_conns n)) n).

(** A call on the network: the fault that it meets, if any. *)
Definition net_call : M network (option net_fault) := fun n =>
  match nw_faults n with
  | [] => Done None n
  | f :: fs => Done f (with_faults fs n)
  end.

(** The server reads what was delivered on the connection [i]. *)
Definition run_server (i : nat) (eof : bool) (p : string) : M network unit := (
  n <- get_state;;
  let c := default no_conn (nw_conns n !! i) in
  if nc_srv_open c then
    let r := nc_srv c +:+ p in
    let '(out, unread, w) := handleConn (serve (nc_target c)) (S (String.length r)) eof r
                             (nw_servers n) in
    modify (with_servers w);;
    update_conn i (after_serve out unread)
  else returns tt)%go.

(** [conn.Release()]; the server reads the end of the stream. *)
Definition Release (i : nat) : M network unit := (
  n <- get_state;;
  if nc_open (default no_conn (nw_conns n !! i)) then
    run_server i true "";; update_conn i close_client
  else returns tt)%go.

Definition IsShutdown (n : network) : bool := nw_shutdown n.

Definition getPooledConn (target : ServerAddress) : M network (option nat) := (
  n <- get_state;;
  match last (default [] (nw_connPool n !! target)) with
  | None => returns None
  | Some conn =>
      let conns := default [] (nw_connPool n !! target) in
      modify (with_pool (<[target := take (length conns - 1) conns]> (nw_connPool n)));;
      returns (Some conn)
  end)%go.

Definition getProviderAddressOrFallback (id : ServerID) (target : ServerAddress)
    : ServerAddress :=
  match provider with
  | Some ServerAddr =>
      match ServerAddr id with
      | Err _ => target
      | Ok serverAddressOverride => serverAddressOverride
      end
  | None => target
  end.

(** [EncodePeer] and [DecodePeer] *)
Definition netPeerCodec : PeerCodec := {|
  EncodePeer id p := getProviderAddressOrFallback id p;
  DecodePeer buf := buf
|}.

(** [n.stream.Dial] *)
Definition Dial (target : ServerAddress) : M network (result nat) := (
  f <- net_call;;
  match f with
  | Some f => returns (Err (nf_error f))
  | None =>
      n <- get_state;;
      modify (with_conns (nw_conns n ++ [mkNetConn target true "" "" true]));;
      returns (Ok (length (nw_conns n)))
  end)%go.

Definition getConn (target : ServerAddress) : M network (result nat) := (
  conn <- getPooledConn target;;
  match conn with
  | Some conn => returns (Ok conn)
  | None => Dial target
  end)%go.

Definition getConnFromAddressProvider (id : ServerID) (target : ServerAddress)
    : M network (result nat) := getConn (getProviderAddressOrFallback id target).

Definition returnConn (i : nat) : M network unit := (
  n <- get_state;;
  let key := nc_target (default no_conn (nw_conns n !! i)) in
  let conns := default [] (nw_connPool n !! key) in
  if negb (IsShutdown n) && bool_decide (Z.of_nat (length conns) < nw_maxPool n)%Z
  then modify (with_pool (<[key := conns ++ [i]]> (nw_connPool n)))
  else Release i)%go.

(** [sendRPC]: the type, the command, and the flush that delivers both. *)
Definition sendRPC (i : nat) (bytes : string) : M network (option error) := (
  f <- net_call;;
  match f with
  | Some f => Release i;; returns (Some (nf_error f))
  | None =>
      f <- net_call;;
      match f with
      | Some f =>
          run_server i false (string_take (nf_delivered f) bytes);;
          Release i;;
          returns (Some (nf_error f))
      | None =>
          f <- net_call;;
          match f with
          | Some f =>
              run_server i false (string_take (nf_delivered f) bytes);;
              Release i;;
              returns (Some (nf_error f))
          | None => run_server i false bytes;; returns None
          end
      end
  end)%go.

(** [conn.dec.Decode]; when the server will send no more, the read ends with the
    connection or its deadline. *)
Definition conn_Decode {A} `{Wire A} (i : nat) : M network (result A) := (
  f <- net_call;;
  match f with
  | Some f => returns (Err (nf_error f))
  | None =>
      n <- get_state;;
      match wire_Decode (nc_in (default no_conn (nw_conns n !! i))) with
      | Complete x rest => update_conn i (set_in rest);; returns (Ok x)
      | Partial => returns (Err (Errorf "EOF"))
      | Malformed e => returns (Err e)
      end
  end)%go.

(** The answer is whether the connection can be used again, and the response or the
    error that the server reported. *)
Definition decodeResponse {A} `{Wire A} (i : nat) : M network (bool * result A) := (
  res <- conn_Decode i;;
  match res with
  | Err err => Release i;; returns (false, Err err)
  | Ok rpcError =>
      res <- conn_Decode i;;
      match res with
      | Err err => Release i;; returns (false, Err err)
      | Ok resp =>
          if decide (rpcError <> "") then returns (true, Err (Errorf (fmt_Sprintf rpcError)))
          else returns (true, Ok resp)
      end
  end)%go.

Definition genericRPC {A} `{Wire A} (id : ServerID) (target : ServerAddress) (bytes : string)
    : M network (result A) := (
  res <- getConnFromAddressProvider id target;;
  match res with
  | Err err => returns (Err err)
  | Ok conn =>
      err <- sendRPC conn bytes;;
      match err with
      | Some err => returns (Err err)
      | None =>
          res <- decodeResponse conn;;
          (if res.1 then returnConn conn else returns tt);;
          returns res.2
      end
  end)%go.

Definition net_AppendEntries id target (args : AppendEntriesRequest)
    : M network (result AppendEntriesResponse) :=
  genericRPC id target (encode_command (cmd_AppendEntries args)).
Definition net_RequestVote id target (args : RequestVoteRequest)
    : M network (result RequestVoteResponse) :=
  genericRPC id target (encode_command (cmd_RequestVote args)).
Definition net_RequestPreVote id target (args : RequestPreVoteRequest)
    : M network (result RequestPreVoteResponse) :=
  genericRPC id target (encode_command (cmd_RequestPreVote args)).
Definition net_TimeoutNow id target (args : TimeoutNowRequest)
    : M network (result TimeoutNowResponse) :=
  genericRPC id target (encode_command (cmd_TimeoutNow args)).

(** The deadline of [InstallSnapshot], for a positive [n.timeout]. *)
Definition snapshot_timeout (timeout size TimeoutScale : Z) : option Z :=
  if decide (TimeoutScale = 0)%Z then None
  else
    let t := i64_wrap (timeout * Z.quot size TimeoutScale) in
    Some (if decide (t < timeout)%Z then timeout else t).

(** The request, [data] behind it with the flush, and the response. *)
Definition stream_snapshot (conn : nat) (args : InstallSnapshotRequest) (data : string)
    : M network (result InstallSnapshotResponse) := (
  err <- sendRPC conn (encode_command (cmd_InstallSnapshot args));;
  match err with
  | Some err => returns (Err err)
  | None =>
      f <- net_call;;
      match f with
      | Some f =>
          run_server conn false (string_take (nf_delivered f) data);;
          returns (Err (nf_error f))
      | None =>
          f <- net_call;;
          match f with
          | Some f =>
              run_server conn false (string_take (nf_delivered f) data);;
              returns (Err (nf_error f))
          | None =>
              run_server conn false data;;
              res <- decodeResponse conn;;
              returns res.2
          end
      end
  end)%go.

(** The connection is released in every case. *)
Definition net_InstallSnapshot id target (args : InstallSnapshotRequest) (data : string)
    : M network (result InstallSnapshotResponse) := (
  res <- getConnFromAddressProvider id target;;
  match res with
  | Err err => returns (Err err)
  | Ok conn =>
      res <- stream_snapshot conn args data;;
      Release conn;;
      returns res
  end)%go.

(** The delay of [listen] after another failure to accept a connection. *)
Definition listen_delay (loopDelay : Z) : Z :=
  let baseDelay := (5 * Millisecond)%Z in
  let maxDelay := (1 * Second)%Z in
  let loopDelay := if decide (loopDelay = 0)%Z then baseDelay else (loopDelay * 2)%Z in
  if decide (maxDelay < loopDelay)%Z then maxDelay else loopDelay.

(** The loops of [CloseStreams] over the pool. *)
Fixpoint release_all (conns : list nat) : M network unit :=
  match conns with
  | [] => returns tt
  | conn :: conns => (Release conn;; release_all conns)%go
  end.

Definition CloseStreams : M network unit := (
  n <- get_state;;
  release_all (mjoin ((map_to_list (nw_connPool n)).*2));;
  modify (with_pool ∅))%go.

(** [n.maxInFlight] from the configuration. *)
Definition maxInFlight (MaxRPCsInFlight : nat) : nat :=
  if decide (MaxRPCsInFlight = 0)%nat then 2 else MaxRPCsInFlight.

(** The connection of the pipeline and the pipeline. *)
Definition AppendEntriesPipeline (MaxRPCsInFlight : nat) id target
    : M network (result (nat * netPipeline)) :=
  if decide (maxInFlight MaxRPCsInFlight < 2)%nat
  then returns (Err (Errorf "pipeline replication not supported"))
  else (
    res <- getConnFromAddressProvider id target;;
    match res with
    | Err err => returns (Err err)
    | Ok conn =>
        match newNetPipeline (maxInFlight MaxRPCsInFlight) with
        | None => panic
        | Some p => returns (Ok (conn, p))
        end
    end)%go.

Definition net_Close : M network unit :=
  modify (fun n => mkNet (nw_conns n) (nw_connPool n) (nw_maxPool n) true (nw_faults n)
                     (nw_servers n)).
End Client.

(** ** Raft behind the transport *)

Section RaftServer.
Context {L K SN : Type} `{LogStore L} `{StableStore K} `{SnapshotStore SN} `{MsgPack}
  `{PeerCodec} `{RPCCodec}.
Abbreviation raft := (Raft L K SN).

(** The servers at their addresses answer what their transports hand them: heartbeats
    by [processHeartbeat], the rest by the main thread.  [installSnapshot] reads all
    of the data, a command that [processRPC] refuses leaves it unread.  A server that
    panics or is shut down does not answer. *)
Definition raft_serve (env : rpcEnv) (addr : ServerAddress)
    : handler (gmap ServerAddress raft) := fun heartbeat c data w =>
  match w !! addr with
  | None => (None, w)
  | Some r =>
      let env := mkRpcEnv (env_now env) (env_msec env) data None (env_answer env) in
      let m := if heartbeat then processHeartbeat (env_now env) c
               else (res <- processRPC env c;; returns (Some res))%go in
      let read := match checkRPCHeader r (command_header c) with
                  | Some _ => 0%nat
                  | None => String.length data
                  end in
      match m r with
      | Done (Some (resp, err)) r' => (Some (resp, err, read), <[addr := r']> w)
      | Done None r' => (None, <[addr := r']> w)
      | Panicked r' => (None, <[addr := r']> w)
      end
  end.
End RaftServer.

(** ** Facts: the wire *)

Section WireFacts.
Context `{RPCCodec} `{!RPCCodecLaws}.

Definition sendable (c : Command) : Prop := match c with cmd_Other _ => False | _ => True end.

Lemma decode_encode_command c rest :
  sendable c -> decode_command (encode_command c +:+ rest) = Complete c rest.
Proof.
  destruct c as [x|x|x|x|x|]; intros Hc; [..|done]; cbn [encode_command];
    (match goal with |- decode_command (String ?b _ +:+ _) = ?rhs =>
      change (decode_command (String b (wire_Encode x +:+ rest)) = rhs) end);
    unfold decode_command; rewrite wire_Decode_Encode; reflexivity.
Qed.

Lemma decode_command_part c n :
  sendable c -> (n < String.length (encode_command c))%nat ->
  decode_command (string_take n (encode_command c)) = Partial.
Proof.
  destruct n as [|n]; [by destruct c|].
  destruct c; intros Hc Hn; try done; cbn [encode_command string_take];
    unfold decode_command; rewrite wire_Decode_part; try reflexivity; simpl in Hn; lia.
Qed.

Lemma decoded_map_front {A B} `{WireLaws A} (f : A -> B) r c rest :
  decoded_map f (wire_Decode r) = Complete c rest -> (String.length rest <= String.length r)%nat.
Proof.
  destruct (wire_Decode r) as [x rest'| |] eqn:Hd; [|done..]. intros [= _ <-].
  apply wire_Decode_front in Hd as [p ->]. rewrite append_length. lia.
Qed.

Lemma decode_command_front r c rest :
  decode_command r = Complete c rest -> (String.length rest < String.length r)%nat.
Proof.
  destruct r as [|b r]; [done|]. cbn [decode_command String.length].
  repeat (case_decide; [intros Hd%decoded_map_front; lia|]). done.
Qed.
End WireFacts.

(** ** Facts: the server's end *)

Section ServerFacts.
Context `{RPCCodec} `{!RPCCodecLaws} {W : Type} (serve : handler W).

Lemma handleCommand_rest eof r w out rest w' :
  handleCommand serve eof r w = hd_answered out rest w' ->
  (String.length rest < String.length r)%nat.
Proof.
  unfold handleCommand. destruct (decode_command r) as [c rest'| |] eqn:Hd; [|by destruct eof|done].
  apply decode_command_front in Hd. destruct (rpc_Reader c eof rest'); [|done].
  destruct (serve _ _ _ _) as [[[[resp err] n]|] w1]; [|done]. intros [= _ <- _].
  pose proof (string_drop_length (Nat.min n (String.length s)) rest'). lia.
Qed.

(** The fuel that [run_server] gives is enough: more changes nothing. *)
Lemma handleConn_enough fuel fuel' eof r w :
  (String.length r < fuel)%nat -> (String.length r < fuel')%nat ->
  handleConn serve fuel eof r w = handleConn serve fuel' eof r w.
Proof.
  revert fuel' r w. induction fuel as [|fuel IH]; intros fuel' r w Hf Hf'; [lia|].
  destruct fuel' as [|fuel']; [lia|]. cbn [handleConn].
  destruct (handleCommand serve eof r w) as [| |out rest w'] eqn:Hh; [done..|].
  apply handleCommand_rest in Hh. rewrite (IH fuel' rest w') by lia. done.
Qed.

Lemma handleConn_empty fuel w : handleConn serve (S fuel) false "" w = ("", Some "", w).
Proof. done. Qed.

Lemma handleConn_eof fuel r w :
  decode_command r = Partial -> handleConn serve (S fuel) true r w = ("", None, w).
Proof. intros Hd. cbn [handleConn]. unfold handleCommand. by rewrite Hd. Qed.

Lemma handleConn_part fuel r w :
  decode_command r = Partial -> handleConn serve (S fuel) false r w = ("", Some r, w).
Proof. intros Hd. cbn [handleConn]. unfold handleCommand. by rewrite Hd. Qed.

(** What follows a command: the data of a snapshot, all of it. *)
Definition framed (c : Command) (data : string) : Prop :=
  match c with
  | cmd_InstallSnapshot req => is_Size req = Z.of_nat (String.length data)
  | _ => data = ""
  end.

Definition response (resp : option Reply) (err : option error) : string :=
  wire_Encode (match err with Some e => Error e | None => "" end) +:+ encode_reply resp.

(** Reading a whole request with more behind it. *)
Lemma handleCommand_request eof c data rest w :
  sendable c -> framed c data ->
  handleCommand serve eof (encode_command c +:+ data +:+ rest) w =
    match serve (isHeartbeat c) c data w with
    | (None, w') => hd_closed w'
    | (Some (resp, err, n), w') =>
        hd_answered (response resp err)
          (string_drop (Nat.min n (String.length data)) (data +:+ rest)) w'
    end.
Proof.
  intros Hc Hf. unfold handleCommand. rewrite decode_encode_command by done.
  assert (rpc_Reader c eof (data +:+ rest) = Some data) as ->; [|done].
  destruct c; simpl in Hf; subst; try done. simpl. rewrite Hf, append_length.
  rewrite decide_True by lia. by rewrite Nat2Z.id, string_take_app.
Qed.
End ServerFacts.

(** ** Facts: the client's end *)

Definition idle (c : netConn) : Prop :=
  nc_open c = true /\ nc_in c = "" /\ nc_srv c = "" /\ nc_srv_open c = true.

(** The connections in the pool are idle, each in its pool once and its pool not too
    large; the other open connections are [used]. *)
Record pool_ok {W} (used : option nat) (n : net W) : Prop := {
  pk_bound t ids : nw_connPool n !! t = Some ids ->
    (Z.of_nat (length ids) <= Z.max 0 (nw_maxPool n))%Z;
  pk_once t ids : nw_connPool n !! t = Some ids -> NoDup ids;
  pk_idle t ids i : nw_connPool n !! t = Some ids -> i ∈ ids -> used <> Some i /\
    exists c, nw_conns n !! i = Some c /\ nc_target c = t /\ idle c;
  pk_open i c : nw_conns n !! i = Some c -> nc_open c = true -> used = Some i \/
    exists ids, nw_connPool n !! nc_target c = Some ids /\ i ∈ ids
}.

Section ClientFacts.
Context `{RPCCodec} `{!RPCCodecLaws} {W : Type} (serve : ServerAddress -> handler W).
Context (provider : option (ServerID -> result ServerAddress)).
Implicit Types n : net W.

(** The pool and its size are those of another state. *)
Definition same_pool n n' : Prop :=
  nw_connPool n' = nw_connPool n /\ nw_maxPool n' = nw_maxPool n.

(** What happens to the connection in use does not matter to the pool. *)
Lemma pool_ok_conn i c' n n' :
  pool_ok (Some i) n -> same_pool n n' -> nw_conns n' = <[i := c']> (nw_conns n) ->
  pool_ok (Some i) n'.
Proof.
  intros Hok [Hp Hm] Hc. split.
  - intros t ids. rewrite Hp, Hm. apply Hok.
  - intros t ids. rewrite Hp. apply Hok.
  - intros t ids j. rewrite Hp. intros Ht Hj. destruct (pk_idle _ _ Hok t ids j Ht Hj) as [Hne Hx].
    split; [done|]. rewrite Hc, list_lookup_insert_ne by congruence. done.
  - intros j c. rewrite Hc, Hp. destruct (decide (j = i)) as [->|Hn]; [by left|].
    rewrite list_lookup_insert_ne by done. apply Hok.
Qed.

Lemma pool_ok_same used n n' :
  pool_ok used n -> same_pool n n' -> nw_conns n' = nw_conns n -> pool_ok used n'.
Proof.
  intros Hok [Hp Hm] Hc. split; intros *; rewrite ?Hp, ?Hm, ?Hc; apply Hok.
Qed.

(** A connection that is closed is of no concern. *)
Lemma pool_ok_closed i n c :
  pool_ok (Some i) n -> nw_conns n !! i = Some c -> nc_open c = false -> pool_ok None n.
Proof.
  intros Hok Hi Hc. split; [apply Hok..| |].
  - intros t ids j Ht Hj. destruct (pk_idle _ _ Hok t ids j Ht Hj). by split.
  - intros j d Hj Hd. destruct (pk_open _ _ Hok j d Hj Hd) as [[= <-]|?]; [congruence|by right].
Qed.

(** [m] is about the connection [i], in the state [c], and leaves it in a state and
    the servers as [Q] says. *)
Definition conn_call {A} (i : nat) (m : M (net W) A) (c : netConn) (w : W)
    (Q : A -> netConn -> W -> Prop) : Prop :=
  forall n, nw_conns n !! i = Some c -> nw_servers n = w ->
  exists a n' c', m n = Done a n' /\ same_pool n n' /\ nw_shutdown n' = nw_shutdown n /\
    nw_conns n' = <[i := c']> (nw_conns n) /\ nc_target c' = nc_target c /\
    Q a c' (nw_servers n').

Lemma conn_call_bind {A B} i (m : M (net W) A) (f : A -> M (net W) B) c w P Q :
  conn_call i m c w P ->
  (forall a c' w', nc_target c' = nc_target c -> P a c' w' -> conn_call i (f a) c' w' Q) ->
  conn_call i (bind m f) c w Q.
Proof.
  intros Hm Hf n Hi Hw. destruct (Hm n Hi Hw) as (a & n1 & c1 & Hr & [Hp Hx] & Hs & Hc & Ht & HP).
  assert (nw_conns n1 !! i = Some c1) as Hi1.
  { rewrite Hc. apply list_lookup_insert_eq. by apply lookup_lt_Some in Hi. }
  destruct (Hf a c1 (nw_servers n1) Ht HP n1 Hi1 eq_refl)
    as (b & n2 & c2 & Hr2 & [Hp2 Hx2] & Hs2 & Hc2 & Ht2 & HQ).
  exists b, n2, c2. unfold bind. rewrite Hr. split_and!; try done; try congruence.
  - split; congruence.
  - rewrite Hc2, Hc. apply list_insert_insert_eq.
Qed.

Lemma conn_call_returns {A} i (a : A) c w (Q : A -> netConn -> W -> Prop) :
  Q a c w -> conn_call i (returns a) c w Q.
Proof.
  intros HQ n Hi <-. exists a, n, c. split_and!; try done.
  by rewrite list_insert_id.
Qed.

Lemma conn_call_mono {A} i (m : M (net W) A) c w (P Q : A -> netConn -> W -> Prop) :
  conn_call i m c w P -> (forall a c' w', nc_target c' = nc_target c -> P a c' w' -> Q a c' w') ->
  conn_call i m c w Q.
Proof.
  intros Hm HPQ n Hi Hw. destruct (Hm n Hi Hw) as (a & n' & c' & ? & ? & ? & ? & ? & ?).
  exists a, n', c'. split_and!; auto.
Qed.

Lemma conn_call_get {B} i (f : net W -> M (net W) B) c w Q :
  (forall n, nw_conns n !! i = Some c -> nw_servers n = w -> conn_call i (f n) c w Q) ->
  conn_call i (bind get_state f) c w Q.
Proof. intros Hf n Hi Hw. exact (Hf n Hi Hw n Hi Hw). Qed.

Lemma conn_call_net_call i c w : conn_call i net_call c w (fun _ c' w' => c' = c /\ w' = w).
Proof.
  intros n Hi <-. unfold net_call. destruct (nw_faults n) as [|f fs].
  - exists None, n, c. by rewrite list_insert_id.
  - exists f, (with_faults fs n), c. simpl. by rewrite list_insert_id.
Qed.

Lemma conn_call_update i f c w :
  nc_target (f c) = nc_target c ->
  conn_call i (update_conn i f) c w (fun _ c' w' => c' = f c /\ w' = w).
Proof.
  intros Ht n Hi <-. unfold update_conn, modify. eexists tt, _, (f c).
  split_and!; try done. simpl. apply list_eq. intros j.
  destruct (decide (j = i)) as [->|Hn].
  - rewrite list_lookup_alter_eq, list_lookup_insert_eq, Hi; [done|]. by apply lookup_lt_Some in Hi.
  - by rewrite list_lookup_alter_ne, list_lookup_insert_ne.
Qed.

Lemma conn_call_servers i w' c w : conn_call i (modify (with_servers w')) c w
  (fun _ c' v => c' = c /\ v = w').
Proof.
  intros n Hi _. eexists tt, _, c. split_and!; try done. simpl. by rewrite list_insert_id.
Qed.
End ClientFacts.

(** A pipeline gets a connection of its own and never panics. *)
Lemma AppendEntriesPipeline_no_panic {W} provider mif id t (n n' : net W) :
  AppendEntriesPipeline provider mif id t n <> Panicked n'.
Proof.
  unfold AppendEntriesPipeline, getConnFromAddressProvider, bind. case_decide as Hm; [done|].
  assert (forall n'', getConn (getProviderAddressOrFallback provider id t) n <> Panicked n'') as Hg.
  { intros n''. unfold getConn, getPooledConn, Dial, net_call, bind, get_state. by repeat case_match. }
  destruct (getConn _ n) as [[i|e] n1|n1] eqn:Hc; [|done|by destruct (Hg n1)].
  unfold newNetPipeline. by rewrite decide_False.
Qed.

(** The delays between failures to accept: 5 ms, doubling, never more than a second. *)
Lemma listen_delay_spec k :
  Nat.iter (S k) listen_delay 0%Z = Z.min (5 * Millisecond * 2 ^ Z.of_nat k) (1 * Second).
Proof.
  induction k as [|k IH]; [done|]. change (Nat.iter (S (S k)) listen_delay 0%Z) with
    (listen_delay (Nat.iter (S k) listen_delay 0%Z)). rewrite IH. clear IH.
  rewrite Nat2Z.inj_succ, Z.pow_succ_r by lia.
  assert (0 < 2 ^ Z.of_nat k)%Z by (apply Z.pow_pos_nonneg; lia).
  generalize dependent (2 ^ Z.of_nat k)%Z. intros x Hx.
  unfold listen_delay, Second, Millisecond. cbv zeta. repeat case_decide; lia.
Qed.

(** ** Facts: calls on a connection *)

Section Calls.
Context `{RPCCodec} `{!RPCCodecLaws} {W : Type} (serve : ServerAddress -> handler W).
Context (provider : option (ServerID -> result ServerAddress)).

(** What the server makes of the bytes [p] on a new connection, and what remains when
    the client then closes it. *)
Definition served (t : ServerAddress) (eof : bool) (p : string) (w : W)
    : string * option string * W :=
  handleConn (serve t) (S (String.length p)) eof p w.

Definition served_and_closed (t : ServerAddress) (p : string) (w : W) : W :=
  match served t false p w with
  | (_, None, w') => w'
  | (_, Some r, w') => (served t true r w').2
  end.

Lemma run_server_call i eof p c w :
  conn_call i (run_server serve i eof p) c w (fun _ c' w' =>
    if nc_srv_open c then
      let '(out, unread, v) := served (nc_target c) eof (nc_srv c +:+ p) w in
      c' = after_serve out unread c /\ w' = v
    else c' = c /\ w' = w).
Proof.
  unfold run_server. apply conn_call_get. intros n Hi <-. rewrite Hi.
  change (default no_conn (Some c)) with c.
  destruct (nc_srv_open c); [|by apply conn_call_returns].
  unfold served. destruct (handleConn _ _ _ _ _) as [[out unread] v].
  eapply conn_call_bind; [apply conn_call_servers|]. intros [] c' w' _ [-> ->].
  by apply conn_call_update.
Qed.

Lemma Release_call i c w :
  conn_call i (Release serve i) c w (fun _ c' w' => nc_open c' = false /\
    w' = if nc_open c && nc_srv_open c then (served (nc_target c) true (nc_srv c) w).2 else w).
Proof.
  unfold Release. apply conn_call_get. intros n Hi <-. rewrite Hi.
  change (default no_conn (Some c)) with c.
  destruct (nc_open c) eqn:Ho; [|by apply conn_call_returns].
  eapply conn_call_bind; [apply run_server_call|]. intros [] c' w' _.
  rewrite append_empty.
  destruct (nc_srv_open c).
  - destruct (served _ _ _ _) as [[out unread] v]. intros [-> ->].
    eapply conn_call_mono; [by apply conn_call_update|]. by intros [] ? ? _ [-> ->].
  - intros [-> ->]. eapply conn_call_mono; [by apply conn_call_update|]. by intros [] ? ? _ [-> ->].
Qed.

(** Giving up on a connection after some of the bytes were delivered. *)
Lemma give_up_call {A} i p (a : A) c w :
  idle c ->
  conn_call i (run_server serve i false p;; Release serve i;; returns a)%go c w
    (fun a' c' w' => a' = a /\ nc_open c' = false /\
       w' = served_and_closed (nc_target c) p w).
Proof.
  intros (Ho & Hin & Hs & Hso). eapply conn_call_bind; [apply run_server_call|].
  intros [] c' w' Ht. rewrite Hs, Hso. unfold served_and_closed. change ("" +:+ p) with p.
  destruct (served _ false p w) as [[out unread] v]. intros [-> ->].
  eapply conn_call_bind; [apply Release_call|]. intros [] c2 w2 _ [Hc2 ->].
  apply conn_call_returns. split_and!; try done. simpl. rewrite Ho. by destruct unread.
Qed.

Lemma sendRPC_call i bytes c w :
  idle c ->
  conn_call i (sendRPC serve i bytes) c w (fun err c' w' =>
    match err with
    | Some _ => nc_open c' = false /\
        exists k, w' = served_and_closed (nc_target c) (string_take k bytes) w
    | None => let '(out, unread, v) := served (nc_target c) false bytes w in
        c' = after_serve out unread c /\ w' = v
    end).
Proof.
  intros Hi. unfold sendRPC.
  eapply conn_call_bind; [apply conn_call_net_call|]. intros [f|] ? ? _ [-> ->].
  { pose proof Hi as (Ho & Hin & Hs & Hso).
    eapply conn_call_bind; [apply Release_call|]. intros [] c' w' _ [Hc ->].
    apply conn_call_returns. split; [done|]. exists 0%nat. rewrite Ho, Hso, Hs.
    by destruct bytes. }
  do 2 (eapply conn_call_bind; [apply conn_call_net_call|]; intros [f|] ? ? _ [-> ->];
    [eapply conn_call_mono; [by apply give_up_call|];
     intros err c' w' _ (-> & Hc & ->); split; [done|by eexists]|]).
  eapply conn_call_bind; [apply run_server_call|]. intros [] c' w' _.
  destruct Hi as (Ho & Hin & Hs & Hso). rewrite Hs, Hso. intros Hx.
  by apply conn_call_returns.
Qed.

Lemma served_command t c data w :
  sendable c -> framed c data ->
  served t false (encode_command c +:+ data) w =
    match serve t (isHeartbeat c) c data w with
    | (None, w') => ("", None, w')
    | (Some (resp, err, n), w') =>
        let '(out, unread, v) :=
          served t false (string_drop (Nat.min n (String.length data)) data) w' in
        (response resp err +:+ out, unread, v)
    end.
Proof.
  intros Hc Hf. unfold served at 1. cbn [handleConn].
  rewrite <- (append_empty (encode_command c +:+ data)), append_assoc.
  rewrite handleCommand_request by done.
  destruct (serve t _ c data w) as [[[[resp err] n]|] w']; [|done].
  rewrite append_empty. unfold served.
  rewrite (handleConn_enough _ (String.length (encode_command c +:+ data))
    (S (String.length (string_drop (Nat.min n (String.length data)) data)))); [done| |lia].
  pose proof (string_drop_length (Nat.min n (String.length data)) data).
  rewrite append_length. assert (0 < String.length (encode_command c))%nat; [|lia].
  destruct c; [simpl; lia..|done].
Qed.

(** A command without data, delivered whole or in part. *)
Lemma served_plain t c w :
  sendable c -> framed c "" ->
  served t false (encode_command c) w =
    match serve t (isHeartbeat c) c "" w with
    | (None, w') => ("", None, w')
    | (Some (resp, err, n), w') => (response resp err, Some "", w')
    end.
Proof.
  intros Hc Hf. rewrite <- (append_empty (encode_command c)), served_command by done.
  destruct (serve t _ c "" w) as [[[[resp err] n]|] w']; [|done].
  destruct n; simpl; by rewrite append_empty.
Qed.

Lemma string_take_ge n s : (String.length s <= n)%nat -> string_take n s = s.
Proof.
  revert s. induction n as [|n IH]; intros [|c s] Hn; simpl in *; [done|lia|done|].
  by rewrite IH by lia.
Qed.

Lemma served_and_closed_part t c k w :
  sendable c -> framed c "" ->
  served_and_closed t (string_take k (encode_command c)) w = w \/
  served_and_closed t (string_take k (encode_command c)) w =
    (serve t (isHeartbeat c) c "" w).2.
Proof.
  intros Hc Hf. destruct (decide (String.length (encode_command c) <= k)%nat) as [Hk|Hk].
  - right. rewrite string_take_ge by done. unfold served_and_closed.
    rewrite served_plain by done. by destruct (serve t _ c "" w) as [[[[resp err] n]|] w'].
  - left. unfold served_and_closed, served.
    rewrite handleConn_part by (apply decode_command_part; [done|lia]).
    by rewrite handleConn_eof by (apply decode_command_part; [done|lia]).
Qed.

Lemma conn_Decode_call {A} `{WireLaws A} i c w :
  conn_call (W := W) i (conn_Decode i) c w (fun res c' w' => w' = w /\
    match res with
    | Err _ => c' = c
    | Ok x => exists rest, wire_Decode (nc_in c) = Complete x rest /\ c' = set_in rest c
    end).
Proof.
  unfold conn_Decode. eapply conn_call_bind; [apply conn_call_net_call|].
  intros [f|] ? ? _ [-> ->]; [by apply conn_call_returns|].
  apply conn_call_get. intros n Hi <-. rewrite Hi. simpl.
  destruct (wire_Decode (nc_in c)) as [x rest| |]; try by apply conn_call_returns.
  eapply conn_call_bind; [by apply conn_call_update|]. intros [] ? ? _ [-> ->].
  apply conn_call_returns. eauto.
Qed.

(** The result of a call from what the server sent: the response unless the text of
    the error is not empty. *)
Definition rpc_result {A} (rpcError : string) (x : A) : result A :=
  if decide (rpcError <> "") then Err (Errorf (fmt_Sprintf rpcError)) else Ok x.

(** The text of an error is read as a format: a percent sign in it does not survive. *)
Example rpc_result_format :
  rpc_result "disk 90% full" tt = Err (Errorf "disk 90%!f(MISSING)ull").
Proof. reflexivity. Qed.

Lemma rpc_result_text {A} (e : string) (x : A) :
  e <> "" -> percent_free e = true -> rpc_result e x = Err (Errorf e).
Proof. intros He Hp. unfold rpc_result. by rewrite decide_True, fmt_Sprintf_text. Qed.

Lemma decodeResponse_call {A} `{WireLaws A} i c w :
  (nc_srv_open c = true -> nc_srv c = "") ->
  conn_call (W := W) i (decodeResponse serve i) c w (fun res c' w' => w' = w /\
    match res with
    | (false, res) => nc_open c' = false /\ exists e, res = Err e
    | (true, res) => exists rpcError x r1 r2, wire_Decode (nc_in c) = Complete rpcError r1 /\
        wire_Decode r1 = Complete x r2 /\ c' = set_in r2 c /\ res = rpc_result rpcError x
    end).
Proof.
  intros Hsrv.
  assert (forall c0 (e : error), nc_srv c0 = nc_srv c -> nc_srv_open c0 = nc_srv_open c ->
    conn_call (W := W) i (Release serve i;; returns (false, @Err A e))%go c0 w
      (fun res c' w' => w' = w /\ res = (false, Err e) /\ nc_open c' = false)) as Hrel.
  { intros c0 e Hs Hso. eapply conn_call_bind; [apply Release_call|]. intros [] c1 w1 _ [Hc1 ->].
    apply conn_call_returns. split_and!; try done. rewrite Hs, Hso.
    destruct (nc_open c0), (nc_srv_open c); try done. by rewrite Hsrv. }
  unfold decodeResponse. eapply conn_call_bind; [apply conn_Decode_call|].
  intros [rpcError|e] c1 w1 _ [-> Hc1].
  - destruct Hc1 as (r1 & Hd1 & ->).
    eapply conn_call_bind; [apply conn_Decode_call|]. intros [x|e] c2 w2 _ [-> Hc2].
    + destruct Hc2 as (r2 & Hd2 & ->). unfold rpc_result.
      case_decide; apply conn_call_returns; (split; [done|]); exists rpcError, x, r1, r2;
        (split_and!; [done..|by case_decide]).
    + subst. eapply conn_call_mono; [by apply Hrel|]. intros res c' w' _ (-> & -> & ?). eauto.
  - subst. eapply conn_call_mono; [by apply Hrel|]. intros res c' w' _ (-> & -> & ?). eauto.
Qed.
End Calls.

(** ** Facts: the pool *)

Section Pool.
Context {W : Type}.
Implicit Types n : net W.

Lemma last_split {B} (l : list B) x :
  last l = Some x -> l = take (length l - 1) l ++ [x].
Proof.
  intros Hl. apply last_Some in Hl as [l' ->]. rewrite length_app. simpl.
  by rewrite Nat.add_sub, take_app_length.
Qed.

Lemma getPooledConn_spec t n :
  pool_ok None n ->
  match getPooledConn t n with
  | Done None n' => n' = n
  | Done (Some i) n' => pool_ok (Some i) n' /\ nw_servers n' = nw_servers n /\
      exists cn, nw_conns n' !! i = Some cn /\ idle cn /\ nc_target cn = t
  | Panicked _ => False
  end.
Proof.
  intros Hok. unfold getPooledConn, bind, get_state.
  destruct (last _) as [i|] eqn:Hl; [|done]. simpl.
  destruct (nw_connPool n !! t) as [ids|] eqn:Hp; [|done]. simpl in Hl |- *.
  apply last_split in Hl as Hids. set (ids' := take (length ids - 1) ids) in *.
  assert (i ∈ ids) as Hi by (rewrite Hids; set_solver).
  pose proof (pk_once _ _ Hok t ids Hp) as Hnd. rewrite Hids in Hnd.
  apply NoDup_app in Hnd as (Hnd & Hni & _).
  assert (i ∉ ids') as Hni' by (intros Hx; apply (Hni i Hx); by left).
  destruct (pk_idle _ _ Hok t ids i Hp Hi) as (_ & cn & Hcn & Ht & Hidle).
  split; [|by eauto]. split; simpl.
  - intros t' l. destruct (decide (t' = t)) as [->|Hn];
      [rewrite lookup_insert_eq|rewrite lookup_insert_ne by done; apply Hok].
    intros [= <-]. pose proof (pk_bound _ _ Hok t ids Hp). unfold ids'. rewrite length_take. lia.
  - intros t' l. destruct (decide (t' = t)) as [->|Hn];
      [rewrite lookup_insert_eq|rewrite lookup_insert_ne by done; apply Hok]. by intros [= <-].
  - intros t' l j. destruct (decide (t' = t)) as [->|Hn].
    + rewrite lookup_insert_eq. intros [= <-] Hj. split; [by intros [= ->]|].
      apply (pk_idle _ _ Hok t ids); [done|]. rewrite Hids. set_solver.
    + rewrite lookup_insert_ne by done. intros Hl' Hj.
      destruct (pk_idle _ _ Hok t' l j Hl' Hj) as (_ & cj & Hcj & Htj & Hidj).
      split; [|by eauto]. intros [= ->]. congruence.
  - intros j cj Hj Ho. destruct (pk_open _ _ Hok j cj Hj Ho) as [|(l & Hl' & Hjl)]; [done|].
    destruct (decide (j = i)) as [->|Hn]; [by left|]. right.
    destruct (decide (nc_target cj = t)) as [Htj|Htj].
    + exists ids'. rewrite Htj, lookup_insert_eq. split; [done|].
      assert (l = ids) as -> by congruence. rewrite Hids in Hjl. set_solver.
    + exists l. by rewrite lookup_insert_ne.
Qed.

Lemma getConn_spec t n :
  pool_ok None n ->
  match getConn t n with
  | Done (Err _) n' => pool_ok None n' /\ nw_servers n' = nw_servers n
  | Done (Ok i) n' => pool_ok (Some i) n' /\ nw_servers n' = nw_servers n /\
      exists cn, nw_conns n' !! i = Some cn /\ idle cn /\ nc_target cn = t
  | Panicked _ => False
  end.
Proof.
  intros Hok. unfold getConn, bind at 1. pose proof (getPooledConn_spec t n Hok) as Hp.
  destruct (getPooledConn t n) as [[i|] n1|]; [done| |done]. subst n1.
  unfold Dial, bind, net_call. destruct (nw_faults n) as [|[f|] fs].
  all: try (split; [by eapply pool_ok_same|done]).
  all: simpl; split; [|split; [done|eexists; rewrite lookup_app_r, Nat.sub_diag by done; by split_and!]].
  all: split; simpl; [apply Hok..| |].
  all: try (intros t' ids j Ht' Hj; destruct (pk_idle _ _ Hok t' ids j Ht' Hj) as (_ & cj & Hcj & Hx);
       pose proof (lookup_lt_Some _ _ _ Hcj); split; [intros [= ?]; lia|];
       exists cj; by rewrite lookup_app_l).
  all: intros j cj [Hj|[Hlen Hj]]%lookup_app_Some Ho.
  all: try (destruct (pk_open _ _ Hok j cj Hj Ho) as [|Hx]; [done|by right]).
  all: left; apply list_lookup_singleton_Some in Hj as [Hj _]; f_equal; lia.
Qed.

(** Closing the connection in use. *)
Lemma pool_ok_release {B} i (m : M (net W) B) cn n Q :
  pool_ok (Some i) n -> nw_conns n !! i = Some cn ->
  conn_call i m cn (nw_servers n) (fun a c w => Q a c w /\ nc_open c = false) ->
  exists a n' cn', m n = Done a n' /\ pool_ok None n' /\ Q a cn' (nw_servers n').
Proof.
  intros Hok Hi Hm.
  destruct (Hm n Hi eq_refl) as (a & n' & cn' & Hr & Hsame & _ & Hc & _ & HQ & Ho).
  exists a, n', cn'. split; [done|]. split; [|done].
  eapply pool_ok_closed; [by eapply (pool_ok_conn i cn')| |exact Ho].
  rewrite Hc. apply list_lookup_insert_eq. by apply lookup_lt_Some in Hi.
Qed.

(** Putting an idle connection into its pool. *)
Lemma pool_ok_return i cn ids n :
  pool_ok (Some i) n -> nw_conns n !! i = Some cn -> idle cn ->
  default [] (nw_connPool n !! nc_target cn) = ids -> (Z.of_nat (length ids) < nw_maxPool n)%Z ->
  pool_ok None (with_pool (<[nc_target cn := ids ++ [i]]> (nw_connPool n)) n).
Proof.
  intros Hok Hi Hidle Hids Hb.
  assert (forall j, j ∈ ids -> nw_connPool n !! nc_target cn = Some ids) as Hin.
  { intros j Hj. destruct (nw_connPool n !! nc_target cn); simpl in Hids; subst; [done|].
    by apply elem_of_nil in Hj. }
  assert (NoDup ids) as Hnd.
  { destruct (nw_connPool n !! nc_target cn) eqn:Hp; simpl in Hids; subst;
      [by eapply pk_once|apply NoDup_nil_2]. }
  split; simpl.
  - intros t l. destruct (decide (t = nc_target cn)) as [->|Hn];
      [rewrite lookup_insert_eq|rewrite lookup_insert_ne by done; apply Hok].
    intros [= <-]. rewrite length_app. simpl. lia.
  - intros t l. destruct (decide (t = nc_target cn)) as [->|Hn];
      [rewrite lookup_insert_eq|rewrite lookup_insert_ne by done; apply Hok].
    intros [= <-]. apply NoDup_app. split_and!; [done| |apply NoDup_singleton].
    intros j Hj ->%list_elem_of_singleton. by destruct (pk_idle _ _ Hok _ ids i (Hin _ Hj) Hj).
  - intros t l j Hl Hj. split; [done|]. revert Hl.
    destruct (decide (t = nc_target cn)) as [->|Hn].
    + rewrite lookup_insert_eq. intros [= <-].
      apply elem_of_app in Hj as [Hj| ->%list_elem_of_singleton]; [|by eauto].
      by destruct (pk_idle _ _ Hok _ ids j (Hin _ Hj) Hj).
    + rewrite lookup_insert_ne by done. intros Hl. by destruct (pk_idle _ _ Hok t l j Hl Hj).
  - intros j cj Hj Ho. right. destruct (pk_open _ _ Hok j cj Hj Ho) as [[= <-]|(l & Hl & Hjl)].
    + assert (cj = cn) as -> by congruence. exists (ids ++ [i]). rewrite lookup_insert_eq.
      split; [done|]. set_solver.
    + destruct (decide (nc_target cj = nc_target cn)) as [He|He].
      * exists (ids ++ [i]). rewrite He, lookup_insert_eq. split; [done|].
        rewrite He in Hl. rewrite Hl in Hids. simpl in Hids. subst. set_solver.
      * exists l. by rewrite lookup_insert_ne.
Qed.
End Pool.

(** ** The remote procedure calls *)

(** The responses of each kind of call. *)
Class ReplyType (A : Type) `{RPCCodec} `{Wire A} := {
  to_Reply : A -> Reply;
  encode_to_Reply x : encode_reply (Some (to_Reply x)) = wire_Encode x
}.

#[export] Instance reply_type_AppendEntries `{RPCCodec} : ReplyType AppendEntriesResponse :=
  {| to_Reply := reply_AppendEntries; encode_to_Reply _ := eq_refl |}.
#[export] Instance reply_type_RequestVote `{RPCCodec} : ReplyType RequestVoteResponse :=
  {| to_Reply := reply_RequestVote; encode_to_Reply _ := eq_refl |}.
#[export] Instance reply_type_RequestPreVote `{RPCCodec} : ReplyType RequestPreVoteResponse :=
  {| to_Reply := reply_RequestPreVote; encode_to_Reply _ := eq_refl |}.
#[export] Instance reply_type_InstallSnapshot `{RPCCodec} : ReplyType InstallSnapshotResponse :=
  {| to_Reply := reply_InstallSnapshot; encode_to_Reply _ := eq_refl |}.
#[export] Instance reply_type_TimeoutNow `{RPCCodec} : ReplyType TimeoutNowResponse :=
  {| to_Reply := reply_TimeoutNow; encode_to_Reply _ := eq_refl |}.

Section Calling.
Context `{RPCCodec} `{!RPCCodecLaws} {W : Type} (serve : ServerAddress -> handler W).
Context (provider : option (ServerID -> result ServerAddress)).
Context {A : Type} `{HA : Wire A} `{!WireLaws A} `{!ReplyType A}.
Implicit Types n : net W.

(** [x] is what the client reads of the response; a nil reads as the zero value. *)
Definition reads_as (resp : option Reply) (x : A) : Prop :=
  match resp with
  | None => x = wire_zero
  | Some reply => reply = to_Reply x
  end.

(** The server answers the command with a response of this type. *)
Definition answers_with (t : ServerAddress) (c : Command) (data : string) : Prop :=
  forall w resp err k w', serve t (isHeartbeat c) c data w = (Some (resp, err, k), w') ->
  exists x, reads_as resp x.

Definition error_text (err : option error) : string :=
  match err with Some e => Error e | None => "" end.

Lemma response_decodes resp err x rest :
  reads_as resp x ->
  exists r1, wire_Decode (response resp err +:+ rest) = Complete (error_text err) r1 /\
    wire_Decode r1 = Complete x rest.
Proof.
  intros Hx. unfold response. rewrite append_assoc. eexists.
  split; [apply wire_Decode_Encode|].
  destruct resp as [reply|]; simpl in Hx; subst.
  - rewrite encode_to_Reply. apply wire_Decode_Encode.
  - apply wire_Decode_nil.
Qed.

(** What a call to the server [t] can come to: an error, when the server handled
    the command or not, or the answer of the server, which has handled it once. *)
Definition called (t : ServerAddress) (c : Command) (data : string) (w : W) (res : result A)
    (w' : W) : Prop :=
  (exists e, res = Err e /\ (w' = w \/ w' = (serve t (isHeartbeat c) c data w).2)) \/
  exists resp err k x, serve t (isHeartbeat c) c data w = (Some (resp, err, k), w') /\
    reads_as resp x /\ res = rpc_result (error_text err) x.

(** [sendRPC] and [decodeResponse] on an idle connection: it is idle again or closed. *)
Lemma exchange_call i c cn w :
  sendable c -> framed c "" -> answers_with (nc_target cn) c "" -> idle cn ->
  conn_call i (
    err <- sendRPC serve i (encode_command c);;
    match err with
    | Some err => returns (false, @Err A err)
    | None => decodeResponse serve i
    end)%go cn w (fun res cn' w' => called (nc_target cn) c "" w res.2 w' /\
      if res.1 then idle cn' else nc_open cn' = false).
Proof.
  intros Hc Hf Hans Hi. eapply conn_call_bind; [by apply sendRPC_call|].
  intros [err|] cn1 w1 _ Hs.
  - destruct Hs as [Ho [k ->]]. apply conn_call_returns. split; [|done]. left. exists err.
    split; [done|]. by apply served_and_closed_part.
  - rewrite served_plain in Hs by done.
    destruct (serve _ _ c "" w) as [[[[resp err] k]|] w2] eqn:Hserve; destruct Hs as [-> ->].
    + eapply conn_call_mono; [by apply decodeResponse_call|]. intros [ok res] cn' w' Ht [-> Hd].
      destruct ok.
      * destruct (Hans _ _ _ _ _ Hserve) as [x Hx].
        destruct (response_decodes resp err x "" Hx) as (r1 & Hd1 & Hd2).
        destruct Hi as (Ho & Hin & Hsrv & Hso).
        destruct Hd as (e' & x' & r1' & r2 & Hd1' & Hd2' & -> & ->). simpl in Hd1'.
        rewrite Hin in Hd1'. rewrite append_empty in Hd1.
        change ("" +:+ response resp err) with (response resp err) in Hd1'.
        rewrite Hd1 in Hd1'. injection Hd1' as <- <-. rewrite Hd2 in Hd2'. injection Hd2' as <- <-. split; [|unfold idle; simpl; split_and!; try done]. right. eexists resp, err, k, _. split_and!; [exact Hserve|exact Hx|]. reflexivity.
      * destruct Hd as (Ho & e & ->). split; [|done]. left. exists e. split; [done|].
        right. by rewrite Hserve.
    + eapply conn_call_mono; [by apply decodeResponse_call|]. intros [ok res] cn' w' Ht [-> Hd].
      destruct ok.
      * destruct Hi as (Ho & Hin & Hsrv & Hso). destruct Hd as (? & ? & ? & ? & Hd & _).
        simpl in Hd. by rewrite Hin, wire_Decode_empty in Hd.
      * destruct Hd as (Ho & e & ->). split; [|done]. left. exists e. split; [done|].
        right. by rewrite Hserve.
Qed.

Lemma returnConn_spec i cn n :
  pool_ok (Some i) n -> nw_conns n !! i = Some cn -> idle cn ->
  exists n', returnConn serve i n = Done tt n' /\ pool_ok None n' /\
    nw_servers n' = nw_servers n.
Proof.
  intros Hok Hi Hidle. unfold returnConn, bind at 1, get_state. rewrite Hi.
  change (default no_conn (Some cn)) with cn.
  destruct (negb _ && _) eqn:Hb.
  - apply andb_prop in Hb as [_ Hb]. apply bool_decide_eq_true in Hb.
    eexists. split; [reflexivity|]. split; [|done]. by apply pool_ok_return.
  - destruct (pool_ok_release i (Release serve i) cn n (fun _ _ w => w = nw_servers n) Hok Hi)
      as ([] & n' & _ & ? & ? & ?); [|by exists n'].
    eapply conn_call_mono; [apply Release_call|]. intros [] c w _ [Ho ->]. split; [|done].
    destruct Hidle as (-> & _ & -> & ->). done.
Qed.

Lemma genericRPC_unfold id t bytes n :
  genericRPC serve provider id t bytes n =
    (res <- getConn (getProviderAddressOrFallback provider id t);;
     match res with
     | Err err => returns (@Err A err)
     | Ok i =>
         res <- (err <- sendRPC serve i bytes;;
                 match err with
                 | Some err => returns (false, @Err A err)
                 | None => decodeResponse serve i
                 end);;
         (if res.1 then returnConn serve i else returns tt);;
         returns res.2
     end)%go n.
Proof.
  unfold genericRPC, getConnFromAddressProvider, bind.
  destruct (getConn _ n) as [[i|e] n1|n1]; [|done..].
  destruct (sendRPC serve i bytes n1) as [[e|] n2|n2]; done.
Qed.

(** A call that is answered is answered by the server it went to, which handled the
    command once; a call that fails was handled once or not at all.  The pool stays
    as it should be. *)
Lemma genericRPC_called id t c n :
  let addr := getProviderAddressOrFallback provider id t in
  pool_ok None n -> sendable c -> framed c "" -> answers_with addr c "" ->
  exists res n', genericRPC serve provider id t (encode_command c) n = Done res n' /\
    pool_ok None n' /\ called addr c "" (nw_servers n) res (nw_servers n').
Proof.
  intros addr Hok Hc Hf Hans. rewrite genericRPC_unfold. fold addr. unfold bind at 1.
  pose proof (getConn_spec addr n Hok) as Hg.
  destruct (getConn addr n) as [[i|e] n1|]; [|destruct Hg as [? Hw]|done].
  - destruct Hg as (Hok1 & Hw & cn & Hi & Hidle & <-). rewrite <- Hw.
    destruct (exchange_call i c cn (nw_servers n1) Hc Hf Hans Hidle n1 Hi eq_refl)
      as ([ok res] & n2 & cn2 & Hr & Hsame & _ & Hcs & _ & Hcall & Hok2).
    unfold bind at 1. rewrite Hr. simpl in Hcall, Hok2.
    assert (nw_conns n2 !! i = Some cn2) as Hi2.
    { rewrite Hcs. apply list_lookup_insert_eq. by apply lookup_lt_Some in Hi. }
    assert (pool_ok (Some i) n2) as Hp2 by (by eapply pool_ok_conn).
    destruct ok; unfold bind; simpl.
    + destruct (returnConn_spec i cn2 n2 Hp2 Hi2 Hok2) as (n3 & -> & Hp3 & Hw3).
      exists res, n3. by rewrite Hw3.
    + exists res, n2. split_and!; try done. by eapply pool_ok_closed.
  - exists (Err e), n1. split_and!; try done. left. exists e. by rewrite Hw; auto.
Qed.
End Calling.

(** ** Streaming a snapshot *)

Section Streaming.
Context `{RPCCodec} `{!RPCCodecLaws} {W : Type} (serve : ServerAddress -> handler W).
Context (provider : option (ServerID -> result ServerAddress)).
Context (req : InstallSnapshotRequest) (data : string).
Hypothesis (Hsize : is_Size req = Z.of_nat (String.length data)).
Abbreviation c := (cmd_InstallSnapshot req).
Abbreviation bytes := (encode_command c).
Implicit Types n : net W.

(** The server reads all of the data that there is. *)
Definition drains (t : ServerAddress) (w : W) : Prop :=
  forall p resp err k w', serve t false c p w = (Some (resp, err, k), w') ->
  (String.length p <= k)%nat.

Lemma string_take_length k s : String.length (string_take k s) = Nat.min k (String.length s).
Proof. revert s. induction k as [|k IH]; intros [|b s]; simpl; auto. Qed.

Lemma snapshot_Reader eof k :
  rpc_Reader c eof (string_take k data) =
    if decide (String.length data <= k)%nat then Some data
    else if eof then Some (string_take k data) else None.
Proof.
  simpl. rewrite Hsize, string_take_length, Nat2Z.id. case_decide as Hk.
  - rewrite decide_True by lia. by rewrite !string_take_ge by (rewrite ?string_take_ge; lia).
  - rewrite decide_False by lia. done.
Qed.

Lemma served_snapshot t eof k w :
  drains t w ->
  served serve t eof (bytes +:+ string_take k data) w =
    if bool_decide (String.length data <= k)%nat || eof then
      match serve t false c (string_take k data) w with
      | (None, w') => ("", None, w')
      | (Some (resp, err, _), w') => (response resp err, if eof then None else Some "", w')
      end
    else ("", Some (bytes +:+ string_take k data), w).
Proof.
  intros Hdr. unfold served. cbn [handleConn]. unfold handleCommand.
  rewrite decode_encode_command, snapshot_Reader by done.
  assert (String.length data <= k -> string_take k data = data)%nat as Hfull
    by apply string_take_ge.
  assert (forall r, r = string_take k data ->
    match match serve t false c r w with
          | (None, w') => hd_closed w'
          | (Some (resp, err, n), w') => hd_answered (response resp err)
              (string_drop (Nat.min n (String.length r)) r) w'
          end with
    | hd_waits => ("", Some (bytes +:+ r), w)
    | hd_closed w' => ("", None, w')
    | hd_answered out rest w' => let '(out', unread, w'') :=
        handleConn (serve t) (String.length (bytes +:+ r)) eof rest w' in
        (out +:+ out', unread, w'')
    end = match serve t false c r w with
      | (None, w') => ("", None, w')
      | (Some (resp, err, _), w') => (response resp err, if eof then None else Some "", w')
      end) as Hone.
  { intros r Hr. destruct (serve t false c r w) as [[[[resp err] n]|] w'] eqn:Hs; [|done].
    apply Hdr in Hs. rewrite Nat.min_r by done.
    assert (string_drop (String.length r) r = "") as ->.
    { rewrite <- (append_empty r) at 2. apply string_drop_app. }
    assert (exists m, String.length (bytes +:+ r) = S m) as [m ->]
      by (rewrite append_length; simpl; eauto).
    destruct eof; simpl; by rewrite append_empty. }
  case_decide as Hk; [rewrite bool_decide_true by done|rewrite bool_decide_false by done]; simpl.
  - rewrite (Hfull Hk). apply (Hone data). by rewrite (Hfull Hk).
  - destruct eof; [|done]. by apply (Hone (string_take k data)).
Qed.

Lemma served_and_closed_snapshot t k w :
  drains t w ->
  served_and_closed serve t (bytes +:+ string_take k data) w =
    (serve t false c (string_take k data) w).2.
Proof.
  intros Hdr. unfold served_and_closed. rewrite served_snapshot by done. case_bool_decide; simpl.
  - by destruct (serve t false c _ w) as [[[[resp err] n]|] w'].
  - rewrite served_snapshot by done. rewrite orb_true_r.
    by destruct (serve t false c _ w) as [[[[resp err] n]|] w'].
Qed.

(** The connection while the data is sent: the server waits for the rest of it, or
    has handled the whole. *)
Definition waiting (k : nat) (t : ServerAddress) (w : W) (cn : netConn) (w' : W) : Prop :=
  (k < String.length data)%nat /\ nc_srv_open cn = true /\
  nc_srv cn = bytes +:+ string_take k data /\ nc_in cn = "" /\ w' = w.

Definition handled_all (t : ServerAddress) (w : W) (cn : netConn) (w' : W) : Prop :=
  match serve t false c data w with
  | (None, v) => nc_srv_open cn = false /\ nc_in cn = "" /\ w' = v
  | (Some (resp, err, _), v) => nc_srv_open cn = true /\ nc_srv cn = "" /\
      nc_in cn = response resp err /\ w' = v
  end.

Lemma serve_snapshot t k w cn :
  drains t w -> nc_in cn = "" ->
  let '(out, unread, v) := served serve t false (bytes +:+ string_take k data) w in
  waiting k t w (after_serve out unread cn) v \/
  (String.length data <= k)%nat /\ handled_all t w (after_serve out unread cn) v.
Proof.
  intros Hdr Hin. rewrite served_snapshot by done. case_bool_decide as Hk; simpl.
  - rewrite string_take_ge by done. unfold handled_all.
    destruct (serve t false c data w) as [[[[resp err] n]|] v]; right; simpl; by rewrite Hin.
  - left. unfold waiting. simpl. rewrite Hin. split_and!; try done. lia.
Qed.

Lemma send_data_call i k cn w w1 :
  drains (nc_target cn) w ->
  waiting 0 (nc_target cn) w cn w1 \/
    String.length data = 0%nat /\ handled_all (nc_target cn) w cn w1 ->
  conn_call i (run_server serve i false (string_take k data)) cn w1 (fun _ cn' w' =>
    waiting k (nc_target cn) w cn' w' \/
    (String.length data <= k)%nat /\ handled_all (nc_target cn) w cn' w').
Proof.
  intros Hdr Hst. eapply conn_call_mono; [apply run_server_call|]. intros [] cn' w' Ht.
  destruct Hst as [(Hk & Hso & Hs & Hin & ->)|[Hz Hh]].
  - rewrite Hso, Hs. pose proof (serve_snapshot (nc_target cn) k w cn Hdr Hin) as Hx.
    assert ((bytes +:+ string_take 0 data) +:+ string_take k data
      = bytes +:+ string_take k data) as -> by by rewrite append_assoc.
    destruct (served _ _ _ _ _) as [[out unread] v]. by intros [-> ->].
  - assert (data = "") as Hd by (by destruct data). intros Hx. right. split; [lia|].
    revert Hh. unfold handled_all. rewrite Hd in *.
    assert (string_take k "" = "") as Hk by by destruct k. rewrite Hk, append_empty in Hx.
    destruct (serve _ _ _ _ _) as [[[[resp err] n]|] v].
    + intros (Hso & Hs & Hin & ->). rewrite Hso, Hs in Hx. destruct Hx as [-> ->].
      simpl. rewrite Hin, append_empty. done.
    + intros (Hso & Hin & ->). rewrite Hso in Hx. by destruct Hx as [-> ->].
Qed.

(** What streaming a snapshot can come to: an error, when the server handled the
    request with some part of the data or not at all, or the answer of the server,
    which has handled it once and with all of the data. *)
Definition snapshot_called (t : ServerAddress) (w : W) (res : result InstallSnapshotResponse)
    (w' : W) : Prop :=
  (exists e, res = Err e /\
     (w' = w \/ exists k, w' = (serve t false c (string_take k data) w).2)) \/
  exists resp err k x, serve t false c data w = (Some (resp, err, k), w') /\
    reads_as resp x /\ res = rpc_result (error_text err) x.

Definition at_release (t : ServerAddress) (cn : netConn) (w : W) : W :=
  if nc_open cn && nc_srv_open cn then (served serve t true (nc_srv cn) w).2 else w.

Lemma failed_release t w e cn k w' :
  drains t w -> waiting k t w cn w' \/ (String.length data <= k)%nat /\ handled_all t w cn w' ->
  snapshot_called t w (Err e) (at_release t cn w').
Proof.
  intros Hdr Hst. left. exists e. split; [done|]. unfold at_release.
  destruct Hst as [(Hk & Hso & Hs & _ & ->)|[Hk Hh]].
  - rewrite Hso, Hs. destruct (nc_open cn); [right|by left]. exists k.
    rewrite served_snapshot by done. simpl. rewrite orb_true_r.
    by destruct (serve t false c _ w) as [[[[resp err] n]|] v].
  - right. exists (String.length data). rewrite string_take_ge by done. revert Hh.
    unfold handled_all. destruct (serve t false c data w) as [[[[resp err] n]|] v].
    + intros (-> & -> & _ & ->). by destruct (nc_open cn).
    + intros (-> & _ & ->). by destruct (nc_open cn).
Qed.

Lemma answered_release t w cn w' i :
  answers_with (A := InstallSnapshotResponse) serve t c data -> handled_all t w cn w' ->
  conn_call i (res <- decodeResponse serve i;; returns res.2)%go cn w' (fun res cn' w'' =>
    snapshot_called t w res (at_release t cn' w'')).
Proof.
  intros Hans Hh. eapply conn_call_bind.
  { apply decodeResponse_call; [apply _|]. revert Hh. unfold handled_all.
    destruct (serve t false c data w) as [[[[resp err] n]|] v]; [by intros (_ & Hs & _)|].
    intros (Hso & _) Hx. congruence. }
  intros [ok res] cn' w'' _ [-> Hd]. apply conn_call_returns. simpl. unfold handled_all in Hh.
  destruct (serve t false c data w) as [[[[resp err] n]|] v] eqn:Hserve.
  - destruct Hh as (Hso & Hs & Hin & ->). destruct ok.
    + right. destruct (Hans _ _ _ _ _ Hserve) as [x Hx].
      destruct (response_decodes resp err x "" Hx) as (r1 & Hd1 & Hd2).
      destruct Hd as (e' & x' & r1' & r2 & Hd1' & Hd2' & -> & ->).
      rewrite Hin in Hd1'. rewrite append_empty in Hd1. rewrite Hd1 in Hd1'.
      injection Hd1' as <- <-. rewrite Hd2 in Hd2'. injection Hd2' as <- <-.
      exists resp, err, n, x. split_and!; try done. rewrite Hserve. unfold at_release. simpl.
      rewrite Hso, Hs. by destruct (nc_open cn).
    + destruct Hd as [Ho [e ->]]. left. exists e. split; [done|]. right.
      exists (String.length data). rewrite string_take_ge, Hserve by done. unfold at_release.
      by rewrite Ho.
  - destruct Hh as (Hso & Hin & ->). destruct ok.
    + destruct Hd as (? & ? & ? & ? & Hd & _). by rewrite Hin, wire_Decode_empty in Hd.
    + destruct Hd as [Ho [e ->]]. left. exists e. split; [done|]. right.
      exists (String.length data). rewrite string_take_ge, Hserve by done. unfold at_release.
      by rewrite Ho.
Qed.

Lemma stream_snapshot_call i cn w :
  let t := nc_target cn in
  idle cn -> drains t w -> answers_with (A := InstallSnapshotResponse) serve t c data ->
  conn_call i (stream_snapshot serve i req data) cn w (fun res cn' w' =>
    snapshot_called t w res (at_release t cn' w')).
Proof.
  intros t Hidle Hdr Hans. unfold stream_snapshot.
  eapply conn_call_bind; [by apply sendRPC_call|]. intros [e|] cn1 w1 Ht1 Hs.
  { destruct Hs as [Ho [k ->]]. apply conn_call_returns. left. exists e. split; [done|].
    unfold at_release. rewrite Ho. cbn [andb]. fold t.
    destruct (decide (String.length bytes <= k)%nat) as [Hk|Hk].
    - right. exists 0%nat. rewrite <- served_and_closed_snapshot by done.
      rewrite string_take_ge by done. simpl string_take. by rewrite append_empty.
    - left. unfold served_and_closed, served.
      rewrite handleConn_part by (apply decode_command_part; [done|lia]).
      by rewrite handleConn_eof by (apply decode_command_part; [done|lia]). }
  destruct Hidle as (Ho & Hin & Hsrv & Hso).
  pose proof (serve_snapshot t 0 w cn Hdr Hin) as Hx. simpl string_take in Hx.
  rewrite append_empty in Hx. fold t in Hs, Ht1.
  destruct (served _ _ _ _ _) as [[out unread] v]. destruct Hs as [-> ->].
  set (cn1 := after_serve out unread cn) in *.
  assert (waiting 0 (nc_target cn1) w cn1 v \/
    String.length data = 0%nat /\ handled_all (nc_target cn1) w cn1 v) as Hst.
  { rewrite Ht1. destruct Hx as [?|[? ?]]; [by left|right; split; [lia|done]]. }
  rewrite <- Ht1 in Hdr, Hans |- *.
  assert (forall f, conn_call i (run_server serve i false (string_take (nf_delivered f) data);;
     returns (Err (nf_error f)))%go cn1 v (fun res cn' w' =>
       snapshot_called (nc_target cn1) w res (at_release (nc_target cn1) cn' w'))) as Hfail.
  { intros f. eapply conn_call_bind; [by apply send_data_call|]. intros [] cn2 w2 _ Hx2.
    apply conn_call_returns. by eapply failed_release. }
  do 2 (eapply conn_call_bind; [apply conn_call_net_call|]; intros [f|] ? ? _ [-> ->];
    [apply Hfail|]).
  rewrite <- (string_take_ge (String.length data) data) at 1 by done.
  eapply conn_call_bind; [by apply send_data_call|]. intros [] cn2 w2 _ Hx2.
  apply answered_release; [done|]. destruct Hx2 as [[Hk _]|[_ ?]]; [lia|done].
Qed.

Lemma net_InstallSnapshot_called id t0 n :
  let t := getProviderAddressOrFallback provider id t0 in
  pool_ok None n -> drains t (nw_servers n) -> answers_with (A := InstallSnapshotResponse) serve t c data ->
  exists res n', net_InstallSnapshot serve provider id t0 req data n = Done res n' /\
    pool_ok None n' /\ snapshot_called t (nw_servers n) res (nw_servers n').
Proof.
  intros t Hok Hdr Hans. unfold net_InstallSnapshot, getConnFromAddressProvider. fold t.
  unfold bind at 1. pose proof (getConn_spec t n Hok) as Hg.
  destruct (getConn t n) as [[i|e] n1|]; [|destruct Hg as [? Hw]|done].
  2:{ exists (Err e), n1. split_and!; try done. left. exists e. rewrite Hw. by auto. }
  destruct Hg as (Hok1 & Hw & cn & Hi & Hidle & Ht). rewrite <- Ht, <- Hw in *.
  destruct (pool_ok_release i
    (res <- stream_snapshot serve i req data;; Release serve i;; returns res)%go cn n1
    (fun res _ w' => snapshot_called (nc_target cn) (nw_servers n1) res w') Hok1 Hi)
    as (res & n' & _ & Hr & Hok' & Hq); [|by exists res, n'].
  eapply conn_call_bind; [by apply stream_snapshot_call|]. intros res cn' w' Ht' Hq.
  eapply conn_call_bind; [apply Release_call|]. intros [] cn2 w2 _ [Ho ->].
  apply conn_call_returns. split; [|exact Ho]. rewrite Ht'. exact Hq.
Qed.
End Streaming.

(** ** Raft servers as the other end *)

Section RaftFacts.
Context {L K SN : Type} `{LogStore L} `{StableStore K} `{SnapshotStore SN} `{MsgPack}
  `{PeerCodec} `{RPCCodec} `{!RPCCodecLaws}.
Abbreviation raft := (Raft L K SN).
Abbreviation servers := (gmap ServerAddress raft).

(** The response that belongs to a command. *)
Definition reply_kind (c : Command) (reply : Reply) : Prop :=
  match c, reply with
  | cmd_AppendEntries _, reply_AppendEntries _ | cmd_RequestVote _, reply_RequestVote _
  | cmd_RequestPreVote _, reply_RequestPreVote _
  | cmd_InstallSnapshot _, reply_InstallSnapshot _ | cmd_TimeoutNow _, reply_TimeoutNow _ => True
  | _, _ => False
  end.

Definition reply_fits (c : Command) (resp : option Reply) : Prop :=
  forall reply, resp = Some reply -> reply_kind c reply.

Lemma processRPC_kind env c (r : raft) res r' :
  processRPC env c r = Done res r' -> reply_fits c res.1.
Proof.
  unfold processRPC. intros Hr. bind_inv Hr. destruct (checkRPCHeader _ _).
  { by injection Hr as <- <-. }
  destruct c; try (bind_inv Hr; injection Hr as <- <-; by intros reply [= <-]).
  injection Hr as <- <-. done.
Qed.

Lemma processHeartbeat_kind now c (r : raft) res r' :
  processHeartbeat now c r = Done (Some res) r' -> reply_fits c res.1.
Proof.
  unfold processHeartbeat. intros Hr. bind_inv Hr. destruct (shutdown _); [done|].
  destruct c; try (injection Hr as <- <-; done).
  bind_inv Hr. injection Hr as <- <-. by intros reply [= <-].
Qed.


Definition decodes_as (A : Type) `{Wire A} `{!ReplyType A} (c : Command) : Prop :=
  forall reply, reply_kind c reply -> exists x : A, reply = to_Reply x.

Lemma raft_answers {A} `{Wire A} `{!ReplyType A} env addr c data :
  decodes_as A c -> answers_with (A := A) (raft_serve (L := L) (K := K) (SN := SN) env) addr c data.
Proof.
  intros Hc w resp err k w' Hs. destruct resp as [reply|]; [|by exists wire_zero].
  assert (reply_kind c reply) as Hk.
  { revert Hs. unfold raft_serve. destruct (w !! addr) as [r|]; [|done].
    destruct (isHeartbeat c).
    - destruct (processHeartbeat _ c r) as [[[resp' err']|] r'|] eqn:Hp; [|done..].
      intros [= -> _ _ _]. by apply processHeartbeat_kind in Hp; apply Hp.
    - unfold bind. destruct (processRPC _ c r) as [[resp' err'] r'|] eqn:Hp; [|done].
      intros [= -> _ _ _]. by apply processRPC_kind in Hp; apply Hp. }
  destruct (Hc _ Hk) as [x ->]. by exists x.
Qed.

Lemma raft_drains env addr req (w : servers) :
  (forall r, w !! addr = Some r -> checkRPCHeader r (Some (is_Header req)) = None) ->
  drains (raft_serve env) req addr w.
Proof.
  intros Hh p resp err k w'. unfold raft_serve. destruct (w !! addr) as [r|] eqn:Hr; [|done].
  change (command_header (cmd_InstallSnapshot req)) with (Some (is_Header req)).
  rewrite (Hh r eq_refl). destruct (bind _ _ r) as [[[resp' err']|] r'|]; [|done..].
  by intros [= _ _ <- _].
Qed.

(** C27: A call to a Raft server.  Whatever connections the pool holds and whatever fails
    on the network, a call of [RequestVote], [AppendEntries], [RequestPreVote] or
    [TimeoutNow] returns the answer of the server that was asked, which has handled this
    command once, or an error, when that server has handled the command once or not
    at all; no other server does anything.  Afterwards the pool is in order. *)
Theorem net_rpc_once {A} `{!Wire A} `{!WireLaws A} `{!ReplyType A} env provider id t c
    (n : net servers) :
  let addr := getProviderAddressOrFallback provider id t in
  pool_ok None n -> sendable c -> framed c "" -> decodes_as A c ->
  exists (res : result A) n',
    genericRPC (raft_serve env) provider id t (encode_command c) n = Done res n' /\
    pool_ok None n' /\
    called (raft_serve env) addr c "" (nw_servers n) res (nw_servers n').
Proof.
  intros addr Hok Hc Hf Ha. apply genericRPC_called; [done..|]. by apply raft_answers.
Qed.

(** C28: Sending a snapshot to a Raft server that accepts the header.  The call returns
    the server's answer, which then has handled the request once and with exactly
    the data that was sent, or an error, when the server has handled the request
    with some part of the data or not at all. *)
Theorem net_InstallSnapshot_once env provider id t req data (n : net servers) :
  let addr := getProviderAddressOrFallback provider id t in
  pool_ok None n -> is_Size req = Z.of_nat (String.length data) ->
  (forall r, nw_servers n !! addr = Some r -> checkRPCHeader r (Some (is_Header req)) = None) ->
  exists res n', net_InstallSnapshot (raft_serve env) provider id t req data n = Done res n' /\
    pool_ok None n' /\
    snapshot_called (raft_serve env) req data addr (nw_servers n) res (nw_servers n').
Proof.
  intros addr Hok Hs Hh. apply net_InstallSnapshot_called; [done..|by apply raft_drains|].
  apply raft_answers. intros [] Hk; try done. by eexists.
Qed.

(** C29: A snapshot for a server that refuses its header is read as commands.  The data
    stays in the stream, and the connection's loop goes on with it: data that reads
    as a command is handled as that command. *)
Theorem snapshot_data_as_command env addr req c (w : servers) r :
  w !! addr = Some r -> checkRPCHeader r (Some (is_Header req)) <> None ->
  sendable c -> framed c "" -> is_Size req = Z.of_nat (String.length (encode_command c)) ->
  (served (raft_serve env) addr false
     (encode_command (cmd_InstallSnapshot req) +:+ encode_command c) w).2 =
  (raft_serve env addr (isHeartbeat c) c "" w).2.
Proof.
  intros Hr Hh Hc Hf Hs. rewrite served_command by done.
  assert (raft_serve env addr false (cmd_InstallSnapshot req) (encode_command c) w =
    (Some (None, checkRPCHeader r (Some (is_Header req)), 0%nat), w)) as Hrefuse.
  { unfold raft_serve. rewrite Hr. unfold processRPC, bind, get_state.
    change (command_header (cmd_InstallSnapshot req)) with (Some (is_Header req)).
    destruct (checkRPCHeader r _); [|done]. simpl. by rewrite insert_id. }
  change (isHeartbeat (cmd_InstallSnapshot req)) with false. rewrite Hrefuse. simpl.
  rewrite served_plain by done. by destruct (raft_serve env addr _ c "" w) as [[[[? ?] ?]|] ?].
Qed.

End RaftFacts.

(** ** Any sequence of calls *)

Section Sequences.
Context `{RPCCodec} `{!RPCCodecLaws} {W : Type} (serve : ServerAddress -> handler W).
Context (provider : option (ServerID -> result ServerAddress)).
Implicit Types n : net W.

(** A call on the connection [i] that ends, whatever it does there. *)
Definition on_conn {A} (i : nat) (m : M (net W) A) : Prop :=
  forall c w, conn_call i m c w (fun _ _ _ => True).

Lemma on_conn_bind {A B} i (m : M (net W) A) (f : A -> M (net W) B) :
  on_conn i m -> (forall a, on_conn i (f a)) -> on_conn i (bind m f).
Proof. intros Hm Hf c w. eapply conn_call_bind; [apply Hm|]. intros a c' w' _ _. apply Hf. Qed.

Lemma on_conn_returns {A} i (a : A) : on_conn i (returns a).
Proof. intros c w. by apply conn_call_returns. Qed.

Lemma on_conn_call i : on_conn i net_call.
Proof. intros c w. eapply conn_call_mono; [apply conn_call_net_call|]. done. Qed.

Lemma on_conn_run i eof p : on_conn i (run_server serve i eof p).
Proof. intros c w. eapply conn_call_mono; [apply run_server_call|]. done. Qed.

Lemma on_conn_Release i : on_conn i (Release serve i).
Proof. intros c w. eapply conn_call_mono; [apply Release_call|]. done. Qed.

Lemma on_conn_Decode {A} `{WireLaws A} i : on_conn i (conn_Decode (A := A) i).
Proof. intros c w. eapply conn_call_mono; [apply conn_Decode_call|]. done. Qed.

Ltac on_conn :=
  repeat first
    [ progress intros
    | apply on_conn_returns
    | apply on_conn_call
    | apply on_conn_run
    | apply on_conn_Release
    | apply on_conn_Decode; apply _
    | apply on_conn_bind
    | case_match ].

Lemma on_conn_stream i req data : on_conn i (stream_snapshot serve i req data).
Proof. unfold stream_snapshot, sendRPC, decodeResponse. on_conn.
Qed.

(** A snapshot never leaves its connection in the pool. *)
Lemma InstallSnapshot_pool id t req data n :
  pool_ok None n ->
  exists res n', net_InstallSnapshot serve provider id t req data n = Done res n' /\
    pool_ok None n'.
Proof.
  intros Hok. unfold net_InstallSnapshot, getConnFromAddressProvider, bind at 1.
  pose proof (getConn_spec (getProviderAddressOrFallback provider id t) n Hok) as Hg.
  destruct (getConn _ n) as [[i|e] n1|]; [|destruct Hg; by eauto|done].
  destruct Hg as (Hok1 & _ & cn & Hi & _ & _).
  destruct (pool_ok_release i
    (res <- stream_snapshot serve i req data;; Release serve i;; returns res)%go cn n1
    (fun _ _ _ => True) Hok1 Hi) as (res & n' & _ & Hr & Hok' & _); [|by eauto].
  eapply conn_call_bind; [apply on_conn_stream|]. intros res cn' w' _ _.
  eapply conn_call_bind; [apply Release_call|]. intros [] cn2 w2 _ [Ho _].
  by apply conn_call_returns.
Qed.

Lemma release_all_spec ids n :
  (forall i, i ∈ ids -> exists c, nw_conns n !! i = Some c) ->
  exists n', release_all serve ids n = Done tt n' /\ same_pool n n' /\
    (forall j, j ∉ ids -> nw_conns n' !! j = nw_conns n !! j) /\
    (forall j c, j ∈ ids -> nw_conns n' !! j = Some c -> nc_open c = false).
Proof.
  revert n. induction ids as [|i ids IH]; intros n Hall.
  { exists n. split_and!; try done. intros j c Hj. by apply elem_of_nil in Hj. }
  destruct (Hall i) as [c Hc]; [left|].
  destruct (Release_call serve i c (nw_servers n) n Hc eq_refl)
    as ([] & n1 & c1 & Hr & [Hp1 Hm1] & _ & Hcs & _ & Ho & _).
  assert (nw_conns n1 !! i = Some c1) as Hi1.
  { rewrite Hcs. apply list_lookup_insert_eq. by apply lookup_lt_Some in Hc. }
  destruct (IH n1) as (n' & Hr' & [Hp Hm] & Hother & Hclosed).
  { intros j Hj. destruct (decide (j = i)) as [->|Hn]; [by eauto|].
    rewrite Hcs, list_lookup_insert_ne by done. apply Hall. by right. }
  exists n'. cbn [release_all]. unfold bind. rewrite Hr. split_and!; [done|split; congruence|..].
  - intros j Hj. rewrite not_elem_of_cons in Hj. destruct Hj as [Hj1 Hj2].
    rewrite Hother by done. by rewrite Hcs, list_lookup_insert_ne.
  - intros j cj Hj Hcj. destruct (decide (j ∈ ids)) as [Hin|Hin]; [by eapply Hclosed|].
    apply elem_of_cons in Hj as [->|?]; [|done]. rewrite Hother in Hcj by done. congruence.
Qed.

(** [CloseStreams] closes every connection that is not in use. *)
Lemma CloseStreams_spec n :
  pool_ok None n ->
  exists n', CloseStreams serve n = Done tt n' /\ pool_ok None n' /\ nw_connPool n' = ∅ /\
    forall i c, nw_conns n' !! i = Some c -> nc_open c = false.
Proof.
  intros Hok. set (ids := mjoin ((map_to_list (nw_connPool n)).*2)).
  assert (forall i, i ∈ ids <-> exists t l, nw_connPool n !! t = Some l /\ i ∈ l) as Hids.
  { intros i. unfold ids. rewrite list_elem_of_join. setoid_rewrite list_elem_of_fmap. split.
    - intros (l & Hi & ([t l'] & -> & Ht%elem_of_map_to_list)). eauto.
    - intros (t & l & Ht & Hi). exists l. split; [done|]. exists (t, l). split; [done|].
      by apply elem_of_map_to_list. }
  destruct (release_all_spec ids n) as (n1 & Hr & [Hp Hm] & Hother & Hclosed).
  { intros i (t & l & Ht & Hi)%Hids. destruct (pk_idle _ _ Hok t l i Ht Hi) as (_ & c & ? & _).
    by eauto. }
  assert (forall i c, nw_conns n1 !! i = Some c -> nc_open c = false) as Hall.
  { intros i c Hc. destruct (decide (i ∈ ids)) as [Hin|Hin]; [by eapply Hclosed|].
    rewrite Hother in Hc by done. destruct (nc_open c) eqn:Ho; [|done].
    destruct (pk_open _ _ Hok i c Hc Ho) as [|(l & Hl & Hi)]; [done|].
    destruct Hin. apply Hids. by eauto. }
  exists (with_pool ∅ n1). unfold CloseStreams, bind, get_state. fold ids. rewrite Hr.
  split_and!; [done| |done|done].
  split; simpl; [by intros * ?%lookup_empty_Some..|].
  intros i c Hc Ho. by rewrite (Hall i c Hc) in Ho.
Qed.
End Sequences.

(** ** The life of a transport *)

Inductive net_op :=
  | op_AppendEntries (id : ServerID) (target : ServerAddress) (args : AppendEntriesRequest)
  | op_RequestVote (id : ServerID) (target : ServerAddress) (args : RequestVoteRequest)
  | op_RequestPreVote (id : ServerID) (target : ServerAddress) (args : RequestPreVoteRequest)
  | op_TimeoutNow (id : ServerID) (target : ServerAddress) (args : TimeoutNowRequest)
  | op_InstallSnapshot (id : ServerID) (target : ServerAddress) (args : InstallSnapshotRequest)
      (data : string)
  | op_CloseStreams
  | op_Close.

Section Life.
Context {L K SN : Type} `{LogStore L} `{StableStore K} `{SnapshotStore SN} `{MsgPack}
  `{PeerCodec} `{RPCCodec} `{!RPCCodecLaws}.
Context (env : rpcEnv) (provider : option (ServerID -> result ServerAddress)).
Abbreviation servers := (gmap ServerAddress (Raft L K SN)).
Implicit Types n : net servers.

Definition perform_op (op : net_op) : M (net servers) unit :=
  match op with
  | op_AppendEntries id t args =>
      (net_AppendEntries (raft_serve env) provider id t args;; returns tt)%go
  | op_RequestVote id t args =>
      (net_RequestVote (raft_serve env) provider id t args;; returns tt)%go
  | op_RequestPreVote id t args =>
      (net_RequestPreVote (raft_serve env) provider id t args;; returns tt)%go
  | op_TimeoutNow id t args =>
      (net_TimeoutNow (raft_serve env) provider id t args;; returns tt)%go
  | op_InstallSnapshot id t args data =>
      (net_InstallSnapshot (raft_serve env) provider id t args data;; returns tt)%go
  | op_CloseStreams => CloseStreams (raft_serve env)
  | op_Close => net_Close
  end.

Fixpoint perform_ops (ops : list net_op) : M (net servers) unit :=
  match ops with
  | [] => returns tt
  | op :: ops => (perform_op op;; perform_ops ops)%go
  end.

Lemma rpc_pool {A} `{!Wire A} `{!WireLaws A} `{!ReplyType A} id t c n :
  pool_ok None n -> sendable c -> framed c "" -> decodes_as A c ->
  exists n', (genericRPC (A := A) (raft_serve env) provider id t (encode_command c);; returns tt)%go n
    = Done tt n' /\ pool_ok None n'.
Proof.
  intros Hok Hc Hf Ha.
  destruct (genericRPC_called (A := A) (raft_serve env) provider id t c n Hok Hc Hf)
    as (res & n' & Hr & Hok' & _); [by apply raft_answers|].
  exists n'. unfold bind. by rewrite Hr.
Qed.

Lemma perform_op_pool op n :
  pool_ok None n -> exists n', perform_op op n = Done tt n' /\ pool_ok None n'.
Proof.
  intros Hok. destruct op; cbn [perform_op].
  1-4: apply rpc_pool; [done..|]; intros [] Hk; try done; by eexists.
  - destruct (InstallSnapshot_pool (raft_serve env) provider id target args data n Hok)
      as (res & n' & Hr & Hok'). exists n'. unfold bind. by rewrite Hr.
  - destruct (CloseStreams_spec (raft_serve env) n Hok) as (n' & ? & ? & _). by exists n'.
  - eexists. split; [reflexivity|]. by eapply pool_ok_same.
Qed.

End Life.


(** ** Requests behind each other on one connection *)

Section Pipelined.
Context {L K SN : Type} `{LogStore L} `{StableStore K} `{SnapshotStore SN} `{MsgPack}
  `{PeerCodec} `{RPCCodec} `{!RPCCodecLaws}.
Abbreviation servers := (gmap ServerAddress (Raft L K SN)).

(** The answers to the commands one after another; [None] when one is not answered. *)
Fixpoint serve_all (serve : handler servers) (cs : list Command) (w : servers)
    : option (list (option Reply * option error) * servers) :=
  match cs with
  | [] => Some ([], w)
  | c :: cs =>
      match serve (isHeartbeat c) c "" w with
      | (None, _) => None
      | (Some (resp, err, _), w') =>
          prod_map (cons (resp, err)) id <$> serve_all serve cs w'
      end
  end.

(** What [decodeResponses] reads, [k] times. *)
Fixpoint decode_responses (k : nat) (s : string)
    : option (list (string * AppendEntriesResponse) * string) :=
  match k with
  | O => Some ([], s)
  | S k =>
      match wire_Decode s with
      | Complete rpcError s1 =>
          match wire_Decode s1 with
          | Complete x s2 => prod_map (cons (rpcError, x)) id <$> decode_responses k s2
          | _ => None
          end
      | _ => None
      end
  end.

Definition stream (cs : list Command) : string := concat_strings (encode_command <$> cs).

Lemma served_stream (serve : ServerAddress -> handler servers) t c cs w resp err k w' :
  sendable c -> framed c "" ->
  serve t (isHeartbeat c) c "" w = (Some (resp, err, k), w') ->
  served serve t false (stream (c :: cs)) w =
    let '(out, unread, v) := served serve t false (stream cs) w' in
    (response resp err +:+ out, unread, v).
Proof.
  intros Hc Hf Hs. change (stream (c :: cs)) with (encode_command c +:+ "" +:+ stream cs).
  unfold served at 1. cbn [handleConn]. rewrite handleCommand_request, Hs by done.
  assert (string_drop (Nat.min k (String.length "")) ("" +:+ stream cs) = stream cs) as ->
    by by destruct k.
  unfold served. rewrite (handleConn_enough _ _ (S (String.length (stream cs)))); [done| |lia].
  change ("" +:+ stream cs) with (stream cs). rewrite append_length.
  assert (0 < String.length (encode_command c))%nat; [|lia]. destruct c; [simpl; lia..|done].
Qed.

(** Requests that are sent on one connection without waiting for the responses, as a
    pipeline does, are handled in their order, and the [k]th response that is read is
    the answer to the [k]th request. *)
Theorem pipelined_requests env addr reqs (w : servers) answers w' :
  serve_all (raft_serve env addr) (cmd_AppendEntries <$> reqs) w = Some (answers, w') ->
  exists out xs,
    served (raft_serve env) addr false (stream (cmd_AppendEntries <$> reqs)) w
      = (out, Some "", w') /\
    decode_responses (length reqs) out = Some (xs, "") /\
    Forall2 (fun a x => reads_as a.1 x.2 /\ x.1 = error_text a.2) answers xs.
Proof.
  revert w answers. induction reqs as [|req reqs IH]; intros w answers.
  { intros [= <- <-]. exists "", []. by split_and!. }
  rewrite fmap_cons. cbn [serve_all].
  destruct (raft_serve env addr _ (cmd_AppendEntries req) "" w) as [[[[resp err] k]|] w1] eqn:Hs;
    [|done].
  destruct (serve_all _ (cmd_AppendEntries <$> reqs) w1) as [[answers' w2]|] eqn:Hall; [|done].
  intros [= <- <-]. destruct (IH w1 answers' Hall) as (out & xs & Hserved & Hdec & Hf2).
  assert (decodes_as AppendEntriesResponse (cmd_AppendEntries req)) as Hk
    by (intros [] Hk; try done; by eexists).
  destruct (raft_answers env addr (cmd_AppendEntries req) "" Hk _ _ _ _ _ Hs) as [x Hx].
  destruct (response_decodes resp err x out Hx) as (r1 & Hd1 & Hd2).
  exists (response resp err +:+ out), ((error_text err, x) :: xs). split_and!.
  - by rewrite (served_stream (raft_serve env) addr (cmd_AppendEntries req) _ _ _ _ _ _ I eq_refl Hs),
      Hserved.
  - cbn [length decode_responses]. by rewrite Hd1, Hd2, Hdec.
  - constructor; [by split|done].
Qed.
End Pipelined.

(** ** A concrete codec: the bits of a value and a semicolon *)

Definition semicolon : ascii := ascii_of_N 59.

Fixpoint cut_semicolon (s : string) : option (string * string) :=
  match s with
  | EmptyString => None
  | String c s' => if decide (c = semicolon) then Some ("", s')
                   else prod_map (String c) id <$> cut_semicolon s'
  end.

Section BitsWire.
Context {A : Type} `{Countable A} (zero : A).

Definition bits_Encode (x : A) : string := encode_bits x +:+ String semicolon "".

Definition bits_Decode (s : string) : decoded A :=
  match s with
  | EmptyString => Partial
  | String c rest =>
      if decide (c = ascii_of_N 192) then Complete zero rest
      else
        match cut_semicolon s with
        | None => Partial
        | Some (b, rest) => match decode_bits b with
                            | Ok x => Complete x rest
                            | Err e => Malformed e
                            end
        end
  end.

Definition bits_Wire : Wire A := {|
  wire_Encode := bits_Encode;
  wire_Decode := bits_Decode;
  wire_zero := zero
|}.

Lemma cut_semicolon_bits p rest :
  cut_semicolon (bits_of_pos p +:+ String semicolon rest) = Some (bits_of_pos p, rest).
Proof.
  induction p as [p IH|p IH|]; [..|done].
  all: cbn [bits_of_pos]; match goal with |- cut_semicolon (String ?c ?a +:+ ?b) = _ =>
    change (String c a +:+ b) with (String c (a +:+ b)) end;
    cbn [cut_semicolon]; rewrite decide_False by done; by rewrite IH.
Qed.

Lemma cut_semicolon_part p n :
  (n <= String.length (bits_of_pos p))%nat ->
  cut_semicolon (string_take n (bits_of_pos p +:+ String semicolon "")) = None.
Proof.
  revert n. induction p as [p IH|p IH|]; intros [|n] Hn; try done; [..|simpl in Hn; lia].
  all: cbn [bits_of_pos] in *; match goal with |- cut_semicolon (string_take _ (String ?c ?a +:+ ?b)) = _ =>
    change (String c a +:+ b) with (String c (a +:+ b)) end;
    cbn [string_take cut_semicolon]; rewrite decide_False by done;
    rewrite IH; [done|]; simpl in Hn; lia.
Qed.

Lemma cut_semicolon_front s b rest : cut_semicolon s = Some (b, rest) -> exists p, s = p +:+ rest.
Proof.
  revert b. induction s as [|c s IH]; intros b; [done|]. cbn [cut_semicolon].
  case_decide; [intros [= _ <-]; by exists (String c "")|].
  destruct (cut_semicolon s) as [[b' rest']|]; [|done]. intros [= _ <-].
  destruct (IH _ eq_refl) as [p ->]. by exists (String c p).
Qed.

(** The first byte of a value is not that of nil. *)
Lemma bits_first p rest :
  exists c s, bits_of_pos p +:+ String semicolon rest = String c s /\ c <> ascii_of_N 192.
Proof. by destruct p; do 2 eexists; (split; [reflexivity|]). Qed.

Lemma bits_WireLaws : @WireLaws A bits_Wire.
Proof.
  split; cbn [wire_Encode wire_Decode wire_zero bits_Wire]; unfold bits_Encode, encode_bits.
  - intros x rest. rewrite append_assoc.
    change (String semicolon "" +:+ rest) with (String semicolon rest).
    pose proof (cut_semicolon_bits (encode x) rest) as Hcut.
    destruct (bits_first (encode x) rest) as (c & s & Hs & Hc). rewrite Hs in Hcut |- *.
    unfold bits_Decode. rewrite decide_False, Hcut by done. unfold decode_bits.
    rewrite pos_of_bits_of_pos. simpl. by rewrite decode_encode.
  - intros rest. change (wire_nil +:+ rest) with (String (ascii_of_N 192) rest).
    unfold bits_Decode. by rewrite decide_True.
  - done.
  - intros x n. rewrite append_length. simpl. intros Hn.
    pose proof (cut_semicolon_part (encode x) n ltac:(lia)) as Hcut.
    destruct (bits_first (encode x) "") as (c & s & Hs & Hc). rewrite Hs in Hcut |- *.
    destruct n as [|n]; [done|]. cbn [string_take] in *. unfold bits_Decode.
    by rewrite decide_False, Hcut.
  - intros r x rest. unfold bits_Decode. destruct r as [|c r]; [done|].
    case_decide; [intros [= _ <-]; by exists (String c "")|].
    destruct (cut_semicolon (String c r)) as [[b rest']|] eqn:Hcut; [|done].
    destruct (decode_bits b); [|done]. intros [= _ <-]. by eapply cut_semicolon_front.
Qed.
End BitsWire.

Definition LogType_code (t : LogType) : N + N :=
  match t with
  | LogCommand => inl 0%N
  | LogNoop => inl 1%N
  | LogAddPeerDeprecated => inl 2%N
  | LogRemovePeerDeprecated => inl 3%N
  | LogBarrier => inl 4%N
  | LogConfiguration => inl 5%N
  | LogTypeOther n => inr n
  end.

Definition LogType_decode (c : N + N) : LogType :=
  match c with
  | inl 0%N => LogCommand
  | inl 1%N => LogNoop
  | inl 2%N => LogAddPeerDeprecated
  | inl 3%N => LogRemovePeerDeprecated
  | inl 4%N => LogBarrier
  | inl _ => LogConfiguration
  | inr n => LogTypeOther n
  end.

#[export] Instance LogType_countable : Countable LogType.
Proof. apply (inj_countable' LogType_code LogType_decode). by intros []. Defined.

#[export] Instance RPCHeader_eq_dec : EqDecision RPCHeader.
Proof. solve_decision. Defined.

#[export] Instance RPCHeader_countable : Countable RPCHeader.
Proof.
  apply (inj_countable' (fun x => (hdr_ProtocolVersion x, (hdr_ID x, hdr_Addr x)))
    (fun '(a, (b, c)) => mkHeader a b c)). by intros [].
Defined.

#[export] Instance Log_countable : Countable Log.
Proof.
  apply (inj_countable' (fun x => ((log_Index x, (log_Term x, log_Type x)), (log_Data x, (log_Extensions x, log_AppendedAt x))))
    (fun '((a, (b, c)), (d, (e, f))) => mkLog a b c d e f)). by intros [].
Defined.

#[export] Instance AppendEntriesRequest_eq_dec : EqDecision AppendEntriesRequest.
Proof. solve_decision. Defined.

#[export] Instance AppendEntriesRequest_countable : Countable AppendEntriesRequest.
Proof.
  apply (inj_countable' (fun x => ((ae_Header x, (ae_Term x, ae_Leader x)), ((ae_PrevLogEntry x, ae_PrevLogTerm x), (ae_Entries x, ae_LeaderCommitIndex x))))
    (fun '((a, (b, c)), ((d, e), (f, g))) => mkAppendEntriesRequest a b c d e f g)). by intros [].
Defined.

#[export] Instance RequestVoteRequest_eq_dec : EqDecision RequestVoteRequest.
Proof. solve_decision. Defined.

#[export] Instance RequestVoteRequest_countable : Countable RequestVoteRequest.
Proof.
  apply (inj_countable' (fun x => ((rv_Header x, (rv_Term x, rv_Candidate x)), (rv_LastLogIndex x, (rv_LastLogTerm x, rv_LeadershipTransfer x))))
    (fun '((a, (b, c)), (d, (e, f))) => mkRequestVoteRequest a b c d e f)). by intros [].
Defined.

#[export] Instance RequestPreVoteRequest_eq_dec : EqDecision RequestPreVoteRequest.
Proof. solve_decision. Defined.

#[export] Instance RequestPreVoteRequest_countable : Countable RequestPreVoteRequest.
Proof.
  apply (inj_countable' (fun x => ((pv_Header x, pv_Term x), (pv_LastLogIndex x, pv_LastLogTerm x)))
    (fun '((a, b), (c, d)) => mkRequestPreVoteRequest a b c d)). by intros [].
Defined.

#[export] Instance InstallSnapshotRequest_eq_dec : EqDecision InstallSnapshotRequest.
Proof. solve_decision. Defined.

#[export] Instance InstallSnapshotRequest_countable : Countable InstallSnapshotRequest.
Proof.
  apply (inj_countable' (fun x => (((is_Header x, is_SnapshotVersion x), (is_Term x, (is_Leader x, is_LastLogIndex x))), ((is_LastLogTerm x, is_Peers x), (is_Configuration x, (is_ConfigurationIndex x, is_Size x)))))
    (fun '(((a, b), (c, (d, e))), ((f, g), (h, (i, j)))) => mkInstallSnapshotRequest a b c d e f g h i j)). by intros [].
Defined.

#[export] Instance TimeoutNowRequest_eq_dec : EqDecision TimeoutNowRequest.
Proof. solve_decision. Defined.

#[export] Instance TimeoutNowRequest_countable : Countable TimeoutNowRequest.
Proof.
  apply (inj_countable' (fun x => tn_Header x)
    (fun a => mkTimeoutNowRequest a)). by intros [].
Defined.

#[export] Instance AppendEntriesResponse_eq_dec : EqDecision AppendEntriesResponse.
Proof. solve_decision. Defined.

#[export] Instance AppendEntriesResponse_countable : Countable AppendEntriesResponse.
Proof.
  apply (inj_countable' (fun x => ((aer_Header x, aer_Term x), (aer_LastLog x, (aer_Success x, aer_NoRetryBackoff x))))
    (fun '((a, b), (c, (d, e))) => mkAppendEntriesResponse a b c d e)). by intros [].
Defined.

#[export] Instance RequestVoteResponse_eq_dec : EqDecision RequestVoteResponse.
Proof. solve_decision. Defined.

#[export] Instance RequestVoteResponse_countable : Countable RequestVoteResponse.
Proof.
  apply (inj_countable' (fun x => ((rvr_Header x, rvr_Term x), (rvr_Peers x, rvr_Granted x)))
    (fun '((a, b), (c, d)) => mkRequestVoteResponse a b c d)). by intros [].
Defined.

#[export] Instance RequestPreVoteResponse_eq_dec : EqDecision RequestPreVoteResponse.
Proof. solve_decision. Defined.

#[export] Instance RequestPreVoteResponse_countable : Countable RequestPreVoteResponse.
Proof.
  apply (inj_countable' (fun x => (pvr_Header x, (pvr_Term x, pvr_Granted x)))
    (fun '(a, (b, c)) => mkRequestPreVoteResponse a b c)). by intros [].
Defined.

#[export] Instance InstallSnapshotResponse_eq_dec : EqDecision InstallSnapshotResponse.
Proof. solve_decision. Defined.

#[export] Instance InstallSnapshotResponse_countable : Countable InstallSnapshotResponse.
Proof.
  apply (inj_countable' (fun x => (isr_Header x, (isr_Term x, isr_Success x)))
    (fun '(a, (b, c)) => mkInstallSnapshotResponse a b c)). by intros [].
Defined.

#[export] Instance TimeoutNowResponse_eq_dec : EqDecision TimeoutNowResponse.
Proof. solve_decision. Defined.

#[export] Instance TimeoutNowResponse_countable : Countable TimeoutNowResponse.
Proof.
  apply (inj_countable' (fun x => tnr_Header x)
    (fun a => mkTimeoutNowResponse a)). by intros [].
Defined.

Definition zero_header : RPCHeader := mkHeader 0 "" "".

Definition bits_RPCCodec : RPCCodec := {|
  wire_string := bits_Wire "";
  wire_AppendEntries := bits_Wire (mkAppendEntriesRequest zero_header 0 "" 0 0 [] 0);
  wire_RequestVote := bits_Wire (mkRequestVoteRequest zero_header 0 "" 0 0 false);
  wire_RequestPreVote := bits_Wire (mkRequestPreVoteRequest zero_header 0 0 0);
  wire_InstallSnapshot := bits_Wire (mkInstallSnapshotRequest zero_header 0 0 "" 0 0 "" "" 0 0);
  wire_TimeoutNow := bits_Wire (mkTimeoutNowRequest zero_header);
  wire_AppendEntriesResponse := bits_Wire (mkAppendEntriesResponse zero_header 0 0 false false);
  wire_RequestVoteResponse := bits_Wire (mkRequestVoteResponse zero_header 0 "" false);
  wire_RequestPreVoteResponse := bits_Wire (mkRequestPreVoteResponse zero_header 0 false);
  wire_InstallSnapshotResponse := bits_Wire (mkInstallSnapshotResponse zero_header 0 false);
  wire_TimeoutNowResponse := bits_Wire (mkTimeoutNowResponse zero_header);
  slice_is_nil s := bool_decide (s = "")
|}.

Lemma bits_RPCCodecLaws : @RPCCodecLaws bits_RPCCodec.
Proof. split; try apply bits_WireLaws. intros s Hs. by apply bool_decide_eq_false. Qed.

(** ** Witnesses *)

#[local] Existing Instance bitsMsgPack.
#[local] Existing Instance inmemPeerCodec.
#[local] Existing Instance bits_RPCCodec.
#[local] Existing Instance bits_RPCCodecLaws.

(** A transport without connections. *)
Definition fresh_net {W} (maxPool : Z) (faults : list (option net_fault)) (w : W) : net W :=
  mkNet [] ∅ maxPool false faults w.

Lemma fresh_pool_ok {W} maxPool faults (w : W) : pool_ok None (fresh_net maxPool faults w).
Proof. by split. Qed.

(** The servers "a" and "b" of the trio, followers in term 3. *)
Definition pair_servers : gmap ServerAddress (Raft InmemStore InmemStore InmemSnapshotStore) :=
  {[trio_addr "a" := trio_server "a"; trio_addr "b" := trio_server "b"]}.

Definition header_of (version : Z) : RPCHeader := mkHeader version "c" (trio_addr "c").

Definition vote_request : RequestVoteRequest :=
  mkRequestVoteRequest (header_of 3) 4 (trio_addr "c") 9 3 false.


(** The first call is answered, the second one is not. *)
Lemma net_rpc_once_witness :
  let n := fresh_net 1 [None; None; None; None; None; None; None; None;
             Some (mkNetFault 0 (Errorf "reset"))] pair_servers in
  exists (res : result RequestVoteResponse) n',
    genericRPC (raft_serve noon) None "a" (trio_addr "a")
      (encode_command (cmd_RequestVote vote_request)) n = Done res n' /\
    pool_ok None n' /\
    called (raft_serve noon) (trio_addr "a") (cmd_RequestVote vote_request) "" pair_servers res
      (nw_servers n').
Proof.
  cbv zeta. refine (net_rpc_once noon None "a" (trio_addr "a") (cmd_RequestVote vote_request)
    (fresh_net 1 _ pair_servers) (fresh_pool_ok _ _ _) I eq_refl _).
  intros [] Hk; try done. by eexists.
Defined.

Definition snapshot_of (version : Z) (data : string) : InstallSnapshotRequest :=
  mkInstallSnapshotRequest (header_of version) 1 4 (trio_addr "c") 9 3 "" (encode_bits trio) 1
    (Z.of_nat (String.length data)).

Lemma net_InstallSnapshot_once_witness :
  exists res n', net_InstallSnapshot (raft_serve noon) None "a" (trio_addr "a")
      (snapshot_of 3 "state") "state" (fresh_net 1 [] pair_servers) = Done res n' /\
    pool_ok None n' /\
    snapshot_called (raft_serve noon) (snapshot_of 3 "state") "state" (trio_addr "a")
      pair_servers res (nw_servers n').
Proof.
  apply (net_InstallSnapshot_once noon None "a" (trio_addr "a") (snapshot_of 3 "state") "state"
    (fresh_net 1 [] pair_servers)); [apply fresh_pool_ok|done|].
  intros r Hr. injection Hr as <-. reflexivity.
Defined.

Definition hidden_command : Command :=
  cmd_TimeoutNow (mkTimeoutNowRequest (header_of 3)).

Definition state_at (addr : ServerAddress)
    (w : gmap ServerAddress (Raft InmemStore InmemStore InmemSnapshotStore)) : option RaftState :=
  (fun r => state (raft_state r)) <$> w !! addr.

(** A snapshot from a leader that runs version 1 makes the follower, which runs
    version 3, a candidate, when the data happens to read as a [TimeoutNow]. *)
Lemma snapshot_data_as_command_witness :
  let data := encode_command hidden_command in
  state_at (trio_addr "a") (served (raft_serve noon) (trio_addr "a") false
      (encode_command (cmd_InstallSnapshot (snapshot_of 1 data)) +:+ data)
      pair_servers).2 = Some Candidate.
Proof.
  cbv zeta. assert (pair_servers !! trio_addr "a" = Some (trio_server "a")) as Hr by reflexivity.
  assert (checkRPCHeader (trio_server "a")
    (Some (is_Header (snapshot_of 1 (encode_command hidden_command)))) <> None) as Hh
    by by vm_compute.
  assert (is_Size (snapshot_of 1 (encode_command hidden_command)) =
    Z.of_nat (String.length (encode_command hidden_command))) as Hs by reflexivity.
  pose proof (snapshot_data_as_command noon (trio_addr "a")
    (snapshot_of 1 (encode_command hidden_command)) hidden_command pair_servers (trio_server "a")
    Hr Hh I eq_refl Hs) as He.
  etransitivity; [exact (f_equal (state_at (trio_addr "a")) He)|].
  by vm_compute.
Defined.



(** Two heartbeats behind each other. *)
Definition two_requests : list AppendEntriesRequest :=
  let a := heartbeat_request leader_b (repl_to (mkServer Voter "a" "addr-a") 2) in [a; a].

Definition two_answers : option (list (option Reply * option error) *
    gmap ServerAddress (Raft InmemStore InmemStore InmemSnapshotStore)) :=
  serve_all (raft_serve noon (trio_addr "a")) (cmd_AppendEntries <$> two_requests) pair_servers.

Lemma pipelined_requests_witness :
  match two_answers with
  | None => False
  | Some (answers, w') => exists out xs,
      served (raft_serve noon) (trio_addr "a") false (stream (cmd_AppendEntries <$> two_requests))
        pair_servers = (out, Some "", w') /\
      decode_responses (length two_requests) out = Some (xs, "") /\
      Forall2 (fun a x => reads_as a.1 x.2 /\ x.1 = error_text a.2) answers xs
  end.
Proof.
  assert (match two_answers with Some _ => true | None => false end = true) as Hs
    by by vm_compute.
  pose proof (pipelined_requests noon (trio_addr "a") two_requests pair_servers) as Hp.
  fold two_answers in Hp. destruct two_answers as [[answers w']|]; [by apply Hp|done].
Defined.
