(* ===== verification/InmemTransport.v ===== *)
(** * The in-memory transport, [inmem_transport.go]

    Transports that hand commands to each other through channels.  The pipelines a
    transport has opened are objects that it shares with their users, so they are kept
    in a heap, and the slice [pipelines] holds references to them. *)
From S2P Require Import Prelude Types Util Codec Configuration Config Stores State Elections AppendEntries SnapshotStores Snapshot Replication Server Cluster.

(** ** Definitions *)

Record inmemPipeline := mkInmemPipeline {
  ip_peer : ServerAddress;          (* the transport of the peer *)
  ip_peerAddr : ServerAddress;
  ip_shutdown : bool
}.

(** [None] in [it_pipelines] is a nil pointer. *)
Record InmemTransport := mkInmemTransport {
  it_localAddr : ServerAddress;
  it_peers : gmap ServerAddress ServerAddress;
  it_pipelines : list (option nat);
  it_timeout : Z;
  it_heap : list inmemPipeline
}.

(** [uuid] is what [NewInmemAddr] generates. *)
Definition NewInmemTransportWithTimeout (uuid addr : ServerAddress) (timeout : Z)
    : ServerAddress * InmemTransport :=
  let addr := if decide (addr = "") then uuid else addr in
  (addr, mkInmemTransport addr ∅ [] timeout []).

Definition NewInmemTransport (uuid addr : ServerAddress) : ServerAddress * InmemTransport :=
  NewInmemTransportWithTimeout uuid addr (500 * Millisecond).

Definition with_peers (ps : gmap ServerAddress ServerAddress) (i : InmemTransport)
    : InmemTransport :=
  mkInmemTransport (it_localAddr i) ps (it_pipelines i) (it_timeout i) (it_heap i).
Definition with_pipelines (ps : list (option nat)) (i : InmemTransport) : InmemTransport :=
  mkInmemTransport (it_localAddr i) (it_peers i) ps (it_timeout i) (it_heap i).
Definition with_heap (h : list inmemPipeline) (i : InmemTransport) : InmemTransport :=
  mkInmemTransport (it_localAddr i) (it_peers i) (it_pipelines i) (it_timeout i) h.

Definition inmem_Connect (peer t : ServerAddress) (i : InmemTransport) : InmemTransport :=
  with_peers (<[peer := t]> (it_peers i)) i.

(** A new pipeline, as a reference into the heap. *)
Definition inmem_AppendEntriesPipeline (target : ServerAddress)
    : M InmemTransport (result nat) := (
  i <- get_state;;
  match it_peers i !! target with
  | None => returns (Err (Errorf ("failed to connect to peer: " +:+ target)))
  | Some peer =>
      let p := length (it_heap i) in
      modify (with_heap (it_heap i ++ [mkInmemPipeline peer target false]));;
      modify (with_pipelines (it_pipelines i ++ [Some p]));;
      returns (Ok p)
  end)%go.

(** [pipeline.Close()]; a nil pointer panics. *)
Definition pipeline_Close (p : option nat) : M InmemTransport unit :=
  match p with
  | None => panic
  | Some p => modify (fun i => with_heap
      (alter (fun ip => mkInmemPipeline (ip_peer ip) (ip_peerAddr ip) true) p (it_heap i)) i)
  end.

(** The loop of [Disconnect] from [idx] on, with the first [n] cells still to keep.  A
    removal puts the last of them into the freed cell and looks at it next.  The fuel
    is the number of cells left. *)
Fixpoint disconnect_loop (fuel : nat) (peer : ServerAddress) (idx n : nat)
    : M InmemTransport nat :=
  match fuel with
  | O => returns n
  | S fuel => (
      i <- get_state;;
      match it_pipelines i !! idx with
      | Some (Some p) =>
          if decide (ip_peerAddr <$> it_heap i !! p = Some peer) then
            pipeline_Close (Some p);;
            modify (fun i => with_pipelines
              (<[(n - 1)%nat := None]>
                (<[idx := default None (it_pipelines i !! (n - 1)%nat)]> (it_pipelines i))) i);;
            disconnect_loop fuel peer idx (n - 1)
          else disconnect_loop fuel peer (S idx) n
      | _ => panic
      end)%go
  end.

Definition inmem_Disconnect (peer : ServerAddress) : M InmemTransport unit := (
  modify (fun i => with_peers (delete peer (it_peers i)) i);;
  i <- get_state;;
  let n := length (it_pipelines i) in
  n <- disconnect_loop n peer 0 n;;
  modify (fun i => with_pipelines (take n (it_pipelines i)) i))%go.

Fixpoint close_loop (ps : list (option nat)) : M InmemTransport unit :=
  match ps with
  | [] => returns tt
  | p :: ps => (pipeline_Close p;; close_loop ps)%go
  end.

Definition inmem_DisconnectAll : M InmemTransport unit := (
  modify (with_peers ∅);;
  i <- get_state;;
  close_loop (it_pipelines i);;
  modify (with_pipelines []))%go.

Definition inmem_Close : M InmemTransport unit := inmem_DisconnectAll.

(** *** Calls *)

(** [makeRPC]: whether the peer took the command in time, and its answer if that came in
    time. *)
Definition makeRPC (i : InmemTransport) (target : ServerAddress) (taken : bool)
    (answer : option (option Reply * option error)) : option Reply * option error :=
  match it_peers i !! target with
  | None => (None, Some (Errorf ("failed to connect to peer: " +:+ target)))
  | Some _ =>
      if taken then
        match answer with
        | Some rpcResp => rpcResp
        | None => (None, Some (Errorf "command timed out"))
        end
      else (None, Some (Errorf "send timed out"))
  end.

(** The calls: an error, or the response after a type assertion; [None] is its panic. *)
Definition inmem_call {A} (of_Reply : Reply -> option A) (rpc : option Reply * option error)
    : option (result A) :=
  match rpc with
  | (_, Some err) => Some (Err err)
  | (None, None) => None
  | (Some reply, None) => Ok <$> of_Reply reply
  end.

Definition of_AppendEntries (r : Reply) : option AppendEntriesResponse :=
  match r with reply_AppendEntries x => Some x | _ => None end.
Definition of_RequestVote (r : Reply) : option RequestVoteResponse :=
  match r with reply_RequestVote x => Some x | _ => None end.
Definition of_RequestPreVote (r : Reply) : option RequestPreVoteResponse :=
  match r with reply_RequestPreVote x => Some x | _ => None end.
Definition of_InstallSnapshot (r : Reply) : option InstallSnapshotResponse :=
  match r with reply_InstallSnapshot x => Some x | _ => None end.
Definition of_TimeoutNow (r : Reply) : option TimeoutNowResponse :=
  match r with reply_TimeoutNow x => Some x | _ => None end.

Definition inmem_AppendEntries i target taken answer : option (result AppendEntriesResponse) :=
  inmem_call of_AppendEntries (makeRPC i target taken answer).
Definition inmem_RequestVote i target taken answer : option (result RequestVoteResponse) :=
  inmem_call of_RequestVote (makeRPC i target taken answer).
Definition inmem_RequestPreVote i target taken answer : option (result RequestPreVoteResponse) :=
  inmem_call of_RequestPreVote (makeRPC i target taken answer).
Definition inmem_InstallSnapshot i target taken answer : option (result InstallSnapshotResponse) :=
  inmem_call of_InstallSnapshot (makeRPC i target taken answer).
Definition inmem_TimeoutNow i target taken answer : option (result TimeoutNowResponse) :=
  inmem_call of_TimeoutNow (makeRPC i target taken answer).

(** What [decodeResponses] of a pipeline makes of an answer to an append request, or of
    none in time: the response and the error that the future gets.  [None] is the
    panic of the type assertion, which comes before the error is looked at. *)
Definition inmem_decode (answer : option (option Reply * option error))
    : option (option AppendEntriesResponse * option error) :=
  match answer with
  | None => Some (None, Some (Errorf "command timed out"))
  | Some (None, _) => None
  | Some (Some reply, err) => (fun x => (Some x, err)) <$> of_AppendEntries reply
  end.

(** ** Facts: the pipelines of a transport *)

(** Putting the last element into the place of another removes the other. *)
Lemma swap_remove {A} (l : list A) idx x y :
  l !! idx = Some x -> last l = Some y ->
  x :: take (length l - 1) (<[idx := y]> l) ≡ₚ l.
Proof.
  intros Hx Hy. apply list_elem_of_split_length in Hx as (l1 & l2 & -> & ->).
  rewrite insert_app_r_alt, Nat.sub_diag by done. simpl.
  destruct l2 as [|z l2 _] using rev_ind.
  - rewrite last_snoc in Hy. injection Hy as ->. rewrite length_app. simpl.
    rewrite Nat.add_sub, take_app_length. by rewrite Permutation_cons_append.
  - rewrite app_comm_cons, app_assoc, last_snoc in Hy. injection Hy as ->.
    rewrite !length_app. simpl. rewrite length_app. simpl.
    replace (length l1 + S (length l2 + 1) - 1)%nat with (length (l1 ++ y :: l2))
      by (rewrite length_app; simpl; lia).
    rewrite app_comm_cons, app_assoc, take_app_length.
    rewrite Permutation_middle. f_equiv. f_equiv. by rewrite Permutation_cons_append.
Qed.

Definition addr_of (h : list inmemPipeline) (slot : option nat) : option ServerAddress :=
  match slot with Some p => ip_peerAddr <$> h !! p | None => None end.

Definition closed_at (h h' : list inmemPipeline) (closed : nat -> Prop) : Prop :=
  length h' = length h /\ forall p ip, h !! p = Some ip ->
    exists ip', h' !! p = Some ip' /\ ip_peerAddr ip' = ip_peerAddr ip /\ ip_peer ip' = ip_peer ip /\
      (closed p -> ip_shutdown ip' = true) /\ (~ closed p -> ip_shutdown ip' = ip_shutdown ip).

Lemma addr_of_closed h h' closed slot : closed_at h h' closed -> addr_of h' slot = addr_of h slot.
Proof.
  intros [Hl Hc]. destruct slot as [p|]; [|done]. simpl.
  destruct (h !! p) as [ip|] eqn:Hp.
  - destruct (Hc p ip Hp) as (ip' & -> & Ha & _). simpl. by rewrite Ha.
  - apply lookup_ge_None in Hp. rewrite <- Hl in Hp. apply lookup_ge_None in Hp. by rewrite Hp.
Qed.

Lemma pipeline_Close_closed p h :
  closed_at h (alter (fun ip => mkInmemPipeline (ip_peer ip) (ip_peerAddr ip) true) p h)
    (fun q => q = p).
Proof.
  split; [apply length_alter|]. intros q ip Hq. destruct (decide (q = p)) as [->|Hn].
  - rewrite list_lookup_alter_eq, Hq. eexists. by split_and!.
  - rewrite list_lookup_alter_ne, Hq by done. exists ip. by split_and!.
Qed.

Lemma closed_at_trans h1 h2 h3 P Q :
  closed_at h1 h2 P -> closed_at h2 h3 Q -> closed_at h1 h3 (fun p => P p \/ Q p).
Proof.
  intros [Hl1 H1] [Hl2 H2]. split; [congruence|]. intros p ip Hp.
  destruct (H1 p ip Hp) as (ip2 & Hp2 & Ha & Hb & Hc & Hd).
  destruct (H2 p ip2 Hp2) as (ip3 & Hp3 & Ha3 & Hb3 & Hc3 & Hd3).
  exists ip3. split_and!; [done|congruence|congruence|..].
  - intros [HP|HQ]; [|by apply Hc3]. 
    destruct (decide (ip_shutdown ip3 = true)) as [|Hn]; [done|].
    exfalso. apply Hn. rewrite Hd3; [by apply Hc|]. intros HQ. by apply Hn, Hc3.
  - intros Hn. rewrite Hd3, Hd; [done|tauto|tauto].
Qed.

Lemma closed_at_iff h h' P Q : (forall p, P p <-> Q p) -> closed_at h h' P -> closed_at h h' Q.
Proof.
  intros HPQ [Hl Hc]. split; [done|]. intros p ip Hp.
  destruct (Hc p ip Hp) as (ip' & ? & ? & ? & H1 & H2). exists ip'.
  rewrite <- HPQ. by split_and!.
Qed.

Lemma closed_at_refl h P : (forall p, ~ P p) -> closed_at h h P.
Proof.
  intros HP. split; [done|]. intros p ip Hp. exists ip. split_and!; try done. intros Hx. by destruct (HP p).
Qed.

Section Disconnect.
Context (peer : ServerAddress).

Definition keep (h : list inmemPipeline) (slot : option nat) : Prop :=
  addr_of h slot <> Some peer.

#[local] Instance keep_dec h slot : Decision (keep h slot).
Proof. unfold keep. apply _. Defined.

Definition to_close (h : list inmemPipeline) (slots : list (option nat)) (p : nat) : Prop :=
  Some p ∈ slots /\ addr_of h (Some p) = Some peer.

(** The cells after a removal, as far as they are kept. *)
Lemma removed_cells (arr : list (option nat)) idx n x y :
  (n <= length arr)%nat -> (idx < n)%nat -> arr !! idx = Some x -> arr !! (n - 1)%nat = Some y ->
  x :: take (n - 1) (<[(n - 1)%nat := None]> (<[idx := y]> arr)) ≡ₚ take n arr.
Proof.
  intros Hn Hi Hx Hy. rewrite take_insert_ge by lia.
  rewrite <- (swap_remove (take n arr) idx x y).
  - rewrite length_take, Nat.min_l by done.
    rewrite <- take_insert_lt by done. by rewrite take_take, Nat.min_l by lia.
  - by rewrite lookup_take_lt.
  - rewrite last_lookup, length_take, Nat.min_l, lookup_take_lt by lia.
    replace (Nat.pred n) with (n - 1)%nat by lia. done.
Qed.

Lemma disconnect_loop_spec fuel idx n i :
  (n <= length (it_pipelines i))%nat -> fuel = (n - idx)%nat -> (idx <= n)%nat ->
  (forall j, (j < n)%nat -> exists p, it_pipelines i !! j = Some (Some p)) ->
  Forall (keep (it_heap i)) (take idx (it_pipelines i)) ->
  exists n' i', disconnect_loop fuel peer idx n i = Done n' i' /\
    take n' (it_pipelines i') ≡ₚ filter (keep (it_heap i)) (take n (it_pipelines i)) /\
    closed_at (it_heap i) (it_heap i') (to_close (it_heap i) (take n (it_pipelines i))) /\
    it_peers i' = it_peers i.
Proof.
  revert idx n i. induction fuel as [|fuel IH]; intros idx n i Hn Hf Hi Hslots Hkeep.
  - assert (idx = n) as -> by lia. exists n, i. rewrite Forall_forall in Hkeep. split_and!; try done.
    + by rewrite filter_every.
    + apply closed_at_refl. intros p [Hin Ha]. by apply (Hkeep (Some p)).
  - cbn [disconnect_loop]. unfold bind at 1, get_state. destruct (Hslots idx) as [p Hp]; [lia|].
    rewrite Hp. case_decide as Hd.
    + unfold pipeline_Close, bind, modify.
      destruct (Hslots (n - 1)%nat) as [q Hq]; [lia|]. simpl. rewrite Hq. simpl.
      set (h1 := alter _ p (it_heap i)).
      set (arr1 := <[(n - 1)%nat := None]> (<[idx := Some q]> (it_pipelines i))).
      assert (closed_at (it_heap i) h1 (fun p' => p' = p)) as Hc1 by apply pipeline_Close_closed.
      pose proof (removed_cells (it_pipelines i) idx n _ _ Hn ltac:(lia) Hp Hq) as Hperm.
      fold arr1 in Hperm.
      destruct (IH idx (n - 1)%nat (mkInmemTransport (it_localAddr i) (it_peers i) arr1
        (it_timeout i) h1)) as (n' & i' & Hr & Hres & Hc & Hps); simpl; try lia.
      * unfold arr1. rewrite !length_insert. lia.
      * intros j Hj. unfold arr1. rewrite list_lookup_insert_ne by lia.
        destruct (decide (j = idx)) as [->|Hne]; [|rewrite list_lookup_insert_ne by done; apply Hslots; lia].
        exists q. apply list_lookup_insert_eq. lia.
      * unfold arr1. rewrite !take_insert_ge by lia. eapply Forall_impl; [exact Hkeep|].
        intros s. unfold keep. by rewrite (addr_of_closed _ _ _ s Hc1).
      * exists n', i'. unfold with_heap, with_pipelines. simpl. split_and!; try done.
        -- rewrite Hres. simpl. rewrite <- Hperm, filter_cons_False by (intros Hk; by apply Hk).
           erewrite list_filter_iff; [done|]. intros s. unfold keep.
           by rewrite (addr_of_closed _ _ _ s Hc1).
        -- eapply closed_at_iff; [|eapply closed_at_trans; [exact Hc1|exact Hc]]. intros p'.
           unfold to_close. simpl. rewrite <- Hperm. change (ip_peerAddr <$> h1 !! p') with
             (addr_of h1 (Some p')). rewrite (addr_of_closed _ _ _ (Some p') Hc1), elem_of_cons.
           simpl. split; [intros [->|[? ?]]; auto|]. intros [[[= ->]|?] ?]; auto.
    + apply IH; try done; try lia. erewrite take_S_r by done. apply Forall_app. split; [done|].
      by constructor.
Qed.

(** Disconnecting a peer.  The loop that removes pipelines while it walks over them
    ends without a nil pointer; what remains are the pipelines to other peers, each
    once; the pipelines to the peer and no others are closed. *)
Theorem inmem_Disconnect_spec i :
  (forall s, s ∈ it_pipelines i -> s <> None) ->
  exists i', inmem_Disconnect peer i = Done tt i' /\
    it_peers i' = delete peer (it_peers i) /\
    it_pipelines i' ≡ₚ filter (fun s => addr_of (it_heap i) s <> Some peer) (it_pipelines i) /\
    closed_at (it_heap i) (it_heap i')
      (fun p => Some p ∈ it_pipelines i /\ addr_of (it_heap i) (Some p) = Some peer).
Proof.
  intros Hnil. unfold inmem_Disconnect, bind, modify, get_state. simpl.
  destruct (disconnect_loop_spec (length (it_pipelines i)) 0 (length (it_pipelines i))
    (with_peers (delete peer (it_peers i)) i)) as (n' & i' & Hr & Hres & Hc & Hps);
    simpl; try lia.
  - intros j Hj. apply lookup_lt_is_Some in Hj as [[p|] Hj]; [by exists p|].
    apply list_elem_of_lookup_2, Hnil in Hj. done.
  - constructor.
  - rewrite Hr. eexists. split; [reflexivity|]. simpl in *. rewrite (take_ge (it_pipelines i)) in Hres, Hc by done.
    by split_and!.
Qed.
End Disconnect.

(** ** Facts: calls *)

Section Calls.
Context {L K SN : Type} `{LogStore L} `{StableStore K} `{SnapshotStore SN} `{MsgPack}
  `{PeerCodec}.
Abbreviation raft := (Raft L K SN).

(** A refused append request.  When a server refuses the header of the request, a call
    of [AppendEntries] returns the server's error, but a pipeline that gets the same
    answer panics: it asserts the type of the response before it looks at the error,
    and a refusal has no response. *)
Theorem inmem_pipeline_refusal env a (r : raft) e i target peer :
  checkRPCHeader r (Some (ae_Header a)) = Some e -> it_peers i !! target = Some peer ->
  exists answer, processRPC env (cmd_AppendEntries a) r = Done answer r /\
    inmem_AppendEntries i target true (Some answer) = Some (Err e) /\
    inmem_decode (Some answer) = None.
Proof.
  intros Hh Hp. exists (None, Some e). split_and!; [|unfold inmem_AppendEntries, makeRPC; by rewrite Hp|done].
  unfold processRPC, bind, get_state.
  change (command_header (cmd_AppendEntries a)) with (Some (ae_Header a)). by rewrite Hh.
Qed.

(** Every other answer is of the type that the caller asserts. *)
Lemma inmem_AppendEntries_total env a (r r' : raft) answer i target taken :
  processRPC env (cmd_AppendEntries a) r = Done answer r' ->
  inmem_AppendEntries i target taken (Some answer) <> None.
Proof.
  unfold processRPC, bind, get_state. intros Hr.
  assert (answer.2 <> None \/ exists x, answer.1 = Some (reply_AppendEntries x)) as Ha.
  { destruct (checkRPCHeader r _).
    - injection Hr as <- <-. by left.
    - destruct (appendEntries _ a r) as [[resp err] r1|]; [|done]. injection Hr as <- <-.
      right. by eexists. }
  unfold inmem_AppendEntries, makeRPC. destruct (it_peers i !! target), taken; try done.
  destruct answer as [resp [err|]]; simpl in Ha |- *; [by destruct resp|].
  destruct Ha as [Ha|[x ->]]; [by destruct Ha|done].
Qed.
End Calls.

(** ** Witnesses *)

#[local] Existing Instance bitsMsgPack.
#[local] Existing Instance inmemPeerCodec.

(** A transport with pipelines to "x", "y", "x" and "x". *)
Definition piped_transport : InmemTransport :=
  mkInmemTransport "me" {["x" := "x"; "y" := "y"]} [Some 0%nat; Some 1%nat; Some 2%nat; Some 3%nat]
    500000000 [mkInmemPipeline "x" "x" false; mkInmemPipeline "y" "y" false;
               mkInmemPipeline "x" "x" false; mkInmemPipeline "x" "x" false].

Lemma inmem_Disconnect_spec_witness :
  exists i', inmem_Disconnect "x" piped_transport = Done tt i' /\
    it_peers i' = delete "x" (it_peers piped_transport) /\
    it_pipelines i' ≡ₚ filter (fun s => addr_of (it_heap piped_transport) s <> Some "x")
      (it_pipelines piped_transport) /\
    closed_at (it_heap piped_transport) (it_heap i')
      (fun p => Some p ∈ it_pipelines piped_transport /\
         addr_of (it_heap piped_transport) (Some p) = Some "x").
Proof. apply (inmem_Disconnect_spec "x"). intros s Hs. set_unfold in Hs. naive_solver. Defined.

Example inmem_Disconnect_pipelines :
  match inmem_Disconnect "x" piped_transport with
  | Done _ i => it_pipelines i
  | Panicked _ => []
  end = [Some 1%nat].
Proof. by vm_compute. Qed.

Lemma inmem_pipeline_refusal_witness :
  let a := mkAppendEntriesRequest (mkHeader 1 "c" "addr-c") 3 "addr-c" 0 0 [] 0 in
  exists answer, processRPC noon (cmd_AppendEntries a) (trio_server "a")
      = Done answer (trio_server "a") /\
    inmem_AppendEntries piped_transport "x" true (Some answer)
      = Some (Err ErrUnsupportedProtocol) /\
    inmem_decode (Some answer) = None.
Proof.
  cbv zeta. apply (inmem_pipeline_refusal noon _ (trio_server "a") ErrUnsupportedProtocol
    piped_transport "x" "x"); [by vm_compute|reflexivity].
Defined.
