(* ===== verification/Observers.v ===== *)
(** * Observers, progress and saturation

    [observer.go]: registering observers and sending them observations over channels
    that may be shared, full or missing.  [progress.go]: readers that count what they
    deliver and the goroutine that reports on them.  [saturation.go]: how much of its
    time a loop works. *)
From S2P Require Import Prelude Types Util Codec Configuration Config Commitment Stores State.

(** ** [observer.go] *)

(** A buffered channel: its capacity and what it holds. *)
Record obsChannel := mkObsChannel {
  oc_cap : nat;
  oc_buf : list Observation
}.

(** [or_channel] refers to a channel of the store; [None] is nil, and a filter of
    [None] lets everything through. *)
Record Observer := mkObserver {
  or_numObserved : N;
  or_numDropped : N;
  or_channel : option nat;
  or_blocking : bool;
  or_filter : option (Observation -> bool)
}.

(** The channels, all observers by their identifiers, the counter [nextObserverID],
    and the identifiers in [r.observers]. *)
Record obsState := mkObsState {
  os_channels : gmap nat obsChannel;
  os_observers : gmap N Observer;
  os_nextID : N;
  os_registered : gset N
}.

Definition os_set_channel (c : nat) (ch : obsChannel) (st : obsState) : obsState :=
  mkObsState (<[c := ch]> (os_channels st)) (os_observers st) (os_nextID st) (os_registered st).

Definition os_update (f : Observer -> Observer) (id : N) (st : obsState) : obsState :=
  mkObsState (os_channels st) (alter f id (os_observers st)) (os_nextID st) (os_registered st).

Definition NewObserver (channel : option nat) (blocking : bool)
    (filter : option (Observation -> bool)) (st : obsState) : N * obsState :=
  let id := u64_add (os_nextID st) 1 in
  (id, mkObsState (os_channels st)
         (<[id := mkObserver 0 0 channel blocking filter]> (os_observers st)) id
         (os_registered st)).

Definition RegisterObserver (id : N) (st : obsState) : obsState :=
  mkObsState (os_channels st) (os_observers st) (os_nextID st) ({[id]} ∪ os_registered st).

Definition DeregisterObserver (id : N) (st : obsState) : obsState :=
  mkObsState (os_channels st) (os_observers st) (os_nextID st) (os_registered st ∖ {[id]}).

Definition count_observed (ob : Observer) : Observer :=
  mkObserver (u64_add (or_numObserved ob) 1) (or_numDropped ob) (or_channel ob) (or_blocking ob)
    (or_filter ob).

Definition count_dropped (ob : Observer) : Observer :=
  mkObserver (or_numObserved ob) (u64_add (or_numDropped ob) 1) (or_channel ob) (or_blocking ob)
    (or_filter ob).

Definition passes (ob : Observer) (o : Observation) : bool :=
  match or_filter ob with Some f => f o | None => true end.

(** A send that does not wait: [None] when the channel is full. *)
Definition try_send (c : nat) (o : Observation) (st : obsState) : option obsState :=
  match os_channels st !! c with
  | Some ch =>
      if decide (length (oc_buf ch) < oc_cap ch)
      then Some (os_set_channel c (mkObsChannel (oc_cap ch) (oc_buf ch ++ [o])) st)
      else None
  | None => None
  end.

(** The body of the loop of [observe]: [None] is a send that has to wait. *)
Definition observe_one (o : Observation) (id : N) (st : obsState) : option obsState :=
  match os_observers st !! id with
  | None => Some st
  | Some ob =>
      if negb (passes ob o) then Some st
      else match or_channel ob with
           | None => Some st
           | Some c =>
               match try_send c o st with
               | Some st' => Some (os_update count_observed id st')
               | None => if or_blocking ob then None
                         else Some (os_update count_dropped id st)
               end
           end
  end.

(** [observe] over the observers in the order in which the map gives them; what is left
    of them when a send has to wait. *)
Fixpoint observe_all (o : Observation) (ids : list N) (st : obsState) : obsState * list N :=
  match ids with
  | [] => (st, [])
  | id :: rest =>
      match observe_one o id st with
      | Some st' => observe_all o rest st'
      | None => (st, ids)
      end
  end.

(** A receiver takes the oldest observation. *)
Definition receive (c : nat) (st : obsState) : option (Observation * obsState) :=
  match os_channels st !! c with
  | Some (mkObsChannel cap (o :: buf)) => Some (o, os_set_channel c (mkObsChannel cap buf) st)
  | _ => None
  end.

(** *** What observers get *)

(** Observers that never make the sender wait. *)
Definition nonblocking (st : obsState) (ids : list N) : Prop :=
  forall id ob, id ∈ ids -> os_observers st !! id = Some ob -> or_blocking ob = false.

(** What no observation changes in an observer. *)
Definition settings (ob : Observer) : option nat * bool * option (Observation -> bool) :=
  (or_channel ob, or_blocking ob, or_filter ob).

Definition wants (ob : Observer) (o : Observation) : bool :=
  passes ob o && match or_channel ob with Some _ => true | None => false end.

Lemma try_send_observers c o st st' :
  try_send c o st = Some st' ->
  os_observers st' = os_observers st /\ os_registered st' = os_registered st /\
  os_nextID st' = os_nextID st.
Proof. unfold try_send. repeat case_match; try done. by intros [= <-]. Qed.

Lemma observe_one_other o id st st' id' :
  observe_one o id st = Some st' -> id' <> id -> os_observers st' !! id' = os_observers st !! id'.
Proof.
  intros HE Hne. unfold observe_one in HE.
  destruct (os_observers st !! id) as [ob|]; [|by injection HE as <-].
  destruct (passes ob o); simpl in HE; [|by injection HE as <-].
  destruct (or_channel ob) as [c|]; [|by injection HE as <-].
  destruct (try_send c o st) as [st1|] eqn:Hs.
  - injection HE as <-. simpl. rewrite lookup_alter_ne by done.
    by destruct (try_send_observers _ _ _ _ Hs) as (-> & _).
  - destruct (or_blocking ob); [done|]. injection HE as <-. simpl. by rewrite lookup_alter_ne.
Qed.

(** One observer: the settings stay, and an observation that it wants is counted. *)
Lemma observe_one_counts o id st st' ob :
  observe_one o id st = Some st' -> os_observers st !! id = Some ob ->
  in_u64 (or_numObserved ob + or_numDropped ob + 1) ->
  exists ob', os_observers st' !! id = Some ob' /\ settings ob' = settings ob /\
    (or_numObserved ob' + or_numDropped ob' =
     or_numObserved ob + or_numDropped ob + (if wants ob o then 1 else 0))%N.
Proof.
  intros HE Hid Hlt. unfold observe_one, wants in *. rewrite Hid in HE. unfold in_u64 in Hlt.
  destruct (passes ob o); simpl in HE |- *; [|injection HE as <-; exists ob; split_and!; [done..|lia]].
  destruct (or_channel ob) as [c|] eqn:Hc;
    [|injection HE as <-; exists ob; split_and!; [done..|lia]].
  destruct (try_send c o st) as [st1|] eqn:Hs.
  - injection HE as <-. destruct (try_send_observers _ _ _ _ Hs) as (Ho & _).
    simpl. rewrite lookup_alter_eq, Ho, Hid. eexists. split_and!; [done|done|]. simpl.
    rewrite u64_add_small by lia. lia.
  - destruct (or_blocking ob) eqn:Hb; [done|]. injection HE as <-. simpl.
    rewrite lookup_alter_eq, Hid. eexists. split_and!; [done|done|]. simpl.
    rewrite u64_add_small by lia. lia.
Qed.

Lemma observe_one_proceeds o id st :
  nonblocking st [id] -> exists st', observe_one o id st = Some st'.
Proof.
  intros Hn. unfold observe_one. destruct (os_observers st !! id) as [ob|] eqn:Hid; [|eauto].
  destruct (passes ob o); simpl; [|eauto]. destruct (or_channel ob) as [c|]; [|eauto].
  destruct (try_send c o st); [eauto|]. rewrite (Hn id ob) by (done || left). eauto.
Qed.

Lemma nonblocking_after o id st st' ids :
  nonblocking st (id :: ids) -> NoDup (id :: ids) -> observe_one o id st = Some st' ->
  nonblocking st' ids.
Proof.
  intros Hn Hd HE id' ob Hin Hob. apply NoDup_cons in Hd as [Hni _].
  rewrite (observe_one_other _ _ _ _ _ HE) in Hob by set_solver.
  apply (Hn id'); [by right|done].
Qed.

(** Observers that do not block never stop the server; each observation that an
    observer wants is counted once, as delivered or as dropped, and who is not
    registered does not notice. *)
Theorem observe_counts o ids st :
  NoDup ids -> nonblocking st ids ->
  (forall id ob, id ∈ ids -> os_observers st !! id = Some ob ->
     in_u64 (or_numObserved ob + or_numDropped ob + 1)) ->
  exists st', observe_all o ids st = (st', []) /\
    (forall id, id ∉ ids -> os_observers st' !! id = os_observers st !! id) /\
    forall id ob, id ∈ ids -> os_observers st !! id = Some ob ->
      exists ob', os_observers st' !! id = Some ob' /\ settings ob' = settings ob /\
        (or_numObserved ob' + or_numDropped ob' =
         or_numObserved ob + or_numDropped ob + (if wants ob o then 1 else 0))%N.
Proof.
  revert st. induction ids as [|i ids IH]; intros st Hd Hn Hlt; cbn [observe_all].
  { exists st. split_and!; [done|done|]. by intros id ob ?%not_elem_of_nil. }
  destruct (observe_one_proceeds o i st) as [st1 H1].
  { intros id ob ->%list_elem_of_singleton. apply Hn. left. }
  rewrite H1. apply NoDup_cons in Hd as Hd'. destruct Hd' as [Hni Hd'].
  assert (Hother : forall id, id <> i -> os_observers st1 !! id = os_observers st !! id)
    by (intros; by eapply observe_one_other).
  destruct (IH st1 Hd') as (st2 & HA & Hout & Hin).
  { by eapply nonblocking_after. }
  { intros id ob Hid. rewrite Hother by set_solver. apply Hlt. by right. }
  exists st2. split_and!; [done| |].
  - intros id Hid. rewrite Hout, Hother by set_solver. done.
  - intros id ob [->|Hid]%elem_of_cons Hob.
    + rewrite Hout by done. eapply observe_one_counts; [done..|]. apply (Hlt i); [left|done].
    + apply Hin; [done|]. by rewrite Hother by set_solver.
Qed.

(** *** The order of the observers *)

(** Observers with channels of their own. *)
Definition channel_of (st : obsState) (id : N) : option nat := os_observers st !! id ≫= or_channel.

Definition own_channels (st : obsState) (ids : list N) : Prop :=
  forall id id' c, id ∈ ids -> id' ∈ ids ->
    channel_of st id = Some c -> channel_of st id' = Some c -> id = id'.

(** What an observer makes of an observation: nothing, a delivery on a channel, or a
    drop; [None] is a wait. *)
Inductive reaction := rn_none | rn_sent (c : nat) | rn_dropped.

Definition has_room (st : obsState) (c : nat) : bool :=
  match os_channels st !! c with
  | Some ch => bool_decide (length (oc_buf ch) < oc_cap ch)
  | None => false
  end.

Definition react_of (o : Observation) (ob : option Observer) (room : nat -> bool)
    : option reaction :=
  match ob with
  | None => Some rn_none
  | Some ob =>
      if negb (passes ob o) then Some rn_none
      else match or_channel ob with
           | None => Some rn_none
           | Some c => if room c then Some (rn_sent c)
                       else if or_blocking ob then None else Some rn_dropped
           end
  end.

Definition push (o : Observation) (ch : obsChannel) : obsChannel :=
  mkObsChannel (oc_cap ch) (oc_buf ch ++ [o]).

Definition react (o : Observation) (id : N) (rn : reaction) (st : obsState) : obsState :=
  match rn with
  | rn_none => st
  | rn_sent c =>
      mkObsState (alter (push o) c (os_channels st))
        (alter count_observed id (os_observers st)) (os_nextID st) (os_registered st)
  | rn_dropped => os_update count_dropped id st
  end.

Lemma observe_one_react o id st :
  observe_one o id st =
  (fun rn => react o id rn st) <$> react_of o (os_observers st !! id) (has_room st).
Proof.
  unfold observe_one, react_of, try_send, has_room. destruct (os_observers st !! id) as [ob|]; [|done].
  destruct (passes ob o); [|done]. destruct (or_channel ob) as [c|]; [|done]. simpl.
  destruct (os_channels st !! c) as [ch|] eqn:Hc; [|by destruct (or_blocking ob)].
  case_decide as Hl.
  - rewrite bool_decide_true by done. simpl. f_equal. unfold os_update, os_set_channel. simpl.
    f_equal. apply map_eq. intros c'. destruct (decide (c' = c)) as [->|Hne].
    + by rewrite lookup_insert_eq, lookup_alter_eq, Hc.
    + by rewrite lookup_insert_ne, lookup_alter_ne.
  - rewrite bool_decide_false by done. by destruct (or_blocking ob).
Qed.

(** Which channel a reaction is about. *)
Lemma react_of_channel o ob room c :
  react_of o ob room = Some (rn_sent c) -> exists b, ob = Some b /\ or_channel b = Some c.
Proof.
  unfold react_of. destruct ob as [ob|]; [|done]. repeat case_match; try done.
  intros [= <-]. eauto.
Qed.

(** The reaction of [j] does not depend on the one of [i]. *)
Lemma react_of_other o i j rn st :
  i <> j -> (forall c, rn = rn_sent c ->
    forall ob, os_observers st !! j = Some ob -> or_channel ob <> Some c) ->
  react_of o (os_observers (react o i rn st) !! j) (has_room (react o i rn st)) =
  react_of o (os_observers st !! j) (has_room st).
Proof.
  intros Hij Hc. assert (os_observers (react o i rn st) !! j = os_observers st !! j) as ->.
  { destruct rn; simpl; [done|by rewrite lookup_alter_ne..]. }
  unfold react_of. destruct (os_observers st !! j) as [ob|]; [|done].
  destruct (passes ob o); [|done]. simpl. destruct (or_channel ob) as [c|] eqn:Hch; [|done].
  assert (has_room (react o i rn st) c = has_room st c) as ->; [|done].
  destruct rn as [|c'|]; [done| |done]. unfold has_room. simpl. rewrite lookup_alter_ne; [done|].
  intros ->. by eapply Hc.
Qed.

Lemma react_comm o i j ri rj st :
  i <> j -> (forall c c', ri = rn_sent c -> rj = rn_sent c' -> c <> c') ->
  react o i ri (react o j rj st) = react o j rj (react o i ri st).
Proof.
  intros Hij Hc. destruct ri as [|c|], rj as [|c'|]; try done; unfold react, os_update; simpl;
    f_equal; try (by apply alter_alter_ne); apply alter_alter_ne; by apply Hc.
Qed.

Lemma observe_one_comm o i j st :
  i <> j -> own_channels st [i; j] ->
  observe_one o i st ≫= observe_one o j = observe_one o j st ≫= observe_one o i.
Proof.
  intros Hij Hown.
  assert (Hch : forall k k' rn, k ∈ [i; j] -> k' ∈ [i; j] -> k <> k' ->
    react_of o (os_observers st !! k) (has_room st) = Some rn ->
    forall c, rn = rn_sent c ->
    forall ob, os_observers st !! k' = Some ob -> or_channel ob <> Some c).
  { intros k k' rn Hk Hk' Hne Hr c -> ob Hob Hc. apply Hne, (Hown k k' c); [done..| |].
    - destruct (react_of_channel _ _ _ _ Hr) as (b & Hb & Hbc). unfold channel_of. by rewrite Hb.
    - unfold channel_of. by rewrite Hob. }
  assert (i ∈ [i; j] /\ j ∈ [i; j]) as [Hi Hj] by set_solver.
  rewrite !observe_one_react.
  destruct (react_of o (os_observers st !! i) (has_room st)) as [ri|] eqn:Ei;
  destruct (react_of o (os_observers st !! j) (has_room st)) as [rj|] eqn:Ej; cbn; [| | |done].
  - rewrite !observe_one_react, (react_of_other o i j), (react_of_other o j i), Ei, Ej
      by (done || by apply (Hch i j) || by apply (Hch j i)). cbn. f_equal.
    symmetry. apply react_comm; [done|]. intros c c' -> -> <-.
    destruct (react_of_channel _ _ _ _ Ej) as (b & Hb & Hbc).
    by apply (Hch i j _ Hi Hj Hij Ei c eq_refl b).
  - by rewrite observe_one_react, (react_of_other o i j), Ej by (done || by apply (Hch i j) || by apply (Hch j i)).
  - by rewrite observe_one_react, (react_of_other o j i), Ei by (done || by apply (Hch i j) || by apply (Hch j i)).
Qed.

Lemma observe_one_channel o i st st' id :
  observe_one o i st = Some st' -> channel_of st' id = channel_of st id.
Proof.
  rewrite observe_one_react. destruct (react_of _ _ _) as [rn|]; [|done]. intros [= <-].
  unfold channel_of. destruct rn as [|c|]; [done|..]; simpl; rewrite lookup_alter;
    case_decide; [subst|done|subst|done]; by destruct (os_observers st !! _).
Qed.

Lemma observe_one_blocking o i st st' ids :
  observe_one o i st = Some st' -> nonblocking st ids -> nonblocking st' ids.
Proof.
  rewrite observe_one_react. destruct (react_of _ _ _) as [rn|]; [|done]. intros [= <-] Hn id ob Hin.
  destruct rn as [|c|]; [by apply Hn|..]; simpl; rewrite lookup_alter;
    case_decide; try (by apply Hn); subst; destruct (os_observers st !! _) as [ob'|] eqn:Hob;
    try done; intros [= <-]; exact (Hn _ _ Hin Hob).
Qed.

(** With a channel each, the order in which the map gives the observers does not
    matter. *)
Theorem observe_order o ids ids' st :
  ids ≡ₚ ids' -> NoDup ids -> nonblocking st ids -> own_channels st ids ->
  observe_all o ids st = observe_all o ids' st.
Proof.
  intros Hp. revert st. induction Hp as [|i ids ids' Hp IH|i j ids|ids1 ids2 ids3 H1 IH1 H2 IH2];
    intros st Hd Hn Hown; cbn [observe_all].
  - done.
  - destruct (observe_one o i st) as [st1|] eqn:HE.
    + apply IH; [by apply NoDup_cons in Hd as [_ ?]|by eapply nonblocking_after|].
      intros k k' c Hk Hk'. rewrite !(observe_one_channel _ _ _ _ _ HE).
      apply Hown; by right.
    + destruct (observe_one_proceeds o i st) as [st' ?]; [|congruence].
      intros id ob ->%list_elem_of_singleton. apply Hn. left.
  - assert (i <> j) as Hij by (apply NoDup_cons in Hd as [Hd _]; set_solver).
    assert (own_channels st [j; i]) as Hown'.
    { intros k k' c Hk Hk'. apply Hown; set_solver. }
    pose proof (observe_one_comm o j i st (not_eq_sym Hij) Hown') as Hc.
    destruct (observe_one_proceeds o i st) as [sti Hi].
    { intros id ob ->%list_elem_of_singleton. apply Hn. set_solver. }
    destruct (observe_one_proceeds o j st) as [stj Hj].
    { intros id ob ->%list_elem_of_singleton. apply Hn. set_solver. }
    rewrite Hi, Hj in Hc |- *. cbn in Hc. cbn [observe_all]. rewrite Hc.
    destruct (observe_one_proceeds o j sti) as [st2 H2]; [|by rewrite H2].
    intros id ob ->%list_elem_of_singleton.
    apply (observe_one_blocking _ _ _ _ _ Hi Hn). set_solver.
  - rewrite IH1 by done. apply IH2.
    + by rewrite <- H1.
    + intros id ob Hin. apply Hn. by rewrite H1.
    + intros k k' c Hk Hk'. apply Hown; by rewrite H1.
Qed.

(** ** [saturation.go] *)

(** A zero [time.Time] is [None].  [sat_reports] is what was reported: the time spent
    working and the time measured; their quotient is rounded to hundredths. *)
Record saturationMetric := mkSaturation {
  sat_reportInterval : Z;
  sat_slept : Z;
  sat_lost : Z;
  sat_lastReport : Z;
  sat_sleepBegan : option Z;
  sat_workBegan : option Z;
  sat_reports : list (Z * Z)
}.

Definition newSaturationMetric (reportInterval now : Z) : saturationMetric :=
  mkSaturation reportInterval 0 0 now None None [].

(** [report] at the time [now]: a total of 0 is reported as 0. *)
Definition sat_report (now : Z) (s : saturationMetric) : saturationMetric :=
  let timeSinceLastReport := (now - sat_lastReport s)%Z in
  if decide (timeSinceLastReport < sat_reportInterval s)%Z then s
  else
    let total := (timeSinceLastReport - sat_lost s)%Z in
    mkSaturation (sat_reportInterval s) 0 0 now (sat_sleepBegan s) (sat_workBegan s)
      (sat_reports s ++
       [if decide (total <> 0)%Z then ((total - sat_slept s)%Z, total) else (0, 0)%Z]).

(** [now] and [now'] are the two readings of the clock. *)
Definition sat_sleeping (now now' : Z) (s : saturationMetric) : saturationMetric :=
  let lost := match sat_sleepBegan s with
              | Some t => (sat_lost s + (now - t))%Z
              | None => sat_lost s
              end in
  sat_report now'
    (mkSaturation (sat_reportInterval s) (sat_slept s) lost (sat_lastReport s) (Some now) None
       (sat_reports s)).

Definition sat_working (now now' : Z) (s : saturationMetric) : saturationMetric :=
  let '(slept, lost) :=
    match sat_workBegan s, sat_sleepBegan s with
    | None, None => (sat_slept s, (sat_lost s + (now - sat_lastReport s))%Z)
    | None, Some t => ((sat_slept s + (now - t))%Z, sat_lost s)
    | Some t, _ => (sat_slept s, (sat_lost s + (now - t))%Z)
    end in
  sat_report now'
    (mkSaturation (sat_reportInterval s) slept lost (sat_lastReport s) None (Some now)
       (sat_reports s)).

(** A call of [working] ([true]) or [sleeping] at a time. *)
Definition sat_call (c : bool * Z) (s : saturationMetric) : saturationMetric :=
  if c.1 then sat_working c.2 c.2 s else sat_sleeping c.2 c.2 s.

Definition sat_run (calls : list (bool * Z)) (s : saturationMetric) : saturationMetric :=
  foldl (fun s c => sat_call c s) s calls.

(** The last call, and what was measured between the last report and it. *)
Definition sat_since (s : saturationMetric) : Z :=
  match sat_workBegan s, sat_sleepBegan s with
  | Some t, _ | None, Some t => t
  | None, None => sat_lastReport s
  end.

Record sat_ok (now : Z) (s : saturationMetric) : Prop := {
  so_one : sat_workBegan s = None \/ sat_sleepBegan s = None;
  so_since : (sat_lastReport s <= sat_since s <= now)%Z;
  so_slept : (0 <= sat_slept s)%Z;
  so_lost : (0 <= sat_lost s)%Z;
  so_sum : (sat_slept s + sat_lost s <= sat_since s - sat_lastReport s)%Z;
  so_reports : Forall (fun p => 0 <= p.1 <= p.2)%Z (sat_reports s)
}.

Lemma sat_report_ok now s : sat_ok now s -> sat_since s = now -> sat_ok now (sat_report now s).
Proof.
  intros [S1 S2 S3 S4 S5 S6] Hs. unfold sat_report. cbv zeta. case_decide; [by split|].
  assert (sat_since s = now -> forall l, sat_since (mkSaturation (sat_reportInterval s) 0 0 now
    (sat_sleepBegan s) (sat_workBegan s) l) = now) as Hsince.
  { unfold sat_since. simpl. by repeat case_match. }
  split; simpl; try rewrite Hsince by done; try done; try lia.
  apply Forall_app. split; [done|]. apply Forall_singleton. case_decide; simpl; lia.
Qed.

Lemma sat_call_ok now c s : sat_ok now s -> (now <= c.2)%Z -> sat_ok c.2 (sat_call c s).
Proof.
  intros [S1 S2 S3 S4 S5 S6] Hle. destruct c as [w t]. unfold sat_call. simpl in *.
  destruct w; unfold sat_working, sat_sleeping; [destruct (sat_workBegan s) eqn:Hw|];
    destruct (sat_sleepBegan s) eqn:Hb; unfold sat_since in S2, S5; rewrite ?Hw, ?Hb in S2, S5;
    try (destruct (sat_workBegan s) eqn:Hw'; [by destruct S1|]);
    try (apply sat_report_ok; [|done]); split; unfold sat_since; simpl; try done; auto; lia.
Qed.

(** Every reported saturation lies between 0 and 1, however [sleeping] and [working] are
    called, when the clock does not go back and a call reads it once. *)
Theorem saturation_bounded interval now calls :
  Sorted Z.le (now :: (snd <$> calls)) ->
  Forall (fun p => 0 <= p.1 <= p.2)%Z
    (sat_reports (sat_run calls (newSaturationMetric interval now))).
Proof.
  intros Hs. assert (exists now', sat_ok now' (sat_run calls (newSaturationMetric interval now)))
    as [now' Hok]; [|apply Hok].
  assert (sat_ok now (newSaturationMetric interval now)) as Hok.
  { split; simpl; try done; try lia; [by left|unfold sat_since; simpl; lia..]. }
  revert Hok Hs. generalize (newSaturationMetric interval now). revert now.
  induction calls as [|c calls IH]; intros now s Hok Hs; [by exists now|].
  cbn in Hs. apply Sorted_inv in Hs as [Hs Hhd]. apply HdRel_inv in Hhd.
  apply (IH c.2); [by eapply sat_call_ok|done].
Qed.

(** A call reads the clock twice; time that passes between the two readings can make a
    saturation negative. *)
Lemma saturation_negative :
  exists s, s = sat_working 20 20 (sat_sleeping 0 11 (newSaturationMetric 9 0)) /\
    sat_reports s = [(11, 11); (-11, 9)]%Z.
Proof. eexists. split; [done|]. vm_compute. reflexivity. Qed.

(** ** [progress.go] *)

(** A reader: [Read] with a buffer of the given size delivers data and an error. *)
Class Reader (R : Type) := {
  reader_Read : R -> nat -> R * string * option error
}.

Record countingReader (R : Type) := mkCountingReader {
  cr_reader : R;
  cr_bytes : Z
}.
Arguments mkCountingReader {R} _ _.
Arguments cr_reader {R} _.
Arguments cr_bytes {R} _.

Section Progress.
Context {R : Type} `{Reader R}.

Definition newCountingReader (r : R) : countingReader R := mkCountingReader r 0.

Definition counting_Read (c : countingReader R) (n : nat)
    : countingReader R * string * option error :=
  let '(r, data, err) := reader_Read (cr_reader c) n in
  (mkCountingReader r (i64_wrap (cr_bytes c + Z.of_nat (String.length data))), data, err).

Definition counting_Count (c : countingReader R) : Z := cr_bytes c.

#[export] Instance counting_Reader : Reader (countingReader R) := {|
  reader_Read := counting_Read
|}.
End Progress.

(** Reads with the given buffers until one has an error: the data and the error. *)
Fixpoint read_all {R} `{Reader R} (ns : list nat) (r : R) : R * string * option error :=
  match ns with
  | [] => (r, "", None)
  | n :: ns =>
      match reader_Read r n with
      | (r, data, Some err) => (r, data, Some err)
      | (r, data, None) =>
          let '(r, data', err) := read_all ns r in (r, data +:+ data', err)
      end
  end.

(** What [run] waits for: a tick, with the count at that time, or the cancellation. *)
Inductive monitorEvent := me_tick (count : Z) | me_done (count : Z).

(** The reports of [snapshotRestoreMonitor.run]: the bytes that were read, of which the
    logger makes a percentage of the size. *)
Fixpoint monitor_run (ranOnce : bool) (evs : list monitorEvent) : list Z :=
  match evs with
  | [] => []
  | me_tick count :: evs => count :: monitor_run true evs
  | me_done count :: _ => if ranOnce then [] else [count]
  end.

Lemma string_app_length s s' : String.length (s +:+ s') = String.length s + String.length s'.
Proof. induction s as [|c s IH]; [done|]. simpl. by rewrite IH. Qed.

(** A counting reader reads what its reader reads, and counts it. *)
Theorem countingReader_transparent {R} `{Reader R} (r : R) ns r' data err :
  read_all ns r = (r', data, err) -> in_i64 (Z.of_nat (String.length data)) ->
  exists c, read_all ns (newCountingReader r) = (c, data, err) /\ cr_reader c = r' /\
    counting_Count c = Z.of_nat (String.length data).
Proof.
  assert (forall c, read_all ns (cr_reader c) = (r', data, err) -> (0 <= cr_bytes c)%Z ->
    in_i64 (cr_bytes c + Z.of_nat (String.length data)) ->
    exists c', read_all ns c = (c', data, err) /\ cr_reader c' = r' /\
      cr_bytes c' = (cr_bytes c + Z.of_nat (String.length data))%Z) as Hgen.
  { revert data. induction ns as [|n ns IH]; intros data c HE Hc Hlt; cbn [read_all] in HE |- *.
    { injection HE as <- <- <-. exists c. split_and!; [done|done|simpl; lia]. }
    cbn [reader_Read counting_Reader]. unfold counting_Read.
    destruct (reader_Read (cr_reader c) n) as [[r1 d1] [e|]] eqn:HR.
    - injection HE as <- <- <-. eexists. split_and!; [done|done|]. simpl. by rewrite i64_wrap_small.
    - destruct (read_all ns r1) as [[r2 d2] e2] eqn:HA. injection HE as <- <- <-.
      rewrite string_app_length in Hlt.
      assert (in_i64 (cr_bytes c + Z.of_nat (String.length d1))) as H1 by (unfold in_i64 in *; lia).
      destruct (IH d2 (mkCountingReader r1 (i64_wrap (cr_bytes c + Z.of_nat (String.length d1)))))
        as (c' & -> & Hr & Hb).
      + done.
      + simpl. rewrite i64_wrap_small by done. lia.
      + simpl. rewrite i64_wrap_small by done. unfold in_i64 in *. lia.
      + eexists. split_and!; [done|done|]. simpl in Hb. rewrite i64_wrap_small in Hb by done.
        rewrite string_app_length. lia. }
  intros HE Hlt. destruct (Hgen (newCountingReader r)) as (c & HA & Hr & Hb); [done|done|done|].
  exists c. by split_and!.
Qed.

(** The monitor reports at least once before it ends, and once per tick. *)
Lemma monitor_reports ticks count rest :
  monitor_run false ((me_tick <$> ticks) ++ me_done count :: rest) =
  match ticks with [] => [count] | _ => ticks end.
Proof.
  assert (forall ticks, monitor_run true ((me_tick <$> ticks) ++ me_done count :: rest) = ticks)
    as Ht.
  { induction ticks0 as [|t ts IH]; [done|]. cbn. by rewrite IH. }
  destruct ticks as [|t ts]; [done|]. cbn. by rewrite Ht.
Qed.
