(* ===== verification/Queries.v ===== *)
(** * The calls of [api.go] that ask a server, and [oldestLog] of [log.go]

    The values that a server reports about itself, its statistics as the strings that
    [Stats] makes of them, reading the configuration of a cluster from its stores, and
    shutting a server down. *)
From Stdlib Require Import Ascii.
From S2P Require Import Prelude Types Util Codec Configuration Config Stores State Elections AppendEntries SnapshotStores Snapshot Fsm Replication Leader Api Cluster Startup Futures.

(** ** Durations as text *)

(** [fmtFrac] of Go's [time]: [prec] decimals of [v] before [acc], without zeros at the
    end; what is left of [v]. *)
Fixpoint fmtFrac (prec : nat) (v : N) (print : bool) (acc : string) : N * string :=
  match prec with
  | O => (v, if print then "." +:+ acc else acc)
  | S prec =>
      let digit := (v `mod` 10)%N in
      let print := print || bool_decide (digit <> 0)%N in
      fmtFrac prec (v `div` 10) print (if print then pretty digit +:+ acc else acc)
  end.

(** The micro sign is two bytes of UTF-8. *)
Definition micro : string := String (ascii_of_N 194) (String (ascii_of_N 181) "").

Definition fmt_unit (prec : nat) (u : N) (unit : string) : string :=
  let '(u, s) := fmtFrac prec u false unit in pretty u +:+ s.

(** [Duration.String] *)
Definition Duration_String (d : Z) : string :=
  let u := Z.to_N (Z.abs d) in
  let s :=
    if decide (u < 1000000000)%N then
      if decide (u = 0)%N then "0s"
      else if decide (u < 1000)%N then fmt_unit 0 u "ns"
      else if decide (u < 1000000)%N then fmt_unit 3 u (micro +:+ "s")
      else fmt_unit 6 u "ms"
    else
      let '(u, s) := fmtFrac 9 u false "s" in
      let s := pretty (u `mod` 60)%N +:+ s in
      let u := (u `div` 60)%N in
      if decide (0 < u)%N then
        let s := pretty (u `mod` 60)%N +:+ "m" +:+ s in
        let u := (u `div` 60)%N in
        if decide (0 < u)%N then pretty u +:+ "h" +:+ s else s
      else s in
  if decide (d < 0)%Z then "-" +:+ s else s.

(** Go's [%+v] of a list of servers. *)
Definition Server_fmt_plus (s : Server) : string :=
  "{Suffrage:" +:+ ServerSuffrage_String (Suffrage s) +:+ " ID:" +:+ ID s +:+ " Address:" +:+
  Address s +:+ "}".

Definition Servers_fmt_plus (l : list Server) : string :=
  "[" +:+ String.concat " " (Server_fmt_plus <$> l) +:+ "]".

(** ** What a server reports *)

Section Queries.
Context {L K SN : Type}.
Abbreviation raft := (Raft L K SN).
Implicit Types r : raft.

Definition api_Leader r : ServerAddress := leaderAddr r.
Definition api_LeaderWithID r : ServerAddress * ServerID := (leaderAddr r, leaderID r).
Definition api_State r : RaftState := state (raft_state r).
Definition api_String r : string :=
  "Node at " +:+ localAddr r +:+ " [" +:+ RaftState_String (state (raft_state r)) +:+ "]".
Definition api_LastContact r : Z := lastContact r.
Definition api_CurrentTerm r : N := currentTerm (raft_state r).
Definition api_LastIndex r : N := getLastIndex (raft_state r).
Definition api_CommitIndex r : N := commitIndex (raft_state r).
Definition api_AppliedIndex r : N := lastApplied (raft_state r).
Definition api_ReloadableConfig r : ReloadableConfig := ReloadableConfig_fromConfig (conf r).

(** The last field of [Stats]; a zero time is 0. *)
Definition stats_last_contact (now : Z) r : string :=
  if decide (state (raft_state r) = Leader) then "0"
  else if decide (lastContact r = 0)%Z then "never"
  else Duration_String (now - lastContact r).

(** [toString(uint64(v))] of an [int] that is not negative. *)
Definition int_toString (v : Z) : string := pretty (Z.to_N v).

Definition Stats (now : Z) r : gmap string string :=
  let '(lastLogIndex, lastLogTerm) := getLastLog (raft_state r) in
  let '(lastSnapIndex, lastSnapTerm) := getLastSnapshot (raft_state r) in
  let s : gmap string string := list_to_map
    [("state", RaftState_String (state (raft_state r)));
     ("term", pretty (currentTerm (raft_state r)));
     ("last_log_index", pretty lastLogIndex);
     ("last_log_term", pretty lastLogTerm);
     ("commit_index", pretty (commitIndex (raft_state r)));
     ("applied_index", pretty (lastApplied (raft_state r)));
     ("fsm_pending", pretty (N.of_nat (length (fsmMutateCh r))));
     ("last_snapshot_index", pretty lastSnapIndex);
     ("last_snapshot_term", pretty lastSnapTerm);
     ("protocol_version", int_toString (protocolVersion r));
     ("protocol_version_min", int_toString ProtocolVersionMin);
     ("protocol_version_max", int_toString ProtocolVersionMax);
     ("snapshot_version_min", int_toString SnapshotVersionMin);
     ("snapshot_version_max", int_toString SnapshotVersionMax)] in
  let s :=
    match GetConfiguration r with
    | Does future =>
        <["num_peers" := pretty (stats_num_peers r)]>
          (<["latest_configuration" := Servers_fmt_plus (Servers (future_Configuration future))]>
            (<["latest_configuration_index" := pretty (future_Index future)]> s))
    | _ => s
    end in
  <["last_contact" := stats_last_contact now r]> s.
End Queries.

(** ** Reading the configuration from stores *)

Definition set_skipStartup (c : Config) : Config :=
  mkConfig (ProtocolVersion c) (HeartbeatTimeout c) (ElectionTimeout c) (CommitTimeout c)
    (MaxAppendEntries c) (BatchApplyCh c) (ShutdownOnRemove c) (TrailingLogs c)
    (SnapshotInterval c) (SnapshotThreshold c) (LeaderLeaseTimeout c) (LocalID c) (LogLevel c)
    (NoSnapshotRestoreOnStart c) (PreVoteDisabled c) (NoLegacyTelemetry c) true.

(** Whether [NewRaft] starts the goroutines of the server that it returns. *)
Definition NewRaft_starts (cf : Config) : bool := negb (skipStartup cf).

Section Stored.
Context {L K SN F : Type} `{!LogStore L} `{!StableStore K} `{!SnapshotStore SN} `{!FSM F SN}
  `{!MsgPack} `{!PeerCodec}.
Abbreviation raft := (Raft L K SN).
Abbreviation stores := (Stores L K SN).

(** The function [GetConfiguration]: what the caller's configuration is afterwards, and
    the outcome.  The future that it waits for has its answer already. *)
Definition stored_GetConfiguration (cf : Config) (addr : ServerAddress) (supportPreVote : bool)
    (s : stores) (f : F) : Config * outcome (raft * F) (result Configuration) :=
  let cf := set_skipStartup cf in
  (cf, match NewRaft cf addr supportPreVote s f with
       | Panicked st => Panicked st
       | Done (Some err) st => Done (Err err) st
       | Done None st =>
           match GetConfiguration st.1 with
           | Does future =>
               match de_errCh (cf_deferError future) ≫= ec_buffer with
               | Some (Some err) => Done (Err err) st
               | _ => Done (Ok (future_Configuration future)) st
               end
           | _ => Panicked st
           end
       end).
End Stored.

(** ** Shutting down *)

Section Shutdown.
Context {L K SN : Type}.
Abbreviation raft := (Raft L K SN).

(** [Shutdown] with its future: whether the future has the server. *)
Definition api_Shutdown : M raft bool := (
  r <- get_state;;
  if shutdown r then returns false
  else modify (with_shutdown true);; setState Shutdown;; returns true)%go.

(** [shutdownFuture.Error]: the calls of the transport's [Close]. *)
Definition shutdownFuture_Error (hasRaft withClose : bool) (closes : nat) : nat :=
  if hasRaft && withClose then S closes else closes.
End Shutdown.

(** ** [oldestLog] *)

Section OldestLog.
Context {L : Type} `{LogStore L}.

(** The loop, over the store as it is at the two calls of each round; [None] is a loop
    that goes on. *)
Fixpoint oldestLog_loop (rounds : list (L * L)) (lastFailIdx : N) (lastErr : option error)
    : option (result Log) :=
  match rounds with
  | [] => None
  | (s, s') :: rounds =>
      match FirstIndex s with
      | Err err => Some (Err err)
      | Ok firstIdx =>
          if decide (firstIdx = 0)%N then Some (Err ErrLogNotFound)
          else if decide (firstIdx = lastFailIdx) then Err <$> lastErr
          else match GetLog s' firstIdx with
               | Ok l => Some (Ok l)
               | Err err => oldestLog_loop rounds firstIdx (Some err)
               end
      end
  end.

Definition oldestLog (rounds : list (L * L)) : option (result Log) := oldestLog_loop rounds 0 None.
End OldestLog.

(** ** Facts *)

Example Duration_String_examples :
  Duration_String <$> [0; 750; 1500; 2000000; 1500000000; 3723004000000; -60000000000]%Z =
  ["0s"; "750ns"; "1.5" +:+ micro +:+ "s"; "2ms"; "1.5s"; "1h2m3.004s"; "-1m0s"].
Proof. by vm_compute. Qed.

(** [fmtFrac] splits its number: what is left is the quotient. *)
Lemma fmtFrac_quotient prec v print acc :
  (fmtFrac prec v print acc).1 = (v `div` 10 ^ N.of_nat prec)%N.
Proof.
  revert v print acc. induction prec as [|prec IH]; intros v print acc; [by rewrite N.div_1_r|].
  cbn [fmtFrac]. cbv zeta. rewrite IH, N.Div0.div_div, Nat2N.inj_succ, N.pow_succ_r'. done.
Qed.

Section StatsFacts.
Context {L K SN : Type}.
Implicit Types r : Raft L K SN.

Lemma GetConfiguration_Does r :
  GetConfiguration r = Does (mkConfigurationsFuture
    (mkDeferError None (Some (mkErrChan (Some None) true)) true None)
    (mkConfigurations zero_configuration 0 (getLatestConfiguration r) 0)).
Proof. reflexivity. Qed.

(** The keys of the statistics are the same for every server. *)
Lemma Stats_keys now r :
  dom (Stats now r) = list_to_set
    ["state"; "term"; "last_log_index"; "last_log_term"; "commit_index"; "applied_index";
     "fsm_pending"; "last_snapshot_index"; "last_snapshot_term"; "protocol_version";
     "protocol_version_min"; "protocol_version_max"; "snapshot_version_min";
     "snapshot_version_max"; "latest_configuration_index"; "latest_configuration";
     "num_peers"; "last_contact"].
Proof.
  unfold Stats. rewrite GetConfiguration_Does. destruct (getLastLog _), (getLastSnapshot _). rewrite !dom_insert_L, dom_list_to_map_L. vm_compute. reflexivity.
Qed.

(** The indexes and terms in the statistics are those of the server, and so is the
    configuration; its index is always 0. *)
Lemma Stats_values now r :
  Stats now r !! "state" = Some (RaftState_String (api_State r)) /\
  Stats now r !! "term" = Some (pretty (api_CurrentTerm r)) /\
  Stats now r !! "commit_index" = Some (pretty (api_CommitIndex r)) /\
  Stats now r !! "applied_index" = Some (pretty (api_AppliedIndex r)) /\
  Stats now r !! "num_peers" = Some (pretty (stats_num_peers r)) /\
  Stats now r !! "latest_configuration" =
    Some (Servers_fmt_plus (Servers (getLatestConfiguration r))) /\
  Stats now r !! "latest_configuration_index" = Some "0" /\
  Stats now r !! "last_contact" = Some (stats_last_contact now r).
Proof.
  unfold Stats. rewrite GetConfiguration_Does. destruct (getLastLog _), (getLastSnapshot _). split_and!; by simplify_map_eq.
Qed.
End StatsFacts.

Section StoredFacts.
Context {L K SN F : Type} `{!LogStore L} `{!LogStoreLaws L} `{!FirstEntryLaw L}
  `{!StableStore K} `{!StableStoreLaws K} `{!SnapshotStore SN} `{!FSM F SN}
  `{!MsgPack} `{!MsgPackLaws} `{!PeerCodec}.

(** Reading the configuration of a bootstrapped cluster from the stores of a server gives
    the configuration it was bootstrapped with.  But the caller's own configuration is
    changed: the server that [NewRaft] returns for it afterwards is never started. *)
Theorem stored_GetConfiguration_bootstrapped cf c addr pv (s s' : Stores L K SN) k (f : F) :
  BootstrapCluster cf c s = Done None s' -> (3 <= ProtocolVersion cf)%Z ->
  store_ok (st_logs s) -> SetUint64 (st_stable s') keyCurrentTerm 1 = (k, None) ->
  exists cf' st, stored_GetConfiguration cf addr pv s' f = (cf', Done (Ok c) st) /\ st.2 = f /\
    st_logs s' = logs st.1 /\ ValidateConfig cf' = None /\ NewRaft_starts cf' = false.
Proof.
  intros HB Hv Hok Hk.
  destruct (BootstrapCluster_Done _ _ _ _ HB Hv Hok) as (HV & _ & HH & Hb & _ & _).
  assert (ValidateConfig (set_skipStartup cf) = None) as HV' by (by rewrite <- HV).
  eexists _, _. unfold stored_GetConfiguration.
  rewrite (NewRaft_bootstrapped (set_skipStartup cf) addr pv c s' k f HV' Hv Hb Hk).
  by split_and!.
Qed.
End StoredFacts.

Section ShutdownFacts.
Context {L K SN : Type}.

(** Shutting a server down again changes nothing; one future only has the server, so that
    waiting for all of the futures closes the transport once. *)
Lemma api_Shutdown_once (r : Raft L K SN) :
  shutdown r = false ->
  exists r', api_Shutdown r = Done true r' /\ shutdown r' = true /\
    state (raft_state r') = Shutdown /\ api_Shutdown r' = Done false r' /\
    foldr (fun hasRaft => shutdownFuture_Error hasRaft true) 0 [true; false; false] = 1.
Proof.
  intros Hr. unfold api_Shutdown, bind, get_state, modify. rewrite Hr, setState_eq.
  eexists. by split_and!.
Qed.
End ShutdownFacts.

Section OldestLogFacts.
Context {L : Type} `{LogStore L}.

(** On a store that nobody changes two rounds are enough. *)
Lemma oldestLog_fixed s :
  oldestLog [(s, s); (s, s)] = Some
    (match FirstIndex s with
     | Err err => Err err
     | Ok firstIdx => if decide (firstIdx = 0)%N then Err ErrLogNotFound else GetLog s firstIdx
     end).
Proof.
  unfold oldestLog. cbn [oldestLog_loop]. destruct (FirstIndex s) as [i|]; [|done].
  destruct (decide (i = 0)%N) as [->|Hi]; [done|].
  destruct (GetLog s i); [done|].
  by rewrite decide_True.
Qed.

(** The loop goes on only while the first index moves: each round has found another
    first index than the one before, whose entry was gone. *)
Lemma oldestLog_goes_on rounds i err :
  i <> 0%N -> oldestLog_loop rounds i (Some err) = None ->
  exists idxs, mapM (fun p => match FirstIndex p.1 with Ok i => Some i | Err _ => None end) rounds = Some idxs /\
    forall k a b, (i :: idxs) !! k = Some a -> (i :: idxs) !! S k = Some b -> a <> b.
Proof.
  revert i err. induction rounds as [|[s s'] rounds IH]; intros i err Hi HL.
  - exists []. split; [done|]. intros [|k] a b; simpl; [done|]. by rewrite lookup_nil.
  - cbn [oldestLog_loop] in HL. destruct (FirstIndex s) as [j|] eqn:HF; [|done].
    destruct (decide (j = 0)%N); [done|]. destruct (decide (j = i)) as [->|Hne]; [done|].
    destruct (GetLog s' j) as [|e]; [done|]. destruct (IH j e) as (idxs & HM & Hs); [done|done|].
    exists (j :: idxs). split; [cbn; by rewrite HF, HM|].
    intros [|k] a b Ha Hb; [|by eapply Hs]. simpl in Ha, Hb. by simplify_eq.
Qed.
End OldestLogFacts.
