(* ===== verification/Tcp.v ===== *)
(** * Creating a transport over TCP, and its listener

    [tcp_transport.go] with the constructors of [net_transport.go], and the goroutine
    [listen] with the handlers of the connections that it accepts: [CloseStreams] ends
    them through a context that they share. *)
From stdpp Require Import relations.
From S2P Require Import Prelude Types Util Codec Configuration Config Stores State Elections AppendEntries SnapshotStores Snapshot Replication Server Fmt Pipeline NetTransport.

(** ** Addresses *)

(** The bytes of a [net.IP]. *)
Definition IP := list N.

Definition v4InV6Prefix : IP := [0; 0; 0; 0; 0; 0; 0; 0; 0; 0; 255; 255]%N.
Definition IPv4zero : IP := v4InV6Prefix ++ [0; 0; 0; 0]%N.
Definition IPv6unspecified : IP := replicate 16 0%N.

(** [IP.Equal]: an IPv4 address and the same address in IPv6 form are equal. *)
Definition IP_Equal (ip x : IP) : bool :=
  if decide (length ip = length x) then bool_decide (ip = x)
  else if decide (length ip = 4 /\ length x = 16)%nat
  then bool_decide (take 12 x = v4InV6Prefix /\ ip = drop 12 x)
  else if decide (length ip = 16 /\ length x = 4)%nat
  then bool_decide (take 12 ip = v4InV6Prefix /\ drop 12 ip = x)
  else false.

Definition IsUnspecified (ip : IP) : bool := IP_Equal ip IPv4zero || IP_Equal ip IPv6unspecified.

(** [None] is the nil slice. *)
Record TCPAddr := mkTCPAddr {
  ta_IP : option IP;
  ta_Port : Z
}.

(** A [net.Addr] that is not nil: a [*net.TCPAddr], which can be a nil pointer, or
    something else. *)
Inductive NetAddr :=
  | addr_TCP (a : option TCPAddr)
  | addr_other (s : string).

(** ** [tcp_transport.go] *)

Record TCPStreamLayer := mkTCPStreamLayer {
  tl_advertise : option NetAddr;
  tl_listener : TCPAddr
}.

Definition tcp_Addr (t : TCPStreamLayer) : NetAddr :=
  match tl_advertise t with
  | Some a => a
  | None => addr_TCP (Some (tl_listener t))
  end.

Definition errNotAdvertisable : error := Errorf "local bind address is not advertisable".
Definition errNotTCP : error := Errorf "local address is not a TCP address".

(** What a call leaves: its result, [None] when it panics, and whether the listener is
    open, [None] when there is none. *)
Record tcpOutcome (T : Type) := mkTcpOutcome {
  to_result : option (result T);
  to_listener : option bool
}.
Arguments mkTcpOutcome {T} _ _.
Arguments to_result {T} _.
Arguments to_listener {T} _.

Section NewTCPTransport.
Context {T : Type} (transportCreator : TCPStreamLayer -> T).

(** [list] is the outcome of [net.Listen]: the address that it is bound to. *)
Definition newTCPTransport (list : result TCPAddr) (advertise : option NetAddr) : tcpOutcome T :=
  match list with
  | Err err => mkTcpOutcome (Some (Err err)) None
  | Ok listener =>
      let stream := mkTCPStreamLayer advertise listener in
      match tcp_Addr stream with
      | addr_other _ => mkTcpOutcome (Some (Err errNotTCP)) (Some false)
      | addr_TCP None => mkTcpOutcome None (Some true)
      | addr_TCP (Some addr) =>
          let unusable := match ta_IP addr with None => true | Some ip => IsUnspecified ip end in
          if unusable then mkTcpOutcome (Some (Err errNotAdvertisable)) (Some false)
          else mkTcpOutcome (Some (Ok (transportCreator stream))) (Some true)
      end
  end.
End NewTCPTransport.

(** ** Constructors of [net_transport.go] *)

(** The loggers are left out. *)
Record NetworkTransportConfig (S : Type) := mkNetworkTransportConfig {
  ntc_ServerAddressProvider : option (ServerID -> result ServerAddress);
  ntc_Stream : S;
  ntc_MaxPool : Z;
  ntc_MaxRPCsInFlight : nat;
  ntc_Timeout : Z;
  ntc_MsgpackUseNewTimeFormat : bool
}.
Arguments mkNetworkTransportConfig {S} _ _ _ _ _ _.
Arguments ntc_ServerAddressProvider {S} _.
Arguments ntc_Stream {S} _.
Arguments ntc_MaxPool {S} _.
Arguments ntc_MaxRPCsInFlight {S} _.
Arguments ntc_Timeout {S} _.
Arguments ntc_MsgpackUseNewTimeFormat {S} _.

(** The fields that do not change; the pool is in [net] and the contexts below. *)
Record NetworkTransport (S : Type) := mkNetworkTransport {
  nt_maxPool : Z;
  nt_maxInFlight : nat;
  nt_stream : S;
  nt_timeout : Z;
  nt_TimeoutScale : Z;
  nt_serverAddressProvider : option (ServerID -> result ServerAddress);
  nt_msgpackUseNewTimeFormat : bool
}.
Arguments mkNetworkTransport {S} _ _ _ _ _ _ _.
Arguments nt_maxInFlight {S} _.
Arguments nt_stream {S} _.

Definition DefaultTimeoutScale : Z := 256 * 1024.

Section Constructors.
Context {S : Type}.

Definition NewNetworkTransportWithConfig (config : NetworkTransportConfig S) : NetworkTransport S :=
  mkNetworkTransport (ntc_MaxPool config) (maxInFlight (ntc_MaxRPCsInFlight config))
    (ntc_Stream config) (ntc_Timeout config) DefaultTimeoutScale
    (ntc_ServerAddressProvider config) (ntc_MsgpackUseNewTimeFormat config).

(** [NewNetworkTransport] and [NewNetworkTransportWithLogger] *)
Definition NewNetworkTransport (stream : S) (maxPool timeout : Z) : NetworkTransport S :=
  NewNetworkTransportWithConfig (mkNetworkTransportConfig None stream maxPool 0 timeout false).
End Constructors.

(** [NewTCPTransport] and [NewTCPTransportWithLogger] *)
Definition NewTCPTransport (list : result TCPAddr) (advertise : option NetAddr)
    (maxPool timeout : Z) : tcpOutcome (NetworkTransport TCPStreamLayer) :=
  newTCPTransport (fun stream => NewNetworkTransport stream maxPool timeout) list advertise.

Definition NewTCPTransportWithConfig {S} (list : result TCPAddr) (advertise : option NetAddr)
    (config : NetworkTransportConfig S) : tcpOutcome (NetworkTransport TCPStreamLayer) :=
  newTCPTransport (fun stream => NewNetworkTransportWithConfig
    (mkNetworkTransportConfig (ntc_ServerAddressProvider config) stream (ntc_MaxPool config)
       (ntc_MaxRPCsInFlight config) (ntc_Timeout config) (ntc_MsgpackUseNewTimeFormat config)))
    list advertise.

(** ** The listener *)

(** Where [listen] is: at [Accept], with a connection whose handler is not started, in
    the delay after an error, or returned. *)
Inductive listenPhase := lp_accept | lp_accepted | lp_delay | lp_returned.

(** A goroutine [handleConn]: its context, whether it is at the check of the context, in
    [handleCommand], where it waits for the next command, or over, and how many commands
    it has handled. *)
Inductive handlerPhase := hp_between | hp_command | hp_over.

Record connHandler := mkHandler {
  hd_ctx : nat;
  hd_phase : handlerPhase;
  hd_commands : nat
}.

(** Contexts are numbered as they are made; [lt_ctx] is [n.streamCtx]. *)
Record listening := mkListening {
  lt_ctx : nat;
  lt_cancelled : gset nat;
  lt_phase : listenPhase;
  lt_loopDelay : Z;
  lt_handlers : list connHandler;
  lt_shutdown : bool
}.

(** A new transport, after [setupStreamContext]. *)
Definition new_listening : listening := mkListening 0 ∅ lp_accept 0 [] false.

Definition setupStreamContext (s : listening) : listening :=
  mkListening (S (lt_ctx s)) (lt_cancelled s) (lt_phase s) (lt_loopDelay s) (lt_handlers s)
    (lt_shutdown s).

Definition streamCancel (s : listening) : listening :=
  mkListening (lt_ctx s) ({[lt_ctx s]} ∪ lt_cancelled s) (lt_phase s) (lt_loopDelay s)
    (lt_handlers s) (lt_shutdown s).

Definition getStreamContext (s : listening) : nat := lt_ctx s.

(** [CloseStreams], on the listening end. *)
Definition close_contexts (s : listening) : listening := setupStreamContext (streamCancel s).

(** [Close]: it also closes the stream, after which [Accept] fails. *)
Definition close_listening (s : listening) : listening :=
  mkListening (lt_ctx s) (lt_cancelled s) (lt_phase s) (lt_loopDelay s) (lt_handlers s) true.

Definition with_phase (p : listenPhase) (delay : Z) (s : listening) : listening :=
  mkListening (lt_ctx s) (lt_cancelled s) p delay (lt_handlers s) (lt_shutdown s).

Definition with_handlers (hs : list connHandler) (s : listening) : listening :=
  mkListening (lt_ctx s) (lt_cancelled s) (lt_phase s) (lt_loopDelay s) hs (lt_shutdown s).

(** What a handler does next: [connCtx.Done()] ends it, otherwise it waits for a command;
    it handles the command, or meets an error, which ends it. *)
Inductive handler_step (cancelled : gset nat) : connHandler -> connHandler -> Prop :=
  | hs_done c n :
      c ∈ cancelled ->
      handler_step cancelled (mkHandler c hp_between n) (mkHandler c hp_over n)
  | hs_begin c n :
      c ∉ cancelled ->
      handler_step cancelled (mkHandler c hp_between n) (mkHandler c hp_command n)
  | hs_handled c n :
      handler_step cancelled (mkHandler c hp_command n) (mkHandler c hp_between (S n))
  | hs_error c n :
      handler_step cancelled (mkHandler c hp_command n) (mkHandler c hp_over n).

Inductive listen_step : listening -> listening -> Prop :=
  | ls_accept s :
      lt_phase s = lp_accept -> listen_step s (with_phase lp_accepted 0 s)
  | ls_accept_error s :
      lt_phase s = lp_accept ->
      listen_step s (with_phase lp_delay (listen_delay (lt_loopDelay s)) s)
  | ls_delay s :
      lt_phase s = lp_delay -> listen_step s (with_phase lp_accept (lt_loopDelay s) s)
  | ls_return s :
      lt_phase s = lp_delay -> lt_shutdown s = true ->
      listen_step s (with_phase lp_returned (lt_loopDelay s) s)
  | ls_handle s :
      lt_phase s = lp_accepted ->
      listen_step s (with_phase lp_accept (lt_loopDelay s)
        (with_handlers (lt_handlers s ++ [mkHandler (getStreamContext s) hp_between 0]) s))
  | ls_handler k h h' s :
      lt_handlers s !! k = Some h -> handler_step (lt_cancelled s) h h' ->
      listen_step s (with_handlers (<[k := h']> (lt_handlers s)) s)
  | ls_CloseStreams s : listen_step s (close_contexts s)
  | ls_Close s : listen_step s (close_listening s).

(** ** Facts: creating a transport *)

(** Addresses that other servers can be given. *)
Definition usable (a : NetAddr) : bool :=
  match a with
  | addr_TCP (Some (mkTCPAddr (Some ip) _)) => negb (IsUnspecified ip)
  | _ => false
  end.

(** The unspecified addresses are 0.0.0.0, in either form, and ::. *)
Lemma IsUnspecified_spec ip :
  IsUnspecified ip = true <-> ip = [0; 0; 0; 0]%N \/ ip = IPv4zero \/ ip = IPv6unspecified.
Proof.
  split; [|by intros [->|[->| ->]]; vm_compute].
  unfold IsUnspecified, IP_Equal. intros [HE|HE]%orb_true_iff.
  - change (length IPv4zero) with 16%nat in HE. case_decide; [apply bool_decide_eq_true in HE; auto|].
    case_decide as Hd; [apply bool_decide_eq_true in HE as [_ ->]; by left|].
    case_decide as Hd2; [lia|done].
  - change (length IPv6unspecified) with 16%nat in HE.
    case_decide; [apply bool_decide_eq_true in HE; auto|].
    case_decide as Hd; [apply bool_decide_eq_true in HE as [HE _]; by vm_compute in HE|].
    case_decide as Hd2; [lia|done].
Qed.

#[local] Ltac tcp_cases :=
  split_and!;
  [ intros t; split;
    [ intros Ht; first
        [ discriminate Ht
        | injection Ht as <-; eexists; split; [reflexivity|]; split; [reflexivity|]; simpl;
          first [done|match goal with HI : IsUnspecified _ = _ |- _ => by rewrite HI end] ]
    | intros (l' & Hl & -> & Hu); first [discriminate Hl|injection Hl as <-; simpl in Hu];
      first [done|match goal with HI : IsUnspecified _ = _ |- _ => by rewrite HI in Hu end] ]
  | by intros t Ht
  | by intros e' He
  | split; [first [by intros Hn|intros _; split; [by eexists|done]]|by intros [[l' Hl] Ha]] ].

(** A transport over TCP is created exactly when the listener could be bound and the
    address that is advertised, which is the bound one by default, is a TCP address with
    a specified IP; the transport then has the open listener.  An error leaves no
    listener open.  An advertised address that is a nil pointer makes the call panic,
    with the listener open. *)
Theorem newTCPTransport_spec {T} (create : TCPStreamLayer -> T) list advertise :
  let o := newTCPTransport create list advertise in
  (forall t, to_result o = Some (Ok t) <-> exists l, list = Ok l /\
     t = create (mkTCPStreamLayer advertise l) /\
     usable (tcp_Addr (mkTCPStreamLayer advertise l)) = true) /\
  (forall t, to_result o = Some (Ok t) -> to_listener o = Some true) /\
  (forall e, to_result o = Some (Err e) -> to_listener o <> Some true) /\
  (to_result o = None <-> (exists l, list = Ok l) /\ advertise = Some (addr_TCP None)).
Proof.
  unfold newTCPTransport, tcp_Addr. cbv zeta.
  destruct list as [l|e]; cbn [tl_advertise tl_listener].
  - destruct advertise as [[[[[ip|] port]|]|other]|]; [| | | |destruct l as [[ip|] port]];
      cbn [ta_IP usable to_result to_listener]; try destruct (IsUnspecified ip) eqn:HI;
      simpl; rewrite ?HI; tcp_cases.
  - simpl. tcp_cases.
Qed.

(** ** Facts: the listener *)

Definition hd_done (h : connHandler) : nat :=
  hd_commands h + match hd_phase h with hp_command => 1 | _ => 0 end.

(** A handler whose context is cancelled handles no more than the command that it waits
    for. *)
Lemma handler_step_cancelled cancelled h h' :
  handler_step cancelled h h' -> hd_ctx h' = hd_ctx h /\ (hd_commands h <= hd_commands h')%nat /\
  (hd_ctx h ∈ cancelled -> (hd_done h' <= hd_done h)%nat).
Proof. destruct 1; unfold hd_done; simpl; split_and!; try done; lia. Qed.

Record listening_ok (s : listening) : Prop := {
  lo_current : lt_ctx s ∉ lt_cancelled s;
  lo_past c : (c < lt_ctx s)%nat -> c ∈ lt_cancelled s;
  lo_handlers h : h ∈ lt_handlers s -> (hd_ctx h <= lt_ctx s)%nat;
  lo_delay : (0 <= lt_loopDelay s <= Second)%Z;
  lo_future c : (lt_ctx s < c)%nat -> c ∉ lt_cancelled s
}.

Lemma listen_delay_bounds d : (0 <= d <= Second)%Z ->
  (5 * Millisecond <= listen_delay d <= Second)%Z \/ (0 < d < 3 * Millisecond)%Z.
Proof.
  unfold listen_delay, Second, Millisecond. intros Hd. cbv zeta. repeat case_decide; lia.
Qed.

Lemma listen_step_ok s s' : listening_ok s -> listen_step s s' -> listening_ok s'.
Proof.
  intros [Hc Hp Hh Hd Hf] Hs.
  assert (0 <= listen_delay (lt_loopDelay s) <= Second)%Z as Hd'.
  { unfold listen_delay, Second, Millisecond in *. cbv zeta. repeat case_decide; lia. }
  destruct Hs as [s|s|s|s|s|k h h' s Hk Hstep|s|s]; try (split; simpl; done || lia).
  - split; simpl; try done. intros h [Hin|Hin]%elem_of_app; [auto|].
    apply list_elem_of_singleton in Hin as ->. simpl. unfold getStreamContext. lia.
  - split; simpl; try done. intros h2 Hin. apply list_elem_of_lookup_1 in Hin as [j Hj].
    apply list_lookup_insert_Some in Hj as [(<- & <- & _)|[_ Hj]].
    + apply handler_step_cancelled in Hstep as [-> _]. apply Hh. by eapply list_elem_of_lookup_2.
    + apply Hh. by eapply list_elem_of_lookup_2.
  - split; simpl; try done.
    + assert (S (lt_ctx s) ∉ lt_cancelled s) by (apply Hf; lia). set_solver by lia.
    + intros c Hlt. destruct (decide (c = lt_ctx s)) as [->|Hne]; [set_solver|].
      apply elem_of_union. right. apply Hp. lia.
    + intros h Hin. apply Hh in Hin. lia.
    + intros c Hlt. assert (c ∉ lt_cancelled s) by (apply Hf; lia). set_solver by lia.
Qed.

Lemma listening_reachable_ok s : rtc listen_step new_listening s -> listening_ok s.
Proof.
  revert s. apply rtc_ind_r.
  - split; simpl; try done; try lia; set_solver.
  - intros s s' _ Hs IH. by eapply listen_step_ok.
Qed.

Lemma listen_step_handler s s' k h :
  listen_step s s' -> lt_handlers s !! k = Some h ->
  lt_cancelled s ⊆ lt_cancelled s' /\
  exists h', lt_handlers s' !! k = Some h' /\ hd_ctx h' = hd_ctx h /\
    (hd_ctx h ∈ lt_cancelled s -> (hd_done h' <= hd_done h)%nat).
Proof.
  intros Hs Hk. destruct Hs as [s|s|s|s|s|j g g' s Hj Hstep|s|s]; simpl;
    (split; [set_solver|]); try (by exists h).
  - exists h. split; [|done]. by apply lookup_app_l_Some.
  - apply handler_step_cancelled in Hstep as (Hctx & _ & Hle).
    destruct (decide (j = k)) as [->|Hne].
    + simplify_eq. exists g'. split; [|done]. apply list_lookup_insert_eq. by eapply lookup_lt_Some.
    + exists h. by rewrite list_lookup_insert_ne.
Qed.

(** Closing the streams.  Every handler has a context that is cancelled already or that
    the next [CloseStreams] cancels, and a context that was cancelled is not in use for
    new connections; so after a [CloseStreams], whatever happens next, the handlers of
    the connections that were there handle at most the one command for which they are
    waiting. *)
Theorem CloseStreams_ends_handlers s s' :
  rtc listen_step new_listening s -> rtc listen_step (close_contexts s) s' ->
  lt_ctx s ∉ lt_cancelled s /\
  forall k h, lt_handlers s !! k = Some h -> hd_ctx h ∈ lt_cancelled (close_contexts s) /\
    exists h', lt_handlers s' !! k = Some h' /\ hd_ctx h' = hd_ctx h /\
      (hd_commands h' <= hd_commands h + 1)%nat.
Proof.
  intros [Hc Hp Hh _ _]%listening_reachable_ok Hs. split; [done|]. intros k h Hk.
  assert (hd_ctx h ∈ lt_cancelled (close_contexts s)) as Hin.
  { assert (hd_ctx h <= lt_ctx s)%nat as Hle by (apply Hh; by eapply list_elem_of_lookup_2).
    simpl. destruct (decide (hd_ctx h = lt_ctx s)) as [->|Hne]; [set_solver|].
    apply elem_of_union. right. apply Hp. lia. }
  split; [done|].
  assert (hd_ctx h ∈ lt_cancelled s' /\ exists h', lt_handlers s' !! k = Some h' /\
    hd_ctx h' = hd_ctx h /\ (hd_done h' <= hd_done h)%nat) as (_ & h' & Hk' & Hctx & Hle).
  { revert s' Hs. apply rtc_ind_r; [split; [done|]; by exists h|].
    intros s1 s2 _ Hstep (Hin1 & h1 & Hk1 & Hc1 & Hle1).
    destruct (listen_step_handler _ _ _ _ Hstep Hk1) as (Hsub & h2 & Hk2 & Hc2 & Hle2).
    rewrite Hc1 in Hc2, Hle2. specialize (Hle2 Hin1). split; [by apply Hsub|].
    exists h2. split_and!; [done|done|lia]. }
  exists h'. split_and!; [done|done|]. unfold hd_done in Hle. repeat case_match; lia.
Qed.

(** A handler that waits for a command does handle it, though its context is cancelled. *)
Lemma CloseStreams_one_more :
  exists s s', rtc listen_step new_listening s /\ rtc listen_step (close_contexts s) s' /\
    hd_commands <$> lt_handlers s = [0%nat] /\ hd_commands <$> lt_handlers s' = [1%nat] /\
    hd_phase <$> lt_handlers s' = [hp_over].
Proof.
  exists (mkListening 0 ∅ lp_accept 0 [mkHandler 0 hp_command 0] false).
  exists (mkListening 1 {[0%nat]} lp_accept 0 [mkHandler 0 hp_over 1] false).
  split_and!; try done.
  - eapply rtc_l; [by apply ls_accept|]. eapply rtc_l; [by apply ls_handle|].
    eapply rtc_l; [|apply rtc_refl].
    apply (ls_handler 0 (mkHandler 0 hp_between 0) (mkHandler 0 hp_command 0)
      (mkListening 0 ∅ lp_accept 0 [mkHandler 0 hp_between 0] false)); [reflexivity|].
    apply hs_begin. set_solver.
  - change (close_contexts _) with
      (mkListening 1 ({[0%nat]} ∪ ∅) lp_accept 0 [mkHandler 0 hp_command 0] false).
    rewrite (right_id_L ∅ (∪)).
    eapply rtc_l; [eapply (ls_handler 0); [reflexivity|apply hs_handled]|].
    eapply rtc_l; [eapply (ls_handler 0); [reflexivity|apply hs_done; set_solver]|].
    apply rtc_refl.
Qed.
