(* ===== verification/InmemPipeline.v ===== *)
(** * Pipelines of the in-memory transport, [inmemPipeline] of [inmem_transport.go]

    The caller of [AppendEntries], the server that takes commands from the channel of
    its transport, the goroutine [decodeResponses] and the reader of [Consumer()] run
    concurrently; a step below is one operation of one of them.  Futures are numbered
    in the order in which their requests went into the channel of the peer. *)
From stdpp Require Import relations.
From S2P Require Import Prelude Types Util Codec Configuration Config Stores State Elections AppendEntries SnapshotStores Snapshot Replication Server Cluster Pipeline InmemTransport.

(** ** Definitions *)

Definition rpcAnswer : Type := option Reply * option error.
Definition futureResult : Type := option AppendEntriesResponse * option error.

(** Where a call of [AppendEntries] is: at the select that offers the request to the
    peer, or at the one that hands its future to [decodeResponses]. *)
Inductive flowCaller :=
  | fc_out
  | fc_offer (req : AppendEntriesRequest)
  | fc_track (future : nat).

(** Where [decodeResponses] is: at its outer select, waiting for an answer, at the send
    to [doneCh], returned, or panicked at the type assertion. *)
Inductive flowDecoder :=
  | fd_select
  | fd_wait (future : nat)
  | fd_put (future : nat) (res : futureResult)
  | fd_returned
  | fd_panicked.

(** [fl_consumerCh] is what the channel of the peer holds of this pipeline, [fl_answers]
    what is, or was, in the response channels, [fl_returns] what the calls of
    [AppendEntries] returned. *)
Record inmemFlow := mkFlow {
  fl_sent : list AppendEntriesRequest;
  fl_caller : flowCaller;
  fl_returns : list (result nat);
  fl_consumerCh : list nat;
  fl_taken : list nat;
  fl_answers : gmap nat rpcAnswer;
  fl_inprogressCh : list nat;
  fl_decoder : flowDecoder;
  fl_doneCh : list (nat * futureResult);
  fl_consumed : list (nat * futureResult);
  fl_shutdown : bool
}.

Definition newInmemPipeline : inmemFlow := mkFlow [] fc_out [] [] [] ∅ [] fd_select [] [] false.

(** The capacity of [consumerCh], [inprogressCh] and [doneCh]. *)
Definition flow_buffer : nat := 16.

Definition flow_timed_out : futureResult := (None, Some (Errorf "command timed out")).

Inductive actor := the_user | the_peer | the_rest.

(** [timeout] is the one of the transport; 0 is none. *)
Inductive flow_step (timeout : Z) : actor -> inmemFlow -> inmemFlow -> Prop :=
  (* AppendEntries, up to its first select *)
  | fs_call s req rt q tk an inp d dn co :
      flow_step timeout the_user (mkFlow s fc_out rt q tk an inp d dn co false)
        (mkFlow s (fc_offer req) rt q tk an inp d dn co false)
  (* AppendEntries after a Close *)
  | fs_refuse s rt q tk an inp d dn co :
      flow_step timeout the_user (mkFlow s fc_out rt q tk an inp d dn co true)
        (mkFlow s fc_out (rt ++ [Err ErrPipelineShutdown]) q tk an inp d dn co true)
  (* the first select: the command goes to the peer *)
  | fs_offer s req rt q tk an inp d dn co sh :
      (length q < flow_buffer)%nat ->
      flow_step timeout the_rest (mkFlow s (fc_offer req) rt q tk an inp d dn co sh)
        (mkFlow (s ++ [req]) (fc_track (length s)) rt (q ++ [length s]) tk an inp d dn co sh)
  (* the first select: the timer *)
  | fs_offer_timeout s req rt q tk an inp d dn co sh :
      (0 < timeout)%Z ->
      flow_step timeout the_rest (mkFlow s (fc_offer req) rt q tk an inp d dn co sh)
        (mkFlow s fc_out (rt ++ [Err (Errorf "command enqueue timeout")]) q tk an inp d dn co sh)
  (* the first select: shutdown *)
  | fs_offer_shutdown s req rt q tk an inp d dn co :
      flow_step timeout the_rest (mkFlow s (fc_offer req) rt q tk an inp d dn co true)
        (mkFlow s fc_out (rt ++ [Err ErrPipelineShutdown]) q tk an inp d dn co true)
  (* the second select: the future goes to decodeResponses *)
  | fs_track s k rt q tk an inp d dn co sh :
      (length inp < flow_buffer)%nat ->
      flow_step timeout the_rest (mkFlow s (fc_track k) rt q tk an inp d dn co sh)
        (mkFlow s fc_out (rt ++ [Ok k]) q tk an (inp ++ [k]) d dn co sh)
  (* the second select: shutdown *)
  | fs_track_shutdown s k rt q tk an inp d dn co :
      flow_step timeout the_rest (mkFlow s (fc_track k) rt q tk an inp d dn co true)
        (mkFlow s fc_out (rt ++ [Err ErrPipelineShutdown]) q tk an inp d dn co true)
  (* the peer takes a command *)
  | fs_take s c rt k q tk an inp d dn co sh :
      flow_step timeout the_peer (mkFlow s c rt (k :: q) tk an inp d dn co sh)
        (mkFlow s c rt q (tk ++ [k]) an inp d dn co sh)
  (* the peer answers a command that it took *)
  | fs_answer s c rt k a q tk an inp d dn co sh :
      k ∈ tk -> an !! k = None ->
      flow_step timeout the_peer (mkFlow s c rt q tk an inp d dn co sh)
        (mkFlow s c rt q tk (<[k := a]> an) inp d dn co sh)
  (* decodeResponses: the next future *)
  | fs_receive s c rt k q tk an inp dn co sh :
      flow_step timeout the_rest (mkFlow s c rt q tk an (k :: inp) fd_select dn co sh)
        (mkFlow s c rt q tk an inp (fd_wait k) dn co sh)
  (* decodeResponses: the answer *)
  | fs_response s c rt k a res q tk an inp dn co sh :
      an !! k = Some a -> inmem_decode (Some a) = Some res ->
      flow_step timeout the_rest (mkFlow s c rt q tk an inp (fd_wait k) dn co sh)
        (mkFlow s c rt q tk an inp (fd_put k res) dn co sh)
  (* decodeResponses: an answer without a response of the right type *)
  | fs_panic s c rt k a q tk an inp dn co sh :
      an !! k = Some a -> inmem_decode (Some a) = None ->
      flow_step timeout the_rest (mkFlow s c rt q tk an inp (fd_wait k) dn co sh)
        (mkFlow s c rt q tk an inp fd_panicked dn co sh)
  (* decodeResponses: the timer *)
  | fs_timeout s c rt k q tk an inp dn co sh :
      (0 < timeout)%Z ->
      flow_step timeout the_rest (mkFlow s c rt q tk an inp (fd_wait k) dn co sh)
        (mkFlow s c rt q tk an inp (fd_put k flow_timed_out) dn co sh)
  (* decodeResponses: the future goes to doneCh *)
  | fs_done s c rt k res q tk an inp dn co sh :
      (length dn < flow_buffer)%nat ->
      flow_step timeout the_rest (mkFlow s c rt q tk an inp (fd_put k res) dn co sh)
        (mkFlow s c rt q tk an inp fd_select (dn ++ [(k, res)]) co sh)
  (* decodeResponses: shutdown, at any of its selects *)
  | fs_return s c rt q tk an inp d dn co :
      d <> fd_panicked -> d <> fd_returned ->
      flow_step timeout the_rest (mkFlow s c rt q tk an inp d dn co true)
        (mkFlow s c rt q tk an inp fd_returned dn co true)
  (* the consumer *)
  | fs_consume s c rt y q tk an inp d dn co sh :
      flow_step timeout the_rest (mkFlow s c rt q tk an inp d (y :: dn) co sh)
        (mkFlow s c rt q tk an inp d dn (co ++ [y]) sh)
  (* Close *)
  | fs_close s c rt q tk an inp d dn co :
      flow_step timeout the_user (mkFlow s c rt q tk an inp d dn co false)
        (mkFlow s c rt q tk an inp d dn co true).

(** The histories of a pipeline. *)
Inductive flow_reachable (timeout : Z) : inmemFlow -> Prop :=
  | flow_new : flow_reachable timeout newInmemPipeline
  | flow_more x p p' :
      flow_reachable timeout p -> flow_step timeout x p p' -> flow_reachable timeout p'.

(** ** Facts *)

Definition flow_pending (p : inmemFlow) : list nat :=
  match fl_decoder p with fd_wait k => [k] | _ => [] end ++ fl_inprogressCh p ++
  match fl_caller p with fc_track k => [k] | _ => [] end.

(** The futures that have been answered, in order. *)
Definition flow_answered (p : inmemFlow) : list (nat * futureResult) :=
  fl_consumed p ++ fl_doneCh p ++ match fl_decoder p with fd_put k res => [(k, res)] | _ => [] end.

Definition flow_futures (p : inmemFlow) : list nat := (flow_answered p).*1 ++ flow_pending p.

Definition decoding (p : inmemFlow) : Prop :=
  fl_decoder p <> fd_returned /\ fl_decoder p <> fd_panicked.

(** What a future can carry. *)
Definition right_result (timeout : Z) (an : gmap nat rpcAnswer) (y : nat * futureResult) : Prop :=
  (y.2 = flow_timed_out /\ (0 < timeout)%Z) \/
  exists a, an !! y.1 = Some a /\ inmem_decode (Some a) = Some y.2.

Record flow_ok (timeout : Z) (p : inmemFlow) : Prop := {
  fo_queue : fl_taken p ++ fl_consumerCh p = seq 0 (length (fl_sent p));
  fo_answers k : is_Some (fl_answers p !! k) -> k ∈ fl_taken p;
  fo_futures : decoding p ->
    flow_futures p = seq 0 (length (flow_futures p)) /\
    (length (flow_futures p) <= length (fl_sent p))%nat;
  fo_all : fl_shutdown p = false \/ (exists req, fl_caller p = fc_offer req) -> decoding p ->
    length (flow_futures p) = length (fl_sent p);
  fo_open : fl_shutdown p = false -> fl_decoder p <> fd_returned;
  fo_answered : (flow_answered p).*1 = seq 0 (length (flow_answered p));
  fo_sent : (length (flow_answered p) <= length (fl_sent p))%nat;
  fo_results y : y ∈ flow_answered p -> right_result timeout (fl_answers p) y;
  fo_done : (length (fl_doneCh p) <= flow_buffer)%nat
}.

(** Steps that only move futures along. *)
Lemma flow_moves timeout p p' :
  flow_ok timeout p -> flow_futures p' = flow_futures p -> flow_answered p' = flow_answered p ->
  fl_sent p' = fl_sent p -> fl_taken p' ++ fl_consumerCh p' = fl_taken p ++ fl_consumerCh p ->
  (forall k, is_Some (fl_answers p' !! k) -> k ∈ fl_taken p') ->
  (forall k a, fl_answers p !! k = Some a -> fl_answers p' !! k = Some a) ->
  (fl_shutdown p' = false \/ (exists req, fl_caller p' = fc_offer req) ->
   fl_shutdown p = false \/ (exists req, fl_caller p = fc_offer req)) -> (decoding p' <-> decoding p) ->
  (fl_shutdown p' = false -> fl_decoder p' <> fd_returned) ->
  (length (fl_doneCh p') <= flow_buffer)%nat -> flow_ok timeout p'.
Proof.
  intros [] Hf Ha Hs Hq Hk Hm Hsh Hd Ho Hb.
  split; rewrite ?Hf, ?Ha, ?Hs, ?Hq; auto.
  - intros Hx. apply fo_futures0. by apply Hd.
  - intros Hx Hy. apply fo_all0; [auto|by apply Hd].
  - intros y [[]|(a & Hy & Hr)]%fo_results0; [by left|]. right. eauto.
Qed.

(** The future that was first is answered. *)
Lemma flow_answers_first timeout s c rt k res q tk an inp dn co sh :
  flow_ok timeout (mkFlow s c rt q tk an inp (fd_wait k) dn co sh) ->
  right_result timeout an (k, res) ->
  flow_ok timeout (mkFlow s c rt q tk an inp (fd_put k res) dn co sh).
Proof.
  intros [] Hres.
  set (p := mkFlow s c rt q tk an inp (fd_wait k) dn co sh) in *.
  set (p' := mkFlow s c rt q tk an inp (fd_put k res) dn co sh).
  assert (flow_answered p' = flow_answered p ++ [(k, res)]) as Ha.
  { unfold flow_answered. simpl. by rewrite app_nil_r, <- app_assoc. }
  assert (flow_futures p' = flow_futures p) as Hf.
  { unfold flow_futures. rewrite Ha, fmap_app. unfold flow_pending. simpl. by rewrite <- app_assoc. }
  destruct fo_futures0 as [Hseq Hlen]; [done|].
  assert (k = length (flow_answered p)) as Hk.
  { unfold flow_futures, flow_pending in Hseq. simpl in Hseq.
    apply (f_equal (.!! length (flow_answered p))) in Hseq.
    rewrite lookup_app_r, length_fmap, Nat.sub_diag in Hseq by (by rewrite length_fmap). simpl in Hseq.
    symmetry in Hseq. apply lookup_seq in Hseq as [? _]. lia. }
  split; rewrite ?Hf, ?Ha; try done.
  - intros Hsh _. by apply fo_all0.
  - rewrite fmap_app, fo_answered0, length_app, Nat.add_1_r, seq_S, Hk. done.
  - rewrite <- Hf in Hlen. unfold flow_futures in Hlen. rewrite Ha, length_app, length_fmap in Hlen.
    simpl in *. lia.
  - intros y. rewrite elem_of_app, list_elem_of_singleton. intros [Hy| ->]; auto.
Qed.

Lemma answered_prefix (l l' : list (nat * futureResult)) n :
  (l ++ l').*1 = seq 0 n -> l.*1 = seq 0 (length l).
Proof. rewrite fmap_app. intros Hs%seq_prefix. by rewrite length_fmap in Hs. Qed.

(** The decoder stops, by a shutdown or a panic. *)
Lemma flow_stops timeout s c rt q tk an inp d d' dn co sh :
  flow_ok timeout (mkFlow s c rt q tk an inp d dn co sh) ->
  d' = fd_panicked \/ d' = fd_returned /\ sh = true ->
  flow_ok timeout (mkFlow s c rt q tk an inp d' dn co sh).
Proof.
  intros [] Hd. set (p := mkFlow s c rt q tk an inp d dn co sh) in *.
  set (p' := mkFlow s c rt q tk an inp d' dn co sh).
  assert (exists l, flow_answered p = flow_answered p' ++ l) as [l Ha].
  { exists (match d with fd_put k res => [(k, res)] | _ => [] end). unfold flow_answered. simpl.
    replace (match d' with fd_put k res => [(k, res)] | _ => [] end) with (@nil (nat * futureResult))
      by (by destruct Hd as [->|[-> _]]).
    by rewrite app_nil_r, <- app_assoc. }
  assert (~ decoding p') as Hno. { unfold decoding. simpl. destruct Hd as [->|[-> _]]; intros []; done. }
  split; try done.
  - simpl. intros ->. by destruct Hd as [->|[_ ?]].
  - rewrite Ha in fo_answered0. by eapply answered_prefix.
  - rewrite Ha, length_app in fo_sent0. simpl in *. lia.
  - intros y Hy. apply fo_results0. rewrite Ha. apply elem_of_app. by left.
Qed.

Lemma flow_offered timeout s req rt q tk an inp d dn co sh :
  flow_ok timeout (mkFlow s (fc_offer req) rt q tk an inp d dn co sh) ->
  flow_ok timeout
    (mkFlow (s ++ [req]) (fc_track (length s)) rt (q ++ [length s]) tk an inp d dn co sh).
Proof.
  intros [Hq Han Hfu Hal Hop Hse Hle Hre Hdn].
  set (p := mkFlow s (fc_offer req) rt q tk an inp d dn co sh) in *.
  set (p' := mkFlow (s ++ [req]) (fc_track (length s)) rt (q ++ [length s]) tk an inp d dn co sh).
  assert (flow_futures p' = flow_futures p ++ [length s]) as Hf.
  { unfold flow_futures, flow_pending, flow_answered. simpl. by rewrite app_nil_r, <- !app_assoc. }
  assert (length (fl_sent p') = S (length s)) as Hl. { simpl. rewrite length_app. simpl. lia. }
  assert (decoding p -> length (flow_futures p) = length s) as Hlen. { apply Hal. right. by exists req. }
  split; try done; rewrite ?Hl.
  - rewrite seq_S. simpl in *. by rewrite app_assoc, Hq.
  - intros Hd. rewrite Hf, length_app, Nat.add_1_r, (Hlen Hd), seq_S. split; [|done].
    destruct (Hfu Hd) as [-> _]. by rewrite (Hlen Hd).
  - intros _ Hd. rewrite Hf, length_app, (Hlen Hd). simpl. lia.
  - change (flow_answered p') with (flow_answered p). change (fl_sent p) with s in Hle. lia.
Qed.

(** A call that ends without its future being tracked. *)
Lemma flow_abandoned timeout s k rt rt' q tk an inp d dn co :
  flow_ok timeout (mkFlow s (fc_track k) rt q tk an inp d dn co true) ->
  flow_ok timeout (mkFlow s fc_out rt' q tk an inp d dn co true).
Proof.
  intros [Hq Han Hfu Hal Hop Hse Hle Hre Hdn].
  set (p := mkFlow s (fc_track k) rt q tk an inp d dn co true) in *.
  set (p' := mkFlow s fc_out rt' q tk an inp d dn co true).
  assert (flow_futures p = flow_futures p' ++ [k]) as Hf.
  { unfold flow_futures, flow_pending, flow_answered. simpl. by rewrite app_nil_r, <- !app_assoc. }
  split; try done.
  - intros Hd. destruct (Hfu Hd) as [Hs Hl]. rewrite Hf in Hs, Hl. split; [by eapply seq_prefix|].
    rewrite length_app in Hl. simpl in *. lia.
  - simpl. by intros [|[? ?]].
Qed.

#[local] Ltac moves Hok :=
  apply (flow_moves _ _ _ Hok); simpl in *; try done; auto;
  try (by intros [|[? ?]]; eauto);
  unfold flow_futures, flow_pending, flow_answered; simpl;
  rewrite ?app_nil_r, <- ?app_assoc; try done.

Lemma flow_step_ok timeout x p p' : flow_ok timeout p -> flow_step timeout x p p' -> flow_ok timeout p'.
Proof.
  intros Hok Hstep. pose proof Hok as [Hq Han Hfu Hal Hop Hse Hle Hre Hdn].
  destruct Hstep.
  - moves Hok.
  - moves Hok.
  - by eapply flow_offered.
  - moves Hok.
  - moves Hok.
  - moves Hok.
  - by eapply flow_abandoned.
  - moves Hok. intros i Hi. apply elem_of_app. left. by apply Han.
  - moves Hok.
    + intros i. destruct (decide (i = k)) as [->|Hne]; [done|]. rewrite lookup_insert_ne by done. apply Han.
    + intros i b Hi. rewrite lookup_insert_ne; [done|]. by intros ->; congruence.
  - moves Hok.
  - eapply flow_answers_first; [exact Hok|]. right. by exists a.
  - eapply flow_stops; [exact Hok|]. by left.
  - eapply flow_answers_first; [exact Hok|]. by left.
  - moves Hok. rewrite length_app. simpl. lia.
  - eapply flow_stops; [exact Hok|]. by right.
  - moves Hok. lia.
  - moves Hok.
Qed.

Lemma flow_reachable_ok timeout p : flow_reachable timeout p -> flow_ok timeout p.
Proof.
  induction 1 as [|x p p' _ IH Hstep]; [|by eapply flow_step_ok].
  split; try done; simpl; try lia; try set_solver. intros k [? Hk]. by rewrite lookup_empty in Hk.
Qed.

(** *** Order *)

(** The answers of the peer reach their requests.  The peer takes the requests in the
    order in which they were sent, each once; the consumer gets the futures in that
    order, none left out; and a future carries what the peer answered to its own
    request, or a timeout if the transport has one.  A timeout does not disturb the
    futures behind it. *)
Theorem inmem_pipeline_order timeout p :
  flow_reachable timeout p ->
  fl_taken p ++ fl_consumerCh p = seq 0 (length (fl_sent p)) /\
  (fl_consumed p).*1 = seq 0 (length (fl_consumed p)) /\
  forall k res, (k, res) ∈ fl_consumed p ->
    k ∈ seq 0 (length (fl_sent p)) /\ right_result timeout (fl_answers p) (k, res).
Proof.
  intros Hp%flow_reachable_ok. pose proof Hp as [Hq Han Hfu Hal Hop Hse Hle Hre Hdn].
  split; [done|]. split; [by eapply answered_prefix|]. intros k res Hin.
  assert ((k, res) ∈ flow_answered p) as Ha by (apply elem_of_app; by left).
  split; [|by apply Hre]. apply (list_elem_of_fmap_2 fst) in Ha. rewrite Hse in Ha.
  rewrite elem_of_seq in *. simpl in Ha. lia.
Qed.

(** *** Progress *)

Definition caller_work (c : flowCaller) : nat :=
  match c with fc_out => 0 | fc_offer _ => 8 | fc_track _ => 7 end.

Definition flow_decoder_work (d : flowDecoder) : nat :=
  match d with
  | fd_select => 1
  | fd_wait _ => 5
  | fd_put _ _ => 4
  | fd_returned | fd_panicked => 0
  end.

Definition flow_work (p : inmemFlow) : nat :=
  (caller_work (fl_caller p) + 5 * length (fl_inprogressCh p) +
   flow_decoder_work (fl_decoder p) + 2 * length (fl_doneCh p))%nat.

Lemma flow_work_rest timeout p p' :
  flow_step timeout the_rest p p' -> (flow_work p' < flow_work p)%nat.
Proof.
  remember the_rest as x. intros Hstep. destruct Hstep; try done; unfold flow_work; simpl;
    rewrite ?length_app; simpl; try lia. destruct d; simpl; try done; lia.
Qed.

Lemma flow_rest_steps timeout n p p' :
  nsteps (flow_step timeout the_rest) n p p' -> (n + flow_work p' <= flow_work p)%nat.
Proof. induction 1 as [|n p p1 p' Hs _ IH]; [lia|]. apply flow_work_rest in Hs. lia. Qed.

Lemma flow_rest_reachable timeout n p p' :
  flow_reachable timeout p -> nsteps (flow_step timeout the_rest) n p p' -> flow_reachable timeout p'.
Proof. intros Hp Hn. induction Hn; [done|]. apply IHHn. by eapply flow_more. Qed.

(** What holds a pipeline up, when its transport has a timeout. *)
Lemma flow_stuck timeout p :
  flow_ok timeout p -> (0 < timeout)%Z -> (forall p', ~ flow_step timeout the_rest p p') ->
  fl_doneCh p = [] /\
  (fl_decoder p = fd_panicked \/
   fl_caller p = fc_out /\
   if fl_shutdown p then fl_decoder p = fd_returned
   else fl_inprogressCh p = [] /\ fl_decoder p = fd_select).
Proof.
  intros Hok Ht Hno. destruct p as [s c rt q tk an inp d dn co sh].
  destruct dn as [|y dn]; [|edestruct Hno; apply fs_consume]. split; [done|]. simpl.
  destruct d as [|k|k res| |]; [| | | |by left]; right.
  - destruct inp as [|k inp]; [|edestruct Hno; apply fs_receive].
    destruct sh; [edestruct Hno; by apply fs_return|].
    destruct c; [done|edestruct Hno; by apply fs_offer_timeout|].
    edestruct Hno. apply fs_track. simpl. unfold flow_buffer. lia.
  - edestruct Hno. by apply fs_timeout.
  - edestruct Hno. apply fs_done. simpl. unfold flow_buffer. lia.
  - destruct sh; [|by destruct (fo_open _ _ Hok eq_refl)].
    destruct c; [done|edestruct Hno; apply fs_offer_shutdown|edestruct Hno; apply fs_track_shutdown].
Qed.

(** A pipeline of a transport with a timeout does not get stuck, even if the peer never
    takes or answers a command.  Left to itself it comes to rest after a bounded number
    of steps; then no call of [AppendEntries] is waiting, every future was delivered,
    and after a [Close] [decodeResponses] has returned; unless [decodeResponses]
    panicked on an answer without a response. *)
Theorem inmem_pipeline_progress timeout p n p' :
  (0 < timeout)%Z -> flow_reachable timeout p -> nsteps (flow_step timeout the_rest) n p p' ->
  (n <= flow_work p)%nat /\
  ((forall p'', ~ flow_step timeout the_rest p' p'') ->
   fl_decoder p' = fd_panicked \/
   fl_caller p' = fc_out /\
   if fl_shutdown p' then fl_decoder p' = fd_returned
   else (fl_consumed p').*1 = seq 0 (length (fl_sent p'))).
Proof.
  intros Ht Hp Hn. split; [apply flow_rest_steps in Hn; lia|]. intros Hno.
  pose proof (flow_reachable_ok _ _ (flow_rest_reachable _ _ _ _ Hp Hn)) as Hok.
  destruct (flow_stuck timeout p' Hok Ht Hno) as (Hd & [Hx|[Hc Hx]]); [by left|]. right.
  split; [done|]. destruct (fl_shutdown p') eqn:Hsh; [done|]. destruct Hx as [Hi Hdec].
  assert (decoding p') as Hdc by (unfold decoding; by rewrite Hdec).
  pose proof (fo_all _ _ Hok (or_introl Hsh) Hdc) as Hlen. pose proof (fo_answered _ _ Hok) as Han.
  unfold flow_futures, flow_pending, flow_answered in Hlen, Han.
  rewrite Hc, Hi, Hdec, Hd in *. simpl in *. rewrite !app_nil_r in *.
  by rewrite Han, <- Hlen, length_fmap.
Qed.

(** Without a timeout a pipeline whose peer does not answer waits until it is closed. *)
Lemma inmem_pipeline_waits timeout :
  (timeout <= 0)%Z -> exists p, flow_reachable timeout p /\ length (fl_sent p) = 1 /\
    fl_consumed p = [] /\ fl_shutdown p = false /\ forall p', ~ flow_step timeout the_rest p p'.
Proof.
  intros Ht. set (req := mkAppendEntriesRequest (mkHeader 3 "" "") 1 "" 0 0 [] 0).
  exists (mkFlow [req] fc_out [Ok 0%nat] [0%nat] [] ∅ [] (fd_wait 0) [] [] false).
  split_and!; try done.
  - eapply flow_more; [|apply fs_receive]. eapply flow_more; [|apply (fs_track timeout _ _ [] _ _ _ [])].
    2:{ unfold flow_buffer. simpl. lia. }
    eapply flow_more; [|apply (fs_offer timeout [] req [] [] []); unfold flow_buffer; simpl; lia].
    eapply flow_more; [|apply fs_call]. apply flow_new.
  - intros p' Hs. inversion Hs; subst; try lia;
      match goal with Hl : _ !! _ = Some _ |- _ => by rewrite lookup_empty in Hl end.
Qed.
