(* ===== verification/Testing.v ===== *)
(** * The test support of [testing.go] and [testing_batch.go]

    The mock state machine with its snapshots, first as a value and then over the slices
    that it shares with them, the log store that claims to be monotonic, and the logger of
    the tests. *)
From stdpp Require Import relations.
From S2P Require Import Prelude Types Util Codec Configuration Config Stores State Elections AppendEntries SnapshotStores Snapshot Fsm Replication Leader Api Server Cluster Startup Futures InmemTransport.

(** ** [MockFSM] *)

Record MockFSM := mkMockFSM {
  mf_logs : list string;
  mf_configurations : list Configuration
}.

(** The response is the length of the log; a nil response is [None]. *)
Definition mock_Apply (m : MockFSM) (log : Log) : MockFSM * option nat :=
  let logs := mf_logs m ++ [log_Data log] in
  (mkMockFSM logs (mf_configurations m), Some (length logs)).

(** [ApplyBatch] of [testing_batch.go] *)
Fixpoint mock_ApplyBatch (m : MockFSM) (logs : list Log) : MockFSM * list (option nat) :=
  match logs with
  | [] => (m, [])
  | log :: logs =>
      let '(m, r) := if decide (log_Type log = LogCommand) then mock_Apply m log else (m, None) in
      let '(m, rs) := mock_ApplyBatch m logs in (m, r :: rs)
  end.

Definition mock_StoreConfiguration (m : MockFSM) (index : N) (config : Configuration) : MockFSM :=
  mkMockFSM (mf_logs m) (mf_configurations m ++ [config]).

Section Mock.
Context {SN : Type} `{SnapshotStore SN} `{MsgPack}.

(** [MockSnapshot.Persist]; the error of closing the sink is not looked at. *)
Definition mock_Persist (logs : list string) (sink : SnapshotSink) : M SN (option error) :=
  match encodeMsgPack_peers logs with
  | Err err => (sink_Cancel sink;; returns (Some err))%go
  | Ok data => (
      n <- sink_Write sink data;;
      match n with
      | Err err => sink_Cancel sink;; returns (Some err)
      | Ok _ => sink_Close sink;; returns None
      end)%go
  end.

Definition mock_Snapshot (m : MockFSM) : MockFSM * result (SnapshotSink -> M SN (option error)) :=
  (m, Ok (mock_Persist (mf_logs m))).

(** The configurations are not part of a snapshot. *)
Definition mock_Restore (m : MockFSM) (inp : string) : MockFSM * option error :=
  match decodeMsgPack_peers inp with
  | Ok logs => (mkMockFSM logs (mf_configurations m), None)
  | Err err => (mkMockFSM [] (mf_configurations m), Some err)
  end.

(** As it is built without and with the tag for batches. *)
Definition MockFSM_FSM (batch : bool) : FSM MockFSM SN := {|
  Response := option nat;
  Apply := mock_Apply;
  ApplyBatch := if batch then Some mock_ApplyBatch else None;
  StoreConfiguration := None;
  Snapshot := mock_Snapshot;
  Restore := mock_Restore
|}.

(** [MockFSMConfigStore] *)
Definition MockFSMConfigStore_FSM : FSM MockFSM SN := {|
  Response := option nat;
  Apply := mock_Apply;
  ApplyBatch := None;
  StoreConfiguration := Some mock_StoreConfiguration;
  Snapshot := mock_Snapshot;
  Restore := mock_Restore
|}.
End Mock.

(** ** [MockFSM] over slices

    A slice is a part of an array, and [append] writes into the array as long as there
    is room, so that a snapshot and the state machine share arrays. *)
Record slice := mkSlice {
  sl_array : nat;
  sl_len : nat;
  sl_cap : nat
}.

(** The arrays; a new one gets the next number. *)
Abbreviation arrays := (list (list string)).

Definition sl_read (h : arrays) (s : slice) : list string :=
  take (sl_len s) (default [] (h !! sl_array s)).

(** [append(s, x)]; [grow] is how the runtime chooses a capacity. *)
Definition sl_append (grow : nat -> nat) (x : string) (h : arrays) (s : slice) : arrays * slice :=
  if decide (sl_len s < sl_cap s)%nat then
    (alter (<[sl_len s := x]>) (sl_array s) h, mkSlice (sl_array s) (S (sl_len s)) (sl_cap s))
  else
    let cap := grow (S (sl_len s)) in
    (h ++ [sl_read h s ++ [x] ++ replicate (cap - S (sl_len s)) ""],
     mkSlice (length h) (S (sl_len s)) cap).

(** A decoded list is in an array of its own. *)
Definition sl_decode (data : list string) (h : arrays) : arrays * slice :=
  (h ++ [data], mkSlice (length h) (length data) (length data)).

(** The state machine and the snapshots that were taken of it: [MockSnapshot] has the
    slice and its length. *)
Record sliceFSM := mkSliceFSM {
  sf_heap : arrays;
  sf_logs : slice;
  sf_snapshots : list (slice * nat)
}.

Inductive mockOp := mo_Apply (data : string) | mo_Snapshot | mo_Restore (data : list string).

Definition slice_step (grow : nat -> nat) (op : mockOp) (f : sliceFSM) : sliceFSM :=
  match op with
  | mo_Apply data =>
      let '(h, s) := sl_append grow data (sf_heap f) (sf_logs f) in
      mkSliceFSM h s (sf_snapshots f)
  | mo_Snapshot =>
      mkSliceFSM (sf_heap f) (sf_logs f) (sf_snapshots f ++ [(sf_logs f, sl_len (sf_logs f))])
  | mo_Restore data =>
      let '(h, s) := sl_decode data (sf_heap f) in mkSliceFSM h s (sf_snapshots f)
  end.

(** What [Persist] of a snapshot encodes, [m.logs[:m.maxIndex]]. *)
Definition persisted (f : sliceFSM) (sn : slice * nat) : list string :=
  take sn.2 (default [] (sf_heap f !! sl_array sn.1)).

(** The same with values: the log, and what each snapshot is of. *)
Definition value_step (op : mockOp) (v : list string * list (list string))
    : list string * list (list string) :=
  match op with
  | mo_Apply data => (v.1 ++ [data], v.2)
  | mo_Snapshot => (v.1, v.2 ++ [v.1])
  | mo_Restore data => (data, v.2)
  end.

(** ** [MockMonotonicLogStore] *)

Record MockMonotonicLogStore (L : Type) := mkMockMonotonic { mm_s : L }.
Arguments mkMockMonotonic {L} _.
Arguments mm_s {L} _.

Section Monotonic.
Context {L : Type} `{LogStore L}.

#[export] Instance MockMonotonic_LogStore : LogStore (MockMonotonicLogStore L) := {|
  FirstIndex m := FirstIndex (mm_s m);
  LastIndex m := LastIndex (mm_s m);
  GetLog m := GetLog (mm_s m);
  StoreLogs m logs := let '(s, err) := StoreLogs (mm_s m) logs in (mkMockMonotonic s, err);
  DeleteRange m min max :=
    let '(s, err) := DeleteRange (mm_s m) min max in (mkMockMonotonic s, err);
  IsMonotonic _ := true
|}.
End Monotonic.

(** ** [testLoggerAdapter] *)

(** What is logged and the length that is returned; [None] is the panic of the index. *)
Definition testLogger_Write (prefix d : string) : option (string * nat) :=
  match rev (String.list_ascii_of_string d) with
  | [] => None
  | c :: front =>
      let d := if decide (c = Ascii.ascii_of_N 10) then String.string_of_list_ascii (rev front) else d in
      let l := if decide (prefix = "") then d else prefix +:+ ": " +:+ d in
      Some (l, String.length l)
  end.

(** ** Facts: the mock state machine *)

Section MockFacts.
Context {SN : Type} `{SnapshotStore SN} `{MsgPack}.

(** A batch of commands is applied as its entries one by one. *)
Lemma mock_ApplyBatch_seq m logs :
  Forall (fun l => log_Type l = LogCommand) logs ->
  mock_ApplyBatch m logs = apply_seq (SN := SN) (FSM0 := MockFSM_FSM true) m logs.
Proof.
  revert m. induction logs as [|l logs IH]; intros m Hc; [done|].
  apply Forall_cons in Hc as [Hl Hc]. cbn [mock_ApplyBatch apply_seq Apply MockFSM_FSM].
  rewrite decide_True by done. destruct (mock_Apply m l) as [m1 r]. by rewrite IH.
Qed.

(** What the log of the state machine holds are the commands in the order they were
    applied, and a response is the number of commands up to its own. *)
Lemma mock_apply_seq m logs :
  apply_seq (SN := SN) (FSM0 := MockFSM_FSM false) m logs =
  (mkMockFSM (mf_logs m ++ (log_Data <$> logs)) (mf_configurations m),
   (fun k => Some (length (mf_logs m) + k)) <$> seq 1 (length logs)).
Proof.
  revert m. induction logs as [|l logs IH]; intros [ls cs].
  - simpl. by rewrite app_nil_r.
  - cbn [apply_seq Apply MockFSM_FSM mock_Apply mf_logs mf_configurations]. cbv zeta.
    rewrite IH. cbn [mf_logs mf_configurations fmap list_fmap length seq].
    rewrite <- app_assoc. f_equal. rewrite length_app. f_equal.
    rewrite <- (fmap_S_seq 1), <- list_fmap_compose. apply list_fmap_ext. intros i k _. simpl. f_equal. lia.
Qed.
End MockFacts.

(** A snapshot of the mock state machine is read back, whatever the state machine that
    it is restored into; the configurations are not in it. *)
Theorem mock_snapshot_roundtrip `{MsgPack} `{!MsgPackLaws} `{PeerCodec}
    (s0 s1 s2 : InmemSnapshotStore) msec index term c ci sink (m g : MockFSM)
    err :
  Create (SN := InmemSnapshotStore) msec 1 index term c ci s0 = Done (Ok sink) s1 ->
  mock_Persist (mf_logs m) sink s1 = Done err s2 ->
  err = None /\ exists meta source, Open s2 (sink_ID sink s2) = Ok (meta, source) /\
    sm_Index meta = index /\ sm_Term meta = term /\
    mock_Restore g source = (mkMockFSM (mf_logs m) (mf_configurations g), None).
Proof.
  cbn [Create InmemSnapshotStore_SnapshotStore]. unfold inmem_Create. rewrite decide_False by (by intros Hne; apply Hne).
  destruct (encodePeers c) as [peers|]; [|done]. intros [= <- <-]. unfold mock_Persist.
  destruct (encode_peers_total (mf_logs m)) as [data Hd]. rewrite Hd. intros [= <- <-].
  split; [done|]. cbn. unfold inmem_Open, inmem_latest. cbn.
  rewrite list_lookup_alter_eq, lookup_app_r, Nat.sub_diag by done. cbn.
  rewrite decide_False by (by intros Hne; apply Hne). eexists _, _. split; [done|]. cbn.
  split_and!; try done. unfold mock_Restore. change ("" +:+ data) with data.
  by rewrite (decode_encode_peers _ _ Hd).
Qed.

(** The two interfaces of the state machine differ on an entry that is no command: a
    batch skips it. *)
Lemma mock_ApplyBatch_skips m l :
  log_Type l <> LogCommand ->
  mock_ApplyBatch m [l] = (m, [None]) /\ mf_logs (mock_Apply m l).1 <> mf_logs m.
Proof.
  intros Hl. simpl. rewrite decide_False by done. split; [done|]. intros HE.
  apply (f_equal length) in HE. simpl in HE. rewrite length_app in HE. simpl in HE. lia.
Qed.

(** *** Slices *)

(** The array of a slice is there, with room for its capacity. *)
Definition sl_ok (h : arrays) (s : slice) : Prop :=
  (sl_len s <= sl_cap s)%nat /\ exists a, h !! sl_array s = Some a /\ length a = sl_cap s.

(** What the state machine and its snapshots share: a snapshot is of an array that is
    there and, if the array is the one in use, not longer than what is in use. *)
Record slices_ok (f : sliceFSM) (v : list string * list (list string)) : Prop := {
  sk_logs : sl_ok (sf_heap f) (sf_logs f);
  sk_read : sl_read (sf_heap f) (sf_logs f) = v.1;
  sk_persisted : persisted f <$> sf_snapshots f = v.2;
  sk_shared sn : sn ∈ sf_snapshots f -> (sl_array sn.1 < length (sf_heap f))%nat /\
    (sl_array sn.1 = sl_array (sf_logs f) -> (sn.2 <= sl_len (sf_logs f))%nat)
}.

Lemma take_insert_same {A} (l : list A) n x : (n < length l)%nat -> take (S n) (<[n := x]> l) = take n l ++ [x].
Proof.
  intros Hn. rewrite (take_S_r _ n x) by (by rewrite list_lookup_insert_eq).
  by rewrite take_insert_ge.
Qed.

Section Slices.
Context (grow : nat -> nat) (grow_enough : forall n, (n <= grow n)%nat).

#[local] Ltac cb := cbn [sf_heap sf_logs sf_snapshots sl_array sl_len sl_cap fst snd fmap option_fmap option_map default from_option id app value_step] in *.

Lemma slice_Apply_ok data f v : slices_ok f v -> slices_ok (slice_step grow (mo_Apply data) f) (value_step (mo_Apply data) v).
Proof.
  intros [[Hle (a & Ha & Hc)] Hr Hp Hs]. destruct f as [h [i n cap] sns]. simpl in *.
  unfold slice_step, sl_append. cbn [sf_heap sf_logs sf_snapshots sl_array sl_len sl_cap fst snd]. unfold sl_read in Hr. simpl in Hr. rewrite Ha in Hr. simpl in Hr.
  destruct (decide (n < cap)%nat) as [Hlt|Hge]; cb.
  - split; cb.
    + split; [cb; lia|]. exists (<[n:=data]> a). cb. rewrite list_lookup_alter_eq, Ha. cb.
      by rewrite length_insert.
    + unfold sl_read. cb. rewrite list_lookup_alter_eq, Ha. cb. rewrite take_insert_same by lia.
      by rewrite Hr.
    + rewrite <- Hp. apply list_fmap_ext. intros k sn Hk%list_elem_of_lookup_2.
      destruct (Hs sn Hk) as [Hin Hsh]. unfold persisted. cb.
      destruct (decide (sl_array sn.1 = i)) as [He|Hne]; [|by rewrite list_lookup_alter_ne].
      rewrite He, list_lookup_alter_eq, Ha. cb. rewrite take_insert_ge; [done|by apply Hsh].
    + intros sn Hin. destruct (Hs sn Hin) as [Hlt' Hsh]. rewrite length_alter. split; [done|].
      intros HE%Hsh. cb. lia.
  - split; cb.
    + pose proof (grow_enough (S n)). split; [done|]. eexists. cb. rewrite lookup_app_r, Nat.sub_diag by done.
      split; [done|]. unfold sl_read. cb. rewrite Ha. cb.
      rewrite length_app, length_take. cbn [length]. rewrite length_replicate. lia.
    + unfold sl_read. cb. rewrite lookup_app_r, Nat.sub_diag by done. cb. rewrite Ha. cb.
      rewrite Hr, cons_middle, app_assoc. apply take_app_length'.
      rewrite length_app, <- Hr, length_take. cbn [length]. lia.
    + rewrite <- Hp. apply list_fmap_ext. intros k sn Hk%list_elem_of_lookup_2.
      destruct (Hs sn Hk) as [Hin Hsh]. unfold persisted. cb. by rewrite lookup_app_l.
    + intros sn Hin. destruct (Hs sn Hin) as [Hlt' Hsh]. rewrite length_app. cb. split; [lia|].
      intros HE. simpl in HE. lia.
Qed.

Lemma slice_step_ok op f v : slices_ok f v -> slices_ok (slice_step grow op f) (value_step op v).
Proof.
  destruct op as [data| |data]; [apply slice_Apply_ok| |]; intros [[Hle (a & Ha & Hc)] Hr Hp Hs].
  - split; simpl; try done.
    + split; [done|]. by exists a.
    + transitivity (persisted f <$> (sf_snapshots f ++ [(sf_logs f, sl_len (sf_logs f))])); [done|].
      by rewrite fmap_app, Hp, <- Hr.
    + intros sn [Hin|Hin]%elem_of_app; [by apply Hs|]. apply list_elem_of_singleton in Hin as ->. simpl.
      split; [by eapply lookup_lt_Some|done].
  - split; simpl.
    + split; [done|]. exists data. simpl. by rewrite lookup_app_r, Nat.sub_diag by done.
    + unfold sl_read. simpl. rewrite lookup_app_r, Nat.sub_diag by done. simpl. by rewrite take_ge.
    + rewrite <- Hp. apply list_fmap_ext. intros k sn Hk%list_elem_of_lookup_2.
      destruct (Hs sn Hk) as [Hin Hsh]. unfold persisted. simpl. by rewrite lookup_app_l.
    + intros sn Hin. destruct (Hs sn Hin) as [Hlt' Hsh]. rewrite length_app. simpl. split; [lia|].
      intros HE. simpl in HE. lia.
Qed.

(** The sharing of arrays between the mock state machine and its snapshots does not show.
    Over any sequence of commands, snapshots and restores, each snapshot writes the log
    as it was when the snapshot was taken, whenever it is persisted. *)
Theorem mock_snapshots_stable (ops : list mockOp) :
  let f := foldl (fun f op => slice_step grow op f) (mkSliceFSM [[]] (mkSlice 0 0 0) []) ops in
  let v := foldl (fun v op => value_step op v) ([], []) ops in
  sl_read (sf_heap f) (sf_logs f) = v.1 /\ persisted f <$> sf_snapshots f = v.2.
Proof.
  assert (slices_ok (mkSliceFSM [[]] (mkSlice 0 0 0) []) ([], [])) as Hok.
  { split; simpl; try done; [|set_solver]. split; [done|]. by exists []. }
  simpl. revert Hok. generalize (mkSliceFSM [[]] (mkSlice 0 0 0) []), (@nil string, @nil (list string)).
  induction ops as [|op ops IH]; intros f v Hok; simpl; [split; apply Hok|].
  apply IH. by apply slice_step_ok.
Qed.
End Slices.

(** ** Facts: the monotonic store and the logger *)

Section MonotonicFacts.
Context {L : Type} `{LogStore L} `{!LogStoreLaws L}.

Lemma mock_StoreLogs (m m' : MockMonotonicLogStore L) logs err :
  StoreLogs m logs = (m', err) -> StoreLogs (mm_s m) logs = (mm_s m', err).
Proof. cbn. destruct (StoreLogs (mm_s m) logs). by intros [= <- <-]. Qed.

Lemma mock_DeleteRange (m m' : MockMonotonicLogStore L) a b err :
  DeleteRange m a b = (m', err) -> DeleteRange (mm_s m) a b = (mm_s m', err).
Proof. cbn. destruct (DeleteRange (mm_s m) a b). by intros [= <- <-]. Qed.

(** The wrapper keeps the laws of the store that it wraps. *)
#[export] Instance MockMonotonic_LogStoreLaws : LogStoreLaws (MockMonotonicLogStore L).
Proof.
  refine (Build_LogStoreLaws _ _ (fun m => store_ok (mm_s m)) _ _ _ _ _ _ _ _).
  - intros m ls Hm. destruct (StoreLogs m ls) as [m' e] eqn:HE. apply mock_StoreLogs in HE.
    replace (mm_s (m', e).1) with (StoreLogs (mm_s m) ls).1 by (by rewrite HE).
    by apply store_ok_StoreLogs.
  - intros m a b Hm. destruct (DeleteRange m a b) as [m' e] eqn:HE. apply mock_DeleteRange in HE.
    replace (mm_s (m', e).1) with (DeleteRange (mm_s m) a b).1 by (by rewrite HE).
    by apply store_ok_DeleteRange.
  - intros m i l. exact (GetLog_Index (mm_s m) i l).
  - intros m ls m' i Hm HE%mock_StoreLogs. exact (GetLog_StoreLogs _ _ _ i Hm HE).
  - intros m ls m' e i Hm HE%mock_StoreLogs. exact (GetLog_StoreLogs_failed _ _ _ _ i Hm HE).
  - intros m a b m' i Hm Hb HE%mock_DeleteRange. exact (GetLog_DeleteRange _ _ _ _ i Hm Hb HE).
  - intros m a b m' e i l Hm HE%mock_DeleteRange. exact (GetLog_DeleteRange_failed _ _ _ _ _ i l Hm HE).
  - intros m a b m' e i Hm HE%mock_DeleteRange. exact (GetLog_DeleteRange_outside _ _ _ _ _ i Hm HE).
Qed.
End MonotonicFacts.

(** A writer must not claim to have written more than it was given; the logger adapter
    with a prefix does, whenever the message does not end the line. *)
Lemma testLogger_Write_too_long :
  testLogger_Write "raft" "abc" = Some ("raft: abc", 9%nat) /\ testLogger_Write "raft" "" = None.
Proof. by vm_compute. Qed.
