(* ===== verification/TestCluster.v ===== *)
(** * The clusters of [testing.go]

    Making a cluster of servers on transports in memory, connecting, disconnecting and
    partitioning the transports, and the checks on its servers and state machines. *)
From stdpp Require Import relations.
From S2P Require Import Prelude Types Util Codec Configuration Config Stores State Elections AppendEntries SnapshotStores Snapshot Fsm Replication Leader Api Server Cluster Startup Futures Queries InmemTransport Testing.

(** ** Wiring *)

(** The transports of the cluster; a panic of one ends the call. *)
Abbreviation transports := (list InmemTransport).

Definition connect_pair (i j : nat) (ts : transports) : transports :=
  match ts !! i, ts !! j with
  | Some t1, Some t2 =>
      alter (inmem_Connect (it_localAddr t1) (it_localAddr t1)) j
        (alter (inmem_Connect (it_localAddr t2) (it_localAddr t2)) i ts)
  | _, _ => ts
  end.

(** The pairs of the two loops. *)
Definition index_pairs (n : nat) : list (nat * nat) :=
  filter (fun p => p.1 <> p.2) (i ← seq 0 n; j ← seq 0 n; [(i, j)]).

Definition FullyConnect (ts : transports) : transports :=
  foldl (fun ts p => connect_pair p.1 p.2 ts) ts (index_pairs (length ts)).

(** A call on every transport in turn. *)
Fixpoint each_transport (f : InmemTransport -> M InmemTransport unit) (ts : transports)
    : option transports :=
  match ts with
  | [] => Some []
  | t :: ts =>
      match f t t with
      | Done _ t' => cons t' <$> each_transport f ts
      | Panicked _ => None
      end
  end.

Definition cluster_Disconnect (a : ServerAddress) (ts : transports) : option transports :=
  each_transport (fun t => if decide (it_localAddr t = a) then inmem_DisconnectAll
                           else inmem_Disconnect a) ts.

Fixpoint disconnect_each (l : list ServerAddress) : M InmemTransport unit :=
  match l with
  | [] => returns tt
  | a :: l => (inmem_Disconnect a;; disconnect_each l)%go
  end.

(** The addresses on the near side; the order of a map does not matter. *)
Definition near_side (far : list ServerAddress) (ts : transports) : list ServerAddress :=
  filter (fun l => l ∉ far) (it_localAddr <$> ts).

Definition Partition (far : list ServerAddress) (ts : transports) : option transports :=
  let near := near_side far ts in
  each_transport (fun t => disconnect_each (if decide (it_localAddr t ∈ near) then far else near)) ts.

(** ** Checks on servers *)

Section Servers.
Context {L K SN : Type}.
Abbreviation raft := (Raft L K SN).

(** The servers in a state, and the highest term. *)
Fixpoint pollState (s : RaftState) (rafts : list raft) (highestTerm : N) : list raft * N :=
  match rafts with
  | [] => ([], highestTerm)
  | r :: rafts =>
      let term := currentTerm (raft_state r) in
      let '(rs, highestTerm) :=
        pollState s rafts (if decide (highestTerm < term)%N then term else highestTerm) in
      (if decide (state (raft_state r) = s) then r :: rs else rs, highestTerm)
  end.

(** [Leader]: [None] fails the test. *)
Definition cluster_Leader (leaders : list raft) : option raft :=
  match leaders with [r] => Some r | _ => None end.

Fixpoint cluster_RemoveServer (id : ServerID) (rafts : list raft) : list raft :=
  match rafts with
  | [] => []
  | r :: rafts => if decide (localID r = id) then rafts else r :: cluster_RemoveServer id rafts
  end.

(** [EnsureLeader]: whether the test goes on. *)
Definition EnsureLeader (expect : ServerAddress) (rafts : list raft) : bool :=
  negb (foldl (fun fail r => if decide ((api_LeaderWithID r).1 <> expect) then true else fail)
          false rafts).

(** The passes of [EnsureSamePeers]: the configurations of the servers after the first at
    each pass, and whether the limit has passed.  [None] is a test that goes on waiting. *)
Fixpoint ensure_peers (peerSet : Configuration) (passes : list (list Configuration * bool))
    : option bool :=
  match passes with
  | [] => None
  | (others, past) :: passes =>
      if forallb (fun c => bool_decide (c = peerSet)) others then Some true
      else if past then Some false
      else ensure_peers peerSet passes
  end.
End Servers.

(** ** Checks on state machines *)

Inductive mismatch :=
  | log_length
  | log_content (idx : nat)
  | configuration_length
  | configuration_content (idx : nat).

(** The loops over the indexes: the first at which two lists of the same length differ. *)
Fixpoint first_difference {A} `{EqDecision A} (idx : nat) (l l' : list A) : option nat :=
  match l, l' with
  | x :: l, y :: l' => if decide (x = y) then first_difference (S idx) l l' else Some idx
  | _, _ => None
  end.

Definition compare_fsms (first fsm : MockFSM) : option mismatch :=
  if decide (length (mf_logs first) <> length (mf_logs fsm)) then Some log_length
  else match first_difference 0 (mf_logs first) (mf_logs fsm) with
       | Some idx => Some (log_content idx)
       | None =>
           if decide (length (mf_configurations first) <> length (mf_configurations fsm))
           then Some configuration_length
           else configuration_content <$>
                  first_difference 0 (mf_configurations first) (mf_configurations fsm)
       end.

(** One pass over the state machines after the first. *)
Fixpoint ensure_pass (first : MockFSM) (fsms : list MockFSM) : option mismatch :=
  match fsms with
  | [] => None
  | fsm :: fsms =>
      match compare_fsms first fsm with
      | Some m => Some m
      | None => ensure_pass first fsms
      end
  end.

(** [EnsureSame] over the state machines as they are at each pass, and whether the limit
    has passed: what fails the test, if anything does; [None] is a test that goes on
    waiting. *)
Fixpoint EnsureSame (passes : list (MockFSM * list MockFSM * bool)) : option (option mismatch) :=
  match passes with
  | [] => None
  | (first, fsms, past) :: passes =>
      match ensure_pass first fsms with
      | None => Some None
      | Some m => if (past : bool) then Some (Some m) else EnsureSame passes
      end
  end.

(** [WaitForReplication], over the state machines each time something happens, until the
    limit. *)
Fixpoint WaitForReplication (fsmLength : nat) (passes : list (option (list MockFSM))) : option bool :=
  match passes with
  | [] => None
  | None :: _ => Some false
  | Some fsms :: passes =>
      if forallb (fun f => bool_decide (length (mf_logs f) = fsmLength)) fsms then Some true
      else WaitForReplication fsmLength passes
  end.

(** [WaitEvent] without failures: when it returns, for the observations that are made and
    their times; [context.WithTimeout] ends the wait after [timeout]. *)
Fixpoint WaitEvent (filter : option (Observation -> bool)) (timeout : Z)
    (obs : list (Z * Observation)) : Z :=
  match obs with
  | [] => Z.max 0 timeout
  | (t, o) :: obs =>
      if decide (timeout <= t)%Z then Z.max 0 timeout
      else if (match filter with Some f => f o | None => true end) then t
      else WaitEvent filter timeout obs
  end.

(** ** [makeCluster] *)

Definition inmemConfig : Config :=
  let c := DefaultConfig in
  mkConfig (ProtocolVersion c) (50 * Millisecond) (50 * Millisecond) (5 * Millisecond)
    (MaxAppendEntries c) (BatchApplyCh c) (ShutdownOnRemove c) (TrailingLogs c)
    (SnapshotInterval c) (SnapshotThreshold c) (50 * Millisecond) (LocalID c) (LogLevel c)
    (NoSnapshotRestoreOnStart c) (PreVoteDisabled c) (NoLegacyTelemetry c) (skipStartup c).

Section MakeCluster.
Context {SN F : Type} `{!SnapshotStore SN} `{!FSM F SN} `{!MsgPack} `{!PeerCodec}.
Abbreviation raft := (Raft InmemStore InmemStore SN).
Abbreviation stores := (Stores InmemStore InmemStore SN).

Definition cluster_server (cf : Config) (addr : ServerAddress) : Server :=
  mkServer Voter (if decide (ProtocolVersion cf < 3)%Z then addr else "server-" +:+ addr) addr.

Definition with_LocalID (id : ServerID) (c : Config) : Config :=
  mkConfig (ProtocolVersion c) (HeartbeatTimeout c) (ElectionTimeout c) (CommitTimeout c)
    (MaxAppendEntries c) (BatchApplyCh c) (ShutdownOnRemove c) (TrailingLogs c)
    (SnapshotInterval c) (SnapshotThreshold c) (LeaderLeaseTimeout c) id (LogLevel c)
    (NoSnapshotRestoreOnStart c) (PreVoteDisabled c) (NoLegacyTelemetry c) (skipStartup c).

(** One server; an [InmemStore] is both of its stores, which use different fields of it,
    without the wrapper that [MonotonicLogs] asks for.  The transport in memory has
    [RequestPreVote]. *)
Definition make_server (cf : Config) (bootstrap : bool) (configuration : Configuration)
    (server : Server) (snap : SN) (fsm : F) : outcome (raft * F) (option error) :=
  let peerConf := with_LocalID (ID server) cf in
  let s := mkStores NewInmemStore NewInmemStore snap in
  let fail err s := Done (Some err) (new_struct peerConf (Address server) true s, fsm) in
  if bootstrap then
    match BootstrapCluster peerConf configuration s with
    | Done (Some err) s => fail err s
    | Done None s => NewRaft peerConf (Address server) true s fsm
    | Panicked s => Panicked (new_struct peerConf (Address server) true s, fsm)
    end
  else NewRaft peerConf (Address server) true s fsm.

(** The servers in order; [None] fails the test.  Each peer comes with the address that
    its transport generates, its snapshot store and its state machine. *)
Fixpoint make_servers (cf : Config) (bootstrap : bool) (configuration : Configuration)
    (peers : list (ServerAddress * SN * F)) : option (list raft) :=
  match peers with
  | [] => Some []
  | (addr, snap, fsm) :: peers =>
      match make_server cf bootstrap configuration (cluster_server cf addr) snap fsm with
      | Done None (r, _) => cons r <$> make_servers cf bootstrap configuration peers
      | _ => None
      end
  end.

Definition makeCluster (cf : Config) (bootstrap : bool) (peers : list (ServerAddress * SN * F))
    : option (list raft * transports) :=
  let addrs := (fun p : ServerAddress * SN * F => p.1.1) <$> peers in
  let configuration := mkConfiguration (cluster_server cf <$> addrs) in
  let trans := FullyConnect ((fun addr => (NewInmemTransport addr "").2) <$> addrs) in
  (fun rafts => (rafts, trans)) <$> make_servers cf bootstrap configuration peers.
End MakeCluster.

(** ** Facts: wiring *)

Implicit Types ts : transports.


Definition connected (i : nat) (a : ServerAddress) (ts : transports) : Prop :=
  exists t, ts !! i = Some t /\ it_peers t !! a = Some a.

Lemma alter_Connect_addrs a (k : nat) ts :
  it_localAddr <$> alter (inmem_Connect a a) k ts = it_localAddr <$> ts.
Proof.
  apply list_eq. intros i. rewrite !list_lookup_fmap. destruct (decide (k = i)) as [->|Hne].
  - rewrite list_lookup_alter_eq. by destruct (ts !! i).
  - by rewrite list_lookup_alter_ne.
Qed.

Lemma connect_pair_addrs i j ts : it_localAddr <$> connect_pair i j ts = it_localAddr <$> ts.
Proof.
  unfold connect_pair. destruct (ts !! i) as [t1|], (ts !! j) as [t2|]; try done.
  by rewrite !alter_Connect_addrs.
Qed.

Lemma alter_Connect_connected i a k b ts :
  connected i a ts -> connected i a (alter (inmem_Connect b b) k ts).
Proof.
  intros (t & Ht & Hp). destruct (decide (k = i)) as [->|Hne].
  - exists (inmem_Connect b b t). rewrite list_lookup_alter_eq, Ht. split; [done|]. simpl.
    destruct (decide (a = b)) as [->|Hab]; [by rewrite lookup_insert_eq|by rewrite lookup_insert_ne].
  - exists t. by rewrite list_lookup_alter_ne.
Qed.

Lemma connect_pair_keeps i a k l ts : connected i a ts -> connected i a (connect_pair k l ts).
Proof.
  intros Hc. unfold connect_pair. destruct (ts !! k), (ts !! l); try done.
  by apply alter_Connect_connected, alter_Connect_connected.
Qed.

Lemma connect_pair_connects i j t u ts :
  i <> j -> ts !! i = Some t -> ts !! j = Some u ->
  connected i (it_localAddr u) (connect_pair i j ts).
Proof.
  intros Hne Hi Hj. unfold connect_pair. rewrite Hi, Hj. apply alter_Connect_connected.
  exists (inmem_Connect (it_localAddr u) (it_localAddr u) t). rewrite list_lookup_alter_eq, Hi.
  split; [done|]. simpl. by rewrite lookup_insert_eq.
Qed.

Lemma elem_of_index_pairs n i j : (i, j) ∈ index_pairs n <-> (i < n)%nat /\ (j < n)%nat /\ i <> j.
Proof.
  unfold index_pairs. rewrite list_elem_of_filter, list_elem_of_bind. simpl.
  split.
  - intros (Hne & k & (l & Hin & Hl)%list_elem_of_bind & Hk).
    apply list_elem_of_singleton in Hin as [= -> ->]. rewrite elem_of_seq in *. lia.
  - intros (Hi & Hj & Hne). split; [done|]. exists i. split; [|apply elem_of_seq; lia].
    apply list_elem_of_bind. exists j. split; [by apply list_elem_of_singleton|apply elem_of_seq; lia].
Qed.

Lemma fold_connect_keeps ps i a ts :
  connected i a ts -> connected i a (foldl (fun ts p => connect_pair p.1 p.2 ts) ts ps).
Proof.
  revert ts. induction ps as [|p ps IH]; intros ts Hc; [done|]. simpl. apply IH.
  by apply connect_pair_keeps.
Qed.

Lemma fold_connect_addrs ps ts :
  it_localAddr <$> foldl (fun ts p => connect_pair p.1 p.2 ts) ts ps = it_localAddr <$> ts.
Proof.
  revert ts. induction ps as [|p ps IH]; intros ts; [done|]. simpl. by rewrite IH, connect_pair_addrs.
Qed.

Lemma fold_connect_connects ps i j ts u :
  (i, j) ∈ ps -> i <> j -> is_Some (ts !! i) -> (it_localAddr <$> ts) !! j = Some u ->
  connected i u (foldl (fun ts p => connect_pair p.1 p.2 ts) ts ps).
Proof.
  revert ts. induction ps as [|p ps IH]; intros ts Hin Hne Hi Hj; [by apply elem_of_nil in Hin|].
  apply elem_of_cons in Hin as [<-|Hin]; simpl.
  - apply fold_connect_keeps. destruct Hi as [t Ht]. rewrite list_lookup_fmap in Hj.
    destruct (ts !! j) as [t2|] eqn:Ht2; [|done]. injection Hj as <-. by eapply connect_pair_connects.
  - apply IH; try done.
    + apply lookup_lt_is_Some. apply lookup_lt_is_Some in Hi.
      rewrite <- (length_fmap it_localAddr), connect_pair_addrs, length_fmap. done.
    + by rewrite connect_pair_addrs.
Qed.

(** [FullyConnect] connects every transport to every other one, under its address, and
    changes no address. *)
Theorem FullyConnect_spec ts :
  it_localAddr <$> FullyConnect ts = it_localAddr <$> ts /\
  forall i j a, i <> j -> (i < length ts)%nat -> (it_localAddr <$> ts) !! j = Some a ->
    connected i a (FullyConnect ts).
Proof.
  split; [apply fold_connect_addrs|]. intros i j a Hne Hi Hj.
  assert (j < length ts)%nat as Hlt. { apply lookup_lt_Some in Hj. by rewrite length_fmap in Hj. }
  apply (fold_connect_connects _ i j); try done; [by apply elem_of_index_pairs|].
  by apply lookup_lt_is_Some.
Qed.

(** ** Facts: partitions *)

(** A transport without nil pipelines. *)
Definition tidy (t : InmemTransport) : Prop := forall s, s ∈ it_pipelines t -> s <> None.

(** The transport after it was cut off from the addresses in [cut]. *)
Record cut_off (cut : list ServerAddress) (t t' : InmemTransport) : Prop := {
  co_addr : it_localAddr t' = it_localAddr t;
  co_peers a : it_peers t' !! a = if decide (a ∈ cut) then None else it_peers t !! a;
  co_pipelines s : s ∈ it_pipelines t' -> s ∈ it_pipelines t /\
    forall a, a ∈ cut -> addr_of (it_heap t) s <> Some a;
  co_heap s : addr_of (it_heap t') s = addr_of (it_heap t) s
}.

Lemma Disconnect_addr a t t' : inmem_Disconnect a t = Done tt t' -> it_localAddr t' = it_localAddr t.
Proof.
  assert (forall fuel idx n u, match disconnect_loop fuel a idx n u with
    | Done _ u' => it_localAddr u' = it_localAddr u | Panicked _ => True end) as Hloop.
  { intros fuel. induction fuel as [|fuel IH]; intros idx n u; [done|].
    cbn [disconnect_loop]. unfold bind, get_state. destruct (it_pipelines u !! idx) as [[p|]|]; try done.
    case_decide; [|apply IH]. unfold pipeline_Close, modify.
    match goal with |- context [disconnect_loop fuel a idx ?m ?v] => specialize (IH idx m v) end.
    by destruct (disconnect_loop _ _ _ _ _). }
  unfold inmem_Disconnect, bind, modify, get_state. intros HE.
  match type of HE with context [disconnect_loop ?f ?p ?i ?n ?v] => specialize (Hloop f i n v) end.
  destruct (disconnect_loop _ _ _ _ _); [|done]. injection HE as <-. done.
Qed.

Lemma Disconnect_cut a t : tidy t -> exists t', inmem_Disconnect a t = Done tt t' /\ tidy t' /\ cut_off [a] t t'.
Proof.
  intros Ht. destruct (inmem_Disconnect_spec a t Ht) as (t' & HD & Hp & Hl & Hc). exists t'.
  split; [done|]. assert (forall s, s ∈ it_pipelines t' -> s ∈ it_pipelines t /\ addr_of (it_heap t) s <> Some a) as Hs.
  { intros s Hs. rewrite Hl in Hs. apply list_elem_of_filter in Hs as []. done. }
  split; [intros s [Hin _]%Hs; by apply Ht|]. split.
  - by eapply Disconnect_addr.
  - intros b. rewrite Hp. case_decide as Hb.
    + apply list_elem_of_singleton in Hb as ->. apply lookup_delete_eq.
    + rewrite lookup_delete_ne; [done|]. intros ->. apply Hb. by left.
  - intros s [Hin Hne]%Hs. split; [done|]. by intros b ->%list_elem_of_singleton.
  - intros s. by eapply addr_of_closed.
Qed.

Lemma cut_off_app cut cut' t t1 t2 :
  cut_off cut t t1 -> cut_off cut' t1 t2 -> cut_off (cut ++ cut') t t2.
Proof.
  intros [A1 P1 L1 H1] [A2 P2 L2 H2]. split.
  - congruence.
  - intros a. rewrite P2, P1. repeat case_decide; set_solver.
  - intros s [[Hin Hn1]%L1 Hn2]%L2. split; [done|]. intros a [Ha|Ha]%elem_of_app; [auto|].
    rewrite <- H1. auto.
  - intros s. by rewrite H2, H1.
Qed.

Lemma disconnect_each_cut l t :
  tidy t -> exists t', disconnect_each l t = Done tt t' /\ tidy t' /\ cut_off l t t'.
Proof.
  revert t. induction l as [|a l IH]; intros t Ht.
  - exists t. split; [done|]. split; [done|]. split; try done. intros s Hs. split; [done|set_solver].
  - destruct (Disconnect_cut a t Ht) as (t1 & HD & Ht1 & Hc1).
    destruct (IH t1 Ht1) as (t2 & HD2 & Ht2 & Hc2). exists t2.
    cbn [disconnect_each]. unfold bind. rewrite HD. split; [done|]. split; [done|].
    by apply (cut_off_app [a] l t t1 t2).
Qed.

Lemma each_transport_spec f (R : InmemTransport -> InmemTransport -> Prop) ts :
  (forall t, t ∈ ts -> exists t', f t t = Done tt t' /\ R t t') ->
  exists ts', each_transport f ts = Some ts' /\ Forall2 R ts ts'.
Proof.
  induction ts as [|t ts IH]; intros Hf; [by exists []|].
  destruct (Hf t) as (t' & Ht & HR); [by left|].
  destruct IH as (ts' & HE & HF); [intros u Hu; apply Hf; by right|].
  exists (t' :: ts'). simpl. rewrite Ht, HE. split; [done|by constructor].
Qed.

(** [Partition] cuts every transport off from the other side, and from nobody else: a
    transport that is not listed from the listed addresses, a listed one from the
    addresses of those that are not, with no pipeline to them left. *)
Theorem Partition_spec far ts :
  Forall tidy ts ->
  exists ts', Partition far ts = Some ts' /\
    Forall2 (fun t t' =>
      cut_off (if decide (it_localAddr t ∈ far) then near_side far ts else far) t t') ts ts'.
Proof.
  intros Hall. apply each_transport_spec. intros t Hin.
  assert (tidy t) as Ht by (by eapply Forall_forall in Hall).
  replace (if decide (it_localAddr t ∈ near_side far ts) then far else near_side far ts)
    with (if decide (it_localAddr t ∈ far) then near_side far ts else far).
  - destruct (disconnect_each_cut (if decide (it_localAddr t ∈ far) then near_side far ts else far)
      t Ht) as (t' & HD & _ & Hc). by exists t'.
  - unfold near_side. repeat case_decide; try done.
    + by apply list_elem_of_filter in H0 as [].
    + destruct H0. apply list_elem_of_filter. split; [done|]. by apply list_elem_of_fmap_2.
Qed.

(** In a cluster that was fully connected and then partitioned, two different servers are
    connected exactly if they are on the same side. *)
Theorem Partition_FullyConnect far ts ts' i j t a :
  Forall tidy (FullyConnect ts) -> Partition far (FullyConnect ts) = Some ts' ->
  i <> j -> ts' !! i = Some t -> (it_localAddr <$> ts) !! j = Some a ->
  it_peers t !! a = Some a <-> (it_localAddr t ∈ far <-> a ∈ far).
Proof.
  intros Hall HP Hne Hi Hj. destruct (Partition_spec far _ Hall) as (ts2 & HP2 & HF).
  rewrite HP in HP2. injection HP2 as <-. destruct (FullyConnect_spec ts) as [Haddr Hconn].
  destruct (Forall2_lookup_r _ _ _ _ _ HF Hi) as (t0 & Hi0 & [A P _ _]).
  assert (i < length ts)%nat as Hlt.
  { apply lookup_lt_Some in Hi0. by rewrite <- (length_fmap it_localAddr), Haddr, length_fmap in Hi0. }
  destruct (Hconn i j a Hne Hlt Hj) as (t1 & Hi1 & Hp). rewrite Hi0 in Hi1. injection Hi1 as <-.
  assert (a ∈ near_side far (FullyConnect ts) <-> a ∉ far) as Hnear.
  { unfold near_side. rewrite list_elem_of_filter, Haddr. split; [by intros []|]. intros Hn.
    split; [done|]. by eapply list_elem_of_lookup_2. }
  rewrite P, A, Hp. destruct (decide (it_localAddr t0 ∈ far)) as [Hf|Hf]; case_decide as Hd.
  - split; [done|]. intros [Himp _]. by apply Hnear in Hd; destruct Hd; apply Himp.
  - split; [|done]. intros _. split; [|done]. intros _. destruct (decide (a ∈ far)); [done|].
    destruct Hd. by apply Hnear.
  - split; [done|]. intros [_ Himp]. by destruct Hf; apply Himp.
  - split; [|done]. intros _. by split.
Qed.

(** ** Facts: checks *)

Section ServersFacts.
Context {L K SN : Type}.
Abbreviation raft := (Raft L K SN).

(** [pollState] gives the servers in the state, and a term that some server has and none
    exceeds. *)
Lemma pollState_spec s (rafts : list raft) t :
  pollState s rafts t =
  (filter (fun r => state (raft_state r) = s) rafts,
   foldl N.max t ((fun r : raft => currentTerm (raft_state r)) <$> rafts)).
Proof.
  revert t. induction rafts as [|r rafts IH]; intros t; [done|].
  cbn [pollState]. cbv zeta. rewrite IH. cbn [fmap list_fmap foldl].
  replace (if decide (t < currentTerm (raft_state r))%N then currentTerm (raft_state r) else t)
    with (N.max t (currentTerm (raft_state r))) by (case_decide; lia).
  done.
Qed.

(** A server that was removed is gone, if servers have different identities. *)
Lemma cluster_RemoveServer_spec id (rafts : list raft) :
  NoDup (localID <$> rafts) ->
  cluster_RemoveServer id rafts = filter (fun r => localID r <> id) rafts.
Proof.
  induction rafts as [|r rafts IH]; intros Hnd; [done|]. cbn [cluster_RemoveServer].
  cbn [fmap list_fmap] in Hnd. apply NoDup_cons in Hnd as [Hni Hnd]. rewrite filter_cons.
  destruct (decide (localID r = id)) as [<-|Hne].
  - rewrite decide_False by (by intros Hx; apply Hx). symmetry. apply filter_every.
    intros r' Hr' HE. apply Hni. rewrite <- HE. by apply list_elem_of_fmap_2.
  - rewrite decide_True by done. by rewrite IH.
Qed.

Lemma EnsureLeader_spec expect (rafts : list raft) :
  EnsureLeader expect rafts = true <-> Forall (fun r => leaderAddr r = expect) rafts.
Proof.
  unfold EnsureLeader. rewrite negb_true_iff.
  assert (forall fail, foldl (fun fail r => if decide ((api_LeaderWithID r).1 <> expect) then true else fail)
    fail rafts = false <-> fail = false /\ Forall (fun r => leaderAddr r = expect) rafts) as Hgen.
  { induction rafts as [|r rafts IH]; intros fail; simpl; [naive_solver|]. rewrite IH, Forall_cons.
    unfold api_LeaderWithID. simpl. case_decide as Hd.
    - split; [by intros [? _]|]. by intros (_ & ? & _).
    - destruct (decide (leaderAddr r = expect)); [tauto|done]. }
  rewrite Hgen. naive_solver.
Qed.

(** [EnsureSamePeers] reads the configuration of the first server once.  A change of the
    membership that reaches every server after that fails the test, though at every pass
    all of the servers have the same configuration. *)
Lemma EnsureSamePeers_stale (old new : Configuration) (n k : nat) :
  old <> new -> (0 < k)%nat ->
  ensure_peers old (replicate n (replicate k new, false) ++ [(replicate k new, true)]) = Some false.
Proof.
  intros Hne Hk. assert (forallb (fun c => bool_decide (c = old)) (replicate k new) = false) as HF.
  { destruct k as [|k]; [lia|]. simpl. by rewrite bool_decide_false. }
  induction n as [|n IH]; cbn [replicate app ensure_peers]; by rewrite HF.
Qed.
End ServersFacts.

Lemma first_difference_None {A} `{EqDecision A} idx (l l' : list A) :
  length l = length l' -> first_difference idx l l' = None <-> l = l'.
Proof.
  revert idx l'. induction l as [|x l IH]; intros idx [|y l'] Hl; try done. simpl in *.
  case_decide as Hd; [|split; [done|by intros [=]]]. subst y. rewrite IH by lia. naive_solver.
Qed.

(** Two state machines pass the comparison exactly if they are equal. *)
Lemma compare_fsms_equal first fsm : compare_fsms first fsm = None <-> first = fsm.
Proof.
  destruct first as [ls cs], fsm as [ls' cs']. unfold compare_fsms. simpl. case_decide as Hl.
  { split; [done|]. by intros [= <- _]. }
  assert (length ls = length ls') as Hlen by lia.
  destruct (first_difference 0 ls ls') eqn:HD.
  { split; [done|]. intros [= <- _]. by rewrite (proj2 (first_difference_None 0 ls ls Hlen)) in HD. }
  apply first_difference_None in HD; [|done]. subst ls'. case_decide as Hc.
  { split; [done|]. by intros [= <-]. }
  rewrite fmap_None, first_difference_None by lia. naive_solver.
Qed.

Lemma ensure_pass_same first fsms : ensure_pass first fsms = None <-> Forall (eq first) fsms.
Proof.
  induction fsms as [|f fsms IH]; [done|]. simpl. rewrite Forall_cons, <- IH, <- compare_fsms_equal.
  destruct (compare_fsms first f); naive_solver.
Qed.

(** [EnsureSame] lets a test go on exactly if at some pass, and before the limit, all of
    the state machines were the same, and fails it only at a pass after the limit at
    which they were not. *)
Theorem EnsureSame_spec passes res :
  EnsureSame passes = Some res ->
  exists before first fsms past after, passes = before ++ (first, fsms, past) :: after /\
    Forall (fun p => p.2 = false /\ ~ Forall (eq p.1.1) p.1.2) before /\
    (res = None <-> Forall (eq first) fsms) /\ (res <> None -> past = true).
Proof.
  induction passes as [|[[first fsms] past] passes IH]; [done|]. cbn [EnsureSame].
  destruct (ensure_pass first fsms) as [m|] eqn:HP.
  - assert (~ Forall (eq first) fsms) as Hno by (rewrite <- ensure_pass_same; congruence).
    destruct past.
    + intros [= <-]. exists [], first, fsms, true, passes. by split_and!.
    + intros (bf & f1 & fs1 & p1 & af & -> & HB & HR)%IH.
      exists ((first, fsms, false) :: bf), f1, fs1, p1, af. split; [done|]. split; [by constructor|done].
  - intros [= <-]. apply ensure_pass_same in HP. exists [], first, fsms, past, passes.
    by split_and!.
Qed.

(** A timeout of 0 does not wait: [context.WithTimeout] has expired at once. *)
Lemma WaitEvent_zero filter obs : Forall (fun p => 0 <= p.1)%Z obs -> WaitEvent filter 0 obs = 0%Z.
Proof. destruct obs as [|[t o] obs]; [done|]. intros [Ht _]%Forall_cons. simpl in *. by rewrite decide_True. Qed.

(** ** Facts: making a cluster *)

Section MakeClusterFacts.
Context {SN F : Type} `{!SnapshotStore SN} `{!FSM F SN} `{!MsgPack} `{!MsgPackLaws} `{!PeerCodec}.

Lemma cluster_configuration_valid cf (addrs : list ServerAddress) :
  NoDup addrs -> Forall (fun a => a <> "") addrs -> addrs <> [] ->
  checkConfiguration (mkConfiguration (cluster_server cf <$> addrs)) = None.
Proof.
  intros Hnd Hne Hnil. unfold checkConfiguration. simpl.
  rewrite checkConfiguration_loop_ok.
  - rewrite length_filter_fmap. rewrite filter_every by done. rewrite decide_False; [done|].
    destruct addrs; [done|]. simpl. lia.
  - apply Forall_fmap. eapply Forall_impl; [exact Hne|]. intros a Ha. simpl.
    split_and!; [|done|set_solver|set_solver]. by case_decide.
  - rewrite <- list_fmap_compose. unfold compose. simpl. case_decide; [by rewrite list_fmap_id|].
    apply NoDup_fmap_2; [|done]. intros a b [=]. done.
  - rewrite <- list_fmap_compose. unfold compose. simpl. by rewrite list_fmap_id.
Qed.
Lemma fresh_inmem (snap : SN) :
  List_ snap = Ok [] -> fresh (mkStores NewInmemStore NewInmemStore snap).
Proof. intros HL. by split. Qed.

Lemma make_server_bootstrapped cf c server snap (fsm : F) :
  ValidateConfig (with_LocalID (ID server) cf) = None -> (3 <= ProtocolVersion cf)%Z ->
  checkConfiguration c = None -> List_ snap = Ok [] ->
  exists s k, make_server cf true c server snap fsm =
    Done None (bootstrapped_raft (with_LocalID (ID server) cf) (Address server) true c s k, fsm).
Proof.
  intros HV Hv HC HL. set (cf' := with_LocalID (ID server) cf) in *.
  set (s0 := mkStores NewInmemStore NewInmemStore snap : Stores InmemStore InmemStore SN).
  assert (fresh s0) as Hf by (by apply fresh_inmem).
  assert (exists s', BootstrapCluster cf' c s0 = Done None s') as [s' HB].
  { unfold BootstrapCluster. rewrite HV, HC, (fresh_state _ Hf). cbn [SetUint64].
    unfold bootstrap_entry. rewrite decide_False by (unfold cf'; simpl; lia).
    unfold EncodeConfiguration. destruct (encode_configuration_total c) as [b ->]. by eexists. }
  destruct (BootstrapCluster_Done _ _ _ _ HB Hv (fresh_ok _ Hf)) as (_ & _ & _ & Hb & _ & _).
  destruct (inmem_healthy (st_stable s') keyCurrentTerm 1) as [k Hk]. exists s', k.
  unfold make_server. fold cf' s0. rewrite HB. by apply NewRaft_bootstrapped.
Qed.

(** A follower of term 1 at an address, with a configuration. *)
Definition started (c : Configuration) (a : ServerAddress) (r : Raft InmemStore InmemStore SN) : Prop :=
  localAddr r = a /\ localID r = "server-" +:+ a /\ api_State r = Follower /\
  api_CurrentTerm r = 1%N /\ getLatestConfiguration r = c.

Lemma make_servers_bootstrapped cf c (peers : list (ServerAddress * SN * F)) :
  (forall id, id <> "" -> ValidateConfig (with_LocalID id cf) = None) ->
  (3 <= ProtocolVersion cf)%Z -> checkConfiguration c = None ->
  Forall (fun p => List_ p.1.2 = Ok []) peers ->
  exists rafts, make_servers cf true c peers = Some rafts /\
    Forall2 (started c) ((fun p : ServerAddress * SN * F => p.1.1) <$> peers) rafts.
Proof.
  intros HV Hv HC HL. induction peers as [|[[a sn] fs] peers IH]; [exists []; split; [done|constructor]|].
  apply Forall_cons in HL as [HL1 HL]. destruct (IH HL) as (rafts & HM & HF).
  assert (ID (cluster_server cf a) = "server-" +:+ a) as Hid by (simpl; by rewrite decide_False by lia).
  destruct (make_server_bootstrapped cf c (cluster_server cf a) sn fs) as (s & k & HS); try done.
  { apply HV. by rewrite Hid. }
  eexists (_ :: rafts). cbn [make_servers]. rewrite HS, HM. split; [done|].
  cbn [fmap list_fmap fst]. constructor; [|done]. unfold started. by split_and!.
Qed.

(** A cluster that is made with [Bootstrap]: for any number of peers with different
    addresses every server starts, as a follower of term 1 whose latest configuration is
    the one of all the peers as voters, and the transports are fully connected. *)
Theorem makeCluster_bootstrapped cf (peers : list (ServerAddress * SN * F)) :
  let addrs := (fun p : ServerAddress * SN * F => p.1.1) <$> peers in
  let configuration := mkConfiguration (cluster_server cf <$> addrs) in
  (forall id, id <> "" -> ValidateConfig (with_LocalID id cf) = None) ->
  (3 <= ProtocolVersion cf)%Z -> NoDup addrs -> Forall (fun a => a <> "") addrs ->
  Forall (fun p => List_ p.1.2 = Ok []) peers ->
  exists rafts ts, makeCluster cf true peers = Some (rafts, ts) /\
    Forall2 (started configuration) addrs rafts /\
    it_localAddr <$> ts = addrs /\
    (forall i j a, i <> j -> (i < length addrs)%nat -> addrs !! j = Some a -> connected i a ts).
Proof.
  intros addrs c HV Hv Hnd Hne HL.
  set (ts0 := (fun addr => (NewInmemTransport addr "").2) <$> addrs).
  assert (it_localAddr <$> ts0 = addrs) as Hts0.
  { unfold ts0. rewrite <- list_fmap_compose. apply list_fmap_id. }
  assert (length ts0 = length addrs) as Hlen by (unfold ts0; by rewrite length_fmap).
  destruct (FullyConnect_spec ts0) as [Haddr Hconn]. rewrite Hts0 in Haddr, Hconn. rewrite Hlen in Hconn.
  assert (addrs = [] \/ checkConfiguration c = None) as HC.
  { destruct addrs eqn:HA; [by left|]. right. rewrite <- HA in *. apply cluster_configuration_valid; congruence || done. }
  assert (exists rafts, make_servers cf true c peers = Some rafts /\
    Forall2 (started c) addrs rafts) as (rafts & HM & HF).
  { destruct HC as [HC|HC]; [|by apply make_servers_bootstrapped].
    exists []. unfold addrs in *. destruct peers; [|done]. split; [done|constructor]. }
  exists rafts, (FullyConnect ts0). unfold makeCluster. fold addrs c ts0. rewrite HM. by split_and!.
Qed.
End MakeClusterFacts.

(** The configuration that tests use is valid for any server. *)
Lemma inmemConfig_valid id : id <> "" -> ValidateConfig (with_LocalID id inmemConfig) = None.
Proof.
  intros Hid. unfold ValidateConfig, inmemConfig, with_LocalID, DefaultConfig. cbv zeta.
  cbn [ProtocolVersion LocalID HeartbeatTimeout ElectionTimeout CommitTimeout MaxAppendEntries
    SnapshotInterval LeaderLeaseTimeout].
  rewrite (decide_True (P := ProtocolVersionMin = 0%Z)) by done.
  repeat (rewrite decide_False by (first [done | unfold ProtocolVersionMin, ProtocolVersionMax, Millisecond, Second; lia])).
  done.
Qed.
