(* ===== verification/Fuzzy.v ===== *)
(** * The fuzz tests, [fuzzy/]

    The state machine of the fuzz tests with its running hash and its snapshots, the
    verifier that watches append requests for two leaders of a term, the transport with
    its hooks, and the checks that are made on the logs and state machines of a cluster. *)
From Stdlib Require Import Ascii.
From stdpp Require Import relations.
From S2P Require Import Prelude Types Util Codec Configuration Config Stores State Elections AppendEntries SnapshotStores Snapshot Fsm Replication Leader Api Server Cluster.

(** ** [fuzzy/fsm.go] *)

(** Adler-32: the two sums over the bytes. *)
Fixpoint adler_sums (s : string) (a b : N) : N * N :=
  match s with
  | EmptyString => (a, b)
  | String c s =>
      let a := ((a + N_of_ascii c) `mod` 65521)%N in adler_sums s a ((b + a) `mod` 65521)%N
  end.

(** Bytes of a number, the least significant one first, and the number again. *)
Fixpoint le_bytes (k : nat) (n : N) : string :=
  match k with
  | O => ""
  | S k => String (ascii_of_N (n `mod` 256)) (le_bytes k (n `div` 256))
  end.

Fixpoint of_le (s : string) : N :=
  match s with
  | EmptyString => 0
  | String c s => N_of_ascii c + 256 * of_le s
  end.

(** [hasher.Sum(nil)], the most significant byte first. *)
Definition adler32_Sum (s : string) : string :=
  let '(a, b) := adler_sums s 1 0 in
  String (ascii_of_N (b `div` 256)) (String (ascii_of_N (b `mod` 256))
    (String (ascii_of_N (a `div` 256)) (String (ascii_of_N (a `mod` 256)) ""))).

Definition adler32_Size : nat := 4.

Definition logHash_Add (lastHash d : string) : string := adler32_Sum (lastHash +:+ d).

Record applyItem := mkApplyItem {
  ap_index : N;
  ap_term : N;
  ap_data : string
}.

Record fuzzyFSM := mkFuzzyFSM {
  ff_lastHash : string;
  ff_lastTerm : N;
  ff_lastIndex : N;
  ff_applied : list applyItem
}.

(** [Apply]; [None] is its panic. *)
Definition fuzzy_Apply (f : fuzzyFSM) (l : Log) : option fuzzyFSM :=
  if decide (log_Index l <= ff_lastIndex f)%N then None
  else if decide (log_Term l < ff_lastTerm f)%N then None
  else Some (mkFuzzyFSM (logHash_Add (ff_lastHash f) (log_Data l)) (log_Term l) (log_Index l)
               (ff_applied f ++ [mkApplyItem (log_Index l) (log_Term l) (log_Data l)])).

(** [ApplyBatch]; its responses are nil. *)
Fixpoint fuzzy_ApplyBatch (f : fuzzyFSM) (logs : list Log) : option fuzzyFSM :=
  match logs with
  | [] => Some f
  | l :: logs => f ← fuzzy_Apply f l; fuzzy_ApplyBatch f logs
  end.

Definition io_EOF : error := Errorf "EOF".
Definition io_ErrUnexpectedEOF : error := Errorf "unexpected EOF".

Section FuzzySnapshot.
Context {SN : Type} `{SnapshotStore SN}.

Definition fuzzy_Persist (f : fuzzyFSM) (sink : SnapshotSink) : M SN (option error) := (
  n <- sink_Write sink (le_bytes 8 (ff_lastTerm f));;
  match n with
  | Err err => returns (Some err)
  | Ok _ =>
      n <- sink_Write sink (le_bytes 8 (ff_lastIndex f));;
      match n with
      | Err err => returns (Some err)
      | Ok _ =>
          n <- sink_Write sink (ff_lastHash f);;
          returns (match n with Err err => Some err | Ok _ => None end)
      end
  end)%go.
End FuzzySnapshot.

(** [binary.Read] of a [uint64]: the number and what is left of the stream. *)
Definition binary_Read (s : string) : result (N * string) :=
  if decide (s = "") then Err io_EOF
  else if decide (String.length s < 8)%nat then Err io_ErrUnexpectedEOF
  else Ok (of_le (string_take 8 s), string_drop 8 s).

Fixpoint zero_bytes (n : nat) : string :=
  match n with O => "" | S n => String (ascii_of_N 0) (zero_bytes n) end.

(** The one call of [Read] for the hash: at most [chunk] bytes are delivered. *)
Definition read_hash (chunk : nat) (s : string) : string * option error :=
  if decide (s = "") then (zero_bytes adler32_Size, Some io_EOF)
  else
    let got := string_take (Nat.min chunk adler32_Size) s in
    (got +:+ zero_bytes (adler32_Size - String.length got), None).

(** [Restore] from a reader that holds [s]. *)
Definition fuzzy_Restore (chunk : nat) (f : fuzzyFSM) (s : string) : fuzzyFSM * option error :=
  match binary_Read s with
  | Err err => (f, Some err)
  | Ok (term, s) =>
      let f := mkFuzzyFSM (ff_lastHash f) term (ff_lastIndex f) (ff_applied f) in
      match binary_Read s with
      | Err err => (f, Some err)
      | Ok (index, s) =>
          let '(hash, err) := read_hash chunk s in
          (mkFuzzyFSM hash term index (ff_applied f), err)
      end
  end.

(** ** [fuzzy/verifier.go] *)

(** A call of [PreAppendEntries] that has read [leaderForTerm] and waits for the lock: to
    report another leader, or to enter its own. *)
Inductive verifierCall :=
  | vc_report (term : N) (ldr : string)
  | vc_enter (term : N) (ldr : string).

(** [vf_locked] is a call that holds the lock and waits for itself; [vf_seen] are the
    terms and leaders of the calls so far. *)
Record appendEntriesVerifier := mkVerifier {
  vf_leaderForTerm : gmap N string;
  vf_errors : nat;
  vf_locked : bool;
  vf_calls : list verifierCall;
  vf_seen : list (N * string)
}.

Definition verifier_Init : appendEntriesVerifier := mkVerifier ∅ 0 false [] [].

(** The leader that a request names. *)
Definition request_leader (req : AppendEntriesRequest) : string :=
  if decide (0 < String.length (hdr_Addr (ae_Header req)))%nat then hdr_Addr (ae_Header req)
  else ae_Leader req.

(** The call up to and including its read under the lock.  A request that names another
    leader than its sender is recorded under the write lock, which is still held at the
    read. *)
Definition PreAppendEntries (src : string) (req : AppendEntriesRequest) (v : appendEntriesVerifier)
    : appendEntriesVerifier :=
  let term := ae_Term req in
  let ldr := request_leader req in
  let seen := vf_seen v ++ [(term, ldr)] in
  if decide (ldr <> src) then
    mkVerifier (vf_leaderForTerm v) (S (vf_errors v)) true (vf_calls v) seen
  else
    let calls :=
      match vf_leaderForTerm v !! term with
      | Some tl => if decide (tl <> ldr) then vf_calls v ++ [vc_report term ldr] else vf_calls v
      | None => vf_calls v ++ [vc_enter term ldr]
      end in
    mkVerifier (vf_leaderForTerm v) (vf_errors v) false calls seen.

(** The rest of the call, under the lock. *)
Definition verifier_finish (c : verifierCall) (calls : list verifierCall)
    (v : appendEntriesVerifier) : appendEntriesVerifier :=
  match c with
  | vc_report _ _ =>
      mkVerifier (vf_leaderForTerm v) (S (vf_errors v)) false calls (vf_seen v)
  | vc_enter term ldr =>
      match vf_leaderForTerm v !! term with
      | Some tl =>
          mkVerifier (vf_leaderForTerm v) (if decide (tl <> ldr) then S (vf_errors v) else vf_errors v)
            false calls (vf_seen v)
      | None =>
          mkVerifier (<[term := ldr]> (vf_leaderForTerm v)) (vf_errors v) false calls (vf_seen v)
      end
  end.

(** The calls of the transports, interleaved; each needs the lock. *)
Inductive verifier_step : appendEntriesVerifier -> appendEntriesVerifier -> Prop :=
  | vs_begin src req v :
      vf_locked v = false -> verifier_step v (PreAppendEntries src req v)
  | vs_finish c before after v :
      vf_locked v = false -> vf_calls v = before ++ c :: after ->
      verifier_step v (verifier_finish c (before ++ after) v).

(** ** [fuzzy/transport.go] *)

Record TransportHooks := mkTransportHooks {
  PreRPC : string -> string -> Command -> option error;
  PostRPC : string -> string -> Command -> option Reply * option error -> option error;
  PreRequestVote : string -> string -> RequestVoteRequest ->
    option RequestVoteResponse * option error;
  PreAppendEntriesHook : string -> string -> AppendEntriesRequest ->
    option AppendEntriesResponse * option error
}.

(** What a hook gives in place of the answer of the target. *)
Definition hook_result {A} (reply : A -> Reply) (h : option A * option error)
    : option (option Reply * option error) :=
  match h with
  | (None, None) => None
  | (hr, err) => Some (reply <$> hr, err)
  end.

Section SendRPC.
(** The third-party codec encodes a request, and decodes it into one of the same type;
    [serve] is what the target does with a command.  The copy of the answer, whose errors
    are not looked at, is the answer. *)
Context (encode : Command -> result string).
Context (decode : Command -> string -> result Command).
Context (serve : Command -> option Reply * option error).

(** The command that is handed over: of an unexpected type, none at all. *)
Definition rpc_Command (req : Command) : result Command :=
  match encode req with
  | Err err => Err err
  | Ok buff =>
      match req with
      | cmd_TimeoutNow _ | cmd_RequestVote _ | cmd_AppendEntries _ => decode req buff
      | _ => Ok (cmd_Other None)
      end
  end.

Definition fuzzy_sendRPC (known : bool) (hooks : option TransportHooks) (node target : string)
    (req : Command) : option Reply * option error :=
  if negb known then (None, Some (Errorf ("unknown target host " +:+ target)))
  else
    match rpc_Command req with
    | Err err => (None, Some err)
    | Ok rpc =>
        match hooks with
        | None => serve rpc
        | Some h =>
            match PreRPC h node target rpc with
            | Some err => (None, Some err)
            | None =>
                let hooked :=
                  match rpc with
                  | cmd_RequestVote rv => hook_result reply_RequestVote (PreRequestVote h node target rv)
                  | cmd_AppendEntries a =>
                      hook_result reply_AppendEntries (PreAppendEntriesHook h node target a)
                  | _ => None
                  end in
                let result := default (serve rpc) hooked in
                match PostRPC h node target rpc result with
                | Some err => (result.1, Some err)
                | None => result
                end
            end
        end
    end.
End SendRPC.

Definition fuzzy_firstIndex (a : AppendEntriesRequest) : N :=
  match ae_Entries a with [] => 0 | l :: _ => log_Index l end.

Definition fuzzy_lastIndex (a : AppendEntriesRequest) : N :=
  match last (ae_Entries a) with None => 0 | Some l => log_Index l end.

(** ** [fuzzy/cluster.go] *)

(** Nodes are their positions in the cluster. *)
Definition containsNode (nodes : list nat) (n : nat) : bool := bool_decide (n ∈ nodes).

Fixpoint leader_plus (n : nat) (nodes r : list nat) : list nat :=
  match nodes with
  | [] => r
  | node :: nodes =>
      if containsNode r node then leader_plus n nodes r
      else
        let r := r ++ [node] in
        if decide (n <= length r)%nat then r else leader_plus n nodes r
  end.

Definition LeaderPlus (n : nat) (ldr : option nat) (nodes : list nat) : list nat :=
  let r := option_list ldr in
  if decide (n <= length r)%nat then r else leader_plus n nodes r.

(** One pass of [WaitTilUptoDate]: whether all nodes are at the index, and the index. *)
Fixpoint uptodate_pass (idx : N) (applied : list N) : bool * N :=
  match applied with
  | [] => (true, idx)
  | a :: applied =>
      if decide (a < idx)%N then (false, idx)
      else if decide (idx < a)%N then (false, a)
      else uptodate_pass idx applied
  end.

(** The passes, with the applied indexes of the nodes and whether the wait is over. *)
Fixpoint WaitTilUptoDate (idx : N) (passes : list (list N * bool)) : option (bool * N) :=
  match passes with
  | [] => None
  | (applied, over) :: passes =>
      match uptodate_pass idx applied with
      | (true, idx) => Some (true, idx)
      | (false, idx) => if (over : bool) then Some (false, idx) else WaitTilUptoDate idx passes
      end
  end.

(** What the cluster keeps of the futures: the index of the last one that succeeded, the
    error of the last one that failed, and what was applied. *)
Record applies := mkApplies {
  lastApplySuccess : option N;
  lastApplyFailure : option error;
  cl_applied : list (N * string)
}.

(** [checkApplyFutures], with the outcome of each future and its data. *)
Fixpoint checkApplyFutures (futures : list (result N * string)) (success : N) (c : applies)
    : N * applies :=
  match futures with
  | [] => (success, c)
  | (Ok index, data) :: futures =>
      checkApplyFutures futures (u64_add success 1)
        (mkApplies (Some index) (lastApplyFailure c) (cl_applied c ++ [(index, data)]))
  | (Err err, _) :: futures =>
      checkApplyFutures futures success (mkApplies (lastApplySuccess c) (Some err) (cl_applied c))
  end.

(** What the checks report: the node and what is wrong. *)
Inductive report :=
  | rp_lastIndex | rp_lastTerm | rp_lastHash
  | rp_firstIndexError | rp_firstIndex | rp_lastIndexError | rp_logLastIndex | rp_count
  | rp_first_entry (i : N) | rp_entry (i : N) | rp_index (i : N) | rp_term (i : N)
  | rp_mismatch (i : N) | rp_fetch (i : N) | rp_applied (i : N).

Definition verify_node (exp f : fuzzyFSM) : list report :=
  (if decide (ff_lastIndex exp <> ff_lastIndex f) then [rp_lastIndex] else []) ++
  (if decide (ff_lastTerm exp <> ff_lastTerm f) then [rp_lastTerm] else []) ++
  (if decide (ff_lastHash exp <> ff_lastHash f) then [rp_lastHash] else []).

(** [VerifyFSM], with the state machine of the first node. *)
Definition VerifyFSM (exp : fuzzyFSM) (rest : list fuzzyFSM) : list report :=
  rest ≫= verify_node exp.

Definition assertLogEntryEqual (exp act : Log) : bool :=
  bool_decide (log_Term exp = log_Term act /\ log_Index exp = log_Index act /\
               log_Type exp = log_Type act /\ log_Data exp = log_Data act).

Section VerifyLog.
Context {L : Type} `{LogStore L}.

(** The loop over the indexes, [n] of them from [i] on; [first] is the first index and
    [term] the term of the entry before. *)
Fixpoint verify_entries (node0 node : L) (first : N) (n : nat) (i : N) (term : N) : list report :=
  match n with
  | O => []
  | S n =>
      match GetLog node0 i with
      | Err _ => rp_first_entry i :: verify_entries node0 node first n (i + 1) term
      | Ok n0Entry =>
          match GetLog node i with
          | Err _ => rp_entry i :: verify_entries node0 node first n (i + 1) term
          | Ok nEntry =>
              (if decide (i <> log_Index nEntry) then [rp_index i] else []) ++
              (if decide (i <> first /\ (log_Term nEntry < term)%N) then [rp_term i] else []) ++
              (if assertLogEntryEqual n0Entry nEntry then [] else [rp_mismatch i]) ++
              verify_entries node0 node first n (i + 1) (log_Term nEntry)
          end
      end
  end.

(** The loop over what was applied; a fetch that fails leaves the entry as it was. *)
Fixpoint verify_applied (node : L) (applied : list (N * string)) (entry : Log) : list report :=
  match applied with
  | [] => []
  | (index, data) :: applied =>
      let '(reports, entry) :=
        match GetLog node index with
        | Ok entry => ([], entry)
        | Err _ => ([rp_fetch index], entry)
        end in
      reports ++ (if decide (data <> log_Data entry) then [rp_applied index] else []) ++
      verify_applied node applied entry
  end.

Definition zero_log : Log := mkLog 0 0 LogCommand "" "" 0.

Definition verify_store (node0 node : L) (applyCount fi li : N) (applied : list (N * string))
    : list report :=
  match FirstIndex node with
  | Err _ => [rp_firstIndexError]
  | Ok nfi =>
      (if decide (nfi <> fi) then [rp_firstIndex] else []) ++
      match LastIndex node with
      | Err _ => [rp_lastIndexError]
      | Ok nli =>
          (if decide (nli <> li) then [rp_logLastIndex] else []) ++
          if decide (u64_sub nli nfi < applyCount)%N then [rp_count]
          else verify_entries node0 node fi (N.to_nat (li + 1 - fi)) fi 0 ++
               verify_applied node applied zero_log
      end
  end.

(** [VerifyLog]; an error of the first node's indexes is not looked at. *)
Definition VerifyLog (node0 : L) (nodes : list L) (applyCount : N) (applied : list (N * string))
    : list report :=
  let fi := match FirstIndex node0 with Ok i => i | Err _ => 0%N end in
  let li := match LastIndex node0 with Ok i => i | Err _ => 0%N end in
  (node0 :: nodes) ≫= fun node => verify_store node0 node applyCount fi li applied.
End VerifyLog.

(** ** Facts: the state machine *)

Lemma le_bytes_length k n : String.length (le_bytes k n) = k.
Proof. revert n. induction k as [|k IH]; intros n; [done|]. simpl. by rewrite IH. Qed.

Lemma of_le_bytes k n : of_le (le_bytes k n) = (n `mod` 256 ^ N.of_nat k)%N.
Proof.
  revert n. induction k as [|k IH]; intros n; [by rewrite N.mod_1_r|].
  cbn [le_bytes of_le]. rewrite IH, N_ascii_embedding by (apply N.mod_lt; done).
  rewrite Nat2N.inj_succ, N.pow_succ_r', N.Div0.mod_mul_r. done.
Qed.

Lemma binary_Read_le n s : in_u64 n -> binary_Read (le_bytes 8 n +:+ s) = Ok (n, s).
Proof.
  intros Hn. unfold binary_Read. rewrite decide_False by done.
  rewrite decide_False by (simpl; lia).
  pose proof (string_take_app (le_bytes 8 n) s) as Ht. pose proof (string_drop_app (le_bytes 8 n) s) as Hd.
  rewrite le_bytes_length in Ht, Hd. rewrite Ht, Hd, of_le_bytes, N.mod_small; [done|exact Hn].
Qed.

(** The entries that a state machine takes: the indexes grow and the terms do not fall. *)
Fixpoint in_order (index term : N) (logs : list Log) : Prop :=
  match logs with
  | [] => True
  | l :: logs => (index < log_Index l)%N /\ (term <= log_Term l)%N /\
                 in_order (log_Index l) (log_Term l) logs
  end.

(** The state machine panics exactly on entries out of order; otherwise it has recorded
    the entries, and its hash runs over their data. *)
Theorem fuzzy_ApplyBatch_spec f logs :
  (fuzzy_ApplyBatch f logs <> None <-> in_order (ff_lastIndex f) (ff_lastTerm f) logs) /\
  (forall f', fuzzy_ApplyBatch f logs = Some f' ->
     ff_lastHash f' = foldl logHash_Add (ff_lastHash f) (log_Data <$> logs) /\
     ff_applied f' = ff_applied f ++
       ((fun l => mkApplyItem (log_Index l) (log_Term l) (log_Data l)) <$> logs)).
Proof.
  revert f. induction logs as [|l logs IH]; intros f.
  - split; [done|]. intros f' [= <-]. simpl. by rewrite app_nil_r.
  - cbn [fuzzy_ApplyBatch in_order]. unfold fuzzy_Apply. case_decide as Hi; [|case_decide as Ht].
    + split; [split; [done|lia]|done].
    + split; [split; [done|lia]|done].
    + cbn [mbind option_bind]. set (f1 := mkFuzzyFSM _ _ _ _). destruct (IH f1) as [Hiff Hval].
      simpl in Hiff. split.
      * rewrite Hiff. split; [intros; split_and!; [lia|lia|done]|by intros (_ & _ & ?)].
      * intros f' [Hh Ha]%Hval. rewrite Hh, Ha. split; [done|]. simpl. by rewrite <- app_assoc.
Qed.

Lemma adler32_Sum_length s : String.length (adler32_Sum s) = adler32_Size.
Proof. unfold adler32_Sum. by destruct (adler_sums s 1 0). Qed.

(** What a snapshot holds. *)
Definition fuzzy_contents (f : fuzzyFSM) : string :=
  le_bytes 8 (ff_lastTerm f) +:+ (le_bytes 8 (ff_lastIndex f) +:+ ff_lastHash f).

Lemma fuzzy_Persist_writes `{MsgPack} `{PeerCodec} f (sink : SnapshotSink (SN := InmemSnapshotStore))
    (m : InmemSnapshotStore) :
  fuzzy_Persist f sink m =
  (write_all sink [le_bytes 8 (ff_lastTerm f); le_bytes 8 (ff_lastIndex f); ff_lastHash f];;
   returns None)%go m.
Proof. reflexivity. Qed.

(** A snapshot restores the position and the hash of a state machine that has taken an
    entry, from a reader that delivers the hash at once. *)
Theorem fuzzy_snapshot_roundtrip chunk f g :
  in_u64 (ff_lastTerm f) -> in_u64 (ff_lastIndex f) ->
  String.length (ff_lastHash f) = adler32_Size -> (adler32_Size <= chunk)%nat ->
  fuzzy_Restore chunk g (fuzzy_contents f) =
    (mkFuzzyFSM (ff_lastHash f) (ff_lastTerm f) (ff_lastIndex f) (ff_applied g), None).
Proof.
  intros Ht Hi Hh Hc. unfold fuzzy_Restore, fuzzy_contents.
  rewrite binary_Read_le by done. rewrite binary_Read_le by done. unfold read_hash.
  rewrite decide_False by (by intros HE; rewrite HE in Hh). rewrite Nat.min_r by done.
  assert (string_take adler32_Size (ff_lastHash f) = ff_lastHash f) as ->.
  { rewrite <- Hh. rewrite <- (string_app_nil_r (ff_lastHash f)) at 2. apply string_take_app. }
  rewrite Hh, Nat.sub_diag. cbn [zero_bytes]. by rewrite string_app_nil_r.
Qed.

(** The snapshot of a state machine that has taken no entry cannot be restored, and a
    reader that delivers the hash in parts gives another hash, without an error. *)
Theorem fuzzy_Restore_fails :
  (forall chunk g, (fuzzy_Restore chunk g (fuzzy_contents (mkFuzzyFSM "" 0 0 []))).2 = Some io_EOF) /\
  exists f l, fuzzy_Apply (mkFuzzyFSM "" 0 0 []) l = Some f /\
    forall g, exists f', fuzzy_Restore 1 g (fuzzy_contents f) = (f', None) /\
      ff_lastHash f' <> ff_lastHash f.
Proof.
  split; [intros chunk g; by vm_compute|].
  eexists _, (mkLog 1 1 LogCommand "x" "" 0). split; [reflexivity|]. intros g.
  eexists. split; [by vm_compute|]. by vm_compute.
Qed.

(** ** Facts: the verifier *)

(** Two leaders of a term among the requests. *)
Definition two_leaders (seen : list (N * string)) : Prop :=
  exists t l l', l <> l' /\ (t, l) ∈ seen /\ (t, l') ∈ seen.

Definition call_request (c : verifierCall) : N * string :=
  match c with vc_report t l | vc_enter t l => (t, l) end.

Record verifier_ok (v : appendEntriesVerifier) : Prop := {
  vk_leaders t l : vf_leaderForTerm v !! t = Some l -> (t, l) ∈ vf_seen v;
  vk_calls c : c ∈ vf_calls v -> call_request c ∈ vf_seen v;
  vk_reports t l : vc_report t l ∈ vf_calls v ->
    exists l', vf_leaderForTerm v !! t = Some l' /\ l' <> l;
  vk_errors : (0 < vf_errors v)%nat -> two_leaders (vf_seen v);
  vk_seen t l : (t, l) ∈ vf_seen v ->
    (exists c, c ∈ vf_calls v /\ call_request c = (t, l)) \/ vf_leaderForTerm v !! t = Some l \/
    (0 < vf_errors v)%nat
}.

Lemma two_leaders_app seen x : two_leaders seen -> two_leaders (seen ++ [x]).
Proof.
  intros (t & l & l' & Hne & H1 & H2). exists t, l, l'. split; [done|]. split; apply elem_of_app; by left.
Qed.

Lemma PreAppendEntries_ok src req v :
  verifier_ok v -> request_leader req = src -> verifier_ok (PreAppendEntries src req v).
Proof.
  intros [Hl Hc Hr He Hs] <-. unfold PreAppendEntries. rewrite decide_False by (by intros Hx; apply Hx).
  set (t := ae_Term req). set (l := request_leader req).
  assert (forall x, x ∈ vf_seen v -> x ∈ vf_seen v ++ [(t, l)]) as Hold.
  { intros x Hx. apply elem_of_app. by left. }
  assert ((t, l) ∈ vf_seen v ++ [(t, l)]) as Hnew by (apply elem_of_app; right; by left).
  destruct (vf_leaderForTerm v !! t) as [tl|] eqn:HT; [destruct (decide (tl <> l)) as [Hne|Heq]|];
    split; cbn [vf_leaderForTerm vf_calls vf_seen vf_errors]; eauto using two_leaders_app.
  - intros c [Hin|Hin]%elem_of_app; [auto|]. apply list_elem_of_singleton in Hin as ->. done.
  - intros t' l' [Hin|Hin]%elem_of_app; [auto|]. apply list_elem_of_singleton in Hin as [= -> ->]. by exists tl.
  - intros t' l' [Hin|Hin]%elem_of_app.
    + destruct (Hs _ _ Hin) as [(c & Hc' & HE)|[|]]; auto. left. exists c. split; [|done]. apply elem_of_app. by left.
    + apply list_elem_of_singleton in Hin as [= -> ->]. left. exists (vc_report t l). split; [|done].
      apply elem_of_app. right. by left.
  - intros t' l' [Hin|Hin]%elem_of_app; [auto|]. apply list_elem_of_singleton in Hin as [= -> ->].
    right. left. rewrite HT. f_equal. destruct (decide (tl = l)); [done|]. by destruct Heq.
  - intros c [Hin|Hin]%elem_of_app; [auto|]. apply list_elem_of_singleton in Hin as ->. done.
  - intros t' l' [Hin|Hin]%elem_of_app; [auto|]. by apply list_elem_of_singleton in Hin.
  - intros t' l' [Hin|Hin]%elem_of_app.
    + destruct (Hs _ _ Hin) as [(c & Hc' & HE)|[|]]; auto. left. exists c. split; [|done]. apply elem_of_app. by left.
    + apply list_elem_of_singleton in Hin as [= -> ->]. left. exists (vc_enter t l). split; [|done].
      apply elem_of_app. right. by left.
Qed.

Lemma verifier_finish_ok c before after v :
  verifier_ok v -> vf_calls v = before ++ c :: after -> verifier_ok (verifier_finish c (before ++ after) v).
Proof.
  intros [Hl Hc Hr He Hs] HC.
  assert (forall x, x ∈ before ++ after -> x ∈ vf_calls v) as Hsub.
  { intros x. rewrite HC, !elem_of_app, elem_of_cons. tauto. }
  assert (c ∈ vf_calls v) as Hin by (rewrite HC; set_solver).
  assert (forall t l, (t, l) ∈ vf_seen v ->
    (exists c, c ∈ before ++ after /\ call_request c = (t, l)) \/ call_request c = (t, l) \/
    vf_leaderForTerm v !! t = Some l \/ (0 < vf_errors v)%nat) as Hs'.
  { intros t l [(d & Hd & HE)|Hx]%Hs; [|auto]. rewrite HC, elem_of_app, elem_of_cons in Hd.
    destruct Hd as [Hd|[->|Hd]]; [|auto|]; left; exists d; (split; [|done]); apply elem_of_app; auto. }
  pose proof (Hc c Hin) as Hseen. destruct c as [t l|t l]; cbn [verifier_finish call_request] in *.
  - destruct (Hr t l Hin) as (l' & HT & Hne).
    split; cbn [vf_leaderForTerm vf_calls vf_seen vf_errors]; auto.
    + intros _. exists t, l', l. auto.
    + intros; right; right; lia.
  - destruct (vf_leaderForTerm v !! t) as [tl|] eqn:HT;
      split; cbn [vf_leaderForTerm vf_calls vf_seen vf_errors]; auto.
    + case_decide as Hne; [|done]. intros _. exists t, tl, l. auto.
    + intros t' l' [Hx|[[= <- <-]|[Hx|Hx]]]%Hs'; auto.
      * case_decide as Hne; [right; right; lia|]. right. left. rewrite HT. f_equal.
        destruct (decide (tl = l)); [done|]. by destruct Hne.
      * right. right. case_decide; lia.
    + intros t' l'. destruct (decide (t = t')) as [<-|Hne]; [rewrite lookup_insert_eq; by intros [= <-]|].
      rewrite lookup_insert_ne by done. apply Hl.
    + intros t' l' Hx. destruct (Hr t' l' (Hsub _ Hx)) as (l2 & H2 & Hn2). exists l2. split; [|done].
      rewrite lookup_insert_ne; [done|]. by intros ->; congruence.
    + intros t' l' [Hx|[[= <- <-]|[Hx|Hx]]]%Hs'; auto.
      * right. left. by rewrite lookup_insert_eq.
      * right. left. rewrite lookup_insert_ne; [done|]. by intros ->; congruence.
Qed.

(** A step in which the request names its sender, as every request of a server does. *)
Definition named_step (v v' : appendEntriesVerifier) : Prop :=
  (exists req, vf_locked v = false /\ v' = PreAppendEntries (request_leader req) req v) \/
  exists c before after, vf_locked v = false /\ vf_calls v = before ++ c :: after /\
    v' = verifier_finish c (before ++ after) v.

Lemma named_steps_ok v : rtc named_step verifier_Init v -> verifier_ok v.
Proof.
  revert v. apply rtc_ind_r.
  - split; cbn; set_solver by lia.
  - intros v v' _ [(req & _ & ->)|(c & b & a & _ & HC & ->)] IH.
    + by apply PreAppendEntries_ok.
    + by apply verifier_finish_ok.
Qed.

(** The verifier is exact, however its calls are interleaved: an error is recorded only
    if two leaders have sent append requests in a term, and then one is recorded by the
    time the calls have ended. *)
Theorem verifier_exact v :
  rtc named_step verifier_Init v ->
  ((0 < vf_errors v)%nat -> two_leaders (vf_seen v)) /\
  (vf_calls v = [] -> two_leaders (vf_seen v) -> (0 < vf_errors v)%nat).
Proof.
  intros [Hl Hc Hr He Hs]%named_steps_ok. split; [done|].
  intros HC (t & l & l' & Hne & H1 & H2).
  destruct (Hs _ _ H1) as [(c & Hin & _)|[HL1|]]; [|..|done]; [rewrite HC in Hin; by apply elem_of_nil in Hin|].
  destruct (Hs _ _ H2) as [(c & Hin & _)|[HL2|]]; [|..|done]; [rewrite HC in Hin; by apply elem_of_nil in Hin|].
  congruence.
Qed.

(** A request that names another leader than its sender, which the verifier is meant to
    report, leaves it locked for ever. *)
Theorem verifier_deadlock src req v :
  vf_locked v = false -> request_leader req <> src ->
  verifier_step v (PreAppendEntries src req v) /\
  forall v', ~ verifier_step (PreAppendEntries src req v) v'.
Proof.
  intros Hl Hne. split; [by apply vs_begin|]. intros v' Hs. inversion Hs as [? ? ? HL|? ? ? ? HL]; subst;
    unfold PreAppendEntries in HL; rewrite decide_True in HL; done.
Qed.

(** ** Facts: the transport *)

Section TransportFacts.
Context {L K SN : Type} `{LogStore L} `{StableStore K} `{SnapshotStore SN} `{MsgPack} `{PeerCodec}.

(** A pre-vote does not get through the transport of the fuzz tests: the server is handed
    no command, answers with an error, and the candidate counts the vote as refused. *)
Theorem fuzzy_prevote_refused env (r : Raft L K SN) encode decode node target req peer resp :
  (exists buff, encode (cmd_RequestPreVote req) = Ok buff) ->
  exists err,
    processRPC env (cmd_Other None) r = Done (None, Some err) r /\
    fuzzy_sendRPC encode decode
      (fun c => match processRPC env c r with Done a _ => a | Panicked _ => (None, None) end) true None node target (cmd_RequestPreVote req) = (None, Some err) /\
    pvr_Granted (pr_response (preAskPeer req peer resp (Some err))) = false.
Proof.
  intros [buff Hc]. eexists. split; [reflexivity|]. unfold fuzzy_sendRPC, rpc_Command. simpl. rewrite Hc.
  split; [reflexivity|]. vm_compute. reflexivity.
Qed.
End TransportFacts.

(** ** Facts: the checks on a cluster *)

Lemma leader_plus_length n nodes r :
  (length r < n)%nat -> (length (leader_plus n nodes r) <= n)%nat.
Proof.
  revert r. induction nodes as [|x nodes IH]; intros r Hr; cbn [leader_plus]; [lia|].
  destruct (containsNode r x); [by apply IH|]. cbv zeta. case_decide as Hd.
  - rewrite length_app. simpl. lia.
  - apply IH. lia.
Qed.

Lemma leader_plus_NoDup n nodes r : NoDup r -> NoDup (leader_plus n nodes r).
Proof.
  revert r. induction nodes as [|x nodes IH]; intros r Hr; cbn [leader_plus]; [done|].
  unfold containsNode. case_bool_decide as Hin; [by apply IH|]. cbv zeta.
  assert (NoDup (r ++ [x])) as Hr'.
  { apply NoDup_app. split; [done|]. split; [|apply NoDup_singleton]. intros y Hy ->%list_elem_of_singleton. done. }
  case_decide; [done|by apply IH].
Qed.

(** [LeaderPlus] is said to return the leader and [n] more nodes; it returns no more than
    [n] nodes, the leader included. *)
Lemma LeaderPlus_length n ldr nodes :
  (length (LeaderPlus n ldr nodes) <= Nat.max 1 n)%nat /\ NoDup (LeaderPlus n ldr nodes).
Proof.
  unfold LeaderPlus. cbv zeta. assert (length (option_list ldr) <= 1)%nat as Hl by (destruct ldr; simpl; lia).
  assert (NoDup (option_list ldr)) as Hnd by (destruct ldr; [apply NoDup_singleton|constructor]).
  case_decide as Hd; [by split; [lia|]|].
  pose proof (leader_plus_length n nodes (option_list ldr) ltac:(lia)).
  split; [lia|by apply leader_plus_NoDup].
Qed.

Lemma uptodate_pass_spec idx applied b idx' :
  uptodate_pass idx applied = (b, idx') ->
  (idx <= idx')%N /\ (b = true -> idx' = idx /\ Forall (eq idx) applied).
Proof.
  revert idx. induction applied as [|a applied IH]; intros idx HE; simpl in HE.
  - injection HE as <- <-. split; [lia|]. intros _. by split.
  - repeat case_decide; simplify_eq; [by split; [lia|]..|].
    destruct (IH _ HE) as [Hle Hb]. split; [done|]. intros [-> Hf]%Hb. split; [done|].
    constructor; [lia|done].
Qed.

(** [WaitTilUptoDate] succeeds only when all of the nodes have applied the same index,
    which is not below the one it was asked for. *)
Lemma WaitTilUptoDate_spec idx passes idx' :
  WaitTilUptoDate idx passes = Some (true, idx') ->
  (idx <= idx')%N /\ exists applied over, (applied, over) ∈ passes /\ Forall (eq idx') applied.
Proof.
  revert idx. induction passes as [|[applied over] passes IH]; intros idx HE; [done|]. cbn [WaitTilUptoDate] in HE.
  destruct (uptodate_pass idx applied) as [[] i] eqn:HP.
  - injection HE as <-. destruct (uptodate_pass_spec _ _ _ _ HP) as [Hle [-> Hf]]; [done|].
    split; [lia|]. exists applied, over. split; [by left|done].
  - destruct over; [done|]. destruct (uptodate_pass_spec _ _ _ _ HP) as [Hle _].
    destruct (IH _ HE) as (Hle' & ap & ov & Hin & Hf). split; [lia|]. exists ap, ov. split; [by right|done].
Qed.

(** [VerifyFSM] reports nothing exactly if all of the state machines have the same
    position and hash. *)
Lemma VerifyFSM_spec exp rest :
  VerifyFSM exp rest = [] <->
  Forall (fun f => ff_lastIndex f = ff_lastIndex exp /\ ff_lastTerm f = ff_lastTerm exp /\
                   ff_lastHash f = ff_lastHash exp) rest.
Proof.
  unfold VerifyFSM. induction rest as [|f rest IH]; [done|]. cbn [mbind list_bind].
  rewrite Forall_cons, <- IH. unfold verify_node.
  destruct (decide (ff_lastIndex exp = ff_lastIndex f)), (decide (ff_lastTerm exp = ff_lastTerm f)),
    (decide (ff_lastHash exp = ff_lastHash f)); repeat case_decide; simpl; try tauto;
    (split; [try done|]); intros; try done; intuition congruence.
Qed.

Section VerifyLogFacts.
Context {L : Type} `{LogStore L}.

(** The indexes from [i] on at which the nodes agree. *)
Lemma verify_entries_sound (node0 node : L) first n i term :
  verify_entries node0 node first n i term = [] ->
  forall j, (i <= j < i + N.of_nat n)%N -> exists e0 e, GetLog node0 j = Ok e0 /\ GetLog node j = Ok e /\
    log_Index e = j /\ log_Index e0 = j /\ log_Term e = log_Term e0 /\ log_Type e = log_Type e0 /\
    log_Data e = log_Data e0.
Proof.
  revert i term. induction n as [|n IH]; intros i term HE j Hj; [lia|]. cbn [verify_entries] in HE.
  destruct (GetLog node0 i) as [e0|] eqn:H0; [|done]. destruct (GetLog node i) as [e|] eqn:H1; [|done].
  apply app_eq_nil in HE as [Hidx HE]. apply app_eq_nil in HE as [_ HE]. apply app_eq_nil in HE as [Heq HE].
  destruct (decide (j = i)) as [->|Hne]; [|apply (IH _ _ HE); lia].
  exists e0, e. case_decide as Hi; [done|]. unfold assertLogEntryEqual in Heq.
  case_bool_decide as Ha; [|done]. destruct Ha as (Ht & Hx & Hty & Hd).
  assert (log_Index e = i) by (destruct (decide (i = log_Index e)); [done|by destruct Hi]).
  split_and!; congruence.
Qed.

(** The terms do not fall. *)
Lemma verify_entries_terms (node0 node : L) first n i term :
  verify_entries node0 node first n i term = [] -> (first < i)%N ->
  forall j e, (i <= j < i + N.of_nat n)%N -> GetLog node j = Ok e -> (term <= log_Term e)%N.
Proof.
  revert i term. induction n as [|n IH]; intros i term HE Hlt j e Hj Hg; [lia|]. cbn [verify_entries] in HE.
  destruct (GetLog node0 i) as [e0|] eqn:H0; [|done]. destruct (GetLog node i) as [e1|] eqn:H1; [|done].
  apply app_eq_nil in HE as [_ HE]. apply app_eq_nil in HE as [Hterm HE]. apply app_eq_nil in HE as [_ HE].
  case_decide as Ht; [done|]. assert (term <= log_Term e1)%N as Hle.
  { destruct (decide (log_Term e1 < term)%N); [|lia]. destruct Ht. split; [lia|done]. }
  destruct (decide (j = i)) as [->|Hne]; [by rewrite H1 in Hg; simplify_eq|].
  assert (log_Term e1 <= log_Term e)%N by (apply (IH _ _ HE ltac:(lia) j e); [lia|done]). lia.
Qed.

Lemma verify_entries_consecutive (node0 node : L) first n i term :
  verify_entries node0 node first n i term = [] -> (first <= i)%N ->
  forall j e e', (i <= j)%N -> (j + 1 < i + N.of_nat n)%N ->
    GetLog node j = Ok e -> GetLog node (j + 1) = Ok e' -> (log_Term e <= log_Term e')%N.
Proof.
  revert i term. induction n as [|n IH]; intros i term HE Hle j e e' Hj Hj' Hg Hg'; [lia|].
  cbn [verify_entries] in HE.
  destruct (GetLog node0 i) as [e0|] eqn:H0; [|done]. destruct (GetLog node i) as [e1|] eqn:H1; [|done].
  apply app_eq_nil in HE as [_ HE]. apply app_eq_nil in HE as [_ HE]. apply app_eq_nil in HE as [_ HE].
  destruct (decide (j = i)) as [->|Hne]; [|apply (IH _ _ HE ltac:(lia) j); auto; lia].
  rewrite H1 in Hg. simplify_eq. apply (verify_entries_terms _ _ _ _ _ _ HE ltac:(lia) (i + 1)); [lia|done].
Qed.

Lemma verify_applied_sound (node : L) applied entry :
  verify_applied node applied entry = [] ->
  forall index data, (index, data) ∈ applied -> exists e, GetLog node index = Ok e /\ log_Data e = data.
Proof.
  revert entry. induction applied as [|[i d] applied IH]; intros entry HE index data Hin; [by apply elem_of_nil in Hin|].
  cbn [verify_applied] in HE. destruct (GetLog node i) as [e|] eqn:Hg; [|done].
  apply app_eq_nil in HE as [_ HE]. apply app_eq_nil in HE as [Hd HE]. case_decide as Hdec; [done|].
  apply elem_of_cons in Hin as [[= -> ->]|Hin]; [|by eapply IH].
  exists e. split; [done|]. destruct (decide (d = log_Data e)); [done|by destruct Hdec].
Qed.

(** [VerifyLog] is sound: if it reports nothing, then all of the nodes have logs of the
    same extent that hold the same entries, at their indexes and with terms that do not
    fall, and every command whose future succeeded is in all of them at the index that
    the future gave. *)
Theorem VerifyLog_sound (node0 : L) nodes applyCount applied fi li :
  FirstIndex node0 = Ok fi -> LastIndex node0 = Ok li ->
  VerifyLog node0 nodes applyCount applied = [] ->
  Forall (fun node =>
    FirstIndex node = Ok fi /\ LastIndex node = Ok li /\
    (forall j, (fi <= j <= li)%N -> exists e0 e, GetLog node0 j = Ok e0 /\ GetLog node j = Ok e /\
       log_Index e = j /\ log_Term e = log_Term e0 /\ log_Type e = log_Type e0 /\
       log_Data e = log_Data e0) /\
    (forall j e e', (fi <= j < li)%N -> GetLog node j = Ok e -> GetLog node (j + 1) = Ok e' ->
       (log_Term e <= log_Term e')%N) /\
    (forall index data, (index, data) ∈ applied ->
       exists e, GetLog node index = Ok e /\ log_Data e = data)) nodes.
Proof.
  intros HF HL HV. unfold VerifyLog in HV. rewrite HF, HL in HV. cbv zeta in HV.
  cbn [mbind list_bind] in HV. apply app_eq_nil in HV as [_ HV].
  apply Forall_forall. intros node Hin.
  assert (verify_store node0 node applyCount fi li applied = []) as Hn.
  { clear -HV Hin. induction nodes as [|n nodes IH]; [by apply elem_of_nil in Hin|].
    cbn [mbind list_bind] in HV. apply app_eq_nil in HV as [Hn HV].
    apply elem_of_cons in Hin as [->|Hin]; [done|by apply IH]. }
  unfold verify_store in Hn. destruct (FirstIndex node) as [nfi|]; [|done].
  apply app_eq_nil in Hn as [H1 Hn]. destruct (LastIndex node) as [nli|]; [|done].
  apply app_eq_nil in Hn as [H2 Hn]. destruct (decide (nfi <> fi)) as [|Hfi]; [done|].
  destruct (decide (nli <> li)) as [|Hli]; [done|]. case_decide; [done|].
  apply app_eq_nil in Hn as [Hent Happ].
  assert (nfi = fi) as -> by (destruct (decide (nfi = fi)); [done|by destruct Hfi]).
  assert (nli = li) as -> by (destruct (decide (nli = li)); [done|by destruct Hli]).
  split_and!; try done; [| |by eapply verify_applied_sound].
  2:{ intros j e e' Hj. apply (verify_entries_consecutive _ _ _ _ _ _ Hent); lia. }
  intros j Hj. destruct (verify_entries_sound _ _ _ _ _ _ Hent j ltac:(lia))
    as (e0 & e & G0 & G1 & I1 & _ & T & Ty & D). exists e0, e. by split_and!.
Qed.

(** A log that holds as many entries as were applied is reported as too short. *)
Lemma VerifyLog_count_off_by_one :
  let s := mkInmemStore 1 1 {[1%N := mkLog 1 1 LogCommand "x" "" 0]} ∅ ∅ in
  VerifyLog s [] 1 [(1%N, "x")] = [rp_count].
Proof. by vm_compute. Qed.
End VerifyLogFacts.
