(* ===== verification/FuzzyCluster.v ===== *)
(** * The nodes and the pipeline of the fuzz tests, [fuzzy/node.go], [fuzzy/transport.go]
      and [fuzzy/cluster.go]

    How a node is made, how the tests find the leader and apply commands, the record that
    a transport keeps of append requests, and its pipeline as a step relation over the
    channels between the caller, the goroutine of the pipeline and the consumer. *)
From stdpp Require Import relations.
From S2P Require Import Prelude Types Util Codec Configuration Config Stores State Elections AppendEntries SnapshotStores Snapshot Fsm Replication Leader Api Server Cluster Startup Fuzzy.

(** ** Nodes *)

Definition Hour : Z := 3600 * Second.

(** The configuration of [newRaftNode]; the logger is left out. *)
Definition fuzzy_config (name : string) : Config :=
  let c := DefaultConfig in
  mkConfig (ProtocolVersion c) (HeartbeatTimeout c) (ElectionTimeout c) (CommitTimeout c)
    (MaxAppendEntries c) (BatchApplyCh c) false (TrailingLogs c)
    Hour 1409600 (LeaderLeaseTimeout c) name (LogLevel c)
    (NoSnapshotRestoreOnStart c) (PreVoteDisabled c) (NoLegacyTelemetry c) (skipStartup c).

Definition nodeName (prefix : string) (num : N) : string := prefix +:+ "_" +:+ pretty num.

Section Nodes.
Context {L K SN F : Type} `{!LogStore L} `{!StableStore K} `{!SnapshotStore SN} `{!FSM F SN}
  `{!MsgPack} `{!PeerCodec}.
Abbreviation raft := (Raft L K SN).
Abbreviation stores := (Stores L K SN).

Definition node_server (n : string) : Server := mkServer Voter n n.

(** [newRaftNode] once its stores are open.  The transport has [RequestPreVote]. *)
Definition newRaftNode (nodes : list string) (name : string) (s : stores) (fsm : F)
    : outcome (raft * F) (option error) :=
  let config := fuzzy_config name in
  let fail err s := Done (Some err) (new_struct config name true s, fsm) in
  if decide (nodes = []) then NewRaft config name true s fsm
  else
    match BootstrapCluster config (mkConfiguration (node_server <$> nodes)) s with
    | Done (Some err) s => fail err s
    | Done None s => NewRaft config name true s fsm
    | Panicked s => Panicked (new_struct config name true s, fsm)
    end.
End Nodes.

(** [Leader], over the states of the nodes at each pass and whether the time is up: the
    position of the leader, or [None] for nil. *)
Fixpoint fuzzy_Leader (passes : list (list RaftState * bool)) : option (option nat) :=
  match passes with
  | [] => None
  | (states, over) :: passes =>
      match list_find (eq Leader) states with
      | Some (i, _) => Some (Some i)
      | None => if (over : bool) then Some None else fuzzy_Leader passes
      end
  end.

(** [sendNApplies]; [apply] is how the future of a command ends. *)
Definition sendNApplies (apply : nat -> string -> result N) (ldr : option nat) (data : list string)
    : list (result N * string) :=
  match ldr with
  | None => []
  | Some i => (fun d => (apply i d, d)) <$> data
  end.

Definition ApplyN (apply : nat -> string -> result N) (ldr : option nat) (data : list string)
    (c : applies) : N * applies :=
  checkApplyFutures (sendNApplies apply ldr data) 0 c.

(** ** The transport *)

Record appendEntriesRecord := mkAppendEntriesRecord {
  ar_source : string;
  ar_target : string;
  ar_firstIndex : N;
  ar_lastIndex : N;
  ar_commitIndex : N
}.

(** The capacity of the slice of [newTransport]. *)
Definition ae_cap : nat := 50000.

(** [transport.AppendEntries]: what is recorded; then the request is sent. *)
Definition record_ae (node target : string) (args : AppendEntriesRequest)
    (ae : list appendEntriesRecord) : list appendEntriesRecord :=
  if decide (length ae < ae_cap)%nat
  then ae ++ [mkAppendEntriesRecord node target (fuzzy_firstIndex args) (fuzzy_lastIndex args)
                (ae_LeaderCommitIndex args)]
  else ae.

Definition fuzzy_InstallSnapshot : option error := Some (Errorf "huh").

Definition fuzzyPeerCodec : PeerCodec := {|
  EncodePeer _ p := p;
  DecodePeer p := p
|}.

(** ** The pipeline *)

(** The room of the two channels. *)
Definition fuzzy_chan : nat := 100.

(** The goroutine [run]: it waits for work, calls [AppendEntries], sends the future to
    the consumer, or has ended. *)
Inductive fuzzyRunner :=
  | fr_waiting
  | fr_calling (req : AppendEntriesRequest)
  | fr_responding (req : AppendEntriesRequest) (err : option error)
  | fr_ended.

(** [fp_appended] are the requests that [AppendEntries] took, [fp_taken] the futures the
    consumer took with their errors; [fp_panicked] is a send on a closed channel or a
    second [Close]. *)
Record fuzzyPipeline := mkFuzzyPipeline {
  fp_work : list AppendEntriesRequest;
  fp_closed : bool;
  fp_runner : fuzzyRunner;
  fp_consumer : list (AppendEntriesRequest * option error);
  fp_appended : list AppendEntriesRequest;
  fp_taken : list (AppendEntriesRequest * option error);
  fp_panicked : bool
}.

(** [AppendEntriesPipeline] *)
Definition fuzzy_pipeline : fuzzyPipeline := mkFuzzyPipeline [] false fr_waiting [] [] [] false.

Inductive fuzzy_pipeline_step : fuzzyPipeline -> fuzzyPipeline -> Prop :=
  | fp_append req w r c a t :
      (length w < fuzzy_chan)%nat ->
      fuzzy_pipeline_step (mkFuzzyPipeline w false r c a t false)
        (mkFuzzyPipeline (w ++ [req]) false r c (a ++ [req]) t false)
  | fp_append_closed w r c a t :
      fuzzy_pipeline_step (mkFuzzyPipeline w true r c a t false)
        (mkFuzzyPipeline w true r c a t true)
  | fp_close w r c a t :
      fuzzy_pipeline_step (mkFuzzyPipeline w false r c a t false)
        (mkFuzzyPipeline w true r c a t false)
  | fp_run_take req w cl c a t :
      fuzzy_pipeline_step (mkFuzzyPipeline (req :: w) cl fr_waiting c a t false)
        (mkFuzzyPipeline w cl (fr_calling req) c a t false)
  | fp_run_call req err w cl c a t :
      fuzzy_pipeline_step (mkFuzzyPipeline w cl (fr_calling req) c a t false)
        (mkFuzzyPipeline w cl (fr_responding req err) c a t false)
  | fp_run_respond req err w cl c a t :
      (length c < fuzzy_chan)%nat ->
      fuzzy_pipeline_step (mkFuzzyPipeline w cl (fr_responding req err) c a t false)
        (mkFuzzyPipeline w cl fr_waiting (c ++ [(req, err)]) a t false)
  | fp_run_end c a t :
      fuzzy_pipeline_step (mkFuzzyPipeline [] true fr_waiting c a t false)
        (mkFuzzyPipeline [] true fr_ended c a t false)
  | fp_take x w cl r c a t :
      fuzzy_pipeline_step (mkFuzzyPipeline w cl r (x :: c) a t false)
        (mkFuzzyPipeline w cl r c a (t ++ [x]) false).

(** The request the goroutine is at. *)
Definition runner_request (r : fuzzyRunner) : list AppendEntriesRequest :=
  match r with fr_calling req | fr_responding req _ => [req] | _ => [] end.

(** ** Facts: nodes *)

Lemma fuzzy_config_valid name : name <> "" -> ValidateConfig (fuzzy_config name) = None.
Proof.
  intros Hn. unfold ValidateConfig, fuzzy_config, DefaultConfig. cbv zeta.
  cbn [ProtocolVersion LocalID HeartbeatTimeout ElectionTimeout CommitTimeout MaxAppendEntries
    SnapshotInterval LeaderLeaseTimeout].
  rewrite (decide_True (P := ProtocolVersionMin = 0%Z)) by done.
  repeat (rewrite decide_False by (first [done |
    unfold ProtocolVersionMin, ProtocolVersionMax, Hour, Second, Millisecond; lia])).
  done.
Qed.

Section NodeFacts.
Context {L K SN F : Type} `{HL : FirstEntryLaw L} `{!LogStoreLaws L} `{!StableStore K} `{!StableStoreLaws K}
  `{!SnapshotStore SN} `{!FSM F SN} `{!MsgPack} `{!MsgPackLaws} `{!PeerCodec}.
Abbreviation stores := (Stores L K SN).

(** A node of a new cluster starts as a voter among the named nodes, in term 1; a node
    that is created to join one starts with no configuration, in term 0. *)
Lemma newRaftNode_spec nodes name (s s' : stores) k (f : F) :
  name <> "" -> fresh s ->
  (nodes <> [] -> BootstrapCluster (fuzzy_config name) (mkConfiguration (node_server <$> nodes)) s
     = Done None s') ->
  (nodes <> [] -> SetUint64 (st_stable s') keyCurrentTerm 1 = (k, None)) ->
  (nodes = [] -> SetUint64 (st_stable s) keyCurrentTerm 0 = (k, None)) ->
  newRaftNode nodes name s f =
  Done None (if decide (nodes = []) then fresh_raft (fuzzy_config name) name true s k
             else bootstrapped_raft (fuzzy_config name) name true
                    (mkConfiguration (node_server <$> nodes)) s' k, f).
Proof.
  intros Hn Hf HB Hk1 Hk0. unfold newRaftNode. destruct (decide (nodes = [])) as [He|He].
  - apply NewRaft_fresh; [by apply fuzzy_config_valid|done|done|by apply Hk0].
  - rewrite (HB He).
    by destruct (BootstrapCluster_NewRaft _ _ name true s s' k f (HB He)) as (_ & HN & _);
      [done|apply Hf|apply (Hk1 He)|].
Qed.
End NodeFacts.

(** ** Facts: applying *)

Definition succeeded (futures : list (result N * string)) : list (N * string) :=
  omap (fun f => match f.1 with Ok i => Some (i, f.2) | Err _ => None end) futures.

Lemma checkApplyFutures_spec futures n c :
  (n + N.of_nat (length futures) < u64_size)%N ->
  let res := checkApplyFutures futures n c in
  res.1 = (n + N.of_nat (length (succeeded futures)))%N /\
  cl_applied res.2 = cl_applied c ++ succeeded futures /\
  (lastApplySuccess c = last (cl_applied c).*1 -> lastApplySuccess res.2 = last (cl_applied res.2).*1).
Proof.
  revert n c. induction futures as [|[[i|e] d] futures IH]; intros n c Hb; cbn [checkApplyFutures length] in *.
  - simpl. rewrite app_nil_r. split_and!; [lia|done|done].
  - rewrite u64_add_small by lia. cbv zeta.
    destruct (IH (n + 1)%N (mkApplies (Some i) (lastApplyFailure c) (cl_applied c ++ [(i, d)])))
      as (Hr & Ha & Hl); [lia|]. rewrite Hr, Ha. cbn [cl_applied]. split; [simpl; lia|].
    split; [by rewrite <- app_assoc|]. intros _.
    transitivity (last (cl_applied (checkApplyFutures futures (n + 1)
      (mkApplies (Some i) (lastApplyFailure c) (cl_applied c ++ [(i, d)]))).2).*1); [|by rewrite Ha].
    apply Hl. cbn [cl_applied lastApplySuccess]. rewrite fmap_app. simpl. by rewrite last_snoc.
  - cbv zeta. apply (IH n (mkApplies (lastApplySuccess c) (Some e) (cl_applied c))). lia.
Qed.

(** [ApplyN] records exactly the commands whose futures succeeded, in the order they were
    sent, and returns their number; without a leader it does nothing. *)
Lemma ApplyN_spec apply ldr data c :
  (N.of_nat (length data) < u64_size)%N ->
  let '(n, c') := ApplyN apply ldr data c in
  exists new, cl_applied c' = cl_applied c ++ new /\ n = N.of_nat (length new) /\
    new.*2 `sublist_of` data /\
    match ldr with
    | None => c' = c
    | Some i => forall ix d, (ix, d) ∈ new <-> d ∈ data /\ apply i d = Ok ix
    end.
Proof.
  intros Hb. unfold ApplyN. destruct ldr as [i|].
  2: { exists []. rewrite app_nil_r. split_and!; [done|done|apply sublist_nil_l|done]. }
  destruct (checkApplyFutures (sendNApplies apply (Some i) data) 0 c) as [n c'] eqn:HC.
  destruct (checkApplyFutures_spec (sendNApplies apply (Some i) data) 0 c) as (Hn & Ha & _).
  { simpl. rewrite length_fmap. lia. }
  rewrite HC in Hn, Ha. exists (succeeded (sendNApplies apply (Some i) data)).
  split; [exact Ha|]. split; [simpl in *; lia|]. clear. split.
  - induction data as [|d data IH]; [done|]. simpl. unfold succeeded in *. simpl.
    destruct (apply i d); [by constructor|by apply sublist_cons].
  - intros ix d. unfold succeeded. rewrite list_elem_of_omap. split.
    + intros ([r d'] & Hin & Hx). simpl in Hin. apply list_elem_of_fmap in Hin as (d0 & [= -> ->] & Hin).
      simpl in Hx. destruct (apply i d0) eqn:HA; naive_solver.
    + intros [Hd HA]. exists (Ok ix, d). split; [|done]. simpl. apply list_elem_of_fmap. exists d.
      by rewrite HA.
Qed.

(** ** Facts: the pipeline *)

Record fuzzy_pipeline_ok (p : fuzzyPipeline) : Prop := {
  fpo_order : (fp_taken p).*1 ++ (fp_consumer p).*1 ++ runner_request (fp_runner p) ++ fp_work p
    = fp_appended p;
  fpo_work : (length (fp_work p) <= fuzzy_chan)%nat;
  fpo_consumer : (length (fp_consumer p) <= fuzzy_chan)%nat;
  fpo_ended : fp_runner p = fr_ended -> fp_work p = [] /\ fp_closed p = true
}.

Lemma fuzzy_pipeline_step_ok p p' :
  fuzzy_pipeline_step p p' -> fuzzy_pipeline_ok p -> fuzzy_pipeline_ok p'.
Proof.
  intros [] [Ho Hw Hc He]; simpl in *; split; simpl in *;
    rewrite ?length_app, ?fmap_app, <- ?app_assoc in *; simpl in *; try (by naive_solver); try lia.
  - rewrite <- Ho. by rewrite !app_assoc.
Qed.

Lemma fuzzy_pipeline_reachable_ok p : rtc fuzzy_pipeline_step fuzzy_pipeline p -> fuzzy_pipeline_ok p.
Proof.
  revert p. apply rtc_ind_r; [|eauto using fuzzy_pipeline_step_ok].
  split; simpl; [done|lia|lia|done].
Qed.

(** The futures come out in the order in which their requests went in, each once, and at
    most 201 of them are under way. *)
Theorem fuzzy_pipeline_order p :
  rtc fuzzy_pipeline_step fuzzy_pipeline p ->
  exists pending, (fp_taken p).*1 ++ pending = fp_appended p /\ (length pending <= 2 * fuzzy_chan + 1)%nat.
Proof.
  intros [Ho Hw Hc _]%fuzzy_pipeline_reachable_ok. eexists. split; [exact Ho|].
  rewrite !length_app, length_fmap. destruct (fp_runner p); cbn [length runner_request]; lia.
Qed.

(** [Close] cancels nothing: a closed pipeline whose futures are taken goes on until each
    request that was in it has been sent and its future taken, and then its goroutine
    ends; the steps it has left are bounded. *)
Definition fuzzy_work_left (p : fuzzyPipeline) : nat :=
  4 * length (fp_work p) + length (fp_consumer p) +
  match fp_runner p with fr_calling _ => 4 | fr_responding _ _ => 3 | fr_waiting => 1 | fr_ended => 0 end.

Theorem fuzzy_Close_delivers p :
  rtc fuzzy_pipeline_step fuzzy_pipeline p -> fp_closed p = true -> fp_panicked p = false ->
  (forall p', fuzzy_pipeline_step p p' -> fp_panicked p' = false ->
     fp_closed p' = true /\ fp_appended p' = fp_appended p /\
     (fuzzy_work_left p' < fuzzy_work_left p)%nat) /\
  ((forall p', fuzzy_pipeline_step p p' -> fp_panicked p' = true) ->
     fp_runner p = fr_ended /\ (fp_taken p).*1 = fp_appended p).
Proof.
  intros [Ho Hw Hc He]%fuzzy_pipeline_reachable_ok Hcl Hp. split.
  - intros p' Hs Hp'. unfold fuzzy_work_left. destruct Hs; simpl in *; try done;
      (split; [done|split; [done|]]); rewrite ?length_app; simpl; lia.
  - intros Hstuck. destruct p as [w cl r c a t pn]. simpl in *. subst cl pn.
    assert (c = []) as ->.
    { destruct c as [|x c]; [done|]. by specialize (Hstuck _ (fp_take x w true r c a t)). }
    destruct r as [|req|req err|].
    + destruct w as [|req w]; [by specialize (Hstuck _ (fp_run_end [] a t))|].
      by specialize (Hstuck _ (fp_run_take req w true [] a t)).
    + by specialize (Hstuck _ (fp_run_call req None w true [] a t)).
    + specialize (Hstuck _ (fp_run_respond req err w true [] a t ltac:(unfold fuzzy_chan; simpl; lia))). done.
    + destruct (He eq_refl) as [-> _]. simpl in Ho. by rewrite app_nil_r in Ho.
Qed.

(** When nobody takes the futures any more and their channel is full, the goroutine stays
    where it is for good. *)
Lemma fuzzy_pipeline_leak p p' req err :
  fp_runner p = fr_responding req err -> length (fp_consumer p) = fuzzy_chan ->
  fuzzy_pipeline_step p p' -> fp_taken p' = fp_taken p ->
  fp_runner p' = fr_responding req err /\ length (fp_consumer p') = fuzzy_chan.
Proof.
  intros Hr Hc Hs Ht. destruct Hs; simpl in *; try done; try lia.
  apply (f_equal length) in Ht. rewrite length_app in Ht. simpl in Ht. lia.
Qed.
