(* ===== verification/Compat.v ===== *)
(** * The compatibility tests, [raft-compat/testcluster] and [raft-compat/utils]

    Clusters of servers of this version and of the previous one, and the conversion of
    a store of one version into a store of the other that the rolling upgrades use.  The
    previous version is a package of its own: its log and its store are arguments. *)
From S2P Require Import Prelude Types Util Codec Configuration Config Stores State Elections AppendEntries SnapshotStores Snapshot Fsm Replication Leader Api Server Cluster Startup Queries InmemTransport Testing TestCluster.

(** ** Clusters *)

(** What the methods of the interface [RaftNode] answer; the state is the one of the
    server that [GetRaft] returns. *)
Record RaftNode := mkRaftNode {
  rn_LocalID : string;
  rn_LocalAddr : string;
  rn_LeaderID : string;
  rn_State : RaftState;
  rn_NumLogs : Z
}.

Definition NewRaftCluster (f : string -> RaftNode) (count : nat) (name : string)
    : list RaftNode :=
  (fun i : nat => f (name +:+ "-" +:+ pretty i)) <$> seq 0 count.

Definition rc_GetLeader (rafts : list RaftNode) : option RaftNode :=
  snd <$> list_find (fun n => rn_LocalID n = rn_LeaderID n) rafts.

Definition rc_AddNode (node : RaftNode) (rafts : list RaftNode) : list RaftNode :=
  [node] ++ rafts.

Fixpoint rc_GetIndex_loop (i : Z) (rafts : list RaftNode) (id : string) : Z :=
  match rafts with
  | [] => -1
  | r :: rest => if decide (rn_LocalID r = id) then i else rc_GetIndex_loop (i + 1) rest id
  end.

Definition rc_GetIndex (rafts : list RaftNode) (id : string) : Z := rc_GetIndex_loop 0 rafts id.

(** [None] is the panic of an index or a slice out of range. *)
Definition rc_at (rafts : list RaftNode) (i : Z) : option RaftNode :=
  if decide (i < 0)%Z then None else rafts !! Z.to_nat i.

Definition rc_Raft (rafts : list RaftNode) (id : string) : option RaftState :=
  rn_State <$> rc_at rafts (rc_GetIndex rafts id).

Definition rc_DeleteNode (id : string) (rafts : list RaftNode) : option (list RaftNode) :=
  let i := rc_GetIndex rafts id in
  if decide (0 <= i < Z.of_nat (length rafts))%Z
  then Some (take (Z.to_nat i) rafts ++ drop (S (Z.to_nat i)) rafts)
  else None.

(** The function [leader] of [WaitForNewLeader]: the loop over the positions, which looks
    each server up by its identifier again. *)
Fixpoint leader_from (rafts rest : list RaftNode) : string :=
  match rest with
  | [] => ""
  | n :: rest =>
      if decide (rc_Raft rafts (rn_LocalID n) = Some Leader) then rn_LocalID n
      else leader_from rafts rest
  end.

Definition current_leader (rafts : list RaftNode) : string := leader_from rafts rafts.

(** The cluster at each tick before the five seconds end: how many ticks the wait took,
    [None] when the time ran out. *)
Fixpoint WaitForNewLeader (oldLeader : string) (ticks : list (list RaftNode)) : option nat :=
  match ticks with
  | [] => None
  | c :: ticks =>
      let id := current_leader c in
      if decide (id <> "" /\ (id <> oldLeader \/ oldLeader = "")) then Some 1%nat
      else S <$> WaitForNewLeader oldLeader ticks
  end.

(** ** The conversion of the stores *)

(** The conversion of the type of an entry to and from its byte. *)
Definition LogType_uint8 (t : LogType) : N :=
  match t with
  | LogCommand => 0
  | LogNoop => 1
  | LogAddPeerDeprecated => 2
  | LogRemovePeerDeprecated => 3
  | LogBarrier => 4
  | LogConfiguration => 5
  | LogTypeOther n => n
  end%N.

Definition uint8_LogType (n : N) : LogType :=
  match n with
  | 0 => LogCommand
  | 1 => LogNoop
  | 2 => LogAddPeerDeprecated
  | 3 => LogRemovePeerDeprecated
  | 4 => LogBarrier
  | 5 => LogConfiguration
  | _ => LogTypeOther n
  end%N.

(** The log of the previous version: its fields, and a log with given fields. *)
Class PreviousLog (PL : Type) := {
  pl_Index : PL -> N;
  pl_Term : PL -> N;
  pl_Type : PL -> N;
  pl_Data : PL -> string;
  pl_Extensions : PL -> string;
  pl_AppendedAt : PL -> Z;
  pl_make : N -> N -> N -> string -> string -> Z -> PL
}.

Class PreviousLogLaws (PL : Type) `{PreviousLog PL} := {
  pl_Index_make i t ty d e a : pl_Index (pl_make i t ty d e a) = i;
  pl_Term_make i t ty d e a : pl_Term (pl_make i t ty d e a) = t;
  pl_Type_make i t ty d e a : pl_Type (pl_make i t ty d e a) = ty;
  pl_Data_make i t ty d e a : pl_Data (pl_make i t ty d e a) = d;
  pl_Extensions_make i t ty d e a : pl_Extensions (pl_make i t ty d e a) = e;
  pl_AppendedAt_make i t ty d e a : pl_AppendedAt (pl_make i t ty d e a) = a
}.

(** The log store of the previous version; [prev_GetLog] is what the log that the caller
    passes holds afterwards, the zero log when there is no such entry. *)
Class PreviousStore (P PL : Type) := {
  prev_NewInmemStore : P;
  prev_FirstIndex : P -> N;
  prev_LastIndex : P -> N;
  prev_GetLog : P -> N -> PL;
  prev_StoreLog : P -> PL -> P
}.

Section Convert.
Context {P PL : Type} `{!PreviousLog PL} `{!PreviousStore P PL} `{!StableStore P}.

Definition convertLogToUIT (ll : PL) : Log :=
  mkLog (pl_Index ll) (pl_Term ll) (uint8_LogType (pl_Type ll)) (pl_Data ll)
    (pl_Extensions ll) (pl_AppendedAt ll).

Definition convertLogToPrevious (ll : Log) : PL :=
  pl_make (log_Index ll) (log_Term ll) (LogType_uint8 (log_Type ll)) (log_Data ll)
    (log_Extensions ll) (log_AppendedAt ll).

(** [get, _ := ss.Get(key); ss.Set(key, get)], and the same for numbers: the value is
    read from the store it is written to. *)
Definition rewrite_key {K} `{StableStore K} (key : string) (ss : K) : K :=
  (Set_ ss key (default "" (Get ss key).1)).1.

Definition rewrite_key64 {K} `{StableStore K} (key : string) (ss : K) : K :=
  (SetUint64 ss key (GetUint64 ss key).1).1.

Definition rewrite_keys {K} `{StableStore K} (ss : K) : K :=
  let ss := rewrite_key keyCurrentTerm ss in
  let ss := rewrite_key keyLastVoteTerm ss in
  let ss := rewrite_key keyLastVoteCand ss in
  let ss := rewrite_key64 keyCurrentTerm ss in
  let ss := rewrite_key64 keyLastVoteTerm ss in
  rewrite_key64 keyLastVoteCand ss.

(** [for i := fi; i <= li; i++]; the fuel is the number of iterations. *)
Fixpoint copy_to_UIT (fuel : nat) (i : N) (s : P) (ss : InmemStore) : InmemStore :=
  match fuel with
  | O => ss
  | S fuel => copy_to_UIT fuel (u64_add i 1) s (StoreLog ss (convertLogToUIT (prev_GetLog s i))).1
  end.

Definition convertInMemStoreToUIT (s : P) : InmemStore :=
  let fi := prev_FirstIndex s in
  let li := prev_LastIndex s in
  rewrite_keys (copy_to_UIT (N.to_nat (li + 1 - fi)) fi s NewInmemStore).

(** [new(raft.Log)] and [s.GetLog(i, log)] with its error dropped. *)
Definition read_log (s : InmemStore) (i : N) : Log :=
  match inmem_GetLog s i with Ok l => l | Err _ => mkLog 0 0 LogCommand "" "" 0 end.

Fixpoint copy_to_Previous (fuel : nat) (i : N) (s : InmemStore) (ss : P) : P :=
  match fuel with
  | O => ss
  | S fuel => copy_to_Previous fuel (u64_add i 1) s (prev_StoreLog ss (convertLogToPrevious (read_log s i)))
  end.

Definition convertInMemStoreToPrevious (s : InmemStore) : P :=
  let fi := lowIndex s in
  let li := highIndex s in
  rewrite_keys (copy_to_Previous (N.to_nat (li + 1 - fi)) fi s prev_NewInmemStore).

(** [InitUITWithStore]: the store of the previous version is converted when there is one.
    The transport is given by its address. *)
Definition InitUIT_config (id : string) (cfgMod : Config -> Config) : Config :=
  let c := cfgMod DefaultConfig in
  with_LocalID id
    (mkConfig (ProtocolVersion c) (50 * Millisecond) (50 * Millisecond) (5 * Millisecond)
       (MaxAppendEntries c) (BatchApplyCh c) (ShutdownOnRemove c) (TrailingLogs c)
       (SnapshotInterval c) (SnapshotThreshold c) (50 * Millisecond) (LocalID c) (LogLevel c)
       (NoSnapshotRestoreOnStart c) (PreVoteDisabled c) (NoLegacyTelemetry c) (skipStartup c)).

Definition InitUITWithStore {SN F} `{!SnapshotStore SN} `{!FSM F SN} `{!MsgPack} `{!PeerCodec}
    (id : string) (store : option P) (cfgMod : Config -> Config) (addr : ServerAddress)
    (snap : SN) (fsm : F) : outcome (Raft InmemStore InmemStore SN * F) (option error) :=
  let node_Store :=
    match store with Some s => convertInMemStoreToUIT s | None => NewInmemStore end in
  NewRaft (InitUIT_config id cfgMod) addr true (mkStores node_Store node_Store snap) fsm.
End Convert.

(** ** Facts: clusters *)

Lemma rc_GetIndex_loop_spec i rafts id :
  match list_find (fun n => rn_LocalID n = id) rafts with
  | Some (k, _) => rc_GetIndex_loop i rafts id = (i + Z.of_nat k)%Z
  | None => rc_GetIndex_loop i rafts id = (-1)%Z
  end.
Proof.
  revert i. induction rafts as [|r rafts IH]; intros i; [done|]. simpl.
  destruct (decide (rn_LocalID r = id)); [lia|]. specialize (IH (i + 1)%Z).
  destruct (list_find _ rafts) as [[k n']|]; simpl; lia.
Qed.

(** Deleting a node removes the first one with the identifier and no other; an identifier
    that no node has panics. *)
Lemma rc_DeleteNode_spec id rafts :
  rc_DeleteNode id rafts =
  match list_find (fun n => rn_LocalID n = id) rafts with
  | Some (k, _) => Some (take k rafts ++ drop (S k) rafts)
  | None => None
  end.
Proof.
  unfold rc_DeleteNode, rc_GetIndex. pose proof (rc_GetIndex_loop_spec 0 rafts id) as HI.
  destruct (list_find _ rafts) as [[k n]|] eqn:HF; rewrite HI; [|by rewrite decide_False by lia].
  apply list_find_Some in HF as (HF & _). apply lookup_lt_Some in HF.
  rewrite decide_True by lia. by rewrite Z.add_0_l, Nat2Z.id.
Qed.

Lemma rc_AddNode_DeleteNode n rafts : rc_DeleteNode (rn_LocalID n) (rc_AddNode n rafts) = Some rafts.
Proof. rewrite rc_DeleteNode_spec. simpl. by rewrite decide_True. Qed.

Lemma rc_Raft_at rafts n k :
  NoDup (rn_LocalID <$> rafts) -> rafts !! k = Some n ->
  rc_Raft rafts (rn_LocalID n) = Some (rn_State n).
Proof.
  intros Hnd Hk. unfold rc_Raft, rc_GetIndex.
  pose proof (rc_GetIndex_loop_spec 0 rafts (rn_LocalID n)) as HI.
  destruct (list_find _ rafts) as [[j m]|] eqn:HF.
  - apply list_find_Some in HF as (Hj & Hid & _). rewrite HI. unfold rc_at.
    rewrite decide_False, Z.add_0_l, Nat2Z.id, Hj by lia. simpl. do 2 f_equal.
    assert (j = k) as ->; [|congruence].
    eapply NoDup_lookup; [exact Hnd| |]; rewrite list_lookup_fmap; [by rewrite Hj|rewrite Hk].
    simpl. by rewrite Hid.
  - exfalso. apply list_find_None in HF. rewrite Forall_lookup in HF. by apply (HF k n).
Qed.

Definition first_leader (c : list RaftNode) : option string :=
  (fun p => rn_LocalID p.2) <$> list_find (fun n => rn_State n = Leader) c.

Lemma leader_from_spec rafts rest :
  (forall n, n ∈ rest -> rc_Raft rafts (rn_LocalID n) = Some (rn_State n)) ->
  leader_from rafts rest = default "" (first_leader rest).
Proof.
  induction rest as [|n rest IH]; intros HR; [done|]. unfold first_leader in *. simpl.
  rewrite HR by set_solver. destruct (decide (rn_State n = Leader)) as [->|Hn].
  - by rewrite decide_True by done.
  - rewrite decide_False by congruence. rewrite IH by set_solver.
    by destruct (list_find _ rest) as [[]|].
Qed.

(** With different identifiers, [WaitForNewLeader] looks only at the first leader of the
    cluster at each tick: it ends with the first tick where that one is not the old
    leader, and a new leader that stands after an old one which has not stepped down does
    not end it. *)
Lemma WaitForNewLeader_spec old ticks :
  old <> "" ->
  Forall (fun c => NoDup (rn_LocalID <$> c) /\ Forall (fun n => rn_LocalID n <> "") c) ticks ->
  WaitForNewLeader old ticks =
  (fun p => S p.1) <$> list_find (fun c => first_leader c <> None /\ first_leader c <> Some old) ticks.
Proof.
  intros Hold. induction 1 as [|c ticks [Hnd Hne] HF IH]; [done|]. simpl.
  assert (current_leader c = default "" (first_leader c)) as ->.
  { apply leader_from_spec. intros n [k Hk]%list_elem_of_lookup_1. by eapply rc_Raft_at. }
  assert (first_leader c <> Some "") as Hl.
  { unfold first_leader. destruct (list_find _ c) as [[k n]|] eqn:Hl; [|done].
    apply list_find_Some in Hl as (Hk & _). rewrite Forall_lookup in Hne.
    specialize (Hne k n Hk). simpl. congruence. }
  rewrite IH. destruct (decide (first_leader c <> None /\ first_leader c <> Some old)) as [Hd|Hd].
  - destruct (first_leader c) as [l|]; [|naive_solver]. rewrite decide_True; [done|]. naive_solver.
  - rewrite decide_False; [by destruct (list_find _ ticks) as [[]|]|].
    destruct (first_leader c) as [l|]; naive_solver.
Qed.

(** ** Facts: the conversion *)

Definition proper_type (t : LogType) : Prop := forall n, t = LogTypeOther n -> (5 < n)%N.

Lemma uint8_LogType_uint8 t : proper_type t -> uint8_LogType (LogType_uint8 t) = t.
Proof.
  intros Ht. destruct t as [| | | | | |n]; try done. specialize (Ht n eq_refl). simpl.
  destruct n as [|[[|[]|]|[|[]|]|]]; done || lia.
Qed.

Section ConvertFacts.
Context {P PL : Type} `{PreviousLogLaws PL} `{!PreviousStore P PL} `{!StableStore P}.
Implicit Types (s : P) (ss : InmemStore) (i : N).

(** An entry keeps its fields through both conversions. *)
Lemma convertLog_roundtrip (l : Log) :
  proper_type (log_Type l) -> convertLogToUIT (convertLogToPrevious (PL := PL) l) = l.
Proof.
  intros Ht. unfold convertLogToUIT, convertLogToPrevious.
  rewrite pl_Index_make, pl_Term_make, pl_Type_make, pl_Data_make, pl_Extensions_make,
    pl_AppendedAt_make, uint8_LogType_uint8 by done. by destruct l.
Qed.

Lemma rewrite_key64_kvInt key ss x :
  default 0%N (im_kvInt (rewrite_key64 key ss) !! x) = default 0%N (im_kvInt ss !! x).
Proof.
  simpl. destruct (decide (key = x)) as [->|Hne]; [by rewrite lookup_insert_eq|by rewrite lookup_insert_ne].
Qed.

Lemma rewrite_key_kv key ss x :
  im_kv (rewrite_key key ss) !! x =
  if decide (key = x) then Some (default "" (im_kv ss !! x)) else im_kv ss !! x.
Proof.
  simpl. rewrite lookup_insert. case_decide as Hx; [|done]. rewrite Hx. unfold inmem_Get.
  by destruct (im_kv ss !! x).
Qed.

Lemma copy_to_UIT_keys fuel i s ss :
  im_kv (copy_to_UIT fuel i s ss) = im_kv ss /\ im_kvInt (copy_to_UIT fuel i s ss) = im_kvInt ss.
Proof. revert i ss. induction fuel as [|fuel IH]; intros i ss; [done|]. simpl. by rewrite !(proj1 (IH _ _)), !(proj2 (IH _ _)). Qed.

(** Whatever the store of the previous version holds, the converted one has no term and
    no vote: the values are read back from the new store. *)
Theorem convertInMemStoreToUIT_forgets s :
  disk_term (convertInMemStoreToUIT s) = 0%N /\
  disk_vote_term (convertInMemStoreToUIT s) = 0%N /\
  disk_vote_cand (convertInMemStoreToUIT s) = Some "".
Proof.
  unfold convertInMemStoreToUIT. set (c := copy_to_UIT _ _ _ _).
  destruct (copy_to_UIT_keys (N.to_nat (prev_LastIndex s + 1 - prev_FirstIndex s))
    (prev_FirstIndex s) s NewInmemStore) as [Hkv Hint]. fold c in Hkv, Hint.
  unfold disk_term, disk_vote_term, disk_vote_cand, rewrite_keys. cbv zeta.
  split; [|split].
  1,2: simpl GetUint64; unfold inmem_GetUint64; cbn [fst]; rewrite !rewrite_key64_kvInt; simpl; by rewrite Hint.
  transitivity (im_kv (rewrite_key keyLastVoteCand
    (rewrite_key keyLastVoteTerm (rewrite_key keyCurrentTerm c))) !! keyLastVoteCand).
  { simpl Get. unfold inmem_Get. by destruct (im_kv _ !! _). }
  by rewrite !rewrite_key_kv, Hkv.
Qed.

Lemma copy_to_UIT_spec fuel i s ss :
  (i + N.of_nat fuel < u64_size)%N ->
  (forall j, (i <= j < i + N.of_nat fuel)%N -> pl_Index (prev_GetLog s j) = j) ->
  forall j, im_logs (copy_to_UIT fuel i s ss) !! j =
    if decide (i <= j < i + N.of_nat fuel)%N then Some (convertLogToUIT (prev_GetLog s j))
    else im_logs ss !! j.
Proof.
  revert i ss. induction fuel as [|fuel IH]; intros i ss Hb Hi j.
  { by rewrite decide_False by lia. }
  cbn [copy_to_UIT]. rewrite u64_add_small by lia. rewrite IH; [|lia|intros; apply Hi; lia].
  simpl. rewrite Hi by lia. rewrite lookup_insert.
  destruct (decide (i = j)) as [->|Hne].
  - rewrite decide_False by lia. by rewrite decide_True by lia.
  - repeat case_decide; done || lia.
Qed.

(** The bounds of the store while its entries are copied in order. *)
Lemma copy_to_UIT_bounds fuel i s ss :
  (i + N.of_nat fuel < u64_size)%N ->
  (forall j, (i <= j < i + N.of_nat fuel)%N -> pl_Index (prev_GetLog s j) = j) ->
  (highIndex ss < i)%N -> (0 < fuel)%nat ->
  lowIndex (copy_to_UIT fuel i s ss) = (if decide (lowIndex ss = 0)%N then i else lowIndex ss) /\
  highIndex (copy_to_UIT fuel i s ss) = (i + N.of_nat fuel - 1)%N.
Proof.
  revert i ss. induction fuel as [|fuel IH]; intros i ss Hb Hi Hhigh Hf; [lia|].
  cbn [copy_to_UIT]. rewrite u64_add_small by lia.
  match goal with |- lowIndex (copy_to_UIT _ _ _ ?x) = _ /\ _ => set (ss' := x) end.
  assert (lowIndex ss' = (if decide (lowIndex ss = 0)%N then i else lowIndex ss) /\ highIndex ss' = i)
    as [Hl' Hh'].
  { simpl. rewrite Hi by lia. by rewrite (decide_True (P := (highIndex ss < i)%N)) by lia. }
  destruct fuel as [|fuel]; [cbn [copy_to_UIT]; rewrite <- Hl'; split; [done|lia]|].
  destruct (IH (i + 1)%N ss') as [-> ->]; [lia|intros; apply Hi; lia|lia|lia|].
  split; [|lia]. rewrite Hl'. destruct (decide (lowIndex ss = 0)%N); case_decide; done || lia.
Qed.

(** The entries are converted: the new store has the entry of each index of the old one,
    under the same first and last index. *)
Theorem convertInMemStoreToUIT_logs s :
  let fi := prev_FirstIndex s in let li := prev_LastIndex s in
  (0 < fi <= li)%N -> (li + 1 < u64_size)%N ->
  (forall i, (fi <= i <= li)%N -> pl_Index (prev_GetLog s i) = i) ->
  FirstIndex (convertInMemStoreToUIT s) = Ok fi /\ LastIndex (convertInMemStoreToUIT s) = Ok li /\
  forall i, GetLog (convertInMemStoreToUIT s) i =
    if decide (fi <= i <= li)%N then Ok (convertLogToUIT (prev_GetLog s i)) else Err ErrLogNotFound.
Proof.
  intros fi li Hfl Hb Hi.
  set (c := copy_to_UIT (N.to_nat (li + 1 - fi)) fi s NewInmemStore).
  change (Ok (lowIndex c) = Ok fi /\ Ok (highIndex c) = Ok li /\
    forall i, inmem_GetLog c i = if decide (fi <= i <= li)%N
      then Ok (convertLogToUIT (prev_GetLog s i)) else Err ErrLogNotFound).
  unfold inmem_GetLog, c.
  destruct (copy_to_UIT_bounds (N.to_nat (li + 1 - fi)) fi s NewInmemStore) as [-> ->];
    [lia|intros; apply Hi; lia|simpl; lia|lia|].
  split; [done|]. split; [f_equal; lia|]. intros i.
  rewrite copy_to_UIT_spec; [|lia|intros; apply Hi; lia]. repeat case_decide; done || lia.
Qed.

(** An empty store is converted into one with an entry at index 0, since the loop runs
    once. *)
Lemma convertInMemStoreToUIT_empty s :
  prev_FirstIndex s = 0%N -> prev_LastIndex s = 0%N -> pl_Index (prev_GetLog s 0) = 0%N ->
  GetLog (convertInMemStoreToUIT s) 0 = Ok (convertLogToUIT (prev_GetLog s 0)) /\
  LastIndex (convertInMemStoreToUIT s) = Ok 0%N.
Proof.
  intros Hf Hl Hi. set (c := copy_to_UIT 1 0 s NewInmemStore).
  assert (im_logs (convertInMemStoreToUIT s) = im_logs c /\ highIndex (convertInMemStoreToUIT s) = highIndex c)
    as [Hlogs Hhigh] by (unfold convertInMemStoreToUIT; by rewrite Hf, Hl).
  split; [change (inmem_GetLog (convertInMemStoreToUIT s) 0 = Ok (convertLogToUIT (prev_GetLog s 0)))
    |change (Ok (highIndex (convertInMemStoreToUIT s)) = Ok 0%N)].
  all: unfold inmem_GetLog; rewrite ?Hlogs, ?Hhigh; unfold c.
  - rewrite copy_to_UIT_spec; [done|done|]. intros j Hj. by replace j with 0%N by lia.
  - simpl. by rewrite Hi.
Qed.
End ConvertFacts.

(** ** A second vote after an upgrade *)

#[local] Existing Instance bitsMsgPack.
#[local] Existing Instance inmemPeerCodec.
#[local] Existing Instance text_FSM.

#[local] Instance own_PreviousLog : PreviousLog Log := {|
  pl_Index := log_Index;
  pl_Term := log_Term;
  pl_Type l := LogType_uint8 (log_Type l);
  pl_Data := log_Data;
  pl_Extensions := log_Extensions;
  pl_AppendedAt := log_AppendedAt;
  pl_make i t ty d e a := mkLog i t (uint8_LogType ty) d e a
|}.

#[local] Instance own_PreviousStore : PreviousStore InmemStore Log := {|
  prev_NewInmemStore := NewInmemStore;
  prev_FirstIndex := lowIndex;
  prev_LastIndex := highIndex;
  prev_GetLog := read_log;
  prev_StoreLog s l := (StoreLog s l).1
|}.

(** A server whose disk records its vote of term 3 grants another candidate its vote of
    term 3 when it is started again from its converted store, and not when it is started
    from the store itself. *)
Example upgrade_second_vote :
  let req := vote_request "b" "addr-b" 3 9 3 in
  let start k := NewRaft (InitUIT_config "a" id) "addr-a" true (mkStores k k NewInmemSnapshotStore) "" in
  let vote o := match o with Done None (r, _) => granted (requestVote 0 req r) | _ => None end in
  votes_recorded disk_a {[(3%N, "addr-c")]} /\
  vote (start disk_a) = Some false /\
  vote (InitUITWithStore "a" (Some disk_a) id "addr-a" NewInmemSnapshotStore "") = Some true.
Proof. split; [apply disk_a_recorded|]. by vm_compute. Qed.
